(* ===== verification/_CoqProject ===== *)
-Q . S2P
Prelude.v
Effects.v
Types.v
Platform.v
Doctor.v
DoctorSpec.v
Pty.v
PtySpec.v
ErrorCode.v
Message.v
Cursor.v
Codec.v
AnchorSpec.v
Recovery.v
Allocator.v
SimDisk.v
AllocatorSpec.v
TestKit.v
Book.v
BookSpec.v
AnchorFile.v
AnchorFileSpec.v
Session.v
SessionSpec.v
Handshake.v
HandshakeSpec.v
OtpWire.v
OtpRecord.v
OtpPump.v
OtpPumpSpec.v
OtpLink.v
TermFrame.v
Terminal.v
TerminalSpec.v
TermSpawn.v
Transport.v
Loopback.v
TransportSpec.v
TermServer.v
TermServerSpec.v
TermClient.v
TermClientSpec.v
Proto.v
ProtoSpec.v
Meeting.v
DoorText.v
DoorLog.v
DoorLogSpec.v
Doorkeeper.v
DoorkeeperSpec.v
DoorMain.v
TcpNet.v
AuditTrail.v
AnchorInit.v
Cli.v
ConnSpec.v
Lives.v
CliSpec.v
Texts.v
