(* ===== verification/Prelude.v ===== *)
(** * jbuu: verification of the OTP terminal protocol (root file)

    The program (src/crates/) is a terminal protocol whose keys come from a
    shared one-time book: two ends hold the same book of 64-byte segments, each
    keeps a durable pointer into it (two anchor files), a handshake agrees on the
    next segment, and the segment keys one session.  The crates build on one
    another in this order, and the files of the development follow it:

    - Prelude (this file): results and their notations ([let?], [let!]), machine
      integers, big-endian bytes, slices, and the tactics [ulia], [case_match_in]
      and [slices] that all files share.
    - Effects: programs as trees of calls to their environment and their runs.
      Three ways to speak of a run: the simulation by an abstract automaton, a
      postcondition of every run that the environment follows ([ends]), and a
      property of the history of calls ([upholds]).  [lift] embeds the calls of
      one program into those of another.
    - Types (otp-types): newtypes, directions, roles; pairs indexed by direction.
    - Platform (otp-platform: lib.rs): paths, the calls to the operating system,
      full writes, locks, leases, the anchor backends.  Doctor (otp-platform:
      doctor.rs; otp-cli: doctor.rs): hardening and the examination of the
      system.  DoctorSpec says in terms of a view of the system when it blocks.
      Pty (otp-platform: pty.rs): the pair of a pseudo-terminal, its child, and the
      raw mode of the user's terminal, as programs over the system calls; PtySpec.
    - ErrorCode, Message, Cursor, Codec (otp-codec: error.rs, message.rs,
      decode.rs, encode.rs): the code registry, the wire data, the reader, and
      the encoder and strict decoder of frames and confirmation bodies.
    - AnchorSpec (otp-anchor-spec): the anchor record, its codec and the decision
      which of two anchors to adopt.
    - Recovery (otp-recovery): the repair of an anchor pair.
    - Allocator (otp-book: allocator.rs): the allocator core over the classes
      [AnchorMedia] and [SegmentReader]; issue, reservations, recovery advance,
      failing after an uncertain write.  SimDisk is a disk that can fail or crash
      at every operation; AllocatorSpec has the theorems about both.  TestKit is
      the oracle of issued segments (otp-testkit), held against the allocator.
    - Book (otp-book: header.rs, lib.rs, generate.rs, inspect.rs): the header, the
      reader of a book file, the generator and the inspection, over a file that
      can fail.  BookSpec has the theorems.
    - AnchorFile (otp-book: allocator.rs, FileMedia and Allocator; otp-cli:
      recoveryio.rs): the two anchor files under the allocator core and under
      start-up recovery, on devices that can lose or tear what was not synced.
      AnchorFileSpec proves them to implement the disk of SimDisk.
    - Session (otp-session), SessionSpec: keys, nonces, additional data, the
      session state machine over the class [Aead], and its histories.
    - Handshake (otp-handshake), HandshakeSpec: both state machines over the
      class [SegmentIssuer], which the allocator core implements.
    - OtpWire, OtpRecord, OtpPump (otp-fullotp: wire.rs and control.rs; pad.rs and
      record.rs; pump.rs): the full one-time-pad data plane over the classes
      [Poly1305] and [PadSource].  OtpPumpSpec has the theorems on one pump,
      OtpLink those on two pumps over ordered channels.
    - TermFrame, Terminal (otp-terminal: frame.rs; lease.rs and hub.rs): the
      frames inside a session, and the write lease, the hub of one terminal and
      the registry of terminals over the class [PtyDevice].  TerminalSpec has the
      theorems on histories of a hub and of the registry.  TermSpawn has the
      opening of a terminal, its spawning thread, and the dropping of a hub.
    - Transport, Loopback (otp-transport: lib.rs, frame.rs and tcp.rs;
      loopback.rs): framing over the class [ByteIo], implemented by a TCP socket
      (class [TcpStream]) and by the in-memory pipes.  TransportSpec has the
      theorems about frames over ordered byte streams.
    - TermServer, TermClient (otp-terminal: server.rs; client.rs and the
      connect command of otp-cli): the two loops of a terminal connection, as
      programs of Effects over stream, clock, terminal and input.  TermServerSpec
      and TermClientSpec give each an abstract automaton that every run follows.
    - Proto (otp-cli: proto.rs): the drivers of a session, handshake and echo data
      plane, as programs of Effects.  ProtoSpec joins two of them by channels;
      Meeting puts allocators that work under them.
    - DoorText, DoorLog, Doorkeeper (otp-doorkeeper: warn.rs, lib.rs and obs.rs;
      log.rs; proxy.rs): the SSH relay, its notice line and version observer, its
      log and its threads.  DoorLogSpec has a reader of log lines and a calendar,
      DoorkeeperSpec what each thread does and the pool of all threads.  DoorMain
      (proxy.rs, main.rs) has the listening socket, the socket options, the signal
      thread and main; TcpNet (otp-transport: tcp.rs) connecting and accepting.
    - AuditTrail (otp-platform: audit.rs; otp-cli: auditlog.rs): the audit line, its
      file, and a reader of lines.  AnchorInit (otp-cli: anchorinit.rs,
      anchorio.rs): making and inspecting a pair of anchors, over a model of
      files that can fail.
    - Cli (otp-cli: main.rs): every command, as a program over the calls of the
      parts it drives, with the threads of serve and its two mutexes.  ConnSpec
      has the connection threads, alone and interleaved over one allocator;
      Lives the sequence of all processes of an end over its anchor files: recovery,
      opening, sessions, ends and crashes; CliSpec the order in which serve and
      connect start.
    - Texts: the texts of values, errors and reports (Debug, Display, the reports of
      the inspecting commands), and that none depends on a secret.

    A definition keeps the name of the Rust item where it is free; methods of
    different types with one name carry their type ([client_new], [server_new],
    [seal_otp_record]).  Methods that change their object return it; a call that
    can panic returns [option] of its result, and the theorems show when the
    panic cannot happen.  Fixed arrays are lists with their length stated by the
    well-formedness predicate of their type.  Sums that overflow are [None] where
    the code uses checked operations and wrap where it does not.

    What the theorems show.
    - Keys are spent once: AllocatorSpec (no segment is issued twice over any
      history of calls, failures, crashes and restarts; what is issued is durable
      before), AnchorFileSpec (the same of the two files), Lives (over the whole life of
      an end, with recovery at every start, crashes and connections in any
      interleaving, no two sessions share a segment), OtpPumpSpec (no pad byte is used twice in any history of a pump),
      SessionSpec (no AEAD nonce repeats).
    - Ends agree: HandshakeSpec (a handshake of honest ends completes; an
      established end authenticated its peer; the pointer table is consistent;
      segments are spent only after the checks), SessionSpec (what is sealed
      opens, in order), OtpLink (two pumps never fail and deliver in order),
      Meeting (a session of two drivers over allocators that work, from the first
      frame to the last byte, ends and succeeds in every order of their steps).
    - Failures are final: in SessionSpec, HandshakeSpec and OtpPumpSpec an error leaves
      no keys and no way on, but for the cases the theorems name (a second start of a
      handshake, a malformed frame at a pump).
    - Formats: decoders accept exactly the encodings of well-formed values
      (Codec, AnchorSpec, OtpWire, TermFrame, BookSpec's header), with the order
      of their checks; what a book's generator wrote opens and inspects clean.
    - One writer: TerminalSpec (whatever connections do to a terminal is a run of
      an abstract lease with one live token; handles are never reused).
    - Terminals: PtySpec (a write to a terminal is bounded in time, and either all
      went out or an error tells), TermSpawn (a shell that is handed out was started
      whole, and what a failed start opened is closed).
    - Bytes in order: TransportSpec (frames received are frames sent, in order, as long
      as no receive fails in the middle of one), TermServerSpec and TermClientSpec (a
      connection forwards input and output in order, reports an exit after the output
      read by then, and once granted drops its grant and closes when it returns).
    - The relay: DoorText (the observer sees the stream, however it is cut),
      DoorLogSpec (a log line is one line of JSON that gives the event back; the
      dates are Gregorian), DoorkeeperSpec (a pipe thread forwards what it reads; a
      connection is greeted, served and ended once; the limit holds).
    - Choices: Recovery and AnchorSpec give the result of every case;
      AnchorFileSpec that recovery over files never loses the higher record and that
      a record is written atomically, whatever fails; DoctorSpec when the examination
      blocks, and what the override and the marker change.
    - Order of effects: CliSpec (nothing is listened to, connected or issued
      before hardening, examination, log, recovery and allocator), ConnSpec (one
      lock at a time; the terminal is served after the audit line is on disk),
      AnchorInit (an anchor file that was there is never touched), AuditTrail (a line
      gives its entry back).

    Bounds and termination.  Loops of the source are structural recursions (over
    a list, or a count such as the distance of two pointers) and histories are
    lists of calls.  Loops that wait for the outside (the terminal's, the
    drivers') take the number of their passes as fuel and end in [OutOfFuel] when
    it is used up; one pass of the server has a bound of its own that is proved to
    be enough, the drivers need one pass per chunk typed, and reads and writes of
    a stream have the bytes left as fuel.  The loops of the relay, of the commands
    and of writes to files (which a stream of interruptions can prolong) are cut in
    the same way; their theorems hold at every cut.  Theorems on
    histories of the full-OTP plane assume fewer than 2^64 calls, the width of its
    counters.

    Third-party code is a class with its documented behaviour as laws: [Sha256],
    [Aead], [Poly1305]; the traits of the program that callers implement are
    classes too, with their types as laws.  Each theorem that uses one has a
    witness at a concrete instance.

    Crashes.  A device (AnchorFile) holds what is durable and the contents a crash
    may leave; a torn mixture of two records that happens to pass the digest is
    excluded by the history variable [fm_clean], which no operation reads; AnchorFileSpec
    says exactly which collision of the digest such a mixture takes.  SimDisk
    abstracts from bytes; AnchorFileSpec relates the two.

    Not modelled: zeroing of buffers that are dropped, the kernel's side of system
    calls (a call has any answer of its type, unless a theorem says what the
    environment does), the random generator (its output is an argument), the syntax
    of the command line (clap), the reasons and status lines of the commands, and of
    the test kit what is [todo!()] in the source or data of the test suites. *)

From Stdlib Require Export ZArith Lia Bool.
From Stdlib Require Import Strings.Byte.
From stdpp Require Export base decidable list numbers option.
From stdpp Require Import strings.

#[global] Open Scope Z_scope.

(** ** Results of fallible code

    [Result<T, E>] of the source.  [let? x := e in k] is Rust's [?] on an
    expression whose error type is the one of the caller. *)
Inductive result (T E : Type) : Type :=
  | Ok (t : T)
  | Err (e : E).
Arguments Ok {T E} t.
Arguments Err {T E} e.

#[global] Instance result_eq_dec {T E} `{EqDecision T, EqDecision E} :
  EqDecision (result T E).
Proof. solve_decision. Defined.

Definition result_bind {A B E} (r : result A E) (k : A -> result B E) :
  result B E :=
  match r with Ok a => k a | Err e => Err e end.

Definition result_map {A B E} (f : A -> B) (r : result A E) : result B E :=
  match r with Ok a => Ok (f a) | Err e => Err e end.

Definition map_err {A E F} (f : E -> F) (r : result A E) : result A F :=
  match r with Ok a => Ok a | Err e => Err (f e) end.

Definition ok_or {A E} (o : option A) (e : E) : result A E :=
  match o with Some a => Ok a | None => Err e end.

(** [Option::is_some]. *)
Definition is_some {A} (o : option A) : bool :=
  match o with Some _ => true | None => false end.

Lemma is_some_iff {A} (o : option A) : is_some o = true <-> is_Some o.
Proof.
  destruct o; simpl; split; intros H; eauto; try discriminate.
  destruct H. discriminate.
Qed.

Lemma is_some_false {A} (o : option A) : is_some o = false <-> o = None.
Proof. destruct o; simpl; split; congruence. Qed.

Definition is_ok {A E} (r : result A E) : bool :=
  match r with Ok _ => true | Err _ => false end.

Declare Scope jbuu_scope.
Delimit Scope jbuu_scope with jbuu.
Notation "'let?' x := e 'in' k" :=
  (result_bind e (fun x => k))
  (at level 200, x name, e at level 100, k at level 200) : jbuu_scope.
Notation "'let?' ' x := e 'in' k" :=
  (result_bind e (fun y => match y with x => k end))
  (at level 200, x strict pattern, e at level 100, k at level 200)
  : jbuu_scope.
(** State-passing calls: [let! s , x := call in k] threads the state out of a
    call returning [state * result], and stops with it on [Err]. *)
Notation "'let!' s , x := e 'in' k" :=
  (match e with (s, Ok x) => k | (s, Err z) => (s, Err z) end)
  (at level 200, s name, x name, e at level 100, k at level 200)
  : jbuu_scope.
#[global] Open Scope jbuu_scope.

Lemma result_bind_ok {A B E} (r : result A E) (k : A -> result B E) b :
  result_bind r k = Ok b -> exists a, r = Ok a /\ k a = Ok b.
Proof. destruct r; simpl; [eauto | discriminate]. Qed.

Lemma result_bind_err {A B E} (r : result A E) (k : A -> result B E) e :
  result_bind r k = Err e ->
  r = Err e \/ exists a, r = Ok a /\ k a = Err e.
Proof. destruct r; simpl; [eauto | left; congruence]. Qed.

(** Injectivity without the simplification [injection] makes. *)
Lemma ok_inj {A E} (a b : A) : @Ok A E a = Ok b -> a = b.
Proof. intros H. injection H. auto. Qed.

Lemma some_inj {A} (a b : A) : Some a = Some b -> a = b.
Proof. intros H. injection H. auto. Qed.

(** Inverts a chain of [let?] that returned [Ok]. *)
Ltac inv_ok :=
  repeat match goal with
  | H : result_bind _ _ = Ok _ |- _ =>
      let a := fresh "v" in
      let H1 := fresh "Hv" in
      apply result_bind_ok in H; destruct H as (a & H1 & H)
  | H : Ok _ = Ok _ |- _ => injection H as H
  | H : Err _ = Ok _ |- _ => discriminate H
  | H : Ok _ = Err _ |- _ => discriminate H
  end.

(** Splits every [if] and [match] in the goal or in [H], keeping equations. *)
Ltac case_match_in H :=
  match type of H with
  | context [match ?x with _ => _ end] =>
      let E := fresh "E" in destruct x eqn:E
  end.

(** ** Machine integers, as [Z] with their width *)
Definition U8_MAX : Z := 2 ^ 8 - 1.
Definition U16_MAX : Z := 2 ^ 16 - 1.
Definition U32_MAX : Z := 2 ^ 32 - 1.
Definition U64_MAX : Z := 2 ^ 64 - 1.

Definition is_u8 (z : Z) : Prop := 0 <= z < 256.
Definition is_u16 (z : Z) : Prop := 0 <= z < 65536.
Definition is_u32 (z : Z) : Prop := 0 <= z < 4294967296.
Definition is_u64 (z : Z) : Prop := 0 <= z < 18446744073709551616.

(** [u64::checked_add] (and [usize::checked_add]: the targets are 64-bit). *)
Definition checked_add_u64 (a b : Z) : option Z :=
  if a + b <=? U64_MAX then Some (a + b) else None.

Definition checked_sub_u64 (a b : Z) : option Z :=
  if b <=? a then Some (a - b) else None.

Definition checked_mul_u64 (a b : Z) : option Z :=
  if a * b <=? U64_MAX then Some (a * b) else None.

Definition saturating_sub (a b : Z) : Z := Z.max 0 (a - b).

Lemma checked_add_u64_some a b c :
  checked_add_u64 a b = Some c <-> c = a + b /\ a + b <= U64_MAX.
Proof.
  unfold checked_add_u64. destruct (Z.leb_spec (a + b) U64_MAX).
  - split; [intros [= <-]; auto | intros [-> _]; auto].
  - split; [discriminate | lia].
Qed.

Lemma checked_add_u64_none a b :
  checked_add_u64 a b = None <-> U64_MAX < a + b.
Proof.
  unfold checked_add_u64. destruct (Z.leb_spec (a + b) U64_MAX);
    split; (discriminate || lia || auto).
Qed.

(** [lia] after unfolding the widths. *)
Ltac ulia :=
  unfold is_u8, is_u16, is_u32, is_u64, U8_MAX, U16_MAX, U32_MAX, U64_MAX,
    saturating_sub in *;
  lia.

(** ** Bytes *)
Notation byte := Byte.byte.

#[global] Instance byte_eq_dec : EqDecision byte := Byte.byte_eq_dec.

Definition b2z (b : byte) : Z := Z.of_N (Byte.to_N b).

(** [z as u8]: the low eight bits. *)
Definition z2b (z : Z) : byte :=
  match Byte.of_N (Z.to_N (z mod 256)) with Some b => b | None => Byte.x00 end.

Lemma b2z_range b : is_u8 (b2z b).
Proof.
  unfold is_u8, b2z. pose proof (Byte.to_N_bounded b). lia.
Qed.

Lemma z2b_b2z b : z2b (b2z b) = b.
Proof. destruct b; reflexivity. Qed.

Lemma b2z_z2b z : b2z (z2b z) = z mod 256.
Proof.
  unfold z2b, b2z. pose proof (Z.mod_pos_bound z 256 ltac:(lia)).
  destruct (Byte.of_N (Z.to_N (z mod 256))) eqn:E.
  - apply Byte.to_of_N in E. rewrite E. lia.
  - apply Byte.of_N_None_iff in E. lia.
Qed.

Lemma b2z_inj a b : b2z a = b2z b -> a = b.
Proof. intros H. rewrite <- (z2b_b2z a), <- (z2b_b2z b), H. reflexivity. Qed.

Lemma b2z_z2b_small z : is_u8 z -> b2z (z2b z) = z.
Proof. intros H. rewrite b2z_z2b. apply Z.mod_small. ulia. Qed.

(** Big-endian: [to_be_bytes] and [from_be_bytes]. *)
Fixpoint be_bytes (n : nat) (z : Z) : list byte :=
  match n with
  | O => []
  | S m => z2b (z / 256 ^ Z.of_nat m) :: be_bytes m z
  end.

Fixpoint be_val (l : list byte) : Z :=
  match l with
  | [] => 0
  | b :: r => b2z b * 256 ^ Z.of_nat (length r) + be_val r
  end.

Lemma length_be_bytes n z : length (be_bytes n z) = n.
Proof. induction n; simpl; auto. Qed.

Lemma pow256_pos n : 0 < 256 ^ Z.of_nat n.
Proof. apply Z.pow_pos_nonneg; lia. Qed.

Lemma be_val_bound l : 0 <= be_val l < 256 ^ Z.of_nat (length l).
Proof.
  induction l as [|b r IH]; [simpl; lia|].
  change (length (b :: r)) with (S (length r)).
  rewrite Nat2Z.inj_succ, Z.pow_succ_r by lia. simpl.
  pose proof (b2z_range b) as Hb. unfold is_u8 in Hb.
  pose proof (pow256_pos (length r)). nia.
Qed.

Lemma be_val_be_bytes_mod n z :
  be_val (be_bytes n z) = z mod 256 ^ Z.of_nat n.
Proof.
  induction n as [|n IH].
  - simpl. rewrite Z.mod_1_r. reflexivity.
  - cbn [be_bytes be_val]. rewrite length_be_bytes, IH, b2z_z2b.
    rewrite Nat2Z.inj_succ, Z.pow_succ_r by lia.
    pose proof (pow256_pos n).
    rewrite (Z.mul_comm 256), Z.rem_mul_r by lia. lia.
Qed.

Lemma be_val_be_bytes n z :
  0 <= z < 256 ^ Z.of_nat n -> be_val (be_bytes n z) = z.
Proof. intros H. rewrite be_val_be_bytes_mod. apply Z.mod_small, H. Qed.

Lemma be_val_inj l1 l2 :
  length l1 = length l2 -> be_val l1 = be_val l2 -> l1 = l2.
Proof.
  revert l2. induction l1 as [|a l1 IH]; intros [|b l2]; try discriminate;
    [auto|].
  intros [= Hl] H. simpl in H. rewrite Hl in H.
  pose proof (be_val_bound l1) as B1. pose proof (be_val_bound l2) as B2.
  rewrite Hl in B1. pose proof (pow256_pos (length l2)).
  assert (Hab : b2z a = b2z b) by nia.
  apply b2z_inj in Hab as ->. f_equal. apply IH; [auto | lia].
Qed.

Lemma be_bytes_be_val l n : n = length l -> be_bytes n (be_val l) = l.
Proof.
  intros ->. apply be_val_inj; [apply length_be_bytes|].
  apply be_val_be_bytes, be_val_bound.
Qed.

Lemma be_bytes_inj n z1 z2 :
  0 <= z1 < 256 ^ Z.of_nat n -> 0 <= z2 < 256 ^ Z.of_nat n ->
  be_bytes n z1 = be_bytes n z2 -> z1 = z2.
Proof.
  intros H1 H2 H. rewrite <- (be_val_be_bytes n z1), H by auto.
  apply be_val_be_bytes, H2.
Qed.

Notation u16_be := (be_bytes 2).
Notation u32_be := (be_bytes 4).
Notation u64_be := (be_bytes 8).

Lemma u16_be_val z : is_u16 z -> be_val (u16_be z) = z.
Proof. intros. apply be_val_be_bytes. ulia. Qed.
Lemma u32_be_val z : is_u32 z -> be_val (u32_be z) = z.
Proof. intros. apply be_val_be_bytes. ulia. Qed.
Lemma u64_be_val z : is_u64 z -> be_val (u64_be z) = z.
Proof. intros. apply be_val_be_bytes. ulia. Qed.

Lemma be_val_u16 l : length l = 2%nat -> is_u16 (be_val l).
Proof. intros H. pose proof (be_val_bound l). rewrite H in *. ulia. Qed.
Lemma be_val_u32 l : length l = 4%nat -> is_u32 (be_val l).
Proof. intros H. pose proof (be_val_bound l). rewrite H in *. ulia. Qed.
Lemma be_val_u64 l : length l = 8%nat -> is_u64 (be_val l).
Proof. intros H. pose proof (be_val_bound l). rewrite H in *. ulia. Qed.

(** Slices [&l[i..j]] of a list at least [j] long. *)
Definition slice {A} (i j : nat) (l : list A) : list A :=
  take (j - i)%nat (drop i l).

Lemma length_slice {A} i j (l : list A) :
  (i <= j <= length l)%nat -> length (slice i j l) = (j - i)%nat.
Proof. intros H. unfold slice. rewrite length_take, length_drop. lia. Qed.

Lemma slice_skip {A} (a l : list A) i j :
  (length a <= i)%nat ->
  slice i j (a ++ l) = slice (i - length a) (j - length a) l.
Proof.
  intros H. unfold slice.
  rewrite drop_app_ge by lia. f_equal. lia.
Qed.

Lemma slice_here {A} (a l : list A) j :
  length a = j -> slice 0 j (a ++ l) = a.
Proof.
  intros <-. unfold slice. rewrite drop_0, Nat.sub_0_r. apply take_app_length.
Qed.

(** Adjacent slices, and the whole list as one. *)
Lemma slice_split {A} (l : list A) i j k :
  (i <= j <= k)%nat -> slice i k l = slice i j l ++ slice j k l.
Proof.
  intros H. unfold slice.
  rewrite <- (take_drop (j - i) (take (k - i) (drop i l))) at 1.
  rewrite take_take, skipn_firstn_comm, drop_drop.
  replace ((j - i) `min` (k - i))%nat with (j - i)%nat by lia.
  replace (i + (j - i))%nat with j by lia.
  replace (k - i - (j - i))%nat with (k - j)%nat by lia. reflexivity.
Qed.

Lemma slice_all {A} (l : list A) : slice 0 (length l) l = l.
Proof. unfold slice. rewrite Nat.sub_0_r, drop_0. apply firstn_all. Qed.

Lemma slice_full {A} (a : list A) j :
  length a = j -> slice 0 j a = a.
Proof. intros H. rewrite <- (app_nil_r a) at 1. apply slice_here, H. Qed.

Lemma drop_skip {A} (a l : list A) n :
  (length a <= n)%nat -> drop n (a ++ l) = drop (n - length a) l.
Proof. intros H. apply drop_app_ge. lia. Qed.

(** Evaluates slices of a concatenation whose pieces have known lengths. *)
Ltac slices :=
  repeat match goal with
  | |- context [slice ?i ?j (?a ++ ?l)] =>
      first
        [ rewrite (slice_here a l j) by
            (rewrite ?length_be_bytes; simpl; first [assumption | lia])
        | rewrite (slice_skip a l i j) by
            (rewrite ?length_be_bytes; simpl; lia);
          match goal with
          | H : length a = ?n |- context [slice (i - length a) (j - length a) l]
            => rewrite H
          | |- _ => rewrite ?length_be_bytes
          end; cbn [length Nat.sub] ]
  | |- context [slice 0 ?j ?a] =>
      rewrite (slice_full a j) by
        (rewrite ?length_be_bytes; simpl; first [assumption | lia])
  end.

(** [l[i]] for a byte of a list at least [S i] long. *)
Definition at_ (i : nat) (l : list byte) : byte := nth i l Byte.x00.

(** [vec![b; n]]. *)
Definition zeros (n : nat) : list byte := repeat Byte.x00 n.

Definition all_zero (l : list byte) : bool :=
  forallb (fun b => b2z b =? 0) l.

Lemma all_zero_spec l : all_zero l = true <-> l = zeros (length l).
Proof.
  unfold all_zero, zeros. induction l as [|b l IH]; simpl; [tauto|].
  rewrite andb_true_iff, IH, Z.eqb_eq. split.
  - intros [Hb Hl]. f_equal; [apply b2z_inj; exact Hb | exact Hl].
  - intros [= -> Hl]. auto.
Qed.

(** Bytes of an ASCII literal. *)
Definition ascii_bytes (s : String.string) : list byte :=
  String.list_byte_of_string s.

Lemma app_inj_length {A} (a b c d : list A) :
  length a = length c -> a ++ b = c ++ d -> a = c /\ b = d.
Proof. intros Hl H. apply app_inj_1 in H; auto. Qed.

Lemma length_Z_nonneg {A} (l : list A) : 0 <= Z.of_nat (length l).
Proof. lia. Qed.

(** [l] counts up from [n]. *)
Fixpoint counts_from (n : Z) (l : list Z) : Prop :=
  match l with [] => True | x :: l => x = n /\ counts_from (n + 1) l end.

Lemma counts_from_lookup l : forall n i x,
  counts_from n l -> l !! i = Some x -> x = n + Z.of_nat i.
Proof.
  induction l as [|y l IH]; intros n i x Hc Hl; [discriminate|].
  destruct Hc as [-> Hc]. destruct i as [|i]; simpl in Hl.
  - injection Hl as <-. lia.
  - rewrite (IH _ _ _ Hc Hl). lia.
Qed.

Lemma counts_from_app n a b :
  counts_from n a -> counts_from (n + Z.of_nat (length a)) b ->
  counts_from n (a ++ b).
Proof.
  revert n. induction a as [|x a IH]; intros n Ha Hb; simpl in *.
  - rewrite Z.add_0_r in Hb. exact Hb.
  - destruct Ha as [-> Ha]. split; [reflexivity|]. apply IH; [exact Ha|].
    replace (n + 1 + Z.of_nat (length a)) with (n + Z.of_nat (S (length a)))
      by lia. exact Hb.
Qed.

(** [slice::starts_with]. *)
Fixpoint starts_with (l p : list byte) : bool :=
  match p, l with
  | [], _ => true
  | b :: p, c :: l => bool_decide (b = c) && starts_with l p
  | _ :: _, [] => false
  end.

(** Splitting lists whose length is known, for wire formats. *)
Lemma take_drop_split {A} n (l : list A) :
  (n <= length l)%nat ->
  exists a b, l = a ++ b /\ length a = n /\ a = take n l /\ b = drop n l.
Proof.
  intros H. exists (take n l), (drop n l).
  rewrite take_drop, length_take. repeat split; lia.
Qed.

Create HintDb wire.
#[export] Hint Rewrite @length_app length_be_bytes @length_slice @length_cons
  @length_nil @repeat_length @length_take @length_drop : wire.
#[export] Hint Resolve be_val_u16 be_val_u32 be_val_u64 b2z_range : wire.

(** Normalises lengths of concatenated wire fields and closes by [lia]. *)
Ltac wire_len := autorewrite with wire in *; simpl in *; try lia.
