(* ===== verification/Effects.v ===== *)
(** * Effects: programs that call their environment

    The drivers of the program (the terminal's loops, the book's file tools)
    call a socket, a clock, files and objects shared with other threads.  They
    are finite trees of calls: the environment answers each call as it likes, and
    theorems hold for all its answers.  A loop without a bound of its own takes
    fuel, and ends in [OutOfFuel]; so every run of the loop, cut at any pass, is a
    run of the tree for some fuel. *)

From S2P Require Export Prelude.

#[local] Open Scope list_scope.

(** How a call of the source ends: it returns, or panics. *)
Inductive outcome (R : Type) : Type :=
  | Done (r : R)
  | Panicked
  | OutOfFuel.
Arguments Done {R} r. Arguments Panicked {R}. Arguments OutOfFuel {R}.

Inductive prog (C : Type) (A : C -> Type) (R : Type) : Type :=
  | Ret (r : R)
  | Call (c : C) (k : A c -> prog C A R).
Arguments Ret {C A R} r.
Arguments Call {C A R} c k.

(** Programs that may panic, with their sequencing. *)
Notation act C A R := (prog C A (outcome R)).

Section Programs.
Context {C : Type} {A : C -> Type}.

Fixpoint prog_bind {R T} (p : prog C A R) (f : R -> prog C A T) : prog C A T :=
  match p with
  | Ret r => f r
  | Call c k => Call c (fun a => prog_bind (k a) f)
  end.

Definition done {R} (r : R) : act C A R := Ret (Done r).

Definition ask (c : C) : act C A (A c) := Call c done.

Definition act_bind {R T} (p : act C A R) (f : R -> act C A T) : act C A T :=
  prog_bind p (fun o =>
    match o with
    | Done r => f r
    | Panicked => Ret Panicked
    | OutOfFuel => Ret OutOfFuel
    end).

(** An event: a call and its answer. *)
Definition event : Type := { c : C & A c }.
Definition ev (c : C) (a : A c) : event := existT c a.

(** [t] is the list of calls and answers of a whole run that ends in [r]. *)
Fixpoint runs {R} (p : prog C A R) (t : list event) (r : R) : Prop :=
  match p with
  | Ret r' => t = [] /\ r = r'
  | Call c k => exists a t', t = ev c a :: t' /\ runs (k a) t' r
  end.

(** Running against an environment [h] with a state of its own. *)
Fixpoint exec {W R} (h : W -> forall c, W * A c) (w : W) (p : prog C A R) :
  W * list event * R :=
  match p with
  | Ret r => (w, [], r)
  | Call c k =>
      let '(w, a) := h w c in
      let '(w, t, r) := exec h w (k a) in
      (w, ev c a :: t, r)
  end.

Lemma exec_runs {W R} (h : W -> forall c, W * A c) (p : prog C A R) : forall w w' t r,
  exec h w p = (w', t, r) -> runs p t r.
Proof.
  induction p as [r0|c k IH]; intros w w' t r E; cbn in *.
  - injection E as <- <- <-. auto.
  - destruct (h w c) as [w1 a]. destruct (exec h w1 (k a)) as [[w2 t2] r2] eqn:E2.
    injection E as <- <- <-. eauto.
Qed.

Lemma exec_is_run {W R} (h : W -> forall c, W * A c) (w : W) (p : prog C A R) :
  runs p (snd (fst (exec h w p))) (snd (exec h w p)).
Proof. destruct (exec h w p) as [[w' t] r] eqn:E. apply (exec_runs h p _ _ _ _ E). Qed.

Lemma exec_bind {W R T} (h : W -> forall c, W * A c) (p : prog C A R) (f : R -> prog C A T) :
  forall w, exec h w (prog_bind p f) =
    let '(w1, t1, r) := exec h w p in
    let '(w2, t2, x) := exec h w1 (f r) in (w2, t1 ++ t2, x).
Proof.
  induction p as [r|c k IH]; intros w; cbn [prog_bind exec].
  - destruct (exec h w (f r)) as [[w2 t2] x]. reflexivity.
  - destruct (h w c) as [w1 a]. rewrite IH. destruct (exec h w1 (k a)) as [[w2 t2] r].
    destruct (exec h w2 (f r)) as [[w3 t3] x]. reflexivity.
Qed.

Lemma runs_bind {R T} (p : prog C A R) (f : R -> prog C A T) : forall t x,
  runs (prog_bind p f) t x ->
  exists t1 t2 r, t = t1 ++ t2 /\ runs p t1 r /\ runs (f r) t2 x.
Proof.
  induction p as [r|c k IH]; cbn; intros t x Hr.
  - exists [], t, r. auto.
  - destruct Hr as (a & t' & -> & Hr). apply IH in Hr as (t1 & t2 & r & -> & H1 & H2).
    exists (ev c a :: t1), t2, r. split_and!; eauto.
Qed.

(** The calls made so far by a program that goes on. *)
Fixpoint follows {R} (p : prog C A R) (t : list event) : Prop :=
  match t, p with
  | [], _ => True
  | _ :: _, Ret _ => False
  | e :: t, Call c k => exists a, e = ev c a /\ follows (k a) t
  end.

Lemma runs_follows {R} (p : prog C A R) : forall t r, runs p t r -> follows p t.
Proof.
  induction p as [r0|c k IH]; cbn; intros t r Hr; [destruct Hr as [-> _]; exact I|].
  destruct Hr as (a & t' & -> & Hr). cbn. eauto.
Qed.

(** The same for the start of a trace. *)
Lemma follows_app {R} (p : prog C A R) : forall t t', follows p (t ++ t') -> follows p t.
Proof.
  induction p as [r|c k IH]; intros [|e t] t'; cbn; try tauto.
  intros (a & -> & Hf). eauto.
Qed.

(** [Q] holds however the program ends. *)
Fixpoint ends {R} (p : prog C A R) (Q : R -> Prop) : Prop :=
  match p with
  | Ret r => Q r
  | Call c k => forall a, ends (k a) Q
  end.

Lemma ends_mono {R} (p : prog C A R) (Q Q' : R -> Prop) :
  ends p Q -> (forall r, Q r -> Q' r) -> ends p Q'.
Proof. intros Hp HQ. induction p as [r|c k IH]; cbn in *; auto. Qed.

Lemma ends_bind {R T} (p : prog C A R) (f : R -> prog C A T) Q :
  ends p (fun r => ends (f r) Q) -> ends (prog_bind p f) Q.
Proof. induction p as [r|c k IH]; cbn; auto. Qed.

Lemma ends_runs {R} (p : prog C A R) Q : forall t r, ends p Q -> runs p t r -> Q r.
Proof.
  induction p as [r0|c k IH]; cbn; intros t r Hp Hr; [destruct Hr as [_ ->]; exact Hp|].
  destruct Hr as (a & t' & _ & Hr). eauto.
Qed.

(** If the program returns, [Q] holds of what it returns. *)
Definition if_done {R} (Q : R -> Prop) (o : outcome R) : Prop :=
  match o with Done r => Q r | _ => True end.

Lemma act_ends_bind {R T} (p : act C A R) (f : R -> act C A T) Q :
  ends p (if_done (fun r => ends (f r) (if_done Q))) -> ends (act_bind p f) (if_done Q).
Proof.
  intros Hp. apply ends_bind. eapply ends_mono; [exact Hp|]. intros [r| |]; cbn; auto.
Qed.

(** The program returns, whatever is answered. *)
Definition finishes {R} (p : act C A R) : Prop := ends p (fun o => exists r, o = Done r).

Lemma finishes_done {R} (r : R) : finishes (done r).
Proof. exists r. reflexivity. Qed.

Lemma finishes_ask c : finishes (ask c).
Proof. intros a. apply finishes_done. Qed.

Lemma finishes_bind {R T} (p : act C A R) (f : R -> act C A T) :
  finishes p -> (forall r, finishes (f r)) -> finishes (act_bind p f).
Proof.
  intros Hp Hf. apply ends_bind. eapply ends_mono; [exact Hp|]. intros o [r ->]. apply Hf.
Qed.

Lemma finishes_runs {R} (p : act C A R) t o : finishes p -> runs p t o -> exists r, o = Done r.
Proof. apply (ends_runs p (fun o => exists r, o = Done r)). Qed.

(** ** Simulation by an abstract automaton

    [step m c a m'] lets the automaton follow call [c] answered [a]; [okay] is
    what is known of the answers.  [safe p m Q]: from [m] the automaton can follow
    whatever [p] does, and [Q] holds at its end. *)
Section Safe.
Context {M : Type} (okay : forall c, A c -> Prop)
  (step : M -> forall c, A c -> M -> Prop).

Fixpoint safe {R} (p : prog C A R) (m : M) (Q : R -> M -> Prop) : Prop :=
  match p with
  | Ret r => Q r m
  | Call c k => forall a, okay c a -> exists m', step m c a m' /\ safe (k a) m' Q
  end.

Inductive path : M -> list event -> M -> Prop :=
  | path_nil m : path m [] m
  | path_cons m c a m1 t m2 :
      step m c a m1 -> path m1 t m2 -> path m (ev c a :: t) m2.

Lemma path_app m1 t1 m2 t2 m3 :
  path m1 t1 m2 -> path m2 t2 m3 -> path m1 (t1 ++ t2) m3.
Proof. induction 1; cbn; eauto using path_cons. Qed.

Lemma path_inv m e t m2 :
  path m (e :: t) m2 -> exists m1, step m (projT1 e) (projT2 e) m1 /\ path m1 t m2.
Proof. intros Hp. inversion Hp; subst; cbn; eauto. Qed.

Lemma path_split t1 t2 : forall m m2,
  path m (t1 ++ t2) m2 -> exists m1, path m t1 m1 /\ path m1 t2 m2.
Proof.
  induction t1 as [|e t1 IH]; intros m m2 Hp; [exists m; split; [constructor | exact Hp]|].
  inversion Hp as [|? c a m1 ? ? Hs Ht]; subst. apply IH in Ht as (m' & H1 & H2).
  exists m'. split; [econstructor; eauto | exact H2].
Qed.

Lemma safe_mono {R} (p : prog C A R) : forall m (Q Q' : R -> M -> Prop),
  (forall r m, Q r m -> Q' r m) -> safe p m Q -> safe p m Q'.
Proof.
  induction p as [r|c k IH]; cbn; intros m Q Q' HQ Hs; [auto|].
  intros a Ha. destruct (Hs a Ha) as (m' & Hst & Hk). eauto.
Qed.

Lemma safe_bind {R T} (p : prog C A R) (f : R -> prog C A T) : forall m Q,
  safe p m (fun r m' => safe (f r) m' Q) -> safe (prog_bind p f) m Q.
Proof.
  induction p as [r|c k IH]; cbn; intros m Q Hs; [exact Hs|].
  intros a Ha. destruct (Hs a Ha) as (m' & Hst & Hk). eauto.
Qed.

(** For programs that may panic: these do not, and [F] holds of their running out
    of fuel ([False] if they do not either). *)
Definition returns (F : Prop) {R} (Q : R -> M -> Prop) (o : outcome R) (m : M) : Prop :=
  match o with Done r => Q r m | Panicked => False | OutOfFuel => F end.

Definition act_safe (F : Prop) {R} (p : act C A R) (m : M) (Q : R -> M -> Prop) : Prop :=
  safe p m (returns F Q).

Lemma act_safe_done F {R} (r : R) m (Q : R -> M -> Prop) :
  Q r m -> act_safe F (done r) m Q.
Proof. exact id. Qed.

Lemma act_safe_ask F c m (Q : A c -> M -> Prop) :
  (forall a, okay c a -> exists m', step m c a m' /\ Q a m') ->
  act_safe F (ask c) m Q.
Proof. exact id. Qed.

Lemma act_safe_bind F {R T} (p : act C A R) (f : R -> act C A T) m Q :
  act_safe F p m (fun r m' => act_safe F (f r) m' Q) -> act_safe F (act_bind p f) m Q.
Proof.
  intros Hs. apply safe_bind. eapply safe_mono; [|exact Hs].
  intros [r| |] m'; cbn; auto.
Qed.

Lemma act_safe_mono (F F' : Prop) {R} (p : act C A R) m (Q Q' : R -> M -> Prop) :
  act_safe F p m Q -> (F -> F') -> (forall r m, Q r m -> Q' r m) ->
  act_safe F' p m Q'.
Proof.
  intros Hs HF HQ. eapply safe_mono; [|exact Hs]. intros [r| |] m'; cbn; auto.
Qed.

(** A safe program's runs are paths of the automaton. *)
Lemma safe_runs {R} (p : prog C A R) : forall m Q t r,
  safe p m Q -> runs p t r -> Forall (fun e => okay (projT1 e) (projT2 e)) t ->
  exists m', path m t m' /\ Q r m'.
Proof.
  induction p as [r0|c k IH]; cbn; intros m Q t r Hs Hr Ha.
  - destruct Hr as [-> ->]. exists m. split; [constructor | exact Hs].
  - destruct Hr as (a & t' & -> & Hr). apply Forall_cons_iff in Ha as [Ha Ht].
    destruct (Hs a Ha) as (m1 & Hst & Hk).
    destruct (IH a m1 Q t' r Hk Hr Ht) as (m2 & Hp & HQ).
    exists m2. split; [econstructor; eauto | exact HQ].
Qed.

(** Against an environment that behaves like the automaton: [Q] holds at the end
    of every run whose calls and answers the automaton can follow. *)
Fixpoint meets {R} (p : prog C A R) (m : M) (Q : R -> M -> Prop) : Prop :=
  match p with
  | Ret r => Q r m
  | Call c k => forall a m', step m c a m' -> meets (k a) m' Q
  end.

Lemma meets_mono {R} (p : prog C A R) : forall m (Q Q' : R -> M -> Prop),
  (forall r m, Q r m -> Q' r m) -> meets p m Q -> meets p m Q'.
Proof. induction p as [r|c k IH]; cbn; eauto. Qed.

Lemma meets_bind {R T} (p : prog C A R) (f : R -> prog C A T) : forall m Q,
  meets p m (fun r m' => meets (f r) m' Q) -> meets (prog_bind p f) m Q.
Proof. induction p as [r|c k IH]; cbn; eauto. Qed.

Lemma meets_runs {R} (p : prog C A R) : forall m Q t r m',
  meets p m Q -> runs p t r -> path m t m' -> Q r m'.
Proof.
  induction p as [r0|c k IH]; cbn; intros m Q t r m' Hs Hr Hp.
  - destruct Hr as [-> ->]. inversion Hp; subst. exact Hs.
  - destruct Hr as (a & t' & -> & Hr). apply path_inv in Hp as (m1 & Hst & Hp). exact (IH a m1 Q t' r m' (Hs a m1 Hst) Hr Hp).
Qed.

Definition act_meets (F : Prop) {R} (p : act C A R) (m : M) (Q : R -> M -> Prop) : Prop :=
  meets p m (returns F Q).

Lemma act_meets_done F {R} (r : R) m (Q : R -> M -> Prop) :
  Q r m -> act_meets F (done r) m Q.
Proof. exact id. Qed.

Lemma act_meets_ask F c m (Q : A c -> M -> Prop) :
  (forall a m', step m c a m' -> Q a m') -> act_meets F (ask c) m Q.
Proof. exact id. Qed.

Lemma act_meets_bind F {R T} (p : act C A R) (f : R -> act C A T) m Q :
  act_meets F p m (fun r m' => act_meets F (f r) m' Q) -> act_meets F (act_bind p f) m Q.
Proof.
  intros Hs. apply meets_bind. eapply meets_mono; [|exact Hs].
  intros [r| |] m'; cbn; auto.
Qed.

Lemma act_meets_mono (F F' : Prop) {R} (p : act C A R) m (Q Q' : R -> M -> Prop) :
  act_meets F p m Q -> (F -> F') -> (forall r m, Q r m -> Q' r m) ->
  act_meets F' p m Q'.
Proof.
  intros Hs HF HQ. eapply meets_mono; [|exact Hs]. intros [r| |] m'; cbn; auto.
Qed.

(** An environment that always makes a step gives a path. *)
Lemma exec_path {W R} (h : W -> forall c, W * A c) (abs : W -> M) (p : prog C A R) :
  (forall w c, step (abs w) c (snd (h w c)) (abs (fst (h w c)))) ->
  forall w, path (abs w) (snd (fst (exec h w p))) (abs (fst (fst (exec h w p)))).
Proof.
  intros Hh. induction p as [r|c k IH]; intros w; cbn [exec]; [constructor|].
  specialize (Hh w c). destruct (h w c) as [w1 a]. cbn [fst snd] in Hh.
  specialize (IH a w1). destruct (exec h w1 (k a)) as [[w2 t2] r2]. cbn in *.
  econstructor; [exact Hh | exact IH].
Qed.

End Safe.
End Programs.

Arguments event {C} A.

(** ** Programs of one alphabet in a larger one *)

Section Lift.
Context {C1 C2 : Type} {A1 : C1 -> Type} {A2 : C2 -> Type}.
Context (f : C1 -> C2) (g : forall c, A2 (f c) -> A1 c).

Fixpoint lift {R} (p : prog C1 A1 R) : prog C2 A2 R :=
  match p with
  | Ret r => Ret r
  | Call c k => Call (f c) (fun a => lift (k (g c a)))
  end.

(** The calls of [t2] are those of [t1], with the same answers. *)
Definition lifted (t1 : list (event A1)) (t2 : list (event A2)) : Prop :=
  Forall2 (fun e1 e2 => exists c a, e1 = ev c (g c a) /\ e2 = ev (f c) a) t1 t2.

Lemma runs_lift {R} (p : prog C1 A1 R) : forall t r,
  runs (lift p) t r -> exists t1, runs p t1 r /\ lifted t1 t.
Proof.
  induction p as [r0|c k IH]; cbn; intros t r Hr.
  - destruct Hr as [-> ->]. exists []. split; [auto | constructor].
  - destruct Hr as (a & t' & -> & Hr). apply IH in Hr as (t1 & H1 & Hl).
    exists (ev c (g c a) :: t1). split; [eauto|]. constructor; [eauto | exact Hl].
Qed.

Lemma ends_lift {R} (p : prog C1 A1 R) Q : ends p Q -> ends (lift p) Q.
Proof. induction p as [r|c k IH]; cbn; auto. Qed.

Context {M : Type} (okay1 : forall c, A1 c -> Prop) (okay2 : forall c, A2 c -> Prop).
Context (step1 : M -> forall c, A1 c -> M -> Prop) (step2 : M -> forall c, A2 c -> M -> Prop).

(** A program that is safe for an automaton over its own calls. *)
Lemma safe_lift {R} (p : prog C1 A1 R) :
  (forall c a, okay2 (f c) a -> okay1 c (g c a)) ->
  (forall m c a m', step1 m c (g c a) m' -> step2 m (f c) a m') ->
  forall m Q, safe okay1 step1 p m Q -> safe okay2 step2 (lift p) m Q.
Proof.
  intros Ho Hs. induction p as [r|c k IH]; cbn; intros m Q Hp; [exact Hp|].
  intros a Ha. destruct (Hp (g c a) (Ho c a Ha)) as (m' & Hst & Hk). eauto.
Qed.

End Lift.

(** ** What a program may do, given what it has done

    [allowed m c a]: after the events [m], call [c] answered [a] is in order. *)
Section History.
Context {C : Type} {A : C -> Type} (allowed : list (event A) -> forall c, A c -> Prop).

Fixpoint upholds {R} (p : prog C A R) (m : list (event A))
  (Q : R -> list (event A) -> Prop) : Prop :=
  match p with
  | Ret r => Q r m
  | Call c k => forall a, allowed m c a /\ upholds (k a) (m ++ [ev c a]) Q
  end.

Lemma upholds_mono {R} (p : prog C A R) : forall m (Q Q' : R -> list (event A) -> Prop),
  upholds p m Q -> (forall r m', Q r m' -> Q' r m') -> upholds p m Q'.
Proof.
  induction p as [r|c k IH]; cbn; intros m Q Q' Hp HQ; [auto|].
  intros a. destruct (Hp a) as [Ha Hk]. eauto.
Qed.

Lemma upholds_bind {R T} (p : prog C A R) (f : R -> prog C A T) : forall m Q,
  upholds p m (fun r m' => upholds (f r) m' Q) -> upholds (prog_bind p f) m Q.
Proof.
  induction p as [r|c k IH]; cbn; intros m Q Hp; [exact Hp|].
  intros a. destruct (Hp a) as [Ha Hk]. auto.
Qed.

(** Programs that may end without a result. *)
Definition returned {R} (Q : R -> list (event A) -> Prop) (o : outcome R)
  (m : list (event A)) : Prop := if_done (fun r => Q r m) o.

Definition act_upholds {R} (p : act C A R) (m : list (event A))
  (Q : R -> list (event A) -> Prop) : Prop := upholds p m (returned Q).

Lemma act_upholds_done {R} (r : R) m (Q : R -> list (event A) -> Prop) :
  Q r m -> act_upholds (done r) m Q.
Proof. exact id. Qed.

Lemma act_upholds_ask c m (Q : A c -> list (event A) -> Prop) :
  (forall a, allowed m c a /\ Q a (m ++ [ev c a])) -> act_upholds (ask c) m Q.
Proof. exact id. Qed.

Lemma act_upholds_bind {R T} (p : act C A R) (f : R -> act C A T) m Q :
  act_upholds p m (fun r m' => act_upholds (f r) m' Q) -> act_upholds (act_bind p f) m Q.
Proof.
  intros Hp. apply upholds_bind. eapply upholds_mono; [exact Hp|].
  intros [r| |] m'; cbn; auto.
Qed.

Lemma act_upholds_mono {R} (p : act C A R) m (Q Q' : R -> list (event A) -> Prop) :
  act_upholds p m Q -> (forall r m', Q r m' -> Q' r m') -> act_upholds p m Q'.
Proof. intros Hp HQ. eapply upholds_mono; [exact Hp|]. intros [r| |] m'; cbn; auto. Qed.

Lemma act_upholds_both {R} (p : act C A R) (Q Q' : R -> list (event A) -> Prop) : forall m,
  act_upholds p m Q -> act_upholds p m Q' -> act_upholds p m (fun r m' => Q r m' /\ Q' r m').
Proof.
  induction p as [[r| |]|c k IH]; intros m Hp Hp'; try exact Logic.I; [split; assumption|].
  intros a. destruct (Hp a) as [Ha Hk], (Hp' a) as [_ Hk']. split; [exact Ha | apply IH; assumption].
Qed.

Lemma upholds_follows {R} (p : prog C A R) : forall m Q t c a t',
  upholds p m Q -> follows p (t ++ ev c a :: t') -> allowed (m ++ t) c a.
Proof.
  induction p as [r|c0 k IH]; intros m Q t c a t' Hp Hf;
    [destruct t; contradiction Hf|]. cbn in Hp.
  destruct t as [|e t].
  - destruct Hf as (a0 & E & _). rewrite app_nil_r.
    destruct (Hp a0) as [Ha _]. change (allowed m (projT1 (ev c a)) (projT2 (ev c a))).
    rewrite E. exact Ha.
  - destruct Hf as (a0 & -> & Hf). destruct (Hp a0) as [_ Hk].
    replace (m ++ ev c0 a0 :: t) with ((m ++ [ev c0 a0]) ++ t) by (rewrite <- app_assoc; reflexivity).
    eapply IH; eauto.
Qed.

Lemma upholds_runs {R} (p : prog C A R) : forall m Q t r,
  upholds p m Q -> runs p t r -> Q r (m ++ t).
Proof.
  induction p as [r0|c k IH]; cbn; intros m Q t r Hp Hr.
  - destruct Hr as [-> ->]. rewrite app_nil_r. exact Hp.
  - destruct Hr as (a & t' & -> & Hr). destruct (Hp a) as [_ Hk].
    specialize (IH a _ Q t' r Hk Hr). rewrite <- app_assoc in IH. exact IH.
Qed.

(** A program of a smaller alphabet whose calls are in order while [J] holds. *)
Lemma upholds_lift {C1} {A1 : C1 -> Type} (f : C1 -> C) (g : forall c, A (f c) -> A1 c)
  (J : list (event A) -> Prop) {R} (p : prog C1 A1 R) :
  (forall m c a, J m -> allowed m (f c) a /\ J (m ++ [ev (f c) a])) ->
  forall m, J m -> upholds (lift f g p) m (fun r m' => J m' /\
    exists th tl, m' = m ++ tl /\ lifted f g th tl /\ runs p th r).
Proof.
  intros HJ. induction p as [r|c k IH]; intros m Hm.
  - cbn. split; [exact Hm|]. exists [], []. rewrite app_nil_r.
    split_and!; [reflexivity | constructor | reflexivity | reflexivity].
  - cbn. intros a. destruct (HJ m c a Hm) as [Ha Hm']. split; [exact Ha|].
    eapply upholds_mono; [apply (IH (g c a)), Hm'|]. cbn beta.
    intros r m' (Hj & th & tl & -> & Hl & Hr). split; [exact Hj|].
    exists (ev c (g c a) :: th), (ev (f c) a :: tl). rewrite <- app_assoc. split; [reflexivity|].
    split; [constructor; [eauto | exact Hl]|]. cbn. eauto.
Qed.

(** Program [p] was run to its end somewhere in the trace, with result [o]. *)
Definition ran {C1} {A1 : C1 -> Type} (f : C1 -> C) (g : forall c, A (f c) -> A1 c) {R}
  (p : prog C1 A1 (outcome R)) (o : R) (t : list (event A)) : Prop :=
  exists t1 tl t2 th, t = t1 ++ tl ++ t2 /\ lifted f g th tl /\ runs p th (Done o).

Lemma ran_app {C1} {A1 : C1 -> Type} (f : C1 -> C) (g : forall c, A (f c) -> A1 c) {R}
  (p : prog C1 A1 (outcome R)) o t x : ran f g p o t -> ran f g p o (t ++ x).
Proof.
  intros (t1 & tl & t2 & th & -> & Hl & Hr). exists t1, tl, (t2 ++ x), th.
  rewrite <- !app_assoc. auto.
Qed.

(** What a part of a program returns, it ran to. *)
Lemma act_upholds_part {C1} {A1 : C1 -> Type} (f : C1 -> C) (g : forall c, A (f c) -> A1 c)
  (J : list (event A) -> Prop) {R} (p : act C1 A1 R) t :
  (forall m c a, J m -> allowed m (f c) a /\ J (m ++ [ev (f c) a])) -> J t ->
  act_upholds (lift f g p) t (fun r t' => J t' /\ (exists x, t' = t ++ x) /\ ran f g p r t').
Proof.
  intros HJ Ht. eapply upholds_mono; [apply (upholds_lift f g J p HJ t Ht)|].
  cbn beta. intros [r| |] t' (Hj & th & tl & -> & Hl & Hr); cbn; auto.
  split; [exact Hj|]. split; [eauto|]. exists t, tl, [], th. rewrite app_nil_r. auto.
Qed.

End History.

(** Along the text of a program without loops. *)
Ltac finishes_steps :=
  repeat first
    [ apply finishes_done | apply finishes_ask | assumption
    | apply finishes_bind; [|intros ?]
    | match goal with |- finishes (match ?x with _ => _ end) => destruct x end
    | match goal with |- finishes (if ?x then _ else _) => destruct x end ].

(** [let* x := p in k]: run [p], then [k] with its result. *)
Notation "'let*' x := p 'in' k" := (act_bind p (fun x => k))
  (at level 200, x name, p at level 100, k at level 200).
Notation "'let*' ' x := p 'in' k" := (act_bind p (fun x => k))
  (at level 200, x strict pattern, p at level 100, k at level 200).
