(* ===== verification/Types.v ===== *)
(** * Types: the shared vocabulary of [otp-types]

    Newtypes over machine integers are [Z] with the width stated by the
    well-formedness predicates; fixed byte arrays are byte lists with their
    length stated there.  An operation that panics in the source returns
    [None] here ([segment_next], [generation_succ]); [sequence_next] returns
    the [Option] of the source. *)

From S2P Require Export Prelude.

Definition SEGMENT_LEN : Z := 64.
Definition DIRECTION_KEY_LEN : Z := 32.
Definition TAG_LEN : Z := 16.
Definition NONCE_LEN : Z := 12.

(** [BookId([u8; 16])], [Nonce<16>] and [Nonce<12>] (by their length). *)
Definition BookId : Type := list byte.
Definition Nonce : Type := list byte.

Definition fixed (n : nat) (l : list byte) : Prop := length l = n.
Notation wf_book_id := (fixed 16).
Notation wf_nonce16 := (fixed 16).

(** [SegmentIndex::next]: [None] is the panic "pointer must never wrap". *)
Definition segment_next (i : Z) : option Z := checked_add_u64 i 1.

(** [Generation::succ]: [None] is the panic. *)
Definition generation_succ (g : Z) : option Z := checked_add_u64 g 1.

(** [Sequence::next]: overflow is [None], a value the session handles. *)
Definition sequence_next (s : Z) : option Z := checked_add_u64 s 1.

Inductive Direction := ClientToServer | ServerToClient.

Definition opposite (d : Direction) : Direction :=
  match d with
  | ClientToServer => ServerToClient
  | ServerToClient => ClientToServer
  end.

Inductive Role := Client | Server.

Definition role_send_direction (r : Role) : Direction :=
  match r with Client => ClientToServer | Server => ServerToClient end.

Inductive ErrorCategory :=
  | CatBook | CatCodec | CatAnchor | CatAllocation | CatRecovery
  | CatHandshake | CatSession | CatTransport | CatTerminal | CatPlatform
  | CatInternal.

#[global] Instance direction_eq_dec : EqDecision Direction.
Proof. solve_decision. Defined.
#[global] Instance role_eq_dec : EqDecision Role.
Proof. solve_decision. Defined.
#[global] Instance error_category_eq_dec : EqDecision ErrorCategory.
Proof. solve_decision. Defined.

Lemma opposite_involutive d : opposite (opposite d) = d.
Proof. destruct d; reflexivity. Qed.

Lemma opposite_ne d : opposite d <> d.
Proof. destruct d; discriminate. Qed.

Lemma segment_next_some i j :
  segment_next i = Some j <-> j = i + 1 /\ i < U64_MAX.
Proof. unfold segment_next. rewrite checked_add_u64_some. ulia. Qed.

Lemma sequence_next_some i j :
  sequence_next i = Some j <-> j = i + 1 /\ i < U64_MAX.
Proof. unfold sequence_next. rewrite checked_add_u64_some. ulia. Qed.

Lemma sequence_next_none i :
  is_u64 i -> sequence_next i = None <-> i = U64_MAX.
Proof.
  intros H. unfold sequence_next. rewrite checked_add_u64_none. ulia.
Qed.

Lemma generation_succ_some i j :
  generation_succ i = Some j <-> j = i + 1 /\ i < U64_MAX.
Proof. unfold generation_succ. rewrite checked_add_u64_some. ulia. Qed.

(** [[T; 2]] indexed by [direction_index]: a pair, read and written by
    direction. *)
Definition at_dir {A} (p : A * A) (d : Direction) : A :=
  match d with ClientToServer => fst p | ServerToClient => snd p end.

Definition put_dir {A} (p : A * A) (d : Direction) (x : A) : A * A :=
  match d with
  | ClientToServer => (x, snd p)
  | ServerToClient => (fst p, x)
  end.

Lemma at_put_dir {A} (p : A * A) d x : at_dir (put_dir p d x) d = x.
Proof. destruct d; reflexivity. Qed.

Lemma at_put_dir_ne {A} (p : A * A) d x :
  at_dir (put_dir p d x) (opposite d) = at_dir p (opposite d).
Proof. destruct d; reflexivity. Qed.

Lemma at_put_dir_other {A} (p : A * A) d e x :
  d <> e -> at_dir (put_dir p d x) e = at_dir p e.
Proof. destruct d, e; (reflexivity || congruence). Qed.

(** [a ^ b] on bytes. *)
Definition xor_byte (a b : byte) : byte := z2b (Z.lxor (b2z a) (b2z b)).

Lemma lxor_u8 a b : is_u8 a -> is_u8 b -> is_u8 (Z.lxor a b).
Proof.
  intros Ha Hb. unfold is_u8 in *.
  assert (H0 : 0 <= Z.lxor a b) by (apply Z.lxor_nonneg; lia).
  split; [exact H0|]. apply Z.lt_nge. intros Hge.
  assert (Hl : 8 <= Z.log2 (Z.lxor a b)).
  { change 8 with (Z.log2 256). apply Z.log2_le_mono. lia. }
  pose proof (Z.log2_lxor a b ltac:(lia) ltac:(lia)) as Hm.
  assert (Hb' : forall z, 0 <= z < 256 -> Z.log2 z <= 7).
  { intros z Hz. change 7 with (Z.log2 255). apply Z.log2_le_mono. lia. }
  pose proof (Hb' a Ha). pose proof (Hb' b Hb). lia.
Qed.

Lemma xor_byte_cancel a b : xor_byte (xor_byte a b) b = a.
Proof.
  unfold xor_byte. rewrite b2z_z2b_small by (apply lxor_u8; apply b2z_range).
  rewrite Z.lxor_assoc, Z.lxor_nilpotent, Z.lxor_0_r. apply z2b_b2z.
Qed.

Lemma xor_bytes_cancel l pad :
  length l = length pad ->
  zip_with xor_byte (zip_with xor_byte l pad) pad = l.
Proof.
  revert pad. induction l as [|a l IH]; intros [|b pad] H; try discriminate;
    [reflexivity|]. simpl. rewrite xor_byte_cancel, IH by (simpl in H; lia).
  reflexivity.
Qed.
