(* ===== verification/Platform.v ===== *)
(** * Platform: persistence primitives ([otp-platform], lib.rs)

    Paths, the calls to the operating system, complete writes, the file-system
    check, the lock and the lease with its fencing token, the file backend of an
    anchor, the in-memory backend with injected faults, and the first form of the
    environment report. *)

From Stdlib Require Import Strings.Byte.
From stdpp Require Import strings.
From S2P Require Export Effects Types.

#[local] Open Scope list_scope.
#[local] Open Scope Z_scope.

(** ** Paths ([std::path], Unix) *)

Inductive Component := RootDir | CurDir | ParentDir | Normal (name : list byte).

#[global] Instance component_eq_dec : EqDecision Component.
Proof. solve_decision. Defined.

(** A path is the list of its components: paths of the source are compared and
    taken apart by components. *)
Definition Path : Type := list Component.

(** [l] cut at every [sep]; a list of [n] separators gives [n + 1] pieces. *)
Fixpoint split_at (sep : byte) (l : list byte) : list (list byte) :=
  match l with
  | [] => [[]]
  | b :: l =>
      if Byte.eqb b sep then [] :: split_at sep l
      else match split_at sep l with
           | [] => [[b]]
           | p :: ps => (b :: p) :: ps
           end
  end.

Definition dot : list byte := [Byte.x2e].
Definition dotdot : list byte := [Byte.x2e; Byte.x2e].

(** A piece between slashes; a lone dot counts only at the very start. *)
Definition piece_component (first : bool) (p : list byte) : list Component :=
  if bool_decide (p = []) then [] else
  if bool_decide (p = dot) then (if first then [CurDir] else []) else
  if bool_decide (p = dotdot) then [ParentDir] else [Normal p].

(** [Path::components]. *)
Definition components (bytes : list byte) : Path :=
  match split_at Byte.x2f bytes with
  | [] => []
  | [] :: rest =>
      (if bool_decide (rest = []) then [] else [RootDir]) ++
      concat (map (piece_component false) rest)
  | p :: rest => piece_component true p ++ concat (map (piece_component false) rest)
  end.

(** [Component::as_os_str]. *)
Definition component_text (c : Component) : list byte :=
  match c with
  | RootDir => [Byte.x2f] | CurDir => dot | ParentDir => dotdot | Normal n => n
  end.

(** [Path::parent]. *)
Definition path_parent (p : Path) : option Path :=
  match List.rev p with
  | [] | RootDir :: _ => None
  | _ :: rest => Some (List.rev rest)
  end.

(** [Path::join] with a single file name. *)
Definition path_join (p : Path) (name : list byte) : Path := p ++ [Normal name].

(** ** Errors *)

Inductive Errno :=
  | ENoEnt | EExist | EIntr | ENoSpc | EAgain | EAcces | EInval | ENoSys | ENotSup
  | EIo | EPerm | EOther.

#[global] Instance errno_eq_dec : EqDecision Errno.
Proof. solve_decision. Defined.

Inductive PlatformError :=
  | PeLockUnsupported
  | PeLockHeld
  | PeFsyncUncertain
  | PeUnsupportedFilesystem (fs_name : string)
  | PeIo
  | PeNoSpace
  | PeWriteZero
  | PeInvalidData
  | PeInjectedIo
  | PeCrashInjected
  | PeMlockFailed.

#[global] Instance platform_error_eq_dec : EqDecision PlatformError.
Proof. solve_decision. Defined.

Definition from_io (e : Errno) : PlatformError :=
  match e with ENoSpc => PeNoSpace | _ => PeIo end.

(** ** Calls on an open file *)

Inductive FdCall :=
  | FdSeek (offset : Z)
  | FdRead (n : nat)
  | FdReadToEnd
  | FdWrite (bs : list byte)
  | FdSetLen (n : Z)
  | FdSync.

(** [FdWrite] answers how many bytes were taken. *)
Definition fd_answer (c : FdCall) : Type :=
  match c with
  | FdRead _ | FdReadToEnd => result (list byte) Errno
  | FdWrite _ => result Z Errno
  | FdSeek _ | FdSetLen _ | FdSync => result unit Errno
  end.

Notation fd_act R := (act FdCall fd_answer R).
Definition fd_ask (c : FdCall) : fd_act (fd_answer c) :=
  ask (C := FdCall) (A := fd_answer) c.

(** [call()?] in a program: an error of the call, mapped, ends the function. *)
Notation "'try*' x := p 'else' f 'in' k" :=
  (act_bind p (fun r => match r with Ok x => k | Err e => done (Err (f e)) end))
  (at level 200, x name, p at level 100, f at level 100, k at level 200).

Definition write_full : nat -> list byte -> fd_act (result unit PlatformError) :=
  fix loop fuel data :=
  match data with
  | [] => done (Ok tt)
  | _ =>
  match fuel with
  | O => Ret OutOfFuel
  | S fuel =>
      let* r := fd_ask (FdWrite data) in
      match r with
      | Ok n =>
          if n =? 0 then done (Err PeWriteZero) else
          if n <=? Z.of_nat (length data) then loop fuel (drop (Z.to_nat n) data)
          else done (Err PeIo)
      | Err EIntr => loop fuel data
      | Err e => done (Err (from_io e))
      end
  end
  end.

Definition fsync_file : fd_act (result unit PlatformError) :=
  let* r := fd_ask FdSync in done (map_err (fun _ => PeFsyncUncertain) r).

(** ** Calls by path *)

(** How a file is opened: [read(true).write(true)], with [create(true)] or not;
    append and create with mode 0600; create with [O_EXCL] and mode 0600; for
    reading. *)
Inductive OpenHow := OpReadWrite | OpReadWriteCreate | OpAppendCreate | OpCreateNew | OpReadOnly.

Definition Fd : Type := Z.

Inductive SysCall :=
  | SyExists (p : Path)
  | SyIsSymlink (p : Path)
  | SyStatfs (p : Path)
  | SyMetadata (p : Path)
  | SyReadFile (p : Path)
  | SyReadText (p : Path)
  | SyWriteFile (p : Path) (bs : list byte)
  | SyOpen (p : Path) (how : OpenHow)
  | SyFd (fd : Fd) (c : FdCall)
  | SyClone (fd : Fd)
  | SyOfdLock (fd : Fd) (exclusive : bool)
  | SyUnlink (p : Path)
  | SyGetCoreLimit
  | SySetCoreLimit (cur max : Z)
  | SyGetDumpable
  | SySetDumpable (v : Z).

(** [st_mode] and [st_uid], and whether the file is a regular one. *)
Record Metadata := MkMeta { md_is_file : bool; md_mode : Z; md_uid : Z }.

(** [SyStatfs] answers [f_type]; [SyReadFile] the whole file,
    [SyReadText] too, and an error when it is not UTF-8; [SyGetCoreLimit] the
    soft and the hard limit; the last two the return code of [prctl]. *)
Definition sys_answer (c : SysCall) : Type :=
  match c with
  | SyExists _ | SyIsSymlink _ | SySetCoreLimit _ _ => bool
  | SyStatfs _ => result Z Errno
  | SyMetadata _ => result Metadata Errno
  | SyReadFile _ | SyReadText _ => result (list byte) Errno
  | SyOpen _ _ | SyClone _ => result Fd Errno
  | SyFd _ c => fd_answer c
  | SyWriteFile _ _ | SyOfdLock _ _ | SyUnlink _ => result unit Errno
  | SyGetCoreLimit => option (Z * Z)
  | SyGetDumpable | SySetDumpable _ => Z
  end.

Notation sys_act R := (act SysCall sys_answer R).
Definition sys_ask (c : SysCall) : sys_act (sys_answer c) :=
  ask (C := SysCall) (A := sys_answer) c.

(** A program on an open file, on descriptor [fd]. *)
Fixpoint on_fd {R} (fd : Fd) (p : prog FdCall fd_answer R) : prog SysCall sys_answer R :=
  match p with
  | Ret r => Ret r
  | Call c k => Call (C := SysCall) (A := sys_answer) (SyFd fd c) (fun a => on_fd fd (k a))
  end.

(** ** Directories *)

Definition fsync_dir (dir : Path) : sys_act (result unit PlatformError) :=
  try* fd := sys_ask (SyOpen dir OpReadOnly) else from_io in
  on_fd fd fsync_file.

Definition sync_parent_if_created (p : Path) (created : bool) :
  sys_act (result unit PlatformError) :=
  if created then
    match path_parent p with
    | None => done (Err PeInvalidData)
    | Some dir => fsync_dir dir
    end
  else done (Ok tt).

(** The parent, or the current directory when there is none or it is empty. *)
Definition parent_or_cwd (p : Path) : Path :=
  match path_parent p with
  | Some (c :: dir) => c :: dir
  | _ => [CurDir]
  end.

(** ** Supported file systems *)

Definition EXT_MAGIC : Z := 0xEF53.
Definition XFS_MAGIC : Z := 0x58465342.
Definition BTRFS_MAGIC : Z := 0x9123683E.

Definition fs_verdict (magic : Z) : result unit PlatformError :=
  if (magic =? EXT_MAGIC) || (magic =? XFS_MAGIC) || (magic =? BTRFS_MAGIC) then Ok tt else
  if magic =? 0x6969 then Err (PeUnsupportedFilesystem "nfs") else
  if magic =? 0x65735546 then Err (PeUnsupportedFilesystem "fuse") else
  if magic =? 0x794C7630 then Err (PeUnsupportedFilesystem "overlay") else
  if magic =? 0x01021994 then Err (PeUnsupportedFilesystem "tmpfs") else
  Err (PeUnsupportedFilesystem "unknown").

(** [statfs_magic]: a name with a NUL byte makes no C string. *)
Definition has_nul (p : Path) : bool :=
  existsb (existsb (fun b => Byte.eqb b Byte.x00)) (map component_text p).

Definition statfs_magic (p : Path) : sys_act (result Z PlatformError) :=
  if has_nul p then done (Err PeInvalidData) else
  let* r := sys_ask (SyStatfs p) in done (map_err (fun _ => PeIo) r).

Definition require_supported_filesystem (p : Path) : sys_act (result unit PlatformError) :=
  let* there := sys_ask (SyExists p) in
  try* magic := statfs_magic (if there then p else parent_or_cwd p) else id in
  done (fs_verdict magic).

(** ** Lock and lease *)

Record FileLockGuard := MkLock { fl_file : Fd; fl_path : Path }.

Definition lock_error (e : Errno) : PlatformError :=
  match e with
  | EAgain | EAcces => PeLockHeld
  | EInval | ENoSys | ENotSup => PeLockUnsupported
  | _ => PeIo
  end.

Definition acquire_ofd_lock_unchecked (p : Path) (exclusive : bool) :
  sys_act (result FileLockGuard PlatformError) :=
  try* fd := sys_ask (SyOpen p OpReadWriteCreate) else from_io in
  try* u := sys_ask (SyOfdLock fd exclusive) else lock_error in
  done (Ok (MkLock fd p)).

Definition acquire_ofd_lock (p : Path) (exclusive : bool) :
  sys_act (result FileLockGuard PlatformError) :=
  try* u := require_supported_filesystem p else id in
  acquire_ofd_lock_unchecked p exclusive.

Record LeaseGuard := MkLease { lg_lock : FileLockGuard; lg_fencing_token : Z }.

Definition u64_le (n : Z) : list byte := List.rev (be_bytes 8 n).
Definition le_u64 (l : list byte) : Z := be_val (List.rev l).

(** What [acquire_lease] does under the lock: the next token, persisted. *)
Definition next_token (fuel : nat) : fd_act (result Z PlatformError) :=
  try* u := fd_ask (FdSeek 0) else from_io in
  try* bytes := fd_ask (FdRead 8) else from_io in
  let old :=
    if (length bytes =? 0)%nat then Ok 0 else
    if (length bytes =? 8)%nat then Ok (le_u64 bytes) else Err PeInvalidData in
  match old with
  | Err e => done (Err e)
  | Ok old =>
  match checked_add_u64 old 1 with
  | None => done (Err PeInvalidData)
  | Some token =>
      try* u := fd_ask (FdSeek 0) else from_io in
      try* u := fd_ask (FdSetLen 0) else from_io in
      try* u := write_full fuel (u64_le token) else id in
      try* u := fsync_file else id in
      done (Ok token)
  end
  end.

Definition acquire_lease (fuel : nat) (p : Path) : sys_act (result LeaseGuard PlatformError) :=
  try* lock := acquire_ofd_lock p true else id in
  try* f := sys_ask (SyClone (fl_file lock)) else from_io in
  try* token := on_fd f (next_token fuel) else id in
  done (Ok (MkLease lock token)).

(** ** The file backend of an anchor *)

Record FileAnchorBackend := MkFileAnchor {
  fab_file : Fd;
  fab_path : Path;
  fab_created : bool;
}.

Definition file_anchor_open (p : Path) : sys_act (result FileAnchorBackend PlatformError) :=
  try* u := require_supported_filesystem p else id in
  let* there := sys_ask (SyExists p) in
  try* fd := sys_ask (SyOpen p OpReadWriteCreate) else from_io in
  done (Ok (MkFileAnchor fd p (negb there))).

Definition file_read_verified {T} (verify : list byte -> result T PlatformError) :
  fd_act (result T PlatformError) :=
  try* u := fd_ask (FdSeek 0) else from_io in
  try* bytes := fd_ask FdReadToEnd else from_io in
  done (verify bytes).

Definition file_write_full_and_sync (fuel : nat) (data : list byte) :
  fd_act (result unit PlatformError) :=
  try* u := fd_ask (FdSeek 0) else from_io in
  try* u := fd_ask (FdSetLen 0) else from_io in
  try* u := write_full fuel data else id in
  fsync_file.

Definition file_sync_parent (b : FileAnchorBackend) :
  sys_act (FileAnchorBackend * result unit PlatformError) :=
  let* r := sync_parent_if_created (fab_path b) (fab_created b) in
  match r with
  | Ok _ => done (MkFileAnchor (fab_file b) (fab_path b) false, Ok tt)
  | Err e => done (b, Err e)
  end.

(** ** The backend with injected faults *)

Inductive FaultPoint := FpRead | FpWrite (n : Z) | FpFsync | FpParentFsync | FpCrash.

#[global] Instance fault_point_eq_dec : EqDecision FaultPoint.
Proof. solve_decision. Defined.

Record FaultyBackend := MkFaulty {
  fb_data : list byte;
  fb_short_write : option Z;
  fb_fail_at : option FaultPoint;
  fb_writes : Z;
  fb_created : bool;
}.

Definition faulty_new : FaultyBackend := MkFaulty [] None None 0 true.

Definition fail_point (b : FaultyBackend) (point : FaultPoint) : result unit PlatformError :=
  if bool_decide (fb_fail_at b = Some point) then
    Err (if bool_decide (point = FpCrash) then PeCrashInjected else PeInjectedIo)
  else Ok tt.

Definition faulty_read_verified {T} (b : FaultyBackend)
  (verify : list byte -> result T PlatformError) : result T PlatformError :=
  let? _ := fail_point b FpRead in verify (fb_data b).

(** One pass of the write loop: the bytes up to the cap of a short write. *)
Definition faulty_chunk (b : FaultyBackend) (data : list byte) : FaultyBackend :=
  let len := Z.of_nat (length data) in
  let cap := Z.max 1 (default len (fb_short_write b)) in
  let from := length (fb_data b) in
  let upto := Z.to_nat (Z.min (Z.of_nat from + cap) len) in
  MkFaulty (fb_data b ++ slice from upto data) (fb_short_write b) (fb_fail_at b)
    (fb_writes b + 1) (fb_created b).

Fixpoint faulty_write (fuel : nat) (b : FaultyBackend) (data : list byte) :
  FaultyBackend * outcome (result unit PlatformError) :=
  if (length data <=? length (fb_data b))%nat then (b, Done (Ok tt)) else
  match fuel with
  | O => (b, OutOfFuel)
  | S fuel =>
      match fail_point b (FpWrite (fb_writes b)) with
      | Err e => (b, Done (Err e))
      | Ok _ => faulty_write fuel (faulty_chunk b data) data
      end
  end.

Definition faulty_write_full_and_sync (fuel : nat) (b : FaultyBackend) (data : list byte) :
  FaultyBackend * outcome (result unit PlatformError) :=
  let b := MkFaulty [] (fb_short_write b) (fb_fail_at b) 0 (fb_created b) in
  match faulty_write fuel b data with
  | (b, Done (Ok _)) =>
      (b, Done (let? _ := fail_point b FpFsync in fail_point b FpCrash))
  | r => r
  end.

Definition faulty_sync_parent (b : FaultyBackend) :
  FaultyBackend * result unit PlatformError :=
  if fb_created b then
    match fail_point b FpParentFsync with
    | Err e => (b, Err e)
    | Ok _ =>
        (MkFaulty (fb_data b) (fb_short_write b) (fb_fail_at b) (fb_writes b) false, Ok tt)
    end
  else (b, Ok tt).

(** ** The environment report *)

Inductive CheckStatus :=
  | CsOk
  | CsWarn (detail : string)
  | CsBlock (detail : string).

#[global] Instance check_status_eq_dec : EqDecision CheckStatus.
Proof. solve_decision. Defined.

Definition is_block (s : CheckStatus) : bool :=
  match s with CsBlock _ => true | _ => false end.

Record EnvironmentReport := MkEnvReport {
  er_core_dump : CheckStatus;
  er_swap : CheckStatus;
  er_filesystem : CheckStatus;
  er_permissions : CheckStatus;
}.

(** [str::lines]: pieces between newlines, a last empty piece left out; a final
    carriage return is not part of a line that a newline ends. *)
Definition chomp_cr (l : list byte) : list byte :=
  match List.rev l with
  | Byte.x0d :: r => List.rev r
  | _ => l
  end.

Fixpoint end_lines (ps : list (list byte)) : list (list byte) :=
  match ps with
  | [] | [[]] => []
  | [p] => [p]
  | p :: ps => chomp_cr p :: end_lines ps
  end.

Definition text_lines (l : list byte) : list (list byte) := end_lines (split_at Byte.x0a l).

(** The soft limit. *)
Definition core_limit : sys_act (option Z) :=
  let* r := sys_ask SyGetCoreLimit in done (option_map fst r).

Definition proc_swaps : Path := Eval vm_compute in components (ascii_bytes "/proc/swaps").

Definition probe_environment_for (anchor : Path) : sys_act EnvironmentReport :=
  let* lim := core_limit in
  let core_dump :=
    if bool_decide (lim = Some 0) then CsOk else CsBlock "RLIMIT_CORE is not zero" in
  let* text := sys_ask (SyReadText proc_swaps) in
  let swap :=
    match text with
    | Ok s =>
        if (length (text_lines s) <=? 1)%nat then CsOk
        else CsWarn "swap enabled; require encrypted swap or mlock policy"
    | Err _ => CsWarn "cannot inspect /proc/swaps"
    end in
  let* fs := require_supported_filesystem anchor in
  let filesystem :=
    match fs with
    | Ok _ => CsOk
    | Err _ => CsBlock "anchor filesystem is unsupported or unknown"
    end in
  done (MkEnvReport core_dump swap filesystem
    (CsWarn "permission policy pending WP-15 path configuration")).

(** [mlock_best_effort] of a buffer of [len] bytes, by the return code of the call. *)
Inductive LockMemCall := LmMlock (len : nat).
Definition mlock_best_effort (len : nat) :
  act LockMemCall (fun _ => Z) (result unit PlatformError) :=
  let* rc := ask (C := LockMemCall) (A := fun _ => Z) (LmMlock len) in
  done (if rc =? 0 then Ok tt else Err PeMlockFailed).

Definition probe_environment : sys_act EnvironmentReport := probe_environment_for [CurDir].
