(* ===== verification/Doctor.v ===== *)
(** * Doctor: the check of the environment ([otp-platform], doctor.rs; [otp-cli],
      doctor.rs)

    What is gathered about core dumps, swap, permissions, file systems and backups,
    the policy on each, the report, and the override the command line offers. *)

From Stdlib Require Import Strings.Byte.
From stdpp Require Import strings.
From S2P Require Export Platform.

#[local] Open Scope list_scope.
#[local] Open Scope Z_scope.

(** ** Findings and reports *)

Inductive DoctorCategory :=
  | DcCoreDump | DcSwap | DcPermissions | DcFilesystem | DcBackupRisk.

#[global] Instance doctor_category_eq_dec : EqDecision DoctorCategory.
Proof. solve_decision. Defined.

Definition category_name (c : DoctorCategory) : string :=
  match c with
  | DcCoreDump => "core-dump" | DcSwap => "swap" | DcPermissions => "permissions"
  | DcFilesystem => "filesystem" | DcBackupRisk => "backup-risk"
  end.

Record DoctorFinding := MkFinding {
  df_category : DoctorCategory;
  df_target : string;
  df_status : CheckStatus;
}.

Definition DoctorReport : Type := list DoctorFinding.

Definition refuse_startup (r : DoctorReport) : bool :=
  existsb (fun f => is_block (df_status f)) r.

Definition finding_line (f : DoctorFinding) : string :=
  let '(tag, detail) :=
    match df_status f with
    | CsOk => ("ok", "") | CsWarn d => ("warn", d) | CsBlock d => ("BLOCK", d)
    end%string in
  let head := ("[" +:+ tag +:+ "] " +:+ category_name (df_category f) +:+ ": " +:+
               df_target f)%string in
  if bool_decide (detail = ""%string) then head else (head +:+ " — " +:+ detail)%string.

Definition newline : string := String (Ascii.ascii_of_nat 10) EmptyString.

Definition report_summary (r : DoctorReport) : string :=
  (String.concat "" (map (fun f => finding_line f +:+ newline) r) +:+
   (if refuse_startup r
    then "结论：存在高风险（BLOCK）项，按策略拒绝启动"
    else "结论：无 BLOCK 项（warn 项见上）") +:+ newline)%string.

(** A double quote. *)
Definition dq : string := String (Ascii.ascii_of_nat 34) EmptyString.

Definition json_pair (k v : string) : string := (dq +:+ k +:+ dq +:+ ":" +:+ dq +:+ v +:+ dq)%string.

Definition finding_json (f : DoctorFinding) : string :=
  let '(status, detail) :=
    match df_status f with
    | CsOk => ("ok", "") | CsWarn d => ("warn", d) | CsBlock d => ("block", d)
    end%string in
  ("{" +:+ json_pair "category" (category_name (df_category f)) +:+ "," +:+
   json_pair "target" (df_target f) +:+ "," +:+ json_pair "status" status +:+ "," +:+
   json_pair "detail" detail +:+ "}")%string.

Definition report_json (r : DoctorReport) : string :=
  ("{" +:+ dq +:+ "findings" +:+ dq +:+ ":[" +:+ String.concat "," (map finding_json r) +:+
   "]," +:+ dq +:+ "refuse_startup" +:+ dq +:+ ":" +:+
   (if refuse_startup r then "true" else "false") +:+ "}")%string.

(** ** Core dumps *)

Record CoreFacts := MkCoreFacts { cf_core_limit : option Z; cf_dumpable : option Z }.

Definition eval_core (f : CoreFacts) : CheckStatus :=
  match cf_core_limit f, cf_dumpable f with
  | Some 0, Some 0 => CsOk
  | Some _, Some _ => CsBlock "RLIMIT_CORE/dumpable 未同时归零（core 泄露面）"
  | _, _ => CsBlock "无法读取 RLIMIT_CORE 或 dumpable 状态"
  end.

Definition dumpable_flag : sys_act (option Z) :=
  let* rc := sys_ask SyGetDumpable in done (if 0 <=? rc then Some rc else None).

Definition collect_core_facts : sys_act CoreFacts :=
  let* lim := core_limit in
  let* d := dumpable_flag in
  done (MkCoreFacts lim d).

Definition harden_process : sys_act (result unit string) :=
  let* lim := sys_ask SyGetCoreLimit in
  match lim with
  | None => done (Err "getrlimit(RLIMIT_CORE) 失败"%string)
  | Some (_, max) =>
  let* ok := sys_ask (SySetCoreLimit 0 max) in
  if negb ok then done (Err "setrlimit(RLIMIT_CORE, 0) 失败"%string) else
  let* rc := sys_ask (SySetDumpable 0) in
  if negb (rc =? 0) then done (Err "prctl(PR_SET_DUMPABLE, 0) 失败"%string) else
  let* facts := collect_core_facts in
  done match eval_core facts with
       | CsOk => Ok tt
       | _ => Err "加固后 core dump 检查仍未通过"%string
       end
  end.

(** ** Swap *)

Record SwapLine := MkSwapLine { sl_name : list byte; sl_kind : list byte }.
Record SwapFacts := MkSwapFacts { sw_readable : bool; sw_lines : list SwapLine }.

(** [char::is_whitespace] at the head of a UTF-8 text: what follows the character. *)
Definition strip_space (l : list byte) : option (list byte) :=
  match l with
  | b :: r =>
      let z := b2z b in
      if (9 <=? z) && (z <=? 13) || (z =? 32) then Some r else
      match b, r with
      | Byte.xc2, (Byte.x85 | Byte.xa0) :: r => Some r
      | Byte.xe1, Byte.x9a :: Byte.x80 :: r => Some r
      | Byte.xe2, Byte.x80 :: c :: r =>
          let z := b2z c in
          if (128 <=? z) && (z <=? 138) || (z =? 168) || (z =? 169) || (z =? 175)
          then Some r else None
      | Byte.xe2, Byte.x81 :: Byte.x9f :: r => Some r
      | Byte.xe3, Byte.x80 :: Byte.x80 :: r => Some r
      | _, _ => None
      end
  | [] => None
  end.

Definition push_word (w : list byte) (ws : list (list byte)) : list (list byte) :=
  match w with [] => ws | _ => w :: ws end.

(** [str::split_whitespace]; [cur] is the word being read. *)
Fixpoint split_whitespace (fuel : nat) (cur l : list byte) : list (list byte) :=
  match fuel with
  | O => push_word cur []
  | S fuel =>
      match l with
      | [] => push_word cur []
      | b :: r =>
          match strip_space l with
          | Some rest => push_word cur (split_whitespace fuel [] rest)
          | None => split_whitespace fuel (cur ++ [b]) r
          end
      end
  end.

Definition words (l : list byte) : list (list byte) := split_whitespace (S (length l)) [] l.

Definition swap_row (row : list byte) : list SwapLine :=
  match words row with
  | name :: kind :: _ => [MkSwapLine name kind]
  | _ => []
  end.

Definition parse_proc_swaps (text : list byte) : SwapFacts :=
  MkSwapFacts true (concat (map swap_row (drop 1 (text_lines text)))).

Definition collect_swap_facts : sys_act SwapFacts :=
  let* r := sys_ask (SyReadText proc_swaps) in
  done match r with
       | Ok text => parse_proc_swaps text
       | Err _ => MkSwapFacts false []
       end.

Definition mapped_device (l : SwapLine) : bool :=
  starts_with (sl_name l) (ascii_bytes "/dev/mapper/") ||
  starts_with (sl_name l) (ascii_bytes "/dev/dm-").

Definition eval_swap (f : SwapFacts) : CheckStatus :=
  if negb (sw_readable f) then CsWarn "cannot inspect /proc/swaps" else
  if bool_decide (length (sw_lines f) = 0%nat) then CsOk else
  if existsb (fun l => negb (mapped_device l)) (sw_lines f)
  then CsBlock "swap enabled without verified encryption (plain partition/file swap)"
  else CsWarn "swap active under /dev/mapper (assumed encrypted; verify device config)".

(** ** Permissions *)

Record PermFacts := MkPermFacts {
  pf_exists : bool;
  pf_is_regular : bool;
  pf_mode : Z;
  pf_uid : Z;
}.

Definition collect_perm_facts (p : Path) : sys_act PermFacts :=
  let* r := sys_ask (SyMetadata p) in
  done match r with
       | Ok m => MkPermFacts true (md_is_file m) (md_mode m) (md_uid m)
       | Err _ => MkPermFacts false false 0 0
       end.

Definition eval_perm (f : PermFacts) (euid : Z) (need_write : bool) : CheckStatus :=
  if negb (pf_exists f) then CsBlock "file is missing" else
  if negb (pf_is_regular f) then CsBlock "not a regular file" else
  if negb (Z.land (pf_mode f) 63 =? 0)
  then CsBlock "group/world permission bits set on secret material" else
  if Z.land (pf_mode f) 256 =? 0 then CsBlock "owner read bit missing" else
  if need_write && (Z.land (pf_mode f) 128 =? 0)
  then CsBlock "owner write bit missing (mutually required)" else
  if negb (pf_uid f =? euid)
  then CsBlock "file owner is not the current effective user" else CsOk.

(** ** Backups *)

Definition NO_BACKUP_MARKER : list byte := Eval cbv in ascii_bytes ".jbuu-nobackup".
Definition NO_BACKUP_MARKER_LEGACY : list byte := Eval cbv in ascii_bytes ".otp-term-nobackup".

Definition SYNC_DIR_COMPONENTS : list (list byte) := Eval cbv in
  map ascii_bytes
    ["dropbox"; "nextcloud"; "seafile"; "syncthing"; "mega"; "onedrive"; "googledrive";
     "backup"; "backups"; ".git"]%string.

Record BackupFacts := MkBackupFacts {
  bf_sync_dir_hit : option (list byte);
  bf_marker_present : bool;
}.

Definition to_ascii_lowercase (l : list byte) : list byte :=
  map (fun b => let z := b2z b in
                if (65 <=? z) && (z <=? 90) then z2b (z + 32) else b) l.

(** A component that is no UTF-8 ([to_str] fails) is not compared; it could not be
    equal to a name of the list, which is ASCII. *)
Definition sync_component (c : Component) : bool :=
  bool_decide (to_ascii_lowercase (component_text c) ∈ SYNC_DIR_COMPONENTS).

Definition collect_backup_facts (book : Path) : sys_act BackupFacts :=
  let hit := option_map component_text (List.find sync_component book) in
  match path_parent book with
  | None => done (MkBackupFacts hit false)
  | Some dir =>
      let* a := sys_ask (SyExists (path_join dir NO_BACKUP_MARKER)) in
      if a then done (MkBackupFacts hit true) else
      let* b := sys_ask (SyExists (path_join dir NO_BACKUP_MARKER_LEGACY)) in
      done (MkBackupFacts hit b)
  end.

Definition eval_backup (f : BackupFacts) : CheckStatus :=
  if is_some (bf_sync_dir_hit f)
  then CsBlock "book/anchor path is inside a sync/backup directory" else
  if negb (bf_marker_present f)
  then CsWarn "no backup-exclusion marker next to the book (ops: create it)" else CsOk.

(** ** The whole check *)

Record DoctorPaths := MkDoctorPaths {
  dp_book : Path;
  dp_anchor_a : Path;
  dp_anchor_b : Path;
}.

Definition process_findings : sys_act DoctorReport :=
  let* core := collect_core_facts in
  let* swap := collect_swap_facts in
  done [MkFinding DcCoreDump "process" (eval_core core);
        MkFinding DcSwap "system" (eval_swap swap)].

Fixpoint perm_findings (l : list (string * Path * bool)) (euid : Z) : sys_act DoctorReport :=
  match l with
  | [] => done []
  | (target, p, need_write) :: l =>
      let* f := collect_perm_facts p in
      let* rest := perm_findings l euid in
      done (MkFinding DcPermissions target (eval_perm f euid need_write) :: rest)
  end.

Definition fs_status (r : result unit PlatformError) : CheckStatus :=
  match r with
  | Ok _ => CsOk
  | Err (PeUnsupportedFilesystem _) =>
      CsBlock "book/anchor filesystem is unsupported or unknown"
  | Err _ => CsBlock "filesystem probe failed"
  end.

Fixpoint fs_findings (l : list (string * Path)) : sys_act DoctorReport :=
  match l with
  | [] => done []
  | (target, p) :: l =>
      let* r := require_supported_filesystem p in
      let* rest := fs_findings l in
      done (MkFinding DcFilesystem target (fs_status r) :: rest)
  end.

Definition run_doctor (paths : DoctorPaths) (euid : Z) : sys_act DoctorReport :=
  let* process := process_findings in
  let* perms := perm_findings
    [("book"%string, dp_book paths, false); ("anchor-a"%string, dp_anchor_a paths, true);
     ("anchor-b"%string, dp_anchor_b paths, true)] euid in
  let* fs := fs_findings
    [("book"%string, dp_book paths); ("anchor-a"%string, dp_anchor_a paths);
     ("anchor-b"%string, dp_anchor_b paths)] in
  let* backup := collect_backup_facts (dp_book paths) in
  done (process ++ perms ++ fs ++
        [MkFinding DcBackupRisk "book-dir" (eval_backup backup)]).

(** ** The command line's check ([otp-cli], doctor.rs) *)

Definition proc_status : Path := Eval vm_compute in components (ascii_bytes "/proc/self/status").

(** [str::strip_prefix]. *)
Definition strip_prefix (p l : list byte) : option (list byte) :=
  if starts_with l p then Some (drop (length p) l) else None.

(** [str::parse::<u32>]: an optional plus sign and digits, within range. *)
Definition digit_value (b : byte) : option Z :=
  let z := b2z b in if (48 <=? z) && (z <=? 57) then Some (z - 48) else None.

Fixpoint digits_value (acc : Z) (l : list byte) : option Z :=
  match l with
  | [] => Some acc
  | b :: l =>
      match digit_value b with
      | Some d => if U32_MAX <? acc * 10 + d then None else digits_value (acc * 10 + d) l
      | None => None
      end
  end.

Definition parse_u32 (l : list byte) : option Z :=
  match l with
  | [] => None
  | Byte.x2b :: [] => None
  | Byte.x2b :: l => digits_value 0 l
  | l => digits_value 0 l
  end.

Fixpoint find_map {A B} (f : A -> option B) (l : list A) : option B :=
  match l with
  | [] => None
  | x :: l => match f x with Some y => Some y | None => find_map f l end
  end.

Definition euid_of_status (text : list byte) : option Z :=
  match find_map (strip_prefix (ascii_bytes "Uid:")) (text_lines text) with
  | None => None
  | Some rest =>
      match words rest !! 1%nat with
      | None => None
      | Some w => parse_u32 w
      end
  end.

Definition current_euid : sys_act Z :=
  let* r := sys_ask (SyReadText proc_status) in
  done match r with
       | Ok text => default U32_MAX (euid_of_status text)
       | Err _ => U32_MAX
       end.

(** The operator's override of a swap finding that blocks. *)
Definition allow_swap (f : DoctorFinding) : DoctorFinding :=
  if bool_decide (df_category f = DcSwap) && is_block (df_status f)
  then MkFinding (df_category f) (df_target f)
         (CsWarn "swap BLOCK downgraded by --allow-unencrypted-swap (operator opt-in)")
  else f.

Definition cli_doctor (paths : option DoctorPaths) (allow_unencrypted_swap : bool) :
  sys_act DoctorReport :=
  let* euid := current_euid in
  let* report :=
    match paths with
    | Some p => run_doctor p euid
    | None => process_findings
    end in
  done (if allow_unencrypted_swap then map allow_swap report else report).

Definition outcome_summary (report : DoctorReport) (swap_overridden : bool) : string :=
  (report_summary report +:+
   if swap_overridden
   then "覆盖：--allow-unencrypted-swap 已把 swap 的 BLOCK 降级为 warn（操作员显式声明，仅限受控环境）"
        +:+ newline
   else "")%string.

(** Makes the marker of the report's remedy; what is there already stays. *)
Definition write_no_backup_marker (book : Path) : sys_act (result Path string) :=
  match path_parent book with
  | None => done (Err "密码本路径无父目录"%string)
  | Some dir =>
      let marker := path_join dir NO_BACKUP_MARKER in
      let* there := sys_ask (SyExists marker) in
      if there then done (Ok marker) else
      let* r := sys_ask (SyWriteFile marker
        (ascii_bytes "jbuu: book/anchors excluded from backups (ops marker)" ++ [Byte.x0a])) in
      done match r with
           | Ok _ => Ok marker
           | Err _ => Err "排除标记写入失败"%string
           end
  end.
