(* ===== verification/DoctorSpec.v ===== *)
(** * DoctorSpec: what the environment check guarantees

    The policy on a machine whose state does not change during the check, and the
    theorem that the check refuses exactly the machines outside it. *)

From Stdlib Require Import Strings.Byte.
From stdpp Require Import strings.
From S2P Require Export Doctor.

#[local] Open Scope list_scope.
#[local] Open Scope Z_scope.

(** ** The machine, as the check sees it *)

Record SysView := MkView {
  v_core : option (Z * Z);
  v_dumpable : Z;
  v_text : Path -> result (list byte) Errno;
  v_meta : Path -> result Metadata Errno;
  v_statfs : Path -> result Z Errno;
  v_exists : Path -> bool;
}.

Definition set_core (v : SysView) (x : option (Z * Z)) : SysView :=
  MkView x (v_dumpable v) (v_text v) (v_meta v) (v_statfs v) (v_exists v).
Definition set_dumpable (v : SysView) (x : Z) : SysView :=
  MkView (v_core v) x (v_text v) (v_meta v) (v_statfs v) (v_exists v).

(** A call of the check is answered from the view; the two calls that harden the
    process change it when they succeed; the other calls are answered as they like. *)
Definition sees (v : SysView) (c : SysCall) : sys_answer c -> SysView -> Prop :=
  match c with
  | SyExists p => fun a v' => v' = v /\ a = v_exists v p
  | SyStatfs p => fun a v' => v' = v /\ a = v_statfs v p
  | SyMetadata p => fun a v' => v' = v /\ a = v_meta v p
  | SyReadText p => fun a v' => v' = v /\ a = v_text v p
  | SyGetCoreLimit => fun a v' => v' = v /\ a = v_core v
  | SyGetDumpable => fun a v' => v' = v /\ a = v_dumpable v
  | SySetCoreLimit cur max => fun a v' => v' = if a then set_core v (Some (cur, max)) else v
  | SySetDumpable x => fun rc v' => v' = if rc =? 0 then set_dumpable v x else v
  | _ => fun _ v' => v' = v
  end.

(** [p] on view [v] returns [r]. *)
Notation answers v p r := (act_meets sees False p v (fun x v' => v' = v /\ x = r)).

(** ** The policy *)

Definition view_euid (v : SysView) : Z :=
  match v_text v proc_status with
  | Ok text => default U32_MAX (euid_of_status text)
  | Err _ => U32_MAX
  end.

Definition core_off (v : SysView) : Prop :=
  (exists max, v_core v = Some (0, max)) /\ v_dumpable v = 0.

(** No swap, or only on mapped devices; an unreadable list is let through. *)
Definition swap_ok (v : SysView) : Prop :=
  forall text, v_text v proc_swaps = Ok text ->
    Forall (fun l => mapped_device l = true) (sw_lines (parse_proc_swaps text)).

(** Mode bits: 0-5 are those of the group and the others, 8 and 7 the owner's read
    and write. *)
Definition private_file (v : SysView) (p : Path) (writable : bool) : Prop :=
  exists m, v_meta v p = Ok m /\ md_is_file m = true /\
    (forall i, 0 <= i < 6 -> Z.testbit (md_mode m) i = false) /\
    Z.testbit (md_mode m) 8 = true /\
    (writable = true -> Z.testbit (md_mode m) 7 = true) /\
    md_uid m = view_euid v.

Definition qualified_fs (v : SysView) (p : Path) : Prop :=
  let probe := if v_exists v p then p else parent_or_cwd p in
  has_nul probe = false /\
  exists magic, v_statfs v probe = Ok magic /\ magic ∈ [EXT_MAGIC; XFS_MAGIC; BTRFS_MAGIC].

Definition policy (v : SysView) (paths : DoctorPaths) (allow_swap : bool) : Prop :=
  core_off v /\ (allow_swap = true \/ swap_ok v) /\
  (private_file v (dp_book paths) false /\ private_file v (dp_anchor_a paths) true /\
   private_file v (dp_anchor_b paths) true) /\
  (qualified_fs v (dp_book paths) /\ qualified_fs v (dp_anchor_a paths) /\
   qualified_fs v (dp_anchor_b paths)) /\
  Forall (fun c => sync_component c = false) (dp_book paths).

(** ** What each part of the check answers *)

Definition view_core (v : SysView) : CoreFacts :=
  MkCoreFacts (option_map fst (v_core v))
    (if 0 <=? v_dumpable v then Some (v_dumpable v) else None).

Definition view_swap (v : SysView) : SwapFacts :=
  match v_text v proc_swaps with
  | Ok text => parse_proc_swaps text
  | Err _ => MkSwapFacts false []
  end.

Definition view_perm (v : SysView) (p : Path) : PermFacts :=
  match v_meta v p with
  | Ok m => MkPermFacts true (md_is_file m) (md_mode m) (md_uid m)
  | Err _ => MkPermFacts false false 0 0
  end.

Definition view_fs (v : SysView) (p : Path) : result unit PlatformError :=
  let probe := if v_exists v p then p else parent_or_cwd p in
  if has_nul probe then Err PeInvalidData else
  match v_statfs v probe with Ok m => fs_verdict m | Err _ => Err PeIo end.

Definition view_marker (v : SysView) (book : Path) : bool :=
  match path_parent book with
  | None => false
  | Some dir =>
      v_exists v (path_join dir NO_BACKUP_MARKER) ||
      v_exists v (path_join dir NO_BACKUP_MARKER_LEGACY)
  end.

Definition view_backup (v : SysView) (book : Path) : BackupFacts :=
  MkBackupFacts (option_map component_text (List.find sync_component book))
    (view_marker v book).

Lemma answers_bind {R T} v (p : sys_act R) (f : R -> sys_act T) r t :
  answers v p r -> answers v (f r) t -> answers v (act_bind p f) t.
Proof.
  intros Hp Hf. apply act_meets_bind. eapply act_meets_mono; [exact Hp | auto |].
  intros x v' [-> ->]. exact Hf.
Qed.

Lemma answers_done {R} v (r : R) : answers v (done r) r.
Proof. split; reflexivity. Qed.

(** One call of the check: its answer is the view's. *)
Ltac view_call := intros ? ? [-> ->].

Lemma answers_core v : answers v collect_core_facts (view_core v).
Proof.
  unfold collect_core_facts, core_limit, dumpable_flag, view_core. cbn.
  view_call. view_call. auto.
Qed.

Lemma answers_swap v : answers v collect_swap_facts (view_swap v).
Proof. unfold collect_swap_facts, view_swap. cbn. view_call. auto. Qed.

Lemma answers_perm v p : answers v (collect_perm_facts p) (view_perm v p).
Proof. unfold collect_perm_facts, view_perm. cbn. view_call. auto. Qed.

Lemma answers_fs v p : answers v (require_supported_filesystem p) (view_fs v p).
Proof.
  unfold require_supported_filesystem, statfs_magic, view_fs. cbn. view_call.
  destruct (has_nul _); cbn; [auto|]. view_call. destruct (v_statfs v _); cbn; auto.
Qed.

Lemma answers_backup v book : answers v (collect_backup_facts book) (view_backup v book).
Proof.
  unfold collect_backup_facts, view_backup, view_marker.
  destruct (path_parent book) as [dir|]; cbn; [|auto]. view_call.
  destruct (v_exists v (path_join dir NO_BACKUP_MARKER)); cbn; [auto|]. view_call. auto.
Qed.

Lemma answers_euid v : answers v current_euid (view_euid v).
Proof. unfold current_euid, view_euid. cbn. view_call. auto. Qed.

Definition process_view (v : SysView) : DoctorReport :=
  [MkFinding DcCoreDump "process" (eval_core (view_core v));
   MkFinding DcSwap "system" (eval_swap (view_swap v))].

Lemma answers_process v : answers v process_findings (process_view v).
Proof.
  unfold process_findings. eapply answers_bind; [apply answers_core|].
  eapply answers_bind; [apply answers_swap|]. apply answers_done.
Qed.

Lemma answers_perms v euid l :
  answers v (perm_findings l euid)
    (map (fun '(t, p, w) => MkFinding DcPermissions t (eval_perm (view_perm v p) euid w)) l).
Proof.
  induction l as [|[[t p] w] l IH]; cbn [perm_findings map]; [apply answers_done|].
  eapply answers_bind; [apply answers_perm|].
  eapply answers_bind; [exact IH|]. apply answers_done.
Qed.

Lemma answers_fss v l :
  answers v (fs_findings l)
    (map (fun '(t, p) => MkFinding DcFilesystem t (fs_status (view_fs v p))) l).
Proof.
  induction l as [|[t p] l IH]; cbn [fs_findings map]; [apply answers_done|].
  eapply answers_bind; [apply answers_fs|].
  eapply answers_bind; [exact IH|]. apply answers_done.
Qed.

Definition doctor_view (v : SysView) (paths : DoctorPaths) : DoctorReport :=
  process_view v ++
  map (fun '(t, p, w) => MkFinding DcPermissions t (eval_perm (view_perm v p) (view_euid v) w))
    [("book"%string, dp_book paths, false); ("anchor-a"%string, dp_anchor_a paths, true);
     ("anchor-b"%string, dp_anchor_b paths, true)] ++
  map (fun '(t, p) => MkFinding DcFilesystem t (fs_status (view_fs v p)))
    [("book"%string, dp_book paths); ("anchor-a"%string, dp_anchor_a paths);
     ("anchor-b"%string, dp_anchor_b paths)] ++
  [MkFinding DcBackupRisk "book-dir" (eval_backup (view_backup v (dp_book paths)))].

Lemma answers_doctor v paths :
  answers v (run_doctor paths (view_euid v)) (doctor_view v paths).
Proof.
  unfold run_doctor. eapply answers_bind; [apply answers_process|].
  eapply answers_bind; [apply answers_perms|].
  eapply answers_bind; [apply answers_fss|].
  eapply answers_bind; [apply answers_backup|]. apply answers_done.
Qed.

Lemma answers_cli v paths allow :
  answers v (cli_doctor (Some paths) allow)
    (let r := doctor_view v paths in if allow then map allow_swap r else r).
Proof.
  unfold cli_doctor. eapply answers_bind; [apply answers_euid|].
  eapply answers_bind; [apply answers_doctor|]. apply answers_done.
Qed.

(** ** When each evaluation blocks *)

#[local] Arguments Z.testbit : simpl never.
#[local] Arguments Z.land : simpl never.
#[local] Arguments Z.pow : simpl never.

Lemma core_passes v : is_block (eval_core (view_core v)) = false <-> core_off v.
Proof.
  unfold eval_core, view_core, core_off. cbn.
  destruct (v_core v) as [[c m]|]; cbn.
  - destruct (Z.leb_spec 0 (v_dumpable v)).
    + destruct c as [|c|c]; [|split; [discriminate|intros [[? [=]] ?]]..].
      destruct (v_dumpable v); cbn; split; try discriminate; eauto; intros [? [=]].
    + destruct c; cbn; (split; [discriminate|]); intros [_ ?]; lia.
  - split; [discriminate | intros [[? [=]] _]].
Qed.

Lemma swap_passes v : is_block (eval_swap (view_swap v)) = false <-> swap_ok v.
Proof.
  unfold eval_swap, view_swap, swap_ok.
  destruct (v_text v proc_swaps) as [text|]; cbn; [|split; [discriminate | auto]].
  set (ls := concat _). case_bool_decide as Hl.
  - split; [intros _ t [= <-]; fold ls | reflexivity].
    destruct ls; [constructor | discriminate].
  - destruct (existsb _ ls) eqn:E; cbn.
    + split; [discriminate|]. intros Hf. specialize (Hf text eq_refl). fold ls in Hf.
      apply existsb_exists in E as (l & Hin & Hm).
      rewrite Forall_forall in Hf. rewrite (Hf l Hin) in Hm. discriminate Hm.
    + split; [|reflexivity]. intros _ t [= <-]. fold ls. apply Forall_forall. intros l Hin.
      destruct (mapped_device l) eqn:Em; [reflexivity|]. exfalso.
      rewrite <- not_true_iff_false, existsb_exists in E. apply E. exists l.
      rewrite Em. auto.
Qed.

Lemma land_bit m k : 0 <= k -> (Z.land m (2 ^ k) =? 0) = negb (Z.testbit m k).
Proof.
  intros Hk. destruct (Z.testbit m k) eqn:Eb; cbn.
  - apply Z.eqb_neq. intros E. apply (f_equal (fun z => Z.testbit z k)) in E.
    rewrite Z.land_spec, Z.pow2_bits_true, Eb, Z.bits_0 in E by lia. discriminate.
  - apply Z.eqb_eq, Z.bits_inj'. intros i Hi.
    rewrite Z.land_spec, Z.bits_0, Z.pow2_bits_eqb by lia.
    destruct (Z.eqb_spec k i) as [->|]; [rewrite Eb; reflexivity | apply andb_false_r].
Qed.

Lemma land_low m : (Z.land m 63 =? 0) = true <-> forall i, 0 <= i < 6 -> Z.testbit m i = false.
Proof.
  change 63 with (Z.ones 6). rewrite Z.eqb_eq. split.
  - intros E i Hi. apply (f_equal (fun z => Z.testbit z i)) in E.
    rewrite Z.land_spec, Z.ones_spec_low, Z.bits_0, andb_true_r in E by lia. exact E.
  - intros Hb. apply Z.bits_inj'. intros i Hi. rewrite Z.land_spec, Z.bits_0.
    destruct (Z.lt_ge_cases i 6).
    + rewrite Hb by lia. reflexivity.
    + rewrite Z.ones_spec_high by lia. apply andb_false_r.
Qed.

Lemma perm_passes v p w :
  is_block (eval_perm (view_perm v p) (view_euid v) w) = false <-> private_file v p w.
Proof.
  unfold eval_perm, view_perm, private_file.
  destruct (v_meta v p) as [m|]; cbn; [|split; [discriminate | intros (? & [=] & _)]].
  destruct (md_is_file m) eqn:Ef; cbn;
    [|split; [discriminate | intros (? & [= <-] & ? & _); congruence]].
  destruct (Z.land (md_mode m) 63 =? 0) eqn:Eg; cbn;
    [|split; [discriminate|]; intros (? & [= <-] & _ & Hb & _); apply (proj2 (land_low _)) in Hb; congruence].
  pose proof (proj1 (land_low _) Eg) as Hlow. change 256 with (2 ^ 8). change 128 with (2 ^ 7).
  rewrite !land_bit by lia.
  destruct (Z.testbit (md_mode m) 8) eqn:E8; cbn;
    [|split; [discriminate | intros (? & [= <-] & _ & _ & ? & _); congruence]].
  destruct (w && negb (Z.testbit (md_mode m) 7)) eqn:E7; cbn.
  { split; [discriminate|]. intros (? & [= <-] & _ & _ & _ & Hw & _).
    apply andb_true_iff in E7 as [-> E7]. rewrite Hw in E7; [discriminate | reflexivity]. }
  destruct (Z.eqb_spec (md_uid m) (view_euid v)); cbn.
  - split; [intros _ | reflexivity]. exists m. split_and!; auto.
    intros ->. cbn in E7. apply negb_false_iff in E7. exact E7.
  - split; [discriminate | intros (? & [= <-] & _ & _ & _ & _ & ?); congruence].
Qed.

Lemma fs_verdict_ok m : is_ok (fs_verdict m) = true <-> m ∈ [EXT_MAGIC; XFS_MAGIC; BTRFS_MAGIC].
Proof.
  rewrite !elem_of_cons. unfold fs_verdict.
  destruct (Z.eqb_spec m EXT_MAGIC); [split; auto|].
  destruct (Z.eqb_spec m XFS_MAGIC); [split; auto|].
  destruct (Z.eqb_spec m BTRFS_MAGIC); [split; auto|]. cbn [orb].
  split; [|intros [?|[?|[?|Hn]]]; [congruence..|inversion Hn]].
  repeat case_match; discriminate.
Qed.

Lemma fs_passes v p : is_block (fs_status (view_fs v p)) = false <-> qualified_fs v p.
Proof.
  unfold view_fs, qualified_fs.
  destruct (has_nul _); [split; [discriminate | intros [? _]; discriminate]|].
  destruct (v_statfs v _) as [m|] eqn:Es;
    [|split; [discriminate | intros (_ & ? & [=] & _)]].
  assert (Hv : is_block (fs_status (fs_verdict m)) = negb (is_ok (fs_verdict m)))
    by (destruct (fs_verdict m) as [|[]]; reflexivity).
  rewrite Hv, negb_false_iff, fs_verdict_ok. split; [eauto|].
  intros (_ & ? & [= <-] & ?). auto.
Qed.

Lemma backup_passes v book :
  is_block (eval_backup (view_backup v book)) = false <->
  Forall (fun c => sync_component c = false) book.
Proof.
  unfold eval_backup, view_backup. cbn.
  destruct (List.find sync_component book) as [c|] eqn:Ef; cbn.
  - apply List.find_some in Ef as [Hin Hc]. split; [discriminate|].
    rewrite Forall_forall. intros Hf. rewrite (Hf c Hin) in Hc. discriminate Hc.
  - split; [intros _|destruct (view_marker v book); reflexivity].
    apply Forall_forall. intros c Hc.
    exact (List.find_none _ _ Ef c Hc).
Qed.

Lemma refuse_app a b : refuse_startup (a ++ b) = refuse_startup a || refuse_startup b.
Proof. apply existsb_app. Qed.

Lemma refuse_cons f l : refuse_startup (f :: l) = is_block (df_status f) || refuse_startup l.
Proof. reflexivity. Qed.

(** The override changes the verdict on swap only. *)
Lemma allow_swap_block c t s :
  is_block (df_status (allow_swap (MkFinding c t s))) =
  is_block s && negb (bool_decide (c = DcSwap)).
Proof.
  unfold allow_swap. cbn. case_bool_decide; cbn; [|rewrite andb_true_r; reflexivity].
  destruct (is_block s) eqn:E; cbn; [reflexivity | exact E].
Qed.

Lemma allow_swap_category l : map df_category (map allow_swap l) = map df_category l.
Proof.
  rewrite map_map. apply map_ext. intros f. unfold allow_swap. case_match; reflexivity.
Qed.

(** The report blocks exactly when the policy does not hold. *)
Lemma report_policy v paths (allow : bool) :
  refuse_startup (if allow then map allow_swap (doctor_view v paths) else doctor_view v paths)
    = false <-> policy v paths allow.
Proof.
  unfold policy.
  rewrite <- core_passes, <- swap_passes, <- !perm_passes, <- !fs_passes, <- (backup_passes v).
  destruct allow; cbn [doctor_view process_view map app];
    rewrite !refuse_cons, ?allow_swap_block; cbn [df_status];
    repeat match goal with |- context [is_block ?x] => generalize (is_block x); intro end;
    change (refuse_startup []) with false; rewrite !orb_false_iff.
  - change (bool_decide (DcSwap = DcSwap)) with true.
    repeat change (bool_decide (_ = DcSwap)) with false.
    rewrite !andb_true_r, andb_false_r. tauto.
  - assert (false <> true) by discriminate. tauto.
Qed.

(** The operator's marker lies next to the book, under one of its two names. *)
Definition marked (v : SysView) (book : Path) : Prop :=
  exists dir, path_parent book = Some dir /\
    (v_exists v (path_join dir NO_BACKUP_MARKER) = true \/
     v_exists v (path_join dir NO_BACKUP_MARKER_LEGACY) = true).

(** What a finding on backups means: the marker decides between a warning and none, and
    does not lift a block. *)
Definition backup_verdict (v : SysView) (book : Path) (s : CheckStatus) : Prop :=
  match s with
  | CsBlock _ => Exists (fun c => sync_component c = true) book
  | CsWarn _ => Forall (fun c => sync_component c = false) book /\ ~ marked v book
  | CsOk => Forall (fun c => sync_component c = false) book /\ marked v book
  end.

Lemma view_marker_marked v book : view_marker v book = true <-> marked v book.
Proof.
  unfold view_marker, marked. destruct (path_parent book) as [dir|].
  - rewrite orb_true_iff. split; [eauto|]. intros (d & [= <-] & Hm). exact Hm.
  - split; [discriminate | intros (d & [=] & _)].
Qed.

Lemma backup_verdict_view v book : backup_verdict v book (eval_backup (view_backup v book)).
Proof.
  pose proof (backup_passes v book) as Hp. pose proof (view_marker_marked v book) as Hm.
  unfold eval_backup, view_backup in *. cbn in *.
  destruct (List.find sync_component book) as [c|] eqn:Ef; cbn in *.
  - apply List.find_some in Ef. apply Exists_exists. exists c. exact Ef.
  - destruct (view_marker v book); cbn in *; (split; [apply Hp; reflexivity|]);
      [apply Hm; reflexivity | intros Hx; apply Hm in Hx; discriminate].
Qed.

(** The override: a swap finding that blocks becomes a warning, the others stay. *)
Definition overridden (f g : DoctorFinding) : Prop :=
  df_category g = df_category f /\ df_target g = df_target f /\
  if bool_decide (df_category f = DcSwap) && is_block (df_status f)
  then exists why, df_status g = CsWarn why
  else df_status g = df_status f.

Lemma allow_swap_overrides l : Forall2 overridden l (map allow_swap l).
Proof.
  induction l as [|f l IH]; cbn [map]; constructor; [|exact IH].
  unfold overridden, allow_swap. destruct (_ && _) eqn:E; cbn; eauto.
Qed.

(** C29: the check refuses a machine exactly when the policy does not hold there: core
    dumps off in both ways, no swap in the clear unless the operator allows it, book and
    anchors regular files that only their owner, the process's user, can open (the anchors
    writable), each on a qualified file system, and no component of the book's path the
    name of a folder that is synchronised.  The check always ends, with the nine findings
    in a fixed order.  With the operator's override the report is the one without it, but
    for a swap finding that blocks, which becomes a warning.  The finding on backups blocks
    for the path of the book alone; the marker next to the book only decides whether the
    finding of a path that passes is a warning. *)
Theorem doctor_policy (v v' : SysView) paths allow t o :
  runs (cli_doctor (Some paths) allow) t o -> path sees v t v' ->
  exists report plain, o = Done report /\
    map df_category report =
      [DcCoreDump; DcSwap; DcPermissions; DcPermissions; DcPermissions; DcFilesystem;
       DcFilesystem; DcFilesystem; DcBackupRisk] /\
    (refuse_startup report = false <-> policy v paths allow) /\
    (forall t0 v0 o0, runs (cli_doctor (Some paths) false) t0 o0 -> path sees v t0 v0 ->
       o0 = Done plain) /\
    (if allow then Forall2 overridden plain report else report = plain) /\
    (exists rest f, report = rest ++ [f] /\ backup_verdict v (dp_book paths) (df_status f)).
Proof.
  intros Hr Hp. pose proof (meets_runs _ _ _ _ _ _ _ (answers_cli v paths allow) Hr Hp) as Ha.
  destruct o as [r| |]; [|destruct Ha..]. destruct Ha as [_ ->].
  exists (if allow then map allow_swap (doctor_view v paths) else doctor_view v paths),
    (doctor_view v paths).
  split; [reflexivity|]. split.
  { destruct allow; [exact (allow_swap_category (doctor_view v paths)) | reflexivity]. }
  split; [apply report_policy|]. split.
  { intros t0 v0 o0 Hr0 Hp0.
    pose proof (meets_runs _ _ _ _ _ _ _ (answers_cli v paths false) Hr0 Hp0) as Ha.
    destruct o0 as [r0| |]; [|destruct Ha..]. destruct Ha as [_ ->]. reflexivity. }
  split; [destruct allow; [apply allow_swap_overrides | reflexivity]|].
  destruct allow; eexists (_ :: _ :: _ :: _ :: _ :: _ :: _ :: [_]), _;
    (split; [reflexivity|]); exact (backup_verdict_view v (dp_book paths)).
Qed.

(** ** Hardening *)

(** Hardening that succeeds leaves the process with core dumps off in both ways,
    and changes nothing else of the machine; it always ends. *)
Theorem harden_establishes (v v' : SysView) t o :
  runs harden_process t o -> path sees v t v' ->
  exists r, o = Done r /\
    (forall u, r = Ok u -> core_off v' /\ exists max, v' = set_dumpable (set_core v (Some (0, max))) 0).
Proof.
  intros Hr Hp.
  assert (Hm : act_meets sees False harden_process v (fun r w => forall u, r = Ok u ->
    core_off w /\ exists max, w = set_dumpable (set_core v (Some (0, max))) 0)).
  { unfold harden_process. cbn. intros a w [-> ->].
    destruct (v_core v) as [[c m]|]; cbn; [|discriminate].
    intros [] w ->; cbn; [|discriminate]. intros rc w ->.
    destruct (Z.eqb_spec rc 0) as [->|]; cbn; [|discriminate].
    view_call. view_call. cbn. unfold core_off. cbn. eauto 10. }
  pose proof (meets_runs _ _ _ _ _ _ _ Hm Hr Hp) as Ha.
  destruct o as [r| |]; [|destruct Ha..]. eauto.
Qed.

(** ** Witnesses *)

(** The environment that answers from a view. *)
Definition view_env (v : SysView) (c : SysCall) : SysView * sys_answer c :=
  match c return SysView * sys_answer c with
  | SyExists p => (v, v_exists v p)
  | SyIsSymlink _ => (v, false)
  | SyStatfs p => (v, v_statfs v p)
  | SyMetadata p => (v, v_meta v p)
  | SyReadFile _ => (v, Err ENoEnt)
  | SyReadText p => (v, v_text v p)
  | SyWriteFile _ _ => (v, Err ENoSys)
  | SyOpen _ _ => (v, Err ENoSys)
  | SyFd _ c => (v, match c return fd_answer c with
                    | FdRead _ | FdReadToEnd | FdWrite _ | _ => Err EOther
                    end)
  | SyClone _ => (v, Err ENoSys)
  | SyOfdLock _ _ => (v, Err ENoSys)
  | SyUnlink _ => (v, Err ENoSys)
  | SyGetCoreLimit => (v, v_core v)
  | SySetCoreLimit cur max => (set_core v (Some (cur, max)), true)
  | SyGetDumpable => (v, v_dumpable v)
  | SySetDumpable x => (set_dumpable v x, 0)
  end.

Lemma view_env_sees v c : sees v c (snd (view_env v c)) (fst (view_env v c)).
Proof. destruct c; cbn; auto. Qed.

Definition demo_paths : DoctorPaths :=
  MkDoctorPaths (components (ascii_bytes "/srv/book")) (components (ascii_bytes "/mnt/a/anchor"))
    (components (ascii_bytes "/mnt/b/anchor")).

(** Core dumps are still on; one swap device, on a mapped device. *)
Definition demo_view : SysView :=
  MkView (Some (1024, 4096)) 1
    (fun p => if decide (p = proc_status)
              then Ok (ascii_bytes "Uid:	7	7	7	7") else
              Ok (ascii_bytes "Filename Type" ++ [Byte.x0a] ++
                  ascii_bytes "/dev/dm-0 partition 8 0 -2"))
    (fun _ => Ok (MkMeta true 33152 7))
    (fun _ => Ok EXT_MAGIC)
    (fun _ => true).

Lemma doctor_policy_witness :
  policy (set_dumpable (set_core demo_view (Some (0, 4096))) 0) demo_paths false /\
  ~ policy demo_view demo_paths true.
Proof.
  assert (P : forall v allow report,
    snd (exec view_env v (cli_doctor (Some demo_paths) allow)) = Done report ->
    refuse_startup report = false <-> policy v demo_paths allow).
  { intros v allow report E.
    pose proof (exec_is_run view_env v (cli_doctor (Some demo_paths) allow)) as Hr.
    pose proof (exec_path sees view_env id (cli_doctor (Some demo_paths) allow)
                  view_env_sees v) as Hp.
    destruct (doctor_policy _ _ _ _ _ _ Hr Hp) as (r & _ & E' & _ & Hiff & _).
    rewrite E in E'. injection E' as <-. exact Hiff. }
  split.
  - eapply P; [vm_compute; reflexivity | vm_compute; reflexivity].
  - intros Hpol. eapply (proj2 (P demo_view true _ ltac:(vm_compute; reflexivity))) in Hpol.
    vm_compute in Hpol. discriminate Hpol.
Defined.

Lemma harden_establishes_witness :
  core_off (fst (fst (exec view_env demo_view harden_process))).
Proof.
  pose proof (exec_is_run view_env demo_view harden_process) as Hr.
  pose proof (exec_path sees view_env id harden_process view_env_sees demo_view) as Hp.
  destruct (harden_establishes _ _ _ _ Hr Hp) as (r & E & H).
  assert (Hd : snd (exec view_env demo_view harden_process) = Done (Ok tt))
    by (vm_compute; reflexivity).
  rewrite Hd in E. injection E as <-. exact (proj1 (H tt eq_refl)).
Defined.
