(* ===== verification/Pty.v ===== *)
(** * Pty: pseudo-terminals ([otp-platform], pty.rs)

    The master of a pseudo-terminal, always non-blocking: bounded writes, reads with a
    time limit, the window; starting a shell on it, with what the child does before it
    becomes the shell; the raw mode of the client's terminal.  Programs over the calls
    to the kernel; the child makes calls of its own.  Times are in nanoseconds. *)

From Stdlib Require Import Strings.Byte.
From stdpp Require Import strings.
From S2P Require Export Platform.

#[local] Open Scope list_scope.
#[local] Open Scope Z_scope.

Record PtyWinsize := MkWinsize { pw_rows : Z; pw_cols : Z }.

Inductive PtyRead := PrData (data : list byte) | PrEof | PrTimeout.

(** ** The calls *)

(** [PyOpenpt]: [posix_openpt(O_RDWR | O_NOCTTY)]; [PyClose]: the descriptor is
    dropped; [PyPtsname]: [ptsname_r] with a buffer of that size; [PyOpenSlave]: open
    for reading and writing; [PySpawn]: [Command::spawn] of [argv] on three
    descriptors, with [pre_exec] for the parent's process id; [PyKill] and [PyWait]: the
    methods of [Child]. *)
Inductive PtyCall :=
  | PyOpenpt
  | PyGrant (fd : Fd)
  | PyUnlock (fd : Fd)
  | PyGetFl (fd : Fd)
  | PySetFl (fd : Fd) (flags : Z)
  | PyClose (fd : Fd)
  | PyNow
  | PyPoll (fd : Fd) (events ms : Z)
  | PyWrite (fd : Fd) (bs : list byte)
  | PyRead (fd : Fd) (n : nat)
  | PySetWinsize (fd : Fd) (w : PtyWinsize)
  | PyGetWinsize (fd : Fd)
  | PyPtsname (fd : Fd) (size : nat)
  | PyOpenSlave (path : list byte)
  | PyGetpid
  | PySpawn (argv : list string) (stdio : Fd * Fd * Fd) (parent : Z)
  | PyKill (child : Z)
  | PyWait (child : Z).

(** [None] and [false] are a negative return code; [PyPoll] answers the number of
    ready descriptors and [revents]; [PyPtsname] the buffer afterwards. *)
Definition pty_answer (c : PtyCall) : Type :=
  match c with
  | PyOpenpt => option Fd
  | PyGrant _ | PyUnlock _ | PyClose _ => unit
  | PyGetFl _ => option Z
  | PySetFl _ _ | PySetWinsize _ _ | PyKill _ | PyWait _ => bool
  | PyNow | PyGetpid => Z
  | PyPoll _ _ _ => result (Z * Z) Errno
  | PyWrite _ _ => result Z Errno
  | PyRead _ _ => result (list byte) Errno
  | PyGetWinsize _ => option PtyWinsize
  | PyPtsname _ _ => option (list byte)
  | PyOpenSlave _ => result Fd Errno
  | PySpawn _ _ _ => result Z Errno
  end.

Notation pty_act R := (act PtyCall pty_answer R).
Definition pty_ask (c : PtyCall) : pty_act (pty_answer c) :=
  ask (C := PtyCall) (A := pty_answer) c.

(** [libc] on Linux. *)
Definition O_NONBLOCK : Z := 0x800.
Definition POLLIN : Z := 0x1.
Definition POLLOUT : Z := 0x4.
Definition POLLERR : Z := 0x8.
Definition POLLHUP : Z := 0x10.
Definition POLLNVAL : Z := 0x20.

(** ** The master *)

Definition master_set_winsize (fd : Fd) (w : PtyWinsize) :
  pty_act (result unit PlatformError) :=
  let* ok := pty_ask (PySetWinsize fd w) in
  done (if (ok : bool) then Ok tt else Err PeIo).

Definition master_get_winsize (fd : Fd) : pty_act (result PtyWinsize PlatformError) :=
  let* w := pty_ask (PyGetWinsize fd) in
  done (ok_or w PeIo).

(** [winsize.rows > 0 && winsize.cols > 0]. *)
Definition winsize_known (w : PtyWinsize) : bool := (0 <? pw_rows w) && (0 <? pw_cols w).

(** A failing step drops the descriptor. *)
Definition master_drop {R} (fd : Fd) (e : PlatformError) :
  pty_act (result R PlatformError) :=
  let* _ := pty_ask (PyClose fd) in done (Err e).

Definition master_open (w : PtyWinsize) : pty_act (result Fd PlatformError) :=
  let* o := pty_ask PyOpenpt in
  match o with
  | None => done (Err PeIo)
  | Some fd =>
  let* _ := pty_ask (PyGrant fd) in
  let* _ := pty_ask (PyUnlock fd) in
  let* flags := pty_ask (PyGetFl fd) in
  match flags with
  | None => master_drop fd PeIo
  | Some flags =>
  let* ok := pty_ask (PySetFl fd (Z.lor flags O_NONBLOCK)) in
  if negb ok then master_drop fd PeIo else
  if winsize_known w then
    let* r := master_set_winsize fd w in
    match r with
    | Err e => master_drop fd e
    | Ok _ => done (Ok fd)
    end
  else done (Ok fd)
  end end.

(** The part the two writers share: [poll] has returned, now write; [again] is the
    loop on what is left. *)
Definition write_ready (fd : Fd) (data : list byte) (revents : Z)
  (again : list byte -> pty_act (result unit PlatformError)) :
  pty_act (result unit PlatformError) :=
  if negb (Z.land revents (Z.lor POLLERR (Z.lor POLLHUP POLLNVAL)) =? 0)
  then done (Err PeIo) else
  let* w := pty_ask (PyWrite fd data) in
  match w with
  | Err EAgain | Err EIntr => again data
  | Err _ => done (Err PeIo)
  | Ok n =>
      if n =? 0 then done (Err PeWriteZero) else
      if n <=? Z.of_nat (length data) then again (drop (Z.to_nat n) data)
      else Ret Panicked
  end.

(** [remain.as_millis().min(i32::MAX)]. *)
Definition poll_millis (remain : Z) : Z := Z.min (remain / 10 ^ 6) (2 ^ 31 - 1).

Fixpoint write_until (fuel : nat) (fd : Fd) (deadline : Z) (data : list byte) :
  pty_act (result unit PlatformError) :=
  match data with
  | [] => done (Ok tt)
  | _ =>
  match fuel with
  | O => Ret OutOfFuel
  | S fuel =>
      let* now := pty_ask PyNow in
      let remain := saturating_sub deadline now in
      if remain =? 0 then done (Err PeIo) else
      let* p := pty_ask (PyPoll fd POLLOUT (poll_millis remain)) in
      match p with
      | Err EIntr => write_until fuel fd deadline data
      | Err _ => done (Err PeIo)
      | Ok (rc, revents) =>
          if rc =? 0 then done (Err PeIo)
          else write_ready fd data revents (write_until fuel fd deadline)
      end
  end end.

Definition master_write_all_bounded (fuel : nat) (fd : Fd) (data : list byte)
  (budget : Z) : pty_act (result unit PlatformError) :=
  let* now := pty_ask PyNow in
  write_until fuel fd (now + budget) data.

(** Without a limit: [poll] waits for ever. *)
Fixpoint master_write_all (fuel : nat) (fd : Fd) (data : list byte) :
  pty_act (result unit PlatformError) :=
  match data with
  | [] => done (Ok tt)
  | _ =>
  match fuel with
  | O => Ret OutOfFuel
  | S fuel =>
      let* p := pty_ask (PyPoll fd POLLOUT (-1)) in
      match p with
      | Err EIntr => master_write_all fuel fd data
      | Err _ => done (Err PeIo)
      | Ok (_, revents) => write_ready fd data revents (master_write_all fuel fd)
      end
  end end.

(** [io::Write for &PtyMaster]. *)
Definition master_write (fuel : nat) (fd : Fd) (buf : list byte) :
  pty_act (result Z unit) :=
  let* r := master_write_all fuel fd buf in
  done (match r with Ok _ => Ok (Z.of_nat (length buf)) | Err _ => Err tt end).

Definition read_ready (fd : Fd) (n : nat) : pty_act (result PtyRead PlatformError) :=
  let* r := pty_ask (PyRead fd n) in
  done match r with
       | Ok [] => Ok PrEof
       | Ok data => Ok (PrData data)
       | Err EIo => Ok PrEof
       | Err EAgain => Ok PrTimeout
       | Err _ => Err PeIo
       end.

Fixpoint read_until (fuel : nat) (fd : Fd) (n : nat) (timeout deadline : Z) :
  pty_act (result PtyRead PlatformError) :=
  match fuel with
  | O => Ret OutOfFuel
  | S fuel =>
      let* now := pty_ask PyNow in
      let ms := if timeout =? 0 then 0 else poll_millis (saturating_sub deadline now) in
      let* p := pty_ask (PyPoll fd POLLIN ms) in
      match p with
      | Err e =>
          if bool_decide (e = EIntr) && negb (timeout =? 0)
          then read_until fuel fd n timeout deadline else done (Err PeIo)
      | Ok (rc, _) => if rc =? 0 then done (Ok PrTimeout) else read_ready fd n
      end
  end.

Definition master_read_timeout (fuel : nat) (fd : Fd) (n : nat) (timeout : Z) :
  pty_act (result PtyRead PlatformError) :=
  let* now := pty_ask PyNow in
  read_until fuel fd n timeout (now + timeout).

(** ** The shell *)

(** Up to the first zero byte. *)
Fixpoint c_text (buf : list byte) : list byte :=
  match buf with
  | [] => []
  | b :: buf => if Byte.eqb b Byte.x00 then [] else b :: c_text buf
  end.

(** [CString::new] fails on a zero byte. *)
Definition slave_path (fd : Fd) : pty_act (result (list byte) PlatformError) :=
  let* o := pty_ask (PyPtsname fd 256) in
  done match o with
       | None => Err PeIo
       | Some buf =>
           let path := c_text buf in
           if existsb (Byte.eqb Byte.x00) path then Err PeInvalidData else Ok path
       end.

(** [open_slave]; when it fails, the descriptors [open] are dropped, the last first. *)
Fixpoint close_all (open : list Fd) : pty_act unit :=
  match open with
  | [] => done tt
  | fd :: open => let* _ := pty_ask (PyClose fd) in close_all open
  end.

Definition open_slave (path : list byte) (open : list Fd) :
  pty_act (result Fd PlatformError) :=
  let* o := pty_ask (PyOpenSlave path) in
  match o with
  | Ok fd => done (Ok fd)
  | Err _ => let* _ := close_all open in done (Err PeIo)
  end.

(** The command, which owns the three descriptors of the slave, is dropped after
    [spawn].  Answers the id of the child. *)
Definition spawn_on_pty (master : Fd) (argv : list string) (w : PtyWinsize) :
  pty_act (result Z PlatformError) :=
  if bool_decide (length argv = 0%nat) then done (Err PeInvalidData) else
  let* r := (if winsize_known w then master_set_winsize master w else done (Ok tt)) in
  match r with
  | Err e => done (Err e)
  | Ok _ =>
  try* path := slave_path master else id in
  try* stdin := open_slave path [] else id in
  try* stdout := open_slave path [stdin] else id in
  try* stderr := open_slave path [stdout; stdin] else id in
  let* parent := pty_ask PyGetpid in
  let* child := pty_ask (PySpawn argv (stdin, stdout, stderr) parent) in
  let* _ := close_all [stdin; stdout; stderr] in
  done (map_err (fun _ => PeIo) child)
  end.

(** *** In the child *)

Inductive ChildCall :=
  | CcSetsid
  | CcSetCtty (fd : Fd)
  | CcDeathSignal (signal : Z)
  | CcGetppid
  | CcExec (argv : list string).

(** [CcExec] answers only when it fails; [None]: the program runs. *)
Definition child_answer (c : ChildCall) : Type :=
  match c with
  | CcSetsid | CcSetCtty _ | CcDeathSignal _ => result unit Errno
  | CcGetppid => Z
  | CcExec _ => option Errno
  end.

Notation child_act R := (act ChildCall child_answer R).
Definition child_ask (c : ChildCall) : child_act (child_answer c) :=
  ask (C := ChildCall) (A := child_answer) c.

Definition SIGKILL : Z := 9.

(** The closure given to [pre_exec]; descriptor 0 is the slave by then. *)
Definition pre_exec (parent : Z) : child_act (result unit Errno) :=
  try* u := child_ask CcSetsid else id in
  try* u := child_ask (CcSetCtty 0) else id in
  try* u := child_ask (CcDeathSignal SIGKILL) else id in
  let* ppid := child_ask CcGetppid in
  done (if bool_decide (ppid = parent) then Ok tt else Err EPerm).

(** What [Command::spawn] runs after the fork: [Ok] when the program has taken over. *)
Definition child_main (argv : list string) (parent : Z) : child_act (result unit Errno) :=
  try* u := pre_exec parent else id in
  let* e := child_ask (CcExec argv) in
  done (match e with None => Ok tt | Some e => Err e end).

(** ** The client's terminal

    [T] is [libc::termios]. *)
Section Tty.
Context {T : Type} (cfmakeraw : T -> T).

Inductive TtyCall := TyGetAttr (fd : Fd) | TySetAttr (fd : Fd) (t : T) | TyGetWinsize (fd : Fd).

Definition tty_answer (c : TtyCall) : Type :=
  match c with
  | TyGetAttr _ => option T
  | TySetAttr _ _ => bool
  | TyGetWinsize _ => option PtyWinsize
  end.

Notation tty_act R := (act TtyCall tty_answer R).
Definition tty_ask (c : TtyCall) : tty_act (tty_answer c) :=
  ask (C := TtyCall) (A := tty_answer) c.

Record RawMode := MkRawMode { rm_fd : Fd; rm_saved : T }.

Definition STDIN_FILENO : Fd := 0.

Definition enter_stdin : tty_act (option RawMode) :=
  let* saved := tty_ask (TyGetAttr STDIN_FILENO) in
  match saved with
  | None => done None
  | Some saved =>
      let* ok := tty_ask (TySetAttr STDIN_FILENO (cfmakeraw saved)) in
      done (if (ok : bool) then Some (MkRawMode STDIN_FILENO saved) else None)
  end.

(** [Drop for RawMode]. *)
Definition raw_mode_drop (m : RawMode) : tty_act unit :=
  let* _ := tty_ask (TySetAttr (rm_fd m) (rm_saved m)) in done tt.

Definition tty_winsize (fd : Fd) : tty_act (option PtyWinsize) :=
  tty_ask (TyGetWinsize fd).

Definition tty_winsize_stdin : tty_act (option PtyWinsize) := tty_winsize STDIN_FILENO.

End Tty.
Arguments TtyCall : clear implicits.
Arguments RawMode : clear implicits.
