(* ===== verification/PtySpec.v ===== *)
(** * PtySpec: bounded writes, starting a shell, the raw mode

    A write to a master is a run of a writer that never waits beyond its budget; a read
    without a time limit never waits; a child becomes the shell only after it is set up
    and only while its parent lives; leaving the raw mode restores the terminal. *)

From stdpp Require Import strings.
From S2P Require Export Pty.

#[local] Open Scope list_scope.
#[local] Open Scope Z_scope.

(** ** Writing *)

(** The documented answers of [write] and [poll]. *)
Definition kernel (c : PtyCall) : pty_answer c -> Prop :=
  match c with
  | PyWrite _ bs => fun a => match a with Ok n => 0 <= n <= Z.of_nat (length bs) | Err _ => True end
  | PyRead _ n => fun a => match a with Ok bs => (length bs <= n)%nat | Err _ => True end
  | _ => fun _ => True
  end.

(** What is left to write at the head of the loop; after the clock showed a time before
    the deadline; after [poll] found room.  [k]: how often the clock was in time. *)
Inductive Writer :=
  | WrIdle (k : nat) (rest : list byte)
  | WrTimed (k : nat) (rest : list byte) (now : Z)
  | WrReady (k : nat) (rest : list byte)
  | WrStopped (rest : list byte).

Definition left_over (m : Writer) : list byte :=
  match m with WrIdle _ r | WrTimed _ r _ | WrReady _ r | WrStopped r => r end.

Definition room (rc revents : Z) : bool :=
  negb (rc =? 0) && (Z.land revents (Z.lor POLLERR (Z.lor POLLHUP POLLNVAL)) =? 0).

(** One step of a writer to [fd] with [deadline]: it looks at the clock first, waits no
    longer than until the deadline, and writes what is left when there is room. *)
Definition writer_step (fd : Fd) (deadline : Z) (m : Writer) (c : PtyCall) :
  pty_answer c -> Writer -> Prop :=
  match c with
  | PyNow => fun now m' =>
      match m with
      | WrIdle k (b :: bs) =>
          m' = if now <? deadline then WrTimed (S k) (b :: bs) now else WrStopped (b :: bs)
      | _ => False
      end
  | PyPoll fd' events ms => fun a m' =>
      match m with
      | WrTimed k rest now =>
          fd' = fd /\ events = POLLOUT /\ 0 <= ms /\ now + ms * 10 ^ 6 <= deadline /\
          m' = match a with
               | Ok (rc, revents) => if room rc revents then WrReady k rest else WrStopped rest
               | Err EIntr => WrIdle k rest
               | Err _ => WrStopped rest
               end
      | _ => False
      end
  | PyWrite fd' bs => fun a m' =>
      match m with
      | WrReady k rest =>
          fd' = fd /\ bs = rest /\
          m' = match a with
               | Ok n => if n =? 0 then WrStopped rest else WrIdle k (drop (Z.to_nat n) rest)
               | Err EAgain | Err EIntr => WrIdle k rest
               | Err _ => WrStopped rest
               end
      | _ => False
      end
  | _ => fun _ _ => False
  end.

Definition writer_end (fuel : nat) (o : outcome (result unit PlatformError)) (m : Writer) : Prop :=
  match o with
  | Done (Ok _) => exists k, m = WrIdle k []
  | Done (Err _) => exists rest, m = WrStopped rest
  | OutOfFuel => exists rest, m = WrIdle fuel rest
  | Panicked => False
  end.

Lemma poll_millis_before deadline now :
  now < deadline -> 0 <= poll_millis (saturating_sub deadline now) /\
  now + poll_millis (saturating_sub deadline now) * 10 ^ 6 <= deadline.
Proof.
  intros Hn. unfold poll_millis, saturating_sub. rewrite Z.max_r by lia.
  pose proof (Z.div_pos (deadline - now) (10 ^ 6) ltac:(lia) ltac:(lia)).
  pose proof (Z.mul_div_le (deadline - now) (10 ^ 6) ltac:(lia)).
  split; [lia|].
  assert (Z.min ((deadline - now) / 10 ^ 6) (2 ^ 31 - 1) <= (deadline - now) / 10 ^ 6) by lia.
  nia.
Qed.

Section Writes.
Context (fd : Fd) (deadline : Z).

Notation wsafe p m Q := (safe kernel (writer_step fd deadline) p m Q) (only parsing).

Lemma write_ready_safe k rest revents again Q :
  Z.land revents (Z.lor POLLERR (Z.lor POLLHUP POLLNVAL)) = 0 ->
  (forall r, wsafe (again r) (WrIdle k r) Q) ->
  (forall e, Q (Done (Err e)) (WrStopped rest)) ->
  wsafe (write_ready fd rest revents again) (WrReady k rest) Q.
Proof.
  intros Hr Ha He. unfold write_ready. rewrite Hr. cbn [Z.eqb negb].
  intros a Hk. cbn in Hk. exists (match a with
    | Ok n => if n =? 0 then WrStopped rest else WrIdle k (drop (Z.to_nat n) rest)
    | Err EAgain | Err EIntr => WrIdle k rest | Err _ => WrStopped rest end).
  split; [cbn; auto|].
  destruct a as [n|[]]; cbn; auto.
  destruct (n =? 0); [cbn; auto|].
  rewrite (proj2 (Z.leb_le n (Z.of_nat (length rest)))) by lia. apply Ha.
Qed.

Lemma write_until_safe fuel : forall k data,
  wsafe (write_until fuel fd deadline data) (WrIdle k data) (writer_end (k + fuel)).
Proof.
  induction fuel as [|fuel IH]; intros k [|b bs]; cbn [write_until];
    try (cbn; eauto; fail).
  { cbn. rewrite Nat.add_0_r. eauto. }
  intros now _. cbn [act_bind prog_bind done]. exists (if now <? deadline then WrTimed (S k) (b :: bs) now
    else WrStopped (b :: bs)). split; [reflexivity|].
  destruct (Z.ltb_spec now deadline) as [Hn|Hn].
  2:{ unfold saturating_sub. rewrite Z.max_l by lia. cbn. eauto. }
  cbn zeta. rewrite (proj2 (Z.eqb_neq (saturating_sub deadline now) 0)) by (unfold saturating_sub; lia).
  intros a _. eexists. split.
  { cbn. split_and!; [reflexivity | reflexivity | apply poll_millis_before, Hn
      | apply poll_millis_before, Hn | reflexivity]. }
  replace (k + S fuel)%nat with (S k + fuel)%nat by lia.
  cbn [act_bind prog_bind done].
  destruct a as [[rc revents]|[]]; try solve [apply IH | cbn; eauto].
  unfold room. destruct (rc =? 0) eqn:Erc; [cbn; eauto|]. cbn [negb andb].
  destruct (Z.land _ _ =? 0) eqn:Er.
  - apply write_ready_safe; [apply Z.eqb_eq, Er | intros r; apply IH | cbn; eauto].
  - unfold write_ready. rewrite Er. cbn. eauto.
Qed.

End Writes.

(** The bytes the kernel took, and the times the clock showed. *)
Definition taken (e : event pty_answer) : list byte :=
  match e with
  | existT (PyWrite _ bs) a => match a with Ok n => take (Z.to_nat n) bs | Err _ => [] end
  | _ => []
  end.
Definition shown (e : event pty_answer) : list Z :=
  match e with existT PyNow now => [now] | _ => [] end.

Definition passes (m : Writer) : nat :=
  match m with WrIdle k _ | WrTimed k _ _ | WrReady k _ => k | WrStopped _ => O end.

Section Path.
Context (fd : Fd) (deadline : Z).

Notation wpath m t m' := (path (writer_step fd deadline) m t m') (only parsing).

(** What was taken and what is left are the data, in order. *)
Lemma writer_conserves m t m' : wpath m t m' ->
  left_over m = concat (map taken t) ++ left_over m'.
Proof.
  induction 1 as [|m c a m1 t m2 Hs _ IH]; [reflexivity|].
  cbn [map concat]. rewrite <- app_assoc, <- IH. clear IH.
  destruct c; try contradiction Hs.
  - destruct m as [k [|b bs]| | |]; try contradiction Hs. cbn in Hs |- *. subst m1.
    destruct (a <? deadline); reflexivity.
  - destruct m as [| k rest now | |]; try contradiction Hs. destruct Hs as (_ & _ & _ & _ & ->).
    destruct a as [[rc rev]|[]]; cbn; try reflexivity. destruct (room rc rev); reflexivity.
  - destruct m as [| |k rest|]; try contradiction Hs. destruct Hs as (_ & -> & ->).
    destruct a as [n|[]]; try reflexivity. cbn. destruct (Z.eqb_spec n 0) as [->|]; [reflexivity|].
    symmetry. apply take_drop.
Qed.

Lemma stopped_ends rest t m : wpath (WrStopped rest) t m -> t = [] /\ m = WrStopped rest.
Proof.
  inversion 1 as [|? c ? ? ? ? Hs]; subst; [auto|]. destruct c; contradiction Hs.
Qed.

(** Every pass that did not stop the writer saw the clock once. *)
Lemma writer_passes m t m' : wpath m t m' ->
  (exists rest, m' = WrStopped rest) \/ passes m' = (passes m + length (concat (map shown t)))%nat.
Proof.
  induction 1 as [m|m c a m1 t m2 Hs Hp [Hx|IH]]; [right; cbn; lia | left; exact Hx |].
  cbn [map concat]. rewrite length_app.
  assert (Hm : (exists rest, m1 = WrStopped rest) \/
    passes m1 = (passes m + length (shown (ev c a)))%nat).
  { destruct c; try contradiction Hs.
    - destruct m as [k [|b bs]| | |]; try contradiction Hs. cbn in Hs |- *. subst m1.
      destruct (a <? deadline); cbn; eauto with lia.
    - destruct m as [| k rest now | |]; try contradiction Hs. destruct Hs as (_ & _ & _ & _ & ->).
      destruct a as [[rc rev]|[]]; cbn; eauto. destruct (room rc rev); cbn; eauto.
    - destruct m as [| |k rest|]; try contradiction Hs. destruct Hs as (_ & _ & ->).
      destruct a as [n|[]]; cbn; eauto. destruct (n =? 0); cbn; eauto. }
  destruct Hm as [[rest ->]|Hm]; [|lia].
  apply stopped_ends in Hp as [_ ->]. eauto.
Qed.

(** Once the clock shows the deadline, nothing is called any more. *)
Lemma writer_late m t1 now t2 m' :
  wpath m (t1 ++ ev PyNow now :: t2) m' -> deadline <= now -> t2 = [].
Proof.
  intros Hp Hd. apply path_split in Hp as (m1 & _ & Hp).
  apply path_inv in Hp as (m2 & Hs & Hp). cbn in Hs.
  destruct m1 as [k [|b bs]| | |]; try contradiction Hs. subst m2.
  rewrite (proj2 (Z.ltb_ge now deadline)) in Hp by lia. apply stopped_ends in Hp as [-> _]. reflexivity.
Qed.

End Path.

(** C28: a bounded write to a master is a run of a writer that, pass by pass, looks at the
    clock, waits no longer than until the deadline and writes what is left where there is
    room: the bytes taken are the front of the data in order, and all of it on success;
    the first look at the clock that shows the deadline is the last call; there are as
    many passes as looks at the clock in time; nothing panics. *)
Theorem pty_write_bounded fuel fd data budget t o :
  runs (master_write_all_bounded fuel fd data budget) t o ->
  Forall (fun e => kernel (projT1 e) (projT2 e)) t ->
  exists start t' m, t = ev PyNow start :: t' /\
    path (writer_step fd (start + budget)) (WrIdle 0 data) t' m /\ writer_end fuel o m /\
    (exists rest, data = concat (map taken t') ++ rest /\ (o = Done (Ok tt) -> rest = [])) /\
    (forall t1 now t2, t' = t1 ++ ev PyNow now :: t2 -> start + budget <= now -> t2 = []) /\
    (o = OutOfFuel -> length (concat (map shown t')) = fuel).
Proof.
  intros (start & t' & -> & Hr) Hk. apply Forall_cons_iff in Hk as [_ Hk].
  destruct (safe_runs _ _ _ _ _ _ _ (write_until_safe fd (start + budget) fuel 0 data) Hr Hk)
    as (m & Hp & He).
  exists start, t', m. pose proof (writer_conserves _ _ _ _ _ Hp) as Hc.
  split_and!; [reflexivity | exact Hp | exact He | | |].
  - exists (left_over m). split; [exact Hc|]. intros ->. destruct He as [k ->]. reflexivity.
  - intros t1 now t2 ->. exact (writer_late _ _ _ _ _ _ _ Hp).
  - intros ->. destruct He as [rest ->], (writer_passes _ _ _ _ _ Hp) as [[? Hx]|Hx];
      [discriminate Hx | cbn in Hx; lia].
Qed.

(** A kernel with room for two bytes at a time, interrupted once; it shows a second
    more each time. *)
Definition demo_kernel (w : Z * list Errno) (c : PtyCall) : (Z * list Errno) * pty_answer c :=
  let '(now, faults) := w in
  match c with
  | PyNow => ((now + 10 ^ 9, faults), now)
  | PyPoll _ _ _ => (w, Ok (1, POLLOUT))
  | PyWrite _ bs =>
      match faults with
      | e :: faults => ((now, faults), Err e)
      | [] => (w, Ok (Z.min 2 (Z.of_nat (length bs))))
      end
  | PyRead _ _ => (w, Err EIo)
  | PyOpenSlave _ => ((now, faults), Ok (100 + Z.of_nat (length faults)))
  | PyOpenpt => (w, Some 7)
  | PyGetFl _ => (w, Some 2)
  | PyPtsname _ _ => (w, Some (ascii_bytes "/dev/pts/3" ++ [Byte.x00; Byte.x00]))
  | PyGetWinsize _ => (w, None)
  | PySetFl _ _ | PySetWinsize _ _ | PyKill _ | PyWait _ => (w, true)
  | PyGetpid => (w, 41)
  | PySpawn _ _ _ => (w, Ok 42)
  | PyGrant _ | PyUnlock _ | PyClose _ => (w, tt)
  end.

Definition demo_write :=
  exec demo_kernel (0, [EIntr])
    (master_write_all_bounded 10 7 [Byte.x61; Byte.x62; Byte.x63] (5 * 10 ^ 9)).

Lemma demo_write_run :
  runs (master_write_all_bounded 10 7 [Byte.x61; Byte.x62; Byte.x63] (5 * 10 ^ 9))
    (snd (fst demo_write)) (snd demo_write) /\
  Forall (fun e => kernel (projT1 e) (projT2 e)) (snd (fst demo_write)).
Proof.
  split; [exact (exec_is_run demo_kernel _ _)|]. vm_compute. repeat constructor; discriminate.
Qed.

Lemma pty_write_bounded_witness :
  concat (map taken (snd (fst demo_write))) = [Byte.x61; Byte.x62; Byte.x63] /\
  snd demo_write = Done (Ok tt) /\
  exists start t' m, snd (fst demo_write) = ev PyNow start :: t' /\
    path (writer_step 7 (start + 5 * 10 ^ 9)) (WrIdle 0 [Byte.x61; Byte.x62; Byte.x63]) t' m.
Proof.
  split_and!; [reflexivity | reflexivity|].
  destruct demo_write_run as [Hr Hk].
  destruct (pty_write_bounded _ _ _ _ _ _ Hr Hk) as (start & t' & m & E & Hp & _).
  exists start, t', m. split; [exact E | exact Hp].
Defined.

(** ** Reading

    A read with no time to wait, as the pump of a connection uses it, never waits and
    makes at most four calls; data is what the kernel gave, never empty. *)
Lemma read_at_once fuel fd n t o :
  runs (master_read_timeout (S fuel) fd n 0) t o ->
  exists r, o = Done r /\ (length t <= 4)%nat /\
    Forall (fun e => match projT1 e with
                     | PyPoll fd' events ms => fd' = fd /\ events = POLLIN /\ ms = 0
                     | PyRead fd' n' => fd' = fd /\ n' = n
                     | PyNow => True
                     | _ => False
                     end) t /\
    (forall data, r = Ok (PrData data) ->
       data <> [] /\ exists t', t = t' ++ [ev (PyRead fd n) (Ok data)]).
Proof.
  intros (now & t1 & -> & now' & t2 & -> & p & t3 & -> & Hr).
  destruct p as [[rc revents]|e]; cbn [act_bind prog_bind done] in Hr.
  - destruct (rc =? 0).
    + destruct Hr as [-> ->]. eexists. split_and!; [reflexivity | cbn; lia | | discriminate].
      repeat constructor.
    + destruct Hr as (a & t4 & -> & Hr). cbn in Hr. destruct Hr as [-> ->].
      eexists. split_and!; [reflexivity | cbn; lia | repeat constructor |].
      intros data. destruct a as [[|b bs]|[]]; try discriminate.
      intros [= <-]. split; [discriminate|]. by eexists [_; _; _].
  - cbn in Hr. rewrite andb_false_r in Hr. destruct Hr as [-> ->].
    eexists. split_and!; [reflexivity | cbn; lia | | discriminate]. repeat constructor.
Qed.

(** ** The raw mode *)
Section Raw.
Context {T : Type} (cfmakeraw : T -> T).

(** A terminal with its settings: a failing call leaves them alone. *)
Definition tty_step (s : T) (c : TtyCall T) : tty_answer c -> T -> Prop :=
  match c with
  | TyGetAttr _ => fun a s' => s' = s /\ (a = None \/ a = Some s)
  | TySetAttr _ x => fun a s' => s' = if (a : bool) then x else s
  | TyGetWinsize _ => fun _ s' => s' = s
  end.

(** Entering the raw mode answers [None] and leaves the terminal alone, or makes it raw;
    leaving it, whatever became of the terminal, gives it back its first settings unless
    the call itself fails. *)
Lemma raw_mode_restores s t s1 o :
  runs (enter_stdin cfmakeraw) t o -> path tty_step s t s1 ->
  exists r, o = Done r /\
    match r with
    | None => s1 = s
    | Some m => s1 = cfmakeraw s /\
        forall s2 t' s3 o', runs (raw_mode_drop m) t' o' -> path tty_step s2 t' s3 ->
          s3 = s \/ (s3 = s2 /\ t' = [ev (TySetAttr STDIN_FILENO s) false])
    end.
Proof.
  intros (a & t1 & -> & Hr) Hp. apply path_inv in Hp as (s' & [-> Ha] & Hp). cbn in Ha.
  destruct a as [saved|]; cbn in Hr.
  - destruct Hr as (ok & t2 & -> & -> & ->). apply path_inv in Hp as (s' & Hs & Hp). cbn in Hs.
    inversion Hp; subst. destruct Ha as [|[= <-]]; [discriminate|].
    eexists. split; [reflexivity|]. destruct ok; [|reflexivity]. split; [reflexivity|].
    intros s2 t' s3 o' (ok & t2 & -> & -> & ->) Hp'.
    apply path_inv in Hp' as (s' & Hs & Hp'). cbn in Hs. inversion Hp'; subst.
    destruct ok; auto.
  - destruct Hr as [-> ->]. inversion Hp; subst. exists None. split; reflexivity.
Qed.

End Raw.
