(* ===== verification/ErrorCode.v ===== *)
(** * ErrorCode: the error registry of [otp-codec] (error.rs)

    [ErrorCode(u16)] is a [Z]; the registry's constants, their names and the
    two classifications the source computes from the number. *)

From S2P Require Export Types.
From stdpp Require Import strings.

#[local] Open Scope Z_scope.
#[local] Open Scope list_scope.

Definition ErrorCode : Type := Z.

Definition BOOK_MISMATCH : ErrorCode := 0x0100.
Definition EXHAUSTED : ErrorCode := 0x0101.
Definition CLIENT_AHEAD : ErrorCode := 0x0102.
Definition SERVER_AHEAD : ErrorCode := 0x0103.
Definition AUTH_FAILED : ErrorCode := 0x0200.
Definition TAG_INVALID : ErrorCode := 0x0201.
Definition SEGMENT_BINDING : ErrorCode := 0x0202.
Definition NONCE_MISMATCH : ErrorCode := 0x0203.
Definition SEQ_REPLAY : ErrorCode := 0x0204.
Definition PROTOCOL_VIOLATION : ErrorCode := 0x0300.
Definition BAD_VERSION : ErrorCode := 0x0301.
Definition BAD_LENGTH : ErrorCode := 0x0302.
Definition TRAILING_BYTES : ErrorCode := 0x0303.
Definition BAD_ENUM : ErrorCode := 0x0304.
Definition UNKNOWN_MSG_TYPE : ErrorCode := 0x0305.
Definition WRONG_DIRECTION : ErrorCode := 0x0306.
Definition ISSUE_POINTER_MISMATCH : ErrorCode := 0x0307.
Definition FRAME_TRUNCATED : ErrorCode := 0x0308.
Definition BAD_ORDER : ErrorCode := 0x0309.
Definition EPOCH_MISMATCH : ErrorCode := 0x030A.
Definition SEQ_UNEXPECTED : ErrorCode := 0x030B.
Definition INTERNAL : ErrorCode := 0x0400.
Definition IO_ERROR : ErrorCode := 0x0401.
Definition PERSISTENCE_UNVERIFIED : ErrorCode := 0x0402.
Definition CSPRNG_FAILURE : ErrorCode := 0x0403.

Section Registry.
#[local] Open Scope string_scope.

Definition registry : list (ErrorCode * string) :=
  [ (BOOK_MISMATCH, "BOOK_MISMATCH"); (EXHAUSTED, "EXHAUSTED");
    (CLIENT_AHEAD, "CLIENT_AHEAD"); (SERVER_AHEAD, "SERVER_AHEAD");
    (AUTH_FAILED, "AUTH_FAILED"); (TAG_INVALID, "TAG_INVALID");
    (SEGMENT_BINDING, "SEGMENT_BINDING"); (NONCE_MISMATCH, "NONCE_MISMATCH");
    (SEQ_REPLAY, "SEQ_REPLAY"); (PROTOCOL_VIOLATION, "PROTOCOL_VIOLATION");
    (BAD_VERSION, "BAD_VERSION"); (BAD_LENGTH, "BAD_LENGTH");
    (TRAILING_BYTES, "TRAILING_BYTES"); (BAD_ENUM, "BAD_ENUM");
    (UNKNOWN_MSG_TYPE, "UNKNOWN_MSG_TYPE");
    (WRONG_DIRECTION, "WRONG_DIRECTION");
    (ISSUE_POINTER_MISMATCH, "ISSUE_POINTER_MISMATCH");
    (FRAME_TRUNCATED, "FRAME_TRUNCATED"); (BAD_ORDER, "BAD_ORDER");
    (EPOCH_MISMATCH, "EPOCH_MISMATCH"); (SEQ_UNEXPECTED, "SEQ_UNEXPECTED");
    (INTERNAL, "INTERNAL"); (IO_ERROR, "IO_ERROR");
    (PERSISTENCE_UNVERIFIED, "PERSISTENCE_UNVERIFIED");
    (CSPRNG_FAILURE, "CSPRNG_FAILURE") ].

End Registry.

Fixpoint name_in (l : list (ErrorCode * string)) (c : ErrorCode) : string :=
  match l with
  | [] => "UNKNOWN"%string
  | (k, n) :: r => if c =? k then n else name_in r c
  end.

(** [ErrorCode::name]: the [match self.0] of the source, as a lookup in the
    registry in the order of the arms. *)
Definition name (c : ErrorCode) : string := name_in registry c.

(** [ErrorCode::category]: [(self.0 >> 8) as u8]. *)
Definition category (c : ErrorCode) : Z := Z.land (Z.shiftr c 8) 255.

(** [ErrorCode::is_codec_reject]. *)
Definition is_codec_reject (c : ErrorCode) : bool :=
  (0x0301 <=? c) && (c <=? 0x0308).

Lemma name_in_unknown l c :
  ~ In c (map fst l) -> name_in l c = "UNKNOWN"%string.
Proof.
  induction l as [|[k n] l IH]; simpl; [auto|]. intros H.
  destruct (Z.eqb_spec c k) as [->|]; [tauto | apply IH; tauto].
Qed.

(** The registry names codes uniquely: two registered codes with one name
    are one code, and a registered code is never called UNKNOWN. *)
Lemma name_in_registry c :
  In c (map fst registry) -> In (c, name c) registry.
Proof.
  simpl. intros H. 
  repeat (destruct H as [<-|H]; [vm_compute; tauto|]). destruct H.
Qed.

Lemma registry_names_nodup : NoDup (map snd registry).
Proof. apply (bool_decide_unpack _). vm_compute. exact I. Qed.

Lemma registry_functional (l : list (ErrorCode * string)) a b n :
  NoDup (map snd l) -> In (a, n) l -> In (b, n) l -> a = b.
Proof.
  induction l as [|[k m] l IH]; simpl; [tauto|].
  intros Hnd Ha Hb. apply NoDup_cons in Hnd as [Hm Hnd].
  assert (Hin : forall x, In (x, m) l -> False).
  { intros x Hx. apply Hm, list_elem_of_In, in_map_iff.
    exists (x, m). auto. }
  destruct Ha as [Ha|Ha], Hb as [Hb|Hb]; try congruence; [| |eauto].
  - injection Ha as -> ->. destruct (Hin _ Hb).
  - injection Hb as -> ->. destruct (Hin _ Ha).
Qed.
