(* ===== verification/Message.v ===== *)
(** * Message: the wire data model of [otp-codec] (message.rs)

    The frame constants, the message-type registry, the six messages and the
    87-byte inner confirm body, with the well-formedness their Rust types
    impose (array lengths and integer widths). *)

From S2P Require Export ErrorCode.

#[local] Open Scope Z_scope.

Definition FRAME_HEADER_LEN : Z := 8.
Definition MAX_APP_PLAINTEXT : Z := 65536.
Definition MAX_DATA_FIELD : Z := 65552.
Definition MIN_DATA_FIELD : Z := 16.
Definition MAX_FRAME_PAYLOAD : Z := 65568.
Definition MIN_FRAME_PAYLOAD : Z := 32.
Definition MAX_FRAME : Z := 65576.
Definition HELLO_PAYLOAD_LEN : Z := 44.
Definition ARBITRATE_PAYLOAD_LEN : Z := 25.
Definition ISSUE_PAYLOAD_LEN : Z := 40.
Definition CONFIRM_PAYLOAD_LEN : Z := 139.
Definition SEALED_LEN : Z := 103.
Definition CONFIRM_BODY_LEN : Z := 87.
Definition CONFIRM_LABEL_LEN : Z := 14.

(** [otp_codec::VERSION]. *)
Definition VERSION : Z := 0x0002.

Definition FEATURE_RECONNECT : Z := 0x00000001.

(** [FeatureFlags::has_reconnect]. *)
Definition has_reconnect (f : Z) : bool :=
  negb (Z.land f FEATURE_RECONNECT =? 0).

Inductive MsgType :=
  MtHello | MtArbitrate | MtIssueRequest | MtConfirmC2s | MtConfirmS2c | MtData.

#[global] Instance msg_type_eq_dec : EqDecision MsgType.
Proof. solve_decision. Defined.

Definition msg_type_wire (t : MsgType) : Z :=
  match t with
  | MtHello => 0x0001
  | MtArbitrate => 0x0002
  | MtIssueRequest => 0x0003
  | MtConfirmC2s => 0x0004
  | MtConfirmS2c => 0x0005
  | MtData => 0x0006
  end.

Definition msg_type_from_wire (v : Z) : option MsgType :=
  match v with
  | 0x0001 => Some MtHello
  | 0x0002 => Some MtArbitrate
  | 0x0003 => Some MtIssueRequest
  | 0x0004 => Some MtConfirmC2s
  | 0x0005 => Some MtConfirmS2c
  | 0x0006 => Some MtData
  | _ => None
  end.

Definition msg_send_direction (t : MsgType) : option Direction :=
  match t with
  | MtHello | MtIssueRequest | MtConfirmC2s => Some ClientToServer
  | MtArbitrate | MtConfirmS2c => Some ServerToClient
  | MtData => None
  end.

Definition payload_len_range (t : MsgType) : Z * Z :=
  match t with
  | MtHello => (HELLO_PAYLOAD_LEN, HELLO_PAYLOAD_LEN)
  | MtArbitrate => (ARBITRATE_PAYLOAD_LEN, ARBITRATE_PAYLOAD_LEN)
  | MtIssueRequest => (ISSUE_PAYLOAD_LEN, ISSUE_PAYLOAD_LEN)
  | MtConfirmC2s | MtConfirmS2c => (CONFIRM_PAYLOAD_LEN, CONFIRM_PAYLOAD_LEN)
  | MtData => (MIN_FRAME_PAYLOAD, MAX_FRAME_PAYLOAD)
  end.

Inductive ArbitrateResult :=
  ArOk | ArServerAhead | ArExhausted | ArBookMismatch | ArClientAhead.

#[global] Instance arbitrate_result_eq_dec : EqDecision ArbitrateResult.
Proof. solve_decision. Defined.

Definition arbitrate_wire (r : ArbitrateResult) : Z :=
  match r with
  | ArOk => 0x00
  | ArServerAhead => 0x01
  | ArExhausted => 0x02
  | ArBookMismatch => 0x03
  | ArClientAhead => 0x04
  end.

Definition arbitrate_from_wire (v : Z) : option ArbitrateResult :=
  match v with
  | 0x00 => Some ArOk
  | 0x01 => Some ArServerAhead
  | 0x02 => Some ArExhausted
  | 0x03 => Some ArBookMismatch
  | 0x04 => Some ArClientAhead
  | _ => None
  end.

(** Fields of [Message::ConfirmC2s] and [Message::ConfirmS2c]. *)
Record ConfirmFields := MkConfirm {
  cf_segment_index : Z;
  cf_session_nonce : Nonce;
  cf_epoch : Z;
  cf_seq : Z;
  cf_sealed : list byte;
}.

Inductive Message :=
  | Hello (book_id : BookId) (client_nonce : Nonce) (client_pointer : Z)
          (features : Z)
  | Arbitrate (server_nonce : Nonce) (server_pointer : Z)
              (res : ArbitrateResult)
  | IssueRequest (chosen_pointer : Z) (client_nonce server_nonce : Nonce)
  | ConfirmC2s (c : ConfirmFields)
  | ConfirmS2c (c : ConfirmFields)
  | Data (depoch dseq : Z) (data : list byte).

#[global] Instance confirm_fields_eq_dec : EqDecision ConfirmFields.
Proof. solve_decision. Defined.
#[global] Instance message_eq_dec : EqDecision Message.
Proof. solve_decision. Defined.

Definition msg_type (m : Message) : MsgType :=
  match m with
  | Hello _ _ _ _ => MtHello
  | Arbitrate _ _ _ => MtArbitrate
  | IssueRequest _ _ _ => MtIssueRequest
  | ConfirmC2s _ => MtConfirmC2s
  | ConfirmS2c _ => MtConfirmS2c
  | Data _ _ _ => MtData
  end.

Definition msg_direction (m : Message) : option Direction :=
  msg_send_direction (msg_type m).

Record ConfirmBody := MkBody {
  cb_book_id : BookId;
  cb_segment_index : Z;
  cb_client_nonce : Nonce;
  cb_server_nonce : Nonce;
  cb_direction : Direction;
  cb_epoch : Z;
  cb_seq : Z;
  cb_msg_type : Z;
  cb_label : list byte;
}.

#[global] Instance confirm_body_eq_dec : EqDecision ConfirmBody.
Proof. solve_decision. Defined.

Definition body_direction_wire (d : Direction) : Z :=
  match d with ClientToServer => 0x01 | ServerToClient => 0x02 end.

Definition body_direction_from_wire (v : Z) : option Direction :=
  match v with
  | 0x01 => Some ClientToServer
  | 0x02 => Some ServerToClient
  | _ => None
  end.

Definition plen_ok (t : MsgType) (plen : Z) : bool :=
  let '(min, max) := payload_len_range t in
  (min <=? plen) && (plen <=? max).

(** What the Rust types of the fields guarantee. *)
Definition wf_confirm (c : ConfirmFields) : Prop :=
  is_u64 (cf_segment_index c) /\ wf_nonce16 (cf_session_nonce c) /\
  is_u32 (cf_epoch c) /\ is_u64 (cf_seq c) /\ fixed 103 (cf_sealed c).

Definition wf_message (m : Message) : Prop :=
  match m with
  | Hello b n p f => wf_book_id b /\ wf_nonce16 n /\ is_u64 p /\ is_u32 f
  | Arbitrate n p _ => wf_nonce16 n /\ is_u64 p
  | IssueRequest p cn sn => is_u64 p /\ wf_nonce16 cn /\ wf_nonce16 sn
  | ConfirmC2s c | ConfirmS2c c => wf_confirm c
  | Data e s _ => is_u32 e /\ is_u64 s
  end.

Definition wf_body (b : ConfirmBody) : Prop :=
  wf_book_id (cb_book_id b) /\ is_u64 (cb_segment_index b) /\
  wf_nonce16 (cb_client_nonce b) /\ wf_nonce16 (cb_server_nonce b) /\
  is_u32 (cb_epoch b) /\ is_u64 (cb_seq b) /\ is_u16 (cb_msg_type b) /\
  fixed 14 (cb_label b).

Lemma msg_type_from_wire_wire t : msg_type_from_wire (msg_type_wire t) = Some t.
Proof. destruct t; reflexivity. Qed.

(** A total case analysis on a literal match of [Z]: the matched value is
    the literal of the arm. *)
Ltac z_literals H :=
  repeat match type of H with
  | context [match ?x with _ => _ end] =>
      is_var x; destruct x; simpl in H; try discriminate H
  end.

Lemma msg_type_from_wire_some v t :
  msg_type_from_wire v = Some t -> v = msg_type_wire t.
Proof.
  unfold msg_type_from_wire. intros H.
  z_literals H; injection H as <-; reflexivity.
Qed.

Lemma arbitrate_from_wire_wire r :
  arbitrate_from_wire (arbitrate_wire r) = Some r.
Proof. destruct r; reflexivity. Qed.

Lemma arbitrate_from_wire_some v r :
  arbitrate_from_wire v = Some r -> v = arbitrate_wire r.
Proof.
  unfold arbitrate_from_wire. intros H.
  z_literals H; injection H as <-; reflexivity.
Qed.

Lemma body_direction_from_wire_wire d :
  body_direction_from_wire (body_direction_wire d) = Some d.
Proof. destruct d; reflexivity. Qed.

Lemma body_direction_from_wire_some v d :
  body_direction_from_wire v = Some d -> v = body_direction_wire d.
Proof.
  unfold body_direction_from_wire. intros H.
  z_literals H; injection H as <-; reflexivity.
Qed.

Lemma msg_type_wire_u16 t : is_u16 (msg_type_wire t).
Proof. destruct t; simpl; ulia. Qed.
Lemma arbitrate_wire_u8 r : is_u8 (arbitrate_wire r).
Proof. destruct r; simpl; ulia. Qed.
Lemma body_direction_wire_u8 d : is_u8 (body_direction_wire d).
Proof. destruct d; simpl; ulia. Qed.

#[export] Hint Resolve msg_type_wire_u16 arbitrate_wire_u8
  body_direction_wire_u8 : wire.
