(* ===== verification/Cursor.v ===== *)
(** * Cursor: the forward-only reader of [otp-codec] (decode.rs)

    [Cursor { buf, pos }] with its methods in state-passing style.  The
    relation [at_rest c l] ("[l] is what [c] has left") carries the proofs:
    a read consumes exactly its bytes, in both directions. *)

From S2P Require Export Message.

#[local] Open Scope Z_scope.

Record Cursor := MkCursor { c_buf : list byte; c_pos : nat }.

Definition cursor_new (buf : list byte) : Cursor := MkCursor buf 0.

(** [Cursor::take]: out of range, or [pos + n] past [usize], is BAD_LENGTH
    (a sum past [usize] is past [buf.len()] too). *)
Definition c_take (n : nat) (c : Cursor) :
  result (list byte * Cursor) ErrorCode :=
  let e := (c_pos c + n)%nat in
  if (e <=? length (c_buf c))%nat
  then Ok (slice (c_pos c) e (c_buf c), MkCursor (c_buf c) e)
  else Err BAD_LENGTH.

Definition c_done (c : Cursor) : result unit ErrorCode :=
  if (c_pos c =? length (c_buf c))%nat then Ok tt else Err TRAILING_BYTES.

Definition c_u8 (c : Cursor) : result (Z * Cursor) ErrorCode :=
  let? '(b, c) := c_take 1 c in Ok (be_val b, c).
Definition c_u16 (c : Cursor) : result (Z * Cursor) ErrorCode :=
  let? '(b, c) := c_take 2 c in Ok (be_val b, c).
Definition c_u32 (c : Cursor) : result (Z * Cursor) ErrorCode :=
  let? '(b, c) := c_take 4 c in Ok (be_val b, c).
Definition c_u64 (c : Cursor) : result (Z * Cursor) ErrorCode :=
  let? '(b, c) := c_take 8 c in Ok (be_val b, c).
Definition c_fixed16 (c : Cursor) : result (list byte * Cursor) ErrorCode :=
  c_take 16 c.

Definition at_rest (c : Cursor) (l : list byte) : Prop :=
  exists p, c_buf c = p ++ l /\ c_pos c = length p.

Lemma at_rest_new l : at_rest (cursor_new l) l.
Proof. exists []. auto. Qed.

Lemma c_take_app n s l c :
  at_rest c (s ++ l) -> length s = n ->
  exists c', c_take n c = Ok (s, c') /\ at_rest c' l.
Proof.
  intros (p & Hb & Hp) <-. unfold c_take. rewrite Hb, Hp.
  destruct (Nat.leb_spec (length p + length s) (length (p ++ s ++ l)))
    as [_|H]; [|rewrite !length_app in H; lia].
  eexists; split.
  - unfold slice. rewrite drop_app_length.
    replace (length p + length s - length p)%nat with (length s) by lia.
    rewrite take_app_length. reflexivity.
  - exists (p ++ s). simpl. rewrite <- app_assoc, length_app. auto.
Qed.

Lemma c_take_ok n c s c' l :
  at_rest c l -> c_take n c = Ok (s, c') ->
  exists l', l = s ++ l' /\ length s = n /\ at_rest c' l'.
Proof.
  intros (p & Hb & Hp). unfold c_take. rewrite Hb, Hp.
  destruct (Nat.leb_spec (length p + n) (length (p ++ l))) as [H|];
    [|discriminate].
  rewrite length_app in H. intros [= Hs Hc].
  unfold slice in Hs. rewrite drop_app_length in Hs.
  replace (length p + n - length p)%nat with n in Hs by lia.
  exists (drop n l). subst s c'. rewrite take_drop, length_take.
  repeat split; [lia|]. exists (p ++ take n l); simpl.
  rewrite <- app_assoc, take_drop, length_app, length_take. split; [auto|lia].
Qed.

Lemma c_take_err n c e :
  c_take n c = Err e -> e = BAD_LENGTH.
Proof. unfold c_take. case_match; congruence. Qed.

Lemma c_done_nil c : at_rest c [] -> c_done c = Ok tt.
Proof.
  intros (p & Hb & Hp). unfold c_done. rewrite Hb, Hp, app_nil_r.
  rewrite Nat.eqb_refl. reflexivity.
Qed.

Lemma c_done_ok c l u : at_rest c l -> c_done c = Ok u -> l = [].
Proof.
  intros (p & Hb & Hp). unfold c_done. rewrite Hb, Hp, length_app.
  destruct (Nat.eqb_spec (length p) (length p + length l)); [|discriminate].
  intros _. apply nil_length_inv. lia.
Qed.

Lemma c_uint_app n z l c :
  at_rest c (be_bytes n z ++ l) -> 0 <= z < 256 ^ Z.of_nat n ->
  exists c', (let? '(b, c1) := c_take n c in Ok (be_val b, c1)) = Ok (z, c')
    /\ at_rest c' l.
Proof.
  intros H Hz. destruct (c_take_app n _ _ _ H) as (c' & E & Hr);
    [apply length_be_bytes|].
  exists c'. rewrite E. simpl. rewrite be_val_be_bytes by auto. auto.
Qed.

Lemma c_uint_ok n c z c' l :
  at_rest c l ->
  (let? '(b, c1) := c_take n c in Ok (be_val b, c1)) = Ok (z, c') ->
  exists l', l = be_bytes n z ++ l' /\ 0 <= z < 256 ^ Z.of_nat n
    /\ at_rest c' l'.
Proof.
  intros Hr H. apply result_bind_ok in H as ([b c1] & E & [= <- <-]).
  destruct (c_take_ok _ _ _ _ _ Hr E) as (l' & -> & Hn & Hr').
  exists l'. rewrite be_bytes_be_val by auto.
  pose proof (be_val_bound b) as B. rewrite Hn in B. auto.
Qed.

(** One step of a forward parse whose input is known: consumes the next
    field of the wire format. *)
Ltac c_step :=
  match goal with
  | Hr : at_rest ?c (?s ++ ?l) |- context [c_fixed16 ?c] =>
      let c' := fresh "c" in let E := fresh "E" in
      let Hr' := fresh "Hr" in
      destruct (c_take_app 16 s l c Hr) as (c' & E & Hr'); [assumption|];
      change (c_fixed16 c = Ok (s, c')) in E; rewrite E; cbn [result_bind]; clear E Hr
  | Hr : at_rest ?c (?s ++ ?l) |- context [c_take ?n ?c] =>
      let c' := fresh "c" in let E := fresh "E" in
      let Hr' := fresh "Hr" in
      destruct (c_take_app n s l c Hr) as (c' & E & Hr');
      [first [assumption | rewrite ?Nat2Z.id, ?Z2Nat.id; auto; lia]|];
      rewrite E; cbn [result_bind]; clear E Hr
  | Hr : at_rest ?c (be_bytes ?n ?z ++ ?l) |- context [?f ?c] =>
      first [unify f c_u8 | unify f c_u16 | unify f c_u32 | unify f c_u64];
      let c' := fresh "c" in let E := fresh "E" in
      let Hr' := fresh "Hr" in
      destruct (c_uint_app n z l c Hr) as (c' & E & Hr');
      [ulia|]; change (f c = Ok (z, c')) in E; rewrite E; cbn [result_bind]; clear E Hr
  | Hr : at_rest ?c [] |- context [c_done ?c] =>
      rewrite (c_done_nil c Hr); cbn [result_bind]; clear Hr
  end.

(** One step backwards: a successful read names the bytes it consumed. *)
Ltac c_back :=
  match goal with
  | Hr : at_rest ?c ?l, H : c_take ?n ?c = Ok (?s, ?c') |- _ =>
      let l' := fresh "l" in let Hl := fresh "Hlen" in
      destruct (c_take_ok n c s c' l Hr H) as (l' & -> & Hl & ?);
      clear H Hr
  | Hr : at_rest ?c ?l, H : c_fixed16 ?c = Ok (?s, ?c') |- _ =>
      let l' := fresh "l" in let Hl := fresh "Hlen" in
      destruct (c_take_ok 16 c s c' l Hr H) as (l' & -> & Hl & ?);
      clear H Hr
  | Hr : at_rest ?c ?l, H : ?f ?c = Ok (?z, ?c') |- _ =>
      let n := match f with
               | c_u8 => constr:(1%nat) | c_u16 => constr:(2%nat)
               | c_u32 => constr:(4%nat) | c_u64 => constr:(8%nat) end in
      let l' := fresh "l" in let Hl := fresh "Hz" in
      destruct (c_uint_ok n c z c' l Hr H) as (l' & -> & Hl & ?);
      clear H Hr
  | Hr : at_rest ?c ?l, H : c_done ?c = Ok _ |- _ =>
      pose proof (c_done_ok c l _ Hr H) as ->; clear H Hr
  end.

(** Opens a chain of [let?] over cursors. *)
Ltac c_open :=
  repeat match goal with
  | H : result_bind _ _ = Ok _ |- _ =>
      let H1 := fresh "Hc" in
      apply result_bind_ok in H; destruct H as (? & H1 & H);
      try match type of H with
          | (match ?p with (_, _) => _ end) = Ok _ =>
              is_var p; destruct p; simpl in H
          end
  end.
