(* ===== verification/Codec.v ===== *)
(** * Codec: canonical encoding and strict decoding of [otp-codec]

    [encode] / [encode_into] (encode.rs) and [decode] with the eight ordered
    checks of decode.rs, and the inner confirm body.  [encode_into] returns
    the buffer it leaves behind with its result. *)

From S2P Require Export Cursor.

#[local] Open Scope Z_scope.

(** [payload_len_of]. *)
Definition payload_len_of (m : Message) : Z :=
  match m with
  | Data _ _ data => 16 + Z.of_nat (length data)
  | _ => fst (payload_len_range (msg_type m))
  end.

Definition in_data_range (n : Z) : bool :=
  (MIN_DATA_FIELD <=? n) && (n <=? MAX_DATA_FIELD).

(** The checks [encode_into] makes before it writes a byte. *)
Definition encode_precheck (m : Message) : result unit ErrorCode :=
  match m with
  | Arbitrate _ server_pointer res =>
      if bool_decide (res = ArBookMismatch) && negb (server_pointer =? 0)
      then Err BAD_ENUM else Ok tt
  | Data _ _ data =>
      if negb (in_data_range (Z.of_nat (length data)))
      then Err BAD_LENGTH else Ok tt
  | _ => Ok tt
  end.

(** The payload bytes of the second [match] of [encode_into]. *)
Definition encode_payload (m : Message) : list byte :=
  match m with
  | Hello book_id client_nonce client_pointer features =>
      book_id ++ client_nonce ++ u64_be client_pointer ++ u32_be features
  | Arbitrate server_nonce server_pointer res =>
      server_nonce ++ u64_be server_pointer ++ [z2b (arbitrate_wire res)]
  | IssueRequest chosen_pointer client_nonce server_nonce =>
      u64_be chosen_pointer ++ client_nonce ++ server_nonce
  | ConfirmC2s c | ConfirmS2c c =>
      u64_be (cf_segment_index c) ++ cf_session_nonce c ++ u32_be (cf_epoch c) ++
      u64_be (cf_seq c) ++ cf_sealed c
  | Data e s data =>
      u32_be e ++ u64_be s ++ u32_be (Z.of_nat (length data)) ++ data
  end.

(** [encode_into(msg, out)]: the result and the buffer after the call. *)
Definition encode_into (m : Message) (out : list byte) :
  result unit ErrorCode * list byte :=
  match encode_precheck m with
  | Err e => (Err e, out)
  | Ok _ =>
      let ty := msg_type m in
      let out := out ++ u16_be VERSION in
      let out := out ++ u16_be (msg_type_wire ty) in
      let out := out ++ u32_be (payload_len_of m) in
      (Ok tt, out ++ encode_payload m)
  end.

Definition encode (m : Message) : result (list byte) ErrorCode :=
  let '(r, out) := encode_into m [] in
  let? _ := r in Ok out.

(** [encode_confirm_body]. *)
Definition encode_confirm_body (b : ConfirmBody) :
  result (list byte) ErrorCode :=
  Ok (u16_be VERSION ++ cb_book_id b ++ u64_be (cb_segment_index b) ++
      cb_client_nonce b ++ cb_server_nonce b ++
      [z2b (body_direction_wire (cb_direction b))] ++
      u32_be (cb_epoch b) ++ u64_be (cb_seq b) ++ u16_be (cb_msg_type b) ++
      cb_label b).

Definition decode_hello (p : list byte) : result Message ErrorCode :=
  let c := cursor_new p in
  let? '(book_id, c) := c_fixed16 c in
  let? '(client_nonce, c) := c_fixed16 c in
  let? '(client_pointer, c) := c_u64 c in
  let? '(features, c) := c_u32 c in
  let? _ := c_done c in
  Ok (Hello book_id client_nonce client_pointer features).

Definition decode_arbitrate (p : list byte) : result Message ErrorCode :=
  let c := cursor_new p in
  let? '(server_nonce, c) := c_fixed16 c in
  let? '(server_pointer, c) := c_u64 c in
  let? '(v, c) := c_u8 c in
  let? res := ok_or (arbitrate_from_wire v) BAD_ENUM in
  let? _ := c_done c in
  if bool_decide (res = ArBookMismatch) && negb (server_pointer =? 0)
  then Err BAD_ENUM
  else Ok (Arbitrate server_nonce server_pointer res).

Definition decode_issue (p : list byte) : result Message ErrorCode :=
  let c := cursor_new p in
  let? '(chosen_pointer, c) := c_u64 c in
  let? '(client_nonce, c) := c_fixed16 c in
  let? '(server_nonce, c) := c_fixed16 c in
  let? _ := c_done c in
  Ok (IssueRequest chosen_pointer client_nonce server_nonce).

Definition decode_confirm (p : list byte) : result ConfirmFields ErrorCode :=
  let c := cursor_new p in
  let? '(seg, c) := c_u64 c in
  let? '(sn, c) := c_fixed16 c in
  let? '(ep, c) := c_u32 c in
  let? '(sq, c) := c_u64 c in
  let? '(sealed, c) := c_take (Z.to_nat SEALED_LEN) c in
  let? _ := c_done c in
  Ok (MkConfirm seg sn ep sq sealed).

Definition decode_data (p : list byte) : result Message ErrorCode :=
  let c := cursor_new p in
  let? '(ep, c) := c_u32 c in
  let? '(sq, c) := c_u64 c in
  let? '(data_len, c) := c_u32 c in
  if negb (in_data_range data_len) then Err BAD_LENGTH else
  let? '(data, c) := c_take (Z.to_nat data_len) c in
  let? _ := c_done c in
  Ok (Data ep sq data).

(** Steps 7 and 8: the [match msg_type] at the end of [decode]. *)
Definition decode_payload (t : MsgType) (payload : list byte) :
  result Message ErrorCode :=
  match t with
  | MtHello => decode_hello payload
  | MtArbitrate => decode_arbitrate payload
  | MtIssueRequest => decode_issue payload
  | MtConfirmC2s => result_map ConfirmC2s (decode_confirm payload)
  | MtConfirmS2c => result_map ConfirmS2c (decode_confirm payload)
  | MtData => decode_data payload
  end.

(** Step 6: the direction guard. *)
Definition direction_rejected (t : MsgType) (role : Role) : bool :=
  match msg_send_direction t with
  | Some ClientToServer => negb (bool_decide (role = Server))
  | Some ServerToClient => negb (bool_decide (role = Client))
  | None => false
  end.

(** [decode(role, buf)], its checks in the order of the source. *)
Definition decode (role : Role) (buf : list byte) : result Message ErrorCode :=
  let len := Z.of_nat (length buf) in
  if len <? FRAME_HEADER_LEN then Err FRAME_TRUNCATED else
  let version := be_val [at_ 0 buf; at_ 1 buf] in
  if negb (version =? VERSION) then Err BAD_VERSION else
  let raw_type := be_val [at_ 2 buf; at_ 3 buf] in
  match msg_type_from_wire raw_type with
  | None => Err UNKNOWN_MSG_TYPE
  | Some t =>
      let payload_len := be_val [at_ 4 buf; at_ 5 buf; at_ 6 buf; at_ 7 buf] in
      if negb (plen_ok t payload_len) then Err BAD_LENGTH else
      match checked_add_u64 FRAME_HEADER_LEN payload_len with
      | None => Err BAD_LENGTH
      | Some fin =>
          match len ?= fin with
          | Lt => Err FRAME_TRUNCATED
          | Gt => Err TRAILING_BYTES
          | Eq =>
              if direction_rejected t role then Err WRONG_DIRECTION else
              decode_payload t
                (slice (Z.to_nat FRAME_HEADER_LEN) (Z.to_nat fin) buf)
          end
      end
  end.

(** [decode_confirm_body]. *)
Definition decode_confirm_body (buf : list byte) :
  result ConfirmBody ErrorCode :=
  if negb (Z.of_nat (length buf) =? CONFIRM_BODY_LEN) then Err BAD_LENGTH else
  let c := cursor_new buf in
  let? '(version, c) := c_u16 c in
  if negb (version =? VERSION) then Err BAD_VERSION else
  let? '(book_id, c) := c_fixed16 c in
  let? '(seg, c) := c_u64 c in
  let? '(cn, c) := c_fixed16 c in
  let? '(sn, c) := c_fixed16 c in
  let? '(dv, c) := c_u8 c in
  let? dir := ok_or (body_direction_from_wire dv) BAD_ENUM in
  let? '(ep, c) := c_u32 c in
  let? '(sq, c) := c_u64 c in
  let? '(mt, c) := c_u16 c in
  let? '(label, c) := c_take (Z.to_nat CONFIRM_LABEL_LEN) c in
  let? _ := c_done c in
  Ok (MkBody book_id seg cn sn dir ep sq mt label).

(** ** Payload parsers against payload encoders *)

Lemma be_bytes_1 z : be_bytes 1 z = [z2b z].
Proof. simpl. rewrite Z.div_1_r. reflexivity. Qed.

Definition len_ok (m : Message) : Prop :=
  encode_precheck m = Ok tt.

Lemma encode_precheck_tt m u : encode_precheck m = Ok u -> len_ok m.
Proof. unfold len_ok. destruct u. auto. Qed.

Lemma in_data_range_spec n :
  in_data_range n = true <-> 16 <= n <= 65552.
Proof.
  unfold in_data_range, MIN_DATA_FIELD, MAX_DATA_FIELD.
  rewrite andb_true_iff, !Z.leb_le. lia.
Qed.

Lemma app_nil_end_cat (l : list byte) : l = l ++ [].
Proof. symmetry. apply app_nil_r. Qed.

(** Puts a parse of [encode_payload _] in the shape [c_step] consumes. *)
Ltac c_start :=
  match goal with
  | |- context [cursor_new ?l] =>
      let c := fresh "c" in
      assert (at_rest (cursor_new l) (l ++ []))
        by (rewrite app_nil_r; apply at_rest_new);
      set (c := cursor_new l) in *; clearbody c
  end; rewrite <- ?app_assoc in *; rewrite <- ?be_bytes_1 in *.

Lemma decode_confirm_encode c :
  wf_confirm c ->
  decode_confirm (encode_payload (ConfirmC2s c)) = Ok c.
Proof.
  intros (H1 & H2 & H3 & H4 & H5). unfold decode_confirm. cbn [encode_payload].
  c_start. repeat c_step. destruct c; reflexivity.
Qed.

Lemma decode_payload_encode m :
  wf_message m -> len_ok m ->
  decode_payload (msg_type m) (encode_payload m) = Ok m.
Proof.
  intros Hwf Hl. destruct m as [b n p f | n p r | p cn sn | c | c | e s d];
    cbn [msg_type decode_payload wf_message] in *.
  - destruct Hwf as (? & ? & ? & ?). unfold decode_hello.
    cbn [encode_payload]. c_start. repeat c_step. reflexivity.
  - destruct Hwf as (? & ?). unfold decode_arbitrate. cbn [encode_payload].
    pose proof (arbitrate_wire_u8 r). c_start. repeat c_step.
    rewrite arbitrate_from_wire_wire. cbn [ok_or result_bind].
    repeat c_step. unfold len_ok in Hl. simpl in Hl.
    case_match; [discriminate | reflexivity].
  - destruct Hwf as (? & ? & ?). unfold decode_issue. cbn [encode_payload].
    c_start. repeat c_step. reflexivity.
  - rewrite decode_confirm_encode by auto. reflexivity.
  - change (encode_payload (ConfirmS2c c)) with (encode_payload (ConfirmC2s c)).
    rewrite decode_confirm_encode by auto. reflexivity.
  - destruct Hwf as (? & ?). unfold len_ok in Hl. simpl in Hl.
    destruct (in_data_range _) eqn:Er in Hl; [|discriminate].
    pose proof (proj1 (in_data_range_spec _) Er).
    unfold decode_data. cbn [encode_payload].
    c_start. repeat c_step. rewrite Er. cbn [negb]. repeat c_step. reflexivity.
Qed.

Lemma decode_confirm_ok p c :
  decode_confirm p = Ok c ->
  wf_confirm c /\ p = encode_payload (ConfirmC2s c).
Proof.
  unfold decode_confirm. intros H. pose proof (at_rest_new p).
  c_open. injection H as <-. repeat c_back. rewrite app_nil_r.
  split; [|reflexivity]. unfold wf_confirm; simpl. repeat split; ulia || auto.
Qed.

Lemma fix16 (l : list byte) : length l = 16%nat -> fixed 16 l.
Proof. auto. Qed.

(** A payload parses only if it is the encoding of what it parses to. *)
Lemma decode_payload_ok t p m :
  decode_payload t p = Ok m ->
  msg_type m = t /\ wf_message m /\ len_ok m /\ p = encode_payload m.
Proof.
  destruct t; cbn [decode_payload]; intros H; pose proof (at_rest_new p).
  - unfold decode_hello in H. c_open. injection H as <-. repeat c_back.
    rewrite app_nil_r. simpl. repeat split; ulia || auto.
  - unfold decode_arbitrate in H. c_open.
    destruct (arbitrate_from_wire _) eqn:Ew in Hc2; [|discriminate].
    injection Hc2 as <-. apply arbitrate_from_wire_some in Ew. subst.
    case_match; [discriminate|]. injection H as <-. repeat c_back.
    rewrite be_bytes_1. unfold len_ok. simpl.
    match goal with H : _ && _ = false |- _ => rewrite H end.
    repeat split; ulia || auto.
  - unfold decode_issue in H. c_open. injection H as <-. repeat c_back.
    rewrite app_nil_r. simpl. repeat split; ulia || auto.
  - destruct (decode_confirm p) eqn:E; [|discriminate]. injection H as <-.
    apply decode_confirm_ok in E as [? ->]. split_and!; [done..].
  - destruct (decode_confirm p) eqn:E; [|discriminate]. injection H as <-.
    apply decode_confirm_ok in E as [? ->]. split_and!; [done..].
  - unfold decode_data in H. c_open. case_match_in H; [discriminate|].
    c_open. injection H as <-. apply negb_false_iff in E.
    pose proof (proj1 (in_data_range_spec _) E).
    repeat c_back. rewrite app_nil_r. unfold len_ok. simpl.
    match goal with H : length _ = Z.to_nat ?x |- _ =>
      assert (Z.of_nat (length l) = x) as -> by lia end.
    rewrite E. repeat split; ulia || auto.
Qed.

(** ** The frame header *)

Definition frame_of (v t n : Z) (p : list byte) : list byte :=
  u16_be v ++ u16_be t ++ u32_be n ++ p.

Definition is_u16_pair (v t n : Z) : Prop := is_u16 v /\ is_u16 t /\ is_u32 n.

Lemma length_frame_of v t n p :
  Z.of_nat (length (frame_of v t n p)) = 8 + Z.of_nat (length p).
Proof. unfold frame_of. wire_len. Qed.

Lemma frame_split buf :
  8 <= Z.of_nat (length buf) ->
  exists v t n p, buf = frame_of v t n p /\ is_u16_pair v t n.
Proof.
  intros H.
  destruct (take_drop_split 2 buf) as (a & b & -> & Ha & _ & _); [lia|].
  rewrite length_app in H.
  destruct (take_drop_split 2 b) as (c & d & -> & Hc & _ & _); [lia|].
  rewrite length_app in H.
  destruct (take_drop_split 4 d) as (e & p & -> & He & _ & _); [lia|].
  exists (be_val a), (be_val c), (be_val e), p.
  unfold frame_of, is_u16_pair. rewrite !be_bytes_be_val by auto.
  auto with wire.
Qed.

(** What [decode] computes once the header has been read. *)
Definition decode_parts (role : Role) (v t n : Z) (p : list byte) :
  result Message ErrorCode :=
  if negb (v =? VERSION) then Err BAD_VERSION else
  match msg_type_from_wire t with
  | None => Err UNKNOWN_MSG_TYPE
  | Some mt =>
      if negb (plen_ok mt n) then Err BAD_LENGTH else
      match Z.of_nat (length p) ?= n with
      | Lt => Err FRAME_TRUNCATED
      | Gt => Err TRAILING_BYTES
      | Eq => if direction_rejected mt role then Err WRONG_DIRECTION
              else decode_payload mt p
      end
  end.

Lemma slice_8 v t n p :
  slice 8 (8 + length p) (frame_of v t n p) = p.
Proof.
  unfold slice. replace (8 + length p - 8)%nat with (length p) by lia.
  change (drop 8 (frame_of v t n p)) with p. apply firstn_all.
Qed.

Lemma decode_split role v t n p :
  is_u16_pair v t n ->
  decode role (frame_of v t n p) = decode_parts role v t n p.
Proof.
  intros (Hv & Ht & Hn). unfold decode, decode_parts.
  rewrite length_frame_of.
  destruct (Z.ltb_spec (8 + Z.of_nat (length p)) FRAME_HEADER_LEN) as [H|_];
    [unfold FRAME_HEADER_LEN in H; lia|].
  change (be_val [at_ 0 _; at_ 1 _]) with (be_val (u16_be v)).
  change (be_val [at_ 2 _; at_ 3 _]) with (be_val (u16_be t)).
  change (be_val [at_ 4 _; at_ 5 _; at_ 6 _; at_ 7 _])
    with (be_val (u32_be n)).
  rewrite !u16_be_val, u32_be_val by auto.
  destruct (negb (v =? VERSION)); [auto|].
  destruct (msg_type_from_wire t); [|auto].
  destruct (negb (plen_ok m n)); [auto|].
  assert (checked_add_u64 FRAME_HEADER_LEN n = Some (8 + n)) as ->
    by (apply checked_add_u64_some; unfold FRAME_HEADER_LEN; ulia).
  destruct (Z.compare_spec (Z.of_nat (length p)) n) as [<-|H|H].
  - rewrite Z.compare_refl.
    change (Z.to_nat FRAME_HEADER_LEN) with 8%nat.
    rewrite Z2Nat.inj_add, Nat2Z.id by lia.
    change (Z.to_nat 8) with 8%nat. rewrite slice_8. reflexivity.
  - destruct (Z.compare_spec (8 + Z.of_nat (length p)) (8 + n)); (auto || lia).
  - destruct (Z.compare_spec (8 + Z.of_nat (length p)) (8 + n)); (auto || lia).
Qed.

Lemma length_encode_payload m :
  wf_message m -> Z.of_nat (length (encode_payload m)) = payload_len_of m.
Proof.
  destruct m; cbn [wf_message encode_payload payload_len_of];
    unfold wf_confirm, fixed; intros; destruct_and?; simpl;
    repeat rewrite ?length_app, ?length_be_bytes; simpl; 
    repeat match goal with H : length ?l = _ |- _ =>
      rewrite H; clear H end; try reflexivity; lia.
Qed.

Lemma payload_len_ok m :
  wf_message m -> len_ok m -> plen_ok (msg_type m) (payload_len_of m) = true.
Proof.
  unfold len_ok. destruct m; try reflexivity. cbn.
  destruct (in_data_range _) eqn:E; [|discriminate]. intros _.
  apply in_data_range_spec in E. unfold plen_ok. cbn [payload_len_range].
  unfold MIN_FRAME_PAYLOAD, MAX_FRAME_PAYLOAD.
  rewrite andb_true_iff, !Z.leb_le. lia.
Qed.

Lemma payload_len_max m :
  len_ok m -> 0 <= payload_len_of m <= MAX_FRAME_PAYLOAD.
Proof.
  unfold len_ok, MAX_FRAME_PAYLOAD.
  destruct m; try (intros _; split; vm_compute; discriminate).
  cbn [payload_len_of encode_precheck]. destruct (in_data_range _) eqn:E; [|discriminate]. intros _.
  apply in_data_range_spec in E. lia.
Qed.

Lemma encode_ok m buf :
  encode m = Ok buf <->
  len_ok m /\
  buf = frame_of VERSION (msg_type_wire (msg_type m)) (payload_len_of m)
          (encode_payload m).
Proof.
  unfold encode, encode_into, len_ok.
  destruct (encode_precheck m) as [[]|] eqn:E; cbn [result_bind].
  - unfold frame_of. rewrite <- !app_assoc. cbn [app].
    split; [intros [= <-]; auto | intros [_ ->]; auto].
  - split; [discriminate | intros [? _]; discriminate].
Qed.

Lemma frame_header_ranges m :
  len_ok m ->
  is_u16_pair VERSION (msg_type_wire (msg_type m)) (payload_len_of m).
Proof.
  intros H. apply payload_len_max in H. unfold MAX_FRAME_PAYLOAD in H.
  split_and!; [split; vm_compute; congruence | auto with wire|].
  ulia.
Qed.

Lemma frame_of_inj v t n p v' t' n' p' :
  is_u16_pair v t n -> is_u16_pair v' t' n' ->
  frame_of v t n p = frame_of v' t' n' p' ->
  v = v' /\ t = t' /\ n = n' /\ p = p'.
Proof.
  intros (? & ? & ?) (? & ? & ?) Hf. unfold frame_of in Hf.
  apply app_inj_length in Hf as [E1 Hf]; [|wire_len].
  apply app_inj_length in Hf as [E2 Hf]; [|wire_len].
  apply app_inj_length in Hf as [E3 Hf]; [|wire_len].
  apply be_bytes_inj in E1, E2, E3; auto; ulia.
Qed.

Lemma decode_parts_ok role v t n p m :
  decode_parts role v t n p = Ok m ->
  v = VERSION /\ t = msg_type_wire (msg_type m) /\ n = payload_len_of m /\
  wf_message m /\ len_ok m /\ p = encode_payload m /\
  direction_rejected (msg_type m) role = false.
Proof.
  unfold decode_parts. intros H.
  destruct (negb (v =? VERSION)) eqn:Ev; [discriminate|].
  apply negb_false_iff, Z.eqb_eq in Ev.
  destruct (msg_type_from_wire t) as [mt|] eqn:Et; [|discriminate].
  apply msg_type_from_wire_some in Et.
  destruct (negb (plen_ok mt n)); [discriminate|].
  destruct (Z.compare_spec (Z.of_nat (length p)) n) as [En| |];
    [|discriminate..].
  destruct (direction_rejected mt role) eqn:Ed; [discriminate|].
  apply decode_payload_ok in H as (<- & Hwf & Hl & ->).
  rewrite length_encode_payload in En by auto. auto 10.
Qed.

(** ** Reject codes *)

Lemma c_uint_err n c e :
  (let? '(b, c1) := c_take n c in Ok (be_val b, c1)) = Err e ->
  e = BAD_LENGTH.
Proof.
  intros H. apply result_bind_err in H as [H|([b c1] & _ & H)];
    [eapply c_take_err, H | discriminate].
Qed.

Lemma c_done_err c e : c_done c = Err e -> e = TRAILING_BYTES.
Proof. unfold c_done. case_match; congruence. Qed.

(** Every reject of a payload parser is one of its three codes. *)
Definition payload_code (e : ErrorCode) : Prop :=
  e = BAD_LENGTH \/ e = TRAILING_BYTES \/ e = BAD_ENUM.

(** Opens a chain of [let?] that failed, link by link. *)
Ltac c_fail :=
  unfold payload_code;
  repeat match goal with
  | H : result_bind _ _ = Err _ |- _ =>
      apply result_bind_err in H; destruct H as [H|([? ?] & _ & H)]
  | H : result_bind (c_done _) _ = Err _ |- _ =>
      apply result_bind_err in H; destruct H as [H|(? & _ & H)]
  | H : result_bind (ok_or _ _) _ = Err _ |- _ =>
      apply result_bind_err in H; destruct H as [H|(? & _ & H)]
  | H : c_done _ = Err _ |- _ => apply c_done_err in H; tauto
  | H : c_take _ _ = Err _ |- _ => apply c_take_err in H; tauto
  | H : c_fixed16 _ = Err _ |- _ => apply c_take_err in H; tauto
  | H : _ _ = Err _ |- _ => apply c_uint_err in H; tauto
  | H : ok_or ?o _ = Err _ |- _ => destruct o; cbn [ok_or] in H; [discriminate H|]
  | H : Err _ = Err _ |- _ => injection H as <-; tauto
  | H : Ok _ = Err _ |- _ => discriminate H
  | H : (if ?b then _ else _) = Err _ |- _ => destruct b eqn:?
  end.

Lemma decode_confirm_err p e : decode_confirm p = Err e -> payload_code e.
Proof. unfold decode_confirm. intros H. c_fail. Qed.

Lemma decode_payload_err t p e :
  decode_payload t p = Err e -> payload_code e.
Proof.
  destruct t; cbn [decode_payload]; intros H;
    [unfold decode_hello in H; c_fail
    | unfold decode_arbitrate in H; c_fail
    | unfold decode_issue in H; c_fail
    | | | unfold decode_data in H; c_fail];
    destruct (decode_confirm p) eqn:E; cbn [result_map] in H;
    try discriminate H; injection H as <-; eapply decode_confirm_err, E.
Qed.

(** ** Decoding and encoding are inverse *)

Lemma decode_sound role buf m :
  decode role buf = Ok m ->
  wf_message m /\ encode m = Ok buf /\
  direction_rejected (msg_type m) role = false.
Proof.
  intros H. destruct (Z_lt_ge_dec (Z.of_nat (length buf)) 8) as [Hs|Hs].
  - unfold decode in H. apply Z.ltb_lt in Hs.
    change FRAME_HEADER_LEN with 8 in H. rewrite Hs in H. discriminate.
  - destruct (frame_split buf) as (v & t & n & p & -> & Hr); [lia|].
    rewrite decode_split in H by auto.
    apply decode_parts_ok in H as (-> & -> & -> & Hwf & Hl & -> & Hd).
    rewrite encode_ok. auto.
Qed.

Lemma decode_complete role buf m :
  wf_message m -> encode m = Ok buf ->
  direction_rejected (msg_type m) role = false -> decode role buf = Ok m.
Proof.
  intros Hwf He Hd. apply encode_ok in He as [Hl ->].
  rewrite decode_split by (apply frame_header_ranges; auto).
  unfold decode_parts. rewrite Z.eqb_refl. cbn [negb].
  rewrite msg_type_from_wire_wire, payload_len_ok by auto. cbn [negb].
  rewrite length_encode_payload, Z.compare_refl, Hd by auto.
  apply decode_payload_encode; auto.
Qed.

Lemma decode_body_sound buf b :
  decode_confirm_body buf = Ok b ->
  wf_body b /\ encode_confirm_body b = Ok buf.
Proof.
  unfold decode_confirm_body, encode_confirm_body. intros H. case_match_in H; [discriminate|]. pose proof (at_rest_new buf).
  c_open. case_match_in H; [discriminate|]. c_open.
  destruct (body_direction_from_wire _) eqn:Ed in Hc5; [|discriminate].
  injection Hc5 as <-. apply body_direction_from_wire_some in Ed. subst.
  c_open. injection H as <-.
  apply negb_false_iff, Z.eqb_eq in E0. subst. clear E. repeat c_back.
  rewrite be_bytes_1, app_nil_r. simpl. unfold wf_body. simpl.
  repeat split; ulia || auto.
Qed.

Lemma decode_body_complete buf b :
  wf_body b -> encode_confirm_body b = Ok buf ->
  decode_confirm_body buf = Ok b.
Proof.
  unfold decode_confirm_body, encode_confirm_body.
  intros (? & ? & ? & ? & ? & ? & ? & ?) He. apply ok_inj in He as <-.
  pose proof (body_direction_wire_u8 (cb_direction b)).
  match goal with |- context [length ?l] =>
    assert (Z.of_nat (length l) = CONFIRM_BODY_LEN) as Hlen end.
  { unfold fixed, CONFIRM_BODY_LEN in *. wire_len. }
  rewrite Hlen, Z.eqb_refl. cbn [negb]. clear Hlen.
  c_start. assert (is_u16 VERSION) by (cbv; intuition congruence).
  repeat c_step. rewrite Z.eqb_refl. cbn [negb]. repeat c_step.
  rewrite body_direction_from_wire_wire. cbn [ok_or result_bind].
  repeat c_step. destruct b; reflexivity.
Qed.

(** ** Properties *)

(** C35: decoding is exactly the inverse of encoding.  A byte string decodes
    to [m] at a role if and only if [m] is well formed, the string is its one
    canonical encoding, and the role is a legal receiver of [m]. *)
Theorem decode_iff_encode role buf m :
  decode role buf = Ok m <->
  wf_message m /\ encode m = Ok buf /\
  direction_rejected (msg_type m) role = false.
Proof.
  split; [apply decode_sound|].
  intros (Hwf & He & Hd). apply decode_complete; auto.
Qed.

(** A rejected frame gets a code of the codec's own range 0x0301-0x0308
    and the code names the first check that fails: the header checks in their
    order for a frame that has a header, truncation for one that has none,
    and only afterwards a code of the payload parser. *)
Theorem decode_reject_order role :
  (forall buf, Z.of_nat (length buf) < 8 ->
     decode role buf = Err FRAME_TRUNCATED) /\
  (forall v t n p, is_u16 v -> is_u16 t -> is_u32 n ->
     let r := decode role (frame_of v t n p) in
     let plen := Z.of_nat (length p) in
     (v <> VERSION -> r = Err BAD_VERSION) /\
     (v = VERSION -> msg_type_from_wire t = None ->
        r = Err UNKNOWN_MSG_TYPE) /\
     (forall mt, v = VERSION -> msg_type_from_wire t = Some mt ->
        (plen_ok mt n = false -> r = Err BAD_LENGTH) /\
        (plen_ok mt n = true ->
           (plen < n -> r = Err FRAME_TRUNCATED) /\
           (n < plen -> r = Err TRAILING_BYTES) /\
           (plen = n -> direction_rejected mt role = true ->
              r = Err WRONG_DIRECTION) /\
           (plen = n -> direction_rejected mt role = false ->
              r = decode_payload mt p)))) /\
  (forall buf e, decode role buf = Err e -> is_codec_reject e = true).
Proof.
  split_and!.
  - intros buf H. unfold decode. apply Z.ltb_lt in H.
    change FRAME_HEADER_LEN with 8. rewrite H. reflexivity.
  - intros v t n p Hv Ht Hn. cbn zeta.
    rewrite decode_split by (repeat split; ulia). unfold decode_parts.
    split_and!; [intros H | intros -> H | intros mt -> H; split; intros Hp].
    + apply Z.eqb_neq in H. rewrite H. reflexivity.
    + rewrite H. reflexivity.
    + rewrite Z.eqb_refl, H, Hp. reflexivity.
    + rewrite Z.eqb_refl, H, Hp. cbn [negb].
      split_and!; [intros Hc | intros Hc | intros -> Hd | intros -> Hd];
        try (rewrite Z.compare_refl, Hd; reflexivity).
      * rewrite (proj2 (Z.compare_lt_iff _ _) Hc). reflexivity.
      * rewrite (proj2 (Z.compare_gt_iff _ _) Hc). reflexivity.
  - intros buf e H. unfold decode in H.
    repeat (case_match_in H; try (injection H as <-; reflexivity)).
    apply decode_payload_err in H as [-> | [-> | ->]]; reflexivity.
Qed.

(** [encode_into] either appends the one frame of the message (an 8-byte
    header announcing exactly the payload that follows, at most [MAX_FRAME]
    bytes in all) or rejects the two non-canonical constructions and leaves
    the buffer untouched. *)
Theorem encode_into_frame m out :
  wf_message m ->
  match encode_into m out with
  | (Ok _, out') =>
      exists f, out' = out ++ f /\
        f = frame_of VERSION (msg_type_wire (msg_type m))
              (Z.of_nat (length f) - 8) (encode_payload m) /\
        Z.of_nat (length f) <= MAX_FRAME /\
        plen_ok (msg_type m) (Z.of_nat (length f) - 8) = true
  | (Err e, out') =>
      out' = out /\
      ((exists n p, m = Arbitrate n p ArBookMismatch /\ p <> 0 /\
          e = BAD_ENUM) \/
       (exists ep s d, m = Data ep s d /\ e = BAD_LENGTH /\
          ~ 16 <= Z.of_nat (length d) <= 65552))
  end.
Proof.
  intros Hwf. unfold encode_into.
  destruct (encode_precheck m) as [[]|e] eqn:E.
  - exists (frame_of VERSION (msg_type_wire (msg_type m)) (payload_len_of m)
              (encode_payload m)).
    rewrite length_frame_of, length_encode_payload by auto.
    replace (8 + payload_len_of m - 8) with (payload_len_of m) by lia.
    pose proof (payload_len_max m E) as Hm.
    unfold MAX_FRAME, MAX_FRAME_PAYLOAD in *. 
    split_and!; [|auto|lia|apply payload_len_ok; auto].
    unfold frame_of. rewrite <- !app_assoc. reflexivity.
  - split; [auto|]. destruct m; try discriminate E; simpl in E.
    + case_match_in E; [|discriminate]. injection E as <-.
      apply andb_true_iff in E0 as [Hb Hp].
      apply bool_decide_eq_true in Hb as ->.
      apply negb_true_iff, Z.eqb_neq in Hp. left. eauto 6.
    + case_match_in E; [|discriminate]. injection E as <-.
      apply negb_true_iff in E0. right. do 3 eexists. split_and!; eauto.
      rewrite <- in_data_range_spec, E0. discriminate.
Qed.

(** The 87-byte confirm body: decoding accepts exactly the encodings of
    well-formed bodies. *)
Theorem confirm_body_iff buf b :
  decode_confirm_body buf = Ok b <->
  wf_body b /\ encode_confirm_body b = Ok buf.
Proof.
  split; [apply decode_body_sound|].
  intros [Hwf He]. apply decode_body_complete; auto.
Qed.

Lemma encode_into_frame_witness :
  let m := Data 0 1 (zeros 16) in
  wf_message m /\
  exists f, encode_into m [Byte.xff] = (Ok tt, [Byte.xff] ++ f) /\
    Z.of_nat (length f) <= MAX_FRAME.
Proof.
  cbn zeta.
  assert (Hwf : wf_message (Data 0 1 (zeros 16))) by (split; ulia).
  split; [exact Hwf|].
  pose proof (encode_into_frame (Data 0 1 (zeros 16)) [Byte.xff] Hwf) as H.
  destruct (encode_into _ _) as [[u|e] o] eqn:E; [|discriminate E].
  destruct H as (f & -> & _ & Hl & _). destruct u. exists f. auto.
Defined.
