(* ===== verification/AnchorSpec.v ===== *)
(** * AnchorSpec: anchor records and the two-copy decision ([otp-anchor-spec])

    The 104-byte record [OTPA], its strict decoder, the frozen state order and
    [decide].  SHA-256 comes from a third-party crate: it is the operation of
    the class [Sha256], whose one law is the digest length. *)

From S2P Require Export Types.
From stdpp Require Import strings.

#[local] Open Scope list_scope.
#[local] Open Scope Z_scope.

Class Sha256 := {
  sha256 : list byte -> list byte;
  sha256_length : forall l, length (sha256 l) = 32%nat;
}.

Definition ANCHOR_RECORD_LEN : Z := 104.
Definition PREFIX_LEN : Z := 72.
Definition MAGIC : list byte := Eval cbv in ascii_bytes "OTPA".
Definition ANCHOR_VERSION : Z := 2.

Definition SegmentHash : Type := list byte.

Inductive AnchorPayload :=
  | PInit
  | PIntent (reserved : Z)
  | PCommit (previous_segment_hash : SegmentHash).

#[global] Instance anchor_payload_eq_dec : EqDecision AnchorPayload.
Proof. solve_decision. Defined.

Definition payload_tag (p : AnchorPayload) : Z :=
  match p with PInit => 0 | PIntent _ => 1 | PCommit _ => 2 end.

Record AnchorRecord := MkAnchor {
  ar_book_id : BookId;
  ar_next : Z;
  ar_generation : Z;
  ar_payload : AnchorPayload;
}.

#[global] Instance anchor_record_eq_dec : EqDecision AnchorRecord.
Proof. solve_decision. Defined.

Definition anchor_init (book_id : BookId) : AnchorRecord :=
  MkAnchor book_id 0 0 PInit.

(** [AnchorRecord::intent]; [None] is the panic of [reserved.next()]. *)
Definition anchor_intent (book_id : BookId) (generation reserved : Z) :
  option AnchorRecord :=
  match segment_next reserved with
  | Some next => Some (MkAnchor book_id next generation (PIntent reserved))
  | None => None
  end.

Definition anchor_commit (book_id : BookId) (generation next : Z)
  (h : SegmentHash) : AnchorRecord :=
  MkAnchor book_id next generation (PCommit h).

(** [AnchorRecord::state_cmp]: the tuple order (generation, tag). *)
Definition state_cmp (a b : AnchorRecord) : comparison :=
  match ar_generation a ?= ar_generation b with
  | Eq => payload_tag (ar_payload a) ?= payload_tag (ar_payload b)
  | c => c
  end.

Inductive AnchorCopy := CopyA | CopyB.

#[global] Instance anchor_copy_eq_dec : EqDecision AnchorCopy.
Proof. solve_decision. Defined.

Inductive ReadFailure := Corrupt | Unreadable.

Inductive AnchorSpecError :=
  | DecodeFailed (reason : string)
  | IntegrityCheckFailed.

#[global] Instance anchor_spec_error_eq_dec : EqDecision AnchorSpecError.
Proof. solve_decision. Defined.

Inductive RecoveryDecision :=
  | Consistent (r : AnchorRecord)
  | AdoptHigher (adopted : AnchorRecord) (stale : AnchorCopy)
  | QuarantineCorrupt (copy : AnchorCopy) (reason : string)
  | CannotProveSafe (reason : string)
  | BothUnreadable.

Definition payload_bytes (p : AnchorPayload) : list byte :=
  match p with
  | PInit => zeros 32
  | PIntent reserved => u64_be reserved ++ zeros 24
  | PCommit h => h
  end.

(** The first [PREFIX_LEN] bytes of the record. *)
Definition record_prefix (r : AnchorRecord) : list byte :=
  MAGIC ++ u16_be ANCHOR_VERSION ++ [z2b (payload_tag (ar_payload r))] ++
  [Byte.x00] ++ ar_book_id r ++ u64_be (ar_generation r) ++
  u64_be (ar_next r) ++ payload_bytes (ar_payload r).

(** [encode_record(record, out)]. *)
Definition encode_record `{Sha256} (r : AnchorRecord) (out : list byte) :
  list byte :=
  out ++ record_prefix r ++ sha256 (record_prefix r).

Definition decode_err {T} (reason : string) : result T AnchorSpecError :=
  Err (DecodeFailed reason).

(** The [match buf[6]] of [decode_and_verify]. *)
Definition decode_anchor_payload (buf : list byte) (generation next : Z) :
  result AnchorPayload AnchorSpecError :=
  match b2z (at_ 6 buf) with
  | 0 =>
      if negb (generation =? 0) || negb (next =? 0) ||
         negb (all_zero (slice 40 72 buf))
      then decode_err "non-canonical-init" else Ok PInit
  | 1 =>
      if (next =? 0) || negb (all_zero (slice 48 72 buf))
      then decode_err "non-canonical-intent" else
      let reserved := be_val (slice 40 48 buf) in
      if negb (bool_decide (checked_add_u64 reserved 1 = Some next))
      then decode_err "intent-index" else Ok (PIntent reserved)
  | 2 =>
      if next =? 0 then decode_err "non-canonical-commit"
      else Ok (PCommit (slice 40 72 buf))
  | _ => decode_err "record-type"
  end.

Definition decode_and_verify `{Sha256} (buf : list byte) :
  result AnchorRecord AnchorSpecError :=
  if negb (Z.of_nat (length buf) =? ANCHOR_RECORD_LEN)
  then decode_err "length" else
  if negb (bool_decide (slice 0 4 buf = MAGIC)) then decode_err "magic" else
  if negb (be_val [at_ 4 buf; at_ 5 buf] =? ANCHOR_VERSION)
  then decode_err "version" else
  if negb (b2z (at_ 7 buf) =? 0) then decode_err "flags" else
  if negb (bool_decide (sha256 (take 72 buf) = drop 72 buf))
  then Err IntegrityCheckFailed else
  let id := slice 8 24 buf in
  let generation := be_val (slice 24 32 buf) in
  let next := be_val (slice 32 40 buf) in
  let? payload := decode_anchor_payload buf generation next in
  Ok (MkAnchor id next generation payload).

(** [decide(a, b)]. *)
Definition decide_records (a b : AnchorRecord) : RecoveryDecision :=
  if negb (bool_decide (ar_book_id a = ar_book_id b))
  then CannotProveSafe "book-id-mismatch" else
  match state_cmp a b with
  | Eq => if bool_decide (a = b) then Consistent a
          else CannotProveSafe "same-order-different-bytes"
  | Gt => if ar_next b <=? ar_next a then AdoptHigher a CopyB
          else CannotProveSafe "order-contradiction"
  | Lt => if ar_next a <=? ar_next b then AdoptHigher b CopyA
          else CannotProveSafe "order-contradiction"
  end.

Definition decide_anchors (a b : result AnchorRecord ReadFailure) :
  RecoveryDecision :=
  match a, b with
  | Err Unreadable, Err Unreadable => BothUnreadable
  | Err _, Ok _ => QuarantineCorrupt CopyA "anchor-a-invalid"
  | Ok _, Err _ => QuarantineCorrupt CopyB "anchor-b-invalid"
  | Err _, Err _ => CannotProveSafe "both-anchors-invalid"
  | Ok a, Ok b => decide_records a b
  end.

(** What the fields' types guarantee, and which records are canonical. *)
Definition wf_payload (p : AnchorPayload) : Prop :=
  match p with
  | PInit => True
  | PIntent reserved => is_u64 reserved
  | PCommit h => fixed 32 h
  end.

Definition wf_record (r : AnchorRecord) : Prop :=
  wf_book_id (ar_book_id r) /\ is_u64 (ar_next r) /\
  is_u64 (ar_generation r) /\ wf_payload (ar_payload r).

Definition canonical (r : AnchorRecord) : Prop :=
  match ar_payload r with
  | PInit => ar_generation r = 0 /\ ar_next r = 0
  | PIntent reserved => ar_next r = reserved + 1
  | PCommit _ => ar_next r <> 0
  end.

(** ** The record format *)

Lemma length_payload_bytes p :
  wf_payload p -> length (payload_bytes p) = 32%nat.
Proof. destruct p; simpl; unfold fixed; intros; wire_len. Qed.

Lemma length_record_prefix r :
  wf_record r -> length (record_prefix r) = 72%nat.
Proof.
  intros (H1 & _ & _ & H4). apply length_payload_bytes in H4.
  unfold record_prefix, fixed in *. rewrite !length_app, !length_be_bytes.
  simpl. lia.
Qed.

Lemma length_zeros n : length (zeros n) = n.
Proof. apply repeat_length. Qed.

Lemma all_zero_zeros n : all_zero (zeros n) = true.
Proof. apply all_zero_spec. rewrite length_zeros. reflexivity. Qed.

Lemma payload_tag_u8 p : is_u8 (payload_tag p).
Proof. destruct p; simpl; ulia. Qed.

(** A buffer of the right length, cut at the offsets of the format. *)
Lemma record_split (buf : list byte) :
  length buf = 104%nat ->
  exists mg v0 v1 t f id g n p d,
    buf = mg ++ [v0; v1; t; f] ++ id ++ g ++ n ++ p ++ d /\
    length mg = 4%nat /\ length id = 16%nat /\ length g = 8%nat /\
    length n = 8%nat /\ length p = 32%nat /\ length d = 32%nat.
Proof.
  intros H.
  destruct (take_drop_split 4 buf) as (mg & r & -> & ? & _); [lia|].
  rewrite length_app in H. destruct r as [|v0 [|v1 [|t [|f r]]]];
    try (simpl in H; lia). simpl in H.
  destruct (take_drop_split 16 r) as (id & r1 & -> & ? & _); [lia|].
  rewrite length_app in H.
  destruct (take_drop_split 8 r1) as (g & r2 & -> & ? & _); [lia|].
  rewrite length_app in H.
  destruct (take_drop_split 8 r2) as (n & r3 & -> & ? & _); [lia|].
  rewrite length_app in H.
  destruct (take_drop_split 32 r3) as (p & d & -> & ? & _); [lia|].
  rewrite length_app in H.
  exists mg, v0, v1, t, f, id, g, n, p, d. split_and!; (reflexivity || lia).
Qed.

(** [decode_and_verify] of a buffer cut at the offsets. *)
Definition decode_fields `{Sha256} (mg : list byte) (v0 v1 t f : byte)
  (id g n p d : list byte) : result AnchorRecord AnchorSpecError :=
  if negb (bool_decide (mg = MAGIC)) then decode_err "magic" else
  if negb (be_val [v0; v1] =? ANCHOR_VERSION) then decode_err "version" else
  if negb (b2z f =? 0) then decode_err "flags" else
  if negb (bool_decide (sha256 (mg ++ [v0; v1; t; f] ++ id ++ g ++ n ++ p) = d))
  then Err IntegrityCheckFailed else
  let generation := be_val g in
  let next := be_val n in
  let? payload :=
    match b2z t with
    | 0 =>
        if negb (generation =? 0) || negb (next =? 0) || negb (all_zero p)
        then decode_err "non-canonical-init" else Ok PInit
    | 1 =>
        if (next =? 0) || negb (all_zero (drop 8 p))
        then decode_err "non-canonical-intent" else
        let reserved := be_val (take 8 p) in
        if negb (bool_decide (checked_add_u64 reserved 1 = Some next))
        then decode_err "intent-index" else Ok (PIntent reserved)
    | 2 =>
        if next =? 0 then decode_err "non-canonical-commit"
        else Ok (PCommit p)
    | _ => decode_err "record-type"
    end in
  Ok (MkAnchor id next generation payload).

Lemma decode_record_split `{Sha256} mg v0 v1 t f id g n p d :
  length mg = 4%nat -> length id = 16%nat -> length g = 8%nat ->
  length n = 8%nat -> length p = 32%nat -> length d = 32%nat ->
  decode_and_verify (mg ++ [v0; v1; t; f] ++ id ++ g ++ n ++ p ++ d) =
  decode_fields mg v0 v1 t f id g n p d.
Proof.
  intros Hm Hi Hg Hn Hp Hd.
  unfold decode_and_verify, decode_fields, decode_anchor_payload.
  assert (Hlen : length (mg ++ [v0; v1; t; f] ++ id ++ g ++ n ++ p ++ d)
                 = 104%nat) by (rewrite !length_app; simpl; lia).
  rewrite Hlen. change (negb (Z.of_nat 104 =? ANCHOR_RECORD_LEN)) with false.
  cbv iota.
  assert (Hp' : p = take 8 p ++ drop 8 p) by (symmetry; apply take_drop).
  assert (H8 : length (take 8 p) = 8%nat) by (rewrite length_take; lia).
  assert (H24 : length (drop 8 p) = 24%nat) by (rewrite length_drop; lia).
  assert (Hpre : take 72 (mg ++ [v0; v1; t; f] ++ id ++ g ++ n ++ p ++ d) =
                 mg ++ [v0; v1; t; f] ++ id ++ g ++ n ++ p).
  { replace 72%nat with
      (length (mg ++ [v0; v1; t; f] ++ id ++ g ++ n ++ p))
      by (rewrite !length_app; simpl; lia).
    rewrite !app_assoc, <- !app_assoc. rewrite !app_assoc.
    apply take_app_length. }
  assert (Hdig : drop 72 (mg ++ [v0; v1; t; f] ++ id ++ g ++ n ++ p ++ d) = d).
  { replace 72%nat with
      (length (mg ++ [v0; v1; t; f] ++ id ++ g ++ n ++ p))
      by (rewrite !length_app; simpl; lia).
    rewrite !app_assoc. apply drop_app_length. }
  rewrite Hpre, Hdig.
  assert (Hsl : slice 40 48 (mg ++ [v0; v1; t; f] ++ id ++ g ++ n ++ p ++ d)
                = take 8 p /\
                slice 48 72 (mg ++ [v0; v1; t; f] ++ id ++ g ++ n ++ p ++ d)
                = drop 8 p).
  { rewrite Hp' at 1 3. rewrite <- !app_assoc. split; slices; reflexivity. }
  destruct Hsl as [-> ->].
  destruct mg as [|m0 [|m1 [|m2 [|m3 [|]]]]]; try discriminate Hm.
  slices. reflexivity.
Qed.

Lemma be_val_2 v : is_u16 v -> be_val (u16_be v) = v.
Proof. apply u16_be_val. Qed.

Lemma length_encode `{Sha256} r : wf_record r -> length (encode_record r []) = 104%nat.
Proof.
  intros Hw. unfold encode_record.
  rewrite app_nil_l, length_app, length_record_prefix, sha256_length by exact Hw. reflexivity.
Qed.

Lemma record_shape `{Sha256} r :
  wf_record r ->
  exists p d, encode_record r [] =
    MAGIC ++ [Byte.x00; Byte.x02; z2b (payload_tag (ar_payload r)); Byte.x00]
      ++ ar_book_id r ++ u64_be (ar_generation r) ++ u64_be (ar_next r)
      ++ p ++ d /\
    p = payload_bytes (ar_payload r) /\ d = sha256 (record_prefix r) /\
    record_prefix r =
      MAGIC ++ [Byte.x00; Byte.x02; z2b (payload_tag (ar_payload r)); Byte.x00]
        ++ ar_book_id r ++ u64_be (ar_generation r) ++ u64_be (ar_next r) ++ p.
Proof.
  intros _. exists (payload_bytes (ar_payload r)), (sha256 (record_prefix r)).
  unfold encode_record. split_and!; try reflexivity.
  unfold record_prefix at 1. rewrite <- !app_assoc. reflexivity.
Qed.

Lemma decode_encode_record `{Sha256} r :
  wf_record r -> canonical r -> decode_and_verify (encode_record r []) = Ok r.
Proof.
  intros Hwf Hc. destruct (record_shape r Hwf) as (p & d & -> & Hp & Hd & Hpre).
  pose proof Hwf as (Hb & Hn & Hg & Hpl).
  pose proof (length_payload_bytes _ Hpl) as Hlp.
  rewrite decode_record_split; try (rewrite ?length_be_bytes; auto; fail);
    [| subst p; exact Hlp | subst d; apply sha256_length].
  unfold decode_fields. rewrite <- Hpre, <- Hd, !bool_decide_eq_true_2 by auto.
  change (be_val [Byte.x00; Byte.x02] =? ANCHOR_VERSION) with true.
  change (b2z Byte.x00 =? 0) with true. cbn [negb].
  rewrite !u64_be_val, b2z_z2b_small by (auto using payload_tag_u8).
  destruct r as [id nx ge pl]. unfold canonical in Hc.
  cbn [ar_payload ar_next ar_generation ar_book_id] in *.
  subst p. destruct pl as [|res|h]; cbn [payload_tag payload_bytes] in *.
  - destruct Hc as [-> ->]. cbn [Z.eqb negb orb].
    rewrite all_zero_zeros. reflexivity.
  - destruct (Z.eqb_spec nx 0) as [E|_]; [simpl in Hpl; ulia|].
    rewrite (drop_app_length' _ _ 8), (take_app_length' _ _ 8)
      by (rewrite length_be_bytes; reflexivity).
    rewrite all_zero_zeros, u64_be_val by auto. cbn [negb orb].
    assert (checked_add_u64 res 1 = Some nx) as ->
      by (apply checked_add_u64_some; split; simpl in Hpl; ulia).
    rewrite bool_decide_eq_true_2 by auto. reflexivity.
  - apply Z.eqb_neq in Hc. rewrite Hc. reflexivity.
Qed.

Lemma be_val_eq_version v0 v1 :
  be_val [v0; v1] = ANCHOR_VERSION -> [v0; v1] = [Byte.x00; Byte.x02].
Proof. intros H. apply be_val_inj; auto. Qed.

Lemma b2z_eq b z : is_u8 z -> b2z b = z -> b = z2b z.
Proof. intros _ <-. symmetry. apply z2b_b2z. Qed.

Lemma all_zero_32 (p : list byte) n :
  length p = n -> all_zero p = true -> p = zeros n.
Proof. intros <- H. apply all_zero_spec, H. Qed.

Lemma decode_ok_inv `{Sha256} buf r :
  decode_and_verify buf = Ok r ->
  wf_record r /\ canonical r /\ encode_record r [] = buf.
Proof.
  intros H0. assert (Hlen : length buf = 104%nat).
  { unfold decode_and_verify in H0. case_match_in H0; [discriminate|].
    apply negb_false_iff, Z.eqb_eq in E. unfold ANCHOR_RECORD_LEN in E. lia. }
  destruct (record_split buf Hlen)
    as (mg & v0 & v1 & t & f & id & g & n & p & d & -> & ? & ? & ? & ? & ? & ?).
  rewrite decode_record_split in H0 by auto. unfold decode_fields in H0.
  do 4 (case_match_in H0; [discriminate|]).
  apply negb_false_iff in E, E0, E1, E2.
  apply bool_decide_eq_true in E, E2. apply Z.eqb_eq in E0, E1. subst mg d.
  apply be_val_eq_version in E0. injection E0 as -> ->.
  apply (b2z_eq f 0) in E1; [|ulia]. subst f.
  apply result_bind_ok in H0 as (pl & Hpl & [= <-]).
  assert (Hs : wf_payload pl /\ canonical
      (MkAnchor id (be_val n) (be_val g) pl) /\
      t = z2b (payload_tag pl) /\ p = payload_bytes pl).
  { unfold canonical. cbn [ar_payload ar_next ar_generation].
    destruct (b2z t) as [|[[|[]|]|[[]|[]|]|]|] eqn:Et; try discriminate Hpl.
    - apply (b2z_eq t 0) in Et; [|ulia].
      case_match_in Hpl; [discriminate|]. injection Hpl as <-.
      rewrite !orb_false_iff, !negb_false_iff, !Z.eqb_eq in E.
      destruct E as [[? ?] Hz]. apply (all_zero_32 p 32) in Hz; auto. simpl. auto.
    - apply (b2z_eq t 2) in Et; [|ulia].
      case_match_in Hpl; [discriminate|]. injection Hpl as <-.
      apply Z.eqb_neq in E. simpl. auto.
    - apply (b2z_eq t 1) in Et; [|ulia].
      case_match_in Hpl; [discriminate|]. case_match_in Hpl; [discriminate|].
      injection Hpl as <-. apply orb_false_iff in E as [? Hz].
      apply negb_false_iff in E0, Hz.
      apply bool_decide_eq_true, checked_add_u64_some in E0 as [-> _].
      apply (all_zero_32 _ 24) in Hz; [|rewrite length_drop; lia].
      assert (length (take 8 p) = 8%nat) by (rewrite length_take; lia).
      cbn [wf_payload payload_tag payload_bytes]. split_and!; auto with wire.
      rewrite <- Hz, be_bytes_be_val, take_drop by auto. reflexivity. }
  destruct Hs as (Hwp & Hc & -> & ->).
  assert (wf_record (MkAnchor id (be_val n) (be_val g) pl)) as Hwf
    by (unfold wf_record, fixed;
        cbn [ar_payload ar_next ar_generation ar_book_id];
        split_and!; auto with wire).
  split_and!; [exact Hwf | exact Hc |].
  destruct (record_shape _ Hwf) as (p & d & -> & -> & -> & ->).
  cbn [ar_payload ar_next ar_generation ar_book_id].
  rewrite !be_bytes_be_val by auto. reflexivity.
Qed.

(** ** The decision *)

Definition swap_copy (c : AnchorCopy) : AnchorCopy :=
  match c with CopyA => CopyB | CopyB => CopyA end.

(** The record a decision adopts, if it adopts one. *)
Definition adopted_of (d : RecoveryDecision) : option AnchorRecord :=
  match d with
  | Consistent r | AdoptHigher r _ => Some r
  | _ => None
  end.

Definition stale_of (d : RecoveryDecision) : option AnchorCopy :=
  match d with AdoptHigher _ c => Some c | _ => None end.

Lemma state_cmp_refl a : state_cmp a a = Eq.
Proof. unfold state_cmp. rewrite !Z.compare_refl. reflexivity. Qed.

Lemma state_cmp_antisym a b : state_cmp b a = CompOpp (state_cmp a b).
Proof.
  unfold state_cmp.
  rewrite (Z.compare_antisym (ar_generation a)), (Z.compare_antisym
    (payload_tag (ar_payload a))).
  destruct (ar_generation a ?= ar_generation b); reflexivity.
Qed.

Lemma decide_records_adopts a b r :
  adopted_of (decide_records a b) = Some r ->
  (r = a \/ r = b) /\ ar_next a <= ar_next r /\ ar_next b <= ar_next r /\
  state_cmp a r <> Gt /\ state_cmp b r <> Gt /\
  ar_book_id a = ar_book_id r /\ ar_book_id b = ar_book_id r.
Proof.
  unfold decide_records.
  destruct (bool_decide (ar_book_id a = ar_book_id b)) eqn:Eb;
    cbn [negb]; [|discriminate]. apply bool_decide_eq_true in Eb.
  destruct (state_cmp a b) eqn:Ec.
  - destruct (bool_decide (a = b)) eqn:E; [|discriminate].
    apply bool_decide_eq_true in E as <-. intros [= <-].
    rewrite state_cmp_refl. split_and!; auto; (lia || discriminate).
  - destruct (Z.leb_spec (ar_next a) (ar_next b)); [|discriminate].
    intros [= <-]. rewrite state_cmp_refl, Ec.
    split_and!; auto; (lia || discriminate).
  - destruct (Z.leb_spec (ar_next b) (ar_next a)); [|discriminate].
    intros [= <-]. rewrite state_cmp_refl, state_cmp_antisym, Ec.
    split_and!; auto; (lia || discriminate).
Qed.

Lemma decide_records_consistent x y r :
  decide_records x y = Consistent r -> x = r /\ y = r.
Proof.
  unfold decide_records. repeat case_match; try discriminate.
  intros [= <-].
  match goal with H : bool_decide _ = true |- _ =>
    apply bool_decide_eq_true in H; auto end.
Qed.

Lemma decide_records_higher x y r s :
  decide_records x y = AdoptHigher r s ->
  ar_book_id x = ar_book_id y /\
  ar_next r = Z.max (ar_next x) (ar_next y) /\
  match s with
  | CopyA => r = y /\ state_cmp x y = Lt
  | CopyB => r = x /\ state_cmp x y = Gt
  end.
Proof.
  unfold decide_records.
  destruct (bool_decide (ar_book_id x = ar_book_id y)) eqn:Eb;
    cbn [negb]; [|discriminate]. apply bool_decide_eq_true in Eb.
  destruct (state_cmp x y).
  - case_match; discriminate.
  - destruct (Z.leb_spec (ar_next x) (ar_next y)); [|discriminate].
    intros [= <- <-]. split_and!; auto; lia.
  - destruct (Z.leb_spec (ar_next y) (ar_next x)); [|discriminate].
    intros [= <- <-]. split_and!; auto; lia.
Qed.

(** ** Properties *)

(** C34: the anchor record format is canonical.  A buffer is accepted with a
    record exactly when the record is well formed and canonical and the buffer
    is its one encoding, digest included: no second byte string decodes to the
    same record and nothing non-canonical is accepted. *)
Theorem anchor_decode_iff `{Sha256} buf r :
  decode_and_verify buf = Ok r <->
  wf_record r /\ canonical r /\ encode_record r [] = buf.
Proof.
  split; [apply decode_ok_inv|].
  intros (Hwf & Hc & <-). apply decode_encode_record; auto.
Qed.

(** [decide] adopts a record only when both copies are readable and of
    one book; it is then the higher of the two in the frozen order, its
    pointer is at least that of either copy, and exactly the other copy, if it
    differs, is reported stale.  Nothing else adopts anything. *)
Theorem decide_adopts ra rb r :
  adopted_of (decide_anchors ra rb) = Some r ->
  exists a b, ra = Ok a /\ rb = Ok b /\ (r = a \/ r = b) /\
    ar_book_id a = ar_book_id b /\
    ar_next r = Z.max (ar_next a) (ar_next b) /\
    state_cmp a r <> Gt /\ state_cmp b r <> Gt /\
    match stale_of (decide_anchors ra rb) with
    | None => a = b
    | Some CopyA => r = b /\ state_cmp a b = Lt
    | Some CopyB => r = a /\ state_cmp a b = Gt
    end.
Proof.
  intros H. destruct ra as [a|[]], rb as [b|[]]; try discriminate H.
  exists a, b. cbn [decide_anchors] in *.
  pose proof (decide_records_adopts a b r H) as (? & ? & ? & ? & ? & Ha & Hb).
  split_and!; auto; [congruence | destruct H0 as [-> | ->]; lia |].
  unfold decide_records in *.
  destruct (negb _); [discriminate|]. destruct (state_cmp a b) eqn:E.
  - destruct (bool_decide (a = b)) eqn:Eab; [|discriminate].
    apply bool_decide_eq_true in Eab. auto.
  - destruct (_ <=? _); [|discriminate]. injection H as ->. simpl. auto.
  - destruct (_ <=? _); [|discriminate]. injection H as ->. simpl. auto.
Qed.

Lemma decide_adopts_witness :
  let b := zeros 16 in
  let a1 := MkAnchor b 3 2 (PIntent 2) in
  let b1 := anchor_commit b 1 2 (zeros 32) in
  adopted_of (decide_anchors (Ok a1) (Ok b1)) = Some a1 /\
  exists a b, Ok (E := ReadFailure) a1 = Ok a /\
    Ok (E := ReadFailure) b1 = Ok b /\
    ar_next a1 = Z.max (ar_next a) (ar_next b).
Proof.
  cbn zeta. split; [vm_compute; reflexivity|].
  pose proof (decide_adopts
    (Ok (MkAnchor (zeros 16) 3 2 (PIntent 2)))
    (Ok (anchor_commit (zeros 16) 1 2 (zeros 32)))
    (MkAnchor (zeros 16) 3 2 (PIntent 2)) ltac:(vm_compute; reflexivity))
    as (a & b & ? & ? & _ & _ & ? & _).
  exists a, b. auto.
Defined.

(** The decision does not depend on which copy is called A: exchanging
    the copies exchanges the copy names in the answer, and keeps the adopted
    record and the reason, the copy-specific reasons of a quarantine apart. *)
Theorem decide_symmetric ra rb :
  adopted_of (decide_anchors rb ra) = adopted_of (decide_anchors ra rb) /\
  stale_of (decide_anchors rb ra) =
    option_map swap_copy (stale_of (decide_anchors ra rb)) /\
  match decide_anchors ra rb, decide_anchors rb ra with
  | CannotProveSafe s, CannotProveSafe s' => s = s'
  | QuarantineCorrupt c _, QuarantineCorrupt c' _ => c' = swap_copy c
  | BothUnreadable, BothUnreadable => True
  | Consistent _, Consistent _ | AdoptHigher _ _, AdoptHigher _ _ => True
  | _, _ => False
  end.
Proof.
  destruct ra as [a|[]], rb as [b|[]]; try (repeat split; fail).
  cbn [decide_anchors]. unfold decide_records.
  rewrite (bool_decide_ext (ar_book_id b = ar_book_id a)
    (ar_book_id a = ar_book_id b)) by (split; auto).
  destruct (bool_decide _); cbn [negb]; [|repeat split].
  rewrite (state_cmp_antisym a b). destruct (state_cmp a b); cbn [CompOpp].
  - rewrite (bool_decide_ext (b = a) (a = b)) by (split; auto).
    destruct (bool_decide (a = b)) eqn:E; [|repeat split].
    apply bool_decide_eq_true in E as ->. repeat split.
  - destruct (_ <=? _); repeat split.
  - destruct (_ <=? _); repeat split.
Qed.
