(* ===== verification/Recovery.v ===== *)
(** * Recovery: start-up recovery of the two anchors ([otp-recovery])

    [recover_with_options] over two stores that implement the [AnchorStore]
    trait: read both, decide, check the watermark and the book, repair the
    stale copy and re-read it. *)

From S2P Require Export AnchorSpec.
From stdpp Require Import strings.

#[local] Open Scope list_scope.
#[local] Open Scope Z_scope.

(** The trait [AnchorStore]; a [&mut self] method returns the new store. *)
Class AnchorStore (S : Type) := {
  store_error : Type;
  store_read_verified : S -> S * result AnchorRecord store_error;
  store_write_full_and_sync :
    S -> AnchorRecord -> S * result unit store_error;
  store_sync_parent_if_created : S -> S * result unit store_error;
}.

Inductive RecoveryWarning :=
  | StaleCopyRepaired (copy : AnchorCopy)
  | CorruptCopyQuarantined (copy : AnchorCopy)
  | DualRollbackUndetectable.

Record RecoveryReport := MkReport {
  rr_adopted : AnchorRecord;
  rr_repaired : option AnchorCopy;
  rr_quarantined : list AnchorCopy;
  rr_warnings : list RecoveryWarning;
}.

Inductive RecoveryError :=
  | ReBothUnreadable
  | ReCannotProveSafe (reason : string)
  | ReStore
  | ReQuarantined (copy : option AnchorCopy) (reason : string)
  | ReRollbackBlocked.

#[global] Instance recovery_error_eq_dec : EqDecision RecoveryError.
Proof. solve_decision. Defined.

(** One arm of the [match stale_copy]: write, sync the parent, re-read and
    compare; every failure is [RecoveryError::Store]. *)
Definition repair_store {S} `{AnchorStore S} (s : S) (adopted : AnchorRecord) :
  S * result unit RecoveryError :=
  match store_write_full_and_sync s adopted with
  | (s, Err _) => (s, Err ReStore)
  | (s, Ok _) =>
      match store_sync_parent_if_created s with
      | (s, Err _) => (s, Err ReStore)
      | (s, Ok _) =>
          match store_read_verified s with
          | (s, Err _) => (s, Err ReStore)
          | (s, Ok r) =>
              if bool_decide (r = adopted) then (s, Ok tt) else (s, Err ReStore)
          end
      end
  end.

(** The [match decision] of the source: what to adopt and which copy is
    stale. *)
Definition choose (decision : RecoveryDecision) :
  result (AnchorRecord * option AnchorCopy) RecoveryError :=
  match decision with
  | Consistent record => Ok (record, None)
  | AdoptHigher adopted stale => Ok (adopted, Some stale)
  | QuarantineCorrupt copy reason => Err (ReQuarantined (Some copy) reason)
  | BothUnreadable => Err (ReQuarantined None "both-anchors-unreadable")
  | CannotProveSafe reason => Err (ReQuarantined None reason)
  end.

Section Recover.
Context {A B : Type} `{AnchorStore A} `{AnchorStore B}.

Definition recover_with_options (a : A) (b : B) (watermark : option Z)
  (verify_commit : AnchorRecord -> bool) :
  A * B * result RecoveryReport RecoveryError :=
  let '(a, ra) := store_read_verified a in
  let '(b, rb) := store_read_verified b in
  let decision :=
    decide_anchors (map_err (fun _ => Corrupt) ra)
                   (map_err (fun _ => Corrupt) rb) in
  match choose decision with
  | Err e => (a, b, Err e)
  | Ok (adopted, stale) =>
      let below :=
        match watermark with
        | Some floor => ar_generation adopted <? floor
        | None => false
        end in
      if below then (a, b, Err ReRollbackBlocked) else
      let is_commit :=
        match ar_payload adopted with PCommit _ => true | _ => false end in
      if is_commit && negb (verify_commit adopted)
      then (a, b, Err (ReQuarantined None "book-anchor-mismatch")) else
      let report repaired warnings :=
        MkReport adopted repaired [] warnings in
      match stale with
      | None => (a, b, Ok (report None [DualRollbackUndetectable]))
      | Some CopyA =>
          let '(a, r) := repair_store a adopted in
          (a, b,
           let? _ := r in
           Ok (report (Some CopyA)
                 [DualRollbackUndetectable; StaleCopyRepaired CopyA]))
      | Some CopyB =>
          let '(b, r) := repair_store b adopted in
          (a, b,
           let? _ := r in
           Ok (report (Some CopyB)
                 [DualRollbackUndetectable; StaleCopyRepaired CopyB]))
      end
  end.

(** [recover]: no watermark, no book access. *)
Definition recover (a : A) (b : B) :=
  recover_with_options a b None (fun _ => true).

End Recover.

(** What a completed repair has done to the store. *)
Definition repaired_store {S} `{AnchorStore S} (s s' : S) (r : AnchorRecord) :
  Prop :=
  exists s1 s2 u1 u2, store_write_full_and_sync s r = (s1, Ok u1) /\
    store_sync_parent_if_created s1 = (s2, Ok u2) /\
    store_read_verified s2 = (s', Ok r).

Lemma repair_store_ok {S} `{AnchorStore S} (s s' : S) r u :
  repair_store s r = (s', Ok u) -> repaired_store s s' r.
Proof.
  unfold repair_store, repaired_store. intros E.
  destruct (store_write_full_and_sync s r) as [s1 [u1|]] eqn:E1;
    [|discriminate].
  destruct (store_sync_parent_if_created s1) as [s2 [u2|]] eqn:E2;
    [|discriminate].
  destruct (store_read_verified s2) as [s3 [r3|]] eqn:E3; [|discriminate].
  case_match_in E; [|discriminate]. injection E as <- _.
  apply bool_decide_eq_true in E0 as ->. eauto 10.
Qed.

Lemma repair_store_err {S} `{AnchorStore S} (s s' : S) r e :
  repair_store s r = (s', Err e) -> e = ReStore.
Proof.
  unfold repair_store. intros E.
  repeat (case_match_in E; try congruence).
Qed.

Lemma choose_ok {E F} (ra : result AnchorRecord E)
  (rb : result AnchorRecord F) r stale :
  choose (decide_anchors (map_err (fun _ => Corrupt) ra)
                         (map_err (fun _ => Corrupt) rb)) = Ok (r, stale) ->
  exists x y, ra = Ok x /\ rb = Ok y /\
    ar_next r = Z.max (ar_next x) (ar_next y) /\
    match stale with
    | None => x = r /\ y = r
    | Some CopyA => r = y /\ state_cmp x y = Lt
    | Some CopyB => r = x /\ state_cmp x y = Gt
    end.
Proof.
  destruct ra as [x|], rb as [y|]; try discriminate.
  cbn [map_err decide_anchors]. intros H. exists x, y.
  destruct (decide_records x y) eqn:Ed; try discriminate H;
    injection H as <- <-.
  - apply decide_records_consistent in Ed as [<- <-].
    split_and!; auto. lia.
  - apply decide_records_higher in Ed as (_ & ? & ?). auto.
Qed.

Section Properties.
Context {A B : Type} `{AnchorStore A} `{AnchorStore B}.

(** A successful recovery adopts the record whose pointer is the larger of
    the two that were read, never below the watermark and, for a COMMIT, only
    after the book check accepted it; a store is written only if it held the
    lower record, it then reads back the adopted one, and the other store is
    left as reading left it. *)
Theorem recover_ok (a a' : A) (b b' : B) wm vc rep :
  recover_with_options a b wm vc = (a', b', Ok rep) ->
  exists a1 b1 ra rb,
    store_read_verified a = (a1, Ok ra) /\
    store_read_verified b = (b1, Ok rb) /\
    (rr_adopted rep = ra \/ rr_adopted rep = rb) /\
    ar_next (rr_adopted rep) = Z.max (ar_next ra) (ar_next rb) /\
    (forall floor, wm = Some floor ->
       floor <= ar_generation (rr_adopted rep)) /\
    (forall h, ar_payload (rr_adopted rep) = PCommit h ->
       vc (rr_adopted rep) = true) /\
    rr_quarantined rep = [] /\
    match rr_repaired rep with
    | None => ra = rb /\ a' = a1 /\ b' = b1
    | Some CopyA =>
        repaired_store a1 a' (rr_adopted rep) /\ b' = b1 /\
        rr_adopted rep = rb /\ state_cmp ra rb = Lt
    | Some CopyB =>
        repaired_store b1 b' (rr_adopted rep) /\ a' = a1 /\
        rr_adopted rep = ra /\ state_cmp ra rb = Gt
    end.
Proof.
  unfold recover_with_options. intros Hrun.
  destruct (store_read_verified a) as [a1 ra] eqn:Ea.
  destruct (store_read_verified b) as [b1 rb] eqn:Eb.
  destruct (choose _) as [[r stale]|] eqn:Ec; [|discriminate Hrun].
  apply choose_ok in Ec as (x & y & -> & -> & Hmax & Hst).
  exists a1, b1, x, y.
  match type of Hrun with (if ?c then _ else _) = _ => destruct c eqn:Ewm end;
    [discriminate Hrun|].
  match type of Hrun with (if ?c then _ else _) = _ => destruct c eqn:Evc end;
    [discriminate Hrun|].
  assert (Hwm : forall floor, wm = Some floor -> floor <= ar_generation r)
    by (intros fl ->; apply Z.ltb_ge in Ewm; exact Ewm).
  assert (Hvc : forall h, ar_payload r = PCommit h -> vc r = true)
    by (intros h Hh; rewrite Hh in Evc; simpl in Evc; destruct (vc r);
        [reflexivity | discriminate]).
  destruct stale as [[]|].
  - destruct (repair_store a1 r) as [a2 [u|]] eqn:Er; [|discriminate Hrun].
    apply repair_store_ok in Er. injection Hrun as <- <- <-. simpl.
    destruct Hst as [-> ?]. split_and!; auto.
  - destruct (repair_store b1 r) as [b2 [u|]] eqn:Er; [|discriminate Hrun].
    apply repair_store_ok in Er. injection Hrun as <- <- <-. simpl.
    destruct Hst as [-> ?]. split_and!; auto.
  - injection Hrun as <- <- <-. simpl. destruct Hst as [-> ->].
    split_and!; auto.
Qed.

(** Recovery fails closed.  Every error but a failing repair leaves both
    stores exactly as reading them left them (nothing is written), and a
    failing repair touches only the copy that held the lower record. *)
Theorem recover_err (a a' : A) (b b' : B) wm vc e :
  recover_with_options a b wm vc = (a', b', Err e) ->
  let a1 := fst (store_read_verified a) in
  let b1 := fst (store_read_verified b) in
  (a' = a1 /\ b' = b1 /\ e <> ReStore) \/
  (e = ReStore /\
   exists ra rb, snd (store_read_verified a) = Ok ra /\
     snd (store_read_verified b) = Ok rb /\
     ((state_cmp ra rb = Lt /\ b' = b1 /\
         repair_store a1 rb = (a', Err ReStore)) \/
      (state_cmp ra rb = Gt /\ a' = a1 /\
         repair_store b1 ra = (b', Err ReStore)))).
Proof.
  unfold recover_with_options. intros Hrun. cbn zeta.
  destruct (store_read_verified a) as [a1 ra] eqn:Ea.
  destruct (store_read_verified b) as [b1 rb] eqn:Eb. cbn [fst snd].
  destruct (choose _) as [[r stale]|] eqn:Ec.
  2:{ injection Hrun as <- <- <-. left. split_and!; auto.
      unfold choose in Ec. intros ->. repeat case_match; discriminate. }
  apply choose_ok in Ec as (x & y & -> & -> & _ & Hst).
  match type of Hrun with (if ?c then _ else _) = _ => destruct c end;
    [injection Hrun as <- <- <-; left; auto|].
  match type of Hrun with (if ?c then _ else _) = _ => destruct c end;
    [injection Hrun as <- <- <-; left; split_and!; auto; discriminate|].
  destruct stale as [[]|]; [| |discriminate Hrun].
  - destruct (repair_store a1 r) as [a2 [u|e2]] eqn:Er; [discriminate Hrun|].
    pose proof (repair_store_err _ _ _ _ Er) as ->.
    injection Hrun as <- <- <-. destruct Hst as [-> ?]. right. eauto 10.
  - destruct (repair_store b1 r) as [b2 [u|e2]] eqn:Er; [discriminate Hrun|].
    pose proof (repair_store_err _ _ _ _ Er) as ->.
    injection Hrun as <- <- <-. destruct Hst as [-> ?]. right. eauto 10.
Qed.

End Properties.

(** A store in memory: what it holds, and whether writes reach it. *)
Record MemStore := MkMem { ms_record : option AnchorRecord; ms_ok : bool }.

#[export] Instance mem_store : AnchorStore MemStore := {|
  store_error := unit;
  store_read_verified s := (s, ok_or (ms_record s) tt);
  store_write_full_and_sync s r :=
    if ms_ok s then (MkMem (Some r) true, Ok tt) else (s, Err tt);
  store_sync_parent_if_created s := (s, Ok tt);
|}.

Definition demo_new : AnchorRecord := MkAnchor (zeros 16) 3 2 (PIntent 2).
Definition demo_old : AnchorRecord := anchor_commit (zeros 16) 1 2 (zeros 32).

Definition demo_report : RecoveryReport :=
  MkReport demo_new (Some CopyA) []
    [DualRollbackUndetectable; StaleCopyRepaired CopyA].

Lemma recover_ok_witness :
  let a := MkMem (Some demo_old) true in
  let b := MkMem (Some demo_new) true in
  recover_with_options a b (Some 2) (fun _ => false) =
    (b, b, Ok demo_report) /\
  ar_next (rr_adopted demo_report) = Z.max 2 3.
Proof.
  cbn zeta. split; [vm_compute; reflexivity|].
  destruct (@recover_ok MemStore MemStore mem_store mem_store
    (MkMem (Some demo_old) true)
    (MkMem (Some demo_new) true) (MkMem (Some demo_new) true)
    (MkMem (Some demo_new) true) (Some 2) (fun _ => false) demo_report
    ltac:(vm_compute; reflexivity))
    as (a1 & b1 & ra & rb & Ha & Hb & _ & Hmax & _).
  vm_compute in Ha, Hb. injection Ha as _ <-. injection Hb as _ <-.
  exact Hmax.
Defined.

Lemma recover_err_witness :
  let a := MkMem (Some demo_old) false in
  let b := MkMem (Some demo_new) false in
  recover a b = (a, b, Err ReStore) /\
  exists ra rb, ms_record a = Some ra /\ ms_record b = Some rb /\
    state_cmp ra rb = Lt.
Proof.
  cbn zeta. split; [vm_compute; reflexivity|].
  destruct (@recover_err MemStore MemStore mem_store mem_store
    (MkMem (Some demo_old) false)
    (MkMem (Some demo_old) false) (MkMem (Some demo_new) false)
    (MkMem (Some demo_new) false) None (fun _ => true) ReStore
    ltac:(vm_compute; reflexivity))
    as [(_ & _ & H)|(_ & ra & rb & Ha & Hb & [(Hc & _)|(Hc & _)])].
  - destruct (H eq_refl).
  - exists ra, rb. vm_compute in Ha, Hb. injection Ha as <-.
    injection Hb as <-. split_and!; reflexivity || exact Hc.
  - vm_compute in Ha, Hb. injection Ha as <-. injection Hb as <-.
    discriminate Hc.
Defined.
