(* ===== verification/Allocator.v ===== *)
(** * Allocator: the fail-to-waste segment allocator ([otp-book] allocator.rs)

    [TransactionCore] over a medium ([AnchorMedia]) and a book
    ([SegmentReader]), both traits of the source and classes here.  Every
    method returns the core it leaves behind, also when it fails. *)

From S2P Require Export AnchorSpec.

#[local] Open Scope list_scope.
#[local] Open Scope Z_scope.

Inductive IssueError :=
  | IeExhausted (next : Z)
  | IeLockUnavailable
  | IePersistenceUncertain
  | IeAnchorCorrupt
  | IeBookMismatch
  | IeIo
  | IeInvalidRange.

#[global] Instance issue_error_eq_dec : EqDecision IssueError.
Proof. solve_decision. Defined.

Inductive MediaError := MeIo | MePersistence | MeNoSpace | MeShortWrite.

Inductive Boundary :=
  | IntentAWriteStart | IntentAWriteComplete
  | IntentAFsyncStart | IntentAFsyncReturn
  | IntentBWriteStart | IntentBWriteComplete
  | IntentBFsyncStart | IntentBFsyncReturn
  | SegmentPread
  | FinalAWriteStart | FinalAWriteComplete
  | FinalAFsyncStart | FinalAFsyncReturn
  | FinalBWriteStart | FinalBWriteComplete
  | FinalBFsyncStart | FinalBFsyncReturn.

#[global] Instance boundary_eq_dec : EqDecision Boundary.
Proof. solve_decision. Defined.

(** The trait [AnchorMedia]. *)
Class AnchorMedia (M : Type) := {
  media_read : M -> AnchorCopy -> M * result (list byte) MediaError;
  media_write : M -> AnchorCopy -> list byte -> M * result unit MediaError;
  media_sync : M -> AnchorCopy -> M * result unit MediaError;
  media_boundary : M -> Boundary -> M * result unit MediaError;
}.

(** The trait [SegmentReader]. *)
Class SegmentReader (R : Type) := {
  segment_count : R -> Z;
  segment_read : R -> Z -> R * result (list byte) MediaError;
}.

Record CommittedSegment := MkSegment { cs_inner : list byte }.

(** [ReservedRange] with its accessors. *)
Record ReservedRange := MkRange { rg_base : Z; rg_bytes : list byte }.

Definition range_segment_count (r : ReservedRange) : Z :=
  Z.of_nat (length (rg_bytes r)) / SEGMENT_LEN.

Record Core (M R : Type) := MkCore {
  co_media : M;
  co_reader : R;
  co_book_id : BookId;
  co_current : AnchorRecord;
  co_halted : bool;
}.
Arguments MkCore {M R}.
Arguments co_media {M R}.
Arguments co_reader {M R}.
Arguments co_book_id {M R}.
Arguments co_current {M R}.
Arguments co_halted {M R}.

Definition set_media {M R} (c : Core M R) (m : M) : Core M R :=
  MkCore m (co_reader c) (co_book_id c) (co_current c) (co_halted c).
Definition set_reader {M R} (c : Core M R) (r : R) : Core M R :=
  MkCore (co_media c) r (co_book_id c) (co_current c) (co_halted c).
Definition set_current {M R} (c : Core M R) (r : AnchorRecord) : Core M R :=
  MkCore (co_media c) (co_reader c) (co_book_id c) r (co_halted c).
Definition halt {M R} (c : Core M R) : Core M R :=
  MkCore (co_media c) (co_reader c) (co_book_id c) (co_current c) true.

Section Core.
Context `{Sha256} {M R : Type} `{AnchorMedia M} `{SegmentReader R}.

(** [read_record]. *)
Definition read_record (m : M) (copy : AnchorCopy) :
  M * result AnchorRecord IssueError :=
  match media_read m copy with
  | (m, Err _) => (m, Err IeAnchorCorrupt)
  | (m, Ok bytes) =>
      (m, map_err (fun _ => IeAnchorCorrupt) (decode_and_verify bytes))
  end.

(** [persist_one]. *)
Definition persist_one (m : M) (copy : AnchorCopy) (r : AnchorRecord) :
  M * result unit MediaError :=
  let! m, u := media_write m copy (encode_record r []) in
  media_sync m copy.

(** The boundary points of [persist_pair], per copy. *)
Definition persist_points (intent : bool) :
  list (AnchorCopy * (Boundary * Boundary * Boundary * Boundary)) :=
  if intent then
    [ (CopyA, (IntentAWriteStart, IntentAWriteComplete,
               IntentAFsyncStart, IntentAFsyncReturn));
      (CopyB, (IntentBWriteStart, IntentBWriteComplete,
               IntentBFsyncStart, IntentBFsyncReturn)) ]
  else
    [ (CopyA, (FinalAWriteStart, FinalAWriteComplete,
               FinalAFsyncStart, FinalAFsyncReturn));
      (CopyB, (FinalBWriteStart, FinalBWriteComplete,
               FinalBFsyncStart, FinalBFsyncReturn)) ].

(** One iteration of the loop of [persist_pair]. *)
Definition persist_copy (m : M) (r : AnchorRecord) (copy : AnchorCopy)
  (points : Boundary * Boundary * Boundary * Boundary) :
  M * result unit MediaError :=
  let '(ws, wc, ss, sr) := points in
  let! m, u := media_boundary m ws in
  let! m, u := media_write m copy (encode_record r []) in
  let! m, u := media_boundary m wc in
  let! m, u := media_boundary m ss in
  let! m, u := media_sync m copy in
  media_boundary m sr.

Fixpoint persist_loop (m : M) (r : AnchorRecord)
  (l : list (AnchorCopy * (Boundary * Boundary * Boundary * Boundary))) :
  M * result unit MediaError :=
  match l with
  | [] => (m, Ok tt)
  | (copy, points) :: l =>
      let! m, u := persist_copy m r copy points in
      persist_loop m r l
  end.

Definition persist_pair (c : Core M R) (r : AnchorRecord) (intent : bool) :
  Core M R * result unit MediaError :=
  let '(m, res) := persist_loop (co_media c) r (persist_points intent) in
  (set_media c m, res).

(** The book check of [open] on a COMMIT: the hash of segment [next - 1]. *)
Definition verify_prior (r : R) (current : AnchorRecord) :
  R * result unit IssueError :=
  match ar_payload current with
  | PCommit previous_segment_hash =>
      match checked_sub_u64 (ar_next current) 1 with
      | None => (r, Err IeAnchorCorrupt)
      | Some prior =>
          match segment_read r prior with
          | (r, Err _) => (r, Err IeAnchorCorrupt)
          | (r, Ok body) =>
              if bool_decide (sha256 body = previous_segment_hash)
              then (r, Ok tt) else (r, Err IeAnchorCorrupt)
          end
      end
  | _ => (r, Ok tt)
  end.

(** The repair of [open]: write the stale copy and read it back. *)
Definition repair_copy (m : M) (copy : AnchorCopy) (current : AnchorRecord) :
  M * result unit IssueError :=
  match persist_one m copy current with
  | (m, Err _) => (m, Err IePersistenceUncertain)
  | (m, Ok _) =>
      let! m, repaired := read_record m copy in
      if bool_decide (repaired = current) then (m, Ok tt)
      else (m, Err IePersistenceUncertain)
  end.

(** [TransactionCore::open] from the decision on: bound, book check, repair.
    The medium and the reader are consumed by a failing call; they are
    returned here to follow the disk further. *)
Definition open_adopt (m : M) (r : R) (book_id : BookId)
  (current : AnchorRecord) (stale : option AnchorCopy) :
  M * R * result (Core M R) IssueError :=
  if segment_count r <? ar_next current
  then (m, r, Err IeAnchorCorrupt) else
  match verify_prior r current with
  | (r, Err e) => (m, r, Err e)
  | (r, Ok _) =>
      match stale with
      | None => (m, r, Ok (MkCore m r book_id current false))
      | Some copy =>
          match repair_copy m copy current with
          | (m, Err e) => (m, r, Err e)
          | (m, Ok _) => (m, r, Ok (MkCore m r book_id current false))
          end
      end
  end.

(** [TransactionCore::open]. *)
Definition core_open (m : M) (r : R) (book_id : BookId) :
  M * R * result (Core M R) IssueError :=
  match read_record m CopyA with
  | (m, Err e) => (m, r, Err e)
  | (m, Ok a) =>
  match read_record m CopyB with
  | (m, Err e) => (m, r, Err e)
  | (m, Ok b) =>
      if negb (bool_decide (ar_book_id a = book_id)) ||
         negb (bool_decide (ar_book_id b = book_id))
      then (m, r, Err IeBookMismatch) else
      match decide_anchors (Ok a) (Ok b) with
      | Consistent record => open_adopt m r book_id record None
      | AdoptHigher adopted stale => open_adopt m r book_id adopted (Some stale)
      | _ => (m, r, Err IeAnchorCorrupt)
      end
  end
  end.

(** The part of [issue] after the guards: persist INTENT, read, persist
    COMMIT. *)
Definition issue_reserved (c : Core M R) (index generation : Z)
  (intent : AnchorRecord) :
  Core M R * option (result CommittedSegment IssueError) :=
  let c := set_current c intent in
  match persist_pair c intent true with
  | (c, Err _) => (halt c, Some (Err IePersistenceUncertain))
  | (c, Ok _) =>
  match media_boundary (co_media c) SegmentPread with
  | (m, Err _) => (set_media c m, Some (Err IeIo))
  | (m, Ok _) =>
      let c := set_media c m in
      match segment_read (co_reader c) index with
      | (r, Err _) => (set_reader c r, Some (Err IeIo))
      | (r, Ok body) =>
          let c := set_reader c r in
          let hash := sha256 body in
          match segment_next index with
          | None => (c, None)
          | Some next =>
              let commit :=
                anchor_commit (co_book_id c) generation next hash in
              match persist_pair c commit false with
              | (c, Err _) => (halt c, Some (Err IePersistenceUncertain))
              | (c, Ok _) =>
                  (set_current c commit, Some (Ok (MkSegment body)))
              end
          end
      end
  end
  end.

(** [TransactionCore::issue]; [None] is a panic of [SegmentIndex::next]. *)
Definition issue (c : Core M R) :
  Core M R * option (result CommittedSegment IssueError) :=
  if co_halted c then (c, Some (Err IePersistenceUncertain)) else
  let index := ar_next (co_current c) in
  if segment_count (co_reader c) <=? index
  then (c, Some (Err (IeExhausted index))) else
  match checked_add_u64 (ar_generation (co_current c)) 1 with
  | None => (halt c, Some (Err IePersistenceUncertain))
  | Some generation =>
      match anchor_intent (co_book_id c) generation index with
      | None => (c, None)
      | Some intent => issue_reserved c index generation intent
      end
  end.

(** The loop [for i in 0..n] of [reserve_range], from segment [i] on. *)
Fixpoint read_bodies (r : R) (i : Z) (n : nat) (bytes : list byte) :
  R * result (list byte) MediaError :=
  match n with
  | O => (r, Ok bytes)
  | S n =>
      let! r, body := segment_read r i in
      read_bodies r (i + 1) n (bytes ++ body)
  end.

(** The part of [reserve_range] after the guards. *)
Definition reserve_reserved (c : Core M R) (base n generation : Z)
  (intent : AnchorRecord) :
  Core M R * option (result ReservedRange IssueError) :=
  let new_next := base + n in
  let c := set_current c intent in
  match persist_pair c intent true with
  | (c, Err _) => (halt c, Some (Err IePersistenceUncertain))
  | (c, Ok _) =>
  match media_boundary (co_media c) SegmentPread with
  | (m, Err _) => (set_media c m, Some (Err IeIo))
  | (m, Ok _) =>
      let c := set_media c m in
      match read_bodies (co_reader c) base (Z.to_nat n) [] with
      | (r, Err _) => (set_reader c r, Some (Err IeIo))
      | (r, Ok bytes) =>
          let c := set_reader c r in
          let last_off := (length bytes - Z.to_nat SEGMENT_LEN)%nat in
          let hash := sha256 (drop last_off bytes) in
          let commit :=
            anchor_commit (co_book_id c) generation new_next hash in
          match persist_pair c commit false with
          | (c, Err _) => (halt c, Some (Err IePersistenceUncertain))
          | (c, Ok _) =>
              (set_current c commit, Some (Ok (MkRange base bytes)))
          end
      end
  end
  end.

(** [TransactionCore::reserve_range].  [usize::try_from] cannot fail on the
    64-bit targets. *)
Definition reserve_range (c : Core M R) (n : Z) :
  Core M R * option (result ReservedRange IssueError) :=
  if co_halted c then (c, Some (Err IePersistenceUncertain)) else
  if n =? 0 then (c, Some (Err IeInvalidRange)) else
  let base := ar_next (co_current c) in
  match checked_add_u64 base n with
  | None => (c, Some (Err IeInvalidRange))
  | Some new_next =>
      if segment_count (co_reader c) <? new_next
      then (c, Some (Err (IeExhausted base))) else
      match checked_add_u64 (ar_generation (co_current c)) 1 with
      | None => (halt c, Some (Err IePersistenceUncertain))
      | Some generation =>
          match anchor_intent (co_book_id c) generation (new_next - 1) with
          | None => (c, None)
          | Some intent => reserve_reserved c base n generation intent
          end
      end
  end.

End Core.

(** ** What storage promises

    [latest] is what a read returns; [possible] are the contents a crash may
    leave.  A write may add its bytes and torn mixtures that the integrity
    digest rejects; a successful sync leaves only the latest content.  [honest]
    is the luck a digest needs: no torn mixture has passed for a record so far.
    It is lost for good when it is lost, and nothing is promised without it. *)
Definition torn `{Sha256} (x : list byte) : Prop :=
  exists e, decode_and_verify x = Err e.

Class MediaSpec (M : Type) `{Sha256} `{AnchorMedia M} := {
  latest : M -> AnchorCopy -> list byte;
  possible : M -> AnchorCopy -> list byte -> Prop;
  media_crash : M -> M;
  honest : M -> Prop;
  read_law : forall m c m' r, media_read m c = (m', r) ->
    (honest m' -> honest m) /\
    (forall x, r = Ok x -> possible m c x) /\
    (forall c' x, possible m' c' x -> possible m c' x);
  write_law : forall m c bs m' r, media_write m c bs = (m', r) ->
    (honest m' -> honest m) /\
    (honest m' -> forall x, possible m' c x -> possible m c x \/ x = bs \/ torn x) /\
    (forall c' x, c' <> c -> possible m' c' x -> possible m c' x) /\
    (forall u, r = Ok u -> latest m' c = bs);
  sync_law : forall m c m' r, media_sync m c = (m', r) ->
    (honest m' -> honest m) /\
    (forall c' x, possible m' c' x -> possible m c' x) /\
    (forall u, r = Ok u -> forall x, possible m' c x -> x = latest m c);
  boundary_law : forall m p m' r, media_boundary m p = (m', r) ->
    (honest m' -> honest m) /\
    (forall c x, possible m' c x -> possible m c x) /\
    (forall c, latest m' c = latest m c);
  crash_law : forall m,
    (honest (media_crash m) -> honest m) /\
    (forall c x, possible (media_crash m) c x -> possible m c x \/ torn x);
}.

(** Opens the equation of a [let!] chain, link by link. *)
Ltac st_open H :=
  repeat match type of H with
  | match ?call with (_, _) => _ end = _ =>
      let m := fresh "m" in let r := fresh "r" in let E := fresh "E" in
      destruct call as [m r] eqn:E; destruct r
  end.

(** Every content that may survive and decodes has a pointer at least [f]. *)
Section NoReuse.
Context `{Sha256} {M R : Type} `{AnchorMedia M} `{SegmentReader R}.
Context `{!MediaSpec M}.

Definition above (f : Z) (m : M) : Prop :=
  honest m ->
  forall c x r, possible m c x -> decode_and_verify x = Ok r -> f <= ar_next r.

(** Nothing but the encoding of [r] may survive in copy [c]. *)
Definition pinned (m : M) (c : AnchorCopy) (r : AnchorRecord) : Prop :=
  honest m -> forall x, possible m c x -> x = encode_record r [].

Definition shrinks (m m' : M) : Prop :=
  (honest m' -> honest m) /\ forall c x, possible m' c x -> possible m c x.

Lemma above_shrinks f m m' : shrinks m m' -> above f m -> above f m'.
Proof. unfold shrinks, above. intros [? ?]. eauto. Qed.

Lemma above_write f m c r m' res :
  wf_record r -> canonical r -> (honest m -> f <= ar_next r) ->
  media_write m c (encode_record r []) = (m', res) ->
  above f m -> above f m'.
Proof.
  intros Hwf Hc Hf E Ha Hh c' x r' Hx Hd.
  pose proof (write_law _ _ _ _ _ E) as (Hm & Hw & Ho & _).
  destruct (decide (c' = c)) as [->|Hne]; [|eapply (Ha (Hm Hh)); eauto].
  destruct (Hw Hh x Hx) as [?|[->|[e He]]];
    [eapply (Ha (Hm Hh)); eauto| |congruence].
  rewrite decode_encode_record in Hd by auto. injection Hd as <-. auto.
Qed.

Lemma pinned_shrinks m m' c r : shrinks m m' -> pinned m c r -> pinned m' c r.
Proof. unfold shrinks, pinned. intros [? ?]. eauto. Qed.

Lemma pinned_above m r :
  wf_record r -> canonical r -> (forall c, pinned m c r) ->
  above (ar_next r) m.
Proof.
  intros Hwf Hc Hp Hh c x r' Hx Hd. apply (Hp c Hh) in Hx as ->.
  rewrite decode_encode_record in Hd by auto. injection Hd as <-. lia.
Qed.

Lemma boundary_shrinks m p m' r : media_boundary m p = (m', r) -> shrinks m m'.
Proof. intros E. destruct (boundary_law _ _ _ _ E) as (? & ? & _). split; auto. Qed.

Lemma sync_shrinks m c m' r : media_sync m c = (m', r) -> shrinks m m'.
Proof. intros E. destruct (sync_law _ _ _ _ E) as (? & ? & _). split; auto. Qed.

Lemma read_shrinks m c m' r : media_read m c = (m', r) -> shrinks m m'.
Proof. intros E. destruct (read_law _ _ _ _ E) as (? & _ & ?). split; auto. Qed.

(** One copy of [persist_pair], with the steps of the medium's contract. *)
Lemma persist_copy_spec f m r copy pts m' res :
  wf_record r -> canonical r -> (honest m -> f <= ar_next r) -> above f m ->
  persist_copy m r copy pts = (m', res) ->
  above f m' /\ (honest m' -> honest m) /\
  (forall u, res = Ok u ->
     pinned m' copy r /\
     forall c, c <> copy -> pinned m c r -> pinned m' c r).
Proof.
  intros Hwf Hc Hf Ha E. destruct pts as [[[ws wc] ss] sr].
  unfold persist_copy in E.
  destruct (media_boundary m ws) as [m1 [u1|]] eqn:E1;
    pose proof (boundary_shrinks _ _ _ _ E1) as S1;
    pose proof (above_shrinks f _ _ S1 Ha) as A1; cycle 1.
  { injection E as <- <-. split; [auto|]. split; [apply S1 | discriminate]. }
  assert (Hf1 : honest m1 -> f <= ar_next r) by (intros Hh; apply Hf, S1, Hh).
  destruct (media_write m1 copy (encode_record r [])) as [m2 [u2|]] eqn:E2;
    pose proof (above_write f _ _ _ _ _ Hwf Hc Hf1 E2 A1) as A2;
    pose proof (write_law _ _ _ _ _ E2) as (H2 & _ & O2 & L2);
    assert (H2' : honest m2 -> honest m) by (intros Hh; apply S1; auto); cycle 1.
  { injection E as <- <-. split; [auto|]. split; [auto | discriminate]. }
  destruct (media_boundary m2 wc) as [m3 [u3|]] eqn:E3;
    pose proof (boundary_shrinks _ _ _ _ E3) as S3;
    pose proof (above_shrinks f _ _ S3 A2) as A3;
    assert (H3 : honest m3 -> honest m) by (intros Hh; apply H2', S3, Hh); cycle 1.
  { injection E as <- <-. split; [auto|]. split; [auto | discriminate]. }
  destruct (media_boundary m3 ss) as [m4 [u4|]] eqn:E4;
    pose proof (boundary_shrinks _ _ _ _ E4) as S4;
    pose proof (above_shrinks f _ _ S4 A3) as A4;
    assert (H4 : honest m4 -> honest m) by (intros Hh; apply H3, S4, Hh); cycle 1.
  { injection E as <- <-. split; [auto|]. split; [auto | discriminate]. }
  destruct (media_sync m4 copy) as [m5 [u5|]] eqn:E5;
    pose proof (sync_shrinks _ _ _ _ E5) as S5;
    pose proof (above_shrinks f _ _ S5 A4) as A5;
    assert (H5 : honest m5 -> honest m) by (intros Hh; apply H4, S5, Hh); cycle 1.
  { injection E as <- <-. split; [auto|]. split; [auto | discriminate]. }
  pose proof (boundary_shrinks _ _ _ _ E) as S6.
  split; [apply (above_shrinks f _ _ S6 A5)|].
  split; [intros Hh; apply H5, S6, Hh|]. intros u ->.
  assert (Hl : latest m4 copy = encode_record r []).
  { rewrite (proj2 (proj2 (boundary_law _ _ _ _ E4))),
      (proj2 (proj2 (boundary_law _ _ _ _ E3))). eapply L2. reflexivity. }
  destruct S1, S3, S4, S5, S6. split.
  - intros _ x Hx. rewrite <- Hl. eapply (proj2 (proj2 (sync_law _ _ _ _ E5))); eauto.
  - intros c Hne Hp Hh x Hx. eapply Hp; eauto 10.
Qed.

Lemma persist_pair_spec f (c : Core M R) r intent c' res :
  wf_record r -> canonical r -> (honest (co_media c) -> f <= ar_next r) ->
  above f (co_media c) ->
  persist_pair c r intent = (c', res) ->
  exists m, c' = set_media c m /\ above f m /\ (honest m -> honest (co_media c)) /\
    (forall u, res = Ok u -> above (ar_next r) m).
Proof.
  intros Hwf Hc Hf Ha E. unfold persist_pair in E.
  destruct (persist_loop _ _ _) as [m res'] eqn:El. injection E as <- <-.
  exists m. split; [reflexivity|].
  assert (exists pa pb, persist_points intent = [(CopyA, pa); (CopyB, pb)])
    as (pa & pb & Hpts) by (destruct intent; simpl; eauto).
  rewrite Hpts in El. cbn [persist_loop] in El.
  destruct (persist_copy (co_media c) r CopyA pa) as [m1 [u1|]] eqn:E1;
    destruct (persist_copy_spec f _ _ _ _ _ _ Hwf Hc Hf Ha E1) as (A1 & M1 & P1);
    cycle 1.
  { injection El as <- <-. split; [auto|]. split; [auto | discriminate]. }
  assert (Hf1 : honest m1 -> f <= ar_next r) by auto.
  destruct (persist_copy m1 r CopyB pb) as [m2 [u2|]] eqn:E2;
    destruct (persist_copy_spec f _ _ _ _ _ _ Hwf Hc Hf1 A1 E2) as (A2 & M2 & P2);
    injection El as <- <-; (split; [auto|]); (split; [auto|]); [|discriminate].
  intros u _. destruct (P1 _ eq_refl) as [PA _].
  destruct (P2 _ eq_refl) as [PB PO].
  apply pinned_above; auto. intros []; [apply PO; [discriminate|]|]; auto.
Qed.

Definition wf_core (c : Core M R) : Prop :=
  wf_book_id (co_book_id c) /\ wf_record (co_current c).

(** What a call keeps: the floor of the medium, the record invariant, and a
    pointer in memory that never moves back. *)
Definition keeps (f : Z) (c c' : Core M R) : Prop :=
  above f (co_media c') /\ wf_core c' /\
  ar_next (co_current c) <= ar_next (co_current c') /\
  (honest (co_media c') -> honest (co_media c)).

Lemma wf_intent book gen reserved intent :
  wf_book_id book -> is_u64 gen -> is_u64 reserved ->
  anchor_intent book gen reserved = Some intent ->
  wf_record intent /\ canonical intent /\ ar_next intent = reserved + 1 /\
  ar_generation intent = gen /\ ar_book_id intent = book.
Proof.
  unfold anchor_intent. intros Hb Hg Hr H3.
  destruct (segment_next reserved) as [nx|] eqn:E; [|discriminate].
  injection H3 as <-. apply segment_next_some in E as [-> ?].
  unfold wf_record, canonical; simpl. split_and!; auto; ulia.
Qed.

Lemma wf_commit book gen next h :
  wf_book_id book -> is_u64 gen -> is_u64 next -> next <> 0 ->
  length h = 32%nat ->
  wf_record (anchor_commit book gen next h) /\
  canonical (anchor_commit book gen next h).
Proof. unfold wf_record, canonical, fixed. simpl. auto. Qed.

(** The shape [issue] and [reserve_range] share after their guards: INTENT on
    both copies, the read, COMMIT on both copies. *)
Definition transact {A S} (c : Core M R) (intent : AnchorRecord)
  (readf : R -> R * result A MediaError) (commit : A -> option AnchorRecord)
  (out : A -> S) : Core M R * option (result S IssueError) :=
  match persist_pair (set_current c intent) intent true with
  | (c, Err _) => (halt c, Some (Err IePersistenceUncertain))
  | (c, Ok _) =>
  match media_boundary (co_media c) SegmentPread with
  | (m, Err _) => (set_media c m, Some (Err IeIo))
  | (m, Ok _) =>
  match readf (co_reader c) with
  | (r, Err _) => (set_reader (set_media c m) r, Some (Err IeIo))
  | (r, Ok body) =>
  let c := set_reader (set_media c m) r in
  match commit body with
  | None => (c, None)
  | Some cr =>
  match persist_pair c cr false with
  | (c, Err _) => (halt c, Some (Err IePersistenceUncertain))
  | (c, Ok _) => (set_current c cr, Some (Ok (out body)))
  end end end end end.

Definition issue_commit (book : BookId) (index generation : Z)
  (body : list byte) : option AnchorRecord :=
  match segment_next index with
  | Some next => Some (anchor_commit book generation next (sha256 body))
  | None => None
  end.

Definition range_commit (book : BookId) (new_next generation : Z)
  (bytes : list byte) : option AnchorRecord :=
  Some (anchor_commit book generation new_next
    (sha256 (drop (length bytes - Z.to_nat SEGMENT_LEN)%nat bytes))).

Lemma persist_pair_book (c c' : Core M R) r i res :
  persist_pair c r i = (c', res) ->
  co_book_id c' = co_book_id c /\ co_reader c' = co_reader c /\
  co_current c' = co_current c /\ co_halted c' = co_halted c.
Proof.
  unfold persist_pair. destruct (persist_loop _ _ _). intros [= <- _]. auto.
Qed.

Lemma issue_reserved_transact c index generation intent :
  issue_reserved c index generation intent =
  transact c intent (fun r => segment_read r index)
    (issue_commit (co_book_id c) index generation) MkSegment.
Proof.
  unfold issue_reserved, transact, issue_commit.
  destruct (persist_pair _ intent true) as [c1 [u|]] eqn:E; [|reflexivity].
  apply persist_pair_book in E as (Hb & Hr & _). simpl in Hb, Hr.
  destruct (media_boundary _ _) as [m [u'|]]; [|reflexivity]. simpl.
  destruct (segment_read _ index) as [r [b|]]; [|reflexivity]. simpl.
  rewrite Hb. destruct (segment_next index); reflexivity.
Qed.

Lemma reserve_reserved_transact c base n generation intent :
  reserve_reserved c base n generation intent =
  transact c intent (fun r => read_bodies r base (Z.to_nat n) [])
    (range_commit (co_book_id c) (base + n) generation) (MkRange base).
Proof.
  unfold reserve_reserved, transact, range_commit.
  destruct (persist_pair _ intent true) as [c1 [u|]] eqn:E; [|reflexivity].
  apply persist_pair_book in E as (Hb & Hr & _). simpl in Hb, Hr.
  destruct (media_boundary _ _) as [m [u'|]]; [|reflexivity]. simpl.
  destruct (read_bodies _ base _ []) as [r [b|]]; [|reflexivity]. simpl.
  rewrite Hb. reflexivity.
Qed.

Lemma keeps_at f c m rd b r h :
  above f m -> (honest m -> honest (co_media c)) -> wf_book_id b -> wf_record r ->
  ar_next (co_current c) <= ar_next r -> keeps f c (MkCore m rd b r h).
Proof. unfold keeps, wf_core. simpl. auto. Qed.

(** A transaction whose INTENT and COMMIT carry one pointer [nx] keeps every
    floor below it, and raises the floor to [nx] when it succeeds. *)
Lemma transact_above {A S} f c nx intent (readf : R -> R * result A MediaError)
  commit (out : A -> S) c' res :
  wf_core c -> above f (co_media c) -> (honest (co_media c) -> f <= nx) ->
  ar_next (co_current c) <= nx ->
  wf_record intent -> canonical intent -> ar_next intent = nx ->
  (forall b cr, commit b = Some cr ->
     wf_record cr /\ canonical cr /\ ar_next cr = nx) ->
  transact c intent readf commit out = (c', res) ->
  keeps f c c' /\ ar_next (co_current c') = nx /\
  (forall s, res = Some (Ok s) ->
     above nx (co_media c') /\ exists b, s = out b).
Proof.
  intros [Hb Hrec] Ha Hf Hle Hwi Hci Hni Hcm E. unfold transact in E.
  destruct (persist_pair _ intent true) as [c1 r1] eqn:E1.
  apply (persist_pair_spec f) in E1 as (m1 & -> & A1 & M1 & _); auto;
    [|rewrite Hni; exact Hf].
  cbn [set_media set_current co_media co_reader co_book_id co_current
    co_halted] in E, M1.
  destruct r1; [|injection E as <- <-; split_and!;
    [apply keeps_at; simpl; auto; lia | auto | discriminate]].
  destruct (media_boundary m1 SegmentPread) as [m2 r2] eqn:E2.
  apply boundary_shrinks in E2. pose proof (above_shrinks f _ _ E2 A1) as A2.
  assert (M2 : honest m2 -> honest (co_media c)) by (intros Hh; apply M1, E2, Hh).
  destruct r2; [|injection E as <- <-; split_and!;
    [apply keeps_at; simpl; auto; lia | auto | discriminate]].
  destruct (readf (co_reader c)) as [rd [body|]];
    [|injection E as <- <-; split_and!;
      [apply keeps_at; simpl; auto; lia | auto | discriminate]].
  destruct (commit body) as [cr|] eqn:Ecr;
    [|injection E as <- <-; split_and!;
      [apply keeps_at; simpl; auto; lia | auto | discriminate]].
  destruct (Hcm _ _ Ecr) as (Hwc & Hcc & Hnc).
  destruct (persist_pair _ cr false) as [c4 r4] eqn:E4.
  apply (persist_pair_spec f) in E4 as (m4 & -> & A4 & M4 & P4); auto;
    [|simpl; rewrite Hnc; auto].
  simpl in M4.
  destruct r4 as [u|]; injection E as <- <-; split_and!;
    try discriminate; try (apply keeps_at; simpl; auto; lia); auto.
  intros s [= <-]. split; [rewrite <- Hnc; eapply P4; reflexivity | eauto].
Qed.

Lemma issue_commit_wf book index gen b cr :
  wf_book_id book -> is_u64 gen -> is_u64 index ->
  issue_commit book index gen b = Some cr ->
  wf_record cr /\ canonical cr /\ ar_next cr = index + 1.
Proof.
  unfold issue_commit. intros Hb Hg Hi Hs.
  destruct (segment_next index) as [nx|] eqn:E; [|discriminate].
  injection Hs as <-. apply segment_next_some in E as [-> ?].
  assert (is_u64 (index + 1) /\ index + 1 <> 0) as [? ?] by ulia.
  pose proof (wf_commit book gen (index + 1) (sha256 b) Hb Hg) as Hw.
  destruct Hw; auto using sha256_length.
Qed.

Lemma range_commit_wf book nx gen b cr :
  wf_book_id book -> is_u64 gen -> 0 < nx <= U64_MAX ->
  range_commit book nx gen b = Some cr ->
  wf_record cr /\ canonical cr /\ ar_next cr = nx.
Proof.
  unfold range_commit. intros Hb Hg Hi [= <-].
  pose proof (wf_commit book gen nx
    (sha256 (drop (length b - Z.to_nat SEGMENT_LEN)%nat b)) Hb Hg
    ltac:(ulia) ltac:(ulia) (sha256_length _)) as [? ?]. auto.
Qed.

Lemma keeps_refl f c : wf_core c -> above f (co_media c) -> keeps f c c.
Proof. unfold keeps. intros. split_and!; auto. lia. Qed.

Lemma keeps_halt f c : wf_core c -> above f (co_media c) -> keeps f c (halt c).
Proof. intros [? ?] ?. apply keeps_at; auto. lia. Qed.

Lemma issue_above f c c' res :
  wf_core c -> above f (co_media c) ->
  (honest (co_media c) -> f <= ar_next (co_current c)) ->
  issue c = (c', res) ->
  keeps f c c' /\
  (forall s, res = Some (Ok s) ->
     ar_next (co_current c') = ar_next (co_current c) + 1 /\
     above (ar_next (co_current c) + 1) (co_media c')).
Proof.
  intros Hwf Ha Hf E. pose proof Hwf as (Hb & _ & Hn & Hg & _).
  unfold issue in E.
  destruct (co_halted c);
    [injection E as <- <-; split; [apply keeps_refl; auto|discriminate]|].
  destruct (segment_count _ <=? _);
    [injection E as <- <-; split; [apply keeps_refl; auto|discriminate]|].
  destruct (checked_add_u64 _ 1) as [gen|] eqn:Eg;
    [|injection E as <- <-; split; [apply keeps_halt; auto|discriminate]].
  apply checked_add_u64_some in Eg as [-> Hmax].
  assert (Hgen : is_u64 (ar_generation (co_current c) + 1)) by ulia.
  destruct (anchor_intent _ _ _) as [intent|] eqn:Ei;
    [|injection E as <- <-; split; [apply keeps_refl; auto|discriminate]].
  pose proof (wf_intent _ _ _ _ Hb Hgen Hn Ei) as (Hwi & Hci & Hni & _ & _).
  rewrite issue_reserved_transact in E.
  eapply (transact_above f _ (ar_next (co_current c) + 1)) in E
    as (K & Hnx & Hs); auto; try lia;
    [|intros Hh; specialize (Hf Hh); lia|intros b cr Hcr; apply (issue_commit_wf _ _ _ _ _ Hb Hgen Hn Hcr)].
  split; [exact K|]. intros s Hres. destruct (Hs s Hres) as [Hab _]. auto.
Qed.

Lemma reserve_range_above f c n c' res :
  wf_core c -> above f (co_media c) ->
  (honest (co_media c) -> f <= ar_next (co_current c)) -> 0 <= n ->
  reserve_range c n = (c', res) ->
  keeps f c c' /\
  (forall s, res = Some (Ok s) -> 1 <= n /\
     rg_base s = ar_next (co_current c) /\
     ar_next (co_current c') = ar_next (co_current c) + n /\
     above (ar_next (co_current c) + n) (co_media c')).
Proof.
  intros Hwf Ha Hf Hn0 E. pose proof Hwf as (Hb & _ & Hn & Hg & _).
  unfold reserve_range in E.
  destruct (co_halted c);
    [injection E as <- <-; split; [apply keeps_refl; auto|discriminate]|].
  destruct (Z.eqb_spec n 0);
    [injection E as <- <-; split; [apply keeps_refl; auto|discriminate]|].
  destruct (checked_add_u64 _ n) as [nn|] eqn:Enn;
    [|injection E as <- <-; split; [apply keeps_refl; auto|discriminate]].
  apply checked_add_u64_some in Enn as [-> Hnmax].
  destruct (segment_count _ <? _);
    [injection E as <- <-; split; [apply keeps_refl; auto|discriminate]|].
  destruct (checked_add_u64 _ 1) as [gen|] eqn:Eg;
    [|injection E as <- <-; split; [apply keeps_halt; auto|discriminate]].
  apply checked_add_u64_some in Eg as [-> Hmax].
  assert (Hgen : is_u64 (ar_generation (co_current c) + 1)) by ulia.
  destruct (anchor_intent _ _ _) as [intent|] eqn:Ei;
    [|injection E as <- <-; split; [apply keeps_refl; auto|discriminate]].
  assert (Hlast : is_u64 (ar_next (co_current c) + n - 1)) by ulia.
  pose proof (wf_intent _ _ _ _ Hb Hgen Hlast Ei) as (Hwi & Hci & Hni & _ & _).
  rewrite reserve_reserved_transact in E.
  eapply (transact_above f _ (ar_next (co_current c) + n)) in E
    as (K & Hnx & Hs); auto; try ulia;
    [|intros Hh; specialize (Hf Hh); lia|intros b cr Hcr; apply (range_commit_wf _ _ _ _ _ Hb Hgen) in Hcr;
      [exact Hcr | ulia]].
  split; [exact K|]. intros s Hres. destruct (Hs s Hres) as [Hab [b ->]].
  simpl. split_and!; auto. lia.
Qed.

Lemma read_record_above f m copy m' r :
  above f m -> read_record m copy = (m', r) ->
  above f m' /\ (honest m' -> honest m) /\ (forall a, r = Ok a ->
    (honest m' -> f <= ar_next a) /\ wf_record a /\ canonical a).
Proof.
  intros Ha E. unfold read_record in E.
  destruct (media_read m copy) as [m1 [x|]] eqn:E1;
    pose proof (read_law _ _ _ _ E1) as (Hm & Hp & Hs);
    injection E as <- <-; (split; [eapply above_shrinks; [split; eauto|auto]|]);
    (split; [exact Hm|]); [|discriminate].
  intros a Hd. destruct (decode_and_verify x) as [r|] eqn:Ed;
    [|discriminate Hd]. injection Hd as ->.
  split; [intros Hh; eapply (Ha (Hm Hh)); eauto |
    apply decode_ok_inv in Ed as (? & ? & _); auto].
Qed.

Lemma repair_copy_above f m copy r m' res :
  wf_record r -> canonical r -> (honest m -> f <= ar_next r) -> above f m ->
  repair_copy m copy r = (m', res) -> above f m' /\ (honest m' -> honest m).
Proof.
  intros Hwf Hc Hf Ha E. unfold repair_copy, persist_one in E.
  destruct (media_write m copy _) as [m1 [u|]] eqn:E1;
    pose proof (above_write f _ _ _ _ _ Hwf Hc Hf E1 Ha) as A1;
    pose proof (proj1 (write_law _ _ _ _ _ E1)) as M1;
    [|injection E as <- _; auto].
  destruct (media_sync m1 copy) as [m2 [u2|]] eqn:E2;
    pose proof (sync_shrinks _ _ _ _ E2) as S2;
    pose proof (above_shrinks f _ _ S2 A1) as A2; destruct S2 as [M2 _];
    [|injection E as <- _; auto].
  destruct (read_record m2 copy) as [m3 [x|]] eqn:E3;
    pose proof (read_record_above f _ _ _ _ A2 E3) as (A3 & M3 & _);
    [case_match_in E|]; injection E as <- _; auto.
Qed.

Lemma open_adopt_above f m (rd : R) book cur stale m' rd' res :
  above f m -> (honest m -> f <= ar_next cur) -> wf_record cur -> canonical cur ->
  wf_book_id book ->
  open_adopt m rd book cur stale = (m', rd', res) ->
  above f m' /\ (honest m' -> honest m) /\ (forall c, res = Ok c ->
    co_media c = m' /\ wf_core c /\ (honest m' -> f <= ar_next (co_current c))).
Proof.
  intros Ha Hf Hw Hc Hb E. unfold open_adopt in E.
  assert (K : forall m0 (r : R), above f m0 -> (honest m0 -> honest m) ->
    above f m0 /\ (honest m0 -> honest m) /\
    (forall c, Ok (E := IssueError) (MkCore m0 r book cur false) = Ok c ->
     co_media c = m0 /\ wf_core c /\ (honest m0 -> f <= ar_next (co_current c)))).
  { intros m0 r0 A Hm0. split; [auto|]. split; [auto|]. intros c [= <-].
    unfold wf_core. simpl. auto. }
  destruct (segment_count rd <? ar_next cur);
    [injection E as <- <- <-; split; [auto|split; [auto|discriminate]]|].
  destruct (verify_prior rd cur) as [r1 [u|]];
    [|injection E as <- <- <-; split; [auto|split; [auto|discriminate]]].
  destruct stale as [copy|]; [|injection E as <- <- <-; apply K; auto].
  destruct (repair_copy m copy cur) as [m1 r2] eqn:Er.
  pose proof (repair_copy_above f _ _ _ _ _ Hw Hc Hf Ha Er) as [A1 M1].
  destruct r2; injection E as <- <- <-; [apply K; auto|].
  split; [auto|split; [auto|discriminate]].
Qed.

Lemma core_open_above f m rd book m' rd' res :
  above f m -> core_open m rd book = (m', rd', res) ->
  above f m' /\ (honest m' -> honest m) /\ (forall c, res = Ok c ->
    co_media c = m' /\ wf_core c /\ (honest m' -> f <= ar_next (co_current c))).
Proof.
  intros Ha E. unfold core_open in E.
  destruct (read_record m CopyA) as [m1 [a|]] eqn:E1;
    pose proof (read_record_above f _ _ _ _ Ha E1) as (A1 & M1 & Pa);
    [|injection E as <- <- <-; split; [auto|split; [auto|discriminate]]].
  destruct (read_record m1 CopyB) as [m2 [b|]] eqn:E2;
    pose proof (read_record_above f _ _ _ _ A1 E2) as (A2 & M2 & Pb);
    [|injection E as <- <- <-; split; [auto|split; [auto|discriminate]]].
  destruct (Pa a eq_refl) as (Fa & Wa & Ca).
  destruct (Pb b eq_refl) as (Fb & Wb & Cb).
  destruct (negb _ || negb _) eqn:Eb;
    [injection E as <- <- <-; split; [auto|split; [auto|discriminate]]|].
  apply orb_false_iff in Eb as [Eb _].
  apply negb_false_iff, bool_decide_eq_true in Eb.
  assert (Hbook : wf_book_id book) by (rewrite <- Eb; apply Wa).
  assert (L : forall m0, (honest m0 -> honest m2) -> honest m0 -> honest m) by auto.
  cbn [decide_anchors] in E.
  destruct (decide_records a b) as [r|r s|s w|w|] eqn:Ed;
    try (injection E as <- <- <-; split; [auto|split; [auto|discriminate]]).
  - apply decide_records_consistent in Ed as [<- <-].
    apply (open_adopt_above f) in E as (? & ? & ?); auto. split_and!; auto.
  - apply decide_records_higher in Ed as (_ & Hnx & Hs).
    assert (r = a \/ r = b) as Hor by (destruct s; tauto).
    assert (Hr : honest m2 -> f <= ar_next r) by (intros Hh; specialize (Fb Hh); lia).
    apply (open_adopt_above f) in E as (? & ? & ?); auto;
      [split_and!; auto|destruct Hor as [-> | ->]; auto..].
Qed.

End NoReuse.

(** ** Histories: sessions over one disk, with failures and crashes *)

Record World (M R : Type) := MkWorld {
  w_media : M;
  w_reader : R;
  w_session : option (Core M R);
  w_log : list (Z * Z);
}.
Arguments MkWorld {M R}.
Arguments w_media {M R}.
Arguments w_reader {M R}.
Arguments w_session {M R}.
Arguments w_log {M R}.

Inductive Event :=
  | EvOpen (book : BookId)
  | EvIssue
  | EvReserve (n : Z)
  | EvClose
  | EvCrash.

Section Histories.
Context `{Sha256} {M R : Type} `{AnchorMedia M} `{SegmentReader R}.
Context `{!MediaSpec M}.

(** The disk, also while a session holds it. *)
Definition disk (w : World M R) : M :=
  match w_session w with Some c => co_media c | None => w_media w end.

Definition reader_of (w : World M R) : R :=
  match w_session w with Some c => co_reader c | None => w_reader w end.

(** One event: the log gets [(base, n)] exactly when a call returns the
    segments [base .. base + n); a panic ends the session. *)
Definition world_step (w : World M R) (ev : Event) : World M R :=
  match ev with
  | EvOpen book =>
      match w_session w with
      | Some _ => w
      | None =>
          match core_open (w_media w) (w_reader w) book with
          | (m, r, Ok c) => MkWorld m r (Some c) (w_log w)
          | (m, r, Err _) => MkWorld m r None (w_log w)
          end
      end
  | EvIssue =>
      match w_session w with
      | None => w
      | Some c =>
          let base := ar_next (co_current c) in
          match issue c with
          | (c, Some (Ok _)) =>
              MkWorld (w_media w) (w_reader w) (Some c) (w_log w ++ [(base, 1)])
          | (c, Some (Err _)) =>
              MkWorld (w_media w) (w_reader w) (Some c) (w_log w)
          | (c, None) => MkWorld (co_media c) (co_reader c) None (w_log w)
          end
      end
  | EvReserve n =>
      match w_session w with
      | None => w
      | Some c =>
          match reserve_range c n with
          | (c, Some (Ok rg)) =>
              MkWorld (w_media w) (w_reader w) (Some c)
                (w_log w ++ [(rg_base rg, n)])
          | (c, Some (Err _)) =>
              MkWorld (w_media w) (w_reader w) (Some c) (w_log w)
          | (c, None) => MkWorld (co_media c) (co_reader c) None (w_log w)
          end
      end
  | EvClose => MkWorld (disk w) (reader_of w) None (w_log w)
  | EvCrash => MkWorld (media_crash (disk w)) (reader_of w) None (w_log w)
  end.

Definition run (w : World M R) (evs : list Event) : World M R :=
  fold_left world_step evs w.

(** [reserve_range] takes a [u64]. *)
Definition wf_event (ev : Event) : Prop :=
  match ev with EvReserve n => 0 <= n | _ => True end.

(** The ranges of a log, in order, from [from] on, never overlap. *)
Fixpoint increasing (from : Z) (l : list (Z * Z)) : Prop :=
  match l with
  | [] => True
  | (b, n) :: l => from <= b /\ 1 <= n /\ increasing (b + n) l
  end.

Fixpoint floor_from (from : Z) (l : list (Z * Z)) : Z :=
  match l with
  | [] => from
  | (b, n) :: l => floor_from (b + n) l
  end.

Lemma increasing_snoc from l b n :
  increasing from l -> floor_from from l <= b -> 1 <= n ->
  increasing from (l ++ [(b, n)]).
Proof.
  revert from. induction l as [|[b' n'] l IH]; simpl; intros from Hi Hf Hn;
    [auto|]. destruct Hi as (? & ? & ?). auto.
Qed.

Lemma floor_snoc from l b n : floor_from from (l ++ [(b, n)]) = b + n.
Proof. revert from. induction l as [|[b' n'] l IH]; simpl; auto. Qed.

Definition world_inv (w : World M R) : Prop :=
  let f := floor_from 0 (w_log w) in
  (honest (disk w) -> increasing 0 (w_log w)) /\ above f (disk w) /\
  forall c, w_session w = Some c ->
    wf_core c /\ (honest (disk w) -> f <= ar_next (co_current c)).

Lemma above_crash f m : above f m -> above f (media_crash m).
Proof.
  intros Ha Hh c x r Hx Hd. destruct (crash_law m) as [Hm Hl].
  destruct (Hl c x Hx) as [Hp|[e He]]; [eapply (Ha (Hm Hh)); eauto | congruence].
Qed.

(** A call of an open session: the ranges it logs are new. *)
Lemma session_inv w c c' log :
  world_inv w -> w_session w = Some c ->
  keeps (floor_from 0 (w_log w)) c c' ->
  log = w_log w \/
    (exists n, 1 <= n /\ log = w_log w ++ [(ar_next (co_current c), n)] /\
       ar_next (co_current c') = ar_next (co_current c) + n /\
       above (ar_next (co_current c) + n) (co_media c')) ->
  world_inv (MkWorld (w_media w) (w_reader w) (Some c') log).
Proof.
  intros (Hi & Ha & Hs) Ew (A & W & N & Mo) Hlog.
  destruct (Hs c Ew) as [_ Hf]. unfold world_inv, disk in *. rewrite Ew in *. cbn.
  destruct Hlog as [->|(n & Hn & -> & Hn' & A')].
  - split; [auto|]. split; [auto|].
    intros ? [= <-]. split; [auto|]. intros Hh. specialize (Hf (Mo Hh)). lia.
  - rewrite floor_snoc. split; [intros Hh; apply increasing_snoc; auto|].
    split; [auto|]. intros ? [= <-]. split; [auto|]. intros _. lia.
Qed.

(** Ending the session keeps what is on the disk. *)
Lemma close_inv w :
  world_inv w -> world_inv (MkWorld (disk w) (reader_of w) None (w_log w)).
Proof.
  intros (Hi & Ha & _). split; [exact Hi | split; [exact Ha | discriminate]].
Qed.

Lemma world_step_inv w ev : wf_event ev -> world_inv w -> world_inv (world_step w ev).
Proof.
  intros Hev Hw. destruct ev as [book| |n| |]; cbn [world_step].
  - destruct (w_session w) as [c|] eqn:Ew; [exact Hw|].
    destruct Hw as (Hi & Ha & Hs). unfold disk in Ha, Hi. rewrite Ew in Ha, Hi.
    destruct (core_open _ _ book) as [[m r] res] eqn:E.
    destruct (core_open_above _ _ _ _ _ _ _ Ha E) as (A & Mo & P).
    destruct res as [c|]; unfold world_inv, disk; simpl; split_and!; auto;
      try discriminate; try (destruct (P c eq_refl) as (-> & ? & ?); auto; fail).
    intros c' [= <-]. destruct (P c eq_refl) as (-> & ? & ?). auto.
  - destruct (w_session w) as [c|] eqn:Ew; [|exact Hw].
    destruct (proj2 (proj2 Hw) c Ew) as [Hwf Hf].
    pose proof (proj1 (proj2 Hw)) as Ha. unfold disk in Ha, Hf. rewrite Ew in Ha, Hf.
    destruct (issue c) as [c' res] eqn:E.
    destruct (issue_above _ _ _ _ Hwf Ha Hf E) as [K P].
    destruct res as [[s|]|]; [|apply (session_inv w c); auto|
      apply (close_inv (MkWorld (w_media w) (w_reader w) (Some c') (w_log w))),
        (session_inv w c); auto].
    destruct (P s eq_refl) as [Hn A']. apply (session_inv w c); auto.
    right. exists 1. auto with lia.
  - destruct (w_session w) as [c|] eqn:Ew; [|exact Hw].
    destruct (proj2 (proj2 Hw) c Ew) as [Hwf Hf].
    pose proof (proj1 (proj2 Hw)) as Ha. unfold disk in Ha, Hf. rewrite Ew in Ha, Hf.
    destruct (reserve_range c n) as [c' res] eqn:E.
    destruct (reserve_range_above _ _ _ _ _ Hwf Ha Hf Hev E) as [K P].
    destruct res as [[s|]|]; [|apply (session_inv w c); auto|
      apply (close_inv (MkWorld (w_media w) (w_reader w) (Some c') (w_log w))),
        (session_inv w c); auto].
    destruct (P s eq_refl) as (Hn1 & -> & Hn & A'). apply (session_inv w c); auto.
    right. exists n. auto.
  - apply close_inv, Hw.
  - destruct Hw as (Hi & Ha & _). split.
    + intros Hh. apply Hi, (proj1 (crash_law _)), Hh.
    + split; [apply above_crash, Ha|]. intros c Hc. discriminate Hc.
Qed.

Lemma run_inv evs w : Forall wf_event evs -> world_inv w -> world_inv (run w evs).
Proof.
  unfold run. revert w. induction evs as [|ev evs IH]; simpl; [auto|].
  intros w Hf Hw. inversion Hf; subst. auto using world_step_inv.
Qed.

Lemma world_inv_start m r : world_inv (MkWorld m r None []).
Proof.
  unfold world_inv, disk. simpl. split_and!; auto; [|discriminate].
  intros _ c x rec _ Hd. apply decode_ok_inv in Hd as ((_ & Hn & _) & _). ulia.
Qed.

End Histories.
