(* ===== verification/SimDisk.v ===== *)
(** * SimDisk: a simulated disk and book for the allocator's witnesses

    [SimDisk] holds, per anchor copy, the current content and the contents a
    crash may bring back; a script of booleans injects failures and crash
    outcomes.  It meets the storage contract [MediaSpec].  [SimBook] is a book
    of identical segments.  [low_digest] stands in for SHA-256 where a concrete
    function is needed. *)

From S2P Require Export Allocator.
From stdpp Require Import strings.

#[local] Open Scope list_scope.
#[local] Open Scope Z_scope.

(** The low 256 bits of the input, as a 32-byte digest. *)
Definition low_digest : Sha256.
Proof.
  refine {| sha256 := fun l => be_bytes 32 (be_val l) |}.
  intros l. apply length_be_bytes.
Defined.

#[local] Existing Instance low_digest.

Record Cell := MkCell { cell_cur : list byte; cell_old : list (list byte) }.

Record SimDisk := MkDisk {
  sd_a : Cell;
  sd_b : Cell;
  sd_script : list bool;
}.

Definition get_cell (d : SimDisk) (c : AnchorCopy) : Cell :=
  match c with CopyA => sd_a d | CopyB => sd_b d end.

Definition put_cell (d : SimDisk) (c : AnchorCopy) (x : Cell) : SimDisk :=
  match c with
  | CopyA => MkDisk x (sd_b d) (sd_script d)
  | CopyB => MkDisk (sd_a d) x (sd_script d)
  end.

(** Takes the next entry of the script: [true] is a failure. *)
Definition pop (d : SimDisk) : bool * SimDisk :=
  match sd_script d with
  | [] => (false, d)
  | b :: l => (b, MkDisk (sd_a d) (sd_b d) l)
  end.

#[export] Instance sim_media : AnchorMedia SimDisk := {
  media_read d c :=
    let '(f, d) := pop d in
    (d, if f then Err MeIo else Ok (cell_cur (get_cell d c)));
  media_write d c bs :=
    let '(f, d) := pop d in
    let cell := get_cell d c in
    let new := if f : bool then [] else bs in
    (put_cell d c (MkCell new (cell_cur cell :: cell_old cell)),
     if f then Err MeShortWrite else Ok tt);
  media_sync d c :=
    let '(f, d) := pop d in
    if f : bool then (d, Err MePersistence)
    else (put_cell d c (MkCell (cell_cur (get_cell d c)) []), Ok tt);
  media_boundary d p :=
    let '(f, d) := pop d in
    (d, if f : bool then Err MeIo else Ok tt);
}.

(** After a crash a copy holds its current or its oldest possible content. *)
Definition crash_cell (lost : bool) (x : Cell) : Cell :=
  MkCell (if lost then List.last (cell_old x) (cell_cur x) else cell_cur x) [].

Definition sim_crash (d : SimDisk) : SimDisk :=
  let '(fa, d) := pop d in
  let '(fb, d) := pop d in
  MkDisk (crash_cell fa (sd_a d)) (crash_cell fb (sd_b d)) (sd_script d).

Definition sim_possible (d : SimDisk) (c : AnchorCopy) (x : list byte) : Prop :=
  x = cell_cur (get_cell d c) \/ In x (cell_old (get_cell d c)).

Lemma pop_cells d f d' c : pop d = (f, d') -> get_cell d' c = get_cell d c.
Proof.
  unfold pop. destruct (sd_script d); intros [= <- <-]; destruct c; reflexivity.
Qed.

Lemma get_put d c x c' :
  get_cell (put_cell d c x) c' = if decide (c' = c) then x else get_cell d c'.
Proof. destruct c, c'; reflexivity. Qed.

Lemma torn_nil : torn [].
Proof. exists (DecodeFailed "length"%string). reflexivity. Qed.

Lemma last_in {A} (l : list A) d : List.last l d = d \/ In (List.last l d) l.
Proof.
  induction l as [|a [|b l] IH]; simpl; auto. simpl in IH. tauto.
Qed.

#[export] Instance sim_spec : MediaSpec SimDisk.
Proof.
  refine {| latest := fun d c => cell_cur (get_cell d c);
            possible := sim_possible; media_crash := sim_crash;
            honest := fun _ => True |}.
  - intros m c m' r E. simpl in E. destruct (pop m) as [f d] eqn:Ep.
    injection E as <- <-. pose proof (fun c => pop_cells _ _ _ c Ep) as Hc.
    unfold sim_possible. split_and!; [auto| |].
    + intros x Hx. destruct f; [discriminate|]. injection Hx as <-.
      rewrite Hc. auto.
    + intros c' x. rewrite Hc. auto.
  - intros m c bs m' r E. simpl in E. destruct (pop m) as [f d] eqn:Ep.
    pose proof (fun c => pop_cells _ _ _ c Ep) as Hc.
    injection E as <- <-. unfold sim_possible. split_and!; [auto| | |].
    + intros _ x. rewrite get_put, decide_True by auto. simpl. rewrite Hc.
      destruct f; intros [->|[<-|?]]; auto using torn_nil.
    + intros c' x Hne. rewrite get_put, decide_False, Hc by auto. auto.
    + intros u Hu. rewrite get_put, decide_True by auto.
      destruct f; [discriminate | reflexivity].
  - intros m c m' r E. simpl in E. destruct (pop m) as [f d] eqn:Ep.
    pose proof (fun c => pop_cells _ _ _ c Ep) as Hc. unfold sim_possible.
    destruct f; injection E as <- <-; (split; [auto|]); split; try discriminate.
    + intros c' x. rewrite Hc. auto.
    + intros c' x. rewrite get_put. case_decide as D; [subst c'|]; simpl;
        rewrite Hc; intros [->|?]; tauto.
    + intros u _ x. rewrite get_put, decide_True by auto. simpl. rewrite Hc.
      intros [->|[]]. reflexivity.
  - intros m p m' r E. simpl in E. destruct (pop m) as [f d] eqn:Ep.
    injection E as <- <-. pose proof (fun c => pop_cells _ _ _ c Ep) as Hc.
    unfold sim_possible. split; [auto|]. split; intros; rewrite Hc in *; auto.
  - intros m. split; [auto|]. intros c x. unfold sim_crash, sim_possible.
    destruct (pop m) as [f d] eqn:Ep. destruct (pop d) as [f' d'] eqn:Ep'.
    pose proof (pop_cells _ _ _ c Ep). pose proof (pop_cells _ _ _ c Ep').
    intros Hx. left. rewrite <- H, <- H0.
    destruct c; simpl in *; destruct Hx as [->|[]];
      [destruct f|destruct f']; auto;
      match goal with |- List.last ?l ?d = _ \/ _ =>
        destruct (last_in l d) end; auto.
Defined.

(** A book of [n] identical segments; [sb_fail] makes one index unreadable. *)
Record SimBook := MkBook { sb_count : Z; sb_fill : byte; sb_fail : option Z }.

#[export] Instance sim_reader : SegmentReader SimBook := {
  segment_count b := sb_count b;
  segment_read b i :=
    (b, if bool_decide (sb_fail b = Some i) then Err MeIo
        else Ok (repeat (sb_fill b) 64));
}.

(** A fresh disk: INIT on both copies, both synced, a fault script. *)
Definition sim_book_id : BookId := repeat Byte.x42 16.

Definition fresh_disk (script : list bool) : SimDisk :=
  let x := encode_record (anchor_init sim_book_id) [] in
  MkDisk (MkCell x []) (MkCell x []) script.
