(* ===== verification/AllocatorSpec.v ===== *)
(** * AllocatorSpec: what the allocator guarantees

    The theorems about [Allocator]: no segment is ever issued twice over any
    history of sessions, failures and crashes; the durable order of a
    transaction; the result of each operation on each branch; opening fails
    closed.  [SimDisk] is a disk with injected faults that meets the storage
    contract, on which the witnesses run. *)

From S2P Require Export SimDisk.

#[local] Open Scope list_scope.
#[local] Open Scope Z_scope.

(** ** A transaction's operations on the medium, as a trace *)

Inductive MediaOp :=
  | OpRead (copy : AnchorCopy)
  | OpWrite (copy : AnchorCopy) (bytes : list byte)
  | OpSync (copy : AnchorCopy)
  | OpBoundary (p : Boundary).

(** A medium that records the calls made on it. *)
Record Logged (M : Type) := MkLogged {
  lg_inner : M;
  lg_trace : list MediaOp;
}.
Arguments MkLogged {M}.
Arguments lg_inner {M}.
Arguments lg_trace {M}.

Definition log_call {M A} (s : Logged M) (op : MediaOp)
  (p : M * result A MediaError) : Logged M * result A MediaError :=
  (MkLogged (fst p) (lg_trace s ++ [op]), snd p).

#[export] Instance logged_media {M} `{AnchorMedia M} : AnchorMedia (Logged M) := {
  media_read s c := log_call s (OpRead c) (media_read (lg_inner s) c);
  media_write s c bs :=
    log_call s (OpWrite c bs) (media_write (lg_inner s) c bs);
  media_sync s c := log_call s (OpSync c) (media_sync (lg_inner s) c);
  media_boundary s p :=
    log_call s (OpBoundary p) (media_boundary (lg_inner s) p);
}.

(** A record made durable on one copy, between its four boundary points. *)
Definition copy_ops `{Sha256} (r : AnchorRecord) (copy : AnchorCopy)
  (ws wc ss sr : Boundary) : list MediaOp :=
  [OpBoundary ws; OpWrite copy (encode_record r []); OpBoundary wc;
   OpBoundary ss; OpSync copy; OpBoundary sr].

Definition intent_ops `{Sha256} (r : AnchorRecord) : list MediaOp :=
  copy_ops r CopyA IntentAWriteStart IntentAWriteComplete IntentAFsyncStart IntentAFsyncReturn ++
  copy_ops r CopyB IntentBWriteStart IntentBWriteComplete IntentBFsyncStart IntentBFsyncReturn.

Definition commit_ops `{Sha256} (r : AnchorRecord) : list MediaOp :=
  copy_ops r CopyA FinalAWriteStart FinalAWriteComplete FinalAFsyncStart FinalAFsyncReturn ++
  copy_ops r CopyB FinalBWriteStart FinalBWriteComplete FinalBFsyncStart FinalBFsyncReturn.

Definition pair_ops `{Sha256} (r : AnchorRecord) (intent : bool) : list MediaOp :=
  if intent then intent_ops r else commit_ops r.

(** The durable order: INTENT written and synced on A, then on B, then the
    read of the book, then COMMIT written and synced on A, then on B. *)
Definition protocol `{Sha256} (intent commit : AnchorRecord) : list MediaOp :=
  intent_ops intent ++ [OpBoundary SegmentPread] ++ commit_ops commit.

(** [s'] extends the trace of [s] by a prefix of [ops], by all if [ok]. *)
Definition emits {M} (s s' : Logged M) (ok : bool) (ops : list MediaOp) : Prop :=
  exists k, lg_trace s' = lg_trace s ++ k /\ k `prefix_of` ops /\
    (ok = true -> k = ops).

Lemma emits_call {M A} (s s' : Logged M) op p (r : result A MediaError) :
  log_call s op p = (s', r) -> emits s s' (is_ok r) [op].
Proof. intros [= <- <-]. exists [op]. auto. Qed.

Lemma emits_seq {M} (s s1 s2 : Logged M) ok a b :
  emits s s1 true a -> emits s1 s2 ok b -> emits s s2 ok (a ++ b).
Proof.
  intros (k & E & _ & Ha) (k' & E' & Hp & Hb). rewrite (Ha eq_refl) in E.
  exists (a ++ k'). rewrite E', E, app_assoc. split_and!; auto.
  - apply prefix_app, Hp.
  - intros Hok. rewrite (Hb Hok). reflexivity.
Qed.

Lemma emits_stop {M} (s s1 : Logged M) a b :
  emits s s1 false a -> emits s s1 false (a ++ b).
Proof.
  intros (k & E & Hp & _). exists k. split_and!; auto using prefix_app_r.
  discriminate.
Qed.

Lemma emits_nil {M} (s : Logged M) ok : ok = false -> forall ops, emits s s ok ops.
Proof.
  intros -> ops. exists []. rewrite app_nil_r.
  split_and!; auto using prefix_nil. discriminate.
Qed.

Section Trace.
Context `{Sha256} {M R : Type} `{AnchorMedia M} `{SegmentReader R}.

(** One link of a [let!] chain over logged calls. *)
Ltac emits_link E :=
  match type of E with
  | (match ?call with (_, _) => _ end) = _ =>
      let s := fresh "s" in let r := fresh "r" in let Ec := fresh "Ec" in
      destruct call as [s r] eqn:Ec; apply emits_call in Ec;
      destruct r; cbn [is_ok] in Ec;
      [ eapply (emits_seq _ _ _ _ [_]); [exact Ec|]
      | injection E as <- <-; apply (emits_stop _ _ [_]); exact Ec ]
  end.

Lemma persist_copy_emits (s s' : Logged M) r copy ws wc ss sr res :
  persist_copy s r copy (ws, wc, ss, sr) = (s', res) ->
  emits s s' (is_ok res) (copy_ops r copy ws wc ss sr).
Proof.
  unfold persist_copy, copy_ops.
  intros E. repeat emits_link E. apply emits_call in E. exact E.
Qed.

Lemma persist_pair_emits (c c' : Core (Logged M) R) r i res :
  persist_pair c r i = (c', res) ->
  emits (co_media c) (co_media c') (is_ok res) (pair_ops r i).
Proof.
  unfold persist_pair.
  destruct (persist_loop _ _ _) as [m res'] eqn:El. intros [= <- <-]. simpl.
  assert (H2 : forall pa pb s,
    persist_loop s r [(CopyA, pa); (CopyB, pb)] = (m, res') -> s = co_media c ->
    persist_points i = [(CopyA, pa); (CopyB, pb)] ->
    emits (co_media c) m (is_ok res') (pair_ops r i)).
  { intros [[[wa ca] sa] ra] [[[wb cb] sb] rb] s E -> Hp. cbn [persist_loop] in E.
    assert (Ho : pair_ops r i = copy_ops r CopyA wa ca sa ra ++ copy_ops r CopyB wb cb sb rb)
      by (destruct i; injection Hp as <- <- <- <- <- <- <- <-; reflexivity).
    rewrite Ho. destruct (persist_copy _ _ CopyA _) as [s1 [u1|]] eqn:E1;
      apply persist_copy_emits in E1; cbn [is_ok] in E1.
    - eapply emits_seq; [exact E1|].
      destruct (persist_copy s1 _ CopyB _) as [s2 [u2|]] eqn:E2;
        apply persist_copy_emits in E2; injection E as <- <-; exact E2.
    - injection E as <- <-. apply emits_stop, E1. }
  destruct i; eapply H2; try reflexivity; exact El.
Qed.

Lemma transact_emits {A S} (c : Core (Logged M) R) intent
  (readf : R -> R * result A MediaError) commit (out : A -> S) c' res :
  transact c intent readf commit out = (c', res) ->
  exists ops, lg_trace (co_media c') = lg_trace (co_media c) ++ ops /\
    ((forall s, res <> Some (Ok s)) /\
     (ops `prefix_of` pair_ops intent true ++ [OpBoundary SegmentPread] \/
      exists b cr, snd (readf (co_reader c)) = Ok b /\ commit b = Some cr /\
        ops `prefix_of` protocol intent cr) \/
     exists b cr, snd (readf (co_reader c)) = Ok b /\ commit b = Some cr /\
       res = Some (Ok (out b)) /\ ops = protocol intent cr).
Proof.
  unfold transact. intros E.
  destruct (persist_pair (set_current c intent) intent true)
    as [c1 [u1|]] eqn:E1;
    pose proof (persist_pair_book _ _ _ _ _ E1) as (_ & Hrd & _);
    apply persist_pair_emits in E1; cbn [is_ok] in E1; simpl in E1, Hrd; cycle 1.
  { injection E as <- <-. destruct E1 as (k & Hk & Hp & _). exists k.
    split; [exact Hk|]. left. split; [discriminate|]. left.
    apply prefix_app_r, Hp. }
  destruct (media_boundary (co_media c1) SegmentPread) as [m2 r2] eqn:E2.
  apply emits_call in E2. pose proof (emits_seq _ _ _ _ _ _ E1 E2) as E12.
  destruct r2; cbn [is_ok] in E12; cycle 1.
  { injection E as <- <-. destruct E12 as (k & Hk & Hp & _). exists k.
    split; [exact Hk|]. left. split; [discriminate|]. auto. }
  rewrite Hrd in E. destruct (readf (co_reader c)) as [rd [b|]] eqn:Er; cycle 1.
  { injection E as <- <-. destruct E12 as (k & Hk & Hp & _). exists k.
    split; [exact Hk|]. left. split; [discriminate|]. auto. }
  destruct (commit b) as [cr|] eqn:Ecr; cycle 1.
  { injection E as <- <-. destruct E12 as (k & Hk & Hp & _). exists k.
    split; [exact Hk|]. left. split; [discriminate|]. auto. }
  destruct (persist_pair _ cr false) as [c4 r4] eqn:E4.
  apply persist_pair_emits in E4. simpl in E4.
  pose proof (emits_seq _ _ _ _ _ _ E12 E4) as (k & Hk & Hp & Hall).
  rewrite <- app_assoc in Hp, Hall. exists k.
  destruct r4; cbn [is_ok] in *; injection E as <- <-; (split; [exact Hk|]).
  - right. exists b, cr. cbn [snd]. auto.
  - left. split; [discriminate|]. right. exists b, cr. auto.
Qed.

(** The same, against the protocol of a transaction whose COMMIT is
    [commit b]. *)
Lemma transact_protocol {S} (c : Core (Logged M) R) intent
  (readf : R -> R * result (list byte) MediaError)
  (commit : list byte -> AnchorRecord) (out : list byte -> S) c' res :
  transact c intent readf (fun b => Some (commit b)) out = (c', res) ->
  exists ops, lg_trace (co_media c') = lg_trace (co_media c) ++ ops /\
    match res with
    | Some (Ok s) => exists b, s = out b /\ ops = protocol intent (commit b)
    | _ => exists b, ops `prefix_of` protocol intent (commit b)
    end.
Proof.
  intros E. apply transact_emits in E as (ops & Ht & Hcase). exists ops.
  split; [exact Ht|].
  destruct Hcase as [[Hne Hp]|(b & cr & _ & [= <-] & -> & ->)]; [|eauto].
  assert (exists b, ops `prefix_of` protocol intent (commit b)) as Hex.
  { destruct Hp as [Hp|(b & cr & _ & [= <-] & Hp)]; [|eauto].
    exists []. unfold protocol. rewrite app_assoc. apply prefix_app_r, Hp. }
  destruct res as [[s|]|]; [destruct (Hne s eq_refl) | exact Hex..].
Qed.

End Trace.

(** ** Results of a transaction *)

Section Results.
Context `{Sha256} {M R : Type} `{AnchorMedia M} `{SegmentReader R}.

Lemma transact_result {A S} (c : Core M R) intent
  (readf : R -> R * result A MediaError) commit (out : A -> S) c' res :
  transact c intent readf commit out = (c', res) ->
  co_book_id c' = co_book_id c /\
  match res with
  | Some (Ok s) => exists b cr, readf (co_reader c) = (co_reader c', Ok b) /\
      commit b = Some cr /\ s = out b /\ co_current c' = cr /\
      co_halted c' = co_halted c
  | Some (Err e) => co_current c' = intent /\
      (e = IePersistenceUncertain /\ co_halted c' = true \/
       e = IeIo /\ co_halted c' = co_halted c)
  | None => exists b, snd (readf (co_reader c)) = Ok b /\ commit b = None
  end.
Proof.
  unfold transact. intros E.
  destruct (persist_pair (set_current c intent) intent true)
    as [c1 [u1|]] eqn:E1;
    apply persist_pair_book in E1 as (Hb & Hr & Hc & Hh);
    simpl in Hb, Hr, Hc, Hh; cycle 1.
  { injection E as <- <-. simpl. auto. }
  destruct (media_boundary (co_media c1) SegmentPread) as [m2 [u2|]]; cycle 1.
  { injection E as <- <-. simpl. auto. }
  rewrite Hr in E. destruct (readf (co_reader c)) as [rd [b|]]; cycle 1.
  { injection E as <- <-. simpl. auto. }
  destruct (commit b) as [cr|] eqn:Ecr; cycle 1.
  { injection E as <- <-. simpl. eauto. }
  destruct (persist_pair _ cr false) as [c4 r4] eqn:E4.
  apply persist_pair_book in E4 as (Hb4 & Hr4 & Hc4 & Hh4);
    simpl in Hb4, Hr4, Hc4, Hh4.
  destruct r4; injection E as <- <-; simpl.
  - split; [congruence|]. exists b, cr. split_and!; auto; congruence.
  - split; [congruence|]. split; [congruence | auto].
Qed.

(** How a call may change the record of a session: not at all, or the generation is counted
    up by exactly one and the pointer moves on. *)
Definition counts_up (book : BookId) (before after : AnchorRecord) : Prop :=
  ar_book_id after = book /\ ar_generation after = ar_generation before + 1 /\
  ar_next before < ar_next after.

Definition counted (c c' : Core M R) : Prop :=
  co_book_id c' = co_book_id c /\
  (co_current c' = co_current c \/ counts_up (co_book_id c) (co_current c) (co_current c')).

Lemma transact_counted {A S} (c : Core M R) intent
  (readf : R -> R * result A MediaError) commit (out : A -> S) c' res :
  counts_up (co_book_id c) (co_current c) intent ->
  (forall b cr, commit b = Some cr -> counts_up (co_book_id c) (co_current c) cr) ->
  transact c intent readf commit out = (c', Some res) -> counted c c'.
Proof.
  intros Hi Hc E. apply transact_result in E as [Hb Hr]. split; [exact Hb | right].
  destruct res as [s|e]; [|destruct Hr as [-> _]; exact Hi].
  destruct Hr as (b & cr & _ & Hcr & _ & -> & _). exact (Hc b cr Hcr).
Qed.

Lemma counted_same (c c' : Core M R) :
  co_book_id c' = co_book_id c -> co_current c' = co_current c -> counted c c'.
Proof. intros Hb Hc. split; auto. Qed.

Lemma issue_counted (c c' : Core M R) res : issue c = (c', Some res) -> counted c c'.
Proof.
  unfold issue. intros E.
  destruct (co_halted c); [injection E as <- _; apply counted_same; reflexivity|].
  destruct (_ <=? _); [injection E as <- _; apply counted_same; reflexivity|].
  destruct (checked_add_u64 _ 1) as [gen|] eqn:Eg;
    [|injection E as <- _; apply counted_same; reflexivity].
  apply checked_add_u64_some in Eg as [-> _].
  unfold anchor_intent in E.
  destruct (segment_next _) as [nx|] eqn:En; [|discriminate E].
  rewrite issue_reserved_transact in E. pose proof En as Hn. apply segment_next_some in Hn as [-> _].
  eapply transact_counted; [| |exact E].
  - split_and!; cbn; [reflexivity.. | lia].
  - unfold issue_commit. rewrite En. intros b cr [= <-]. split_and!; cbn; [reflexivity.. | lia].
Qed.

Lemma reserve_counted (c c' : Core M R) n res : 0 <= n ->
  reserve_range c n = (c', Some res) -> counted c c'.
Proof.
  unfold reserve_range. intros Hn E.
  destruct (co_halted c); [injection E as <- _; apply counted_same; reflexivity|].
  destruct (Z.eqb_spec n 0); [injection E as <- _; apply counted_same; reflexivity|].
  destruct (checked_add_u64 _ n) as [nn|] eqn:Enn;
    [|injection E as <- _; apply counted_same; reflexivity].
  apply checked_add_u64_some in Enn as [-> _].
  destruct (_ <? _); [injection E as <- _; apply counted_same; reflexivity|].
  destruct (checked_add_u64 _ 1) as [gen|] eqn:Eg;
    [|injection E as <- _; apply counted_same; reflexivity].
  apply checked_add_u64_some in Eg as [-> _].
  unfold anchor_intent in E.
  destruct (segment_next _) as [nx|] eqn:En; [|discriminate E].
  rewrite reserve_reserved_transact in E. apply segment_next_some in En as [-> _].
  eapply transact_counted; [| |exact E].
  - split_and!; cbn; [reflexivity.. | lia].
  - intros b cr [= <-]. split_and!; cbn; [reflexivity.. | lia].
Qed.

(** The guards of [issue], as the state in which a transaction starts. *)
Definition issue_ready (c : Core M R) : Prop :=
  co_halted c = false /\
  ar_next (co_current c) < segment_count (co_reader c) /\
  ar_generation (co_current c) < U64_MAX /\ ar_next (co_current c) < U64_MAX.

Lemma issue_ready_dec c : {issue_ready c} + {~ issue_ready c}.
Proof.
  exact (decide (co_halted c = false /\
    ar_next (co_current c) < segment_count (co_reader c) /\
    ar_generation (co_current c) < U64_MAX /\
    ar_next (co_current c) < U64_MAX)).
Qed.

Definition next_intent (c : Core M R) (n : Z) : AnchorRecord :=
  MkAnchor (co_book_id c) (ar_next (co_current c) + n)
    (ar_generation (co_current c) + 1)
    (PIntent (ar_next (co_current c) + n - 1)).

Definition next_commit (c : Core M R) (n : Z) (last_body : list byte) :
  AnchorRecord :=
  anchor_commit (co_book_id c) (ar_generation (co_current c) + 1)
    (ar_next (co_current c) + n) (sha256 last_body).

Lemma issue_ready_transact c :
  issue_ready c ->
  issue c = transact c (next_intent c 1)
    (fun r => segment_read r (ar_next (co_current c)))
    (fun b => Some (next_commit c 1 b)) MkSegment.
Proof.
  intros (Hh & Hc & Hg & Hn). unfold issue. rewrite Hh.
  destruct (Z.leb_spec (segment_count (co_reader c)) (ar_next (co_current c)));
    [lia|].
  assert (checked_add_u64 (ar_generation (co_current c)) 1 =
          Some (ar_generation (co_current c) + 1)) as ->
    by (apply checked_add_u64_some; lia).
  assert (segment_next (ar_next (co_current c)) =
          Some (ar_next (co_current c) + 1)) as Hs
    by (apply segment_next_some; lia).
  unfold anchor_intent. rewrite Hs. rewrite issue_reserved_transact.
  unfold next_intent, next_commit, issue_commit. rewrite Hs.
  replace (ar_next (co_current c) + 1 - 1) with (ar_next (co_current c)) by lia.
  reflexivity.
Qed.

Definition reserve_ready (c : Core M R) (n : Z) : Prop :=
  co_halted c = false /\ 1 <= n /\
  ar_next (co_current c) + n <= segment_count (co_reader c) /\
  ar_generation (co_current c) < U64_MAX /\
  ar_next (co_current c) + n <= U64_MAX.

Lemma reserve_ready_dec c n : {reserve_ready c n} + {~ reserve_ready c n}.
Proof.
  exact (decide (co_halted c = false /\ 1 <= n /\
    ar_next (co_current c) + n <= segment_count (co_reader c) /\
    ar_generation (co_current c) < U64_MAX /\
    ar_next (co_current c) + n <= U64_MAX)).
Qed.

Definition last_body (bytes : list byte) : list byte :=
  drop (length bytes - Z.to_nat SEGMENT_LEN)%nat bytes.

Lemma reserve_ready_transact c n :
  reserve_ready c n ->
  reserve_range c n = transact c (next_intent c n)
    (fun r => read_bodies r (ar_next (co_current c)) (Z.to_nat n) [])
    (fun b => Some (next_commit c n (last_body b)))
    (MkRange (ar_next (co_current c))).
Proof.
  intros (Hh & H1n & Hc & Hg & Hn). unfold reserve_range. rewrite Hh.
  destruct (Z.eqb_spec n 0); [lia|].
  assert (checked_add_u64 (ar_next (co_current c)) n =
          Some (ar_next (co_current c) + n)) as ->
    by (apply checked_add_u64_some; lia).
  destruct (Z.ltb_spec (segment_count (co_reader c))
    (ar_next (co_current c) + n)); [lia|].
  assert (checked_add_u64 (ar_generation (co_current c)) 1 =
          Some (ar_generation (co_current c) + 1)) as ->
    by (apply checked_add_u64_some; lia).
  assert (segment_next (ar_next (co_current c) + n - 1) =
          Some (ar_next (co_current c) + n)) as Hs
    by (apply segment_next_some; lia).
  unfold anchor_intent. rewrite Hs. rewrite reserve_reserved_transact.
  reflexivity.
Qed.

(** What the calls do when their guards stop them: no medium call, no change
    but the halt on generation overflow. *)
Lemma issue_not_ready c :
  wf_core c -> segment_count (co_reader c) <= U64_MAX -> ~ issue_ready c ->
  (issue c = (c, Some (Err IePersistenceUncertain)) /\ co_halted c = true) \/
  (issue c = (c, Some (Err (IeExhausted (ar_next (co_current c))))) /\
   co_halted c = false /\
   segment_count (co_reader c) <= ar_next (co_current c)) \/
  (issue c = (halt c, Some (Err IePersistenceUncertain)) /\
   co_halted c = false /\ ar_generation (co_current c) = U64_MAX).
Proof.
  intros (_ & _ & Hn & Hg & _) Hmax Hnot. unfold issue, issue_ready in *.
  destruct (co_halted c); [auto|].
  destruct (Z.leb_spec (segment_count (co_reader c)) (ar_next (co_current c)));
    [auto|].
  destruct (checked_add_u64 (ar_generation (co_current c)) 1) as [g|] eqn:Eg.
  - apply checked_add_u64_some in Eg as [-> ?]. destruct Hnot. ulia.
  - apply checked_add_u64_none in Eg. right. right. split_and!; auto. ulia.
Qed.

Lemma reserve_not_ready c n :
  wf_core c -> 0 <= n -> segment_count (co_reader c) <= U64_MAX ->
  ~ reserve_ready c n ->
  (exists e, reserve_range c n = (c, Some (Err e)) /\
     (e = IePersistenceUncertain /\ co_halted c = true \/
      e = IeInvalidRange /\
        (n = 0 \/ U64_MAX < ar_next (co_current c) + n) \/
      e = IeExhausted (ar_next (co_current c)) /\
        segment_count (co_reader c) < ar_next (co_current c) + n)) \/
  (reserve_range c n = (halt c, Some (Err IePersistenceUncertain)) /\
   co_halted c = false /\ ar_generation (co_current c) = U64_MAX).
Proof.
  intros (_ & _ & Hn & Hg & _) Hn0 Hmax Hnot.
  unfold reserve_range, reserve_ready in *.
  destruct (co_halted c); [left; eexists; split; [reflexivity | tauto]|].
  destruct (Z.eqb_spec n 0); [left; eexists; split; [reflexivity | tauto]|].
  destruct (checked_add_u64 (ar_next (co_current c)) n) as [nn|] eqn:En;
    [|rewrite checked_add_u64_none in En; left; eexists; split; [reflexivity | tauto]].
  apply checked_add_u64_some in En as [-> ?].
  destruct (Z.ltb_spec (segment_count (co_reader c))
    (ar_next (co_current c) + n)); [left; eexists; split; [reflexivity | tauto]|].
  destruct (checked_add_u64 (ar_generation (co_current c)) 1) as [g|] eqn:Eg.
  - apply checked_add_u64_some in Eg as [-> ?]. destruct Hnot. split_and!; ulia.
  - apply checked_add_u64_none in Eg. right. split_and!; auto. ulia.
Qed.

(** The bodies a range read collects, in order. *)
Inductive reads : R -> Z -> list (list byte) -> R -> Prop :=
  | reads_nil r i : reads r i [] r
  | reads_cons r i b r1 bs r2 :
      segment_read r i = (r1, Ok b) -> reads r1 (i + 1) bs r2 ->
      reads r i (b :: bs) r2.

Lemma read_bodies_ok r i n acc r' bytes :
  read_bodies r i n acc = (r', Ok bytes) ->
  exists bs, reads r i bs r' /\ length bs = n /\ bytes = acc ++ concat bs.
Proof.
  revert r i acc. induction n as [|n IH]; intros r i acc E; simpl in E.
  - injection E as <- <-. exists []. rewrite app_nil_r. auto using reads_nil.
  - destruct (segment_read r i) as [r1 [b|]] eqn:E1; [|discriminate].
    apply IH in E as (bs & Hr & <- & ->).
    exists (b :: bs). simpl. rewrite app_assoc. eauto using reads_cons.
Qed.

End Results.

Section Opening.
Context `{Sha256} {M R : Type} `{AnchorMedia M} `{SegmentReader R}.

Lemma verify_prior_ok (r r' : R) cur u :
  verify_prior r cur = (r', Ok u) ->
  forall h, ar_payload cur = PCommit h -> exists body,
    segment_read r (ar_next cur - 1) = (r', Ok body) /\ sha256 body = h.
Proof.
  intros Ev h Hh. unfold verify_prior, checked_sub_u64 in Ev.
  rewrite Hh in Ev. destruct (1 <=? ar_next cur); [|discriminate].
  destruct (segment_read r (ar_next cur - 1)) as [r2 [body|]] eqn:Er;
    [|discriminate].
  destruct (bool_decide _) eqn:Ed; [|discriminate]. injection Ev as -> _.
  apply bool_decide_eq_true in Ed. eauto.
Qed.

Lemma open_adopt_ok (m m' : M) (r r' : R) book cur stale c :
  open_adopt m r book cur stale = (m', r', Ok c) ->
  co_current c = cur /\ ar_next cur <= segment_count r /\
  (forall h, ar_payload cur = PCommit h -> exists body,
     segment_read r (ar_next cur - 1) = (r', Ok body) /\ sha256 body = h) /\
  (match stale with
   | None => m' = m
   | Some s => repair_copy m s cur = (m', Ok tt)
   end) /\
  co_media c = m' /\ co_reader c = r' /\ co_book_id c = book /\
  co_halted c = false.
Proof.
  unfold open_adopt. intros E.
  destruct (Z.ltb_spec (segment_count r) (ar_next cur)); [discriminate|].
  destruct (verify_prior r cur) as [r1 [u|]] eqn:Ev; [|discriminate].
  pose proof (verify_prior_ok _ _ _ _ Ev). destruct stale as [s|].
  - destruct (repair_copy m s cur) as [m3 [[]|]] eqn:Er; [|discriminate].
    injection E as <- <- <-. simpl. auto 10.
  - injection E as <- <- <-. simpl. auto 10.
Qed.

End Opening.

(** ** Media and readers that do not fail *)

(** In the states of [G] nothing fails, and they are not left. *)
Record healthy_media (M : Type) `{AnchorMedia M} (G : M -> Prop) : Prop := {
  rel_write : forall m c bs, G m -> exists m', media_write m c bs = (m', Ok tt) /\ G m';
  rel_sync : forall m c, G m -> exists m', media_sync m c = (m', Ok tt) /\ G m';
  rel_boundary : forall m p, G m -> exists m', media_boundary m p = (m', Ok tt) /\ G m';
}.

(** The same of a reader, of a book with [n] segments. *)
Record healthy_reader (R : Type) `{SegmentReader R} (K : R -> Prop) (n : Z)
  (content : Z -> list byte) : Prop := {
  rel_count : forall r, K r -> segment_count r = n;
  rel_read : forall r i, K r -> 0 <= i < n ->
    exists r', segment_read r i = (r', Ok (content i)) /\ K r';
}.

Section Progress.
Context `{Sha256} {M R : Type} `{AnchorMedia M} `{SegmentReader R}.
Context {G : M -> Prop} {K : R -> Prop} {n : Z} {content : Z -> list byte}.
Context (Hm : healthy_media M G) (Hr : healthy_reader R K n content).

Lemma persist_loop_healthy r l : forall m, G m -> exists m', persist_loop m r l = (m', Ok tt) /\ G m'.
Proof using Hm.
  induction l as [|[copy [[[ws wc] ss] sr]] l IH]; intros m Hg; cbn [persist_loop]; [eauto|].
  unfold persist_copy.
  destruct (rel_boundary _ _ Hm m ws Hg) as (m1 & -> & Hg1).
  destruct (rel_write _ _ Hm m1 copy (encode_record r []) Hg1) as (m2 & -> & Hg2).
  destruct (rel_boundary _ _ Hm m2 wc Hg2) as (m3 & -> & Hg3).
  destruct (rel_boundary _ _ Hm m3 ss Hg3) as (m4 & -> & Hg4).
  destruct (rel_sync _ _ Hm m4 copy Hg4) as (m5 & -> & Hg5).
  destruct (rel_boundary _ _ Hm m5 sr Hg5) as (m6 & -> & Hg6). auto.
Qed.

Lemma transact_healthy {A S} (c : Core M R) intent
  (readf : R -> R * result A MediaError) commit (out : A -> S) r' b cr :
  G (co_media c) -> readf (co_reader c) = (r', Ok b) -> commit b = Some cr ->
  exists m, G m /\ transact c intent readf commit out =
    (MkCore m r' (co_book_id c) cr (co_halted c), Some (Ok (out b))).
Proof using Hm.
  intros Hg Hrd Hc. unfold transact, persist_pair.
  destruct (persist_loop_healthy intent (persist_points true) (co_media (set_current c intent)))
    as (m1 & -> & Hg1); [exact Hg|].
  cbn [co_media co_reader set_media set_reader set_current].
  destruct (rel_boundary _ _ Hm m1 SegmentPread Hg1) as (m2 & -> & Hg2).
  rewrite Hrd, Hc. cbn [co_media co_reader set_media set_reader].
  destruct (persist_loop_healthy cr (persist_points false) m2 Hg2) as (m3 & -> & Hg3).
  exists m3. split; [exact Hg3 | reflexivity].
Qed.

Lemma read_bodies_healthy k : forall r i acc,
  K r -> 0 <= i -> i + Z.of_nat k <= n ->
  exists r' bytes, read_bodies r i k acc = (r', Ok bytes).
Proof using Hr.
  induction k as [|k IH]; intros r i acc Hk Hi Hb; simpl; [eauto|].
  destruct (rel_read _ _ _ _ Hr r i Hk) as (r1 & -> & Hk1); [lia|].
  apply IH; [exact Hk1 | lia..].
Qed.

(** Issuing gives the segment at the pointer and moves on by one. *)
Lemma issue_healthy (c : Core M R) :
  G (co_media c) -> K (co_reader c) -> issue_ready c -> 0 <= ar_next (co_current c) ->
  exists m r, G m /\ K r /\ issue c =
    (MkCore m r (co_book_id c) (next_commit c 1 (content (ar_next (co_current c)))) false,
     Some (Ok (MkSegment (content (ar_next (co_current c)))))).
Proof using Hm Hr.
  intros Hg Hk Hrdy Hpos. rewrite issue_ready_transact by exact Hrdy. destruct Hrdy as (Hh & Hlt & _).
  rewrite (rel_count _ _ _ _ Hr _ Hk) in Hlt.
  destruct (rel_read _ _ _ _ Hr (co_reader c) (ar_next (co_current c)) Hk ltac:(lia)) as (r & Hrd & Hk').
  destruct (transact_healthy c (next_intent c 1) (fun r => segment_read r (ar_next (co_current c)))
    (fun b => Some (next_commit c 1 b)) MkSegment r _ _ Hg Hrd eq_refl) as (m & Hg' & ->).
  exists m, r. rewrite Hh. auto.
Qed.

End Progress.

(** ** Properties *)

Section Properties.
Context `{Sha256} {M R : Type} `{AnchorMedia M} `{SegmentReader R}.

Lemma increasing_lookup l : forall from k x y,
  increasing from l -> l !! k = Some (x, y) -> from <= x /\ 1 <= y.
Proof.
  induction l as [|[x0 y0] l IH]; intros from k x y Hl Hk; [discriminate|].
  destruct Hl as (? & ? & Hl). destruct k as [|k]; simpl in Hk.
  - injection Hk as <- <-. auto.
  - apply (IH _ _ _ _ Hl) in Hk. lia.
Qed.

Lemma increasing_disjoint log : forall from i j b n b' n',
  increasing from log ->
  log !! i = Some (b, n) -> log !! j = Some (b', n') -> (i < j)%nat ->
  from <= b /\ 1 <= n /\ 1 <= n' /\ b + n <= b'.
Proof.
  induction log as [|[x y] log IH]; intros from i j b n b' n' Hinc Hi Hj Hij;
    [discriminate|]. pose proof (increasing_lookup _ _ _ _ _ Hinc Hi) as [? ?].
  destruct Hinc as (? & ? & Hinc). destruct j as [|j]; [lia|]. simpl in Hj.
  pose proof (increasing_lookup _ _ _ _ _ Hinc Hj).
  destruct i as [|i]; simpl in Hi.
  - injection Hi as <- <-. lia.
  - destruct (IH (x + y) i j _ _ _ _ Hinc Hi Hj) as (? & ? & ? & ?); lia.
Qed.

Lemma run_increasing `{!MediaSpec M} (m : M) (r : R) evs :
  Forall wf_event evs -> let w := run (MkWorld m r None []) evs in
  honest (disk w) -> increasing 0 (w_log w).
Proof. intros Hev. apply (run_inv evs _ Hev (world_inv_start m r)). Qed.

(** C2: one-time use.  Over any history of opening, issuing, range
    reservations, closing and crashing, with any failures of the medium at any
    point, the segment ranges handed out are pairwise disjoint and only ever
    move forward: of two calls that returned segments, the later one returned
    only indices above all those of the earlier one.  The one hypothesis on the
    medium is that no torn mixture has passed the digest. *)
Theorem alloc_no_reuse `{!MediaSpec M} (m : M) (r : R) evs i j b n b' n' :
  Forall wf_event evs ->
  let w := run (MkWorld m r None []) evs in
  honest (disk w) ->
  w_log w !! i = Some (b, n) -> w_log w !! j = Some (b', n') -> (i < j)%nat ->
  0 <= b /\ 1 <= n /\ 1 <= n' /\ b + n <= b'.
Proof.
  intros Hev w Hh. apply increasing_disjoint, run_increasing; auto.
Qed.

(** The state of an open session has its types. *)
Definition typed (c : Core M R) : Prop :=
  wf_book_id (co_book_id c) /\ wf_record (co_current c) /\
  Z.of_nat (length (encode_record (co_current c) [])) = ANCHOR_RECORD_LEN.

Lemma history_typed `{!MediaSpec M} (m : M) (r : R) evs c :
  Forall wf_event evs -> w_session (run (MkWorld m r None []) evs) = Some c -> typed c.
Proof.
  intros Hev Hc. destruct (run_inv evs _ Hev (world_inv_start m r)) as (_ & _ & Hs).
  destruct (proj1 (Hs c Hc)) as [Hb Hr]. unfold typed. rewrite length_encode by exact Hr. auto.
Qed.

Lemma step_counted `{!MediaSpec M} (w : World M R) ev c c' : wf_event ev ->
  w_session w = Some c -> w_session (world_step w ev) = Some c' -> counted c c'.
Proof.
  intros Hev Hc Hc'. destruct ev as [book| |n| |]; cbn [world_step] in Hc'; rewrite ?Hc in Hc';
    try discriminate Hc'.
  - assert (c' = c) as -> by congruence. apply counted_same; reflexivity.
  - destruct (issue c) as [c1 [[s|e]|]] eqn:E; [..|discriminate Hc']; injection Hc' as <-;
      exact (issue_counted _ _ _ E).
  - destruct (reserve_range c n) as [c1 [[s|e]|]] eqn:E; [..|discriminate Hc']; injection Hc' as <-;
      exact (reserve_counted _ _ _ _ Hev E).
Qed.

(** C20: the state keeps its types, and its counters count.  After any history, with any
    failures of the medium, the book identity of an open session is 16 bytes, its record
    has a 64-bit pointer and generation and a payload of its kind's size, and encodes to
    exactly one record of 104 bytes.  And no counter wraps: from one event of the session
    to the next its record is the same, or it is of the session's book, with a generation
    that is larger by exactly one and a larger pointer, both still of 64 bits. *)
Theorem allocator_types `{!MediaSpec M} (m : M) (r : R) evs ev c c' :
  Forall wf_event (evs ++ [ev]) ->
  w_session (run (MkWorld m r None []) evs) = Some c ->
  w_session (run (MkWorld m r None []) (evs ++ [ev])) = Some c' ->
  typed c /\ typed c' /\ counted c c'.
Proof.
  intros Hev Hc Hc'. pose proof Hev as Hev'. apply Forall_app in Hev' as [Hevs Hone].
  split; [exact (history_typed m r evs c Hevs Hc)|].
  split; [exact (history_typed m r _ c' Hev Hc')|].
  unfold run in Hc'. rewrite fold_left_app in Hc'. cbn [fold_left] in Hc'.
  inversion Hone; subst. eapply step_counted; eassumption.
Qed.

(** C4: output only after durability.  Whatever a call does to the medium is a
    prefix of the fixed protocol (INTENT on A, on B, the book read, COMMIT on
    A, on B; every write followed by its sync), and a call that returns
    segments has performed the whole protocol, with the COMMIT carrying the
    hash of the last segment it returns. *)
Theorem durable_order (c : Core (Logged M) R) :
  wf_core c -> segment_count (co_reader c) <= U64_MAX ->
  (forall c' res, issue c = (c', res) ->
     exists ops, lg_trace (co_media c') = lg_trace (co_media c) ++ ops /\
       match res with
       | Some (Ok s) =>
           ops = protocol (next_intent c 1) (next_commit c 1 (cs_inner s))
       | _ => exists b,
           ops `prefix_of` protocol (next_intent c 1) (next_commit c 1 b)
       end) /\
  (forall n c' res, 0 <= n -> reserve_range c n = (c', res) ->
     exists ops, lg_trace (co_media c') = lg_trace (co_media c) ++ ops /\
       match res with
       | Some (Ok s) =>
           ops = protocol (next_intent c n)
                   (next_commit c n (last_body (rg_bytes s)))
       | _ => exists b,
           ops `prefix_of` protocol (next_intent c n) (next_commit c n b)
       end).
Proof.
  intros Hwf Hmax. split.
  - intros c' res E. destruct (issue_ready_dec c) as [Hrdy|Hrdy].
    + rewrite issue_ready_transact in E by exact Hrdy.
      apply transact_protocol in E as (ops & Ht & Hcase). exists ops.
      split; [exact Ht|]. destruct res as [[s|]|]; auto.
      destruct Hcase as (b & -> & ->). reflexivity.
    + destruct (issue_not_ready c Hwf Hmax Hrdy)
        as [[E' _]|[[E' _]|[E' _]]]; rewrite E' in E; injection E as <- <-;
        exists []; rewrite app_nil_r;
        (split; [reflexivity | exists []; apply prefix_nil]).
  - intros n c' res Hn E. destruct (reserve_ready_dec c n) as [Hrdy|Hrdy].
    + rewrite reserve_ready_transact in E by exact Hrdy.
      apply (transact_protocol _ _ _
        (fun b => next_commit c n (last_body b))) in E as (ops & Ht & Hcase).
      exists ops. split; [exact Ht|].
      destruct res as [[s|]|]; [|destruct Hcase; eauto | destruct Hcase; eauto].
      destruct Hcase as (b & -> & ->). reflexivity.
    + destruct (reserve_not_ready c n Hwf Hn Hmax Hrdy)
        as [(e & E' & _)|[E' _]]; rewrite E' in E; injection E as <- <-;
        exists []; rewrite app_nil_r;
        (split; [reflexivity | exists []; apply prefix_nil]).
Qed.

(** C21: every outcome of [issue].  It returns the body of segment [next] and
    leaves the matching COMMIT; a failure after the guards has already moved
    the pointer past the segment (it is burned, never reissued) and halts the
    allocator unless only the book read failed; the guards themselves change
    nothing, generation overflow apart; the call never panics. *)
Theorem issue_result (c c' : Core M R) res :
  wf_core c -> segment_count (co_reader c) <= U64_MAX ->
  issue c = (c', res) ->
  match res with
  | None => False
  | Some (Ok s) =>
      issue_ready c /\
      segment_read (co_reader c) (ar_next (co_current c)) =
        (co_reader c', Ok (cs_inner s)) /\
      co_current c' = next_commit c 1 (cs_inner s) /\ co_halted c' = false
  | Some (Err e) =>
      (issue_ready c /\ co_current c' = next_intent c 1 /\
        (e = IePersistenceUncertain /\ co_halted c' = true \/
         e = IeIo /\ co_halted c' = false)) \/
      (c' = c /\ co_halted c = true /\ e = IePersistenceUncertain) \/
      (c' = c /\ e = IeExhausted (ar_next (co_current c)) /\
        segment_count (co_reader c) <= ar_next (co_current c)) \/
      (c' = halt c /\ e = IePersistenceUncertain /\
        ar_generation (co_current c) = U64_MAX)
  end.
Proof.
  intros Hwf Hmax E.
  destruct (issue_ready_dec c) as [Hrdy|Hrdy].
  - rewrite issue_ready_transact in E by exact Hrdy.
    apply transact_result in E as [_ Hr]. destruct res as [[s|e]|].
    + destruct Hr as (b & cr & Hrd & [= <-] & -> & Hc & Hh). simpl.
      split; [exact Hrdy|]. split_and!; auto. destruct Hrdy; congruence.
    + destruct Hr as (Hc & He). left. split; [exact Hrdy|].
      split; [exact Hc|]. destruct Hrdy as [Hh _]. rewrite Hh in He. exact He.
    + destruct Hr as (b & _ & [=]).
  - destruct (issue_not_ready c Hwf Hmax Hrdy)
      as [[E' ?]|[(E' & ? & ?)|(E' & ? & ?)]]; rewrite E' in E;
      injection E as <- <-; right; auto.
Qed.

(** Every outcome of [reserve_range].  A success is the exact
    concatenation of the [n] segments from the old pointer on, in order; any
    failure after the guards burns the whole range; the guards reject [n = 0],
    overflow and exhaustion without changing anything. *)
Theorem reserve_result (c c' : Core M R) n res :
  wf_core c -> segment_count (co_reader c) <= U64_MAX -> 0 <= n ->
  reserve_range c n = (c', res) ->
  match res with
  | None => False
  | Some (Ok s) =>
      reserve_ready c n /\ rg_base s = ar_next (co_current c) /\
      (exists bodies,
        reads (co_reader c) (rg_base s) bodies (co_reader c') /\
        Z.of_nat (length bodies) = n /\ rg_bytes s = concat bodies) /\
      co_current c' = next_commit c n (last_body (rg_bytes s)) /\
      co_halted c' = false
  | Some (Err e) =>
      (reserve_ready c n /\ co_current c' = next_intent c n /\
        (e = IePersistenceUncertain /\ co_halted c' = true \/
         e = IeIo /\ co_halted c' = false)) \/
      (~ reserve_ready c n /\ (c' = c \/ c' = halt c))
  end.
Proof.
  intros Hwf Hmax Hn E.
  destruct (reserve_ready_dec c n) as [Hrdy|Hrdy].
  - rewrite reserve_ready_transact in E by exact Hrdy.
    apply transact_result in E as [_ Hr]. destruct res as [[s|e]|].
    + destruct Hr as (b & cr & Hrd & [= <-] & -> & Hc & Hh). simpl.
      apply read_bodies_ok in Hrd as (bs & Hbs & Hlen & ->). simpl in *.
      split; [exact Hrdy|]. split; [reflexivity|].
      split; [exists bs; split_and!; auto; lia|].
      split; [auto | destruct Hrdy; congruence].
    + destruct Hr as (Hc & He). left. split; [exact Hrdy|].
      split; [exact Hc|]. destruct Hrdy as [Hh _]. rewrite Hh in He. exact He.
    + destruct Hr as (b & _ & [=]).
  - destruct (reserve_not_ready c n Hwf Hn Hmax Hrdy)
      as [(e & E' & _)|(E' & _)]; rewrite E' in E;
      injection E as <- <-; right; auto.
Qed.

(** Opening fails closed.  A core is returned only if both copies decoded,
    both belong to the configured book, the decision adopted one of them (the
    larger pointer), the pointer is inside the book, a COMMIT matches the hash
    of the book's segment before it, and a stale copy was rewritten and read
    back as the adopted record. *)
Theorem core_open_result (m m' : M) (r r' : R) book c :
  core_open m r book = (m', r', Ok c) ->
  exists a b m1 m2,
    read_record m CopyA = (m1, Ok a) /\ read_record m1 CopyB = (m2, Ok b) /\
    ar_book_id a = book /\ ar_book_id b = book /\
    (co_current c = a \/ co_current c = b) /\
    ar_next (co_current c) = Z.max (ar_next a) (ar_next b) /\
    ar_next (co_current c) <= segment_count r /\
    (forall h, ar_payload (co_current c) = PCommit h ->
       exists body,
         segment_read r (ar_next (co_current c) - 1) = (r', Ok body) /\
         sha256 body = h) /\
    (a = b /\ m' = m2 \/
     exists stale, repair_copy m2 stale (co_current c) = (m', Ok tt)) /\
    co_media c = m' /\ co_reader c = r' /\ co_book_id c = book /\
    co_halted c = false.
Proof.
  unfold core_open. intros E.
  destruct (read_record m CopyA) as [m1 [a|]] eqn:E1; [|discriminate].
  destruct (read_record m1 CopyB) as [m2 [b|]] eqn:E2; [|discriminate].
  destruct (negb _ || negb _) eqn:Eb; [discriminate|].
  apply orb_false_iff in Eb as [Ha Hb].
  apply negb_false_iff, bool_decide_eq_true in Ha, Hb.
  cbn [decide_anchors] in E. exists a, b, m1, m2.
  destruct (decide_records a b) as [cur|cur s|s w|w|] eqn:Ed;
    try discriminate E;
    apply open_adopt_ok in E as (<- & ? & ? & Hs & ? & ? & ? & ?).
  - apply decide_records_consistent in Ed as [-> ->].
    split_and!; auto. lia.
  - apply decide_records_higher in Ed as (_ & ? & Hor).
    split_and!; eauto. destruct s; tauto.
Qed.

(** Progress.  With a medium and a book that do not fail, an allocator
    that is not halted and not exhausted issues a segment, and reserves any
    range that fits. *)
Theorem issue_progress (c : Core M R) G K n content :
  healthy_media M G -> healthy_reader R K n content -> wf_core c ->
  G (co_media c) -> K (co_reader c) ->
  (issue_ready c -> exists c' s, issue c = (c', Some (Ok s))) /\
  (forall n, reserve_ready c n ->
     exists c' s, reserve_range c n = (c', Some (Ok s))).
Proof.
  intros Hm Hr (_ & _ & Hn & _) Hg Hk. split.
  - intros Hrdy. destruct (issue_healthy Hm Hr c Hg Hk Hrdy) as (m & r & _ & _ & ->); [ulia | eauto].
  - intros k Hrdy. rewrite reserve_ready_transact by exact Hrdy.
    destruct Hrdy as (_ & H1n & Hle & _). rewrite (rel_count _ _ _ _ Hr _ Hk) in Hle.
    destruct (read_bodies_healthy Hr (Z.to_nat k) (co_reader c)
      (ar_next (co_current c)) [] Hk) as (r' & b & Hrd); [ulia|lia|].
    destruct (transact_healthy Hm c (next_intent c k)
      (fun r => read_bodies r (ar_next (co_current c)) (Z.to_nat k) [])
      (fun b => Some (next_commit c k (last_body b)))
      (MkRange (ar_next (co_current c))) r' b _ Hg Hrd eq_refl)
      as (m & _ & ->). eauto.
Qed.

End Properties.

(** ** Witnesses *)

#[local] Existing Instance low_digest.

Definition demo_book : SimBook := MkBook 8 Byte.x07 None.

(** Issue, crash with the COMMIT of the second issue lost, reopen, reserve. *)
Definition demo_events : list Event :=
  [EvOpen sim_book_id; EvIssue; EvCrash; EvOpen sim_book_id; EvReserve 3;
   EvIssue; EvClose].

Definition demo_world : World SimDisk SimBook :=
  MkWorld (fresh_disk []) demo_book None [].

Lemma alloc_no_reuse_witness :
  let log := w_log (run demo_world demo_events) in
  log = [(0, 1); (1, 3); (4, 1)] /\ 0 + 1 <= 1 /\ 1 + 3 <= 4.
Proof.
  assert (Hl : w_log (run demo_world demo_events) = [(0, 1); (1, 3); (4, 1)])
    by (vm_compute; reflexivity).
  assert (Hev : Forall wf_event demo_events)
    by (repeat constructor; simpl; lia).
  pose proof (alloc_no_reuse (fresh_disk []) demo_book demo_events
    0 1 0 1 1 3 Hev I) as P.
  pose proof (alloc_no_reuse (fresh_disk []) demo_book demo_events
    1 2 1 3 4 1 Hev I) as Q. cbv zeta in *.
  fold demo_world in P, Q. rewrite Hl in P, Q |- *.
  split; [reflexivity|]. split.
  - apply P; [reflexivity | reflexivity | lia].
  - apply Q; [reflexivity | reflexivity | lia].
Defined.

Definition five_events : list Event := take 5 demo_events.

Lemma allocator_types_witness : exists c c',
  w_session (run demo_world five_events) = Some c /\
  w_session (run demo_world (five_events ++ [EvIssue])) = Some c' /\
  ar_next (co_current c') = 5 /\ typed c' /\ counted c c'.
Proof.
  assert (Hs : option_map (fun c => ar_next (co_current c))
    (w_session (run demo_world (five_events ++ [EvIssue]))) = Some 5) by (vm_compute; reflexivity).
  assert (Hb : is_some (w_session (run demo_world five_events)) = true)
    by (vm_compute; reflexivity).
  assert (Hev : Forall wf_event (five_events ++ [EvIssue]))
    by (repeat constructor; simpl; lia).
  pose proof (allocator_types (fresh_disk []) demo_book five_events EvIssue) as P.
  fold demo_world in P.
  destruct (w_session (run demo_world (five_events ++ [EvIssue]))) as [c'|]; [|discriminate Hs].
  destruct (w_session (run demo_world five_events)) as [c|]; [|discriminate Hb].
  injection Hs as Hs. exists c, c'. split; [reflexivity|]. split; [reflexivity|]. split; [exact Hs|].
  exact (proj2 (P c c' Hev eq_refl eq_refl)).
Defined.

Definition demo_core {M} (m : M) : Core M SimBook :=
  MkCore m demo_book sim_book_id (anchor_init sim_book_id) false.

Lemma demo_core_wf {M} (m : M) : wf_core (demo_core m).
Proof. unfold wf_core, wf_record; simpl. repeat split; ulia. Qed.

Definition demo_body : list byte := repeat Byte.x07 64.

Lemma durable_order_witness :
  let c := demo_core (MkLogged (fresh_disk []) []) in
  exists c', issue c = (c', Some (Ok (MkSegment demo_body))) /\
    lg_trace (co_media c') =
      protocol (next_intent c 1) (next_commit c 1 demo_body).
Proof.
  cbv zeta.
  set (c := demo_core (MkLogged (fresh_disk []) [])).
  destruct (issue c) as [c' res] eqn:E.
  assert (Hr : snd (issue c) = Some (Ok (MkSegment demo_body)))
    by (vm_compute; reflexivity).
  rewrite E in Hr. cbn [snd] in Hr. subst res. exists c'. split; [reflexivity|].
  assert (Hmax : segment_count (co_reader c) <= U64_MAX) by (vm_compute; discriminate).
  destruct (durable_order c (demo_core_wf _) Hmax) as [P _].
  destruct (P _ _ E) as (ops & Ht & ->). exact Ht.
Defined.

Lemma issue_result_witness :
  let c := demo_core (fresh_disk []) in
  exists c', issue c = (c', Some (Ok (MkSegment demo_body))) /\
    co_current c' = next_commit c 1 demo_body.
Proof.
  cbv zeta. set (c := demo_core (fresh_disk [])).
  destruct (issue c) as [c' res] eqn:E.
  assert (Hr : snd (issue c) = Some (Ok (MkSegment demo_body)))
    by (vm_compute; reflexivity).
  rewrite E in Hr. cbn [snd] in Hr. subst res. exists c'. split; [reflexivity|].
  assert (Hmax : segment_count (co_reader c) <= U64_MAX) by (vm_compute; discriminate).
  destruct (issue_result c c' _ (demo_core_wf _) Hmax E)
    as (_ & _ & Hc & _). exact Hc.
Defined.

Lemma reserve_result_witness :
  let c := demo_core (fresh_disk [false; false; true]) in
  exists c', reserve_range c 2 = (c', Some (Err IePersistenceUncertain)) /\
    co_current c' = next_intent c 2.
Proof.
  cbv zeta. set (c := demo_core (fresh_disk [false; false; true])).
  destruct (reserve_range c 2) as [c' res] eqn:E.
  assert (Hr : snd (reserve_range c 2) = Some (Err IePersistenceUncertain))
    by (vm_compute; reflexivity).
  rewrite E in Hr. cbn [snd] in Hr. subst res. exists c'. split; [reflexivity|].
  assert (Hmax : segment_count (co_reader c) <= U64_MAX) by (vm_compute; discriminate).
  assert (H2 : 0 <= 2) by lia.
  destruct (reserve_result c c' 2 _ (demo_core_wf _) Hmax H2 E) as [(_ & Hc & _)|[Hn _]];
    [exact Hc|].
  destruct Hn. vm_compute. split_and!; congruence.
Defined.

Lemma core_open_result_witness :
  exists m' c,
    core_open (fresh_disk []) demo_book sim_book_id = (m', demo_book, Ok c) /\
    ar_next (co_current c) <= 8.
Proof.
  destruct (core_open (fresh_disk []) demo_book sim_book_id)
    as [[m' r'] res] eqn:E.
  assert (Hr : (snd (fst (core_open (fresh_disk []) demo_book sim_book_id)),
      snd (core_open (fresh_disk []) demo_book sim_book_id)) =
      (demo_book, Ok (demo_core (fresh_disk [])))) by (vm_compute; reflexivity).
  rewrite E in Hr. cbn [fst snd] in Hr. injection Hr as -> ->.
  exists m', (demo_core (fresh_disk [])). split; [reflexivity|].
  destruct (core_open_result (fresh_disk []) m' demo_book demo_book _ _ E)
    as (a & b & m1 & m2 & _ & _ & _ & _ & _ & _ & Hle & _). exact Hle.
Defined.

(** A medium on which nothing fails. *)
#[export] Instance unit_media : AnchorMedia unit := {
  media_read m c := (m, Ok []);
  media_write m c bs := (m, Ok tt);
  media_sync m c := (m, Ok tt);
  media_boundary m p := (m, Ok tt);
}.

(** A book of 8 readable segments. *)
Record GoodBook := MkGood { gb_fill : byte }.

#[export] Instance good_reader : SegmentReader GoodBook := {
  segment_count b := 8;
  segment_read b i := (b, Ok (repeat (gb_fill b) 64));
}.

Lemma issue_progress_witness :
  let c := MkCore tt (MkGood Byte.x07) sim_book_id
             (anchor_init sim_book_id) false in
  (exists c' s, issue c = (c', Some (Ok s))) /\
  (exists c' s, reserve_range c 8 = (c', Some (Ok s))).
Proof.
  cbv zeta.
  assert (Hm : healthy_media unit (fun _ => True)) by (split; intros m **; exists m; auto).
  assert (Hr : healthy_reader GoodBook (eq (MkGood Byte.x07)) 8 (fun _ => repeat Byte.x07 64))
    by (split; [intros r <-; reflexivity | intros r i <- Hi; exists (MkGood Byte.x07); auto]).
  destruct (issue_progress (MkCore tt (MkGood Byte.x07) sim_book_id
    (anchor_init sim_book_id) false) _ _ _ _ Hm Hr) as [P Q]; [|exact Logic.I | reflexivity |].
  - unfold wf_core, wf_record; simpl. repeat split; ulia.
  - split; [apply P | apply Q]; vm_compute; split_and!; congruence.
Defined.
