(* ===== verification/TestKit.v ===== *)
(** * TestKit: the oracle of issued segments ([otp-testkit], lib.rs)

    The model that tests hold the allocator against, and the theorem that it accepts
    exactly what moves forward; the allocator's own theorem then says that it never
    complains about an allocator. *)

From stdpp Require Import gmap.
From S2P Require Export AllocatorSpec.

#[local] Open Scope list_scope.
#[local] Open Scope Z_scope.

Record IssueOracle := MkOracle { io_next : Z; io_issued : gset Z }.

Definition oracle_new (start : Z) : IssueOracle := MkOracle start ∅.

(** [IssueOracle::observe]; [None] is the panic on the last index. *)
Definition oracle_observe (o : IssueOracle) (index : Z) : option (IssueOracle * bool) :=
  if index <? io_next o then Some (o, false) else
  if bool_decide (index ∈ io_issued o) then Some (o, false) else
  let issued := {[index]} ∪ io_issued o in
  if io_next o <=? index then
    match segment_next index with
    | Some next => Some (MkOracle next issued, true)
    | None => None
    end
  else Some (MkOracle (io_next o) issued, true).

Definition issued_count (o : IssueOracle) : nat := size (io_issued o).

(** What it says of a history. *)
Fixpoint verdicts (o : IssueOracle) (l : list Z) : option (list bool) :=
  match l with
  | [] => Some []
  | i :: l =>
      match oracle_observe o i with
      | None => None
      | Some (o, ok) => option_map (cons ok) (verdicts o l)
      end
  end.

(** Every index of [l] is above the ones before it, and at least [lo]. *)
Fixpoint forward (lo : Z) (l : list Z) : Prop :=
  match l with
  | [] => True
  | i :: l => lo <= i /\ forward (i + 1) l
  end.

(** What was issued is below the pointer. *)
Definition oracle_wf (o : IssueOracle) : Prop := forall i, i ∈ io_issued o -> i < io_next o.

Lemma oracle_observe_wf o i : oracle_wf o -> i < U64_MAX ->
  oracle_observe o i =
    if i <? io_next o then Some (o, false)
    else Some (MkOracle (i + 1) ({[i]} ∪ io_issued o), true).
Proof.
  intros Hw Hi. unfold oracle_observe. destruct (Z.ltb_spec i (io_next o)) as [|Hge]; [reflexivity|].
  rewrite bool_decide_eq_false_2 by (intros Hx; specialize (Hw i Hx); lia).
  rewrite (proj2 (Z.leb_le (io_next o) i)) by lia.
  rewrite (proj2 (segment_next_some i (i + 1))) by lia. reflexivity.
Qed.

Lemma oracle_next_wf o i : oracle_wf o -> io_next o <= i ->
  oracle_wf (MkOracle (i + 1) ({[i]} ∪ io_issued o)).
Proof. intros Hw Hi j Hj. cbn in *. apply elem_of_union in Hj as [->%elem_of_singleton|Hj]; [lia|]. specialize (Hw j Hj). lia. Qed.

(** The oracle accepts a history exactly when the indices move forward from its pointer;
    so each is new, and skipping indices is allowed. *)
Theorem oracle_accepts start l :
  Forall (fun i => i < U64_MAX) l ->
  exists v, verdicts (oracle_new start) l = Some v /\ length v = length l /\
    (Forall (fun ok => ok = true) v <-> forward start l).
Proof.
  intros Hl. assert (Hw : oracle_wf (oracle_new start)) by (intros i Hi; set_solver).
  change start with (io_next (oracle_new start)) at 2.
  revert Hw. generalize (oracle_new start) as o. induction Hl as [|i l Hi Hl IH]; intros o Hw; cbn.
  { exists []. repeat split; auto. }
  rewrite oracle_observe_wf by assumption. destruct (Z.ltb_spec i (io_next o)) as [Hlt|Hge].
  - destruct (IH o Hw) as (v & -> & Hv & _). exists (false :: v). cbn. split_and!; [reflexivity | lia|].
    split; [intros Hf; inversion Hf; discriminate | lia].
  - destruct (IH _ (oracle_next_wf _ _ Hw Hge)) as (v & -> & Hv & Hf). exists (true :: v). cbn.
    split_and!; [reflexivity | lia|]. rewrite Forall_cons_iff, Hf. cbn. intuition.
Qed.

(** The segments of a range, and of a list of ranges. *)
Definition segments_from (b : Z) (n : nat) : list Z := map (fun k => b + Z.of_nat k) (seq 0 n).

Definition segments_of (ranges : list (Z * Z)) : list Z :=
  concat (map (fun r => segments_from r.1 (Z.to_nat r.2)) ranges).

Lemma segments_from_S b n : segments_from b (S n) = b :: segments_from (b + 1) n.
Proof.
  unfold segments_from. cbn [seq map]. f_equal; [lia|]. rewrite <- seq_shift, map_map.
  apply map_ext. intros k. lia.
Qed.

Lemma forward_weaken lo lo' l : lo' <= lo -> forward lo l -> forward lo' l.
Proof. destruct l; cbn; intuition lia. Qed.

Lemma forward_range lo b n l :
  lo <= b -> forward (b + Z.of_nat n) l -> forward lo (segments_from b n ++ l).
Proof.
  revert lo b. induction n as [|n IH]; intros lo b Hb Hf.
  - apply (forward_weaken (b + 0)); [lia | exact Hf].
  - rewrite segments_from_S. cbn. split; [exact Hb|]. apply IH; [lia|].
    replace (b + 1 + Z.of_nat n) with (b + Z.of_nat (S n)) by lia. exact Hf.
Qed.

Lemma forward_segments lo ranges : increasing lo ranges -> forward lo (segments_of ranges).
Proof.
  revert lo. induction ranges as [|[b n] l IH]; intros lo; cbn; [auto|]. intros (Hb & Hn & Hi).
  apply forward_range; [exact Hb|]. rewrite Z2Nat.id by lia. exact (IH _ Hi).
Qed.

(** Held against any history of an allocator, failures and crashes included, the oracle
    says true of every segment. *)
Theorem oracle_passes_allocator `{Sha256} {M R} `{AnchorMedia M, !SegmentReader R, !MediaSpec M} (m : M) (r : R) evs :
  let w := run (MkWorld m r None []) evs in
  Forall wf_event evs -> honest (disk w) ->
  Forall (fun i => i < U64_MAX) (segments_of (w_log w)) ->
  exists v, verdicts (oracle_new 0) (segments_of (w_log w)) = Some v /\ Forall (fun ok => ok = true) v.
Proof.
  intros w Hev Hh Hl. destruct (oracle_accepts 0 _ Hl) as (v & Hv & _ & Hf). exists v. split; [exact Hv|].
  apply Hf, forward_segments, (run_increasing m r evs Hev Hh).
Qed.

(** A repeated segment is refused, and so is one below; a gap is accepted. *)
Example oracle_demo : verdicts (oracle_new 0) [0; 1; 1; 5; 4; 6] = Some [true; true; false; true; false; true].
Proof. vm_compute. reflexivity. Qed.
