(* ===== verification/Book.v ===== *)
(** * Book: the book file ([otp-book]: header.rs, lib.rs, generate.rs, inspect.rs)

    The header and its codec, opening a book and reading one segment of it, and
    the two offline tools.  What touches the file is a program over the calls it
    makes to the operating system. *)

From stdpp Require Import gmap strings.
From Stdlib Require Import Strings.Byte Floats.SpecFloat.
From S2P Require Export Effects AnchorSpec.

#[local] Open Scope list_scope.
#[local] Open Scope Z_scope.

(** ** The header (header.rs) *)

Definition BOOK_MAGIC : list byte := Eval cbv in ascii_bytes "OTPB".
Definition BOOK_VERSION : Z := 1.
Definition HEADER_LEN : nat := 128.
Definition SEGMENT_AREA_OFFSET : Z := 128.
Definition MAX_SEGMENT_COUNT : Z := 2 ^ 40 - 1.
Definition HASHED_PREFIX_LEN : nat := 96.
Definition RESERVED_LEN : nat := 2 + 60.

Record BookHeader := MkHeader {
  bh_version : Z;
  bh_book_id : BookId;
  bh_segment_len : Z;
  bh_segment_count : Z;
}.

Definition count_out_of_range (n : Z) : bool := (n =? 0) || (MAX_SEGMENT_COUNT <? n).

Definition header_validate (h : BookHeader) : result unit string :=
  if negb (bh_version h =? BOOK_VERSION) then Err "unsupported-version"%string else
  if negb (bh_segment_len h =? SEGMENT_LEN) then Err "segment-len-not-64"%string else
  if count_out_of_range (bh_segment_count h)
  then Err "segment-count-out-of-range"%string else Ok tt.

Definition header_new (book_id : BookId) (segment_count : Z) : result BookHeader string :=
  let h := MkHeader BOOK_VERSION book_id SEGMENT_LEN segment_count in
  let? _ := header_validate h in Ok h.

(** The 96 bytes the hash covers. *)
Definition header_prefix (h : BookHeader) : list byte :=
  BOOK_MAGIC ++ u16_be (bh_version h) ++ u32_be (bh_segment_len h) ++
  u64_be (bh_segment_count h) ++ bh_book_id h ++ zeros RESERVED_LEN.

Definition header_encode `{Sha256} (h : BookHeader) : list byte :=
  header_prefix h ++ sha256 (header_prefix h).

Definition header_decode `{Sha256} (bytes : list byte) : result BookHeader string :=
  if negb (length bytes =? HEADER_LEN)%nat then Err "header-length"%string else
  if negb (bool_decide (slice 0 4 bytes = BOOK_MAGIC)) then Err "magic"%string else
  let version := be_val (slice 4 6 bytes) in
  if negb (version =? BOOK_VERSION) then Err "unsupported-version"%string else
  let segment_len := be_val (slice 6 10 bytes) in
  if negb (segment_len =? SEGMENT_LEN) then Err "segment-len-not-64"%string else
  let segment_count := be_val (slice 10 18 bytes) in
  if count_out_of_range segment_count
  then Err "segment-count-out-of-range"%string else
  let book_id := slice 18 34 bytes in
  if negb (bool_decide (slice 34 HASHED_PREFIX_LEN bytes = zeros RESERVED_LEN))
  then Err "reserved-not-zero"%string else
  if negb (bool_decide (drop HASHED_PREFIX_LEN bytes
                        = sha256 (take HASHED_PREFIX_LEN bytes)))
  then Err "header-hash-mismatch"%string else
  Ok (MkHeader version book_id segment_len segment_count).

Definition expected_file_size (h : BookHeader) : option Z :=
  match checked_mul_u64 (bh_segment_count h) SEGMENT_LEN with
  | Some body => checked_add_u64 SEGMENT_AREA_OFFSET body
  | None => None
  end.

(** ** Calls to the operating system *)

Inductive OsError := OsNotFound | OsExists | OsInterrupted | OsOther.

(** The calls about one path and its directory.  [FcReadExact] and [FcWriteAll]
    are those of the standard library, over a descriptor with a position. *)
Inductive FileCall :=
  | FcOpen
  | FcStat
  | FcPread (n : nat) (offset : Z)
  | FcClone
  | FcReadExact (n : nat)
  | FcCreate
  | FcWriteAll (bs : list byte)
  | FcRandom (n : nat)
  | FcFsync
  | FcOpenParent
  | FcFsyncParent
  | FcUnlink.

(** [FcStat]: whether the file is a regular one, and its size. *)
Definition file_answer (c : FileCall) : Type :=
  match c with
  | FcStat => result (bool * Z) OsError
  | FcPread _ _ | FcReadExact _ | FcRandom _ => result (list byte) OsError
  | _ => result unit OsError
  end.

Notation file_act R := (act FileCall file_answer R).
Definition file_ask (c : FileCall) : file_act (file_answer c) :=
  ask (C := FileCall) (A := file_answer) c.

(** ** Opening and reading (lib.rs) *)

Inductive BookError :=
  | BeNotFound
  | BeInvalidHeader (reason : string)
  | BeSegmentOutOfRange (index count : Z)
  | BeIo.

Definition map_open_err (e : OsError) : BookError :=
  match e with OsNotFound => BeNotFound | _ => BeIo end.

(** [u64::saturating_add]. *)
Definition sat_add_u64 (a b : Z) : Z := Z.min U64_MAX (a + b).

(** The loop of [pread_exact]: [got] is the filled part of the buffer. *)
Fixpoint pread_exact (fuel : nat) (n : nat) (got : list byte) (offset : Z) :
  file_act (result (list byte) BookError) :=
  if (n <=? length got)%nat then done (Ok got) else
  match fuel with
  | O => Ret OutOfFuel
  | S fuel =>
      let* r := file_ask (FcPread (n - length got) offset) in
      match r with
      | Ok [] => done (Err BeIo)
      | Ok bs =>
          pread_exact fuel n (got ++ bs) (sat_add_u64 offset (Z.of_nat (length bs)))
      | Err OsInterrupted => pread_exact fuel n got offset
      | Err _ => done (Err BeIo)
      end
  end.

Section Book.
Context `{Sha256}.

Definition open_validated (fuel : nat) : file_act (result BookHeader BookError) :=
  let* o := file_ask FcOpen in
  match o with
  | Err e => done (Err (map_open_err e))
  | Ok _ =>
  let* st := file_ask FcStat in
  match st with
  | Err _ => done (Err BeIo)
  | Ok (regular, size) =>
  if negb regular then done (Err (BeInvalidHeader "not-a-regular-file")) else
  if size <? Z.of_nat HEADER_LEN then done (Err (BeInvalidHeader "header-length")) else
  let* head := pread_exact fuel HEADER_LEN [] 0 in
  match head with
  | Err e => done (Err e)
  | Ok head =>
  done (
    let? header := map_err BeInvalidHeader (header_decode head) in
    match expected_file_size header with
    | Some expected =>
        if size =? expected then Ok header
        else Err (BeInvalidHeader "file-size-mismatch")
    | None => Err (BeInvalidHeader "file-size-mismatch")
    end)
  end end end.

(** [Book::open]: the book is its header and the open file. *)
Definition book_open := open_validated.

(** The offset of segment [i]. *)
Definition segment_offset (i : Z) : option Z :=
  match checked_mul_u64 i SEGMENT_LEN with
  | Some body_off => checked_add_u64 SEGMENT_AREA_OFFSET body_off
  | None => None
  end.

Definition read_segment (fuel : nat) (header : BookHeader) (index : Z) :
  file_act (result (list byte) BookError) :=
  let out_of_range := BeSegmentOutOfRange index (bh_segment_count header) in
  if bh_segment_count header <=? index then done (Err out_of_range) else
  match segment_offset index with
  | None => done (Err out_of_range)
  | Some offset => pread_exact fuel (Z.to_nat SEGMENT_LEN) [] offset
  end.

(** ** Generating a book (generate.rs) *)

Definition SEGMENTS_PER_CHUNK : Z := 1024.

Inductive GenerateError :=
  | GePathExists
  | GeBadSegmentCount (n : Z)
  | GeCsprng
  | GeIo (e : OsError).

Definition random_book_id : file_act (result BookId GenerateError) :=
  let* r := file_ask (FcRandom 16) in done (map_err (fun _ => GeCsprng) r).

(** The number of chunks of a book. *)
Definition chunk_count (remaining : Z) : nat :=
  Z.to_nat ((remaining + (SEGMENTS_PER_CHUNK - 1)) / SEGMENTS_PER_CHUNK).

(** The loop of [write_book_body]. *)
Fixpoint write_bodies (fuel : nat) (remaining : Z) :
  file_act (result unit GenerateError) :=
  if remaining <=? 0 then done (Ok tt) else
  match fuel with
  | O => Ret OutOfFuel
  | S fuel =>
      let segs := Z.min remaining SEGMENTS_PER_CHUNK in
      let* r := file_ask (FcRandom (Z.to_nat (segs * 64))) in
      match r with
      | Err _ => done (Err GeCsprng)
      | Ok bytes =>
          let* w := file_ask (FcWriteAll bytes) in
          match w with
          | Err e => done (Err (GeIo e))
          | Ok _ => write_bodies fuel (remaining - segs)
          end
      end
  end.

Definition write_book_body (header : BookHeader) : file_act (result unit GenerateError) :=
  let* c := file_ask FcClone in
  match c with
  | Err e => done (Err (GeIo e))
  | Ok _ =>
      let* w := file_ask (FcWriteAll (header_encode header)) in
      match w with
      | Err e => done (Err (GeIo e))
      | Ok _ =>
          write_bodies (chunk_count (bh_segment_count header)) (bh_segment_count header)
      end
  end.

Definition fsync_parent_dir : file_act (result unit OsError) :=
  let* d := file_ask FcOpenParent in
  match d with
  | Err e => done (Err e)
  | Ok _ => file_ask FcFsyncParent
  end.

Definition cleanup_partial : file_act unit :=
  let* _ := file_ask FcUnlink in done tt.

Definition generate_book (segment_count : Z) (book_id : BookId) :
  file_act (result BookHeader GenerateError) :=
  if count_out_of_range segment_count then done (Err (GeBadSegmentCount segment_count)) else
  match header_new book_id segment_count with
  | Err _ => done (Err (GeBadSegmentCount segment_count))
  | Ok header =>
  let* o := file_ask FcCreate in
  match o with
  | Err OsExists => done (Err GePathExists)
  | Err e => done (Err (GeIo e))
  | Ok _ =>
  let* outcome :=
    let* r := write_book_body header in
    match r with
    | Err e => done (Err e)
    | Ok _ => let* s := file_ask FcFsync in done (map_err GeIo s)
    end in
  match outcome with
  | Ok _ =>
      let* p := fsync_parent_dir in
      match p with
      | Err e => let* _ := cleanup_partial in done (Err (GeIo e))
      | Ok _ => done (Ok header)
      end
  | Err e => let* _ := cleanup_partial in done (Err e)
  end
  end end.

(** ** Inspecting a book (inspect.rs) *)

Definition MAX_LISTED : nat := 16.

Record DuplicatePair := MkDup { dp_first : Z; dp_other : Z }.

#[global] Instance byte_countable : Countable byte.
Proof. apply (inj_countable' b2z z2b), z2b_b2z. Defined.

(** What the pass over the segments gathers. *)
Record Stats := MkStats {
  st_first_seen : gmap (list byte) Z;
  st_duplicates : list DuplicatePair;
  st_duplicate_count : Z;
  st_zero_segments : list Z;
  st_zero_count : Z;
  st_byte_freq : list Z;
  st_ones : Z;
}.

Definition stats_new : Stats := MkStats ∅ [] 0 [] 0 (replicate 256 0) 0.

(** [u8::count_ones]. *)
Definition count_ones (b : byte) : Z :=
  Z.of_nat (length (filter (fun i => Z.testbit (b2z b) (Z.of_nat i) = true) (seq 0 8))).

Definition list_capped {A} (l : list A) (x : A) : list A :=
  if (length l <? MAX_LISTED)%nat then l ++ [x] else l.

Definition count_byte (fo : list Z * Z) (b : byte) : list Z * Z :=
  let '(freq, ones) := fo in
  (alter (fun c => c + 1) (Z.to_nat (b2z b)) freq, ones + count_ones b).

Definition inspect_segment (a : Stats) (i : Z) (seg : list byte) : Stats :=
  let '(freq, ones) := foldl count_byte (st_byte_freq a, st_ones a) seg in
  let '(zeros, zero_count) :=
    if all_zero seg
    then (list_capped (st_zero_segments a) i, st_zero_count a + 1)
    else (st_zero_segments a, st_zero_count a) in
  let hash := sha256 seg in
  match st_first_seen a !! hash with
  | Some first =>
      MkStats (st_first_seen a) (list_capped (st_duplicates a) (MkDup first i))
        (st_duplicate_count a + 1) zeros zero_count freq ones
  | None =>
      MkStats (<[hash := i]> (st_first_seen a)) (st_duplicates a)
        (st_duplicate_count a) zeros zero_count freq ones
  end.

Fixpoint inspect_segments (n : nat) (i : Z) (a : Stats) :
  file_act (result Stats BookError) :=
  match n with
  | O => done (Ok a)
  | S n =>
      let* r := file_ask (FcReadExact (Z.to_nat SEGMENT_LEN)) in
      match r with
      | Err _ => done (Err BeIo)
      | Ok seg => inspect_segments n (i + 1) (inspect_segment a i seg)
      end
  end.

(** [f64]: binary64 with rounding to nearest, ties to even. *)
Notation f64_of z := (binary_normalize 53 1024 z 0 false).
Definition f64_div : spec_float -> spec_float -> spec_float := SFdiv 53 1024.
Definition f64_half : spec_float := f64_div (f64_of 1) (f64_of 2).
Definition ONES_RATIO_BAND : spec_float := f64_div (f64_of 2) (f64_of 100).

Definition ratio_in_band (r : spec_float) : bool :=
  SFleb (SFsub 53 1024 f64_half ONES_RATIO_BAND) r &&
  SFleb r (SFadd 53 1024 f64_half ONES_RATIO_BAND).

Inductive InspectWarning := WDuplicateSegments | WAllZeroSegments | WOnesRatio.

Record InspectReport := MkInspect {
  ir_header : BookHeader;
  ir_file_size : Z;
  ir_stats : Stats;
  ir_ones_ratio : spec_float;
  ir_warnings : list InspectWarning;
  ir_ok : bool;
}.

Definition report_of (header : BookHeader) (a : Stats) : InspectReport :=
  let total_bits := bh_segment_count header * 64 * 8 in
  let ratio := if total_bits =? 0 then f64_of 0
               else f64_div (f64_of (st_ones a)) (f64_of total_bits) in
  MkInspect header
    (sat_add_u64 (Z.of_nat HEADER_LEN)
       (Z.min U64_MAX (bh_segment_count header * SEGMENT_LEN)))
    a ratio
    ((if 0 <? st_duplicate_count a then [WDuplicateSegments] else []) ++
     (if 0 <? st_zero_count a then [WAllZeroSegments] else []) ++
     (if ratio_in_band ratio then [] else [WOnesRatio]))
    ((st_duplicate_count a =? 0) && (st_zero_count a =? 0)).

Definition inspect_book (fuel : nat) : file_act (result InspectReport BookError) :=
  let* r := open_validated fuel in
  match r with
  | Err e => done (Err e)
  | Ok header =>
  let* c := file_ask FcClone in
  match c with
  | Err _ => done (Err BeIo)
  | Ok _ =>
  let* hd := file_ask (FcReadExact HEADER_LEN) in
  match hd with
  | Err _ => done (Err BeIo)
  | Ok _ =>
  let* s := inspect_segments (Z.to_nat (bh_segment_count header)) 0 stats_new in
  done (result_map (report_of header) s)
  end end end.

End Book.
