(* ===== verification/BookSpec.v ===== *)
(** * BookSpec: books open as they were generated, and are read where asked

    The header format; a file as an automaton, and what the programs of Book do
    to it. *)

From stdpp Require Import gmap strings.
From Stdlib Require Import Strings.Byte Floats.SpecFloat.
From S2P Require Export Book.
From S2P Require Import SimDisk.

#[local] Open Scope list_scope.
#[local] Open Scope Z_scope.

(** ** The header *)

(** What the types of the fields guarantee. *)
Definition wf_header (h : BookHeader) : Prop :=
  is_u16 (bh_version h) /\ wf_book_id (bh_book_id h) /\ is_u32 (bh_segment_len h) /\
  is_u64 (bh_segment_count h).

Definition header_valid (h : BookHeader) : Prop :=
  bh_version h = BOOK_VERSION /\ bh_segment_len h = SEGMENT_LEN /\
  1 <= bh_segment_count h <= MAX_SEGMENT_COUNT.

Lemma count_in_range n : is_u64 n -> count_out_of_range n = false <-> 1 <= n <= MAX_SEGMENT_COUNT.
Proof.
  intros Hn. unfold count_out_of_range.
  rewrite orb_false_iff, Z.eqb_neq, Z.ltb_ge. ulia.
Qed.

Lemma header_validate_ok h :
  is_u64 (bh_segment_count h) -> header_validate h = Ok tt <-> header_valid h.
Proof.
  intros Hn. pose proof (count_in_range _ Hn) as Hc. unfold header_validate, header_valid.
  destruct (Z.eqb_spec (bh_version h) BOOK_VERSION); cbn [negb]; [|intuition congruence].
  destruct (Z.eqb_spec (bh_segment_len h) SEGMENT_LEN); cbn [negb]; [|intuition congruence].
  destruct (count_out_of_range _); intuition congruence.
Qed.

Lemma header_new_ok id n :
  is_u64 n -> 1 <= n <= MAX_SEGMENT_COUNT ->
  header_new id n = Ok (MkHeader BOOK_VERSION id SEGMENT_LEN n).
Proof.
  intros Hn Hr. unfold header_new.
  rewrite (proj2 (header_validate_ok (MkHeader BOOK_VERSION id SEGMENT_LEN n) Hn));
    [reflexivity | unfold header_valid; cbn; auto].
Qed.

Section Header.
Context `{Sha256}.

Lemma length_header_prefix h :
  wf_header h -> length (header_prefix h) = HASHED_PREFIX_LEN.
Proof.
  intros (_ & Hid & _). unfold header_prefix, wf_book_id, fixed in *.
  rewrite !length_app, !length_be_bytes, length_zeros, Hid. reflexivity.
Qed.

Lemma length_header_encode h : wf_header h -> length (header_encode h) = HEADER_LEN.
Proof.
  intros Hw. unfold header_encode.
  rewrite length_app, length_header_prefix, sha256_length by exact Hw. reflexivity.
Qed.

(** A buffer of the right length, cut at the offsets of the format. *)
Lemma header_split (bs : list byte) :
  length bs = HEADER_LEN ->
  exists mg v l c id z d,
    bs = (mg ++ v ++ l ++ c ++ id ++ z) ++ d /\
    length mg = 4%nat /\ length v = 2%nat /\ length l = 4%nat /\ length c = 8%nat /\
    length id = 16%nat /\ length z = 62%nat /\ length d = 32%nat.
Proof.
  unfold HEADER_LEN. intros Hl.
  destruct (take_drop_split 4 bs) as (mg & r0 & -> & ? & _); [lia|].
  rewrite length_app in Hl.
  destruct (take_drop_split 2 r0) as (v & r1 & -> & ? & _); [lia|].
  rewrite length_app in Hl.
  destruct (take_drop_split 4 r1) as (l & r2 & -> & ? & _); [lia|].
  rewrite length_app in Hl.
  destruct (take_drop_split 8 r2) as (c & r3 & -> & ? & _); [lia|].
  rewrite length_app in Hl.
  destruct (take_drop_split 16 r3) as (id & r4 & -> & ? & _); [lia|].
  rewrite length_app in Hl.
  destruct (take_drop_split 62 r4) as (z & d & -> & ? & _); [lia|].
  rewrite length_app in Hl.
  exists mg, v, l, c, id, z, d. rewrite <- !app_assoc. split_and!; (reflexivity || lia).
Qed.

(** [header_decode] of a buffer cut at the offsets. *)
Lemma header_decode_split mg v l c id z d :
  length mg = 4%nat -> length v = 2%nat -> length l = 4%nat -> length c = 8%nat ->
  length id = 16%nat -> length z = 62%nat -> length d = 32%nat ->
  header_decode ((mg ++ v ++ l ++ c ++ id ++ z) ++ d) =
    if negb (bool_decide (mg = BOOK_MAGIC)) then Err "magic"%string else
    if negb (be_val v =? BOOK_VERSION) then Err "unsupported-version"%string else
    if negb (be_val l =? SEGMENT_LEN) then Err "segment-len-not-64"%string else
    if count_out_of_range (be_val c) then Err "segment-count-out-of-range"%string else
    if negb (bool_decide (z = zeros RESERVED_LEN)) then Err "reserved-not-zero"%string else
    if negb (bool_decide (d = sha256 (mg ++ v ++ l ++ c ++ id ++ z)))
    then Err "header-hash-mismatch"%string else
    Ok (MkHeader (be_val v) id (be_val l) (be_val c)).
Proof.
  intros Hm Hv Hl Hc Hi Hz Hd. unfold header_decode.
  assert (Hp : length (mg ++ v ++ l ++ c ++ id ++ z) = HASHED_PREFIX_LEN)
    by (rewrite !length_app, Hm, Hv, Hl, Hc, Hi, Hz; reflexivity).
  rewrite length_app, Hp, Hd.
  change (negb (HASHED_PREFIX_LEN + 32 =? HEADER_LEN)%nat) with false. cbv iota.
  assert (Hpre : take HASHED_PREFIX_LEN ((mg ++ v ++ l ++ c ++ id ++ z) ++ d) =
    mg ++ v ++ l ++ c ++ id ++ z) by (rewrite <- Hp; apply take_app_length).
  assert (Hdig : drop HASHED_PREFIX_LEN ((mg ++ v ++ l ++ c ++ id ++ z) ++ d) = d)
    by (rewrite <- Hp; apply drop_app_length).
  rewrite Hpre, Hdig.
  unfold HASHED_PREFIX_LEN. rewrite <- !app_assoc.
  slices. reflexivity.
Qed.

(** A buffer is accepted as a book header exactly when it is the encoding of a
    header that is valid: the supported version, 64-byte segments and a segment
    count from 1 to 2^40-1, with zero reserved bytes and the right hash. *)
Theorem header_decode_iff bs h :
  header_decode bs = Ok h <-> wf_header h /\ header_valid h /\ bs = header_encode h.
Proof.
  split.
  - intros E. assert (Hl : length bs = HEADER_LEN).
    { unfold header_decode in E. destruct (Nat.eqb_spec (length bs) HEADER_LEN); auto.
      discriminate. }
    destruct (header_split bs Hl) as (mg & v & l & c & id & z & d & -> & Hm & Hv & Hsl & Hc & Hi & Hz & Hd).
    rewrite header_decode_split in E by assumption.
    pose proof (count_in_range (be_val c) ltac:(auto using be_val_u64)) as Hr.
    destruct (bool_decide_reflect (mg = BOOK_MAGIC)) as [->|]; [|discriminate].
    destruct (Z.eqb_spec (be_val v) BOOK_VERSION) as [Ev|]; [|discriminate].
    destruct (Z.eqb_spec (be_val l) SEGMENT_LEN) as [El|]; [|discriminate].
    destruct (count_out_of_range (be_val c)); [discriminate|].
    destruct (bool_decide_reflect (z = zeros RESERVED_LEN)) as [->|]; [|discriminate].
    match type of E with context [bool_decide (d = ?x)] =>
      destruct (bool_decide_reflect (d = x)) as [->|] end; [|discriminate].
    cbn [negb] in E. apply ok_inj in E as <-.
    split; [unfold wf_header; cbn; split_and!; auto using be_val_u16, be_val_u32, be_val_u64|].
    split; [unfold header_valid; cbn; split_and!; [auto | auto | apply Hr, eq_refl..]|].
    unfold header_encode, header_prefix.
    cbn [bh_version bh_segment_len bh_segment_count bh_book_id].
    rewrite !be_bytes_be_val by auto. reflexivity.
  - intros (Hw & (Hver & Hlen & Hcnt) & ->). pose proof Hw as (H1 & H2 & H3 & H4).
    unfold header_encode. unfold header_prefix at 1.
    rewrite header_decode_split; rewrite ?length_be_bytes, ?length_zeros, ?sha256_length; auto.
    rewrite !bool_decide_eq_true_2 by reflexivity.
    rewrite u16_be_val, u32_be_val, u64_be_val by assumption.
    rewrite (proj2 (count_in_range _ H4)) by exact Hcnt.
    rewrite Hver, Hlen. cbn. rewrite <- Hver at 1. destruct h; cbn in *; congruence.
Qed.

End Header.

(** ** A file

    One path: its bytes (if it exists), the position of the open descriptor,
    what is durable, the signals that can still interrupt a call, the reads made,
    the random bytes drawn and the calls that failed. *)
Record FileSt := MkFile {
  fl_content : option (list byte);
  fl_regular : bool;
  fl_pos : nat;
  fl_synced : bool;
  fl_linked : bool;
  fl_signals : nat;
  fl_reads : list (Z * Z);
  fl_random : list byte;
  fl_errors : list FileCall;
}.

Definition fl_at (m : FileSt) (p : nat) : FileSt :=
  MkFile (fl_content m) (fl_regular m) p (fl_synced m) (fl_linked m) (fl_signals m)
    (fl_reads m) (fl_random m) (fl_errors m).
Definition fl_fail (m : FileSt) (c : FileCall) : FileSt :=
  MkFile (fl_content m) (fl_regular m) (fl_pos m) (fl_synced m) (fl_linked m)
    (fl_signals m) (fl_reads m) (fl_random m) (fl_errors m ++ [c]).
Definition fl_interrupt (m : FileSt) : FileSt :=
  MkFile (fl_content m) (fl_regular m) (fl_pos m) (fl_synced m) (fl_linked m)
    (pred (fl_signals m)) (fl_reads m) (fl_random m) (fl_errors m).
Definition fl_read (m : FileSt) (from to : Z) : FileSt :=
  MkFile (fl_content m) (fl_regular m) (fl_pos m) (fl_synced m) (fl_linked m)
    (fl_signals m) (fl_reads m ++ [(from, to)]) (fl_random m) (fl_errors m).
Definition fl_put (m : FileSt) (bs : list byte) : FileSt :=
  MkFile (Some bs) (fl_regular m) (fl_pos m) false (fl_linked m) (fl_signals m)
    (fl_reads m) (fl_random m) (fl_errors m).
Definition fl_create (m : FileSt) : FileSt :=
  MkFile (Some []) true 0 false false (fl_signals m) (fl_reads m) (fl_random m)
    (fl_errors m).
Definition fl_draw (m : FileSt) (bs : list byte) : FileSt :=
  MkFile (fl_content m) (fl_regular m) (fl_pos m) (fl_synced m) (fl_linked m)
    (fl_signals m) (fl_reads m) (fl_random m ++ bs) (fl_errors m).
Definition fl_sync (m : FileSt) : FileSt :=
  MkFile (fl_content m) (fl_regular m) (fl_pos m) true (fl_linked m) (fl_signals m)
    (fl_reads m) (fl_random m) (fl_errors m).
Definition fl_link (m : FileSt) : FileSt :=
  MkFile (fl_content m) (fl_regular m) (fl_pos m) (fl_synced m) true (fl_signals m)
    (fl_reads m) (fl_random m) (fl_errors m).
Definition fl_unlink (m : FileSt) : FileSt :=
  MkFile None (fl_regular m) (fl_pos m) (fl_synced m) (fl_linked m) (fl_signals m)
    (fl_reads m) (fl_random m) (fl_errors m).

(** A call that says only whether it succeeded, with its effect [f]. *)
Definition effect (c : FileCall) (m : FileSt) (f : FileSt -> FileSt)
  (a : result unit OsError) (m' : FileSt) : Prop :=
  m' = match a with Ok _ => f m | Err _ => fl_fail m c end.

Definition file_step (m : FileSt) (c : FileCall) : file_answer c -> FileSt -> Prop :=
  match c return file_answer c -> FileSt -> Prop with
  | FcOpen => fun a m' =>
      match a with
      | Err OsNotFound => fl_content m = None /\ m' = m
      | Ok _ => fl_content m <> None /\ m' = fl_at m 0
      | Err _ => m' = fl_fail m FcOpen
      end
  | FcStat => fun a m' =>
      match a with
      | Ok (regular, size) =>
          exists f, fl_content m = Some f /\ regular = fl_regular m /\
            (regular = true -> size = Z.of_nat (length f)) /\ m' = m
      | Err _ => m' = fl_fail m FcStat
      end
  | FcPread n offset => fun a m' =>
      match a with
      | Ok bs =>
          exists f, fl_content m = Some f /\
            let rest := take n (drop (Z.to_nat offset) f) in
            bs `prefix_of` rest /\ (bs = [] -> rest = []) /\
            m' = fl_read m offset (offset + Z.of_nat n)
      | Err OsInterrupted => (0 < fl_signals m)%nat /\ m' = fl_interrupt m
      | Err _ => m' = fl_fail m (FcPread n offset)
      end
  | FcReadExact n => fun a m' =>
      match a with
      | Ok bs =>
          exists f, fl_content m = Some f /\ (fl_pos m + n <= length f)%nat /\
            bs = take n (drop (fl_pos m) f) /\ m' = fl_at m (fl_pos m + n)
      | Err _ => m' = fl_fail m (FcReadExact n)
      end
  | FcCreate => fun a m' =>
      match a with
      | Ok _ => fl_content m = None /\ m' = fl_create m
      | Err OsExists => fl_content m <> None /\ m' = m
      | Err _ => m' = fl_fail m FcCreate
      end
  | FcWriteAll bs => fun a m' =>
      match fl_content m, a with
      | Some f, Ok _ => m' = fl_put m (f ++ bs)
      | Some f, Err _ => exists k, m' = fl_fail (fl_put m (f ++ take k bs)) (FcWriteAll bs)
      | None, _ => m' = m
      end
  | FcRandom n => fun a m' =>
      match a with
      | Ok bs => length bs = n /\ m' = fl_draw m bs
      | Err _ => m' = fl_fail m (FcRandom n)
      end
  | FcClone => effect FcClone m id
  | FcOpenParent => effect FcOpenParent m id
  | FcFsync => effect FcFsync m fl_sync
  | FcFsyncParent => effect FcFsyncParent m fl_link
  | FcUnlink => effect FcUnlink m fl_unlink
  end.

Notation fmeets F p m Q := (act_meets file_step F p m Q).

(** ** What opening and reading should give *)

Section Reads.
Context `{Sha256}.

Definition check_book (m : FileSt) : result BookHeader BookError :=
  match fl_content m with
  | None => Err BeNotFound
  | Some f =>
      if negb (fl_regular m) then Err (BeInvalidHeader "not-a-regular-file") else
      if (length f <? HEADER_LEN)%nat then Err (BeInvalidHeader "header-length") else
      let? h := map_err BeInvalidHeader (header_decode (take HEADER_LEN f)) in
      if Z.of_nat (length f) =? SEGMENT_AREA_OFFSET + bh_segment_count h * SEGMENT_LEN
      then Ok h else Err (BeInvalidHeader "file-size-mismatch")
  end.

(** Segment [i] of the bytes of a book. *)
Definition segment_at (f : list byte) (i : Z) : list byte :=
  let from := Z.to_nat (SEGMENT_AREA_OFFSET + i * SEGMENT_LEN) in
  slice from (from + 64) f.

Definition check_read (m : FileSt) (index : Z) : result (list byte) BookError :=
  let? h := check_book m in
  match fl_content m with
  | Some f =>
      if bh_segment_count h <=? index
      then Err (BeSegmentOutOfRange index (bh_segment_count h))
      else Ok (segment_at f index)
  | None => Err BeNotFound
  end.

(** [m'] is [m] after reads from [lo] to [hi]. *)
Definition read_within (lo hi : Z) (m m' : FileSt) : Prop :=
  exists l k, Forall (fun r => lo <= r.1 /\ r.2 <= hi) l /\ (k <= fl_signals m)%nat /\
    m' = MkFile (fl_content m) (fl_regular m) (fl_pos m) (fl_synced m) (fl_linked m)
           k (fl_reads m ++ l) (fl_random m) (fl_errors m).

Lemma read_within_refl lo hi m : read_within lo hi m m.
Proof.
  exists [], (fl_signals m). rewrite app_nil_r. split; [constructor|]. split; [lia|].
  destruct m; reflexivity.
Qed.

Lemma read_within_trans lo hi m m1 m2 :
  read_within lo hi m m1 -> read_within lo hi m1 m2 -> read_within lo hi m m2.
Proof.
  intros (l1 & k1 & H1 & Hk1 & ->) (l2 & k2 & H2 & Hk2 & ->). cbn in *.
  exists (l1 ++ l2), k2. rewrite app_assoc. split; [apply List.Forall_app; auto|].
  split; [lia | reflexivity].
Qed.

Lemma read_within_one lo hi m from to :
  lo <= from -> to <= hi -> read_within lo hi m (fl_read m from to).
Proof.
  intros Hf Ht. exists [(from, to)], (fl_signals m). split; [repeat constructor; auto|].
  split; [lia | reflexivity].
Qed.

Lemma read_within_interrupt lo hi m : read_within lo hi m (fl_interrupt m).
Proof.
  exists [], (pred (fl_signals m)). rewrite app_nil_r.
  split; [constructor|]. split; [lia | reflexivity].
Qed.

(** What was read so far is extended by what a further read returned. *)
Lemma read_extends (f got bs : list byte) off n :
  (length got <= n)%nat -> got = take (length got) (drop off f) ->
  bs `prefix_of` take (n - length got) (drop (off + length got) f) ->
  got ++ bs = take (length (got ++ bs)) (drop off f).
Proof.
  intros Hn Hgot Hpre. pose proof (prefix_length _ _ Hpre) as Hl.
  rewrite length_take in Hl. destruct Hpre as [k Hk]. rewrite length_app.
  rewrite <- take_take_drop, drop_drop, <- Hgot. f_equal.
  apply (f_equal (take (length bs))) in Hk. rewrite take_take, take_app_length in Hk.
  replace (length bs `min` (n - length got))%nat with (length bs) in Hk by lia.
  symmetry. exact Hk.
Qed.

(** [pread_exact] of a range of the file: it returns the range, or fails after a
    call that failed; interrupted calls are made again. *)
Lemma pread_exact_meets f off n fuel : forall got m Q,
  fl_content m = Some f -> (off + n <= length f)%nat -> (length got <= n)%nat ->
  got = take (length got) (drop off f) -> Z.of_nat (length f) <= U64_MAX ->
  (n - length got + fl_signals m <= fuel)%nat ->
  (forall m', read_within (Z.of_nat off) (Z.of_nat (off + n)) m m' ->
     Q (Ok (slice off (off + n) f)) m') ->
  (forall m' c, read_within (Z.of_nat off) (Z.of_nat (off + n)) m m' ->
     Q (Err BeIo) (fl_fail m' c)) ->
  fmeets False (pread_exact fuel n got (Z.of_nat (off + length got))) m Q.
Proof.
  assert (Hend : forall got m (Q : result (list byte) BookError -> FileSt -> Prop),
    (n <= length got)%nat -> (length got <= n)%nat -> got = take (length got) (drop off f) ->
    Q (Ok (slice off (off + n) f)) m -> Q (Ok got) m).
  { intros got m Q H1 H2 Hg HQ. replace (length got) with n in Hg by lia.
    rewrite Hg. unfold slice in HQ. replace (off + n - off)%nat with n in HQ by lia.
    exact HQ. }
  induction fuel as [|fuel IH]; intros got m Q Hf Hin Hgn Hgot Hu Hfuel HQ Herr;
    cbn [pread_exact]; destruct (Nat.leb_spec n (length got)).
  1, 3: apply act_meets_done, Hend; auto using read_within_refl.
  { lia. }
  apply act_meets_bind, act_meets_ask. intros a m' Hs. cbn in Hs.
  destruct a as [bs|e].
  - destruct Hs as (f' & Hf' & Hpre & Hne & ->). replace f' with f in * by congruence.
    rewrite Nat2Z.id in Hpre, Hne.
    assert (Hrest : length (take (n - length got) (drop (off + length got) f)) =
      (n - length got)%nat) by (rewrite length_take, length_drop; lia).
    destruct bs as [|b bs].
    { rewrite (Hne eq_refl) in Hrest. cbn in Hrest. lia. }
    set (bs' := b :: bs) in *. pose proof (prefix_length _ _ Hpre) as Hlb.
    rewrite Hrest in Hlb.
    assert (Hpos : (0 < length bs')%nat) by (cbn; lia).
    replace (sat_add_u64 (Z.of_nat (off + length got)) (Z.of_nat (length bs')))
      with (Z.of_nat (off + length (got ++ bs')))
      by (unfold sat_add_u64; rewrite length_app; lia).
    assert (Hw : read_within (Z.of_nat off) (Z.of_nat (off + n)) m
      (fl_read m (Z.of_nat (off + length got))
         (Z.of_nat (off + length got) + Z.of_nat (n - length got))))
      by (apply read_within_one; lia).
    apply IH; auto; try (rewrite length_app; lia).
    + eapply read_extends; eauto.
    + rewrite length_app. cbn [fl_signals fl_read]. lia.
    + intros m' Hm'. apply HQ. eapply read_within_trans; eauto.
    + intros m' c Hm'. apply Herr. eapply read_within_trans; eauto.
  - destruct e.
    3: { destruct Hs as [Hsig ->].
      pose proof (read_within_interrupt (Z.of_nat off) (Z.of_nat (off + n)) m) as Hw.
      apply IH; auto.
      + cbn. lia.
      + intros m' Hm'. apply HQ. eapply read_within_trans; eauto.
      + intros m' c Hm'. apply Herr. eapply read_within_trans; eauto. }
    all: subst m'; apply act_meets_done, Herr, read_within_refl.
Qed.

(** A read that is not enough leaves the state but for reads and signals. *)
Lemma read_within_same lo hi m m' :
  read_within lo hi m m' -> check_book m' = check_book m /\
  fl_content m' = fl_content m /\ fl_errors m' = fl_errors m /\
  (fl_signals m' <= fl_signals m)%nat.
Proof. intros (l & k & _ & Hk & ->). cbn. auto. Qed.

Lemma read_within_reads lo hi m m' :
  read_within lo hi m m' ->
  exists l, fl_reads m' = fl_reads m ++ l /\ Forall (fun r => lo <= r.1 /\ r.2 <= hi) l.
Proof. intros (l & k & Hl & _ & ->). exists l. auto. Qed.

(** [open_validated]: the check of the file's bytes, having read the header and
    nothing else, or an error after a call that failed. *)
Lemma open_validated_meets fuel m Q :
  (HEADER_LEN + fl_signals m <= fuel)%nat ->
  (forall f, fl_content m = Some f -> Z.of_nat (length f) <= U64_MAX) ->
  (forall m', read_within 0 (Z.of_nat HEADER_LEN) (fl_at m 0) m' \/ m' = m ->
     (is_ok (check_book m) = true -> fl_pos m' = O) -> Q (check_book m) m') ->
  (forall m' c, read_within 0 (Z.of_nat HEADER_LEN) (fl_at m 0) m' \/ m' = m ->
     Q (Err BeIo) (fl_fail m' c)) ->
  fmeets False (open_validated fuel) m Q.
Proof.
  intros Hfuel Hu HQ Herr. unfold open_validated.
  apply act_meets_bind, act_meets_ask. intros o m1 Ho. cbn in Ho.
  destruct o as [_u|e].
  2: { apply act_meets_done. destruct e; try (subst m1; apply Herr; auto).
    destruct Ho as [Hc ->]. cbn [map_open_err].
    replace (Err BeNotFound) with (check_book m) by (unfold check_book; rewrite Hc; reflexivity).
    apply HQ; [auto|]. unfold check_book. rewrite Hc. discriminate. }
  destruct Ho as [Hc ->].
  assert (Hr0 : read_within 0 (Z.of_nat HEADER_LEN) (fl_at m 0) (fl_at m 0))
    by apply read_within_refl.
  apply act_meets_bind, act_meets_ask. intros a m1 Ha. cbn in Ha.
  destruct a as [[regular size]|e]; [|subst m1; apply act_meets_done, Herr; auto].
  destruct Ha as (f & Hf & -> & Hsize & ->). pose proof (Hu f Hf) as Huf.
  assert (Hcb : forall r, check_book m = r ->
    forall m', read_within 0 (Z.of_nat HEADER_LEN) (fl_at m 0) m' ->
    fmeets False (done r) m' Q).
  { intros r <- m' Hm'. apply act_meets_done, HQ; [auto|]. intros _.
    destruct Hm' as (l & k & _ & _ & ->). reflexivity. }
  unfold check_book in Hcb. rewrite Hf in Hcb.
  destruct (fl_regular m) eqn:Hreg; cbn [negb] in *; [|apply Hcb; auto].
  rewrite (Hsize eq_refl).
  destruct (Nat.ltb_spec (length f) HEADER_LEN) as [Hl|Hl].
  { rewrite (proj2 (Z.ltb_lt _ _)) by lia. apply Hcb; auto. }
  rewrite (proj2 (Z.ltb_ge _ _)) by lia.
  apply act_meets_bind.
  apply (pread_exact_meets f 0 HEADER_LEN fuel [] (fl_at m 0)); auto; cbn [length].
  - lia.
  - intros m' Hm'. change (slice 0 (0 + HEADER_LEN) f) with (take HEADER_LEN f).
    apply Hcb; [|exact Hm'].
    destruct (header_decode (take HEADER_LEN f)) as [h|e] eqn:Ed; [|reflexivity].
    cbn [map_err result_bind]. apply header_decode_iff in Ed as (_ & (_ & _ & Hn) & _).
    unfold expected_file_size, checked_mul_u64, checked_add_u64, MAX_SEGMENT_COUNT,
      SEGMENT_AREA_OFFSET, SEGMENT_LEN in *.
    rewrite (proj2 (Z.leb_le _ _)) by ulia. rewrite (proj2 (Z.leb_le _ _)) by ulia.
    reflexivity.
  - intros m' c Hm'. apply act_meets_done, Herr. auto.
Qed.

Lemma check_book_ok m h f :
  fl_content m = Some f -> check_book m = Ok h ->
  wf_header h /\ header_valid h /\ exists body, f = header_encode h ++ body /\
    Z.of_nat (length body) = bh_segment_count h * SEGMENT_LEN.
Proof.
  intros Hf. unfold check_book. rewrite Hf.
  destruct (fl_regular m); [|discriminate]. cbn [negb].
  destruct (Nat.ltb_spec (length f) HEADER_LEN) as [|Hl]; [discriminate|].
  destruct (header_decode (take HEADER_LEN f)) as [h'|e] eqn:Ed; [|discriminate].
  cbn [map_err result_bind].
  destruct (Z.eqb_spec (Z.of_nat (length f))
    (SEGMENT_AREA_OFFSET + bh_segment_count h' * SEGMENT_LEN)) as [Es|]; [|discriminate].
  intros E. apply ok_inj in E as ->. apply header_decode_iff in Ed as (Hw & Hv & Ht).
  split; [exact Hw|]. split; [exact Hv|]. exists (drop HEADER_LEN f).
  rewrite <- Ht, take_drop, length_drop. split; [reflexivity|].
  unfold SEGMENT_AREA_OFFSET, HEADER_LEN in *. lia.
Qed.

(** [read_segment] of an opened book. *)
Lemma read_segment_meets fuel m f h index Q :
  fl_content m = Some f -> check_book m = Ok h -> 0 <= index ->
  Z.of_nat (length f) <= U64_MAX -> (64 + fl_signals m <= fuel)%nat ->
  let from := SEGMENT_AREA_OFFSET + index * SEGMENT_LEN in
  (forall m', read_within from (from + SEGMENT_LEN) m m' -> Q (check_read m index) m') ->
  (forall m' c, read_within from (from + SEGMENT_LEN) m m' -> Q (Err BeIo) (fl_fail m' c)) ->
  fmeets False (read_segment fuel h index) m Q.
Proof.
  intros Hf Hc Hi Hu Hfuel from HQ Herr. unfold read_segment, segment_offset.
  destruct (check_book_ok m h f Hf Hc) as (Hw & (Hv1 & Hv2 & Hn) & body & Eb & Hlb).
  unfold check_read in HQ. rewrite Hc, Hf in HQ. cbn [result_bind] in HQ.
  destruct (Z.leb_spec (bh_segment_count h) index).
  { apply act_meets_done, HQ, read_within_refl. }
  assert (Hlen : length f = (HEADER_LEN + length body)%nat)
    by (rewrite Eb, length_app, length_header_encode by exact Hw; reflexivity).
  unfold checked_mul_u64, checked_add_u64, MAX_SEGMENT_COUNT, SEGMENT_AREA_OFFSET,
    SEGMENT_LEN, HEADER_LEN in *.
  rewrite (proj2 (Z.leb_le _ _)) by ulia. rewrite (proj2 (Z.leb_le _ _)) by ulia.
  set (off := Z.to_nat (128 + index * 64)).
  assert (Hoff : 128 + index * 64 = Z.of_nat off) by lia.
  assert (Hend : from + 64 = Z.of_nat (off + 64)) by lia.
  replace (128 + index * 64) with (Z.of_nat (off + length (@nil byte))) by (cbn; lia).
  subst from. rewrite Hoff in HQ, Herr. rewrite Hoff in Hend. rewrite Hend in HQ, Herr.
  apply (pread_exact_meets f off (Z.to_nat 64)); auto; cbn [length]; lia.
Qed.

(** The ranges the reads of a segment may cover. *)
Definition in_header (r : Z * Z) : Prop := 0 <= r.1 /\ r.2 <= Z.of_nat HEADER_LEN.

Definition asked (index : Z) (r : Z * Z) : Prop :=
  in_header r \/
  SEGMENT_AREA_OFFSET + index * SEGMENT_LEN <= r.1 /\
  r.2 <= SEGMENT_AREA_OFFSET + (index + 1) * SEGMENT_LEN.

Lemma header_asked index l : Forall in_header l -> Forall (asked index) l.
Proof. apply List.Forall_impl. intros r Hr. left. exact Hr. Qed.

Lemma opened_same m m' :
  read_within 0 (Z.of_nat HEADER_LEN) (fl_at m 0) m' \/ m' = m ->
  check_book m' = check_book m /\ fl_content m' = fl_content m /\
  fl_errors m' = fl_errors m /\ (fl_signals m' <= fl_signals m)%nat /\
  exists l, fl_reads m' = fl_reads m ++ l /\ Forall in_header l.
Proof.
  intros [(l & k & Hl & Hk & ->)| ->]; cbn in *.
  - split_and!; auto. exists l. split; [reflexivity | exact Hl].
  - split_and!; auto. exists []. rewrite app_nil_r. auto.
Qed.

Lemma read_within_asked index m m' :
  Forall in_header (fl_reads m) ->
  read_within (SEGMENT_AREA_OFFSET + index * SEGMENT_LEN)
    (SEGMENT_AREA_OFFSET + index * SEGMENT_LEN + SEGMENT_LEN) m m' ->
  fl_content m' = fl_content m /\ fl_errors m' = fl_errors m /\
  Forall (asked index) (fl_reads m').
Proof.
  intros Hh (l & k & Hl & Hk & ->). cbn. split_and!; auto.
  apply List.Forall_app. split; [apply header_asked, Hh|]. revert Hl.
  apply List.Forall_impl. intros r [H1 H2]. right. split; [exact H1 | lia].
Qed.

Lemma app_one_neq {A} (l : list A) x : l ++ [x] <> l.
Proof. intros E. apply (f_equal length) in E. rewrite length_app in E. cbn in E. lia. Qed.

(** A book is read where it is asked to be and nowhere else.  On a file that
    other programs leave alone, opening a book and reading one segment gives what
    the file's bytes say - the header checked for type, length, format and size,
    the index against the count, exactly the 64 bytes of that segment - or an
    error after a call of the operating system failed; whatever partial reads and
    interruptions there are.  Opening reads bytes of the header only, reading a
    segment bytes of that segment only, and both return. *)
Theorem book_reads fuel index m t o m' :
  0 <= index -> (HEADER_LEN + fl_signals m <= fuel)%nat -> fl_reads m = [] ->
  (forall f, fl_content m = Some f -> Z.of_nat (length f) <= U64_MAX) ->
  runs (let* r := book_open fuel in
        match r with
        | Err e => done (Err e)
        | Ok h => read_segment fuel h index
        end) t o ->
  path file_step m t m' ->
  exists r, o = Done r /\
    (r = check_read m index \/ r = Err BeIo /\ fl_errors m' <> fl_errors m) /\
    fl_content m' = fl_content m /\
    Forall (asked index) (fl_reads m').
Proof.
  intros Hi Hfuel Hr0 Hu Hrun Hp.
  set (Post := fun (r : result (list byte) BookError) (m' : FileSt) =>
    (r = check_read m index \/ r = Err BeIo /\ fl_errors m' <> fl_errors m) /\
    fl_content m' = fl_content m /\ Forall (asked index) (fl_reads m')).
  assert (Hm : fmeets False (let* r := book_open fuel in
    match r with Err e => done (Err e) | Ok h => read_segment fuel h index end) m Post).
  2: { pose proof (meets_runs _ _ _ _ _ _ _ Hm Hrun Hp) as Ho.
    destruct o as [r| |]; [|destruct Ho..]. exists r. split; [reflexivity | exact Ho]. }
  apply act_meets_bind, open_validated_meets; [exact Hfuel | exact Hu | |].
  - intros m1 Hm1 _. apply opened_same in Hm1 as (Hc1 & Hf1 & He1 & Hs1 & l1 & Hl1 & Hh1).
    rewrite Hr0 in Hl1. cbn in Hl1. subst l1.
    assert (Hread : check_read m index = let? _ := check_book m in check_read m1 index)
      by (unfold check_read; rewrite Hc1, Hf1; destruct (check_book m); reflexivity).
    destruct (check_book m) as [h|e] eqn:Ec.
    + assert (exists f, fl_content m = Some f) as [f Hf].
      { unfold check_book in Ec. destruct (fl_content m); [eauto | discriminate]. }
      eapply read_segment_meets; eauto; [congruence | unfold HEADER_LEN in *; lia | |];
        cbn [result_bind] in Hread.
      * intros m2 Hm2. apply read_within_asked in Hm2 as (E1 & E2 & E3); [|exact Hh1].
        split; [left; congruence|]. split; [congruence | exact E3].
      * intros m2 c Hm2. apply read_within_asked in Hm2 as (E1 & E2 & E3); [|exact Hh1].
        split; [right; cbn; rewrite E2, He1; split; [reflexivity | apply app_one_neq]|].
        cbn. split; [congruence | exact E3].
    + apply act_meets_done. split; [left; exact (eq_sym Hread)|].
      split; [exact Hf1 | apply header_asked, Hh1].
  - intros m1 c Hm1. apply opened_same in Hm1 as (Hc1 & Hf1 & He1 & Hs1 & l1 & Hl1 & Hh1).
    rewrite Hr0 in Hl1. cbn in Hl1. subst l1. apply act_meets_done.
    split; [right; cbn; rewrite He1; split; [reflexivity | apply app_one_neq]|].
    cbn. split; [exact Hf1 | apply header_asked, Hh1].
Qed.

End Reads.

(** ** Generating *)

Section Generate.
Context `{Sha256}.

Lemma check_book_intro m h body :
  fl_content m = Some (header_encode h ++ body) -> fl_regular m = true ->
  wf_header h -> header_valid h ->
  Z.of_nat (length body) = bh_segment_count h * SEGMENT_LEN -> check_book m = Ok h.
Proof.
  intros Hf Hr Hw Hv Hl. unfold check_book. rewrite Hf, Hr. cbn [negb].
  pose proof (length_header_encode h Hw) as Hh.
  rewrite length_app, Hh, (proj2 (Nat.ltb_ge _ _)) by lia.
  rewrite <- Hh at 1. rewrite take_app_length.
  rewrite (proj2 (header_decode_iff _ h)) by auto. cbn [map_err result_bind].
  unfold SEGMENT_AREA_OFFSET, HEADER_LEN.
  rewrite (proj2 (Z.eqb_eq _ _)) by lia. reflexivity.
Qed.

(** [m'] is [m] after [body] was drawn and appended. *)
Definition appended (m : FileSt) (body : list byte) (m' : FileSt) : Prop :=
  exists f, fl_content m = Some f /\ fl_content m' = Some (f ++ body) /\
    fl_random m' = fl_random m ++ body /\ fl_regular m' = fl_regular m /\
    fl_errors m' = fl_errors m.

(** A half-written file after a call that failed. *)
Definition spoiled (m : FileSt) : Prop := fl_content m <> None /\ fl_errors m <> [].

Lemma spoil_intro m c : fl_content m <> None -> spoiled (fl_fail m c).
Proof. intros Hc. split; [exact Hc|]. cbn. destruct (fl_errors m); discriminate. Qed.

Lemma write_bodies_meets fuel : forall remaining m Q,
  remaining <= SEGMENTS_PER_CHUNK * Z.of_nat fuel -> fl_content m <> None ->
  (forall body m', appended m body m' ->
     Z.of_nat (length body) = Z.max 0 remaining * 64 -> Q (Ok tt) m') ->
  (forall e m', e <> GePathExists -> (forall n, e <> GeBadSegmentCount n) ->
     spoiled m' -> Q (Err e) m') ->
  fmeets False (write_bodies fuel remaining) m Q.
Proof.
  induction fuel as [|fuel IH]; intros remaining m Q Hfuel Hc HQ Herr; cbn [write_bodies];
    destruct (Z.leb_spec remaining 0).
  1, 3: apply act_meets_done, (HQ []); [|cbn; lia];
    destruct (fl_content m) as [f|] eqn:Hf; [|congruence];
    exists f; rewrite !app_nil_r; auto.
  { lia. }
  apply act_meets_bind, act_meets_ask. intros a m1 Ha. cbn in Ha.
  destruct a as [bytes|e].
  2: { subst m1. apply act_meets_done, Herr; [discriminate..|]. apply spoil_intro, Hc. }
  destruct Ha as [Hlb ->].
  apply act_meets_bind, act_meets_ask. intros a m2 Ha. cbn in Ha.
  destruct (fl_content m) as [f|] eqn:Hf; [|congruence].
  destruct a as [_u|e].
  2: { destruct Ha as [k ->]. apply act_meets_done, Herr; [discriminate..|].
    apply spoil_intro. discriminate. }
  subst m2. apply IH.
  - unfold SEGMENTS_PER_CHUNK in *. lia.
  - discriminate.
  - intros body m' (f' & Hf' & Hc' & Hr' & Hg' & He') Hl. cbn in Hf', Hr', Hg', He'.
    injection Hf' as <-. apply (HQ (bytes ++ body)).
    + exists f. rewrite !app_assoc. auto.
    + rewrite length_app, Hlb. unfold SEGMENTS_PER_CHUNK in *. lia.
  - exact Herr.
Qed.

Lemma chunk_count_enough n :
  0 <= n -> n <= SEGMENTS_PER_CHUNK * Z.of_nat (chunk_count n).
Proof.
  intros Hn. unfold chunk_count, SEGMENTS_PER_CHUNK.
  pose proof (Z.div_mod (n + (1024 - 1)) 1024 ltac:(lia)).
  pose proof (Z.mod_pos_bound (n + (1024 - 1)) 1024 ltac:(lia)).
  rewrite Z2Nat.id by lia. lia.
Qed.

Lemma write_book_body_meets h m Q :
  fl_content m = Some [] -> 0 <= bh_segment_count h ->
  (forall body m', fl_content m' = Some (header_encode h ++ body) ->
     Z.of_nat (length body) = bh_segment_count h * 64 ->
     fl_random m' = fl_random m ++ body -> fl_regular m' = fl_regular m ->
     fl_errors m' = fl_errors m -> Q (Ok tt) m') ->
  (forall e m', e <> GePathExists -> (forall n, e <> GeBadSegmentCount n) ->
     spoiled m' -> Q (Err e) m') ->
  fmeets False (write_book_body h) m Q.
Proof.
  intros Hf Hn HQ Herr. unfold write_book_body.
  apply act_meets_bind, act_meets_ask. intros a m1 Ha. cbn in Ha. unfold effect in Ha.
  destruct a as [_u|e]; subst m1.
  2: { apply act_meets_done, Herr; [discriminate..|]. apply spoil_intro. congruence. }
  apply act_meets_bind, act_meets_ask. intros a m1 Ha. cbn in Ha.
  rewrite Hf in Ha. cbn [app] in Ha. destruct a as [_v|e].
  2: { destruct Ha as [k ->]. apply act_meets_done, Herr; [discriminate..|].
    apply spoil_intro. discriminate. }
  subst m1. apply write_bodies_meets; [apply chunk_count_enough, Hn | discriminate | | exact Herr].
  intros body m' (f' & Hf1 & Hc' & Hr' & Hg' & He') Hl. cbn in Hf1, Hr', Hg', He'.
  injection Hf1 as <-. apply (HQ body); auto. lia.
Qed.

(** What a call of [generate_book] leaves. *)
Definition generated (count : Z) (id : BookId) (m : FileSt)
  (r : result BookHeader GenerateError) (m' : FileSt) : Prop :=
  match r with
  | Ok h =>
      h = MkHeader BOOK_VERSION id SEGMENT_LEN count /\ fl_content m = None /\
      check_book m' = Ok h /\ fl_synced m' = true /\ fl_linked m' = true /\
      exists body, fl_random m' = fl_random m ++ body /\
        fl_content m' = Some (header_encode h ++ body)
  | Err (GeBadSegmentCount n) =>
      n = count /\ m' = m /\ ~ 1 <= count <= MAX_SEGMENT_COUNT
  | Err GePathExists => fl_content m <> None /\ m' = m
  | Err _ =>
      fl_errors m' <> [] /\
      (fl_content m' = fl_content m \/ In FcUnlink (fl_errors m'))
  end.

Lemma cleanup_meets count id m0 m e :
  fl_content m0 = None -> e <> GePathExists -> (forall n, e <> GeBadSegmentCount n) ->
  spoiled m ->
  fmeets False (let* _ := cleanup_partial in done (Err e)) m (generated count id m0).
Proof.
  intros H0 He1 He2 [Hc Hs]. unfold cleanup_partial.
  apply act_meets_bind, act_meets_bind, act_meets_ask. intros a m' Ha. cbn in Ha.
  unfold effect in Ha. apply act_meets_done, act_meets_done.
  assert (Hg : fl_errors m' <> [] /\
    (fl_content m' = fl_content m0 \/ In FcUnlink (fl_errors m'))).
  { destruct a as [_u|e']; subst m'; cbn.
    - split; [exact Hs | left; auto].
    - split; [destruct (fl_errors m); discriminate|]. right. apply in_or_app. cbn. auto. }
  destruct e as [|n| |e']; cbn; try exact Hg; [congruence|]. exfalso. apply (He2 n). reflexivity.
Qed.

(** C24: what is generated opens.  Generating a book ends, and with success only
    where there was no file: the file then holds the header and the random bytes
    drawn for it, 64 for every segment, opening it gives that header, and file and
    directory entry are durable.  A file that exists is never touched; an illegal
    count is refused before any call; and any other failure leaves no file behind,
    unless removing it failed too. *)
Theorem generate_opens count id m t o m' :
  is_u64 count -> wf_book_id id ->
  runs (generate_book count id) t o -> path file_step m t m' ->
  exists r, o = Done r /\ generated count id m r m'.
Proof.
  intros Hu Hid Hrun Hp.
  assert (Hm : fmeets False (generate_book count id) m (generated count id m)).
  2: { pose proof (meets_runs _ _ _ _ _ _ _ Hm Hrun Hp) as Ho.
    destruct o as [r| |]; [|destruct Ho..]. exists r. split; [reflexivity | exact Ho]. }
  unfold generate_book. destruct (count_out_of_range count) eqn:Ec.
  { apply act_meets_done. cbn. split_and!; auto.
    rewrite <- (count_in_range count Hu). congruence. }
  apply (count_in_range count Hu) in Ec. rewrite header_new_ok by auto.
  set (h := MkHeader BOOK_VERSION id SEGMENT_LEN count).
  apply act_meets_bind, act_meets_ask. intros a m1 Ha. cbn in Ha.
  destruct a as [_u|e].
  2: { destruct e; apply act_meets_done; [| exact Ha | |]; subst m1; cbn;
      (split; [destruct (fl_errors m); discriminate | auto]). }
  destruct Ha as [Hnone ->].
  apply act_meets_bind, act_meets_bind, write_book_body_meets; [reflexivity | cbn; lia | |].
  2: { intros e m2 He1 He2 Hs. apply act_meets_done, cleanup_meets; auto. }
  intros body m2 Hf2 Hl2 Hr2 Hg2 He2.
  apply act_meets_bind, act_meets_ask. intros a m3 Ha. cbn in Ha. unfold effect in Ha.
  apply act_meets_done. destruct a as [_v|e]; subst m3; cbn [map_err].
  2: { apply cleanup_meets; [auto | discriminate..|]. apply spoil_intro. congruence. }
  unfold fsync_parent_dir.
  apply act_meets_bind, act_meets_bind, act_meets_ask. intros a m3 Ha. cbn in Ha.
  unfold effect in Ha. destruct a as [_w|e]; subst m3.
  2: { apply act_meets_done, cleanup_meets; [auto | discriminate..|].
    apply spoil_intro. cbn. congruence. }
  apply act_meets_ask. intros a m3 Ha. cbn in Ha. unfold effect in Ha.
  destruct a as [_x|e]; subst m3.
  2: { apply cleanup_meets; [auto | discriminate..|]. apply spoil_intro. cbn. congruence. }
  apply act_meets_done. cbn. split_and!; auto.
  - eapply (check_book_intro _ h body); cbn; auto.
    + subst h. unfold wf_header, BOOK_VERSION, SEGMENT_LEN. cbn.
      split_and!; try exact Hid; ulia.
    + subst h. unfold header_valid. cbn. auto.
  - exists body. auto.
Qed.

End Generate.

(** ** Inspecting *)

(** What the pass over the segments is to find. *)
Section Reference.
Context `{Sha256}.

(** The first segment before the [i]th with its digest. *)
Definition earlier (segs : list (list byte)) (i : nat) : option Z :=
  s ← segs !! i;
  (fun p => Z.of_nat p.1) <$> list_find (fun d => d = sha256 s) (take i (map sha256 segs)).

Definition dup_pairs (segs : list (list byte)) : list DuplicatePair :=
  omap (fun i => (fun j => MkDup j (Z.of_nat i)) <$> earlier segs i) (seq 0 (length segs)).

Definition zero_positions (segs : list (list byte)) : list Z :=
  omap (fun i => s ← segs !! i; if all_zero s then Some (Z.of_nat i) else None)
    (seq 0 (length segs)).

Definition bytes_ones (bs : list byte) : Z := foldr (fun b n => count_ones b + n) 0 bs.

Definition byte_counts (bs : list byte) (freq : list Z) : Prop :=
  length freq = 256%nat /\
  forall b, freq !! Z.to_nat (b2z b) = Some (Z.of_nat (count_occ byte_eq_dec bs b)).

Record stats_of (segs : list (list byte)) (a : Stats) : Prop := {
  so_seen : forall d, st_first_seen a !! d =
    (fun p => Z.of_nat p.1) <$> list_find (fun x => x = d) (map sha256 segs);
  so_dups : st_duplicates a = take MAX_LISTED (dup_pairs segs);
  so_dup_count : st_duplicate_count a = Z.of_nat (length (dup_pairs segs));
  so_zeros : st_zero_segments a = take MAX_LISTED (zero_positions segs);
  so_zero_count : st_zero_count a = Z.of_nat (length (zero_positions segs));
  so_freq : byte_counts (concat segs) (st_byte_freq a);
  so_ones : st_ones a = bytes_ones (concat segs);
}.

Lemma stats_of_nil : stats_of [] stats_new.
Proof.
  split; try reflexivity. split; [apply length_replicate|]. intros b. cbn [st_byte_freq stats_new].
  change (Z.of_nat (count_occ byte_eq_dec (concat []) b)) with 0. apply lookup_replicate_2. pose proof (b2z_range b). ulia.
Qed.

Lemma list_capped_snoc {A} (l : list A) x :
  list_capped (take MAX_LISTED l) x = take MAX_LISTED (l ++ [x]).
Proof.
  unfold list_capped. rewrite length_take.
  destruct (Nat.ltb_spec (MAX_LISTED `min` length l) MAX_LISTED).
  - rewrite !take_ge by (rewrite ?length_app; cbn; lia). reflexivity.
  - symmetry. apply take_app_le. lia.
Qed.

(** A table made segment by segment grows at its end. *)
Lemma omap_seq_snoc {A B} (f g : nat -> option B) (l : list A) x :
  (forall i, (i < length l)%nat -> f i = g i) ->
  omap f (seq 0 (length (l ++ [x]))) =
  omap g (seq 0 (length l)) ++ match f (length l) with Some y => [y] | None => [] end.
Proof.
  intros Hfg. rewrite length_app, seq_app, omap_app. cbn. f_equal.
  apply list_omap_ext, Forall_Forall2_diag, List.Forall_forall. intros i Hi. apply Hfg.
  apply in_seq in Hi. lia.
Qed.

Lemma earlier_front segs s i :
  (i < length segs)%nat -> earlier (segs ++ [s]) i = earlier segs i.
Proof.
  intros Hi. unfold earlier. rewrite lookup_app_l, map_app, take_app_le;
    [reflexivity | rewrite length_map; lia | exact Hi].
Qed.

Lemma earlier_last segs s :
  earlier (segs ++ [s]) (length segs) =
  (fun p => Z.of_nat p.1) <$> list_find (fun x => x = sha256 s) (map sha256 segs).
Proof.
  unfold earlier. rewrite list_lookup_middle by reflexivity. cbn.
  rewrite map_app, take_app_le, firstn_all2; rewrite ?length_map; auto; lia.
Qed.

Lemma dup_pairs_snoc segs s :
  dup_pairs (segs ++ [s]) = dup_pairs segs ++
    match list_find (fun x => x = sha256 s) (map sha256 segs) with
    | Some (j, _) => [MkDup (Z.of_nat j) (Z.of_nat (length segs))]
    | None => []
    end.
Proof.
  unfold dup_pairs. erewrite omap_seq_snoc.
  - f_equal. rewrite earlier_last. destruct (list_find _ _) as [[j d]|]; reflexivity.
  - intros i Hi. cbn. rewrite earlier_front by exact Hi. reflexivity.
Qed.

Lemma zero_positions_snoc segs s :
  zero_positions (segs ++ [s]) =
  zero_positions segs ++ if all_zero s then [Z.of_nat (length segs)] else [].
Proof.
  unfold zero_positions. erewrite omap_seq_snoc.
  - f_equal. rewrite list_lookup_middle by reflexivity. cbn. destruct (all_zero s); reflexivity.
  - intros i Hi. cbn. rewrite lookup_app_l by exact Hi. reflexivity.
Qed.

Lemma byte_counts_snoc bs freq b :
  byte_counts bs freq ->
  byte_counts (bs ++ [b]) (alter (fun c => c + 1) (Z.to_nat (b2z b)) freq).
Proof.
  intros [Hl Hb]. split; [rewrite length_alter; exact Hl|]. intros x.
  rewrite count_occ_app. cbn.
  destruct (byte_eq_dec b x) as [<-|Hne].
  - rewrite list_lookup_alter_eq, Hb. apply (f_equal Some). lia.
  - rewrite list_lookup_alter_ne, Hb; [f_equal; lia|]. intros E. apply Hne, b2z_inj.
    pose proof (b2z_range b). pose proof (b2z_range x). ulia.
Qed.

Lemma bytes_ones_app a b : bytes_ones (a ++ b) = bytes_ones a + bytes_ones b.
Proof. unfold bytes_ones. induction a as [|x a IH]; cbn; [|rewrite IH]; lia. Qed.

Lemma count_bytes_spec seg : forall bs freq,
  byte_counts bs freq ->
  byte_counts (bs ++ seg) (foldl count_byte (freq, bytes_ones bs) seg).1 /\
  (foldl count_byte (freq, bytes_ones bs) seg).2 = bytes_ones (bs ++ seg).
Proof.
  induction seg as [|b seg IH]; intros bs freq Hc; cbn [foldl].
  - rewrite app_nil_r. auto.
  - cbn [count_byte]. replace (bytes_ones bs + count_ones b) with (bytes_ones (bs ++ [b]))
      by (rewrite bytes_ones_app; cbn; lia).
    rewrite cons_middle, app_assoc. apply IH, byte_counts_snoc, Hc.
Qed.

Lemma list_find_snoc {A} (P : A -> Prop) `{forall x, Decision (P x)} l x :
  list_find P (l ++ [x]) =
  match list_find P l with
  | Some r => Some r
  | None => if decide (P x) then Some (length l, x) else None
  end.
Proof.
  induction l as [|y l IH]; cbn; [destruct (decide (P x)); reflexivity|].
  destruct (decide (P y)); [reflexivity|]. rewrite IH.
  destruct (list_find P l) as [[j z]|]; [reflexivity|].
  destruct (decide (P x)); reflexivity.
Qed.

Lemma inspect_segment_spec segs s a :
  stats_of segs a ->
  stats_of (segs ++ [s]) (inspect_segment a (Z.of_nat (length segs)) s).
Proof.
  intros [Hseen Hd Hdc Hz Hzc Hf Ho]. unfold inspect_segment.
  destruct (count_bytes_spec s _ _ Hf) as [Hf' Ho'].
  rewrite Ho. destruct (foldl _ _ s) as [freq ones]. cbn [fst snd] in Hf', Ho'.
  assert (Hcat : concat (segs ++ [s]) = concat segs ++ s)
    by (rewrite concat_app; cbn; rewrite app_nil_r; reflexivity).
  assert (Hzs : exists zs zc,
    (if all_zero s
     then (list_capped (st_zero_segments a) (Z.of_nat (length segs)), st_zero_count a + 1)
     else (st_zero_segments a, st_zero_count a)) = (zs, zc) /\
    zs = take MAX_LISTED (zero_positions (segs ++ [s])) /\
    zc = Z.of_nat (length (zero_positions (segs ++ [s])))).
  { rewrite zero_positions_snoc, Hz, Hzc.
    destruct (all_zero s); eexists _, _; (split; [reflexivity|]).
    - rewrite list_capped_snoc, length_app. cbn. split; [reflexivity | lia].
    - rewrite app_nil_r. auto. }
  destruct Hzs as (zs & zc & -> & Hz' & Hzc').
  pose proof (dup_pairs_snoc segs s) as Hdp. rewrite Hseen.
  destruct (list_find (fun x => x = sha256 s) (map sha256 segs)) as [[j d]|] eqn:El; cbn in *.
  - split; cbn; auto; try congruence.
    + intros d'. rewrite Hseen, map_app. cbn. rewrite list_find_snoc.
      destruct (list_find (fun x => x = d') (map sha256 segs)) as [p|] eqn:El'; [reflexivity|].
      destruct (decide (sha256 s = d')) as [<-|]; [congruence | reflexivity].
    + rewrite Hdp, Hd, list_capped_snoc. reflexivity.
    + rewrite Hdp, Hdc, length_app. cbn. lia.
  - rewrite app_nil_r in Hdp. split; cbn; auto; try congruence.
    intros d'. rewrite map_app. cbn. rewrite list_find_snoc.
    destruct (decide (sha256 s = d')) as [<-|Hne].
    + rewrite lookup_insert_eq, El, length_map. reflexivity.
    + rewrite lookup_insert_ne, Hseen by exact Hne.
      destruct (list_find (fun x => x = d') _); reflexivity.
Qed.

Lemma no_dup_pairs segs : dup_pairs segs = [] <-> NoDup (map sha256 segs).
Proof.
  induction segs as [|s segs IH] using rev_ind.
  { split; [intros _; constructor | reflexivity]. }
  rewrite dup_pairs_snoc, map_app, app_nil, IH. cbn [map].
  rewrite list.NoDup_app. split.
  - intros [Hn Hf]. split_and!; [exact Hn | | apply NoDup_singleton].
    intros d Hd Hs. apply list.list_elem_of_singleton in Hs as ->.
    destruct (list_find _ _) as [[j d]|] eqn:El; [discriminate|].
    apply list_find_None in El. rewrite list.Forall_forall in El. apply (El _ Hd). reflexivity.
  - intros (Hn & Hs & _). split; [exact Hn|].
    destruct (list_find _ _) as [[j d]|] eqn:El; [|reflexivity]. exfalso.
    apply list_find_Some in El as (El & -> & _). apply list.list_elem_of_lookup_2 in El.
    apply (Hs _ El), list.list_elem_of_singleton. reflexivity.
Qed.

Lemma no_zero_positions segs :
  zero_positions segs = [] <-> Forall (fun s => all_zero s = false) segs.
Proof.
  induction segs as [|s segs IH] using rev_ind.
  { split; [intros _; constructor | reflexivity]. }
  rewrite zero_positions_snoc, app_nil, IH, list.Forall_app, list.Forall_singleton.
  destruct (all_zero s); intuition congruence.
Qed.

(** The body of a book as its segments. *)
Definition segments_of (f : list byte) (n : nat) : list (list byte) :=
  map (fun i => segment_at f (Z.of_nat i)) (seq 0 n).

Lemma segments_of_snoc f n :
  segments_of f (S n) = segments_of f n ++ [segment_at f (Z.of_nat n)].
Proof. unfold segments_of. rewrite seq_S, map_app. reflexivity. Qed.

Lemma segment_at_slice f i :
  segment_at f (Z.of_nat i) = take 64 (drop (128 + 64 * i) f).
Proof.
  unfold segment_at, slice, SEGMENT_AREA_OFFSET, SEGMENT_LEN. cbv zeta.
  f_equal; [|f_equal]; lia.
Qed.

Lemma concat_segments f n :
  (128 + 64 * n <= length f)%nat ->
  concat (segments_of f n) = take (64 * n) (drop 128 f) /\
  Forall (fun s => length s = 64%nat) (segments_of f n).
Proof.
  induction n as [|n IH]; intros Hl; [split; [reflexivity | constructor]|].
  destruct IH as [IH1 IH2]; [lia|].
  rewrite segments_of_snoc, concat_app, segment_at_slice. cbn [concat].
  rewrite app_nil_r, IH1. split.
  - rewrite <- drop_drop, take_take_drop. f_equal. lia.
  - apply list.Forall_app. split; [exact IH2|]. apply list.Forall_singleton.
    rewrite length_take, length_drop. lia.
Qed.

Lemma length_segments_of f n : length (segments_of f n) = n.
Proof. unfold segments_of. rewrite length_map. apply length_seq. Qed.

(** ** The pass over a file *)

Lemma inspect_segments_meets f n : forall i a m Q,
  fl_content m = Some f -> fl_pos m = (128 + 64 * i)%nat ->
  (128 + 64 * (i + n) <= length f)%nat -> stats_of (segments_of f i) a ->
  (forall a' m', stats_of (segments_of f (i + n)) a' -> fl_content m' = Some f ->
     Q (Ok a') m') ->
  (forall m' c, fl_content m' = Some f ->
     Q (Err BeIo) (fl_fail m' c)) ->
  fmeets False (inspect_segments n (Z.of_nat i) a) m Q.
Proof.
  induction n as [|n IH]; intros i a m Q Hf Hpos Hl Ha HQ Herr; cbn [inspect_segments].
  { apply act_meets_done, HQ; [|exact Hf]. rewrite Nat.add_0_r. exact Ha. }
  apply act_meets_bind, act_meets_ask. intros r m1 Hr. cbn in Hr.
  destruct r as [seg|e].
  2: { subst m1. apply act_meets_done, Herr, Hf. }
  destruct Hr as (f' & Hf' & Hin & -> & ->). replace f' with f in * by congruence.
  rewrite Hpos. change (Z.to_nat SEGMENT_LEN) with 64%nat in *.
  replace (Z.of_nat i + 1) with (Z.of_nat (S i)) by lia.
  apply IH; auto.
  - cbn. lia.
  - lia.
  - rewrite segments_of_snoc, segment_at_slice.
    pose proof (inspect_segment_spec (segments_of f i) (take 64 (drop (128 + 64 * i) f)) a Ha)
      as Hs.
    rewrite length_segments_of in Hs. exact Hs.
  - replace (S i + n)%nat with (i + S n)%nat by lia. exact HQ.
Qed.

(** What the inspection of a book gives. *)
Definition inspected (m : FileSt) (r : result InspectReport BookError) (m' : FileSt) : Prop :=
  match check_book m, r with
  | Ok h, Ok rep => exists segs,
      fl_content m = Some (header_encode h ++ concat segs) /\
      Z.of_nat (length segs) = bh_segment_count h /\
      Forall (fun s => length s = 64%nat) segs /\
      stats_of segs (ir_stats rep) /\ rep = report_of h (ir_stats rep) /\
      (ir_ok rep = true <->
       NoDup (map sha256 segs) /\ Forall (fun s => all_zero s = false) segs)
  | Err e, Err e' => e' = e \/ e' = BeIo /\ fl_errors m' <> []
  | Ok _, Err e' => e' = BeIo /\ fl_errors m' <> []
  | Err _, Ok _ => False
  end.

(** C36: the inspection of a book reports what its bytes are.  On a file that other
    programs leave alone, inspecting it ends with the error opening it has, an I/O
    error after a call that failed, or the report of the segments the body
    consists of: the number of repeated digests and of zero segments with the first
    sixteen of each, the count of every byte and of the one bits; and the verdict
    is good exactly when no two digests are equal and no segment is zero. *)
Theorem inspect_reports fuel m t o m' :
  (HEADER_LEN + fl_signals m <= fuel)%nat ->
  (forall f, fl_content m = Some f -> Z.of_nat (length f) <= U64_MAX) ->
  runs (inspect_book fuel) t o -> path file_step m t m' ->
  exists r, o = Done r /\ inspected m r m'.
Proof.
  intros Hfuel Hu Hrun Hp.
  assert (Hm : fmeets False (inspect_book fuel) m (inspected m)).
  2: { pose proof (meets_runs _ _ _ _ _ _ _ Hm Hrun Hp) as Ho.
    destruct o as [r| |]; [|destruct Ho..]. exists r. split; [reflexivity | exact Ho]. }
  assert (Hio : forall m1 c, inspected m (Err BeIo) (fl_fail m1 c)).
  { intros m1 c. unfold inspected. cbn.
    assert (fl_errors m1 ++ [c] <> []) by (destruct (fl_errors m1); discriminate).
    destruct (check_book m); auto. }
  unfold inspect_book. apply act_meets_bind, open_validated_meets; [exact Hfuel | exact Hu | |].
  2: { intros m1 c _. apply act_meets_done, Hio. }
  intros m1 Hm1 Hpos. apply opened_same in Hm1 as (_ & Hf1 & _).
  destruct (check_book m) as [h|e] eqn:Ec.
  2: { apply act_meets_done. unfold inspected. rewrite Ec. auto. }
  specialize (Hpos eq_refl).
  assert (exists f, fl_content m = Some f) as [f Hf].
  { unfold check_book in Ec. destruct (fl_content m); [eauto | discriminate]. }
  destruct (check_book_ok m h f Hf Ec) as (Hw & (_ & _ & Hn) & body & Eb & Hlb).
  set (n := Z.to_nat (bh_segment_count h)).
  pose proof (length_header_encode h Hw) as Hlh.
  assert (Hlf : length f = (128 + 64 * n)%nat).
  { rewrite Eb, length_app, Hlh. unfold SEGMENT_LEN, HEADER_LEN, n in *. lia. }
  apply act_meets_bind, act_meets_ask. intros a m2 Ha. cbn in Ha. unfold effect in Ha.
  destruct a as [_u|e]; subst m2; [|apply act_meets_done, Hio].
  apply act_meets_bind, act_meets_ask. intros a m2 Ha. cbn in Ha.
  destruct a as [hd|e]; [|subst m2; apply act_meets_done, Hio].
  destruct Ha as (f' & Hf' & _ & _ & ->). cbn in Hf'.
  apply act_meets_bind. change 0 with (Z.of_nat 0).
  apply (inspect_segments_meets f n 0); [cbn; congruence | cbn; rewrite Hpos; reflexivity | lia
    | apply stats_of_nil | | ].
  2: { intros m3 c _. apply act_meets_done, Hio. }
  intros a m3 Ha _. apply act_meets_done. unfold inspected. rewrite Ec.
  cbn [result_map Nat.add] in *. exists (segments_of f n).
  destruct (concat_segments f n ltac:(lia)) as [Hcat Hall].
  split_and!; auto.
  - rewrite Hcat, Hf, Eb at 1. f_equal. f_equal.
    change 128%nat with HEADER_LEN. rewrite <- Hlh, Eb, drop_app_length.
    symmetry. apply firstn_all2. unfold SEGMENT_LEN, n in *. lia.
  - rewrite length_segments_of. unfold n. lia.
  - destruct Ha as [_ _ Hdc _ Hzc _ _]. cbn [ir_ok report_of].
    rewrite andb_true_iff, !Z.eqb_eq, Hdc, Hzc, <- no_dup_pairs, <- no_zero_positions.
    rewrite <- !length_zero_iff_nil. lia.
Qed.

End Reference.

(** ** A book of two segments, generated, read and inspected *)

Module BookWitness.
#[local] Existing Instance low_digest.

(** A file system that reads 50 bytes at a time, after a signal. *)
Definition file_run (m : FileSt) (c : FileCall) : FileSt * file_answer c :=
  match c return FileSt * file_answer c with
  | FcOpen =>
      match fl_content m with
      | None => (m, Err OsNotFound)
      | Some _ => (fl_at m 0, Ok tt)
      end
  | FcStat =>
      match fl_content m with
      | None => (fl_fail m FcStat, Err OsOther)
      | Some f => (m, Ok (fl_regular m, Z.of_nat (length f)))
      end
  | FcPread n offset =>
      match fl_content m, fl_signals m with
      | None, _ => (fl_fail m (FcPread n offset), Err OsOther)
      | Some f, S _ => (fl_interrupt m, Err OsInterrupted)
      | Some f, O =>
          (fl_read m offset (offset + Z.of_nat n),
           Ok (take 50 (take n (drop (Z.to_nat offset) f))))
      end
  | FcReadExact n =>
      match fl_content m with
      | Some f =>
          if (fl_pos m + n <=? length f)%nat
          then (fl_at m (fl_pos m + n), Ok (take n (drop (fl_pos m) f)))
          else (fl_fail m (FcReadExact n), Err OsOther)
      | None => (fl_fail m (FcReadExact n), Err OsOther)
      end
  | FcCreate =>
      match fl_content m with
      | None => (fl_create m, Ok tt)
      | Some _ => (m, Err OsExists)
      end
  | FcWriteAll bs =>
      match fl_content m with
      | Some f => (fl_put m (f ++ bs), Ok tt)
      | None => (m, Ok tt)
      end
  | FcRandom n =>
      let bs := map (fun i => z2b (Z.of_nat i)) (seq 0 n) in (fl_draw m bs, Ok bs)
  | FcClone | FcOpenParent => (m, Ok tt)
  | FcFsync => (fl_sync m, Ok tt)
  | FcFsyncParent => (fl_link m, Ok tt)
  | FcUnlink => (fl_unlink m, Ok tt)
  end.

Lemma file_run_step m c : file_step m c (snd (file_run m c)) (fst (file_run m c)).
Proof.
  destruct c as [| |n offset| |n| |bs|n| | | |]; cbn; try reflexivity.
  - destruct (fl_content m) eqn:Hf; cbn; rewrite ?Hf; auto.
  - destruct (fl_content m) as [f|] eqn:Hf; cbn; [|reflexivity]. exists f. auto.
  - destruct (fl_content m) as [f|] eqn:Hf; [|reflexivity].
    destruct (fl_signals m) eqn:Hs; cbn.
    + exists f. split_and!; auto; [eexists; symmetry; apply take_drop|].
      destruct (take n (drop (Z.to_nat offset) f)); [auto | discriminate].
    + split; [lia | reflexivity].
  - destruct (fl_content m) as [f|] eqn:Hf; [|reflexivity].
    destruct (Nat.leb_spec (fl_pos m + n) (length f)); cbn; [|reflexivity].
    exists f. auto.
  - destruct (fl_content m) eqn:Hf; cbn; rewrite ?Hf; auto.
  - destruct (fl_content m) eqn:Hf; cbn; reflexivity.
  - rewrite length_map, length_seq. auto.
Qed.

Lemma file_run_path {R} (p : prog FileCall file_answer R) m :
  path file_step m (snd (fst (exec file_run m p))) (fst (fst (exec file_run m p))).
Proof. apply (exec_path file_step file_run id p file_run_step). Qed.

Definition nowhere : FileSt := MkFile None false 0 false false 0 [] [] [].
Definition made := exec file_run nowhere (generate_book 2 sim_book_id).
Definition on_disk : FileSt :=
  MkFile (fl_content (fst (fst made))) true 0 true true 1 [] [] [].
Definition fuel : nat := 200.
Definition read_one := exec file_run on_disk
  (let* r := book_open fuel in
   match r with
   | Err e => done (Err e)
   | Ok h => read_segment fuel h 1
   end).
Definition looked := exec file_run on_disk (inspect_book fuel).

Lemma made_ok : snd made = Done (Ok (MkHeader 1 sim_book_id 64 2)).
Proof. vm_compute. reflexivity. Qed.

Lemma on_disk_small f :
  fl_content on_disk = Some f -> Z.of_nat (length f) <= U64_MAX.
Proof.
  intros Hf. assert (Hl : option_map (@length byte) (fl_content on_disk) = Some 256%nat)
    by (vm_compute; reflexivity).
  rewrite Hf in Hl. injection Hl as ->. ulia.
Qed.

Lemma fuel_enough : (HEADER_LEN + fl_signals on_disk <= fuel)%nat.
Proof. apply Nat.leb_le. reflexivity. Qed.

Lemma read_one_done :
  snd read_one = Done (Ok (map (fun i => z2b (Z.of_nat i)) (seq 64 64))).
Proof. vm_compute. reflexivity. Qed.

Lemma looked_done : exists rep, snd looked = Done (Ok rep) /\ ir_ok rep = true.
Proof.
  assert (Hd : match snd looked with Done (Ok rep) => ir_ok rep | _ => false end = true)
    by (vm_compute; reflexivity).
  destruct (snd looked) as [[rep|]| |]; [|discriminate..]. exists rep. auto.
Qed.

End BookWitness.

#[local] Existing Instance low_digest.

Lemma generate_opens_witness :
  generated 2 sim_book_id BookWitness.nowhere (Ok (MkHeader 1 sim_book_id 64 2))
    (fst (fst BookWitness.made)).
Proof.
  destruct (generate_opens 2 sim_book_id BookWitness.nowhere
    (snd (fst BookWitness.made)) (snd BookWitness.made) (fst (fst BookWitness.made))
    ltac:(ulia) eq_refl (exec_is_run _ _ _) (BookWitness.file_run_path _ _))
    as (r & Hr & Hg).
  rewrite BookWitness.made_ok in Hr. injection Hr as <-. exact Hg.
Defined.

Lemma book_reads_witness :
  Forall (asked 1) (fl_reads (fst (fst BookWitness.read_one))) /\
  exists r, snd BookWitness.read_one = Done (Ok r) /\ length r = 64%nat.
Proof.
  destruct (book_reads BookWitness.fuel 1 BookWitness.on_disk
    (snd (fst BookWitness.read_one)) (snd BookWitness.read_one)
    (fst (fst BookWitness.read_one)) ltac:(lia) BookWitness.fuel_enough eq_refl
    BookWitness.on_disk_small (exec_is_run _ _ _) (BookWitness.file_run_path _ _))
    as (r & _ & _ & _ & Ha).
  split; [exact Ha|]. eexists. split; [apply BookWitness.read_one_done | reflexivity].
Defined.

Lemma inspect_reports_witness :
  exists rep m', snd BookWitness.looked = Done (Ok rep) /\ ir_ok rep = true /\
    inspected BookWitness.on_disk (Ok rep) m'.
Proof.
  destruct (inspect_reports BookWitness.fuel BookWitness.on_disk
    (snd (fst BookWitness.looked)) (snd BookWitness.looked)
    (fst (fst BookWitness.looked)) BookWitness.fuel_enough BookWitness.on_disk_small
    (exec_is_run _ _ _) (BookWitness.file_run_path _ _)) as (r & Hr & Hi).
  destruct BookWitness.looked_done as (rep & Hrep & Hok).
  pose proof (eq_trans (eq_sym Hr) Hrep) as E. injection E as ->.
  exists rep, (fst (fst BookWitness.looked)). split; [exact Hrep | split; [exact Hok | exact Hi]].
Defined.
