(* ===== verification/AnchorFile.v ===== *)
(** * AnchorFile: anchors and books on files ([otp-book], allocator.rs; [otp-cli],
      recoveryio.rs)

    A file in the page cache and on the disk, with the failures of its calls; the
    allocator's [FileMedia] and [BookReader] on such files; [Allocator::open]; and
    the start-up recovery of the two anchor files. *)

From stdpp Require Import strings.
From S2P Require Export Platform Recovery Allocator Book.

#[local] Open Scope list_scope.
#[local] Open Scope Z_scope.

(** ** A file *)

(** How a call fares: it works, it moves only some bytes, it fails. *)
Inductive Quirk := QkOk | QkShort (n : nat) | QkFail (e : Errno).

(** What a read sees, the earlier contents since the last sync (a crash may bring
    any of them back: the record is smaller than a sector), the position of the
    descriptor, and how the next calls fare (beyond the list they work). *)
Record Device := MkDevice {
  dv_data : list byte;
  dv_older : list (list byte);
  dv_pos : nat;
  dv_script : list Quirk;
}.

Definition contents (d : Device) : list (list byte) := dv_data d :: dv_older d.

Definition next_quirk (d : Device) : Quirk * Device :=
  match dv_script d with
  | [] => (QkOk, d)
  | q :: l => (q, MkDevice (dv_data d) (dv_older d) (dv_pos d) l)
  end.

Definition move_to (d : Device) (pos : nat) : Device :=
  MkDevice (dv_data d) (dv_older d) pos (dv_script d).

Definition store_data (d : Device) (data : list byte) (pos : nat) : Device :=
  MkDevice data (contents d) pos (dv_script d).

(** [l] with a length of at least [n], zeros at its end. *)
Definition extend (n : nat) (l : list byte) : list byte := l ++ zeros (n - length l).

(** [bs] over [l] from [pos] on. *)
Definition overwrite (pos : nat) (bs l : list byte) : list byte :=
  take pos (extend pos l) ++ bs ++ drop (pos + length bs) l.

Definition dev_write (d : Device) (bs : list byte) : Device * result Z Errno :=
  (store_data d (overwrite (dv_pos d) bs (dv_data d)) (dv_pos d + length bs),
   Ok (Z.of_nat (length bs))).

Definition dev_read (d : Device) (bs : list byte) : Device * result (list byte) Errno :=
  (move_to d (dv_pos d + length bs), Ok bs).

Definition dev_call (d : Device) (c : FdCall) : Device * fd_answer c :=
  let '(q, d) := next_quirk d in
  match c return Device * fd_answer c with
  | FdSeek offset =>
      match q with QkFail e => (d, Err e) | _ => (move_to d (Z.to_nat offset), Ok tt) end
  | FdRead n =>
      let there := take n (drop (dv_pos d) (dv_data d)) in
      match q with
      | QkFail e => (d, Err e)
      | QkShort k => dev_read d (take k there)
      | QkOk => dev_read d there
      end
  | FdReadToEnd =>
      match q with
      | QkFail e => (d, Err e)
      | _ => dev_read d (drop (dv_pos d) (dv_data d))
      end
  | FdWrite bs =>
      match q with
      | QkFail e => (d, Err e)
      | QkShort k => dev_write d (take k bs)
      | QkOk => dev_write d bs
      end
  | FdSetLen n =>
      match q with
      | QkFail e => (d, Err e)
      | _ => (store_data d (take (Z.to_nat n) (extend (Z.to_nat n) (dv_data d))) (dv_pos d),
              Ok tt)
      end
  | FdSync =>
      match q with
      | QkFail e => (d, Err e)
      | _ => (MkDevice (dv_data d) [] (dv_pos d) (dv_script d), Ok tt)
      end
  end.

(** A crash: the disk keeps one of the contents since the last sync. *)
Definition dev_crash (d : Device) : Device :=
  let '(q, d) := next_quirk d in
  let kept := match q with QkShort k => nth k (contents d) (dv_data d) | _ => dv_data d end in
  MkDevice kept [] 0 (dv_script d).

(** The loops of the source on a device: each pass of a write loop uses an entry of
    the script or is the last. *)
Definition loop_fuel (d : Device) : nat := S (length (dv_script d)).

(** ** The allocator's anchor files *)

Definition classify_persistence (e : Errno) : MediaError :=
  match e with ENoSpc => MeNoSpace | _ => MePersistence end.

Definition media_file_read : fd_act (result (list byte) MediaError) :=
  try* u := fd_ask (FdSeek 0) else (fun _ => MeIo) in
  let* r := fd_ask FdReadToEnd in done (map_err (fun _ => MeIo) r).

(** The [while] of [write]; a count beyond the buffer would panic in the slice. *)
Definition media_write_loop : nat -> list byte -> fd_act (result unit MediaError) :=
  fix loop fuel remaining :=
  match remaining with
  | [] => done (Ok tt)
  | _ =>
  match fuel with
  | O => Ret OutOfFuel
  | S fuel =>
      let* r := fd_ask (FdWrite remaining) in
      match r with
      | Ok n =>
          if n =? 0 then done (Err MeShortWrite) else
          if n <=? Z.of_nat (length remaining) then loop fuel (drop (Z.to_nat n) remaining)
          else Ret Panicked
      | Err EIntr => loop fuel remaining
      | Err e => done (Err (classify_persistence e))
      end
  end
  end.

Definition media_file_write (fuel : nat) (bytes : list byte) : fd_act (result unit MediaError) :=
  try* u := fd_ask (FdSeek 0) else classify_persistence in
  try* u := media_write_loop fuel bytes else id in
  let* r := fd_ask (FdSetLen (Z.of_nat (length bytes))) in
  done (map_err classify_persistence r).

Definition media_file_sync : fd_act (result unit MediaError) :=
  let* r := fsync_file in done (map_err (fun _ => MePersistence) r).

(** The two files.  [fm_clean] is a history variable that no operation reads: no
    write has left bytes that verify as a record and are neither what was being
    written nor a former content. *)
Record FileMedia := MkFileMedia { fm_a : Device; fm_b : Device; fm_clean : bool }.

Definition media_file (m : FileMedia) (copy : AnchorCopy) : Device :=
  match copy with CopyA => fm_a m | CopyB => fm_b m end.

Definition with_file (m : FileMedia) (copy : AnchorCopy) (d : Device) : FileMedia :=
  match copy with
  | CopyA => MkFileMedia d (fm_b m) (fm_clean m)
  | CopyB => MkFileMedia (fm_a m) d (fm_clean m)
  end.

(** A program run on a file.  The loops end, so the last case is not met. *)
Definition run_fd {T} (d : Device) (p : fd_act (result T MediaError)) :
  Device * result T MediaError :=
  let '(d, _, o) := exec dev_call d p in
  (d, match o with Done r => r | _ => Err MeIo end).

Definition on_file {T} (m : FileMedia) (copy : AnchorCopy) (p : fd_act (result T MediaError)) :
  FileMedia * result T MediaError :=
  let '(d, r) := run_fd (media_file m copy) p in (with_file m copy d, r).

Section Files.
Context `{Sha256}.

Definition verifies (x : list byte) : bool := is_ok (decode_and_verify x).

(** Every content a write of [bs] has left is rejected by the digest, or is [bs], or
    was there before. *)
Definition clean_write (before after : Device) (bs : list byte) : bool :=
  forallb (fun x => negb (verifies x) || bool_decide (x = bs) ||
                    bool_decide (x ∈ contents before)) (contents after).

#[export] Instance file_media : AnchorMedia FileMedia := {
  media_read m copy := on_file m copy media_file_read;
  media_write m copy bytes :=
    let d := media_file m copy in
    let '(m, r) := on_file m copy (media_file_write (loop_fuel d) bytes) in
    (MkFileMedia (fm_a m) (fm_b m)
       (fm_clean m && clean_write d (media_file m copy) bytes), r);
  media_sync m copy := on_file m copy media_file_sync;
  media_boundary m p := (m, Ok tt);
}.

(** ** The allocator's book *)

(** The open book, with the calls of its file answered by [env]. *)
Record BookReader (W : Type) := MkReader {
  br_header : BookHeader;
  br_world : W;
}.

End Files.
Arguments MkReader {W}.
Arguments br_header {W}.
Arguments br_world {W}.

Section Reader.
Context {W : Type} (env : W -> forall c : FileCall, W * file_answer c) (fuel : nat).

Definition book_reader : SegmentReader (BookReader W) := {|
  segment_count r := bh_segment_count (br_header r);
  segment_read r i :=
    let '(w, _, o) := exec env (br_world r) (read_segment fuel (br_header r) i) in
    (MkReader (br_header r) w,
     match o with Done (Ok bytes) => Ok bytes | _ => Err MeIo end);
|}.

End Reader.

(** ** Opening the allocator *)

Record AllocatorConfig := MkAllocConfig {
  ac_book : Path;
  ac_anchor_a : Path;
  ac_anchor_b : Path;
  ac_expected_book_id : BookId;
}.

Definition map_book_open (e : BookError) : IssueError :=
  match e with BeInvalidHeader _ => IeBookMismatch | _ => IeIo end.

Definition map_platform (e : PlatformError) : IssueError :=
  match e with
  | PeLockHeld | PeLockUnsupported => IeLockUnavailable
  | _ => IePersistenceUncertain
  end.

Definition media_open_one (p : Path) : sys_act (result Fd IssueError) :=
  let* r := sys_ask (SyOpen p OpReadWrite) in done (map_err (fun _ => IeAnchorCorrupt) r).

Definition file_media_open (a b : Path) : sys_act (result (Fd * Fd) IssueError) :=
  try* fa := media_open_one a else id in
  try* fb := media_open_one b else id in
  done (Ok (fa, fb)).

(** The files of [Allocator::open]: the anchors first, then the lock. *)
Definition allocator_files (cfg : AllocatorConfig) :
  sys_act (result (Fd * Fd * FileLockGuard) IssueError) :=
  try* fds := file_media_open (ac_anchor_a cfg) (ac_anchor_b cfg) else id in
  try* lock := acquire_ofd_lock (ac_anchor_a cfg) true else map_platform in
  done (Ok (fds, lock)).

Record FileAllocator (W : Type) := MkAllocator {
  al_core : Core FileMedia (BookReader W);
  al_lock : FileLockGuard;
}.
Arguments MkAllocator {W}.
Arguments al_core {W}.
Arguments al_lock {W}.

Section Open.
Context `{Sha256} {W V : Type} (book_env : W -> forall c : FileCall, W * file_answer c)
  (sys_env : V -> forall c : SysCall, V * sys_answer c) (fuel : nat).

(** [Allocator::open]: the header of the book, its identity, the anchor files and the
    lock, the core over them.  [m] are the files behind the two descriptors. *)
Definition allocator_open (cfg : AllocatorConfig) (w : W) (v : V) (m : FileMedia) :
  FileMedia * result (FileAllocator W) IssueError :=
  let '(w, _, book) := exec book_env w (book_open fuel) in
  match book with
  | Done (Ok header) =>
      if negb (bool_decide (bh_book_id header = ac_expected_book_id cfg))
      then (m, Err IeBookMismatch) else
      match snd (exec sys_env v (allocator_files cfg)) with
      | Done (Ok (_, lock)) =>
          let '(m, _, core) :=
            core_open (H1 := book_reader book_env fuel) m (MkReader header w)
              (ac_expected_book_id cfg) in
          (m, let? core := core in Ok (MkAllocator core lock))
      | Done (Err e) => (m, Err e)
      | _ => (m, Err IeIo)
      end
  | Done (Err e) => (m, Err (map_book_open e))
  | _ => (m, Err IeIo)
  end.

Definition allocator_state (a : FileAllocator W) : Z * Z :=
  (ar_next (co_current (al_core a)), ar_generation (co_current (al_core a))).

Definition allocator_issue (a : FileAllocator W) :
  FileAllocator W * option (result CommittedSegment IssueError) :=
  let '(core, r) := issue (H1 := book_reader book_env fuel) (al_core a) in
  (MkAllocator core (al_lock a), r).

Definition allocator_reserve_range (a : FileAllocator W) (n : Z) :
  FileAllocator W * option (result ReservedRange IssueError) :=
  let '(core, r) := reserve_range (H1 := book_reader book_env fuel) (al_core a) n in
  (MkAllocator core (al_lock a), r).

End Open.

(** ** Start-up recovery (recoveryio.rs) *)

(** [FileAnchorStore]: a backend, and the world that answers its calls. *)
Record FileAnchorStore (V : Type) := MkStore {
  fas_backend : FileAnchorBackend;
  fas_world : V;
}.
Arguments MkStore {V}.
Arguments fas_backend {V}.
Arguments fas_world {V}.

Section Startup.
Context `{Sha256} {V : Type} (env : V -> forall c : SysCall, V * sys_answer c) (fuel : nat).

Definition decode_record (bytes : list byte) : option AnchorRecord :=
  match decode_and_verify bytes with Ok r => Some r | Err _ => None end.

(** Beyond its fuel a program counts as failed. *)
Definition run_sys {T} (v : V) (p : sys_act (result T PlatformError)) :
  V * result T PlatformError :=
  let '(v, _, o) := exec env v p in (v, match o with Done r => r | _ => Err PeIo end).

Definition store_run {T} (s : FileAnchorStore V) (p : fd_act (result T PlatformError)) :
  FileAnchorStore V * result T PlatformError :=
  let '(v, r) := run_sys (fas_world s) (on_fd (fab_file (fas_backend s)) p) in
  (MkStore (fas_backend s) v, r).

Definition file_anchor_store : AnchorStore (FileAnchorStore V) := {|
  store_error := PlatformError;
  store_read_verified s :=
    store_run s (file_read_verified (fun bytes => ok_or (decode_record bytes) PeInvalidData));
  store_write_full_and_sync s record :=
    store_run s (file_write_full_and_sync fuel (encode_record record []));
  store_sync_parent_if_created s :=
    let '(v, _, o) := exec env (fas_world s) (file_sync_parent (fas_backend s)) in
    match o with
    | Done (b, r) => (MkStore b v, r)
    | _ => (MkStore (fas_backend s) v, Err PeIo)
    end;
|}.

Definition open_existing (p : Path) : sys_act (result FileAnchorBackend PlatformError) :=
  let* there := sys_ask (SyExists p) in
  if negb there then done (Err PeInvalidData) else file_anchor_open p.

(** [startup_recover]: the two anchors are on media of their own. *)
Definition startup_recover (va vb : V) (anchor_a anchor_b : Path) :
  V * V * result RecoveryReport RecoveryError :=
  match run_sys va (open_existing anchor_a) with
  | (va, Err _) => (va, vb, Err ReStore)
  | (va, Ok a) =>
  match run_sys vb (open_existing anchor_b) with
  | (vb, Err _) => (va, vb, Err ReStore)
  | (vb, Ok b) =>
      let '(a, b, r) :=
        recover (H := file_anchor_store) (H0 := file_anchor_store)
          (MkStore a va) (MkStore b vb) in
      (fas_world a, fas_world b, r)
  end
  end.

End Startup.
