(* ===== verification/AnchorFileSpec.v ===== *)
(** * AnchorFileSpec: anchor files keep the storage contract

    The write loops on a file, the storage contract of the allocator on two files
    (so that no segment is issued twice on them), what a torn write needs to pass
    for a record, and the safety of start-up recovery. *)

From stdpp Require Import strings.
From S2P Require Export AnchorFile AllocatorSpec.

#[local] Open Scope list_scope.
#[local] Open Scope Z_scope.

(** ** Writing over a part of a content *)

Lemma overwrite_nil pos l : (pos <= length l)%nat -> overwrite pos [] l = l.
Proof.
  intros Hp. unfold overwrite, extend, zeros. replace (pos - length l)%nat with O by lia.
  cbn. rewrite app_nil_r, Nat.add_0_r. apply take_drop.
Qed.

Lemma length_extend n l : length (extend n l) = Nat.max n (length l).
Proof. unfold extend, zeros. rewrite length_app, repeat_length. lia. Qed.

Lemma overwrite_app pos x y l :
  overwrite (pos + length x) y (overwrite pos x l) = overwrite pos (x ++ y) l.
Proof.
  unfold overwrite at 1. set (l1 := overwrite pos x l).
  assert (Ht : length (take pos (extend pos l)) = pos)
    by (rewrite length_take, length_extend; lia).
  assert (Hl : (pos + length x <= length l1)%nat)
    by (unfold l1, overwrite; rewrite !length_app, Ht; lia).
  assert (He : extend (pos + length x) l1 = l1).
  { unfold extend, zeros. replace (pos + length x - length l1)%nat with O by lia.
    apply app_nil_r. }
  rewrite He. unfold l1, overwrite.
  rewrite (app_assoc (take pos (extend pos l)) x).
  rewrite take_app_length' by (rewrite length_app, Ht; reflexivity).
  rewrite <- !app_assoc. do 3 f_equal.
  rewrite drop_app_ge by lia. rewrite Ht, drop_app_ge by lia.
  rewrite drop_drop, length_app. f_equal. lia.
Qed.

Lemma overwrite_all bs l : take (length bs) (overwrite 0 bs l) = bs.
Proof.
  unfold overwrite. rewrite take_0, app_nil_l. apply take_app_length.
Qed.

(** ** The write loops *)

(** [d'] is [d] with a prefix of [bs] written from its position on, all of it when
    [full]; every content on the way is [d] with a prefix of [bs]. *)
Definition wrote (d : Device) (bs : list byte) (d' : Device) (full : bool) : Prop :=
  exists k, (k <= length bs)%nat /\ (full = true -> k = length bs) /\
    dv_data d' = overwrite (dv_pos d) (take k bs) (dv_data d) /\
    dv_pos d' = (dv_pos d + k)%nat /\
    forall x, x ∈ contents d' ->
      x ∈ contents d \/ exists j, (j <= k)%nat /\ x = overwrite (dv_pos d) (take j bs) (dv_data d).

Lemma wrote_none d d' bs :
  dv_data d' = dv_data d -> dv_older d' = dv_older d -> dv_pos d' = dv_pos d ->
  (dv_pos d <= length (dv_data d))%nat -> wrote d bs d' false.
Proof.
  intros Hd Ho Hp Hl. exists O. cbn. rewrite overwrite_nil by exact Hl.
  unfold contents. rewrite Hd, Ho, Hp, Nat.add_0_r. split_and!; auto; try discriminate; lia.
Qed.

Lemma wrote_nil d : (dv_pos d <= length (dv_data d))%nat -> wrote d [] d true.
Proof.
  intros Hl. exists O. cbn. rewrite overwrite_nil, Nat.add_0_r by exact Hl.
  split_and!; auto.
Qed.

Lemma overwrite_length pos bs l : (pos + length bs <= length (overwrite pos bs l))%nat.
Proof.
  unfold overwrite. rewrite !length_app, length_take, length_extend. lia.
Qed.

(** One chunk written, then the rest. *)
Lemma wrote_step d bs n d1 d' full :
  (n <= length bs)%nat ->
  dv_data d1 = overwrite (dv_pos d) (take n bs) (dv_data d) ->
  dv_older d1 = contents d -> dv_pos d1 = (dv_pos d + n)%nat ->
  wrote d1 (drop n bs) d' full -> wrote d bs d' full.
Proof.
  intros Hn Hd Ho Hp (k & Hk & Hf & Hd' & Hp' & Hc).
  rewrite length_drop in Hk.
  assert (Hj : forall j, overwrite (dv_pos d1) (take j (drop n bs)) (dv_data d1) =
    overwrite (dv_pos d) (take (n + j) bs) (dv_data d)).
  { intros j. rewrite Hd, Hp. replace n with (length (take n bs)) at 1
      by (rewrite length_take; lia).
    rewrite overwrite_app, take_take_drop. reflexivity. }
  exists (n + k)%nat. split; [lia|]. split.
  { intros E. specialize (Hf E). rewrite length_drop in Hf. lia. }
  split; [rewrite <- Hj; exact Hd'|]. split; [lia|].
  intros x Hx. destruct (Hc x Hx) as [Hx1|(j & Hjk & ->)].
  - unfold contents in Hx1 at 1. rewrite Hd, Ho in Hx1.
    apply elem_of_cons in Hx1 as [->|Hx1]; [|auto].
    right. exists n. split; [lia | reflexivity].
  - right. exists (n + j)%nat. split; [lia | apply Hj].
Qed.

(** What a call does to the script. *)
Lemma next_quirk_spec d q d1 :
  next_quirk d = (q, d1) ->
  dv_data d1 = dv_data d /\ dv_older d1 = dv_older d /\ dv_pos d1 = dv_pos d /\
  (dv_script d = [] /\ q = QkOk /\ d1 = d \/
   length (dv_script d) = S (length (dv_script d1))).
Proof.
  unfold next_quirk. destruct (dv_script d) eqn:E; intros [= <- <-]; cbn; auto 10.
Qed.

Lemma take_min_length {A} k (l : list A) : take (Nat.min k (length l)) l = take k l.
Proof.
  destruct (Nat.le_gt_cases k (length l)); [rewrite Nat.min_l by lia; reflexivity|].
  rewrite Nat.min_r, !take_ge by lia. reflexivity.
Qed.

(** One write call on a non-empty buffer: it fails and changes nothing, or takes [n]
    bytes; the script gets shorter, unless it is used up and all bytes are taken. *)
Lemma dev_write_call d bs d1 a :
  dev_call d (FdWrite bs) = (d1, a) ->
  (dv_pos d <= length (dv_data d))%nat ->
  match a with
  | Err e => dv_data d1 = dv_data d /\ dv_older d1 = dv_older d /\ dv_pos d1 = dv_pos d /\
      length (dv_script d) = S (length (dv_script d1))
  | Ok z => exists n, z = Z.of_nat n /\ (n <= length bs)%nat /\
      dv_data d1 = overwrite (dv_pos d) (take n bs) (dv_data d) /\
      dv_older d1 = contents d /\ dv_pos d1 = (dv_pos d + n)%nat /\
      (length (dv_script d) = S (length (dv_script d1)) \/ n = length bs /\
        dv_script d1 = dv_script d)
  end.
Proof.
  unfold dev_call. destruct (next_quirk d) as [q d0] eqn:Eq.
  apply next_quirk_spec in Eq as (Hd & Ho & Hp & Hs).
  intros E Hpos. destruct q as [|k|e]; injection E as <- <-.
  - exists (length bs). cbn. rewrite Hd, Hp. unfold contents. rewrite Hd, Ho, firstn_all.
    split_and!; auto; destruct Hs as [(Hs & _ & ->)|Hs]; auto.
  - destruct Hs as [(_ & [=] & _)|Hs].
    exists (length (take k bs)). cbn. rewrite Hd, Hp. unfold contents.
    rewrite Hd, Ho, length_take.
    split_and!; auto; [lia|]. rewrite take_min_length. reflexivity.
  - destruct Hs as [(_ & [=] & _)|Hs]. auto.
Qed.

(** A loop that calls [FdWrite] until its buffer is empty. *)
Section Loops.
Context {E : Type} (zero over : outcome (result unit E)) (failed : Errno -> E).

Definition write_loop : nat -> list byte -> fd_act (result unit E) :=
  fix loop fuel remaining :=
  match remaining with
  | [] => done (Ok tt)
  | _ =>
  match fuel with
  | O => Ret OutOfFuel
  | S fuel =>
      let* r := fd_ask (FdWrite remaining) in
      match r with
      | Ok n =>
          if n =? 0 then Ret zero else
          if n <=? Z.of_nat (length remaining) then loop fuel (drop (Z.to_nat n) remaining)
          else Ret over
      | Err EIntr => loop fuel remaining
      | Err e => done (Err (failed e))
      end
  end
  end.

(** On a file the loop ends, never sees a count beyond its buffer, and when it
    succeeds has written everything. *)
Lemma write_loop_spec ez : zero = Done (Err ez) -> forall fuel bs d d' t o,
  (length (dv_script d) < fuel)%nat -> (dv_pos d <= length (dv_data d))%nat ->
  exec dev_call d (write_loop fuel bs) = (d', t, o) ->
  exists r, o = Done r /\ wrote d bs d' (is_ok r) /\
    (length (dv_script d') <= length (dv_script d))%nat.
Proof.
  intros Hz. induction fuel as [|fuel IH]; intros bs d d' t o Hfu Hpos Ex; [lia|].
  destruct bs as [|b bs]; [injection Ex as <- _ <-; eauto using wrote_nil|].
  cbn -[dev_call] in Ex. destruct (dev_call d (FdWrite (b :: bs))) as [d1 a] eqn:Ec.
  apply dev_write_call in Ec; [|exact Hpos]. destruct a as [z|e].
  - destruct Ec as (n & -> & Hn & Hd & Ho & Hp & Hs).
    destruct (Z.eqb_spec (Z.of_nat n) 0) as [Hn0|Hn0].
    { cbn in Ex. injection Ex as <- _ <-. rewrite Hz. eexists. split; [reflexivity|].
      assert (n = 0)%nat as -> by lia. split; [|destruct Hs as [?|[? ->]]; cbn in *; lia].
      rewrite take_0 in Hd. eapply (wrote_step d _ 0 d1 d1); [lia|exact Hd|exact Ho|lia|].
      apply wrote_none; auto. rewrite Hd, Hp. pose proof (overwrite_length (dv_pos d) [] (dv_data d)). cbn in *. lia. }
    rewrite (proj2 (Z.leb_le (Z.of_nat n) (Z.of_nat (S (length bs))))) in Ex
      by (cbn in Hn; lia).
    rewrite Nat2Z.id in Ex.
    destruct (exec dev_call d1 _) as [[d2 t2] o2] eqn:Ex2. injection Ex as <- _ <-.
    assert (Hpos1 : (dv_pos d1 <= length (dv_data d1))%nat).
    { rewrite Hd, Hp. pose proof (overwrite_length (dv_pos d) (take n (b :: bs)) (dv_data d)) as Hl.
      rewrite length_take in Hl. lia. }
    destruct Hs as [Hs|[-> Hs]].
    + destruct (IH _ d1 _ _ _ ltac:(lia) Hpos1 Ex2) as (r & -> & Hw & Hle).
      exists r. split; [reflexivity|]. split; [|lia]. eapply wrote_step; eauto.
    + rewrite drop_all in Ex2. assert (d2 = d1 /\ o2 = Done (Ok tt)) as [-> ->]
        by (destruct fuel; injection Ex2 as <- _ <-; auto).
      eexists. split; [reflexivity|]. split; [|rewrite Hs; lia].
      eapply wrote_step; [|exact Hd|exact Ho|exact Hp|]; [lia|].
      rewrite drop_all. apply wrote_nil, Hpos1.
  - destruct Ec as (Hd & Ho & Hp & Hs).
    assert (R : forall p d2 t2 o2,
      p = write_loop fuel (b :: bs) \/ p = done (Err (failed e)) ->
      exec dev_call d1 p = (d2, t2, o2) ->
      exists r, o2 = Done r /\ wrote d (b :: bs) d2 (is_ok r) /\
        (length (dv_script d2) <= length (dv_script d))%nat).
    { intros p d2 t2 o2 [->| ->] Ex2.
      - assert (Hpos1 : (dv_pos d1 <= length (dv_data d1))%nat) by (rewrite Hd, Hp; exact Hpos).
        destruct (IH _ d1 _ _ _ ltac:(lia) Hpos1 Ex2) as (r & -> & Hw & Hle).
        exists r. split; [reflexivity|]. split; [|lia]. unfold wrote, contents in *.
        rewrite Hd, Ho, Hp in Hw. exact Hw.
      - injection Ex2 as <- _ <-. eexists. split; [reflexivity|].
        split; [apply wrote_none; auto | lia]. }
    destruct (exec dev_call d1 _) as [[d2 t2] o2] eqn:Ex2 in Ex.
    injection Ex as <- _ <-. revert Ex2. apply R. destruct e; auto.
Qed.

End Loops.

Lemma media_loop_eq :
  media_write_loop = write_loop (Done (Err MeShortWrite)) Panicked classify_persistence.
Proof. reflexivity. Qed.

Lemma write_full_eq :
  write_full = write_loop (Done (Err PeWriteZero)) (Done (Err PeIo)) from_io.
Proof. reflexivity. Qed.

(** A call that moves no data: it works or it fails. *)
Lemma dev_seek_call d off d1 a :
  dev_call d (FdSeek off) = (d1, a) ->
  dv_data d1 = dv_data d /\ dv_older d1 = dv_older d /\
  (length (dv_script d1) <= length (dv_script d))%nat /\
  (forall u, a = Ok u -> dv_pos d1 = Z.to_nat off).
Proof.
  unfold dev_call. destruct (next_quirk d) as [q d0] eqn:Eq.
  apply next_quirk_spec in Eq as (Hd & Ho & Hp & Hs).
  assert (Hle : (length (dv_script d0) <= length (dv_script d))%nat)
    by (destruct Hs as [(_ & _ & ->)|]; lia).
  intros E. destruct q; injection E as <- <-; cbn; auto. split_and!; auto. discriminate.
Qed.

Lemma dev_set_len_call d n d1 a :
  dev_call d (FdSetLen n) = (d1, a) ->
  (length (dv_script d1) <= length (dv_script d))%nat /\ dv_pos d1 = dv_pos d /\
  match a with
  | Ok _ => dv_data d1 = take (Z.to_nat n) (extend (Z.to_nat n) (dv_data d)) /\
      dv_older d1 = contents d
  | Err _ => dv_data d1 = dv_data d /\ dv_older d1 = dv_older d
  end.
Proof.
  unfold dev_call. destruct (next_quirk d) as [q d0] eqn:Eq.
  apply next_quirk_spec in Eq as (Hd & Ho & Hp & Hs).
  assert (Hle : (length (dv_script d0) <= length (dv_script d))%nat)
    by (destruct Hs as [(_ & _ & ->)|]; lia).
  intros E. destruct q; injection E as <- <-; cbn; unfold contents; rewrite ?Hd, ?Ho; auto.
Qed.

Lemma dev_sync_call d d1 a :
  dev_call d FdSync = (d1, a) ->
  (length (dv_script d1) <= length (dv_script d))%nat /\
  dv_data d1 = dv_data d /\ dv_pos d1 = dv_pos d /\
  dv_older d1 = match a with Ok _ => [] | Err _ => dv_older d end.
Proof.
  unfold dev_call. destruct (next_quirk d) as [q d0] eqn:Eq.
  apply next_quirk_spec in Eq as (Hd & Ho & Hp & Hs).
  assert (Hle : (length (dv_script d0) <= length (dv_script d))%nat)
    by (destruct Hs as [(_ & _ & ->)|]; lia).
  intros E. destruct q; injection E as <- <-; cbn; auto.
Qed.

Lemma dev_read_call d d1 a :
  dev_call d FdReadToEnd = (d1, a) ->
  (length (dv_script d1) <= length (dv_script d))%nat /\
  dv_data d1 = dv_data d /\ dv_older d1 = dv_older d /\
  (forall x, a = Ok x -> x = drop (dv_pos d) (dv_data d)).
Proof.
  unfold dev_call. destruct (next_quirk d) as [q d0] eqn:Eq.
  apply next_quirk_spec in Eq as (Hd & Ho & Hp & Hs).
  assert (Hle : (length (dv_script d0) <= length (dv_script d))%nat)
    by (destruct Hs as [(_ & _ & ->)|]; lia).
  intros E. destruct q; injection E as <- <-; cbn; rewrite ?Hd, ?Hp; split_and!; auto;
    intros x [=]; auto.
Qed.

(** ** The operations of [FileMedia] on a file *)

(** Opens [exec] of a sequence at its first call. *)
Ltac exec_call E :=
  cbn [act_bind prog_bind ask exec fd_ask done] in E;
  match type of E with
  | context [dev_call ?d ?c] =>
      let d1 := fresh "d" in let a := fresh "a" in let Ec := fresh "Ec" in
      destruct (dev_call d c) as [d1 a] eqn:Ec; cbv beta iota zeta in E
  end.

(** Where a write of [bs] can leave a file: as it was, with [bs] alone, or with a
    prefix of [bs] over what was there. *)
Definition mixture (d : Device) (bs x : list byte) : Prop :=
  x ∈ contents d \/ x = bs \/ exists j, (j <= length bs)%nat /\ x = overwrite 0 (take j bs) (dv_data d).

Lemma wrote_mixture d0 d bs d' full :
  wrote d0 bs d' full -> dv_pos d0 = O -> dv_data d0 = dv_data d -> dv_older d0 = dv_older d ->
  Forall (mixture d bs) (contents d').
Proof.
  intros (k & Hk & _ & _ & _ & Hc) Hp Hd Ho. apply list.Forall_forall. intros x Hx.
  destruct (Hc x Hx) as [Hx0|(j & Hj & ->)].
  - left. unfold contents in *. rewrite <- Hd, <- Ho. exact Hx0.
  - right. right. exists j. rewrite Hp, Hd. split; [lia | reflexivity].
Qed.

Lemma mixture_same d bs d' :
  dv_data d' = dv_data d -> dv_older d' = dv_older d -> Forall (mixture d bs) (contents d').
Proof.
  intros Hd Ho. apply list.Forall_forall. intros x Hx. left. unfold contents in *.
  rewrite Hd, Ho in Hx. exact Hx.
Qed.

(** The write ends; a success leaves exactly [bs]; what it leaves is a mixture. *)
Lemma media_write_spec d bs d' t o :
  exec dev_call d (media_file_write (loop_fuel d) bs) = (d', t, o) ->
  exists r, o = Done r /\ (forall u, r = Ok u -> dv_data d' = bs) /\
    Forall (mixture d bs) (contents d').
Proof.
  unfold media_file_write, loop_fuel. rewrite media_loop_eq. intros E.
  exec_call E. apply dev_seek_call in Ec as (Hd & Ho & Hs & Hp).
  destruct a as [[]|e]; [specialize (Hp tt eq_refl); change (Z.to_nat 0) with O in Hp|
    injection E as <- _ <-; eexists; split; [reflexivity|]; split; [discriminate|];
    apply mixture_same; auto].
  unfold act_bind in E at 1. rewrite exec_bind in E.
  destruct (exec dev_call d0 _) as [[d1 t1] o1] eqn:El.
  apply (write_loop_spec _ _ _ MeShortWrite) in El as (r1 & -> & Hw & Hsc);
    [|reflexivity|lia|lia].
  pose proof (wrote_mixture _ _ _ _ _ Hw Hp Hd Ho) as Hm.
  destruct r1 as [[]|e];
    [|cbn in E; injection E as <- _ <-; eexists; split; [reflexivity|];
      split; [discriminate | exact Hm]].
  exec_call E. apply dev_set_len_call in Ec as (_ & _ & Hl).
  destruct a as [[]|e]; injection E as <- _ <-; destruct Hl as [Hl1 Hl2];
    (eexists; split; [reflexivity|]); cbv beta iota delta [map_err].
  - assert (Hbs : dv_data d2 = bs).
    { rewrite Hl1. destruct Hw as (k & _ & Hk & -> & _).
      rewrite Hk, Hp, firstn_all, Nat2Z.id by reflexivity.
      unfold extend, zeros. pose proof (overwrite_length 0 bs (dv_data d0)).
      replace (length bs - _)%nat with O by lia. cbn [repeat]. rewrite app_nil_r.
      apply overwrite_all. }
    split; [auto|]. unfold contents. rewrite Hbs, Hl2. constructor; [right; left; reflexivity|].
    exact Hm.
  - split; [discriminate|]. unfold contents. rewrite Hl1, Hl2. exact Hm.
Qed.

Lemma media_read_spec d d' r :
  run_fd d media_file_read = (d', r) ->
  contents d' = contents d /\ (forall x, r = Ok x -> x = dv_data d).
Proof.
  unfold run_fd, media_file_read.
  destruct (exec _ _ _) as [[d2 t] o] eqn:E. intros [= <- <-].
  exec_call E. apply dev_seek_call in Ec as (Hd & Ho & _ & Hp). unfold contents.
  destruct a as [[]|e]; [specialize (Hp tt eq_refl); cbn in Hp|
    injection E as <- _ <-; rewrite Hd, Ho; split; [reflexivity | discriminate]].
  exec_call E. apply dev_read_call in Ec as (_ & Hd1 & Ho1 & Hx).
  injection E as <- _ <-. rewrite Hd1, Ho1, Hd, Ho. split; [reflexivity|].
  intros x Ex. destruct a as [y|]; [|discriminate Ex]. injection Ex as ->.
  rewrite (Hx x eq_refl), Hp, Hd. reflexivity.
Qed.

Lemma media_sync_spec d d' r :
  run_fd d media_file_sync = (d', r) ->
  dv_data d' = dv_data d /\
  dv_older d' = match r with Ok _ => [] | Err _ => dv_older d end.
Proof.
  unfold run_fd, media_file_sync, fsync_file.
  destruct (exec _ _ _) as [[d2 t] o] eqn:E. intros [= <- <-].
  exec_call E. apply dev_sync_call in Ec as (_ & Hd & _ & Ho).
  destruct a; injection E as <- _ <-; auto.
Qed.

(** ** The storage contract *)

Section Contract.
Context `{Sha256}.

Lemma with_file_same m c d : media_file (with_file m c d) c = d.
Proof. destruct c; reflexivity. Qed.

Lemma with_file_other m c d c' : c' <> c -> media_file (with_file m c d) c' = media_file m c'.
Proof. destruct c, c'; auto; congruence. Qed.

Lemma with_file_clean m c d : fm_clean (with_file m c d) = fm_clean m.
Proof. destruct c; reflexivity. Qed.

Lemma verifies_torn x : verifies x = false <-> torn x.
Proof.
  unfold verifies, torn. destruct (decode_and_verify x); cbn; split; eauto; try discriminate.
  intros [? [=]].
Qed.

Lemma clean_write_spec before after bs :
  clean_write before after bs = true ->
  forall x, x ∈ contents after -> x ∈ contents before \/ x = bs \/ torn x.
Proof.
  unfold clean_write. rewrite forallb_forall. intros Hc x Hx.
  apply list_elem_of_In in Hx. specialize (Hc x Hx).
  rewrite !orb_true_iff, negb_true_iff, !bool_decide_eq_true, verifies_torn in Hc. tauto.
Qed.

(** A copy other than the one of an operation is as before. *)
Lemma contents_with_file m c d c' x :
  (c' = c -> x ∈ contents d -> x ∈ contents (media_file m c)) ->
  x ∈ contents (media_file (with_file m c d) c') -> x ∈ contents (media_file m c').
Proof.
  intros Hc. destruct (decide (c' = c)) as [->|Hne].
  - rewrite with_file_same. auto.
  - rewrite with_file_other by exact Hne. auto.
Qed.

Lemma dev_crash_contents d x : x ∈ contents (dev_crash d) -> x ∈ contents d.
Proof.
  unfold dev_crash. destruct (next_quirk d) as [q d0] eqn:Eq.
  apply next_quirk_spec in Eq as (Hd & Ho & _ & _). unfold contents at 1. cbn [dv_data dv_older].
  rewrite list_elem_of_singleton. intros ->.
  assert (contents d = contents d0) as -> by (unfold contents; congruence).
  destruct q as [|k|]; [left | | left].
  apply list_elem_of_In. destruct (nth_in_or_default k (contents d0) (dv_data d0)) as [?|E];
    [assumption | rewrite E; left; reflexivity].
Qed.

(** Two files meet the contract; they are honest as long as no write was unclean. *)
#[export] Instance file_media_spec : MediaSpec FileMedia.
Proof.
  refine {| latest m c := dv_data (media_file m c);
            possible m c x := x ∈ contents (media_file m c);
            media_crash m := MkFileMedia (dev_crash (fm_a m)) (dev_crash (fm_b m)) (fm_clean m);
            honest m := fm_clean m = true |}.
  - intros m c m' r E. cbn in E. unfold on_file in E.
    destruct (run_fd _ _) as [d1 r1] eqn:Er. injection E as <- <-.
    apply media_read_spec in Er as [Hc Hx]. split; [rewrite with_file_clean; auto|]. split.
    + intros x ->. rewrite (Hx x eq_refl). left.
    + intros c' x. apply contents_with_file. rewrite Hc. auto.
  - intros m c bs m' r E. cbn in E. unfold on_file, run_fd in E.
    destruct (exec _ _ _) as [[d1 t1] o1] eqn:Ex. injection E as <- <-.
    apply media_write_spec in Ex as (r1 & -> & Hok & _). rewrite with_file_same.
    assert (Hf : forall b c', media_file (MkFileMedia (fm_a (with_file m c d1))
      (fm_b (with_file m c d1)) b) c' = media_file (with_file m c d1) c')
      by (intros b []; reflexivity).
    cbn [fm_clean]. rewrite with_file_clean. split; [apply andb_prop|]. split_and!.
    + intros Hh x. rewrite Hf, with_file_same. apply andb_prop in Hh as [_ Hh].
      apply clean_write_spec, Hh.
    + intros c' x Hne. rewrite Hf, with_file_other by exact Hne. auto.
    + intros u Hu. rewrite Hf, with_file_same. eauto.
  - intros m c m' r E. cbn in E. unfold on_file in E.
    destruct (run_fd _ _) as [d1 r1] eqn:Er. injection E as <- <-.
    apply media_sync_spec in Er as [Hd Ho]. split; [rewrite with_file_clean; auto|]. split.
    + intros c' x. apply contents_with_file. intros _. unfold contents. rewrite Hd, Ho.
      destruct r1; [|auto]. rewrite list_elem_of_singleton. intros ->. left.
    + intros u -> x. rewrite with_file_same. unfold contents. rewrite Hd, Ho.
      rewrite list_elem_of_singleton. auto.
  - intros m p m' r [= <- <-]. auto.
  - intros m. split; [auto|]. intros c x Hx. left.
    destruct c; apply dev_crash_contents; exact Hx.
Defined.

(** C3: on files too.  Over any history of opening, issuing, reserving, closing and crashing
    of the allocator on two anchor files and any book, whatever the file calls answer
    (failures, short writes, interruptions, full disks) and whichever content since the
    last sync a crash brings back, the ranges handed out never overlap and only move
    forward, unless a torn record has passed the digest. *)
Theorem file_no_reuse {R} `{SegmentReader R} (m : FileMedia) (r : R) evs i j b n b' n' :
  Forall wf_event evs ->
  let w := run (MkWorld m r None []) evs in
  fm_clean (disk w) = true ->
  w_log w !! i = Some (b, n) -> w_log w !! j = Some (b', n') -> (i < j)%nat ->
  0 <= b /\ 1 <= n /\ 1 <= n' /\ b + n <= b'.
Proof.
  intros Hev w Hh. apply increasing_disjoint. exact (run_increasing m r evs Hev Hh).
Qed.

(** ** What an unclean write would take *)

Lemma decode_shape x r : decode_and_verify x = Ok r ->
  x = record_prefix r ++ sha256 (record_prefix r) /\ length (record_prefix r) = 72%nat.
Proof.
  intros Hd. apply decode_ok_inv in Hd as (Hw & _ & <-). split; [reflexivity|].
  apply length_record_prefix, Hw.
Qed.

(** [x] is a front of the new record over the old one that passes for a record only because
    its digested part, which is not that of the old record, has the digest of that. *)
Definition spliced_collision (ro rn : AnchorRecord) (x : list byte) : Prop :=
  exists j, let p := take j (record_prefix rn) ++ drop j (record_prefix ro) in
    p <> record_prefix ro /\ sha256 p = sha256 (record_prefix ro) /\
    x = p ++ sha256 (record_prefix ro).

(** A part of one record over another, when it verifies, is one of the two or collides with
    the old one. *)
Lemma splice_verifies old new ro rn j x r :
  decode_and_verify old = Ok ro -> decode_and_verify new = Ok rn ->
  x = take j new ++ drop j old -> decode_and_verify x = Ok r ->
  x = old \/ x = new \/ spliced_collision ro rn x.
Proof.
  intros Ho Hn Hx Hr.
  apply decode_shape in Ho as [-> Hlo], Hn as [-> Hln], Hr as [Hr Hlr].
  pose proof (sha256_length (record_prefix ro)) as Hso.
  pose proof (sha256_length (record_prefix rn)) as Hsn.
  destruct (Nat.le_gt_cases j 72) as [Hj|Hj].
  - rewrite take_app_le, drop_app_le, app_assoc in Hx by lia.
    rewrite Hr in Hx |- *.
    apply app_inj_1 in Hx as [Hp Hs]; [|rewrite length_app, length_take, length_drop; lia].
    destruct (decide (record_prefix r = record_prefix ro)) as [E|Hne]; [left; congruence|].
    right. right. exists j. cbv zeta. rewrite <- Hp. split_and!; congruence.
  - rewrite take_app_ge, drop_app_ge, <- app_assoc in Hx by lia.
    rewrite Hr in Hx |- *. apply app_inj_1 in Hx as [Hp _]; [|lia].
    right. left. congruence.
Qed.

Lemma mixture_record d old rn x :
  decode_and_verify (dv_data d) = Ok old -> wf_record rn -> canonical rn ->
  mixture d (encode_record rn []) x ->
  x ∈ contents d \/ x = encode_record rn [] \/ torn x \/ spliced_collision old rn x.
Proof.
  intros Hd Hw Hc [?|[?|(j & Hj & Ex)]]; auto.
  destruct (decode_and_verify x) as [rx|e] eqn:Ev; [|right; right; left; exists e; exact Ev].
  pose proof (decode_shape _ _ Hd) as [Hds Hdl].
  assert (Hlen : length (dv_data d) = 104%nat)
    by (rewrite Hds, length_app, Hdl, sha256_length; reflexivity).
  assert (Hle : length (encode_record rn []) = 104%nat)
    by (unfold encode_record; rewrite app_nil_l, length_app, length_record_prefix, sha256_length
          by exact Hw; reflexivity).
  unfold overwrite in Ex. rewrite take_0, app_nil_l, length_take, Nat.min_l in Ex by lia.
  destruct (splice_verifies _ _ _ rn j _ rx Hd (decode_encode_record _ Hw Hc) Ex Ev)
    as [->|[->|?]]; auto. left. left.
Qed.

(** The file and the other file after a write, and after a sync. *)
Lemma media_write_file (m m' : FileMedia) copy bs r : media_write m copy bs = (m', r) ->
  (forall c, c <> copy -> media_file m' c = media_file m c) /\
  Forall (mixture (media_file m copy) bs) (contents (media_file m' copy)) /\
  (forall u, r = Ok u -> dv_data (media_file m' copy) = bs).
Proof.
  cbn. unfold on_file, run_fd. destruct (exec _ _ _) as [[d1 t1] o1] eqn:Ex. intros [= <- <-].
  apply media_write_spec in Ex as (r1 & -> & Hok & Hm).
  assert (Hf : forall b c, media_file (MkFileMedia (fm_a (with_file m copy d1))
    (fm_b (with_file m copy d1)) b) c = media_file (with_file m copy d1) c)
    by (intros b []; reflexivity).
  rewrite Hf, with_file_same. split; [|auto].
  intros c Hne. rewrite Hf. apply with_file_other, Hne.
Qed.

Lemma media_sync_file (m m' : FileMedia) copy r : media_sync m copy = (m', r) ->
  (forall c, c <> copy -> media_file m' c = media_file m c) /\
  dv_data (media_file m' copy) = dv_data (media_file m copy) /\
  dv_older (media_file m' copy) =
    match r with Ok _ => [] | Err _ => dv_older (media_file m copy) end.
Proof.
  cbn. unfold on_file. destruct (run_fd _ _) as [d1 r1] eqn:Er. intros [= <- <-].
  apply media_sync_spec in Er. rewrite with_file_same. split; [|exact Er].
  intros c Hne. apply with_file_other, Hne.
Qed.

(** What saving [bs] in a file comes to, with [ok] if it was reported as done: then the file
    holds [bs] alone, also after a crash; and in any case what it holds, now or after a
    crash, was there before, is [bs], or is [refused]. *)
Definition saved (before after : Device) (bs : list byte) (ok : bool)
  (refused : list byte -> Prop) : Prop :=
  (ok = true -> contents after = [bs]) /\
  forall x, x ∈ contents after \/ x ∈ contents (dev_crash after) ->
    x ∈ contents before \/ x = bs \/ refused x.

Lemma saved_intro before after bs ok refused :
  (ok = true -> dv_data after = bs /\ dv_older after = []) ->
  (forall x, x ∈ contents after -> x ∈ contents before \/ x = bs \/ refused x) ->
  saved before after bs ok refused.
Proof.
  intros Hok Hx. split.
  - intros Hk. destruct (Hok Hk) as [Hd Ho]. unfold contents. rewrite Hd, Ho. reflexivity.
  - intros x [Hin|Hin]; auto using dev_crash_contents.
Qed.

(** A record made durable by the allocator on one of its files. *)
Lemma persist_copy_saves (m m' : FileMedia) rn copy pts r old :
  wf_record rn -> canonical rn ->
  dv_older (media_file m copy) = [] ->
  decode_and_verify (dv_data (media_file m copy)) = Ok old ->
  persist_copy m rn copy pts = (m', r) ->
  (forall c, c <> copy -> media_file m' c = media_file m c) /\
  saved (media_file m copy) (media_file m' copy) (encode_record rn []) (is_ok r)
    (fun x => torn x \/ spliced_collision old rn x).
Proof.
  intros Hw Hc Ho Hd. destruct pts as [[[ws wc] ss] sr]. unfold persist_copy.
  destruct (media_boundary m ws) as [m0 r0] eqn:E0. injection E0 as <- <-.
  destruct (media_write m copy (encode_record rn [])) as [m1 r1] eqn:E1.
  apply media_write_file in E1 as (F1 & M1 & D1).
  assert (X1 : forall x, x ∈ contents (media_file m1 copy) ->
    x ∈ contents (media_file m copy) \/ x = encode_record rn [] \/ torn x \/
    spliced_collision old rn x).
  { rewrite list.Forall_forall in M1. intros x Hx. exact (mixture_record _ _ _ _ Hd Hw Hc (M1 x Hx)). }
  destruct r1 as [[]|e]; [|intros [= <- <-]; split; [exact F1 | apply saved_intro; [discriminate | exact X1]]].
  destruct (media_boundary m1 wc) as [m2 r2] eqn:E2. injection E2 as <- <-.
  destruct (media_boundary m1 ss) as [m3 r3] eqn:E3. injection E3 as <- <-.
  destruct (media_sync m1 copy) as [m4 r4] eqn:E4.
  apply media_sync_file in E4 as (F4 & D4 & O4). specialize (D1 tt eq_refl).
  assert (F : forall c, c <> copy -> media_file m4 c = media_file m c)
    by (intros c Hne; rewrite F4, F1 by exact Hne; reflexivity).
  assert (X4 : forall x, x ∈ contents (media_file m4 copy) -> x ∈ contents (media_file m1 copy)).
  { intros x. unfold contents. rewrite D4, O4. destruct r4; [|auto].
    rewrite list_elem_of_singleton. intros ->. left. }
  destruct r4 as [[]|e]; [|intros [= <- <-]; split; [exact F | apply saved_intro; [discriminate | auto]]].
  intros [= <- <-]. split; [exact F|]. apply saved_intro; [|auto].
  intros _. rewrite D4. split; [exact D1 | exact O4].
Qed.

End Contract.

(** ** Start-up recovery on files *)

(** The world of one anchor file, on a qualified file system. *)
Definition one_file (d : Device) (c : SysCall) : Device * sys_answer c :=
  match c return Device * sys_answer c with
  | SyExists _ => (d, true)
  | SyIsSymlink _ => (d, false)
  | SyStatfs _ => (d, Ok EXT_MAGIC)
  | SyMetadata _ => (d, Ok (MkMeta true 384 0))
  | SyReadFile _ | SyReadText _ => (d, Ok (dv_data d))
  | SyWriteFile _ _ => (d, Err EOther)
  | SyOpen _ _ => (move_to d 0, Ok 3)
  | SyFd _ c => dev_call d c
  | SyClone fd => (d, Ok fd)
  | SyOfdLock _ _ => (d, Ok tt)
  | SyUnlink _ => (d, Err EOther)
  | SyGetCoreLimit => (d, None)
  | SySetCoreLimit _ _ => (d, false)
  | SyGetDumpable | SySetDumpable _ => (d, 0)
  end.

Lemma one_file_fd {R} fd (p : prog FdCall fd_answer R) : forall d,
  exists t, exec one_file d (on_fd fd p) =
    (fst (fst (exec dev_call d p)), t, snd (exec dev_call d p)).
Proof.
  induction p as [r|c k IH]; intros d; cbn [on_fd exec]; [eexists; reflexivity|].
  cbn [one_file]. destruct (dev_call d c) as [d1 a]. destruct (IH a d1) as [t Et].
  rewrite Et. destruct (exec dev_call d1 (k a)) as [[d2 t2] r2]. cbn. eauto.
Qed.

(** A file as it may be met again: same contents, and its script has not grown. *)
Definition same_file (d d' : Device) : Prop :=
  contents d' = contents d /\ (length (dv_script d') <= length (dv_script d))%nat.

Section Startup.
Context `{Sha256} (fuel : nat).

Lemma open_existing_spec d p d' r :
  run_sys one_file d (open_existing p) = (d', r) ->
  same_file d d' /\ forall b, r = Ok b -> fab_created b = false.
Proof.
  unfold run_sys, open_existing, file_anchor_open, require_supported_filesystem, statfs_magic.
  cbn -[has_nul]. destruct (has_nul p); cbn; intros E; injection E as <- <-;
    (split; [split; [reflexivity | cbn; lia]|]);
    intros b; [discriminate | intros [= <-]; reflexivity].
Qed.

Let FStore : Type := FileAnchorStore Device.
#[local] Instance fstore : AnchorStore FStore := file_anchor_store one_file fuel.

Lemma file_read_spec d verify d' t (o : outcome (result AnchorRecord PlatformError)) :
  exec dev_call d (file_read_verified verify) = (d', t, o) ->
  same_file d d' /\ exists r, o = Done r /\ forall a, r = Ok a -> verify (dv_data d) = Ok a.
Proof.
  unfold file_read_verified. intros E.
  exec_call E. apply dev_seek_call in Ec as (Hd & Ho & Hs & Hp). unfold same_file, contents.
  destruct a as [[]|e]; [specialize (Hp tt eq_refl); change (Z.to_nat 0) with O in Hp|
    injection E as <- _ <-; rewrite Hd, Ho; split; [auto|]; eexists; split;
      [reflexivity | discriminate]].
  exec_call E. apply dev_read_call in Ec as (Hs1 & Hd1 & Ho1 & Hx).
  destruct a as [x|e]; injection E as <- _ <-; rewrite Hd1, Ho1, Hd, Ho;
    (split; [split; [reflexivity | lia]|]); (eexists; split; [reflexivity|]);
    [|discriminate].
  intros a Ha. rewrite (Hx x eq_refl), Hp, Hd in Ha. exact Ha.
Qed.

(** A full rewrite: what it leaves is what was there, the new bytes, or a shorter part of
    them; a success is durable. *)
Lemma file_write_spec d bs d' t o :
  (length (dv_script d) < fuel)%nat ->
  exec dev_call d (file_write_full_and_sync fuel bs) = (d', t, o) ->
  exists r, o = Done r /\ (length (dv_script d') <= length (dv_script d))%nat /\
    (forall u, r = Ok u -> dv_data d' = bs /\ dv_older d' = []) /\
    (forall x, x ∈ contents d' -> x ∈ contents d \/ x = bs \/ (length x < length bs)%nat).
Proof.
  unfold file_write_full_and_sync. rewrite write_full_eq. intros Hfu E.
  assert (Same : forall d1, dv_data d1 = dv_data d -> dv_older d1 = dv_older d ->
    forall x, x ∈ contents d1 -> x ∈ contents d \/ x = bs \/ (length x < length bs)%nat).
  { intros d1 Hd Ho x Hx. left. unfold contents in *. rewrite Hd, Ho in Hx. exact Hx. }
  exec_call E. apply dev_seek_call in Ec as (Hd & Ho & Hs & Hp).
  destruct a as [[]|e]; [specialize (Hp tt eq_refl); change (Z.to_nat 0) with O in Hp|
    injection E as <- _ <-; eexists; split; [reflexivity|]; split_and!; eauto; discriminate].
  exec_call E. apply dev_set_len_call in Ec as (Hs1 & Hp1 & Hl).
  destruct a as [[]|e]; [destruct Hl as [Hd1 Ho1]; change (Z.to_nat 0) with O in Hd1; rewrite take_0 in Hd1|
    destruct Hl as [Hd1 Ho1]; injection E as <- _ <-; eexists; split; [reflexivity|];
    split_and!; [lia|discriminate|apply Same; congruence]].
  unfold act_bind in E at 1. rewrite exec_bind in E.
  destruct (exec dev_call d1 _) as [[d2 t2] o2] eqn:El.
  apply (write_loop_spec _ _ _ PeWriteZero) in El as (r1 & -> & Hw & Hs2);
    [|reflexivity|lia|lia].
  assert (M : forall x, x ∈ contents d2 -> x ∈ contents d \/ x = bs \/ (length x < length bs)%nat).
  { intros x Hx. destruct Hw as (k & Hk & _ & _ & _ & Hc).
    destruct (Hc x Hx) as [Hx1|(j & Hj & ->)].
    - unfold contents in Hx1 at 1. rewrite Hd1, Ho1 in Hx1.
      apply elem_of_cons in Hx1 as [->|Hx1]; [|apply (Same d0); auto].
      destruct bs; [auto|]. right. right. cbn. lia.
    - rewrite Hp1, Hp, Hd1. unfold overwrite. rewrite take_0, app_nil_l, drop_nil, app_nil_r.
      destruct (Nat.eq_dec j (length bs)) as [->|]; [rewrite firstn_all; auto|].
      right. right. rewrite length_take. lia. }
  destruct r1 as [[]|e]; [|cbn in E; injection E as <- _ <-; eexists; split; [reflexivity|];
    split_and!; [lia|discriminate|exact M]].
  unfold fsync_file in E. exec_call E.
  apply dev_sync_call in Ec as (Hs3 & Hd3 & _ & Ho3).
  injection E as <- _ <-. eexists. split; [reflexivity|]. split; [lia|].
  destruct Hw as (k & Hk & Hf & Hd2 & _). specialize (Hf eq_refl). subst k.
  rewrite Hp1, Hp, Hd1, firstn_all in Hd2. unfold overwrite in Hd2.
  rewrite take_0, app_nil_l, drop_nil, app_nil_r in Hd2. split.
  - intros u Hu. destruct a; [|discriminate Hu]. rewrite Hd3, Ho3. auto.
  - intros x Hx. apply M. unfold contents in *. rewrite Hd3, Ho3 in Hx.
    destruct a; [|exact Hx]. apply list_elem_of_singleton in Hx as ->. left.
Qed.

Lemma short_torn x r : wf_record r -> (length x < length (encode_record r []))%nat -> torn x.
Proof.
  intros Hw Hx. rewrite length_encode in Hx by exact Hw.
  exists (DecodeFailed "length"%string). unfold decode_and_verify.
  destruct (Z.eqb_spec (Z.of_nat (length x)) ANCHOR_RECORD_LEN) as [E|];
    [unfold ANCHOR_RECORD_LEN in E; lia | reflexivity].
Qed.

(** A store on a file that was there when it was opened. *)
Definition open_store (s : FStore) : Prop := fab_created (fas_backend s) = false.

Lemma store_run_spec {T} (s s' : FStore) (p : fd_act (result T PlatformError)) r :
  store_run one_file s p = (s', r) ->
  fas_backend s' = fas_backend s /\
  exists t o, exec dev_call (fas_world s) p = (fas_world s', t, o) /\
    r = match o with Done r => r | _ => Err PeIo end.
Proof.
  unfold store_run, run_sys.
  destruct (one_file_fd (fab_file (fas_backend s)) p (fas_world s)) as [t ->].
  destruct (exec dev_call (fas_world s) p) as [[d t'] o]. cbn.
  intros [= <- <-]. cbn. eauto.
Qed.

Lemma store_read_spec (s s' : FStore) r :
  store_read_verified s = (s', r) ->
  fas_backend s' = fas_backend s /\ same_file (fas_world s) (fas_world s') /\
  forall a, r = Ok a -> decode_and_verify (dv_data (fas_world s)) = Ok a.
Proof.
  intros E. apply store_run_spec in E as (Hb & t & o & E & ->).
  apply file_read_spec in E as (Hs & r & -> & Hr). split; [exact Hb|]. split; [exact Hs|].
  intros a Ha. specialize (Hr a Ha). unfold decode_record in Hr.
  destruct (decode_and_verify _); [cbn in Hr; congruence | discriminate].
Qed.

Lemma store_sync_spec (s s' : FStore) r :
  open_store s -> store_sync_parent_if_created s = (s', r) ->
  fas_world s' = fas_world s /\ open_store s'.
Proof.
  unfold open_store. intros Hc E. cbn in E. unfold file_sync_parent in E.
  unfold sync_parent_if_created in E. rewrite Hc in E. cbn in E. injection E as <- <-. auto.
Qed.

(** The repair of one copy: its file may end anywhere on the way; a success is read back
    and durable. *)
Lemma repair_store_file (s s' : FStore) adopted r :
  open_store s -> wf_record adopted -> (length (dv_script (fas_world s)) < fuel)%nat ->
  repair_store s adopted = (s', r) ->
  (forall x, x ∈ contents (fas_world s') ->
     x ∈ contents (fas_world s) \/ x = encode_record adopted [] \/ torn x) /\
  (forall u, r = Ok u -> contents (fas_world s') = [encode_record adopted []]).
Proof.
  intros Hop Hw Hfu E. unfold repair_store in E.
  destruct (store_write_full_and_sync s adopted) as [s1 r1] eqn:E1.
  apply store_run_spec in E1 as (Hb1 & t & o & Ex & Hr1).
  apply file_write_spec in Ex as (r2 & -> & Hs1 & Hok & Hx); [|exact Hfu]. subst r2.
  assert (Hx' : forall x, x ∈ contents (fas_world s1) ->
    x ∈ contents (fas_world s) \/ x = encode_record adopted [] \/ torn x).
  { intros x Hin. destruct (Hx x Hin) as [?|[?|?]]; eauto using short_torn. }
  destruct r1 as [[]|e]; [|injection E as <- <-; split; [exact Hx' | discriminate]].
  destruct (store_sync_parent_if_created s1) as [s2 r2] eqn:E2.
  apply store_sync_spec in E2 as [Hw2 Hop2]; [|unfold open_store; rewrite Hb1; exact Hop].
  destruct r2 as [u|e]; [|injection E as <- <-; rewrite Hw2; split; [exact Hx' | discriminate]].
  destruct (store_read_verified s2) as [s3 r3] eqn:E3.
  apply store_read_spec in E3 as (_ & [Hc3 _] & _). rewrite Hw2 in Hc3.
  destruct r3 as [a|e]; [|injection E as <- <-; rewrite Hc3; split; [exact Hx' | discriminate]].
  case_bool_decide; injection E as <- <-; rewrite Hc3; (split; [exact Hx'|]); [|discriminate].
  intros _ _. unfold contents. destruct (Hok tt eq_refl) as [-> ->]. reflexivity.
Qed.

(** What start-up recovery may do to the file of the copy it repairs. *)
Definition repaired_file (before after : Device) (adopted : AnchorRecord) : Prop :=
  forall x, x ∈ contents after ->
    x ∈ contents before \/ x = encode_record adopted [] \/ torn x.

Lemma repair_store_outcome (s s' : FStore) before raw adopted rr :
  open_store s -> decode_and_verify raw = Ok adopted ->
  (length (dv_script (fas_world s)) < fuel)%nat -> contents (fas_world s) = contents before ->
  repair_store s adopted = (s', rr) ->
  repaired_file before (fas_world s') adopted /\
  (forall u, rr = Ok u -> decode_and_verify (dv_data (fas_world s')) = Ok adopted /\
                          dv_older (fas_world s') = []).
Proof.
  intros Hop Hd Hfu Hc Er. apply decode_ok_inv in Hd as (Hw & Hcan & _).
  apply repair_store_file in Er as [Hx Hk]; auto. rewrite Hc in Hx. split; [exact Hx|].
  intros u Hu. specialize (Hk u Hu). unfold contents in Hk. injection Hk as -> ->.
  split; [apply decode_encode_record; auto | reflexivity].
Qed.

(** C14: start-up recovery never endangers the record it adopts.  Whatever the file calls
    answer, at most one of two valid anchor files changes: the one with the older record,
    and what the disk may then hold of it is its former content, the adopted record or
    bytes the digest rejects.  A success adopts the larger pointer, and both files hold the
    adopted record, the repaired one durably. *)
Theorem recovery_keeps_best da db pa pb ra rb da' db' res :
  decode_and_verify (dv_data da) = Ok ra -> decode_and_verify (dv_data db) = Ok rb ->
  (length (dv_script da) < fuel)%nat -> (length (dv_script db) < fuel)%nat ->
  startup_recover one_file fuel da db pa pb = (da', db', res) ->
  (contents da' = contents da /\ contents db' = contents db \/
   contents da' = contents da /\ ar_next rb <= ar_next ra /\ repaired_file db db' ra \/
   contents db' = contents db /\ ar_next ra <= ar_next rb /\ repaired_file da da' rb) /\
  (forall rep, res = Ok rep ->
     decode_and_verify (dv_data da') = Ok (rr_adopted rep) /\
     decode_and_verify (dv_data db') = Ok (rr_adopted rep) /\
     ar_next (rr_adopted rep) = Z.max (ar_next ra) (ar_next rb) /\
     match rr_repaired rep with
     | Some CopyA => dv_older da' = [] | Some CopyB => dv_older db' = [] | None => True
     end).
Proof.
  intros Ha Hb Hfa Hfb E. unfold startup_recover in E.
  destruct (run_sys one_file da _) as [d1 r1] eqn:E1.
  apply open_existing_spec in E1 as [[C1 L1] B1].
  destruct r1 as [ba|e]; [|injection E as <- <- <-; split; [auto | discriminate]].
  destruct (run_sys one_file db _) as [d2 r2] eqn:E2.
  apply open_existing_spec in E2 as [[C2 L2] B2].
  destruct r2 as [bb|e]; [|injection E as <- <- <-; split; [auto | discriminate]].
  specialize (B1 ba eq_refl). specialize (B2 bb eq_refl).
  unfold recover, recover_with_options in E.
  destruct (store_read_verified (MkStore ba d1)) as [sa qa] eqn:Ea.
  apply store_read_spec in Ea as (Wa & [Ca La] & Qa).
  destruct (store_read_verified (MkStore bb d2)) as [sb qb] eqn:Eb.
  apply store_read_spec in Eb as (Wb & [Cb Lb] & Qb).
  cbn [fas_world fas_backend] in *. rewrite C1 in Ca. rewrite C2 in Cb.
  assert (D1 : dv_data d1 = dv_data da) by (unfold contents in C1; congruence).
  assert (D2 : dv_data d2 = dv_data db) by (unfold contents in C2; congruence).
  rewrite D1, Ha in Qa. rewrite D2, Hb in Qb.
  assert (Na : dv_data (fas_world sa) = dv_data da) by (unfold contents in Ca; congruence).
  assert (Nb : dv_data (fas_world sb) = dv_data db) by (unfold contents in Cb; congruence).
  destruct (choose _) as [[adopted stale]|e] eqn:Ec;
    [|injection E as <- <- <-; split; [auto | discriminate]].
  destruct qa as [a|]; [|destruct qb; discriminate Ec].
  destruct qb as [b|]; [|discriminate Ec]. cbn [map_err decide_anchors] in Ec.
  specialize (Qa a eq_refl). injection Qa as ->. specialize (Qb b eq_refl). injection Qb as ->.
  rewrite andb_false_r in E.
  destruct (decide_records a b) as [r|r c|c w|w|] eqn:Ed; try discriminate Ec;
    cbn in Ec; injection Ec as <- <-.
  - apply decide_records_consistent in Ed as [-> ->]. injection E as <- <- <-.
    split; [auto|]. intros rep [= <-]. cbn. rewrite Na, Nb, Z.max_id. auto.
  - apply decide_records_higher in Ed as (_ & Hmax & Hc).
    destruct c, Hc as [-> _];
      destruct (repair_store _ _) as [s' rr] eqn:Er; injection E as <- <- <-.
    + eapply (repair_store_outcome _ _ da) in Er as [Hx Hk];
        [|unfold open_store; rewrite Wa; exact B1 | exact Hb | lia | exact Ca].
      split; [right; right; split_and!; auto; lia|]. intros rep. destruct rr as [u|]; [|discriminate].
      intros [= <-]. cbn. destruct (Hk u eq_refl). rewrite Nb. auto.
    + eapply (repair_store_outcome _ _ db) in Er as [Hx Hk];
        [|unfold open_store; rewrite Wb; exact B2 | exact Ha | lia | exact Cb].
      split; [right; left; split_and!; auto; lia|]. intros rep. destruct rr as [u|]; [|discriminate].
      intros [= <-]. cbn. destruct (Hk u eq_refl). rewrite Na. auto.
Qed.

(** What start-up recovery may leave of a file, whatever was in both: what was there, the
    record that the other file holds, or bytes the digest rejects. *)
Definition repaired_from (d other d' : Device) : Prop :=
  forall x, x ∈ contents d' -> x ∈ contents d \/ torn x \/
    exists r, decode_and_verify (dv_data other) = Ok r /\ x = encode_record r [].

Lemma repaired_from_same d other d' : contents d' = contents d -> repaired_from d other d'.
Proof. intros E x Hx. left. rewrite <- E. exact Hx. Qed.

Lemma startup_files da db pa pb da' db' res :
  (length (dv_script da) < fuel)%nat -> (length (dv_script db) < fuel)%nat ->
  startup_recover one_file fuel da db pa pb = (da', db', res) ->
  repaired_from da db da' /\ repaired_from db da db'.
Proof.
  intros Hfa Hfb E. unfold startup_recover in E.
  destruct (run_sys one_file da _) as [d1 r1] eqn:E1.
  apply open_existing_spec in E1 as [[C1 L1] B1].
  destruct r1 as [ba|e]; [|injection E as <- <- _; auto using repaired_from_same].
  destruct (run_sys one_file db _) as [d2 r2] eqn:E2.
  apply open_existing_spec in E2 as [[C2 L2] B2].
  destruct r2 as [bb|e]; [|injection E as <- <- _; auto using repaired_from_same].
  specialize (B1 ba eq_refl). specialize (B2 bb eq_refl). unfold recover, recover_with_options in E.
  destruct (store_read_verified (MkStore ba d1)) as [sa qa] eqn:Ea.
  apply store_read_spec in Ea as (Wa & [Ca La] & Qa).
  destruct (store_read_verified (MkStore bb d2)) as [sb qb] eqn:Eb.
  apply store_read_spec in Eb as (Wb & [Cb Lb] & Qb).
  cbn [fas_world fas_backend] in *. rewrite C1 in Ca. rewrite C2 in Cb.
  assert (Same : forall d d', contents d = contents d' -> dv_data d = dv_data d')
    by (unfold contents; congruence).
  rewrite (Same d1 da C1) in Qa. rewrite (Same d2 db C2) in Qb.
  pose proof (repaired_from_same da db _ Ca) as Ra. pose proof (repaired_from_same db da _ Cb) as Rb.
  destruct (choose _) as [[adopted stale]|e] eqn:Ec; [|injection E as <- <- _; auto].
  apply choose_ok in Ec as (a & b & -> & -> & _ & Hst).
  specialize (Qa a eq_refl). specialize (Qb b eq_refl). rewrite andb_false_r in E.
  assert (Rep : forall s s' d other raw rr, open_store s -> contents (fas_world s) = contents d ->
    dv_data other = raw -> decode_and_verify raw = Ok adopted ->
    (length (dv_script (fas_world s)) < fuel)%nat -> repair_store s adopted = (s', rr) ->
    repaired_from d other (fas_world s')).
  { intros s s' d other raw rr Hop Hc <- Hd Hfu Er.
    destruct (repair_store_outcome s s' d _ adopted rr Hop Hd Hfu Hc Er) as [Hx _].
    intros x Hin. destruct (Hx x Hin) as [?|[->|?]]; eauto. }
  destruct stale as [[]|]; [| |injection E as <- <- _; auto];
    destruct Hst as [-> _]; destruct (repair_store _ _) as [s' rr] eqn:Er; injection E as <- <- _.
  - split; [|exact Rb]. eapply (Rep sa); try eassumption; [unfold open_store; rewrite Wa; exact B1 | reflexivity | lia].
  - split; [exact Ra|]. eapply (Rep sb); try eassumption; [unfold open_store; rewrite Wb; exact B2 | reflexivity | lia].
Qed.

End Startup.

(** C15: a record is written atomically and durably.  The start-up recovery writes over a
    file with anything in it: whatever the calls of the file answer, the write ends; when
    it succeeds the file holds exactly the new record, and a crash brings nothing else
    back; and in any case what the file holds, now or after a crash, was in it before, is
    the new record, or is not accepted by the decoder.  The allocator writes over a synced
    record: the same holds, with the other file left alone, unless a front of the new
    record over the old one has exactly the digest of the old one. *)
Theorem record_write_atomic `{Sha256} rn : wf_record rn -> canonical rn ->
  (forall fuel d d' t o, (length (dv_script d) < fuel)%nat ->
     exec dev_call d (file_write_full_and_sync fuel (encode_record rn [])) = (d', t, o) ->
     exists r, o = Done r /\ saved d d' (encode_record rn []) (is_ok r) torn) /\
  (forall (m m' : FileMedia) copy pts r old,
     dv_older (media_file m copy) = [] ->
     decode_and_verify (dv_data (media_file m copy)) = Ok old ->
     persist_copy m rn copy pts = (m', r) ->
     (forall c, c <> copy -> media_file m' c = media_file m c) /\
     saved (media_file m copy) (media_file m' copy) (encode_record rn []) (is_ok r)
       (fun x => torn x \/ spliced_collision old rn x)).
Proof.
  intros Hw Hc. split.
  - intros fuel d d' t o Hfu E. apply file_write_spec in E as (r & -> & _ & Hok & Hx); [|exact Hfu].
    exists r. split; [reflexivity|]. apply saved_intro.
    + destruct r as [u|]; [intros _; exact (Hok u eq_refl) | discriminate].
    + intros x Hin. destruct (Hx x Hin) as [?|[?|?]]; eauto using short_torn.
  - intros m m' copy pts r old. apply persist_copy_saves; assumption.
Qed.

(** ** Witnesses *)

#[local] Existing Instance low_digest.

Definition fresh_file (script : list Quirk) : Device :=
  MkDevice (encode_record (anchor_init sim_book_id) []) [] 0 script.

(** Copy A writes in pieces and is interrupted; a crash falls between two sessions. *)
Definition demo_files : FileMedia :=
  MkFileMedia (fresh_file [QkOk; QkOk; QkOk; QkShort 60; QkFail EIntr; QkShort 20])
    (fresh_file []) true.

Definition demo_file_events : list Event :=
  [EvOpen sim_book_id; EvIssue; EvCrash; EvOpen sim_book_id; EvReserve 3; EvClose].

Lemma file_no_reuse_witness :
  let log := w_log (run (MkWorld demo_files demo_book None []) demo_file_events) in
  log = [(0, 1); (1, 3)] /\ 0 + 1 <= 1.
Proof.
  assert (Hl : w_log (run (MkWorld demo_files demo_book None []) demo_file_events) =
    [(0, 1); (1, 3)]) by (vm_compute; reflexivity).
  assert (Hev : Forall wf_event demo_file_events) by (repeat constructor; simpl; lia).
  pose proof (file_no_reuse demo_files demo_book demo_file_events 0 1 0 1 1 3 Hev) as P.
  cbv zeta in P. rewrite Hl in P |- *. split; [reflexivity|].
  apply P; [vm_compute; reflexivity | reflexivity | reflexivity | lia].
Defined.

Definition demo_intent : AnchorRecord := MkAnchor sim_book_id 6 1 (PIntent 5).

(** The recovery writes in two pieces with an interruption; the allocator's disk fills up
    after fifty bytes of the record on A. *)
Definition slow_file : Device := fresh_file [QkOk; QkOk; QkShort 50; QkFail EIntr].

Definition full_files : FileMedia :=
  MkFileMedia (fresh_file [QkOk; QkShort 50; QkFail EIntr; QkFail ENoSpc]) (fresh_file []) true.

Lemma record_write_atomic_witness :
  let d := fst (fst (exec dev_call slow_file
    (file_write_full_and_sync 9 (encode_record demo_intent [])))) in
  let x := persist_copy full_files demo_intent CopyA
    (IntentAWriteStart, IntentAWriteComplete, IntentAFsyncStart, IntentAFsyncReturn) in
  contents d = [encode_record demo_intent []] /\ snd x = Err MeNoSpace /\
  saved (fm_a full_files) (media_file (fst x) CopyA) (encode_record demo_intent []) false
    (fun x => torn x \/ spliced_collision (anchor_init sim_book_id) demo_intent x).
Proof.
  cbv zeta.
  assert (Hw : wf_record demo_intent) by (unfold wf_record; simpl; repeat split; ulia).
  destruct (record_write_atomic demo_intent Hw ltac:(reflexivity)) as [R A].
  destruct (exec dev_call slow_file _) as [[d t] o] eqn:E.
  assert (Ho : snd (exec dev_call slow_file
    (file_write_full_and_sync 9 (encode_record demo_intent []))) = Done (Ok tt))
    by (vm_compute; reflexivity).
  rewrite E in Ho. cbn [snd] in Ho. subst o.
  apply R in E as (r & Hr & Hs & _); [|cbn; lia]. injection Hr as <-.
  split; [exact (Hs eq_refl)|].
  destruct (persist_copy full_files _ _ _) as [m r] eqn:Ep.
  assert (Hr : snd (persist_copy full_files demo_intent CopyA (IntentAWriteStart,
    IntentAWriteComplete, IntentAFsyncStart, IntentAFsyncReturn)) = Err MeNoSpace)
    by (vm_compute; reflexivity).
  rewrite Ep in Hr. cbn [snd] in Hr. subst r. split; [reflexivity|].
  exact (proj2 (A full_files m CopyA _ _ (anchor_init sim_book_id) eq_refl
    ltac:(vm_compute; reflexivity) Ep)).
Defined.

(** Copy B is one transaction behind and its repair is interrupted once. *)
Lemma recovery_keeps_best_witness :
  let da := MkDevice (encode_record demo_intent []) [] 0 [] in
  let db := fresh_file [QkOk; QkOk; QkOk; QkOk; QkShort 10; QkFail EIntr] in
  let path := components (ascii_bytes "/mnt/anchor") in
  exists da' db' rep, startup_recover one_file 10 da db path path = (da', db', Ok rep) /\
    rr_adopted rep = demo_intent /\ dv_older db' = [] /\
    decode_and_verify (dv_data db') = Ok demo_intent.
Proof.
  cbv zeta. set (da := MkDevice _ _ _ _). set (db := fresh_file _). set (path := components _).
  destruct (startup_recover one_file 10 da db path path) as [[da' db'] res] eqn:E.
  assert (Hr : snd (startup_recover one_file 10 da db path path) =
    Ok (MkReport demo_intent (Some CopyB) []
      [DualRollbackUndetectable; StaleCopyRepaired CopyB])) by (vm_compute; reflexivity).
  rewrite E in Hr. cbn [snd] in Hr. subst res.
  assert (Ha : decode_and_verify (dv_data da) = Ok demo_intent)
    by (vm_compute; reflexivity).
  assert (Hb : decode_and_verify (dv_data db) = Ok (anchor_init sim_book_id))
    by (vm_compute; reflexivity).
  destruct (recovery_keeps_best 10 da db path path demo_intent (anchor_init sim_book_id)
    da' db' _ Ha Hb
    ltac:(cbn; lia) ltac:(cbn; lia) E) as [_ H].
  destruct (H _ eq_refl) as (_ & Hb' & _ & Hd). exists da', db'.
  eexists. split; [reflexivity|]. split; [reflexivity|]. split; [exact Hd | exact Hb'].
Defined.
