(* ===== verification/Session.v ===== *)
(** * Session: the AEAD record layer ([otp-session])

    Nonce and AAD construction, the key split, and the [Session] state machine
    with its sequence discipline.  ChaCha20-Poly1305 is a third-party crate:
    the class [Aead] has its two operations, with the documented lengths and
    the fact that opening what was sealed gives the plaintext back.  A method
    returns the session it leaves; the outcome [None] is the panic of the
    [expect] on the keys. *)

From S2P Require Export Types.

#[local] Open Scope list_scope.
#[local] Open Scope Z_scope.

Class Aead := {
  aead_encrypt : list byte -> list byte -> list byte -> list byte ->
    option (list byte * list byte);
  aead_decrypt : list byte -> list byte -> list byte -> list byte ->
    list byte -> option (list byte);
  aead_lengths : forall k n a p c t, aead_encrypt k n a p = Some (c, t) ->
    length c = length p /\ length t = 16%nat;
  aead_decrypt_encrypt : forall k n a p c t,
    aead_encrypt k n a p = Some (c, t) -> aead_decrypt k n a c t = Some p;
}.

(** ** aad.rs *)

Definition AAD_LEN : Z := 73.
Definition AAD_VERSION : Z := 0x0002.

Inductive MessageType := ClientConfirm | ServerConfirm | DataRecord.

#[global] Instance message_type_eq_dec : EqDecision MessageType.
Proof. solve_decision. Defined.

Definition wire_code (mt : MessageType) : Z :=
  match mt with
  | ClientConfirm => 0x0004
  | ServerConfirm => 0x0005
  | DataRecord => 0x0006
  end.

Definition confirm_direction (mt : MessageType) : option Direction :=
  match mt with
  | ClientConfirm => Some ClientToServer
  | ServerConfirm => Some ServerToClient
  | DataRecord => None
  end.

Definition is_confirm (mt : MessageType) : bool :=
  match mt with DataRecord => false | _ => true end.

(** ** nonce.rs *)

Definition SESSION_DOMAIN_LEN : Z := 3.
Definition RECORD_NONCE_LEN : Z := 12.
Definition DIRECTION_WIRE_C2S : Z := 0x01.
Definition DIRECTION_WIRE_S2C : Z := 0x02.

Definition SessionNonceDomain : Type := list byte.

Definition from_session_nonce (session_nonce : Nonce) : SessionNonceDomain :=
  slice 0 (Z.to_nat SESSION_DOMAIN_LEN) session_nonce.

Definition direction_wire (d : Direction) : Z :=
  match d with
  | ClientToServer => DIRECTION_WIRE_C2S
  | ServerToClient => DIRECTION_WIRE_S2C
  end.

Definition direction_from_wire (b : Z) : option Direction :=
  if b =? DIRECTION_WIRE_C2S then Some ClientToServer
  else if b =? DIRECTION_WIRE_S2C then Some ServerToClient
  else None.

Definition record_nonce (domain : SessionNonceDomain) (d : Direction) (seq : Z) :
  Nonce :=
  domain ++ [z2b (direction_wire d)] ++ u64_be seq.

(** ** keys.rs *)

Record SessionKeys := MkKeys { key_c2s : list byte; key_s2c : list byte }.

(** [SessionKeys::split] of a 64-byte segment. *)
Definition split_segment (segment : list byte) : SessionKeys :=
  MkKeys (slice 0 (Z.to_nat DIRECTION_KEY_LEN) segment)
         (drop (Z.to_nat DIRECTION_KEY_LEN) segment).

Definition key_for (k : SessionKeys) (d : Direction) : list byte :=
  match d with ClientToServer => key_c2s k | ServerToClient => key_s2c k end.

(** [SessionKeys::burn]: both halves become zero. *)
Definition burn (k : SessionKeys) : SessionKeys :=
  MkKeys (zeros (length (key_c2s k))) (zeros (length (key_s2c k))).

(** ** session.rs *)

Definition pairing_valid (mt : MessageType) (d : Direction) : bool :=
  match mt, d with
  | ClientConfirm, ClientToServer => true
  | ServerConfirm, ServerToClient => true
  | DataRecord, _ => true
  | _, _ => false
  end.

Record SessionContext := MkCtx {
  sx_role : Role;
  sx_book_id : BookId;
  sx_segment : Z;
  sx_client_nonce : Nonce;
  sx_server_nonce : Nonce;
}.

(** [SessionContext::session_nonce]: the bytewise xor of the two nonces. *)
Definition session_nonce (c : SessionContext) : Nonce :=
  zip_with xor_byte (sx_client_nonce c) (sx_server_nonce c).

Definition nonce_domain (c : SessionContext) : SessionNonceDomain :=
  from_session_nonce (session_nonce c).

Definition build_aad (c : SessionContext) (mt : MessageType) (d : Direction)
  (epoch seq : Z) : list byte :=
  u16_be AAD_VERSION ++ u16_be (wire_code mt) ++ [z2b (direction_wire d)] ++
  sx_book_id c ++ u64_be (sx_segment c) ++ sx_client_nonce c ++
  sx_server_nonce c ++ u32_be epoch ++ u64_be seq.

Record SealedRecord := MkRecord { rc_sequence : Z; rc_sealed : list byte }.

Inductive SessionError :=
  | SeAuthenticationFailed | SeSequenceReplay | SeSequenceUnexpected
  | SeSequenceOverflow | SeWrongDirection | SeClosed.

#[global] Instance session_error_eq_dec : EqDecision SessionError.
Proof. solve_decision. Defined.

Definition session_error_wire_code (e : SessionError) : option Z :=
  match e with
  | SeAuthenticationFailed => Some 0x0201
  | SeSequenceReplay => Some 0x0204
  | SeSequenceUnexpected | SeSequenceOverflow => Some 0x030B
  | SeWrongDirection => Some 0x0306
  | SeClosed => None
  end.

Inductive Termination :=
  | TmSequenceOverflow | TmAuthentication | TmSequenceViolation | TmMisuse
  | TmClosed.

Record Session := MkSession {
  ss_ctx : SessionContext;
  ss_domain : SessionNonceDomain;
  ss_keys : option SessionKeys;
  ss_send_seq : Z * Z;
  ss_recv_last : option Z * option Z;
  ss_terminated : option Termination;
}.

Definition session_new (segment : list byte) (ctx : SessionContext) : Session :=
  MkSession ctx (nonce_domain ctx) (Some (split_segment segment)) (0, 0)
    (None, None) None.

Definition is_active (s : Session) : bool :=
  match ss_terminated s with None => true | Some _ => false end.

Definition session_role (s : Session) : Role := sx_role (ss_ctx s).

Definition next_send_sequence (s : Session) : Z :=
  at_dir (ss_send_seq s) (role_send_direction (session_role s)).

Definition last_accepted (s : Session) (d : Direction) : option Z :=
  at_dir (ss_recv_last s) d.

Definition ensure_active (s : Session) : result unit SessionError :=
  match ss_terminated s with
  | None => Ok tt
  | Some TmSequenceOverflow => Err SeSequenceOverflow
  | Some _ => Err SeClosed
  end.

Definition terminate (s : Session) (reason : Termination) : Session :=
  MkSession (ss_ctx s) (ss_domain s) None (ss_send_seq s) (ss_recv_last s)
    (Some reason).

Definition set_send_seq (s : Session) (d : Direction) (x : Z) : Session :=
  MkSession (ss_ctx s) (ss_domain s) (ss_keys s) (put_dir (ss_send_seq s) d x)
    (ss_recv_last s) (ss_terminated s).

Definition set_recv_last (s : Session) (d : Direction) (x : Z) : Session :=
  MkSession (ss_ctx s) (ss_domain s) (ss_keys s) (ss_send_seq s)
    (put_dir (ss_recv_last s) d (Some x)) (ss_terminated s).

Definition session_close (s : Session) : Session :=
  match ss_terminated s with
  | None => terminate s TmClosed
  | Some _ => s
  end.

(** [aead_material]: nonce, AAD and key; [None] if the keys are gone. *)
Definition aead_material (s : Session) (mt : MessageType) (d : Direction)
  (seq : Z) : option (Nonce * list byte * list byte) :=
  match ss_keys s with
  | None => None
  | Some k =>
      Some (record_nonce (ss_domain s) d seq,
            build_aad (ss_ctx s) mt d 0 seq, key_for k d)
  end.

(** The type/sequence discipline both calls check. *)
Definition seq_discipline_ok (mt : MessageType) (seq : Z) : bool :=
  if is_confirm mt then seq =? 0 else 1 <=? seq.

Section Calls.
Context `{Aead}.

(** [Session::seal]. *)
Definition seal_record (s : Session) (mt : MessageType) (plaintext : list byte) :
  Session * option (result SealedRecord SessionError) :=
  match ensure_active s with
  | Err e => (s, Some (Err e))
  | Ok _ =>
  let direction := role_send_direction (session_role s) in
  if negb (pairing_valid mt direction)
  then (terminate s TmMisuse, Some (Err SeWrongDirection)) else
  let seq := at_dir (ss_send_seq s) direction in
  if negb (seq_discipline_ok mt seq)
  then (terminate s TmSequenceViolation, Some (Err SeSequenceUnexpected)) else
  match aead_material s mt direction seq with
  | None => (s, None)
  | Some (nonce, aad, key) =>
      match aead_encrypt key nonce aad plaintext with
      | None => (terminate s TmAuthentication,
                 Some (Err SeAuthenticationFailed))
      | Some (ct, tag) =>
          let s :=
            match sequence_next seq with
            | Some next => set_send_seq s direction next
            | None => terminate s TmSequenceOverflow
            end in
          (s, Some (Ok (MkRecord seq (ct ++ tag))))
      end
  end
  end.

(** [Session::open]. *)
Definition open_record (s : Session) (mt : MessageType) (seq : Z)
  (sealed : list byte) : Session * option (result (list byte) SessionError) :=
  match ensure_active s with
  | Err e => (s, Some (Err e))
  | Ok _ =>
  let direction := opposite (role_send_direction (session_role s)) in
  if negb (pairing_valid mt direction)
  then (terminate s TmMisuse, Some (Err SeWrongDirection)) else
  if negb (seq_discipline_ok mt seq)
  then (terminate s TmSequenceViolation, Some (Err SeSequenceUnexpected)) else
  let last := at_dir (ss_recv_last s) direction in
  if bool_decide (last = Some seq)
  then (terminate s TmSequenceViolation, Some (Err SeSequenceReplay)) else
  let expected :=
    match last with None => Some 0 | Some l => sequence_next l end in
  if negb (bool_decide (expected = Some seq))
  then (terminate s TmSequenceViolation, Some (Err SeSequenceUnexpected)) else
  if Z.of_nat (length sealed) <? TAG_LEN
  then (terminate s TmAuthentication, Some (Err SeAuthenticationFailed)) else
  match aead_material s mt direction seq with
  | None => (s, None)
  | Some (nonce, aad, key) =>
      let cut := (length sealed - Z.to_nat TAG_LEN)%nat in
      match aead_decrypt key nonce aad (take cut sealed) (drop cut sealed) with
      | Some plaintext => (set_recv_last s direction seq, Some (Ok plaintext))
      | None => (terminate s TmAuthentication, Some (Err SeAuthenticationFailed))
      end
  end
  end.

End Calls.
