(* ===== verification/SessionSpec.v ===== *)
(** * SessionSpec: what the record layer guarantees

    Nonces never repeat and bind direction and sequence; the AAD determines
    its fields; records are accepted strictly in order; a failure of any kind
    destroys the keys for good; and what one end seals the other end opens. *)

From S2P Require Export Session.

#[local] Open Scope list_scope.
#[local] Open Scope Z_scope.

(** [terminated] is unset exactly while the keys are there. *)
Definition sess_inv (s : Session) : Prop :=
  (ss_terminated s = None <-> ss_keys s <> None) /\
  is_u64 (fst (ss_send_seq s)) /\ is_u64 (snd (ss_send_seq s)).

Definition wf_ctx (c : SessionContext) : Prop :=
  fixed 16 (sx_book_id c) /\ is_u64 (sx_segment c) /\
  fixed 16 (sx_client_nonce c) /\ fixed 16 (sx_server_nonce c).

Lemma sess_inv_new seg ctx : sess_inv (session_new seg ctx).
Proof. unfold sess_inv; simpl. split; [split; congruence | ulia]. Qed.

Lemma sess_inv_terminate s r : sess_inv s -> sess_inv (terminate s r).
Proof.
  intros (_ & ? & ?). unfold sess_inv; simpl. split; [split; congruence | auto].
Qed.

Lemma sess_inv_send s d x :
  sess_inv s -> is_u64 x -> sess_inv (set_send_seq s d x).
Proof.
  intros (? & ? & ?) ?. unfold sess_inv; simpl. destruct d; simpl; auto.
Qed.

Lemma sess_inv_recv s d x : sess_inv s -> sess_inv (set_recv_last s d x).
Proof. intros (? & ? & ?). unfold sess_inv; simpl; auto. Qed.

Lemma send_seq_u64 s d : sess_inv s -> is_u64 (at_dir (ss_send_seq s) d).
Proof. intros (_ & ? & ?). destruct d; auto. Qed.

Lemma ensure_active_ok s u : ensure_active s = Ok u <-> ss_terminated s = None.
Proof.
  unfold ensure_active. destruct u.
  destruct (ss_terminated s) as [[]|]; split; congruence.
Qed.

Lemma ensure_active_err s e :
  ensure_active s = Err e -> ss_terminated s <> None.
Proof. unfold ensure_active. destruct (ss_terminated s); congruence. Qed.

Definition send_dir (s : Session) : Direction :=
  role_send_direction (session_role s).
Definition recv_dir (s : Session) : Direction := opposite (send_dir s).

(** What a failing call leaves: no keys, terminated for good. *)
Definition failed (s s' : Session) : Prop :=
  ss_keys s' = None /\ ss_terminated s' <> None /\
  (ss_terminated s <> None -> s' = s).

Lemma failed_terminate s t :
  sess_inv s -> ss_terminated s = None ->
  sess_inv (terminate s t) /\ failed s (terminate s t).
Proof.
  intros. split; [apply sess_inv_terminate; auto|].
  split_and!; simpl; congruence.
Qed.

Lemma failed_stays s :
  sess_inv s -> ss_terminated s <> None -> sess_inv s /\ failed s s.
Proof.
  intros Hi Ht. split; [exact Hi|]. destruct Hi as ([_ Hk] & _).
  split_and!; auto. destruct (ss_keys s); [|reflexivity].
  destruct Ht. apply Hk. discriminate.
Qed.

Lemma live_keys s : sess_inv s -> ss_terminated s = None -> exists k, ss_keys s = Some k.
Proof. intros ([Hk _] & _) Ht. destruct (ss_keys s); [eauto|destruct (Hk Ht eq_refl)]. Qed.

Lemma session_close_keys s : sess_inv s -> ss_keys (session_close s) = None.
Proof.
  intros Hi. unfold session_close.
  destruct (ss_terminated s) eqn:Et; [|reflexivity].
  apply failed_stays; [exact Hi | congruence].
Qed.

Section Calls.
Context `{Aead}.

(** A successful [seal_record], forwards and backwards. *)
Lemma seal_ok s mt p s' r :
  seal_record s mt p = (s', Some (Ok r)) ->
  exists k ct tag, ss_terminated s = None /\ ss_keys s = Some k /\
    pairing_valid mt (send_dir s) = true /\
    rc_sequence r = at_dir (ss_send_seq s) (send_dir s) /\
    seq_discipline_ok mt (rc_sequence r) = true /\
    aead_encrypt (key_for k (send_dir s))
      (record_nonce (ss_domain s) (send_dir s) (rc_sequence r))
      (build_aad (ss_ctx s) mt (send_dir s) 0 (rc_sequence r)) p
      = Some (ct, tag) /\
    rc_sealed r = ct ++ tag /\
    s' = match sequence_next (rc_sequence r) with
         | Some next => set_send_seq s (send_dir s) next
         | None => terminate s TmSequenceOverflow
         end.
Proof.
  unfold seal_record, aead_material. fold (send_dir s). intros E.
  destruct (ensure_active s) as [[]|] eqn:Ea; [|discriminate].
  apply ensure_active_ok in Ea.
  destruct (pairing_valid mt (send_dir s)) eqn:Ep; [|discriminate].
  destruct (seq_discipline_ok mt _) eqn:Es; [|discriminate].
  destruct (ss_keys s) as [k|] eqn:Ek; [|discriminate].
  cbn [negb] in E.
  destruct (aead_encrypt _ _ _ p) as [[ct tag]|] eqn:Ee; [|discriminate].
  injection E as <- <-. exists k, ct, tag. simpl. auto 10.
Qed.

Lemma seal_shape s mt p s' res :
  sess_inv s -> seal_record s mt p = (s', res) ->
  sess_inv s' /\
  match res with
  | None => False
  | Some (Ok r) => ss_terminated s = None
  | Some (Err e) => failed s s'
  end.
Proof.
  intros Hi E. destruct res as [[r|e]|].
  - pose proof (seal_ok _ _ _ _ _ E)
      as (k & ct & tag & Ht & _ & _ & Hr & _ & _ & _ & ->).
    split; [|exact Ht]. pose proof (send_seq_u64 s (send_dir s) Hi) as Hu.
    rewrite <- Hr in Hu. destruct (sequence_next (rc_sequence r)) eqn:En;
      [|apply sess_inv_terminate, Hi].
    apply sequence_next_some in En as [-> ?].
    apply sess_inv_send; [exact Hi | ulia].
  - unfold seal_record in E. destruct (ensure_active s) as [[]|] eqn:Ea.
    + apply ensure_active_ok in Ea.
      repeat (case_match_in E; try discriminate E);
        injection E as <- <-; apply failed_terminate; auto.
    + apply ensure_active_err in Ea. injection E as <- <-.
      apply failed_stays; auto.
  - exfalso. unfold seal_record, aead_material in E.
    destruct (ensure_active s) as [[]|] eqn:Ea; [|discriminate].
    apply ensure_active_ok in Ea. destruct (live_keys s Hi Ea) as [k Hk].
    rewrite Hk in E. repeat (case_match_in E; try discriminate E).
Qed.

Definition expected_seq (s : Session) : option Z :=
  match at_dir (ss_recv_last s) (recv_dir s) with
  | None => Some 0
  | Some l => sequence_next l
  end.

(** The conditions under which [open_record] returns a plaintext. *)
Definition opens (s : Session) (mt : MessageType) (seq : Z)
  (sealed p : list byte) : Prop :=
  exists k ct tag, ss_terminated s = None /\ ss_keys s = Some k /\
    pairing_valid mt (recv_dir s) = true /\
    seq_discipline_ok mt seq = true /\ expected_seq s = Some seq /\
    sealed = ct ++ tag /\ length tag = 16%nat /\
    aead_decrypt (key_for k (recv_dir s))
      (record_nonce (ss_domain s) (recv_dir s) seq)
      (build_aad (ss_ctx s) mt (recv_dir s) 0 seq) ct tag = Some p.

Lemma expected_not_last s seq :
  expected_seq s = Some seq ->
  at_dir (ss_recv_last s) (recv_dir s) <> Some seq.
Proof.
  unfold expected_seq. intros E H0. rewrite H0 in E.
  apply sequence_next_some in E. lia.
Qed.

Lemma open_ok s mt seq sealed s' p :
  open_record s mt seq sealed = (s', Some (Ok p)) <->
  opens s mt seq sealed p /\ s' = set_recv_last s (recv_dir s) seq.
Proof.
  unfold open_record, aead_material, opens. fold (send_dir s).
  fold (recv_dir s). fold (expected_seq s). split.
  - intros E. destruct (ensure_active s) as [[]|] eqn:Ea; [|discriminate].
    apply ensure_active_ok in Ea.
    destruct (pairing_valid mt (recv_dir s)) eqn:Ep; [|discriminate].
    destruct (seq_discipline_ok mt seq) eqn:Es; [|discriminate].
    cbn [negb] in E. case_match_in E; [discriminate|].
    destruct (bool_decide (expected_seq s = Some seq)) eqn:Ex; [|discriminate].
    apply bool_decide_eq_true in Ex.
    destruct (Z.ltb_spec (Z.of_nat (length sealed)) TAG_LEN) as [|Hl];
      [discriminate|]. unfold TAG_LEN in Hl.
    destruct (ss_keys s) as [k|] eqn:Ek; [|discriminate].
    destruct (aead_decrypt _ _ _ _ _) as [q|] eqn:Ed; [|discriminate].
    injection E as <- <-. split; [|reflexivity].
    eexists k, _, _. split_and!; [auto..| | |exact Ed].
    + symmetry. apply take_drop.
    + rewrite length_drop. unfold TAG_LEN. lia.
  - intros [(k & ct & tag & Ht & Hk & Hp & Hs & Hx & -> & Hl & Hd) ->].
    rewrite (proj2 (ensure_active_ok s tt) Ht), Hp, Hs. cbn [negb].
    rewrite bool_decide_eq_false_2 by apply expected_not_last, Hx.
    rewrite bool_decide_eq_true_2 by exact Hx. cbn [negb].
    rewrite length_app, Hl. unfold TAG_LEN.
    destruct (Z.ltb_spec (Z.of_nat (length ct + 16)) 16); [lia|].
    rewrite Hk. change (Z.to_nat 16) with 16%nat.
    replace (length ct + 16 - 16)%nat with (length ct) by lia.
    rewrite take_app_length, drop_app_length, Hd. reflexivity.
Qed.

Lemma open_shape s mt seq sealed s' res :
  sess_inv s -> open_record s mt seq sealed = (s', res) ->
  sess_inv s' /\
  match res with
  | None => False
  | Some (Ok p) => ss_terminated s = None
  | Some (Err e) => failed s s'
  end.
Proof.
  intros Hi E. destruct res as [[r|e]|].
  - apply open_ok in E as [(k & ct & tag & Ht & _) ->].
    split; [apply sess_inv_recv, Hi | exact Ht].
  - unfold open_record in E. destruct (ensure_active s) as [[]|] eqn:Ea.
    + apply ensure_active_ok in Ea.
      repeat (case_match_in E; try discriminate E);
        injection E as <- <-; apply failed_terminate; auto.
    + apply ensure_active_err in Ea. injection E as <- <-.
      apply failed_stays; auto.
  - exfalso. unfold open_record, aead_material in E.
    destruct (ensure_active s) as [[]|] eqn:Ea; [|discriminate].
    apply ensure_active_ok in Ea. destruct (live_keys s Hi Ea) as [k Hk].
    rewrite Hk in E. repeat (case_match_in E; try discriminate E).
Qed.
End Calls.

(** ** Nonces and AAD *)

Lemma direction_wire_inj a b :
  [z2b (direction_wire a)] = [z2b (direction_wire b)] -> a = b.
Proof. destruct a, b; (reflexivity || discriminate). Qed.

Lemma wire_code_inj a b : u16_be (wire_code a) = u16_be (wire_code b) -> a = b.
Proof. destruct a, b; (reflexivity || discriminate). Qed.

Lemma record_nonce_inj dom dom' d d' q q' :
  length dom = length dom' -> is_u64 q -> is_u64 q' ->
  record_nonce dom d q = record_nonce dom' d' q' ->
  dom = dom' /\ d = d' /\ q = q'.
Proof.
  unfold record_nonce. intros Hl Hq Hq' E.
  apply app_inj_length in E as [-> E]; [|exact Hl].
  apply app_inj_length in E as [Ed E]; [|reflexivity].
  apply direction_wire_inj in Ed. apply be_bytes_inj in E; auto; ulia.
Qed.

(** ** Histories of one session *)

Inductive SessOp :=
  | OpSeal (mt : MessageType) (p : list byte)
  | OpOpen (mt : MessageType) (seq : Z) (sealed : list byte)
  | OpClose.

(** What a history shows: the records sealed (with their plaintext) and the
    records accepted (with their plaintext), in order. *)
Record Shown := MkShown {
  sh_sealed : list (MessageType * list byte * SealedRecord);
  sh_opened : list (MessageType * Z * list byte * list byte);
}.

Definition shown_nil : Shown := MkShown [] [].

Section Histories.
Context `{Aead}.

Definition sess_step (s : Session) (op : SessOp) : Session * Shown :=
  match op with
  | OpSeal mt p =>
      match seal_record s mt p with
      | (s, Some (Ok r)) => (s, MkShown [(mt, p, r)] [])
      | (s, _) => (s, shown_nil)
      end
  | OpOpen mt seq sealed =>
      match open_record s mt seq sealed with
      | (s, Some (Ok p)) => (s, MkShown [] [(mt, seq, sealed, p)])
      | (s, _) => (s, shown_nil)
      end
  | OpClose => (session_close s, shown_nil)
  end.

Fixpoint sess_run (s : Session) (ops : list SessOp) : Session * Shown :=
  match ops with
  | [] => (s, shown_nil)
  | op :: ops =>
      let '(s1, a) := sess_step s op in
      let '(s2, b) := sess_run s1 ops in
      (s2, MkShown (sh_sealed a ++ sh_sealed b) (sh_opened a ++ sh_opened b))
  end.

(** What a step leaves unchanged, and what it may change. *)
Definition evolves (s s' : Session) : Prop :=
  ss_ctx s' = ss_ctx s /\ ss_domain s' = ss_domain s /\
  (ss_keys s' = ss_keys s \/ ss_keys s' = None) /\
  (ss_terminated s <> None -> s' = s).

Lemma evolves_terminate s t : ss_terminated s = None -> evolves s (terminate s t).
Proof. intros Ht. unfold evolves; simpl. split_and!; auto. congruence. Qed.

Lemma seal_evolves s mt p s' res : seal_record s mt p = (s', res) -> evolves s s'.
Proof.
  unfold seal_record. intros E. destruct (ensure_active s) as [[]|] eqn:Ea.
  - apply ensure_active_ok in Ea.
    repeat (case_match_in E;
      try (injection E as <- <-; first [apply evolves_terminate, Ea
           | unfold evolves; simpl; split_and!; auto; congruence])).
  - injection E as <- <-. unfold evolves. auto.
Qed.

Lemma open_evolves s mt q b s' res :
  open_record s mt q b = (s', res) -> evolves s s'.
Proof.
  unfold open_record. intros E. destruct (ensure_active s) as [[]|] eqn:Ea.
  - apply ensure_active_ok in Ea.
    repeat (case_match_in E;
      try (injection E as <- <-; first [apply evolves_terminate, Ea
           | unfold evolves; simpl; split_and!; auto; congruence])).
  - injection E as <- <-. unfold evolves. auto.
Qed.

Lemma close_evolves s : evolves s (session_close s).
Proof.
  unfold session_close. destruct (ss_terminated s) eqn:E.
  - unfold evolves. auto.
  - apply evolves_terminate, E.
Qed.

Lemma step_evolves s op : evolves s (fst (sess_step s op)).
Proof.
  destruct op as [mt p|mt q b|]; simpl.
  - destruct (seal_record s mt p) as [s' [[r|]|]] eqn:E; eapply seal_evolves, E.
  - destruct (open_record s mt q b) as [s' [[r|]|]] eqn:E;
      eapply open_evolves, E.
  - apply close_evolves.
Qed.

(** A failed call shows nothing and keeps the counters. *)
Lemma failed_counters s mt p s' res :
  seal_record s mt p = (s', res) -> (forall r, res <> Some (Ok r)) ->
  ss_send_seq s' = ss_send_seq s /\ ss_recv_last s' = ss_recv_last s.
Proof.
  unfold seal_record. intros E Hn.
  repeat (case_match_in E; try (injection E as <- <-; auto; fail)).
  all: injection E as <- <-; destruct (Hn _ eq_refl).
Qed.

Lemma open_counters s mt q b s' res :
  open_record s mt q b = (s', res) -> (forall r, res <> Some (Ok r)) ->
  ss_send_seq s' = ss_send_seq s /\ ss_recv_last s' = ss_recv_last s.
Proof.
  unfold open_record. intros E Hn.
  repeat (case_match_in E; try (injection E as <- <-; auto; fail)).
  all: injection E as <- <-; destruct (Hn _ eq_refl).
Qed.

End Histories.

Section Runs.
Context `{Aead}.

Definition seal_seq (x : MessageType * list byte * SealedRecord) : Z :=
  rc_sequence (snd x).
Definition open_seq (x : MessageType * Z * list byte * list byte) : Z :=
  snd (fst (fst x)).

(** The next sequence number to accept. *)
Definition next_recv (s : Session) : Z :=
  match at_dir (ss_recv_last s) (recv_dir s) with None => 0 | Some l => l + 1 end.

Lemma expected_next s q : expected_seq s = Some q -> q = next_recv s.
Proof.
  unfold expected_seq, next_recv. destruct (at_dir _ _); [|congruence].
  intros E. apply sequence_next_some in E as [-> _]. reflexivity.
Qed.

(** A sealed record is the AEAD output under the session's own key, nonce
    (domain, send direction, sequence) and AAD; an accepted one passed the
    AEAD under the receive direction's. *)
Definition sealed_under (ctx : SessionContext) (dom : SessionNonceDomain)
  (k : SessionKeys) (x : MessageType * list byte * SealedRecord) : Prop :=
  let '(mt, p, r) := x in
  let d := role_send_direction (sx_role ctx) in
  exists ct tag,
    aead_encrypt (key_for k d) (record_nonce dom d (rc_sequence r))
      (build_aad ctx mt d 0 (rc_sequence r)) p = Some (ct, tag) /\
    rc_sealed r = ct ++ tag /\ is_u64 (rc_sequence r).

Definition opened_under (ctx : SessionContext) (dom : SessionNonceDomain)
  (k : SessionKeys) (x : MessageType * Z * list byte * list byte) : Prop :=
  let '(mt, seq, sealed, p) := x in
  let d := opposite (role_send_direction (sx_role ctx)) in
  exists ct tag, sealed = ct ++ tag /\ length tag = 16%nat /\
    aead_decrypt (key_for k d) (record_nonce dom d seq)
      (build_aad ctx mt d 0 seq) ct tag = Some p.

(** What one step shows and how it moves the counters. *)
Definition step_facts (s s1 : Session) (a : Shown) : Prop :=
  sess_inv s1 /\
  (forall k, ss_keys s = Some k ->
     Forall (sealed_under (ss_ctx s) (ss_domain s) k) (sh_sealed a) /\
     Forall (opened_under (ss_ctx s) (ss_domain s) k) (sh_opened a)) /\
  counts_from (at_dir (ss_send_seq s) (send_dir s)) (map seal_seq (sh_sealed a)) /\
  counts_from (next_recv s) (map open_seq (sh_opened a)) /\
  (ss_terminated s <> None -> a = shown_nil) /\
  (ss_terminated s1 = None ->
     at_dir (ss_send_seq s1) (send_dir s) =
       at_dir (ss_send_seq s) (send_dir s) + Z.of_nat (length (sh_sealed a)) /\
     next_recv s1 = next_recv s + Z.of_nat (length (sh_opened a))).

(** A step that shows nothing and terminates, or changes nothing. *)
Lemma quiet_facts s s1 :
  sess_inv s1 -> (ss_terminated s1 = None -> s1 = s) ->
  step_facts s s1 shown_nil.
Proof.
  intros Hi Ht. unfold step_facts. cbn. split_and!; auto.
  intros Hn. rewrite (Ht Hn). lia.
Qed.

Lemma seal_facts s mt p s1 r :
  sess_inv s -> seal_record s mt p = (s1, Some (Ok r)) ->
  step_facts s s1 (MkShown [(mt, p, r)] []).
Proof.
  intros Hi E. pose proof (proj1 (seal_shape _ _ _ _ _ Hi E)) as Hi1.
  apply seal_ok in E as (k & ct & tag & Ht & Hk & _ & Hr & _ & He & Hs & ->).
  unfold step_facts. cbn [sh_sealed sh_opened map length counts_from].
  split_and!; auto; [| congruence |].
  - intros k' Hk'. assert (k' = k) as -> by congruence.
    split; [|constructor]. constructor; [|constructor].
    exists ct, tag. split_and!; auto. rewrite Hr. apply send_seq_u64, Hi.
  - intros Ht1. destruct (sequence_next (rc_sequence r)) eqn:En;
      [|discriminate Ht1]. apply sequence_next_some in En as [-> _].
    unfold next_recv, recv_dir, send_dir, session_role in *. simpl.
    rewrite at_put_dir, Hr. split; lia.
Qed.

Lemma open_facts s mt q b s1 p :
  sess_inv s -> open_record s mt q b = (s1, Some (Ok p)) ->
  step_facts s s1 (MkShown [] [(mt, q, b, p)]).
Proof.
  intros Hi E. pose proof (proj1 (open_shape _ _ _ _ _ _ Hi E)) as Hi1.
  apply open_ok in E as
    [(k & ct & tag & Ht & Hk & _ & _ & Hx & Hb & Hl & Hd) ->].
  apply expected_next in Hx. unfold step_facts.
  cbn [sh_sealed sh_opened map length counts_from].
  split_and!; auto; [| congruence |].
  - intros k' Hk'. assert (k' = k) as -> by congruence.
    split; [constructor|]. constructor; [|constructor]. exists ct, tag. auto.
  - intros _. split; [simpl; lia|]. rewrite <- Hx. unfold next_recv.
    change (recv_dir (set_recv_last s (recv_dir s) q)) with (recv_dir s).
    simpl. rewrite at_put_dir. lia.
Qed.

Lemma sess_step_facts s op s1 a :
  sess_inv s -> sess_step s op = (s1, a) -> step_facts s s1 a.
Proof.
  intros Hi E. destruct op as [mt p|mt q b|]; simpl in E.
  - destruct (seal_record s mt p) as [s' [[r|e]|]] eqn:Es; injection E as <- <-.
    + apply seal_facts; auto.
    + destruct (seal_shape _ _ _ _ _ Hi Es) as (? & _ & ? & _).
      apply quiet_facts; [auto | congruence].
    + destruct (seal_shape _ _ _ _ _ Hi Es) as [_ []].
  - destruct (open_record s mt q b) as [s' [[r|e]|]] eqn:Es;
      injection E as <- <-.
    + apply open_facts; auto.
    + destruct (open_shape _ _ _ _ _ _ Hi Es) as (? & _ & ? & _).
      apply quiet_facts; [auto | congruence].
    + destruct (open_shape _ _ _ _ _ _ Hi Es) as [_ []].
  - injection E as <- <-. unfold session_close.
    destruct (ss_terminated s) eqn:Et; apply quiet_facts; auto.
    + apply sess_inv_terminate, Hi.
    + discriminate.
Qed.

Lemma run_terminated s ops :
  ss_terminated s <> None -> sess_inv s -> sess_run s ops = (s, shown_nil).
Proof.
  intros Ht Hi. induction ops as [|op ops IH]; [reflexivity|]. simpl.
  destruct (sess_step s op) as [s1 a] eqn:E.
  pose proof (step_evolves s op) as (_ & _ & _ & Hs). rewrite E in Hs.
  cbn [fst] in Hs. rewrite (Hs Ht).
  apply sess_step_facts in E as (_ & _ & _ & _ & Ha & _); [|exact Hi].
  rewrite (Ha Ht), IH. reflexivity.
Qed.

Lemma sess_run_facts ops : forall s s' sh,
  sess_inv s -> sess_run s ops = (s', sh) ->
  (forall k, ss_keys s = Some k ->
     Forall (sealed_under (ss_ctx s) (ss_domain s) k) (sh_sealed sh) /\
     Forall (opened_under (ss_ctx s) (ss_domain s) k) (sh_opened sh)) /\
  counts_from (at_dir (ss_send_seq s) (send_dir s)) (map seal_seq (sh_sealed sh)) /\
  counts_from (next_recv s) (map open_seq (sh_opened sh)).
Proof.
  induction ops as [|op ops IH]; intros s s' sh Hi E; simpl in E.
  { injection E as <- <-. simpl. auto. }
  destruct (sess_step s op) as [s1 a] eqn:E1.
  destruct (sess_run s1 ops) as [s2 b] eqn:E2. injection E as <- <-.
  pose proof (step_evolves s op) as (Hc & Hdom & Hk & _). rewrite E1 in *.
  cbn [fst] in *.
  destruct (sess_step_facts _ _ _ _ Hi E1) as (Hi1 & Fa & Ca & Da & _ & Hn).
  cbn [sh_sealed sh_opened]. rewrite !map_app.
  destruct (decide (is_Some (ss_terminated s1))) as [Ht|Ht].
  - rewrite run_terminated in E2 by (auto; destruct Ht; congruence).
    injection E2 as <- <-. simpl. rewrite !app_nil_r. auto.
  - apply eq_None_not_Some in Ht. destruct (Hn Ht) as [Hs Hr].
    destruct (IH _ _ _ Hi1 E2) as (Fb & Cb & Db).
    unfold send_dir, session_role in Cb, Hs. rewrite Hc in Cb. 
    split_and!.
    + intros k Hks. destruct (Fa k Hks) as [? ?].
      destruct Hk as [Hk|Hk]; [|apply live_keys in Ht as [? ?]; congruence].
      rewrite Hks in Hk. destruct (Fb k Hk) as [? ?]. rewrite Hc, Hdom in *.
      split; apply Forall_app; auto.
    + apply counts_from_app; [exact Ca|]. rewrite length_map.
      unfold send_dir, session_role. rewrite <- Hs. exact Cb.
    + apply counts_from_app; [exact Da|]. rewrite length_map, <- Hr. exact Db.
Qed.

(** ** Two ends of one session *)

(** [b] is the peer of [a]: other role, same keys, same public context, and
    [b] expects what [a] sends next (unless [a] has terminated). *)
Definition linked (a b : Session) : Prop :=
  session_role b <> session_role a /\
  sx_book_id (ss_ctx b) = sx_book_id (ss_ctx a) /\
  sx_segment (ss_ctx b) = sx_segment (ss_ctx a) /\
  sx_client_nonce (ss_ctx b) = sx_client_nonce (ss_ctx a) /\
  sx_server_nonce (ss_ctx b) = sx_server_nonce (ss_ctx a) /\
  ss_domain b = ss_domain a /\
  (ss_terminated a = None ->
     ss_terminated b = None /\ ss_keys b = ss_keys a /\
     expected_seq b = Some (at_dir (ss_send_seq a) (send_dir a))).

Lemma linked_dir a b : linked a b -> recv_dir b = send_dir a.
Proof.
  intros (Hr & _). unfold recv_dir, send_dir.
  destruct (session_role a), (session_role b); simpl; congruence.
Qed.

Lemma linked_aad a b mt d e q :
  linked a b -> build_aad (ss_ctx b) mt d e q = build_aad (ss_ctx a) mt d e q.
Proof. intros (_ & H1 & H2 & H3 & H4 & _). unfold build_aad. congruence. Qed.

Lemma linked_seal a b mt p a' r :
  linked a b -> seal_record a mt p = (a', Some (Ok r)) ->
  exists b', open_record b mt (rc_sequence r) (rc_sealed r) =
    (b', Some (Ok p)) /\ linked a' b'.
Proof.
  intros Hl E. pose proof (linked_dir _ _ Hl) as Hd.
  pose proof (fun mt d e q => linked_aad a b mt d e q Hl) as Haad.
  apply seal_ok in E
    as (k & ct & tag & Ht & Hk & Hp & Hr & Hs & He & Hsl & Ha').
  destruct Hl as (Hro & H1 & H2 & H3 & H4 & Hdom & Hlive).
  destruct (Hlive Ht) as (Htb & Hkb & Hx).
  pose proof (aead_lengths _ _ _ _ _ _ He) as [_ Hlt].
  exists (set_recv_last b (recv_dir b) (rc_sequence r)). split.
  - apply open_ok. split; [|reflexivity]. exists k, ct, tag.
    rewrite Hd, Hdom, Haad. split_and!; auto; try congruence.
    apply aead_decrypt_encrypt, He.
  - subst a'. unfold linked.
    assert (Hx' : expected_seq (set_recv_last b (recv_dir b) (rc_sequence r))
                  = sequence_next (rc_sequence r)).
    { unfold expected_seq.
      change (recv_dir (set_recv_last b _ _)) with (recv_dir b). simpl.
      rewrite at_put_dir. reflexivity. }
    destruct (sequence_next (rc_sequence r)) as [n|] eqn:En;
      (do 6 (split; [assumption|])); [|discriminate].
    intros _. split; [exact Htb|]. split; [simpl; congruence|].
    rewrite Hx'. change (send_dir (set_send_seq a _ _)) with (send_dir a).
    simpl. rewrite at_put_dir. reflexivity.
Qed.

(** Sealing a list of messages, all successfully. *)
Fixpoint seal_all (s : Session) (ms : list (MessageType * list byte)) :
  option (Session * list SealedRecord) :=
  match ms with
  | [] => Some (s, [])
  | (mt, p) :: ms =>
      match seal_record s mt p with
      | (s, Some (Ok r)) =>
          match seal_all s ms with
          | Some (s, rs) => Some (s, r :: rs)
          | None => None
          end
      | _ => None
      end
  end.

(** Opening records of given types, all successfully. *)
Fixpoint open_all (s : Session) (rs : list (MessageType * SealedRecord)) :
  option (Session * list (list byte)) :=
  match rs with
  | [] => Some (s, [])
  | (mt, r) :: rs =>
      match open_record s mt (rc_sequence r) (rc_sealed r) with
      | (s, Some (Ok p)) =>
          match open_all s rs with
          | Some (s, ps) => Some (s, p :: ps)
          | None => None
          end
      | _ => None
      end
  end.

Lemma linked_new seg ctx ctx' :
  sx_role ctx' <> sx_role ctx -> sx_book_id ctx' = sx_book_id ctx ->
  sx_segment ctx' = sx_segment ctx ->
  sx_client_nonce ctx' = sx_client_nonce ctx ->
  sx_server_nonce ctx' = sx_server_nonce ctx ->
  linked (session_new seg ctx) (session_new seg ctx').
Proof.
  intros. unfold linked, session_role, expected_seq; simpl.
  unfold nonce_domain, session_nonce. split_and!; auto; [congruence|].
  intros _. split_and!; auto.
  destruct (recv_dir _), (send_dir _); reflexivity.
Qed.

(** A call that cannot panic, whose errors destroy the keys for good, and
    which a terminated session refuses without changing. *)
Definition call_safe {A} (s : Session)
  (call : Session * option (result A SessionError)) : Prop :=
  let '(s', res) := call in
  sess_inv s' /\ res <> None /\
  (forall e, res = Some (Err e) ->
     ss_keys s' = None /\ ss_terminated s' <> None) /\
  (ss_terminated s <> None -> s' = s /\ exists e, res = Some (Err e)).

Lemma shape_safe {A} s s' (res : option (result A SessionError)) :
  sess_inv s' ->
  match res with
  | None => False
  | Some (Ok _) => ss_terminated s = None
  | Some (Err _) => failed s s'
  end -> call_safe s (s', res).
Proof.
  intros Hi Hs. unfold call_safe, failed in *.
  destruct res as [[x|e]|]; [| |destruct Hs]; split_and!; auto;
    try discriminate; try congruence.
  - intros e' _. destruct Hs as (? & ? & _). auto.
  - intros Ht. destruct Hs as (_ & _ & Hs). eauto.
Qed.

(** ** Properties *)

(** C16: no AEAD nonce is used twice under a key.  In any history of a
    session, whatever is sealed, opened or attempted, the records it seals
    carry the sequence numbers 0, 1, 2, ... of its send direction, each record
    is the AEAD output under the nonce of its own number, and those nonces are
    pairwise different and different from every nonce of the other
    direction. *)
Theorem nonce_never_reused seg ctx ops s sh :
  wf_ctx ctx -> sess_run (session_new seg ctx) ops = (s, sh) ->
  let d := role_send_direction (sx_role ctx) in
  let dom := nonce_domain ctx in
  counts_from 0 (map seal_seq (sh_sealed sh)) /\
  Forall (sealed_under ctx dom (split_segment seg)) (sh_sealed sh) /\
  (forall i j x y, sh_sealed sh !! i = Some x -> sh_sealed sh !! j = Some y ->
     i <> j ->
     record_nonce dom d (seal_seq x) <> record_nonce dom d (seal_seq y)) /\
  (forall q q', record_nonce dom d q <> record_nonce dom (opposite d) q').
Proof.
  intros _ E d dom.
  destruct (sess_run_facts _ _ _ _ (sess_inv_new seg ctx) E) as (F & C & _).
  destruct (F _ eq_refl) as [Fs _].
  assert (C0 : counts_from 0 (map seal_seq (sh_sealed sh)))
    by (unfold send_dir in C; simpl in C; destruct (role_send_direction _);
        exact C).
  split_and!; auto.
  - intros i j x y Hx Hy Hne Heq.
    assert (Hu : forall i x, sh_sealed sh !! i = Some x -> is_u64 (seal_seq x)).
    { intros i' x' Hx'. rewrite Forall_lookup in Fs. specialize (Fs _ _ Hx').
      destruct x' as [[mt p] r]. destruct Fs as (? & ? & _ & _ & ?). auto. }
    apply record_nonce_inj in Heq as (_ & _ & Heq); eauto.
    pose proof (counts_from_lookup _ 0 i (seal_seq x) C0).
    pose proof (counts_from_lookup _ 0 j (seal_seq y) C0).
    rewrite !list_lookup_fmap, ?Hx, ?Hy in *. simpl in *.
    specialize (H0 eq_refl). specialize (H1 eq_refl). lia.
  - intros q q' Heq. unfold record_nonce in Heq.
    apply app_inj_length in Heq as [_ Heq]; [|reflexivity].
    apply app_inj_length in Heq as [Heq _]; [|reflexivity].
    apply direction_wire_inj in Heq. destruct d; discriminate Heq.
Qed.

(** The associated data determines the record type, the direction, the
    epoch, the sequence and every field of the context: no two different
    settings share an AAD. *)
Theorem aad_injective c c' mt mt' d d' e e' q q' :
  wf_ctx c -> wf_ctx c' -> is_u32 e -> is_u32 e' -> is_u64 q -> is_u64 q' ->
  build_aad c mt d e q = build_aad c' mt' d' e' q' ->
  mt = mt' /\ d = d' /\ e = e' /\ q = q' /\
  sx_book_id c = sx_book_id c' /\ sx_segment c = sx_segment c' /\
  sx_client_nonce c = sx_client_nonce c' /\
  sx_server_nonce c = sx_server_nonce c'.
Proof.
  intros (B & S & C & V) (B' & S' & C' & V') He He' Hq Hq' E.
  unfold build_aad, fixed in *.
  apply app_inj_length in E as [_ E]; [|reflexivity].
  apply app_inj_length in E as [E1 E]; [|reflexivity].
  apply app_inj_length in E as [E2 E]; [|reflexivity].
  apply app_inj_length in E as [E3 E]; [|congruence].
  apply app_inj_length in E as [E4 E]; [|reflexivity].
  apply app_inj_length in E as [E5 E]; [|congruence].
  apply app_inj_length in E as [E6 E]; [|congruence].
  apply app_inj_length in E as [E7 E8]; [|reflexivity].
  apply wire_code_inj in E1. apply direction_wire_inj in E2.
  apply be_bytes_inj in E4, E7, E8; try ulia. auto 10.
Qed.

(** C23: what one end seals, the other opens.  If two sessions are made from
    one segment and one context in opposite roles, then every sequence of
    messages one of them seals successfully is opened by the other, in order,
    to exactly the same plaintexts. *)
Theorem channel_roundtrip seg ctx ctx' ms a' rs :
  sx_role ctx' <> sx_role ctx -> sx_book_id ctx' = sx_book_id ctx ->
  sx_segment ctx' = sx_segment ctx ->
  sx_client_nonce ctx' = sx_client_nonce ctx ->
  sx_server_nonce ctx' = sx_server_nonce ctx ->
  seal_all (session_new seg ctx) ms = Some (a', rs) ->
  exists b', open_all (session_new seg ctx') (zip (map fst ms) rs) =
    Some (b', map snd ms).
Proof.
  intros H1 H2 H3 H4 H5.
  generalize (linked_new seg ctx ctx' H1 H2 H3 H4 H5).
  generalize (session_new seg ctx), (session_new seg ctx').
  clear. revert a' rs. induction ms as [|[mt p] ms IH]; intros a' rs a b Hl E;
    simpl in E.
  - injection E as <- <-. simpl. eauto.
  - destruct (seal_record a mt p) as [a1 [[r|]|]] eqn:Es; try discriminate.
    destruct (seal_all a1 ms) as [[a2 rs']|] eqn:Ea; [|discriminate].
    injection E as <- <-.
    destruct (linked_seal _ _ _ _ _ _ Hl Es) as (b1 & Ho & Hl1).
    destruct (IH _ _ _ _ Hl1 Ea) as [b2 Hb]. exists b2. simpl.
    rewrite Ho, Hb. reflexivity.
Qed.

(** C18: fail closed.  From any state a history can reach, no call panics; a
    call that returns an error leaves a terminated session without keys, and so
    does closing, which gives a live session the reason "closed"; and a
    terminated session never changes again, its reason included, and never
    yields a record or a plaintext, whatever is called on it. *)
Theorem session_fail_closed s mt p q b :
  sess_inv s ->
  call_safe s (seal_record s mt p) /\ call_safe s (open_record s mt q b) /\
  (sess_inv (session_close s) /\ ss_keys (session_close s) = None /\
   ss_terminated (session_close s) =
     match ss_terminated s with None => Some TmClosed | Some r => Some r end) /\
  (ss_terminated s <> None ->
   session_close s = s /\ forall ops, sess_run s ops = (s, MkShown [] [])).
Proof.
  intros Hi. split; [|split; [|split]].
  - destruct (seal_record s mt p) as [s' res] eqn:E.
    destruct (seal_shape _ _ _ _ _ Hi E) as [Hi' Hs].
    apply shape_safe; auto.
  - destruct (open_record s mt q b) as [s' res] eqn:E.
    destruct (open_shape _ _ _ _ _ _ Hi E) as [Hi' Hs].
    apply shape_safe; auto.
  - split; [|split; [apply session_close_keys, Hi|]];
      unfold session_close; destruct (ss_terminated s) as [r|] eqn:Et;
      [exact Hi | apply sess_inv_terminate, Hi | exact Et | reflexivity].
  - intros Ht. split.
    + unfold session_close. destruct (ss_terminated s); [reflexivity | contradiction].
    + intros ops. apply run_terminated; assumption.
Qed.

(** C17: strictly in order, authenticated, once.  In any history the records a
    session accepts carry the sequence numbers 0, 1, 2, ... without gap or
    repetition, and each accepted plaintext passed the AEAD under the receive
    direction's key, the nonce of its number and the AAD of the context. *)
Theorem open_in_order seg ctx ops s sh :
  sess_run (session_new seg ctx) ops = (s, sh) ->
  counts_from 0 (map open_seq (sh_opened sh)) /\
  Forall (opened_under ctx (nonce_domain ctx) (split_segment seg))
    (sh_opened sh).
Proof.
  intros E.
  destruct (sess_run_facts _ _ _ _ (sess_inv_new seg ctx) E) as (F & _ & C).
  destruct (F _ eq_refl) as [_ Fo]. split; [|exact Fo].
  unfold next_recv in C. simpl in C.
  destruct (recv_dir _); exact C.
Qed.

End Runs.

(** ** Witnesses *)

(** A concrete stand-in for the AEAD: the plaintext with a 16-byte checksum
    of everything that is authenticated. *)
Definition checksum_tag (k n a p : list byte) : list byte :=
  be_bytes 16 (be_val (k ++ n ++ a ++ p)).

Definition checksum_aead : Aead.
Proof.
  refine {|
    aead_encrypt := fun k n a p => Some (p, checksum_tag k n a p);
    aead_decrypt := fun k n a c t =>
      if bool_decide (t = checksum_tag k n a c) then Some c else None |}.
  - intros k n a p c t E. injection E as <- <-.
    split; [reflexivity | apply length_be_bytes].
  - intros k n a p c t E. injection E as <- <-.
    rewrite bool_decide_eq_true_2 by reflexivity. reflexivity.
Defined.

#[local] Existing Instance checksum_aead.

Definition demo_ctx (r : Role) : SessionContext :=
  MkCtx r (zeros 16) 5 (repeat Byte.x11 16) (repeat Byte.x22 16).

Definition demo_segment : list byte := repeat Byte.x0a 32 ++ repeat Byte.x0b 32.

Lemma demo_ctx_wf r : wf_ctx (demo_ctx r).
Proof. unfold wf_ctx; simpl; split_and!; (reflexivity || ulia). Qed.

Lemma nonce_never_reused_witness :
  let ops := [OpSeal ClientConfirm [Byte.x01]; OpOpen DataRecord 7 [];
              OpSeal DataRecord [Byte.x02]] in
  let run := sess_run (session_new demo_segment (demo_ctx Client)) ops in
  counts_from 0 (map seal_seq (sh_sealed (snd run))) /\
  length (sh_sealed (snd run)) = 1%nat.
Proof.
  cbv zeta.
  set (ops := [OpSeal ClientConfirm [Byte.x01]; OpOpen DataRecord 7 [];
               OpSeal DataRecord [Byte.x02]]).
  destruct (sess_run (session_new demo_segment (demo_ctx Client)) ops)
    as [s sh] eqn:E.
  pose proof (nonce_never_reused demo_segment (demo_ctx Client) ops s sh
    (demo_ctx_wf Client) E) as (C & _). cbn [snd].
  split; [exact C|].
  assert (L : length (sh_sealed (snd (sess_run
    (session_new demo_segment (demo_ctx Client)) ops))) = 1%nat)
    by (vm_compute; reflexivity).
  rewrite E in L. exact L.
Defined.

Lemma aad_injective_witness :
  build_aad (demo_ctx Client) DataRecord ClientToServer 0 1 =
  build_aad (demo_ctx Server) DataRecord ClientToServer 0 1 /\
  sx_segment (demo_ctx Client) = sx_segment (demo_ctx Server).
Proof.
  split; [reflexivity|].
  apply (aad_injective (demo_ctx Client) (demo_ctx Server) DataRecord DataRecord
    ClientToServer ClientToServer 0 0 1 1); auto using demo_ctx_wf; ulia.
Defined.

Definition demo_messages : list (MessageType * list byte) :=
  [(ClientConfirm, [Byte.x01]); (DataRecord, []); (DataRecord, [Byte.x02])].

Lemma channel_roundtrip_witness :
  exists a' rs b',
    seal_all (session_new demo_segment (demo_ctx Client)) demo_messages =
      Some (a', rs) /\
    open_all (session_new demo_segment (demo_ctx Server))
      (zip (map fst demo_messages) rs) = Some (b', map snd demo_messages).
Proof.
  destruct (seal_all (session_new demo_segment (demo_ctx Client)) demo_messages)
    as [[a' rs]|] eqn:E.
  - destruct (channel_roundtrip demo_segment (demo_ctx Client)
      (demo_ctx Server) demo_messages a' rs) as [b' Hb];
      [discriminate | reflexivity.. | exact E |].
    exists a', rs, b'. split; [reflexivity | exact Hb].
  - exfalso. vm_compute in E. discriminate E.
Defined.

Lemma session_fail_closed_witness :
  let s := session_new demo_segment (demo_ctx Client) in
  snd (seal_record s ServerConfirm []) = Some (Err SeWrongDirection) /\
  ss_keys (fst (seal_record s ServerConfirm [])) = None.
Proof.
  cbv zeta. split; [vm_compute; reflexivity|].
  destruct (session_fail_closed (session_new demo_segment (demo_ctx Client))
    ServerConfirm [] 0 [] (sess_inv_new _ _)) as (Hs & _).
  destruct (seal_record (session_new demo_segment (demo_ctx Client)) ServerConfirm [])
    as [s' res] eqn:E.
  destruct Hs as (_ & _ & He & _). cbn [fst].
  assert (Hr : snd (seal_record (session_new demo_segment (demo_ctx Client))
    ServerConfirm []) = Some (Err SeWrongDirection)) by (vm_compute; reflexivity).
  rewrite E in Hr. apply (He _ Hr).
Defined.

(** The client's confirmation record, as the server of [demo_ctx] gets it. *)
Definition demo_confirm : list byte :=
  checksum_tag (key_for (split_segment demo_segment) ClientToServer)
    (record_nonce (nonce_domain (demo_ctx Client)) ClientToServer 0)
    (build_aad (demo_ctx Client) ClientConfirm ClientToServer 0 0) [].

Definition demo_opens : list SessOp :=
  [OpOpen ClientConfirm 0 demo_confirm; OpOpen ClientConfirm 0 demo_confirm].

Lemma open_in_order_witness :
  let run := sess_run (session_new demo_segment (demo_ctx Server)) demo_opens in
  length (sh_opened (snd run)) = 1%nat /\
  counts_from 0 (map open_seq (sh_opened (snd run))).
Proof.
  cbv zeta.
  assert (L : length (sh_opened (snd (sess_run
    (session_new demo_segment (demo_ctx Server)) demo_opens))) = 1%nat)
    by (vm_compute; reflexivity).
  split; [exact L|]. clear L.
  destruct (sess_run (session_new demo_segment (demo_ctx Server)) demo_opens)
    as [s' sh] eqn:E.
  apply (open_in_order _ _ _ _ _ E).
Defined.
