(* ===== verification/Handshake.v ===== *)
(** * Handshake: the client and server state machines ([otp-handshake])

    Both machines with every phase, guard and error.  Segments come from the
    trait [SegmentIssuer] (a class, which the allocator implements); the
    operating system's random bytes are an argument of the two calls that draw
    them ([None]: the generator failed).  A call returns the machine and the
    issuer it leaves; the outcome [None] is a panic. *)

From stdpp Require Import strings.
From S2P Require Export Codec Allocator Session.

#[local] Open Scope list_scope.
#[local] Open Scope Z_scope.

(** The trait [SegmentIssuer]; [None] is a panic of the issuer. *)
Class SegmentIssuer (I : Type) := {
  issuer_issue : I -> I * option (result CommittedSegment IssueError);
}.

#[export] Instance core_issuer {M R} `{Sha256, AnchorMedia M, SegmentReader R} :
  SegmentIssuer (Core M R) := {| issuer_issue := issue |}.

Definition CONFIRM_LABEL_C2S : list byte := Eval cbv in ascii_bytes "client-confirm"%string.
Definition CONFIRM_LABEL_S2C : list byte := Eval cbv in ascii_bytes "server-confirm"%string.

Inductive HandshakeError :=
  | HeBookMismatch
  | HeExhausted (next : Z)
  | HeClientAhead (client server : Z)
  | HeAuthentication (code : ErrorCode)
  | HeViolation (code : ErrorCode)
  | HeIssuer (e : IssueError)
  | HeCsprng.

#[global] Instance handshake_error_eq_dec : EqDecision HandshakeError.
Proof. solve_decision. Defined.

Definition handshake_code (e : HandshakeError) : ErrorCode :=
  match e with
  | HeBookMismatch => BOOK_MISMATCH
  | HeExhausted _ => EXHAUSTED
  | HeClientAhead _ _ => CLIENT_AHEAD
  | HeAuthentication code | HeViolation code => code
  | HeIssuer (IeExhausted _) => EXHAUSTED
  | HeIssuer IeBookMismatch => BOOK_MISMATCH
  | HeIssuer IePersistenceUncertain => PERSISTENCE_UNVERIFIED
  | HeIssuer (IeLockUnavailable | IeAnchorCorrupt | IeIo) => IO_ERROR
  | HeIssuer IeInvalidRange => INTERNAL
  | HeCsprng => CSPRNG_FAILURE
  end.

Inductive Step :=
  | StSend (outbox : list Message)
  | StEstablished (outbox : list Message) (session : Session) (segment : Z)
  | StAwaitPeer
  | StFailed (e : HandshakeError).

Inductive ClientPhase :=
  | CpIdle | CpHelloSent | CpConfirmSent | CpEstablished | CpAheadRecovery
  | CpFailed.

Inductive ServerPhase :=
  | SpIdle | SpIssueWait | SpConfirmWait | SpEstablished | SpAheadPending
  | SpFailed.

#[global] Instance client_phase_eq_dec : EqDecision ClientPhase.
Proof. solve_decision. Defined.
#[global] Instance server_phase_eq_dec : EqDecision ServerPhase.
Proof. solve_decision. Defined.

(** [ClientConfig] and [ServerConfig] have the same four fields. *)
Record HandshakeConfig := MkConfig {
  hc_version : Z;
  hc_book_id : BookId;
  hc_local_pointer : Z;
  hc_segment_count : Z;
}.

Definition bridge_segment (seg : CommittedSegment) : list byte := cs_inner seg.

Record ConfirmExpectations := MkExpect {
  ce_book_id : BookId;
  ce_segment : Z;
  ce_client_nonce : Nonce;
  ce_server_nonce : Nonce;
  ce_direction : Direction;
  ce_msg_type : Z;
  ce_label : list byte;
}.

Definition map_session_open_err (e : SessionError) : HandshakeError :=
  match e with
  | SeAuthenticationFailed => HeAuthentication TAG_INVALID
  | SeSequenceReplay => HeAuthentication SEQ_REPLAY
  | SeSequenceUnexpected | SeSequenceOverflow => HeViolation SEQ_UNEXPECTED
  | SeWrongDirection => HeViolation WRONG_DIRECTION
  | SeClosed => HeViolation BAD_ORDER
  end.

Definition map_session_seal_err (e : SessionError) : HandshakeError :=
  match e with
  | SeSequenceOverflow => HeViolation SEQ_UNEXPECTED
  | _ => HeViolation INTERNAL
  end.

(** The body [seal_confirm] writes, and the one its peer expects. *)
Definition confirm_kind (d : Direction) : MessageType * Z * list byte :=
  match d with
  | ClientToServer =>
      (ClientConfirm, msg_type_wire MtConfirmC2s, CONFIRM_LABEL_C2S)
  | ServerToClient =>
      (ServerConfirm, msg_type_wire MtConfirmS2c, CONFIRM_LABEL_S2C)
  end.

(** [seal_confirm]; the [copy_from_slice] into [[u8; 103]] panics on another
    length. *)
Definition seal_confirm `{Aead} (session : Session) (book_id : BookId)
  (segment : Z) (client_nonce server_nonce : Nonce) (direction : Direction) :
  Session * option (result Message HandshakeError) :=
  let '(mt, wire_type, label) := confirm_kind direction in
  let body := MkBody book_id segment client_nonce server_nonce direction 0 0
                wire_type label in
  match encode_confirm_body body with
  | Err code => (session, Some (Err (HeViolation code)))
  | Ok plain =>
      match seal_record session mt plain with
      | (session, None) => (session, None)
      | (session, Some (Err e)) =>
          (session, Some (Err (map_session_seal_err e)))
      | (session, Some (Ok record)) =>
          if negb (Z.of_nat (length (rc_sealed record)) =? SEALED_LEN)
          then (session, None) else
          let zeta := session_nonce (ss_ctx session) in
          let fields := MkConfirm segment zeta 0 (rc_sequence record)
                          (rc_sealed record) in
          (session, Some (Ok
             match direction with
             | ClientToServer => ConfirmC2s fields
             | ServerToClient => ConfirmS2c fields
             end))
      end
  end.

Definition verify_confirm_outer (c : ConfirmFields) (expect_segment : Z)
  (expect_nonce : Nonce) : result unit HandshakeError :=
  if negb (cf_segment_index c =? expect_segment)
  then Err (HeAuthentication SEGMENT_BINDING) else
  if negb (bool_decide (cf_session_nonce c = expect_nonce))
  then Err (HeAuthentication NONCE_MISMATCH) else
  if negb (cf_epoch c =? 0) then Err (HeViolation EPOCH_MISMATCH) else
  if negb (cf_seq c =? 0) then Err (HeViolation SEQ_UNEXPECTED) else
  Ok tt.

Definition verify_confirm_body (b : ConfirmBody) (e : ConfirmExpectations) :
  result unit HandshakeError :=
  if negb (bool_decide (cb_book_id b = ce_book_id e)) ||
     negb (cb_segment_index b =? ce_segment e)
  then Err (HeAuthentication SEGMENT_BINDING) else
  if negb (bool_decide (cb_client_nonce b = ce_client_nonce e)) ||
     negb (bool_decide (cb_server_nonce b = ce_server_nonce e))
  then Err (HeAuthentication NONCE_MISMATCH) else
  if negb (bool_decide (cb_direction b = ce_direction e)) ||
     negb (cb_msg_type b =? ce_msg_type e) ||
     negb (bool_decide (cb_label b = ce_label e))
  then Err (HeAuthentication SEGMENT_BINDING) else
  if negb (cb_epoch b =? 0) then Err (HeViolation EPOCH_MISMATCH) else
  if negb (cb_seq b =? 0) then Err (HeViolation SEQ_UNEXPECTED) else
  Ok tt.

(** The verification of the peer's CONFIRM, the same lines in
    [on_confirm_s2c] and in [on_confirm]: outer fields, AEAD, body codec, body
    copies.  Returns the session as the failing or passing path leaves it. *)
Definition verify_peer_confirm `{Aead} (session : Session) (c : ConfirmFields)
  (book_id : BookId) (i : Z) (client_nonce server_nonce : Nonce)
  (direction : Direction) : Session * option (result unit HandshakeError) :=
  let '(mt, wire_type, label) := confirm_kind direction in
  let zeta := session_nonce (ss_ctx session) in
  match verify_confirm_outer c i zeta with
  | Err e => (session_close session, Some (Err e))
  | Ok _ =>
  match open_record session mt (cf_seq c) (cf_sealed c) with
  | (session, None) => (session, None)
  | (session, Some (Err e)) => (session, Some (Err (map_session_open_err e)))
  | (session, Some (Ok payload)) =>
  match decode_confirm_body payload with
  | Err code => (session_close session, Some (Err (HeViolation code)))
  | Ok body =>
  let expect := MkExpect book_id i client_nonce server_nonce direction
                  wire_type label in
  match verify_confirm_body body expect with
  | Err e => (session_close session, Some (Err e))
  | Ok _ => (session, Some (Ok tt))
  end end end end.

(** ** Client *)

Record ClientHandshake := MkClient {
  ch_cfg : HandshakeConfig;
  ch_phase : ClientPhase;
  ch_client_nonce : option Nonce;
  ch_server_nonce : option Nonce;
  ch_agreed : option Z;
  ch_session : option Session;
  ch_wasted_gap : option (Z * Z);
}.

Definition client_new (cfg : HandshakeConfig) :
  result ClientHandshake HandshakeError :=
  if negb (hc_version cfg =? VERSION) then Err (HeViolation BAD_VERSION)
  else Ok (MkClient cfg CpIdle None None None None None).

Definition ch_set_phase (h : ClientHandshake) (p : ClientPhase) :=
  MkClient (ch_cfg h) p (ch_client_nonce h) (ch_server_nonce h) (ch_agreed h)
    (ch_session h) (ch_wasted_gap h).

(** [burn_session]: the held session is closed and dropped. *)
Definition ch_burn_session (h : ClientHandshake) : ClientHandshake :=
  MkClient (ch_cfg h) (ch_phase h) (ch_client_nonce h) (ch_server_nonce h)
    (ch_agreed h) None (ch_wasted_gap h).

Definition ch_set_agreed (h : ClientHandshake) (sn : Nonce) (i : Z)
  (gap : option (Z * Z)) : ClientHandshake :=
  MkClient (ch_cfg h) (ch_phase h) (ch_client_nonce h) (Some sn) (Some i)
    (ch_session h) gap.

Definition ch_set_session (h : ClientHandshake) (s : option Session) :=
  MkClient (ch_cfg h) (ch_phase h) (ch_client_nonce h) (ch_server_nonce h)
    (ch_agreed h) s (ch_wasted_gap h).

(** [start]: [rand] is what [csprng16] returned, if it was called. *)
Definition client_start (h : ClientHandshake) (rand : option Nonce) :
  ClientHandshake * result Message HandshakeError :=
  if negb (bool_decide (ch_phase h = CpIdle))
  then (ch_set_phase h CpFailed, Err (HeViolation BAD_ORDER)) else
  match rand with
  | None => (h, Err HeCsprng)
  | Some nonce =>
      (MkClient (ch_cfg h) CpHelloSent (Some nonce) (ch_server_nonce h)
         (ch_agreed h) (ch_session h) (ch_wasted_gap h),
       Ok (Hello (hc_book_id (ch_cfg h)) nonce (hc_local_pointer (ch_cfg h)) 0))
  end.

Definition client_abort (h : ClientHandshake) (reason : ErrorCode) :
  ClientHandshake * Step :=
  (ch_set_phase (ch_burn_session h) CpFailed, StFailed (HeViolation reason)).

Definition ch_order_violation (h : ClientHandshake) : ClientHandshake * Step :=
  (ch_set_phase (ch_burn_session h) CpFailed, StFailed (HeViolation BAD_ORDER)).

Definition ch_reject_pointer_combination (h : ClientHandshake) :
  ClientHandshake * Step :=
  (ch_set_phase h CpFailed, StFailed (HeViolation ISSUE_POINTER_MISMATCH)).

Definition ch_fail_issuer (h : ClientHandshake) (e : IssueError) :
  ClientHandshake * Step :=
  (ch_set_phase (ch_burn_session h) CpFailed, StFailed (HeIssuer e)).

(** Outcomes with the issuer: [None] is a panic. *)
Definition with_issuer {H I} (r : H * Step) (issuer : I) :
  H * I * option Step :=
  (fst r, issuer, Some (snd r)).

Section ClientCalls.
Context `{Aead} {I : Type} `{SegmentIssuer I}.

(** The loop [for _ in cp..i] of [issue_and_confirm]: [n] issues, each
    segment dropped. *)
Fixpoint burn_gap (issuer : I) (n : nat) :
  I * option (result unit IssueError) :=
  match n with
  | O => (issuer, Some (Ok tt))
  | S n =>
      match issuer_issue issuer with
      | (issuer, None) => (issuer, None)
      | (issuer, Some (Err e)) => (issuer, Some (Err e))
      | (issuer, Some (Ok _)) => burn_gap issuer n
      end
  end.

(** The rest of [issue_and_confirm], once the session segment is issued. *)
Definition confirm_segment (h : ClientHandshake) (i : Z)
  (seg : CommittedSegment) : ClientHandshake * option Step :=
  match ch_client_nonce h, ch_server_nonce h with
  | Some client_nonce, Some server_nonce =>
      let book_id := hc_book_id (ch_cfg h) in
      let ctx := MkCtx Client book_id i client_nonce server_nonce in
      let session := session_new (bridge_segment seg) ctx in
      match seal_confirm session book_id i client_nonce server_nonce
              ClientToServer with
      | (_, None) => (h, None)
      | (_, Some (Err e)) =>
          (ch_set_phase (ch_burn_session h) CpFailed, Some (StFailed e))
      | (session, Some (Ok confirm)) =>
          let issue_request := IssueRequest i client_nonce server_nonce in
          (ch_set_phase (ch_set_session h (Some session)) CpConfirmSent,
           Some (StSend [issue_request; confirm]))
      end
  | _, _ => let '(h, st) := ch_order_violation h in (h, Some st)
  end.

Definition issue_and_confirm (h : ClientHandshake) (issuer : I) :
  ClientHandshake * I * option Step :=
  match ch_agreed h with
  | None => with_issuer (ch_order_violation h) issuer
  | Some i =>
      let cp := hc_local_pointer (ch_cfg h) in
      match burn_gap issuer (Z.to_nat (i - cp)) with
      | (issuer, None) => (h, issuer, None)
      | (issuer, Some (Err e)) => with_issuer (ch_fail_issuer h e) issuer
      | (issuer, Some (Ok _)) =>
          match issuer_issue issuer with
          | (issuer, None) => (h, issuer, None)
          | (issuer, Some (Err e)) => with_issuer (ch_fail_issuer h e) issuer
          | (issuer, Some (Ok seg)) =>
              let '(h, st) := confirm_segment h i seg in (h, issuer, st)
          end
      end
  end.

(** [on_arbitrate] on the fields of the ARBITRATE message. *)
Definition on_arbitrate (h : ClientHandshake) (issuer : I)
  (server_nonce : Nonce) (sp : Z) (res : ArbitrateResult) :
  ClientHandshake * I * option Step :=
  let cp := hc_local_pointer (ch_cfg h) in
  let n := hc_segment_count (ch_cfg h) in
  match res with
  | ArBookMismatch =>
      (ch_set_phase h CpFailed, issuer, Some (StFailed HeBookMismatch))
  | ArExhausted =>
      if negb (sp =? n)
      then with_issuer (ch_reject_pointer_combination h) issuer
      else (ch_set_phase h CpFailed, issuer, Some (StFailed (HeExhausted sp)))
  | ArClientAhead =>
      if cp <=? sp
      then with_issuer (ch_reject_pointer_combination h) issuer
      else (ch_set_phase h CpAheadRecovery, issuer,
            Some (StFailed (HeClientAhead cp sp)))
  | ArOk =>
      if negb (sp =? cp)
      then with_issuer (ch_reject_pointer_combination h) issuer
      else issue_and_confirm
             (ch_set_agreed h server_nonce sp (ch_wasted_gap h)) issuer
  | ArServerAhead =>
      if sp <=? cp
      then with_issuer (ch_reject_pointer_combination h) issuer
      else issue_and_confirm
             (ch_set_agreed h server_nonce sp (Some (cp, sp))) issuer
  end.

(** [on_confirm_s2c] on the fields of the CONFIRM_S2C message. *)
Definition on_confirm_s2c (h : ClientHandshake) (c : ConfirmFields) :
  ClientHandshake * option Step :=
  let violation (h : ClientHandshake) :=
    let '(h, st) := ch_order_violation h in (h, Some st) in
  match ch_agreed h with
  | None => violation h
  | Some i =>
  match ch_client_nonce h, ch_server_nonce h with
  | Some client_nonce, Some server_nonce =>
      match ch_session h with
      | None => violation h
      | Some session =>
          let h := ch_set_session h None in
          match verify_peer_confirm session c (hc_book_id (ch_cfg h)) i
                  client_nonce server_nonce ServerToClient with
          | (_, None) => (h, None)
          | (_, Some (Err e)) => (ch_set_phase h CpFailed, Some (StFailed e))
          | (session, Some (Ok _)) =>
              (ch_set_phase h CpEstablished,
               Some (StEstablished [] session i))
          end
      end
  | _, _ => violation h
  end
  end.

(** [handle]. *)
Definition client_handle (h : ClientHandshake) (msg : Message) (issuer : I) :
  ClientHandshake * I * option Step :=
  match ch_phase h, msg with
  | CpHelloSent, Arbitrate server_nonce server_pointer res =>
      on_arbitrate h issuer server_nonce server_pointer res
  | CpConfirmSent, ConfirmS2c c =>
      let '(h, st) := on_confirm_s2c h c in (h, issuer, st)
  | _, _ => with_issuer (ch_order_violation h) issuer
  end.

End ClientCalls.

(** ** Server *)

Record ServerHandshake := MkServer {
  sh_cfg : HandshakeConfig;
  sh_phase : ServerPhase;
  sh_client_nonce : option Nonce;
  sh_server_nonce : option Nonce;
  sh_agreed : option Z;
  sh_session : option Session;
}.

Definition server_new (cfg : HandshakeConfig) :
  result ServerHandshake HandshakeError :=
  if negb (hc_version cfg =? VERSION) then Err (HeViolation BAD_VERSION)
  else Ok (MkServer cfg SpIdle None None None None).

Definition sh_set_phase (h : ServerHandshake) (p : ServerPhase) :=
  MkServer (sh_cfg h) p (sh_client_nonce h) (sh_server_nonce h) (sh_agreed h)
    (sh_session h).

Definition sh_burn_session (h : ServerHandshake) : ServerHandshake :=
  MkServer (sh_cfg h) (sh_phase h) (sh_client_nonce h) (sh_server_nonce h)
    (sh_agreed h) None.

Definition sh_set_session (h : ServerHandshake) (s : option Session) :=
  MkServer (sh_cfg h) (sh_phase h) (sh_client_nonce h) (sh_server_nonce h)
    (sh_agreed h) s.

Definition sh_set_client_nonce (h : ServerHandshake) (n : Nonce) :=
  MkServer (sh_cfg h) (sh_phase h) (Some n) (sh_server_nonce h) (sh_agreed h)
    (sh_session h).

Definition sh_set_agreed (h : ServerHandshake) (sn : Nonce) (i : Z) :=
  MkServer (sh_cfg h) (sh_phase h) (sh_client_nonce h) (Some sn) (Some i)
    (sh_session h).

(** The pointer table of [on_hello]: the result and the pointer sent. *)
Definition arbitrate (sp cp n : Z) : ArbitrateResult * Z :=
  if n <=? sp then (ArExhausted, n)
  else if cp <? sp then (ArServerAhead, sp)
  else if sp <? cp then (ArClientAhead, sp)
  else (ArOk, sp).

Definition server_order_violation (h : ServerHandshake) :
  ServerHandshake * Step :=
  (sh_set_phase (sh_burn_session h) SpFailed, StFailed (HeViolation BAD_ORDER)).

Definition server_abort (h : ServerHandshake) (reason : ErrorCode) :
  ServerHandshake * Step :=
  (sh_set_phase (sh_burn_session h) SpFailed, StFailed (HeViolation reason)).

(** [on_hello]; [rand] is what [csprng16] returned, if it was called. *)
Definition on_hello (h : ServerHandshake) (hello : Message)
  (rand : option Nonce) :
  ServerHandshake * result Message HandshakeError :=
  if negb (bool_decide (sh_phase h = SpIdle))
  then (sh_set_phase (sh_burn_session h) SpFailed, Err (HeViolation BAD_ORDER))
  else
  match hello with
  | Hello book_id client_nonce cp _ =>
      let h := sh_set_client_nonce h client_nonce in
      match rand with
      | None => (h, Err HeCsprng)
      | Some server_nonce =>
          if negb (bool_decide (book_id = hc_book_id (sh_cfg h)))
          then (sh_set_phase h SpFailed,
                Ok (Arbitrate server_nonce 0 ArBookMismatch))
          else
          let '(res, sp_out) :=
            arbitrate (hc_local_pointer (sh_cfg h)) cp
              (hc_segment_count (sh_cfg h)) in
          let h :=
            match res with
            | ArOk | ArServerAhead =>
                sh_set_phase
                  (sh_set_agreed h server_nonce (hc_local_pointer (sh_cfg h)))
                  SpIssueWait
            | ArClientAhead => sh_set_phase h SpAheadPending
            | ArExhausted => sh_set_phase h SpFailed
            | ArBookMismatch => h
            end in
          (h, Ok (Arbitrate server_nonce sp_out res))
      end
  | _ => (sh_set_phase h SpFailed, Err (HeViolation BAD_ORDER))
  end.

Section ServerCalls.
Context `{Aead} {I : Type} `{SegmentIssuer I}.

(** [on_issue_request] on the fields of the ISSUE_REQUEST message. *)
Definition on_issue_fields (h : ServerHandshake) (issuer : I) (chosen : Z)
  (client_nonce server_nonce : Nonce) : ServerHandshake * I * option Step :=
  match sh_agreed h with
  | None => with_issuer (server_order_violation h) issuer
  | Some i =>
      if negb (chosen =? i)
      then (sh_set_phase h SpFailed, issuer,
            Some (StFailed (HeViolation ISSUE_POINTER_MISMATCH)))
      else
      match sh_client_nonce h, sh_server_nonce h with
      | Some hello_client_nonce, Some self_server_nonce =>
          if negb (bool_decide (client_nonce = hello_client_nonce)) ||
             negb (bool_decide (server_nonce = self_server_nonce))
          then (sh_set_phase (sh_burn_session h) SpFailed, issuer,
                Some (StFailed (HeAuthentication NONCE_MISMATCH)))
          else
          match issuer_issue issuer with
          | (issuer, None) => (h, issuer, None)
          | (issuer, Some (Err e)) =>
              (sh_set_phase h SpFailed, issuer, Some (StFailed (HeIssuer e)))
          | (issuer, Some (Ok seg)) =>
              let ctx := MkCtx Server (hc_book_id (sh_cfg h)) i
                           hello_client_nonce self_server_nonce in
              let session := session_new (bridge_segment seg) ctx in
              (sh_set_phase (sh_set_session h (Some session)) SpConfirmWait,
               issuer, Some StAwaitPeer)
          end
      | _, _ => with_issuer (server_order_violation h) issuer
      end
  end.

Definition on_issue_request (h : ServerHandshake) (req : Message) (issuer : I) :
  ServerHandshake * I * option Step :=
  if negb (bool_decide (sh_phase h = SpIssueWait))
  then with_issuer (server_order_violation h) issuer else
  match req with
  | IssueRequest chosen client_nonce server_nonce =>
      on_issue_fields h issuer chosen client_nonce server_nonce
  | _ => with_issuer (server_order_violation h) issuer
  end.

(** [on_confirm] on the fields of the CONFIRM_C2S message. *)
Definition on_confirm_fields (h : ServerHandshake) (c : ConfirmFields) :
  ServerHandshake * option Step :=
  let violation (h : ServerHandshake) :=
    let '(h, st) := server_order_violation h in (h, Some st) in
  match sh_agreed h with
  | None => violation h
  | Some i =>
  match sh_client_nonce h, sh_server_nonce h with
  | Some client_nonce, Some server_nonce =>
      match sh_session h with
      | None => violation h
      | Some session =>
          let h := sh_set_session h None in
          let book_id := hc_book_id (sh_cfg h) in
          match verify_peer_confirm session c book_id i client_nonce
                  server_nonce ClientToServer with
          | (_, None) => (h, None)
          | (_, Some (Err e)) => (sh_set_phase h SpFailed, Some (StFailed e))
          | (session, Some (Ok _)) =>
              match seal_confirm session book_id i client_nonce server_nonce
                      ServerToClient with
              | (_, None) => (h, None)
              | (_, Some (Err e)) =>
                  (sh_set_phase h SpFailed, Some (StFailed e))
              | (session, Some (Ok confirm_s2c)) =>
                  (sh_set_phase h SpEstablished,
                   Some (StEstablished [confirm_s2c] session i))
              end
          end
      end
  | _, _ => violation h
  end
  end.

Definition on_confirm (h : ServerHandshake) (confirm : Message) :
  ServerHandshake * option Step :=
  let violation :=
    let '(h, st) := server_order_violation h in (h, Some st) in
  if negb (bool_decide (sh_phase h = SpConfirmWait)) then violation else
  match confirm with
  | ConfirmC2s c => on_confirm_fields h c
  | _ => violation
  end.

End ServerCalls.
