(* ===== verification/HandshakeSpec.v ===== *)
(** * HandshakeSpec: what the handshake guarantees

    Two honest ends that hold the same segment establish linked sessions;
    an established session was authenticated field by field; segments are
    spent only after the checks, and exactly as many as the arbitration says;
    the pointer table is consistent between the two ends; failures are final
    and leave no keys. *)

From S2P Require Export Handshake SessionSpec.

#[local] Open Scope list_scope.
#[local] Open Scope Z_scope.

(** ** CONFIRM: sealing and verifying *)

Section Confirm.
Context `{Aead}.

Definition expected_body (book : BookId) (i : Z) (cn sn : Nonce)
  (d : Direction) : ConfirmBody :=
  let '(_, wire_type, label) := confirm_kind d in
  MkBody book i cn sn d 0 0 wire_type label.

Definition confirm_message (d : Direction) (c : ConfirmFields) : Message :=
  match d with ClientToServer => ConfirmC2s c | ServerToClient => ConfirmS2c c end.

Definition kind_type (d : Direction) : MessageType := fst (fst (confirm_kind d)).

Lemma expected_body_wf book i cn sn d :
  wf_book_id book -> is_u64 i -> wf_nonce16 cn -> wf_nonce16 sn ->
  wf_body (expected_body book i cn sn d).
Proof.
  intros. unfold expected_body, wf_body.
  destruct d; simpl; split_and!; auto; try reflexivity; ulia.
Qed.

Lemma length_expected_body book i cn sn d plain :
  wf_book_id book -> wf_nonce16 cn -> wf_nonce16 sn ->
  encode_confirm_body (expected_body book i cn sn d) = Ok plain ->
  length plain = 87%nat.
Proof.
  intros Hb Hc Hs E. apply ok_inj in E as <-. unfold fixed in *.
  destruct d; cbn [expected_body confirm_kind cb_book_id cb_segment_index
    cb_client_nonce cb_server_nonce cb_direction cb_epoch cb_seq cb_msg_type
    cb_label]; rewrite !length_app, !length_be_bytes; simpl; lia.
Qed.

Lemma verify_body_expected book i cn sn d b :
  let '(_, wire_type, label) := confirm_kind d in
  verify_confirm_body b (MkExpect book i cn sn d wire_type label) = Ok tt <->
  b = expected_body book i cn sn d.
Proof.
  unfold expected_body. destruct (confirm_kind d) as [[mt w] l].
  unfold verify_confirm_body. cbn [ce_book_id ce_segment ce_client_nonce
    ce_server_nonce ce_direction ce_msg_type ce_label]. split.
  - intros E. repeat (case_match_in E; [discriminate|]).
    repeat match goal with
    | H : _ || _ = false |- _ => apply orb_false_iff in H as [? ?]
    | H : negb _ = false |- _ => apply negb_false_iff in H
    | H : bool_decide _ = true |- _ => apply bool_decide_eq_true in H
    | H : (_ =? _) = true |- _ => apply Z.eqb_eq in H
    end. destruct b; simpl in *. congruence.
  - intros ->. cbn. rewrite !bool_decide_eq_true_2, !Z.eqb_refl by auto.
    reflexivity.
Qed.

(** What a verified CONFIRM proves. *)
Definition confirmed (session : Session) (c : ConfirmFields) (book : BookId)
  (i : Z) (cn sn : Nonce) (d : Direction) : Prop :=
  cf_segment_index c = i /\
  cf_session_nonce c = session_nonce (ss_ctx session) /\
  cf_epoch c = 0 /\ cf_seq c = 0 /\
  exists payload, opens session (kind_type d) 0 (cf_sealed c) payload /\
    decode_confirm_body payload = Ok (expected_body book i cn sn d).

Lemma verify_outer_ok c i z u :
  verify_confirm_outer c i z = Ok u <->
  cf_segment_index c = i /\ cf_session_nonce c = z /\ cf_epoch c = 0 /\
  cf_seq c = 0.
Proof.
  unfold verify_confirm_outer. destruct u. split.
  - intros E. repeat (case_match_in E; [discriminate|]).
    rewrite !negb_false_iff, ?Z.eqb_eq in *.
    match goal with H : bool_decide _ = true |- _ =>
      apply bool_decide_eq_true in H end. auto.
  - intros (-> & -> & -> & ->). rewrite Z.eqb_refl.
    rewrite bool_decide_eq_true_2 by auto. reflexivity.
Qed.

Lemma verify_peer_ok session c book i cn sn d s' u :
  verify_peer_confirm session c book i cn sn d = (s', Some (Ok u)) <->
  confirmed session c book i cn sn d /\
  s' = set_recv_last session (recv_dir session) 0.
Proof.
  unfold verify_peer_confirm, confirmed, kind_type.
  pose proof (verify_body_expected book i cn sn d) as Hv.
  destruct (confirm_kind d) as [[mt w] l] eqn:Ek. cbn [fst]. destruct u. split.
  - intros E.
    destruct (verify_confirm_outer _ _ _) as [[]|] eqn:Eo; [|discriminate].
    apply verify_outer_ok in Eo as (Hi & Hn & He & Hs). rewrite Hs in E.
    destruct (open_record session mt 0 _) as [s1 [[p|]|]] eqn:Eop;
      try discriminate.
    destruct (decode_confirm_body p) as [b|] eqn:Ed; [|discriminate].
    destruct (verify_confirm_body b _) as [[]|] eqn:Ev; [|discriminate].
    injection E as <-. apply Hv in Ev as ->.
    apply open_ok in Eop as [Hop ->]. split_and!; eauto.
  - intros [(Hi & Hn & He & Hs & p & Hop & Hd) ->].
    rewrite (proj2 (verify_outer_ok c i _ tt)) by auto. rewrite Hs.
    rewrite (proj2 (open_ok session mt 0 (cf_sealed c) _ p)) by auto.
    rewrite Hd, (proj2 (Hv _)) by reflexivity. reflexivity.
Qed.

Lemma verify_peer_err session c book i cn sn d s' e :
  sess_inv session ->
  verify_peer_confirm session c book i cn sn d = (s', Some (Err e)) ->
  ss_keys s' = None.
Proof.
  intros Hi E. unfold verify_peer_confirm in E.
  destruct (confirm_kind d) as [[mt w] l].
  assert (Hclose : forall s, sess_inv s -> ss_keys (session_close s) = None)
    by (intros s Hs; apply (session_close_keys s Hs)).
  destruct (verify_confirm_outer _ _ _) as [[]|].
  - destruct (open_record session mt _ _) as [s1 r] eqn:Eop.
    destruct (open_shape _ _ _ _ _ _ Hi Eop) as [Hi1 Hs].
    destruct r as [[p|e1]|]; [|injection E as <- _; apply Hs | destruct Hs].
    destruct (decode_confirm_body p); [|injection E as <- _; auto].
    case_match_in E; [discriminate | injection E as <- _; auto].
  - injection E as <- _. auto.
Qed.

End Confirm.

Lemma length_session_nonce ctx :
  wf_ctx ctx -> length (session_nonce ctx) = 16%nat.
Proof.
  intros (_ & _ & Hc & Hs). unfold session_nonce, fixed in *.
  rewrite length_zip_with. lia.
Qed.

Section ConfirmPeers.
Context `{Aead}.

Lemma seal_confirm_ok s book i cn sn d s' m :
  wf_book_id book -> is_u64 i -> wf_nonce16 cn -> wf_nonce16 sn ->
  seal_confirm s book i cn sn d = (s', Some (Ok m)) ->
  exists plain r, encode_confirm_body (expected_body book i cn sn d) = Ok plain /\
    seal_record s (kind_type d) plain = (s', Some (Ok r)) /\
    length (rc_sealed r) = 103%nat /\
    m = confirm_message d (MkConfirm i (session_nonce (ss_ctx s')) 0
          (rc_sequence r) (rc_sealed r)).
Proof.
  intros Hb Hi Hc Hs E. unfold seal_confirm in E.
  unfold expected_body, kind_type.
  destruct (confirm_kind d) as [[mt w] l] eqn:Ek. cbn [fst].
  destruct (encode_confirm_body _) as [plain|]; [|discriminate].
  destruct (seal_record s mt plain) as [s1 [[r|]|]] eqn:Es; try discriminate.
  destruct (Z.eqb_spec (Z.of_nat (length (rc_sealed r))) SEALED_LEN) as [Hl|];
    [|discriminate]. injection E as <- <-. exists plain, r.
  unfold SEALED_LEN in Hl. split; [reflexivity|]. split; [exact Es|].
  split; [lia|]. destruct d; reflexivity.
Qed.

(** A fresh session seals its confirmation, unless the AEAD itself fails. *)
Lemma seal_confirm_fresh s book i cn sn k :
  (forall k n a p, aead_encrypt k n a p <> None) ->
  wf_book_id book -> wf_nonce16 cn -> wf_nonce16 sn ->
  ss_terminated s = None -> ss_keys s = Some k ->
  at_dir (ss_send_seq s) (send_dir s) = 0 ->
  exists s' m, seal_confirm s book i cn sn (send_dir s) = (s', Some (Ok m)).
Proof.
  intros Henc Hb Hc Hs Ht Hk Hq. unfold seal_confirm.
  destruct (confirm_kind (send_dir s)) as [[mt w] l] eqn:Ek.
  destruct (encode_confirm_body _) as [plain|] eqn:Ep; [|discriminate].
  assert (Hlen : length plain = 87%nat).
  { apply (length_expected_body book i cn sn (send_dir s)); auto.
    unfold expected_body. rewrite Ek. exact Ep. }
  unfold seal_record, ensure_active, aead_material. fold (send_dir s).
  rewrite Ht, Hq, Hk.
  assert (pairing_valid mt (send_dir s) = true /\
          seq_discipline_ok mt 0 = true) as [-> ->]
    by (destruct (send_dir s); injection Ek as <- _ _; auto).
  cbn [negb].
  destruct (aead_encrypt _ _ _ plain) as [[ct tag]|] eqn:Ee;
    [|destruct (Henc _ _ _ _ Ee)].
  destruct (aead_lengths _ _ _ _ _ _ Ee) as [Hct Htag].
  cbn [rc_sealed]. rewrite length_app, Hct, Htag, Hlen.
  change (Z.of_nat (87 + 16) =? SEALED_LEN) with true. cbn [negb]. eauto.
Qed.

Lemma seal_confirm_next s book i cn sn s' m :
  wf_book_id book -> is_u64 i -> wf_nonce16 cn -> wf_nonce16 sn ->
  at_dir (ss_send_seq s) (send_dir s) = 0 ->
  seal_confirm s book i cn sn (send_dir s) = (s', Some (Ok m)) ->
  next_send_sequence s' = 1.
Proof.
  intros Hb Hi Hc Hs Hq E.
  apply seal_confirm_ok in E as (plain & r & _ & Es & _ & _); auto.
  apply seal_ok in Es as (k & ct & tag & _ & _ & _ & Hr & _ & _ & _ & ->).
  rewrite Hr, Hq. change (sequence_next 0) with (Some 1).
  unfold next_send_sequence. cbn [set_send_seq ss_send_seq session_role ss_ctx].
  apply at_put_dir.
Qed.

(** The peer of a session accepts the confirmation the session seals. *)
Lemma confirm_linked a b book i cn sn a' m :
  wf_book_id book -> is_u64 i -> wf_nonce16 cn -> wf_nonce16 sn ->
  wf_ctx (ss_ctx b) -> linked a b ->
  at_dir (ss_send_seq a) (send_dir a) = 0 ->
  seal_confirm a book i cn sn (send_dir a) = (a', Some (Ok m)) ->
  exists c b', m = confirm_message (send_dir a) c /\ wf_confirm c /\
    verify_peer_confirm b c book i cn sn (send_dir a) = (b', Some (Ok tt)) /\
    linked a' b' /\
    ss_terminated a' = None /\ ss_keys a' = ss_keys a /\
    ss_ctx a' = ss_ctx a /\ ss_ctx b' = ss_ctx b /\
    ss_send_seq b' = ss_send_seq b /\ ss_keys b' = ss_keys b /\
    ss_terminated b' = ss_terminated b /\
    ss_recv_last a' = ss_recv_last a /\ ss_domain a' = ss_domain a /\
    ss_domain b' = ss_domain b.
Proof.
  intros Hb Hi Hc Hs Hwf Hl Hq E.
  apply seal_confirm_ok in E as (plain & r & Hp & Es & Hlen & ->); auto.
  destruct (linked_seal _ _ _ _ _ _ Hl Es) as (b' & Ho & Hl').
  pose proof (seal_ok _ _ _ _ _ Es)
    as (k & ct & tag & Ht & Hk & _ & Hr & _ & _ & _ & Ha').
  rewrite Hr, Hq in Ho, Ha'. rewrite Hr, Hq.
  change (sequence_next 0) with (Some 1) in Ha'.
  apply open_ok in Ho as [Hop ->].
  exists (MkConfirm i (session_nonce (ss_ctx a')) 0 0 (rc_sealed r)).
  exists (set_recv_last b (recv_dir b) 0).
  assert (Hctx : ss_ctx a' = ss_ctx a) by (subst a'; reflexivity).
  assert (Hsn : session_nonce (ss_ctx a') = session_nonce (ss_ctx b)).
  { rewrite Hctx. destruct Hl as (_ & _ & _ & H3 & H4 & _).
    unfold session_nonce. congruence. }
  split; [reflexivity|]. split.
  { unfold wf_confirm, fixed. cbn. split_and!; auto; try ulia.
    rewrite Hsn. apply length_session_nonce, Hwf. }
  split.
  { apply verify_peer_ok. split; [|reflexivity]. unfold confirmed. cbn.
    split_and!; auto. exists plain. split; [exact Hop|].
    apply decode_body_complete; [apply expected_body_wf; auto | exact Hp]. }
  subst a'. cbn. split_and!; auto.
Qed.
(** The two confirmations, given the sessions both ends made. *)
Lemma confirms_exchange book i rc rs seg :
  (forall k n a p, aead_encrypt k n a p <> None) ->
  wf_book_id book -> is_u64 i -> wf_nonce16 rc -> wf_nonce16 rs ->
  let a := session_new seg (MkCtx Client book i rc rs) in
  let b := session_new seg (MkCtx Server book i rc rs) in
  exists a1 c1 b1 b2 c2 a2,
    seal_confirm a book i rc rs ClientToServer = (a1, Some (Ok (ConfirmC2s c1))) /\
    wf_confirm c1 /\
    verify_peer_confirm b c1 book i rc rs ClientToServer =
      (b1, Some (Ok tt)) /\
    seal_confirm b1 book i rc rs ServerToClient =
      (b2, Some (Ok (ConfirmS2c c2))) /\
    wf_confirm c2 /\
    verify_peer_confirm a1 c2 book i rc rs ServerToClient =
      (a2, Some (Ok tt)) /\
    linked a2 b2 /\ linked b2 a2 /\
    ss_terminated a2 = None /\ ss_terminated b2 = None /\
    next_send_sequence a2 = 1 /\ next_send_sequence b2 = 1 /\
    ss_keys a2 <> None /\ ss_keys b2 <> None.
Proof.
  intros Henc Hb Hi Hc Hs a b.
  assert (Hwf : forall r, wf_ctx (MkCtx r book i rc rs))
    by (intros; unfold wf_ctx; simpl; auto).
  assert (Lab : linked a b) by (apply linked_new; simpl; auto; discriminate).
  assert (Lba : linked b a) by (apply linked_new; simpl; auto; discriminate).
  destruct (seal_confirm_fresh a book i rc rs _ Henc Hb Hc Hs eq_refl eq_refl
    eq_refl) as (a1 & m1 & E1).
  destruct (confirm_linked a b book i rc rs a1 m1 Hb Hi Hc Hs (Hwf Server) Lab
    eq_refl E1)
    as (c1 & b1 & -> & Hwc1 & V1 & L1 & T1 & K1 & X1 & Y1 & S1 & KB1 & TB1
        & R1 & D1 & DB1).
  assert (Db1 : send_dir b1 = ServerToClient)
    by (unfold send_dir, session_role; rewrite Y1; reflexivity).
  assert (Ls : linked b1 a1).
  { destruct L1 as (I1 & I2 & I3 & I4 & I5 & I6 & _).
    unfold linked. split_and!; auto. intros _.
    split_and!; auto; [rewrite K1, KB1; reflexivity|].
    unfold expected_seq, recv_dir. unfold send_dir, session_role.
    rewrite X1, Y1, S1, R1. reflexivity. }
  assert (Q1 : at_dir (ss_send_seq b1) (send_dir b1) = 0)
    by (rewrite S1, Db1; reflexivity).
  destruct (seal_confirm_fresh b1 book i rc rs _ Henc Hb Hc Hs
    (eq_trans TB1 eq_refl) (eq_trans KB1 eq_refl) Q1) as (b2 & m2 & E2).
  assert (Hwa : wf_ctx (ss_ctx a1)) by (rewrite X1; apply Hwf).
  destruct (confirm_linked b1 a1 book i rc rs b2 m2 Hb Hi Hc Hs Hwa Ls Q1 E2)
    as (c2 & a2 & -> & Hwc2 & V2 & L2 & T2 & K2 & X2 & Y2 & S2 & KB2 & TB2
        & R2 & D2 & DB2).
  rewrite Db1 in E2, V2.
  pose proof (seal_confirm_next a _ _ _ _ _ _ Hb Hi Hc Hs eq_refl E1) as N1.
  pose proof (fun m => seal_confirm_next b1 _ _ _ _ b2 m Hb Hi Hc Hs Q1) as N2.
  rewrite Db1 in N2. specialize (N2 _ E2).
  apply verify_peer_ok in V2 as V2'. destruct V2' as [_ A2].
  exists a1, c1, b1, b2, c2, a2. split_and!; auto; [|congruence|subst a2; exact N1
    |rewrite KB2, K1; discriminate|rewrite K2, KB1; discriminate].
  destruct L2 as (I1 & I2 & I3 & I4 & I5 & I6 & _).
  unfold linked. split_and!; auto. intros _.
  split_and!; auto; [rewrite K2, KB2, K1, KB1; reflexivity|].
  destruct L1 as (_ & _ & _ & _ & _ & _ & L1). destruct (L1 T1) as (_ & _ & X).
  unfold expected_seq, recv_dir, send_dir, session_role in *.
  rewrite Y2, X2, S2, R2. rewrite X1, Y1 in *. exact X.
Qed.

End ConfirmPeers.

(** ** A whole handshake between two honest ends *)

(** A message over the wire: encoded by its sender, decoded by [role]. *)
Definition deliver (role : Role) (m : Message) : result Message ErrorCode :=
  let? buf := encode m in decode role buf.

Lemma deliver_ok role m :
  wf_message m -> len_ok m -> direction_rejected (msg_type m) role = false ->
  deliver role m = Ok m.
Proof.
  intros Hwf Hl Hd. unfold deliver.
  pose proof (proj2 (encode_ok m _) (conj Hl eq_refl)) as He. rewrite He.
  cbn [result_bind]. apply decode_complete; auto.
Qed.

Section Exchange.
Context `{Aead} {IC IS : Type} `{SegmentIssuer IC} `{SegmentIssuer IS}.

(** HELLO, ARBITRATE, ISSUE_REQUEST and the two CONFIRMs, every message
    through the codec: the issuers, the two sessions and the segment. *)
Definition exchange (cc cs : HandshakeConfig) (ic : IC) (isv : IS)
  (rc rs : Nonce) : option (IC * IS * Session * Session * Z) :=
  match client_new cc, server_new cs with
  | Ok h, Ok k =>
  match client_start h (Some rc) with
  | (h, Ok hello) =>
  match deliver Server hello with
  | Ok hello =>
  match on_hello k hello (Some rs) with
  | (k, Ok arb) =>
  match deliver Client arb with
  | Ok arb =>
  match client_handle h arb ic with
  | (h, ic, Some (StSend [req; conf])) =>
  match deliver Server req, deliver Server conf with
  | Ok req, Ok conf =>
  match on_issue_request k req isv with
  | (k, isv, Some StAwaitPeer) =>
  match on_confirm k conf with
  | (k, Some (StEstablished [conf2] ss i)) =>
  match deliver Client conf2 with
  | Ok conf2 =>
  match client_handle h conf2 ic with
  | (h, ic, Some (StEstablished [] sc i')) =>
      if i =? i' then Some (ic, isv, sc, ss, i) else None
  | _ => None end | _ => None end | _ => None end | _ => None end
  | _, _ => None end | _ => None end | _ => None end | _ => None end
  | _ => None end | _ => None end | _, _ => None end.


Definition wf_config (c : HandshakeConfig) : Prop :=
  hc_version c = VERSION /\ wf_book_id (hc_book_id c) /\
  is_u64 (hc_local_pointer c) /\ is_u64 (hc_segment_count c).

(** The answer of [on_hello] when a segment can be used. *)
Definition agree_result (cp sp : Z) : ArbitrateResult :=
  if cp <? sp then ArServerAhead else ArOk.

Definition agree_gap (cp sp : Z) : option (Z * Z) :=
  if cp <? sp then Some (cp, sp) else None.

Lemma hello_agrees cs cp (rc rs : Nonce) f :
  cp <= hc_local_pointer cs < hc_segment_count cs ->
  on_hello (MkServer cs SpIdle None None None None)
    (Hello (hc_book_id cs) rc cp f) (Some rs) =
  (MkServer cs SpIssueWait (Some rc) (Some rs) (Some (hc_local_pointer cs)) None,
   Ok (Arbitrate rs (hc_local_pointer cs)
         (agree_result cp (hc_local_pointer cs)))).
Proof.
  intros Hp. unfold on_hello, arbitrate, agree_result.
  cbn [sh_phase sh_cfg sh_set_client_nonce].
  rewrite !bool_decide_eq_true_2 by reflexivity. cbn [negb].
  destruct (Z.leb_spec (hc_segment_count cs) (hc_local_pointer cs)); [lia|].
  destruct (Z.ltb_spec cp (hc_local_pointer cs)); [reflexivity|].
  destruct (Z.ltb_spec (hc_local_pointer cs) cp); [lia | reflexivity].
Qed.

Lemma arbitrate_confirms cc sp (ic ic0 ic1 : IC) (rc rs : Nonce) seg a1 c1 :
  hc_local_pointer cc <= sp ->
  burn_gap ic (Z.to_nat (sp - hc_local_pointer cc)) = (ic0, Some (Ok tt)) ->
  issuer_issue ic0 = (ic1, Some (Ok seg)) ->
  seal_confirm (session_new (bridge_segment seg)
      (MkCtx Client (hc_book_id cc) sp rc rs)) (hc_book_id cc) sp rc rs
    ClientToServer = (a1, Some (Ok (ConfirmC2s c1))) ->
  client_handle (MkClient cc CpHelloSent (Some rc) None None None None)
    (Arbitrate rs sp (agree_result (hc_local_pointer cc) sp)) ic =
  (MkClient cc CpConfirmSent (Some rc) (Some rs) (Some sp) (Some a1)
     (agree_gap (hc_local_pointer cc) sp), ic1,
   Some (StSend [IssueRequest sp rc rs; ConfirmC2s c1])).
Proof.
  intros Hle Hgap Hic E1. unfold client_handle, agree_result, agree_gap.
  cbn [ch_phase].
  assert (G : forall gap,
    issue_and_confirm (MkClient cc CpHelloSent (Some rc) (Some rs) (Some sp)
      None gap) ic =
    (MkClient cc CpConfirmSent (Some rc) (Some rs) (Some sp) (Some a1) gap,
     ic1, Some (StSend [IssueRequest sp rc rs; ConfirmC2s c1]))).
  { intros gap. unfold issue_and_confirm, confirm_segment.
    cbn [ch_agreed ch_cfg ch_client_nonce ch_server_nonce].
    rewrite Hgap, Hic, E1. reflexivity. }
  destruct (Z.ltb_spec (hc_local_pointer cc) sp) as [Hlt|Hge];
    unfold on_arbitrate; cbn [ch_cfg].
  - destruct (Z.leb_spec sp (hc_local_pointer cc)); [lia | apply G].
  - assert (sp = hc_local_pointer cc) as -> by lia.
    rewrite Z.eqb_refl. apply G.
Qed.

Lemma issue_accepts cs sp (isv is1 : IS) (rc rs : Nonce) seg :
  issuer_issue isv = (is1, Some (Ok seg)) ->
  on_issue_request (MkServer cs SpIssueWait (Some rc) (Some rs) (Some sp) None)
    (IssueRequest sp rc rs) isv =
  (MkServer cs SpConfirmWait (Some rc) (Some rs) (Some sp)
     (Some (session_new (bridge_segment seg)
              (MkCtx Server (hc_book_id cs) sp rc rs))), is1,
   Some StAwaitPeer).
Proof.
  intros His. unfold on_issue_request, on_issue_fields.
  cbn [sh_phase sh_agreed sh_client_nonce sh_server_nonce].
  rewrite Z.eqb_refl, !bool_decide_eq_true_2 by reflexivity. cbn [negb orb].
  rewrite His. reflexivity.
Qed.

Lemma confirm_establishes cs sp (rc rs : Nonce) b b1 b2 c1 c2 :
  verify_peer_confirm b c1 (hc_book_id cs) sp rc rs ClientToServer =
    (b1, Some (Ok tt)) ->
  seal_confirm b1 (hc_book_id cs) sp rc rs ServerToClient =
    (b2, Some (Ok c2)) ->
  on_confirm (MkServer cs SpConfirmWait (Some rc) (Some rs) (Some sp) (Some b))
    (ConfirmC2s c1) =
  (MkServer cs SpEstablished (Some rc) (Some rs) (Some sp) None,
   Some (StEstablished [c2] b2 sp)).
Proof.
  intros Hv Hs. unfold on_confirm, on_confirm_fields.
  cbn [sh_phase sh_agreed sh_client_nonce sh_server_nonce sh_session
    sh_set_session sh_cfg].
  rewrite bool_decide_eq_true_2 by reflexivity. cbn [negb].
  rewrite Hv, Hs. reflexivity.
Qed.

Lemma confirm_s2c_establishes cc sp (ic : IC) (rc rs : Nonce) a a2 c2 gap :
  verify_peer_confirm a c2 (hc_book_id cc) sp rc rs ServerToClient =
    (a2, Some (Ok tt)) ->
  client_handle (MkClient cc CpConfirmSent (Some rc) (Some rs) (Some sp)
    (Some a) gap) (ConfirmS2c c2) ic =
  (MkClient cc CpEstablished (Some rc) (Some rs) (Some sp) None gap, ic,
   Some (StEstablished [] a2 sp)).
Proof.
  intros Hv. unfold client_handle, on_confirm_s2c.
  cbn [ch_phase ch_agreed ch_client_nonce ch_server_nonce ch_session
    ch_set_session ch_cfg]. rewrite Hv. reflexivity.
Qed.

(** C8: completeness.  If both ends run version 2 on one book, the client's
    pointer is not ahead of the server's and the book is not exhausted, and if
    the client's issuer yields the segments up to the server's pointer and
    both issuers then yield the same segment, the handshake (every message
    through the codec) ends with both ends established on that segment, with
    sessions that are each other's peer and both live. *)
Theorem handshake_completes cc cs (ic ic0 ic1 : IC) (isv is1 : IS) (rc rs : Nonce) seg :
  (forall k n a p, aead_encrypt k n a p <> None) ->
  wf_config cc -> wf_config cs -> wf_nonce16 rc -> wf_nonce16 rs ->
  hc_book_id cc = hc_book_id cs ->
  hc_local_pointer cc <= hc_local_pointer cs < hc_segment_count cs ->
  burn_gap ic (Z.to_nat (hc_local_pointer cs - hc_local_pointer cc)) =
    (ic0, Some (Ok tt)) ->
  issuer_issue ic0 = (ic1, Some (Ok seg)) ->
  issuer_issue isv = (is1, Some (Ok seg)) ->
  exists sc ss,
    exchange cc cs ic isv rc rs =
      Some (ic1, is1, sc, ss, hc_local_pointer cs) /\
    linked sc ss /\ linked ss sc /\
    is_active sc = true /\ is_active ss = true.
Proof.
  intros Henc (Vc & Bc & Pc & Nc) (Vs & Bs & Ps & Ns) Hrc Hrs Hbook
    [Hle Hlt] Hgap Hic His.
  destruct (confirms_exchange (hc_book_id cs) (hc_local_pointer cs) rc rs
    (bridge_segment seg) Henc Bs Ps Hrc Hrs)
    as (a1 & c1 & b1 & b2 & c2 & a2 & E1 & W1 & E2 & E3 & W2 & E4 & L & L' & Ta & Tb & _).
  exists a2, b2. split.
  2:{ unfold is_active. rewrite Ta, Tb. auto. }
  unfold exchange, client_new, server_new, client_start.
  rewrite Vc, Vs, Z.eqb_refl. cbn [negb ch_phase].
  rewrite bool_decide_eq_true_2 by reflexivity. cbn [negb ch_cfg
    ch_server_nonce ch_agreed ch_session ch_wasted_gap].
  rewrite deliver_ok by (try reflexivity; simpl; split_and!; auto; ulia).
  rewrite Hbook, hello_agrees by auto. rewrite deliver_ok; cycle 1.
  { simpl. auto. }
  { unfold agree_result. destruct (_ <? _); reflexivity. }
  { reflexivity. }
  rewrite <- Hbook in E1.
  rewrite (arbitrate_confirms cc _ ic ic0 ic1 rc rs seg a1 c1 Hle Hgap Hic E1).
  rewrite (deliver_ok Server (IssueRequest _ _ _)), (deliver_ok Server
    (ConfirmC2s c1)) by (try reflexivity; simpl; auto).
  rewrite (issue_accepts cs _ isv is1 rc rs seg His).
  rewrite (confirm_establishes cs _ rc rs _ b1 b2 c1 (ConfirmS2c c2) E2 E3).
  rewrite deliver_ok by (try reflexivity; simpl; auto).
  rewrite <- Hbook in E4.
  rewrite (confirm_s2c_establishes cc _ ic1 rc rs a1 a2 c2 _ E4).
  rewrite Z.eqb_refl. reflexivity.
Qed.

End Exchange.

(** ** Which calls spend segments *)

Section Spending.
Context `{Aead} {I : Type} `{SegmentIssuer I}.

(** [n] calls of [issue] lead from one issuer to the other. *)
Inductive issues : I -> nat -> I -> Prop :=
  | issues_0 i : issues i 0 i
  | issues_S i i1 r n i2 :
      issuer_issue i = (i1, r) -> issues i1 n i2 -> issues i (S n) i2.

Lemma issues_snoc i n i1 r i2 :
  issues i n i1 -> issuer_issue i1 = (i2, r) -> issues i (S n) i2.
Proof.
  induction 1 as [j|j j1 rj n j2 E Hn IH]; intros E2;
    econstructor; eauto using issues_0.
Qed.

Lemma burn_gap_issues n : forall (i i1 : I) r,
  burn_gap i n = (i1, r) ->
  exists k, (k <= n)%nat /\ issues i k i1 /\ (r = Some (Ok tt) -> k = n).
Proof.
  induction n as [|n IH]; intros i i1 r E; simpl in E.
  - injection E as <- <-. exists 0%nat. eauto using issues_0.
  - destruct (issuer_issue i) as [i0 [[s|e]|]] eqn:Ei.
    + apply IH in E as (k & Hk & Hi & Hr). exists (S k).
      split_and!; [lia | econstructor; eauto | intros; f_equal; auto].
    + injection E as <- <-. exists 1%nat.
      split_and!; [lia | econstructor; eauto using issues_0 | discriminate].
    + injection E as <- <-. exists 1%nat.
      split_and!; [lia | econstructor; eauto using issues_0 | discriminate].
Qed.

Lemma confirm_segment_phase h i seg h' st :
  confirm_segment h i seg = (h', st) ->
  (exists m, st = Some (StSend m) /\ ch_phase h' = CpConfirmSent) \/
  (st = None) \/
  (exists e, st = Some (StFailed e) /\ ch_phase h' = CpFailed /\
     ch_session h' = None).
Proof.
  unfold confirm_segment. intros E.
  destruct (ch_client_nonce h), (ch_server_nonce h);
    try (injection E as <- <-; right; right; simpl; eauto; fail).
  destruct (seal_confirm _ _ _ _ _ _) as [s [[m|e]|]];
    injection E as <- <-; simpl; eauto 6.
Qed.

Lemma issue_and_confirm_issues h issuer h' issuer' st i :
  ch_agreed h = Some i -> issue_and_confirm h issuer = (h', issuer', st) ->
  exists k, issues issuer k issuer' /\
    (k <= Z.to_nat (i - hc_local_pointer (ch_cfg h)) + 1)%nat /\
    (forall m, st = Some (StSend m) ->
       k = (Z.to_nat (i - hc_local_pointer (ch_cfg h)) + 1)%nat).
Proof.
  intros Ha E. unfold issue_and_confirm in E. rewrite Ha in E.
  destruct (burn_gap issuer _) as [i0 r] eqn:Eb.
  apply burn_gap_issues in Eb as (k & Hk & Hi & Hr).
  destruct r as [[u|e]|]; cycle 1.
  { injection E as <- <- <-. exists k. split_and!; [auto | lia | discriminate]. }
  { injection E as <- <- <-. exists k. split_and!; [auto | lia | discriminate]. }
  destruct u. specialize (Hr eq_refl). subst k.
  destruct (issuer_issue i0) as [i1 [[s|e]|]] eqn:Ei; cycle 1.
  { injection E as <- <- <-. eexists. split; [eapply issues_snoc; eauto|].
    split; [lia | discriminate]. }
  { injection E as <- <- <-. eexists. split; [eapply issues_snoc; eauto|].
    split; [lia | discriminate]. }
  destruct (confirm_segment h i s) as [h1 st1].
  injection E as <- <- <-. eexists. split; [eapply issues_snoc; eauto|].
  split; [lia|]. intros. lia.
Qed.

(** The one situation in which the client's [handle] calls its issuer. *)
Definition client_spends (h : ClientHandshake) (msg : Message) (i : Z) : Prop :=
  ch_phase h = CpHelloSent /\ hc_local_pointer (ch_cfg h) <= i /\
  exists sn, msg = Arbitrate sn i
    (agree_result (hc_local_pointer (ch_cfg h)) i).

(** The one situation in which the server's [on_issue_request] does. *)
Definition server_spends (k : ServerHandshake) (req : Message) : Prop :=
  sh_phase k = SpIssueWait /\
  exists i cn sn, sh_agreed k = Some i /\ sh_client_nonce k = Some cn /\
    sh_server_nonce k = Some sn /\ req = IssueRequest i cn sn.

(** What one call of [handle] spent for the message [msg]: nothing, or up to the agreed
    segment, and all of it if it answered. *)
Definition spending (h : ClientHandshake) (msg : Message) (issuer issuer' : I)
  (st : option Step) : Prop :=
  issuer' = issuer \/
  exists i n, client_spends h msg i /\ issues issuer n issuer' /\
    (n <= Z.to_nat (i - hc_local_pointer (ch_cfg h)) + 1)%nat /\
    (forall m, st = Some (StSend m) ->
       n = (Z.to_nat (i - hc_local_pointer (ch_cfg h)) + 1)%nat).

Lemma arbitrate_spending h sn sp res issuer h' issuer' st :
  ch_phase h = CpHelloSent -> on_arbitrate h issuer sn sp res = (h', issuer', st) ->
  spending h (Arbitrate sn sp res) issuer issuer' st.
Proof.
  intros Hp E. unfold on_arbitrate in E.
  assert (Hgo : forall g, res = agree_result (hc_local_pointer (ch_cfg h)) sp ->
    hc_local_pointer (ch_cfg h) <= sp ->
    issue_and_confirm (ch_set_agreed h sn sp g) issuer = (h', issuer', st) ->
    spending h (Arbitrate sn sp res) issuer issuer' st).
  { intros g -> Hle Eg. eapply issue_and_confirm_issues in Eg as (n & Hn & Hk & Hs); [|reflexivity].
    right. exists sp, n. split_and!; auto. split_and!; eauto. }
  unfold agree_result in Hgo.
  destruct res, (Z.ltb_spec (hc_local_pointer (ch_cfg h)) sp); repeat case_match_in E;
    try (injection E as <- <- <-; left; reflexivity);
    try apply negb_false_iff, Z.eqb_eq in E0; try apply Z.leb_gt in E0;
    try lia; eapply Hgo; eauto; lia.
Qed.

Lemma request_spending k msg issuer k' issuer' st :
  on_issue_request k msg issuer = (k', issuer', st) ->
  issuer' = issuer \/ (server_spends k msg /\ issues issuer 1 issuer').
Proof.
  intros E. unfold on_issue_request, on_issue_fields in E.
  repeat (case_match_in E; try (injection E as <- <- <-; left; reflexivity)).
  all: injection E as <- <- <-; right; apply negb_false_iff, bool_decide_eq_true in E0.
  all: apply negb_false_iff, Z.eqb_eq in E3 as ->; apply orb_false_iff in E6 as [Ec Es].
  all: apply negb_false_iff, bool_decide_eq_true in Ec as ->.
  all: apply negb_false_iff, bool_decide_eq_true in Es as ->.
  all: split; [split; [exact E0 | eauto 10]|].
  all: econstructor; [eassumption | apply issues_0].
Qed.

(** C13: segments are spent only after the checks.  The client calls its issuer
    only on an ARBITRATE whose result and pointer agree with its own pointer,
    never more than the distance to the agreed pointer plus one times, and
    exactly so often if it goes on; the server calls its issuer only, and
    once, for a request that names the agreed segment and echoes both nonces.
    Every other message leaves the issuer untouched. *)
Theorem issue_discipline (h : ClientHandshake) (k : ServerHandshake) msg
  (issuer : I) :
  (forall h' issuer' st, client_handle h msg issuer = (h', issuer', st) ->
     issuer' = issuer \/
     exists i n, client_spends h msg i /\ issues issuer n issuer' /\
       (n <= Z.to_nat (i - hc_local_pointer (ch_cfg h)) + 1)%nat /\
       (forall m, st = Some (StSend m) ->
          n = (Z.to_nat (i - hc_local_pointer (ch_cfg h)) + 1)%nat)) /\
  (forall k' issuer' st, on_issue_request k msg issuer = (k', issuer', st) ->
     issuer' = issuer \/ (server_spends k msg /\ issues issuer 1 issuer')).
Proof.
  split; [|intros k' issuer' st; apply request_spending].
  intros h' issuer' st E. change (spending h msg issuer issuer' st).
  unfold client_handle in E. destruct (ch_phase h) eqn:Ep;
    try (injection E as <- <- <-; left; reflexivity);
    destruct msg; try (injection E as <- <- <-; left; reflexivity).
  - eapply arbitrate_spending; eauto.
  - destruct (on_confirm_s2c h c). injection E as <- <- <-. left. reflexivity.
Qed.

End Spending.

(** ** Reachable machines and their invariant *)

Section Reachable.
Context `{Aead} {I : Type} `{SegmentIssuer I}.

(** The clients the public calls of [ClientHandshake] can produce, whatever
    the peer sends, the issuer answers and the generator draws. *)
Inductive client_reachable : ClientHandshake -> Prop :=
  | cr_new cfg h : client_new cfg = Ok h -> client_reachable h
  | cr_start h rand h' r : client_reachable h ->
      client_start h rand = (h', r) -> client_reachable h'
  | cr_handle h msg (issuer : I) h' issuer' st : client_reachable h ->
      client_handle h msg issuer = (h', issuer', Some st) ->
      client_reachable h'
  | cr_abort h reason : client_reachable h ->
      client_reachable (fst (client_abort h reason)).

Inductive server_reachable : ServerHandshake -> Prop :=
  | sr_new cfg k : server_new cfg = Ok k -> server_reachable k
  | sr_hello k hello rand k' r : server_reachable k ->
      on_hello k hello rand = (k', r) -> server_reachable k'
  | sr_issue k req (issuer : I) k' issuer' st : server_reachable k ->
      on_issue_request k req issuer = (k', issuer', Some st) ->
      server_reachable k'
  | sr_confirm k c k' st : server_reachable k ->
      on_confirm k c = (k', Some st) -> server_reachable k'
  | sr_abort k reason : server_reachable k ->
      server_reachable (fst (server_abort k reason)).

(** A session a machine holds is bound to what the machine agreed on. *)
Definition client_holds (h : ClientHandshake) (s : Session) : Prop :=
  exists i cn sn, ch_agreed h = Some i /\ ch_client_nonce h = Some cn /\
    ch_server_nonce h = Some sn /\ sess_inv s /\
    ss_ctx s = MkCtx Client (hc_book_id (ch_cfg h)) i cn sn.

Definition server_holds (k : ServerHandshake) (s : Session) : Prop :=
  exists i cn sn, sh_agreed k = Some i /\ sh_client_nonce k = Some cn /\
    sh_server_nonce k = Some sn /\ sess_inv s /\
    ss_ctx s = MkCtx Server (hc_book_id (sh_cfg k)) i cn sn.

Definition client_inv (h : ClientHandshake) : Prop :=
  (ch_phase h <> CpConfirmSent -> ch_phase h <> CpFailed ->
     ch_session h = None) /\
  (forall s, ch_session h = Some s -> client_holds h s).

Definition server_inv (k : ServerHandshake) : Prop :=
  (sh_phase k <> SpConfirmWait -> sh_session k = None) /\
  (forall s, sh_session k = Some s -> server_holds k s).

Lemma client_inv_none h : ch_session h = None -> client_inv h.
Proof. intros E. split; [auto | rewrite E; discriminate]. Qed.

Lemma server_inv_none k : sh_session k = None -> server_inv k.
Proof. intros E. split; [auto | rewrite E; discriminate]. Qed.

Lemma seal_confirm_inv s book i cn sn d s' m :
  sess_inv s -> seal_confirm s book i cn sn d = (s', Some (Ok m)) ->
  sess_inv s' /\ ss_ctx s' = ss_ctx s.
Proof.
  intros Hi E. unfold seal_confirm in E.
  destruct (confirm_kind d) as [[mt w] l].
  destruct (encode_confirm_body _) as [plain|]; [|discriminate].
  destruct (seal_record s mt plain) as [s1 [[r|]|]] eqn:Es; try discriminate.
  assert (s' = s1) as -> by (repeat case_match_in E; congruence).
  destruct (seal_shape _ _ _ _ _ Hi Es) as [Hi' _]. split; [exact Hi'|].
  apply seal_ok in Es as (k & ct & tag & _ & _ & _ & _ & _ & _ & _ & ->).
  destruct (sequence_next _); reflexivity.
Qed.

Lemma confirm_segment_inv h i seg h' st :
  ch_agreed h = Some i -> ch_session h = None ->
  confirm_segment h i seg = (h', Some st) ->
  client_inv h' /\ (forall out s j, st <> StEstablished out s j) /\
  (forall e, st = StFailed e -> ch_phase h' = CpFailed /\ ch_session h' = None).
Proof.
  intros Ha Hs E. unfold confirm_segment in E.
  destruct (ch_client_nonce h) as [cn|] eqn:Hc;
    [destruct (ch_server_nonce h) as [sn|] eqn:Hn|]; cycle 1.
  1,2: injection E as <- <-; split_and!; [apply client_inv_none; reflexivity
    | discriminate | auto].
  destruct (seal_confirm _ _ _ _ _ _) as [s [[m|e]|]] eqn:Es;
    simplify_eq; cycle 1.
  { split_and!; [apply client_inv_none; reflexivity | discriminate | auto]. }
  split_and!; [|discriminate | discriminate].
  apply seal_confirm_inv in Es as [Hi Hx]; [|apply sess_inv_new].
  split; [cbn; congruence|]. cbn. intros s0 [= <-].
  exists i, cn, sn. cbn. split_and!; auto.
Qed.

Lemma issue_and_confirm_inv h (issuer : I) h' issuer' st :
  ch_session h = None ->
  issue_and_confirm h issuer = (h', issuer', Some st) ->
  client_inv h' /\ (forall out s j, st <> StEstablished out s j) /\
  (forall e, st = StFailed e -> ch_phase h' = CpFailed /\ ch_session h' = None).
Proof.
  intros Hs E. unfold issue_and_confirm in E.
  assert (V : forall g e0, ch_phase g = CpFailed -> ch_session g = None ->
    client_inv g /\ (forall out s j, StFailed e0 <> StEstablished out s j) /\
    (forall e, StFailed e0 = StFailed e ->
       ch_phase g = CpFailed /\ ch_session g = None))
    by (intros; split_and!; [apply client_inv_none; auto | discriminate | auto]).
  destruct (ch_agreed h) as [i|] eqn:Ha.
  2:{ injection E as <- <- <-. apply V; reflexivity. }
  destruct (burn_gap _ _) as [i0 [[u|e]|]]; try discriminate.
  2:{ injection E as <- <- <-. apply V; reflexivity. }
  destruct (issuer_issue i0) as [i1 [[seg|e]|]]; try discriminate.
  2:{ injection E as <- <- <-. apply V; reflexivity. }
  destruct (confirm_segment h i seg) as [h1 st1] eqn:Ec.
  simplify_eq. eapply confirm_segment_inv; eauto.
Qed.

(** What every call of the client's [handle] guarantees. *)
Lemma client_handle_facts h msg (issuer : I) h' issuer' st :
  client_inv h -> client_handle h msg issuer = (h', issuer', Some st) ->
  client_inv h' /\
  (forall out s i, st = StEstablished out s i ->
     exists c, ch_phase h = CpConfirmSent /\ msg = ConfirmS2c c /\
       on_confirm_s2c h c = (h', Some st) /\ issuer' = issuer) /\
  (forall e, st = StFailed e ->
     (ch_phase h' = CpFailed \/ ch_phase h' = CpAheadRecovery) /\
     ch_session h' = None).
Proof.
  intros Hi E.
  assert (V : client_inv (fst (ch_order_violation h)))
    by (apply client_inv_none; reflexivity).
  unfold client_handle in E.
  destruct (ch_phase h) eqn:Ep;
    try (injection E as <- <- <-; split_and!; [exact V | discriminate | auto]; fail).
  - assert (Hs : ch_session h = None) by (apply Hi; congruence).
    destruct msg as [| sn sp res | | | |];
      try (injection E as <- <- <-; split_and!; [exact V | discriminate | auto]; fail).
    assert (W : client_inv h' /\ (forall out s j, st <> StEstablished out s j) /\
      (forall e, st = StFailed e ->
        (ch_phase h' = CpFailed \/ ch_phase h' = CpAheadRecovery) /\
        ch_session h' = None)).
    { unfold on_arbitrate in E. destruct res; try case_match_in E;
        try (injection E as <- <- <-; split_and!;
          [apply client_inv_none; exact Hs | discriminate | simpl; auto]; fail).
      all: apply issue_and_confirm_inv in E as (Hv & Hn & Hf); [|exact Hs].
      all: split_and!; auto; intros e ->; destruct (Hf e eq_refl); auto. }
    destruct W as (W1 & W2 & W3). split_and!; auto.
    intros out s i ->. destruct (W2 out s i eq_refl).
  - destruct msg as [| | | |c|];
      try (injection E as <- <- <-; split_and!; [exact V | discriminate | auto]; fail).
    all: try (injection E as <- <- <-; split_and!; [exact V | discriminate | auto]).
    destruct (on_confirm_s2c h c) as [h1 st1] eqn:Ec.
    simplify_eq. split; [|split]; [| eauto 6 |].
    + unfold on_confirm_s2c, ch_order_violation in Ec.
      repeat case_match_in Ec; simplify_eq; apply client_inv_none; reflexivity.
    + intros e ->. unfold on_confirm_s2c, ch_order_violation in Ec.
      repeat case_match_in Ec; simplify_eq; auto.
Qed.

Lemma client_reachable_inv h : client_reachable h -> client_inv h.
Proof.
  induction 1 as [cfg h E | h rand h' r _ IH E | h msg io h' io' st _ IH E
                 | h reason _ IH].
  - unfold client_new in E. case_match_in E; [discriminate|].
    injection E as <-. apply client_inv_none. reflexivity.
  - unfold client_start in E.
    destruct (bool_decide_reflect (ch_phase h = CpIdle)) as [Hp|Hp];
      [destruct rand|]; injection E as <- <-; auto.
    + apply client_inv_none. apply IH; congruence.
    + split; [cbn; congruence|]. apply IH.
  - apply (client_handle_facts _ _ _ _ _ _ IH E).
  - apply client_inv_none. reflexivity.
Qed.

Lemma on_issue_inv k req (issuer : I) k' issuer' st :
  server_inv k -> on_issue_request k req issuer = (k', issuer', Some st) ->
  server_inv k' /\ (forall out s i, st <> StEstablished out s i) /\
  (forall e, st = StFailed e -> sh_phase k' = SpFailed /\ sh_session k' = None).
Proof.
  intros Hi E. unfold on_issue_request in E.
  destruct (bool_decide_reflect (sh_phase k = SpIssueWait)) as [Hp|Hp];
    cbn [negb] in E.
  2:{ injection E as <- <- <-. split_and!;
        [apply server_inv_none; reflexivity | discriminate | auto]. }
  assert (Hs : sh_session k = None) by (apply Hi; congruence).
  destruct req; try (injection E as <- <- <-; split_and!;
    [apply server_inv_none; reflexivity | discriminate | auto]; fail).
  unfold on_issue_fields in E.
  destruct (sh_agreed k) as [i|] eqn:Ha; [|injection E as <- <- <-; split_and!;
    [apply server_inv_none; reflexivity | discriminate | auto]].
  case_match_in E; [injection E as <- <- <-; split_and!;
    [apply server_inv_none; exact Hs | discriminate | auto] |].
  destruct (sh_client_nonce k) as [cn|] eqn:Hc;
    [destruct (sh_server_nonce k) as [sn|] eqn:Hn|];
    try (injection E as <- <- <-; split_and!;
      [apply server_inv_none; reflexivity | discriminate | auto]; fail).
  case_match_in E; [injection E as <- <- <-; split_and!;
    [apply server_inv_none; reflexivity | discriminate | auto] |].
  destruct (issuer_issue issuer) as [i1 [[seg|e]|]]; simplify_eq.
  - split_and!; [|discriminate | discriminate]. split; [cbn; congruence|].
    cbn. intros s [= <-]. exists i, cn, sn. cbn.
    split_and!; auto. apply sess_inv_new.
  - split_and!; [apply server_inv_none; exact Hs | discriminate | auto].
Qed.

Lemma on_confirm_inv k c k' st :
  server_inv k -> on_confirm k c = (k', Some st) ->
  server_inv k' /\
  (forall out s i, st = StEstablished out s i ->
     exists f, sh_phase k = SpConfirmWait /\ c = ConfirmC2s f /\
       on_confirm_fields k f = (k', Some st)) /\
  (forall e, st = StFailed e -> sh_phase k' = SpFailed /\ sh_session k' = None).
Proof.
  intros Hi E. unfold on_confirm in E.
  destruct (bool_decide_reflect (sh_phase k = SpConfirmWait)) as [Hp|Hp];
    cbn [negb] in E.
  2:{ injection E as <- <-. split_and!;
        [apply server_inv_none; reflexivity | discriminate | auto]. }
  destruct c as [| | |f| |]; try (injection E as <- <-; split_and!;
    [apply server_inv_none; reflexivity | discriminate | auto]; fail).
  split; [|split]; [| eauto 6 |].
  - unfold on_confirm_fields, server_order_violation in E.
    repeat case_match_in E; simplify_eq; apply server_inv_none; reflexivity.
  - intros e ->. unfold on_confirm_fields, server_order_violation in E.
    repeat case_match_in E; simplify_eq; auto.
Qed.

Lemma on_hello_inv k hello rand k' r :
  server_inv k -> on_hello k hello rand = (k', r) -> server_inv k'.
Proof.
  intros Hi E. apply server_inv_none. unfold on_hello in E.
  destruct (bool_decide_reflect (sh_phase k = SpIdle)) as [Hp|Hp];
    cbn [negb] in E; [|injection E as <- <-; reflexivity].
  assert (Hs : sh_session k = None) by (apply Hi; congruence).
  repeat case_match_in E; injection E as <- <-; exact Hs.
Qed.

Lemma server_reachable_inv k : server_reachable k -> server_inv k.
Proof.
  induction 1 as [cfg k E | k m r k' res _ IH E | k m io k' io' st _ IH E
                 | k c k' st _ IH E | k reason _ IH].
  - unfold server_new in E. case_match_in E; [discriminate|].
    injection E as <-. apply server_inv_none. reflexivity.
  - eapply on_hello_inv; eauto.
  - apply (on_issue_inv _ _ _ _ _ _ IH E).
  - apply (on_confirm_inv _ _ _ _ IH E).
  - apply server_inv_none. reflexivity.
Qed.

(** What an end holds that the handshake declares established: a live session
    of its role over the agreed segment and both nonces. *)
Definition established_for (role : Role) (cfg : HandshakeConfig) (i : Z)
  (cn sn : Nonce) (s : Session) : Prop :=
  sess_inv s /\ ss_ctx s = MkCtx role (hc_book_id cfg) i cn sn.

(** C9: an established client authenticated its server: the message is the
    CONFIRM_S2C awaited, its outer fields name the agreed segment and the
    session nonce of both ends, its tag verified under the server's key, and
    the sealed copy repeats book, segment, both nonces, direction, type and
    label.  The issuer is untouched and the session handed over is bound to
    exactly these values. *)
Theorem client_established_authenticated h msg (issuer : I) h' issuer' out s i :
  client_reachable h ->
  client_handle h msg issuer = (h', issuer', Some (StEstablished out s i)) ->
  exists c cn sn s0,
    ch_phase h = CpConfirmSent /\ msg = ConfirmS2c c /\ out = [] /\
    ch_agreed h = Some i /\ ch_client_nonce h = Some cn /\
    ch_server_nonce h = Some sn /\ ch_session h = Some s0 /\
    confirmed s0 c (hc_book_id (ch_cfg h)) i cn sn ServerToClient /\
    established_for Client (ch_cfg h) i cn sn s /\
    last_accepted s ServerToClient = Some 0 /\
    ch_phase h' = CpEstablished /\ ch_session h' = None /\ issuer' = issuer.
Proof.
  intros Hr E. pose proof (client_reachable_inv _ Hr) as Hi.
  destruct (client_handle_facts _ _ _ _ _ _ Hi E) as (_ & He & _).
  destruct (He _ _ _ eq_refl) as (c & Hp & -> & Ec & ->).
  unfold on_confirm_s2c, ch_order_violation in Ec.
  destruct (ch_agreed h) as [j|] eqn:Ha; [|discriminate].
  destruct (ch_client_nonce h) as [cn|] eqn:Hc; [|discriminate].
  destruct (ch_server_nonce h) as [sn|] eqn:Hn; [|discriminate].
  destruct (ch_session h) as [s0|] eqn:Hs; [|discriminate].
  destruct (verify_peer_confirm _ _ _ _ _ _ _) as [s1 [[u|e]|]] eqn:Ev;
    [|discriminate | discriminate].
  injection Ec as <- <- <- <-. apply verify_peer_ok in Ev as [Hv ->].
  destruct (proj2 Hi _ Hs) as (i' & cn' & sn' & A & B & C & Hinv & Hx).
  assert (i' = j /\ cn' = cn /\ sn' = sn) as (-> & -> & ->) by (split_and!; congruence).
  exists c, cn, sn, s0. split_and!; auto.
  - split; [apply sess_inv_recv, Hinv | exact Hx].
  - unfold last_accepted, set_recv_last, recv_dir, send_dir, session_role.
    rewrite Hx. reflexivity.
Qed.

(** C10: an established server authenticated its client in the same way, from
    the CONFIRM_C2S, and answers with its own CONFIRM_S2C sealed by the session
    it hands over. *)
Theorem server_established_authenticated k msg k' out s i :
  server_reachable k ->
  on_confirm k msg = (k', Some (StEstablished out s i)) ->
  exists c cn sn s0 m,
    sh_phase k = SpConfirmWait /\ msg = ConfirmC2s c /\ out = [m] /\
    sh_agreed k = Some i /\ sh_client_nonce k = Some cn /\
    sh_server_nonce k = Some sn /\ sh_session k = Some s0 /\
    confirmed s0 c (hc_book_id (sh_cfg k)) i cn sn ClientToServer /\
    seal_confirm (set_recv_last s0 ClientToServer 0) (hc_book_id (sh_cfg k))
      i cn sn ServerToClient = (s, Some (Ok m)) /\
    established_for Server (sh_cfg k) i cn sn s /\
    sh_phase k' = SpEstablished /\ sh_session k' = None.
Proof.
  intros Hr E. pose proof (server_reachable_inv _ Hr) as Hi.
  destruct (on_confirm_inv _ _ _ _ Hi E) as (_ & He & _).
  destruct (He _ _ _ eq_refl) as (c & Hp & -> & Ec).
  unfold on_confirm_fields, server_order_violation in Ec.
  destruct (sh_agreed k) as [j|] eqn:Ha; [|discriminate].
  destruct (sh_client_nonce k) as [cn|] eqn:Hc; [|discriminate].
  destruct (sh_server_nonce k) as [sn|] eqn:Hn; [|discriminate].
  destruct (sh_session k) as [s0|] eqn:Hs; [|discriminate].
  destruct (verify_peer_confirm _ _ _ _ _ _ _) as [s1 [[u|e]|]] eqn:Ev;
    [|discriminate | discriminate].
  apply verify_peer_ok in Ev as [Hv ->].
  destruct (seal_confirm _ _ _ _ _ _) as [s2 [[m|e]|]] eqn:Es;
    [|discriminate | discriminate].
  injection Ec as <- <- <- <-.
  destruct (proj2 Hi _ Hs) as (i' & cn' & sn' & A & B & C & Hinv & Hx).
  assert (i' = j /\ cn' = cn /\ sn' = sn) as (-> & -> & ->) by (split_and!; congruence).
  assert (Hd : recv_dir s0 = ClientToServer)
    by (unfold recv_dir, send_dir, session_role; rewrite Hx; reflexivity).
  rewrite Hd in Es. cbn [sh_set_session sh_cfg] in Es.
  pose proof (seal_confirm_inv _ _ _ _ _ _ _ _
    (sess_inv_recv _ _ _ Hinv) Es) as [Hi2 Hx2].
  exists c, cn, sn, s0, m. split_and!; auto.
  split; [exact Hi2 | rewrite Hx2; exact Hx].
Qed.

(** Failures are final.  A step that fails leaves the machine without a
    session in a terminal phase (failed, or the client's frozen recovery
    phase); in a terminal phase every further message answers BAD_ORDER,
    calls no issuer, and leaves no session. *)
Theorem handshake_fail_closed h k :
  client_reachable h -> server_reachable k ->
  (forall msg (issuer : I) h' issuer' e,
     client_handle h msg issuer = (h', issuer', Some (StFailed e)) ->
     (ch_phase h' = CpFailed \/ ch_phase h' = CpAheadRecovery) /\
     ch_session h' = None) /\
  (forall req (issuer : I) k' issuer' e,
     on_issue_request k req issuer = (k', issuer', Some (StFailed e)) ->
     sh_phase k' = SpFailed /\ sh_session k' = None) /\
  (forall c k' e, on_confirm k c = (k', Some (StFailed e)) ->
     sh_phase k' = SpFailed /\ sh_session k' = None) /\
  (forall m rand k' e, on_hello k m rand = (k', Err e) -> e <> HeCsprng ->
     sh_phase k' = SpFailed /\ sh_session k' = None) /\
  (ch_phase h = CpFailed \/ ch_phase h = CpAheadRecovery \/
     ch_phase h = CpEstablished ->
   forall msg (issuer : I), exists h',
     client_handle h msg issuer =
       (h', issuer, Some (StFailed (HeViolation BAD_ORDER))) /\
     ch_phase h' = CpFailed /\ ch_session h' = None) /\
  (sh_phase k = SpFailed \/ sh_phase k = SpAheadPending \/
     sh_phase k = SpEstablished ->
   forall msg rand (issuer : I), exists k',
     on_hello k msg rand = (k', Err (HeViolation BAD_ORDER)) /\
     on_issue_request k msg issuer =
       (k', issuer, Some (StFailed (HeViolation BAD_ORDER))) /\
     on_confirm k msg = (k', Some (StFailed (HeViolation BAD_ORDER))) /\
     sh_phase k' = SpFailed /\ sh_session k' = None).
Proof.
  intros Hr Kr. pose proof (client_reachable_inv _ Hr) as Hi.
  pose proof (server_reachable_inv _ Kr) as Ki.
  split; [|split; [|split; [|split; [|split]]]].
  - intros msg issuer h' issuer' e E.
    apply (proj2 (proj2 (client_handle_facts _ _ _ _ _ _ Hi E)) e eq_refl).
  - intros req issuer k' issuer' e E.
    apply (proj2 (proj2 (on_issue_inv _ _ _ _ _ _ Ki E)) e eq_refl).
  - intros c k' e E. apply (proj2 (proj2 (on_confirm_inv _ _ _ _ Ki E)) e eq_refl).
  - intros m rand k' e E He. unfold on_hello in E.
    destruct (bool_decide_reflect (sh_phase k = SpIdle)) as [Hp|Hp];
      cbn [negb] in E; [|injection E as <- <-; auto].
    assert (Hs : sh_session k = None) by (apply Ki; congruence).
    repeat case_match_in E; simplify_eq; auto.
  - intros Hp msg issuer. exists (fst (ch_order_violation h)).
    split; [|split; reflexivity].
    unfold client_handle. destruct Hp as [-> | [-> | ->]]; reflexivity.
  - intros Hp msg rand issuer. exists (fst (server_order_violation k)).
    unfold on_hello, on_issue_request, on_confirm.
    assert (sh_phase k <> SpIdle /\ sh_phase k <> SpIssueWait /\
            sh_phase k <> SpConfirmWait) as (? & ? & ?)
      by (destruct Hp as [-> | [-> | ->]]; auto).
    rewrite !bool_decide_eq_false_2 by auto. auto.
Qed.

End Reachable.

(** ** The pointer table *)

Section Arbitration.
Context `{Aead} {I : Type} `{SegmentIssuer I}.

(** The verdict of two pointers over one book of [n] segments. *)
Inductive Verdict := VdExhausted | VdServerAhead | VdClientAhead | VdEqual.

Definition verdict (cp sp n : Z) : Verdict :=
  if n <=? sp then VdExhausted
  else match cp ?= sp with
       | Lt => VdServerAhead | Gt => VdClientAhead | Eq => VdEqual
       end.

(** What the two ends conclude from a verdict: the server's answer and next
    phase, and what an honest client that receives the answer does. *)
Definition server_conclusion (v : Verdict) (sp n : Z) :
  ArbitrateResult * Z * ServerPhase :=
  match v with
  | VdExhausted => (ArExhausted, n, SpFailed)
  | VdServerAhead => (ArServerAhead, sp, SpIssueWait)
  | VdClientAhead => (ArClientAhead, sp, SpAheadPending)
  | VdEqual => (ArOk, sp, SpIssueWait)
  end.

Definition client_conclusion (v : Verdict) (h : ClientHandshake) (rs : Nonce)
  (sp : Z) (issuer : I) : ClientHandshake * I * option Step :=
  let cp := hc_local_pointer (ch_cfg h) in
  let n := hc_segment_count (ch_cfg h) in
  match v with
  | VdExhausted =>
      (ch_set_phase h CpFailed, issuer, Some (StFailed (HeExhausted n)))
  | VdServerAhead =>
      issue_and_confirm (ch_set_agreed h rs sp (Some (cp, sp))) issuer
  | VdClientAhead =>
      (ch_set_phase h CpAheadRecovery, issuer,
       Some (StFailed (HeClientAhead cp sp)))
  | VdEqual =>
      issue_and_confirm (ch_set_agreed h rs sp (ch_wasted_gap h)) issuer
  end.

(** The two ends of one handshake reach the same verdict.  A server in its
    first phase answers a HELLO by the pointer table (book mismatch first, with
    pointer 0; then exhaustion of its own pointer, with the segment count; then
    the order of the two pointers), the answer passes the codec, and a client
    over the same book size that sent this HELLO draws the same conclusion: it
    never finds the answer contradictory, and it goes on to issue exactly when
    the server waits for its request. *)
Theorem arbitration_consistent cs book rc rs cp f h (issuer : I) :
  wf_config cs -> wf_nonce16 rs ->
  ch_phase h = CpHelloSent -> hc_local_pointer (ch_cfg h) = cp ->
  hc_segment_count (ch_cfg h) = hc_segment_count cs ->
  let sp := hc_local_pointer cs in
  let n := hc_segment_count cs in
  let v := verdict cp sp n in
  exists k' arb,
    on_hello (MkServer cs SpIdle None None None None) (Hello book rc cp f)
      (Some rs) = (k', Ok arb) /\
    deliver Client arb = Ok arb /\
    (book <> hc_book_id cs ->
       arb = Arbitrate rs 0 ArBookMismatch /\ sh_phase k' = SpFailed /\
       client_handle h arb issuer =
         (ch_set_phase h CpFailed, issuer, Some (StFailed HeBookMismatch))) /\
    (book = hc_book_id cs ->
       let '(res, p, phase) := server_conclusion v sp n in
       arb = Arbitrate rs p res /\ sh_phase k' = phase /\
       (phase = SpIssueWait <-> sh_agreed k' = Some sp) /\
       client_handle h arb issuer = client_conclusion v h rs sp issuer).
Proof.
  intros (Vs & Bs & Ps & Ns) Hrs Hph Hlp Hn sp n v.
  unfold on_hello. cbn [sh_phase]. rewrite bool_decide_eq_true_2 by reflexivity.
  cbn [negb sh_set_client_nonce sh_cfg].
  assert (D : forall p res, is_u64 p -> (res = ArBookMismatch -> p = 0) ->
    deliver Client (Arbitrate rs p res) = Ok (Arbitrate rs p res)).
  { intros p res Hp Hr. apply deliver_ok; [| destruct res; try rewrite Hr by reflexivity; reflexivity
      | reflexivity].
    simpl. split_and!; auto. }
  destruct (bool_decide_reflect (book = hc_book_id cs)) as [Hb|Hb]; cbn [negb].
  2:{ eexists _, _. split; [reflexivity|]. split; [apply D; [ulia | auto]|].
      split; [|congruence]. intros _. split_and!; try reflexivity.
      unfold client_handle. rewrite Hph. reflexivity. }
  unfold arbitrate. fold sp n. subst v. unfold verdict.
  unfold client_handle. rewrite Hph.
  destruct (Z.leb_spec n sp) as [Hx|Hx].
  { eexists _, _. split; [reflexivity|].
    split; [apply D; [exact Ns | discriminate]|]. split; [congruence|].
    intros _. cbn. split_and!; try reflexivity; [split; discriminate|].
    rewrite Hn. fold n. rewrite Z.eqb_refl. reflexivity. }
  destruct (Z.compare_spec cp sp) as [He|Hl|Hg].
  - rewrite (proj2 (Z.ltb_ge cp sp)), (proj2 (Z.ltb_ge sp cp)) by lia.
    eexists _, _. split; [reflexivity|].
    split; [apply D; [exact Ps | discriminate]|]. split; [congruence|].
    intros _. cbn. split_and!; try reflexivity; [split; reflexivity|].
    rewrite Hlp, He, Z.eqb_refl. reflexivity.
  - rewrite (proj2 (Z.ltb_lt cp sp)) by lia.
    eexists _, _. split; [reflexivity|].
    split; [apply D; [exact Ps | discriminate]|]. split; [congruence|].
    intros _. cbn. split_and!; try reflexivity; [split; reflexivity|].
    rewrite Hlp, (proj2 (Z.leb_gt sp cp)) by lia. reflexivity.
  - rewrite (proj2 (Z.ltb_ge cp sp)), (proj2 (Z.ltb_lt sp cp)) by lia.
    eexists _, _. split; [reflexivity|].
    split; [apply D; [exact Ps | discriminate]|]. split; [congruence|].
    intros _. cbn. split_and!; try reflexivity; [split; discriminate|].
    rewrite Hlp, (proj2 (Z.leb_gt cp sp)) by lia. reflexivity.
Qed.

End Arbitration.

(** ** A misuse of [start]

    [start] called twice: the second call fails the machine but, unlike every
    other failing path, does not close the session it holds. *)
Lemma client_start_keeps_session h s rand :
  ch_phase h = CpConfirmSent -> ch_session h = Some s ->
  exists h', client_start h rand = (h', Err (HeViolation BAD_ORDER)) /\
    ch_phase h' = CpFailed /\ ch_session h' = Some s.
Proof.
  intros Hp Hs. exists (ch_set_phase h CpFailed). unfold client_start.
  rewrite Hp, bool_decide_eq_false_2 by discriminate. auto.
Qed.

(** ** Witnesses: one concrete handshake *)

#[local] Existing Instance checksum_aead.

(** An issuer that hands out a list of segments. *)
#[local] Instance list_issuer : SegmentIssuer (list CommittedSegment) := {|
  issuer_issue l :=
    match l with
    | [] => ([], Some (Err (IeExhausted 0)))
    | seg :: l => (l, Some (Ok seg))
    end |}.

Definition demo_config (pointer : Z) : HandshakeConfig :=
  MkConfig VERSION (zeros 16) pointer 9.
Definition demo_rc : Nonce := repeat Byte.x11 16.
Definition demo_rs : Nonce := repeat Byte.x22 16.
Definition demo_stock (n : nat) : list CommittedSegment :=
  repeat (MkSegment (zeros 64)) n ++ [MkSegment demo_segment].

(** The client holds pointer 3, the server pointer 5: two segments are burnt. *)
Definition demo_c1 : ClientHandshake :=
  MkClient (demo_config 3) CpHelloSent (Some demo_rc) None None None None.
Definition demo_c2 : ClientHandshake :=
  fst (fst (client_handle demo_c1 (Arbitrate demo_rs 5 ArServerAhead)
              (demo_stock 2))).
Definition demo_s1 : ServerHandshake :=
  fst (on_hello (MkServer (demo_config 5) SpIdle None None None None)
         (Hello (zeros 16) demo_rc 3 0) (Some demo_rs)).
Definition demo_s2 : ServerHandshake :=
  fst (fst (on_issue_request demo_s1 (IssueRequest 5 demo_rc demo_rs)
              (demo_stock 0))).

Definition demo_confirm_c2s : Message :=
  match client_handle demo_c1 (Arbitrate demo_rs 5 ArServerAhead)
          (demo_stock 2) with
  | (_, _, Some (StSend [_; m])) => m
  | _ => Data 0 0 []
  end.

Definition demo_confirm_s2c : Message :=
  match snd (on_confirm demo_s2 demo_confirm_c2s) with
  | Some (StEstablished [m] _ _) => m
  | _ => Data 0 0 []
  end.

Lemma reachable_handle h msg issuer :
  client_reachable (I := list CommittedSegment) h ->
  is_Some (snd (client_handle h msg issuer)) ->
  client_reachable (I := list CommittedSegment)
    (fst (fst (client_handle h msg issuer))).
Proof.
  intros Hr [st Hs]. destruct (client_handle h msg issuer) as [[h' i'] o] eqn:E.
  simpl in *. subst o. eapply cr_handle; eauto.
Qed.

Lemma demo_c2_reachable : client_reachable (I := list CommittedSegment) demo_c2.
Proof.
  apply reachable_handle; [|vm_compute; eauto].
  apply (cr_start (MkClient (demo_config 3) CpIdle None None None None None)
    (Some demo_rc) _ (Ok (Hello (zeros 16) demo_rc 3 0))); [|reflexivity].
  apply (cr_new (demo_config 3)). reflexivity.
Qed.

Lemma demo_s2_reachable : server_reachable (I := list CommittedSegment) demo_s2.
Proof.
  destruct (on_issue_request demo_s1 (IssueRequest 5 demo_rc demo_rs)
    (demo_stock 0)) as [[k i] o] eqn:E.
  assert (K : demo_s2 = k) by (unfold demo_s2; rewrite E; reflexivity).
  assert (O : o = Some StAwaitPeer).
  { change o with (snd (k, i, o)). rewrite <- E. vm_compute. reflexivity. }
  rewrite K. rewrite O in E.
  eapply (sr_issue demo_s1); [|exact E].
  eapply (sr_hello (MkServer (demo_config 5) SpIdle None None None None));
    [apply (sr_new (demo_config 5)); reflexivity | apply surjective_pairing].
Qed.

Lemma handshake_completes_witness :
  exists sc ss,
    exchange (demo_config 3) (demo_config 5) (demo_stock 2) (demo_stock 0)
      demo_rc demo_rs = Some ([], [], sc, ss, 5) /\
    is_active sc = true /\ is_active ss = true.
Proof.
  destruct (handshake_completes (demo_config 3) (demo_config 5) (demo_stock 2)
    [MkSegment demo_segment] [] (demo_stock 0) [] demo_rc demo_rs
    (MkSegment demo_segment)) as (sc & ss & E & _ & _ & A & B);
    [discriminate | unfold wf_config; simpl; split_and!; (reflexivity || ulia)
    | unfold wf_config; simpl; split_and!; (reflexivity || ulia)
    | reflexivity | reflexivity | reflexivity | simpl; lia | reflexivity
    | reflexivity | reflexivity |].
  exists sc, ss. auto.
Defined.

Lemma client_established_witness :
  exists c, demo_confirm_s2c = ConfirmS2c c /\ cf_segment_index c = 5.
Proof.
  destruct (client_handle demo_c2 demo_confirm_s2c (demo_stock 0))
    as [[h' i'] st] eqn:E.
  assert (S : match snd (client_handle demo_c2 demo_confirm_s2c (demo_stock 0))
              with Some (StEstablished [] _ i) => i = 5 | _ => False end)
    by (vm_compute; reflexivity).
  rewrite E in S. cbn [snd] in S.
  destruct st as [[out|out s i| |e]|]; try destruct S.
  destruct (client_established_authenticated demo_c2 demo_confirm_s2c
    (demo_stock 0) h' i' out s i demo_c2_reachable E)
    as (c & cn & sn & s0 & _ & M & O & _ & _ & _ & _ & V & _).
  exists c. split; [exact M|]. rewrite O in S. rewrite <- S. apply V.
Defined.

Lemma server_established_witness :
  exists c, demo_confirm_c2s = ConfirmC2s c /\ cf_segment_index c = 5.
Proof.
  destruct (on_confirm demo_s2 demo_confirm_c2s) as [k' st] eqn:E.
  assert (S : match snd (on_confirm demo_s2 demo_confirm_c2s)
              with Some (StEstablished [_] _ i) => i = 5 | _ => False end)
    by (vm_compute; reflexivity).
  rewrite E in S. cbn [snd] in S.
  destruct st as [[out|out s i| |e]|]; try destruct S.
  destruct (server_established_authenticated demo_s2 demo_confirm_c2s k' out s i
    demo_s2_reachable E)
    as (c & cn & sn & s0 & m & _ & M & O & _ & _ & _ & _ & V & _).
  exists c. split; [exact M|]. rewrite O in S. rewrite <- S. apply V.
Defined.

Lemma handshake_fail_closed_witness :
    ch_session (fst (fst (client_handle demo_c2 demo_confirm_c2s (demo_stock 0))))
      = None /\
    sh_session (fst (on_confirm demo_s2 demo_confirm_s2c)) = None.
Proof.
  destruct (handshake_fail_closed demo_c2 demo_s2 demo_c2_reachable
    demo_s2_reachable) as (Hc & _ & Hs & _). split.
  - destruct (client_handle demo_c2 demo_confirm_c2s (demo_stock 0))
      as [[h' i'] st] eqn:E. cbn [fst].
    assert (S : snd (client_handle demo_c2 demo_confirm_c2s (demo_stock 0)) =
      Some (StFailed (HeViolation BAD_ORDER))) by (vm_compute; reflexivity).
    rewrite E in S. cbn [snd] in S. rewrite S in E. apply (Hc _ _ _ _ _ E).
  - destruct (on_confirm demo_s2 demo_confirm_s2c) as [k' st] eqn:E. cbn [fst].
    assert (S : snd (on_confirm demo_s2 demo_confirm_s2c) =
      Some (StFailed (HeViolation BAD_ORDER))) by (vm_compute; reflexivity).
    rewrite E in S. cbn [snd] in S. rewrite S in E. apply (Hs _ _ _ E).
Defined.

Lemma arbitration_consistent_witness :
  exists k' arb,
    on_hello (MkServer (demo_config 5) SpIdle None None None None)
      (Hello (zeros 16) demo_rc 3 0) (Some demo_rs) = (k', Ok arb) /\
    deliver Client arb = Ok arb.
Proof.
  destruct (arbitration_consistent (demo_config 5) (zeros 16) demo_rc demo_rs 3 0
    demo_c1 (demo_stock 2)) as (k' & arb & E & D & _);
    [unfold wf_config; simpl; split_and!; (reflexivity || ulia)
    | reflexivity.. |]. exists k', arb. auto.
Defined.
