(* ===== verification/OtpWire.v ===== *)
(** * OtpWire: the OTP_DATA frame and the PAD control payloads
    ([otp-fullotp]: wire.rs, control.rs, error.rs)

    Encoders and strict decoders.  The decoders read at fixed offsets, as the
    source does; a frame is accepted exactly when it is the encoding of a
    well-formed record. *)

From S2P Require Export Types.

#[local] Open Scope list_scope.
#[local] Open Scope Z_scope.

(** ** Errors (error.rs) *)

Inductive WireError :=
  | WeTooShort | WeTooLong | WeVersion | WeMsgType | WeMode | WeDirection
  | WeCiphertextLen | WeLengthMismatch | WeOffsetBounds.

Inductive ControlError :=
  | CeTooShort | CeTooLong | CeUnknownCode | CeLengthMismatch.

Inductive OtpError :=
  | OeWire (e : WireError)
  | OeDirection | OeBundle | OeReplay | OeGap | OeOffset | OeTag | OeClosed
  | OeDoesNotFit.

#[global] Instance wire_error_eq_dec : EqDecision WireError.
Proof. solve_decision. Defined.
#[global] Instance control_error_eq_dec : EqDecision ControlError.
Proof. solve_decision. Defined.
#[global] Instance otp_error_eq_dec : EqDecision OtpError.
Proof. solve_decision. Defined.

(** ** The data record (wire.rs) *)

Definition OTP_VERSION : Z := 3.
Definition MSG_TYPE_OTP_DATA : Z := 16.
Definition MODE_FULL_OTP_POLY1305 : Z := 1.
Definition OTP_DIRECTION_WIRE_C2S : Z := 1.
Definition OTP_DIRECTION_WIRE_S2C : Z := 2.
Definition HEADER_LEN : Z := 34.
Definition MAX_CIPHERTEXT_LEN : Z := 4064.
Definition MIN_CIPHERTEXT_LEN : Z := 1.
Definition MAX_FRAME_LEN : Z := HEADER_LEN + MAX_CIPHERTEXT_LEN + TAG_LEN.
Definition PAD_HALF_WIRE : Z := 4096.
Definition MAC_KEY_BOUND : Z := 32.

Definition otp_direction_wire (d : Direction) : Z :=
  match d with
  | ClientToServer => OTP_DIRECTION_WIRE_C2S
  | ServerToClient => OTP_DIRECTION_WIRE_S2C
  end.

Definition otp_direction_from_wire (v : Z) : option Direction :=
  if v =? OTP_DIRECTION_WIRE_C2S then Some ClientToServer
  else if v =? OTP_DIRECTION_WIRE_S2C then Some ServerToClient
  else None.

Record OtpDataRecord := MkOtpRecord {
  od_direction : Direction;
  od_bundle_id : Z;
  od_base_segment : Z;
  od_record_seq : Z;
  od_pad_offset : Z;
  od_ciphertext : list byte;
  od_tag : list byte;
}.

(** The header; [ciphertext_len as u16] keeps the low two bytes, as [u16_be]
    does. *)
Definition canonical_header (direction : Direction)
  (bundle_id base_segment record_seq pad_offset : Z) (ciphertext_len : nat) :
  list byte :=
  u16_be OTP_VERSION ++ u16_be MSG_TYPE_OTP_DATA ++
  [z2b MODE_FULL_OTP_POLY1305] ++ [z2b (otp_direction_wire direction)] ++
  u64_be bundle_id ++ u64_be base_segment ++ u64_be record_seq ++
  u16_be pad_offset ++ u16_be (Z.of_nat ciphertext_len).

Definition encode_frame (r : OtpDataRecord) : list byte :=
  canonical_header (od_direction r) (od_bundle_id r) (od_base_segment r)
    (od_record_seq r) (od_pad_offset r) (length (od_ciphertext r)) ++
  od_ciphertext r ++ od_tag r.

Definition decode_frame (bytes : list byte) : result OtpDataRecord WireError :=
  let n := Z.of_nat (length bytes) in
  if n <? HEADER_LEN + MIN_CIPHERTEXT_LEN + TAG_LEN then Err WeTooShort else
  if MAX_FRAME_LEN <? n then Err WeTooLong else
  if negb (be_val (slice 0 2 bytes) =? OTP_VERSION) then Err WeVersion else
  if negb (be_val (slice 2 4 bytes) =? MSG_TYPE_OTP_DATA)
  then Err WeMsgType else
  if negb (be_val (slice 4 5 bytes) =? MODE_FULL_OTP_POLY1305)
  then Err WeMode else
  let? direction :=
    ok_or (otp_direction_from_wire (be_val (slice 5 6 bytes))) WeDirection in
  let bundle_id := be_val (slice 6 14 bytes) in
  let base_segment := be_val (slice 14 22 bytes) in
  let record_seq := be_val (slice 22 30 bytes) in
  let pad_offset := be_val (slice 30 32 bytes) in
  let ciphertext_len := be_val (slice 32 34 bytes) in
  if negb ((MIN_CIPHERTEXT_LEN <=? ciphertext_len) &&
           (ciphertext_len <=? MAX_CIPHERTEXT_LEN))
  then Err WeCiphertextLen else
  if negb (n =? HEADER_LEN + ciphertext_len + TAG_LEN)
  then Err WeLengthMismatch else
  if PAD_HALF_WIRE <? pad_offset + MAC_KEY_BOUND + ciphertext_len
  then Err WeOffsetBounds else
  let l := Z.to_nat ciphertext_len in
  Ok (MkOtpRecord direction bundle_id base_segment record_seq pad_offset
        (slice 34 (34 + l) bytes)
        (slice (length bytes - 16) (length bytes) bytes)).

(** ** The PAD control payloads (control.rs) *)

Definition CONTROL_PAD_OFFER : Z := 1.
Definition CONTROL_PAD_ACK : Z := 2.
Definition CONTROL_PAD_NEED : Z := 3.
Definition CONTROL_CLOSE : Z := 4.
Definition PAD_OFFER_LEN : nat := 17.
Definition PAD_ACK_LEN : nat := 9.

Inductive PadControl :=
  | PadOffer (bundle_id base_segment : Z)
  | PadAck (bundle_id : Z)
  | PadNeed
  | PadClose.

Definition encode_control (m : PadControl) : list byte :=
  match m with
  | PadOffer bundle_id base_segment =>
      [z2b CONTROL_PAD_OFFER] ++ u64_be bundle_id ++ u64_be base_segment
  | PadAck bundle_id => [z2b CONTROL_PAD_ACK] ++ u64_be bundle_id
  | PadNeed => [z2b CONTROL_PAD_NEED]
  | PadClose => [z2b CONTROL_CLOSE]
  end.

Definition decode_control (bytes : list byte) :
  result PadControl ControlError :=
  match bytes with
  | [] => Err CeTooShort
  | code :: rest =>
      let code := b2z code in
      if code =? CONTROL_PAD_OFFER then
        if negb (length rest =? PAD_OFFER_LEN - 1)%nat
        then Err CeLengthMismatch
        else Ok (PadOffer (be_val (take 8 rest)) (be_val (drop 8 rest)))
      else if code =? CONTROL_PAD_ACK then
        if negb (length rest =? PAD_ACK_LEN - 1)%nat
        then Err CeLengthMismatch
        else Ok (PadAck (be_val rest))
      else if (code =? CONTROL_PAD_NEED) && (length rest =? 0)%nat
      then Ok PadNeed
      else if (code =? CONTROL_CLOSE) && (length rest =? 0)%nat
      then Ok PadClose
      else if (code =? 3) || (code =? 4) then Err CeLengthMismatch
      else Err CeUnknownCode
  end.

(** ** Lemmas *)

Lemma otp_direction_wire_u8 d : is_u8 (otp_direction_wire d).
Proof. destruct d; vm_compute; split; congruence. Qed.

Lemma otp_direction_from_iff v d :
  otp_direction_from_wire v = Some d <-> v = otp_direction_wire d.
Proof.
  split; [|intros ->; destruct d; reflexivity].
  unfold otp_direction_from_wire.
  destruct (Z.eqb_spec v OTP_DIRECTION_WIRE_C2S);
    [intros [= <-]; auto|].
  destruct (Z.eqb_spec v OTP_DIRECTION_WIRE_S2C);
    [intros [= <-]; auto | discriminate].
Qed.

Lemma length_header d b s q o l : length (canonical_header d b s q o l) = 34%nat.
Proof. reflexivity. Qed.

Definition wf_frame (r : OtpDataRecord) : Prop :=
  is_u64 (od_bundle_id r) /\ is_u64 (od_base_segment r) /\
  is_u64 (od_record_seq r) /\ 0 <= od_pad_offset r /\
  1 <= Z.of_nat (length (od_ciphertext r)) /\
  od_pad_offset r + MAC_KEY_BOUND + Z.of_nat (length (od_ciphertext r))
    <= PAD_HALF_WIRE /\
  fixed 16 (od_tag r).

Lemma length_encode_frame r :
  wf_frame r ->
  length (encode_frame r) = (34 + length (od_ciphertext r) + 16)%nat.
Proof.
  intros (_ & _ & _ & _ & _ & _ & Ht). unfold encode_frame.
  rewrite !length_app, length_header, Ht. lia.
Qed.

(** Reading back a field written big-endian at its place. *)
Lemma field_back (bytes : list byte) i j n v :
  (i + n = j)%nat -> (j <= length bytes)%nat ->
  be_val (slice i j bytes) = v -> be_bytes n v = slice i j bytes.
Proof.
  intros Hj Hl <-. apply be_bytes_be_val. rewrite length_slice; lia.
Qed.

Lemma byte_back (bytes : list byte) i j v :
  (i + 1 = j)%nat -> (j <= length bytes)%nat ->
  be_val (slice i j bytes) = v -> [z2b v] = slice i j bytes.
Proof.
  intros Hj Hl E. rewrite <- (field_back bytes i j 1 v); auto.
  simpl. rewrite Z.div_1_r. reflexivity.
Qed.

Lemma decode_frame_sound bytes r :
  decode_frame bytes = Ok r -> wf_frame r /\ encode_frame r = bytes.
Proof.
  unfold decode_frame, HEADER_LEN, MIN_CIPHERTEXT_LEN, MAX_CIPHERTEXT_LEN,
    TAG_LEN, MAC_KEY_BOUND. intros E.
  destruct (Z.ltb_spec (Z.of_nat (length bytes)) (34 + 1 + 16)) as [|Hlen];
    [discriminate|].
  case_match_in E; [discriminate|].
  do 3 (case_match_in E; [discriminate|]).
  apply result_bind_ok in E as (d & Hd & E).
  case_match_in E; [discriminate|]. case_match_in E; [discriminate|].
  case_match_in E; [discriminate|]. apply ok_inj in E as <-.
  rewrite negb_false_iff, ?Z.eqb_eq, ?Z.ltb_ge in *.
  destruct (otp_direction_from_wire _) as [d'|] eqn:Ed; [|discriminate].
  injection Hd as ->. apply otp_direction_from_iff in Ed.
  match goal with H : _ && _ = true |- _ =>
    apply andb_true_iff in H as [Hl1 Hl2] end.
  rewrite Z.leb_le in Hl1, Hl2.
  set (L := be_val (slice 32 34 bytes)) in *.
  assert (HL : length bytes = (34 + Z.to_nat L + 16)%nat) by lia.
  assert (Hc : length (slice 34 (34 + Z.to_nat L) bytes) = Z.to_nat L)
    by (rewrite length_slice; lia).
  split.
  - unfold wf_frame, MAC_KEY_BOUND, PAD_HALF_WIRE in *. cbn [od_direction od_bundle_id
      od_base_segment od_record_seq od_pad_offset od_ciphertext od_tag].
    rewrite Hc. split_and!; try lia; try (apply be_val_u64, length_slice; lia).
    + apply be_val_bound.
    + unfold fixed. rewrite length_slice; lia.
  - unfold encode_frame, canonical_header. cbn [od_direction od_bundle_id
      od_base_segment od_record_seq od_pad_offset od_ciphertext od_tag].
    rewrite Hc, Z2Nat.id by lia.
    rewrite (field_back bytes 0 2), (field_back bytes 2 4),
      (byte_back bytes 4 5), (byte_back bytes 5 6), (field_back bytes 6 14),
      (field_back bytes 14 22), (field_back bytes 22 30),
      (field_back bytes 30 32), (field_back bytes 32 34) by (auto; lia).
    rewrite <- !app_assoc.
    replace (length bytes - 16)%nat with (34 + Z.to_nat L)%nat by lia.
    rewrite <- !slice_split by lia. apply slice_all.
Qed.

(** The header's fields, read back from a frame. *)
Lemma header_fields d b s q o l rest :
  let h := canonical_header d b s q o l in
  let f := h ++ rest in
  slice 0 2 f = u16_be OTP_VERSION /\ slice 2 4 f = u16_be MSG_TYPE_OTP_DATA /\
  slice 4 5 f = [z2b MODE_FULL_OTP_POLY1305] /\
  slice 5 6 f = [z2b (otp_direction_wire d)] /\
  slice 6 14 f = u64_be b /\ slice 14 22 f = u64_be s /\
  slice 22 30 f = u64_be q /\ slice 30 32 f = u16_be o /\
  slice 32 34 f = u16_be (Z.of_nat l).
Proof.
  cbv zeta. unfold canonical_header. rewrite <- !app_assoc.
  split_and!; slices; reflexivity.
Qed.

Lemma be_val_byte z : is_u8 z -> be_val [z2b z] = z.
Proof. intros H. simpl. rewrite b2z_z2b_small by exact H. lia. Qed.

Lemma decode_frame_complete r :
  wf_frame r -> decode_frame (encode_frame r) = Ok r.
Proof.
  intros Hwf. pose proof (length_encode_frame r Hwf) as Hlen.
  destruct Hwf as (Hb & Hs & Hq & Ho & Hc1 & Hc2 & Ht).
  unfold MAC_KEY_BOUND, PAD_HALF_WIRE in Hc2.
  unfold decode_frame. rewrite Hlen. unfold HEADER_LEN, MIN_CIPHERTEXT_LEN,
    MAX_CIPHERTEXT_LEN, MAX_FRAME_LEN, TAG_LEN, MAC_KEY_BOUND, PAD_HALF_WIRE.
  unfold encode_frame.
  destruct (header_fields (od_direction r) (od_bundle_id r) (od_base_segment r)
    (od_record_seq r) (od_pad_offset r) (length (od_ciphertext r))
    (od_ciphertext r ++ od_tag r))
    as (-> & -> & -> & -> & -> & -> & -> & -> & ->).
  change (be_val (u16_be OTP_VERSION) =? OTP_VERSION) with true.
  change (be_val (u16_be MSG_TYPE_OTP_DATA) =? MSG_TYPE_OTP_DATA) with true.
  change (be_val [z2b MODE_FULL_OTP_POLY1305] =? MODE_FULL_OTP_POLY1305)
    with true.
  rewrite (be_val_byte _ (otp_direction_wire_u8 _)), !u64_be_val,
    (u16_be_val (od_pad_offset r)), (u16_be_val (Z.of_nat _)) by (auto; ulia).
  rewrite (proj2 (otp_direction_from_iff _ (od_direction r)) eq_refl).
  cbv zeta. cbn [ok_or result_bind negb].
  rewrite (proj2 (Z.ltb_ge _ _)) by lia.
  rewrite (proj2 (Z.ltb_ge _ _)) by (unfold HEADER_LEN, MAX_CIPHERTEXT_LEN; lia).
  rewrite !(proj2 (Z.leb_le _ _)) by lia.
  rewrite (proj2 (Z.eqb_eq (Z.of_nat _) _)) by lia.
  rewrite (proj2 (Z.ltb_ge _ _)) by lia.
  cbn [negb andb]. rewrite Nat2Z.id.
  rewrite (slice_skip _ _ 34) by (rewrite length_header; lia).
  rewrite (slice_skip (canonical_header _ _ _ _ _ _))
    by (rewrite length_header; lia).
  rewrite !length_header, Nat.sub_diag.
  rewrite (slice_here (od_ciphertext r)) by lia.
  rewrite slice_skip by lia.
  replace (34 + length (od_ciphertext r) + 16 - 16 - 34
           - length (od_ciphertext r))%nat with 0%nat by lia.
  rewrite slice_full by (unfold fixed in Ht; lia).
  destruct r. reflexivity.
Qed.

(** ** Control payloads *)

Definition wf_control (m : PadControl) : Prop :=
  match m with
  | PadOffer b s => is_u64 b /\ is_u64 s
  | PadAck b => is_u64 b
  | PadNeed | PadClose => True
  end.

Lemma decode_control_complete m :
  wf_control m -> decode_control (encode_control m) = Ok m.
Proof.
  destruct m as [b s|b| |]; intros Hwf; try reflexivity.
  - destruct Hwf as [Hb Hs]. cbn [encode_control app].
    unfold decode_control. rewrite b2z_z2b_small by (vm_compute; split; congruence).
    cbn -[be_bytes take drop]. rewrite length_app, !length_be_bytes.
    cbn -[be_bytes take drop].
    rewrite (take_app_length' _ _ 8), (drop_app_length' _ _ 8)
      by (rewrite length_be_bytes; reflexivity).
    rewrite !u64_be_val by auto. reflexivity.
  - cbn [encode_control app].
    unfold decode_control. rewrite b2z_z2b_small by (vm_compute; split; congruence).
    cbn -[be_bytes be_val]. rewrite length_be_bytes. cbn -[be_bytes be_val].
    rewrite u64_be_val by exact Hwf. reflexivity.
Qed.

Lemma code_back code v : b2z code = v -> z2b v = code.
Proof. intros <-. apply z2b_b2z. Qed.

Lemma decode_control_sound bytes m :
  decode_control bytes = Ok m -> wf_control m /\ encode_control m = bytes.
Proof.
  destruct bytes as [|code rest]; [discriminate|]. unfold decode_control. intros E.
  repeat (case_match_in E; try discriminate); apply ok_inj in E as <-;
    repeat match goal with
    | H : (_ =? _) = true |- _ => apply Z.eqb_eq, code_back in H
    | H : _ && _ = true |- _ => apply andb_true_iff in H as [? ?]
    | H : negb _ = false |- _ => apply negb_false_iff in H
    | H : (_ =? _)%nat = true |- _ => apply Nat.eqb_eq in H
    end; cbn [encode_control wf_control app]; subst code.
  - unfold PAD_OFFER_LEN in *.
    assert (length (take 8 rest) = 8%nat) by (rewrite length_take; lia).
    assert (length (drop 8 rest) = 8%nat) by (rewrite length_drop; lia).
    split; [split; apply be_val_u64; auto|].
    rewrite !be_bytes_be_val, take_drop by auto. reflexivity.
  - unfold PAD_ACK_LEN in *. split; [apply be_val_u64; auto|].
    rewrite be_bytes_be_val by auto. reflexivity.
  - destruct rest; [auto | discriminate].
  - destruct rest; [auto | discriminate].
Qed.

(** The full-OTP wire formats.  An OTP_DATA frame is accepted exactly when
    it is the encoding of a record whose fields fit their widths, whose
    ciphertext is not empty and whose key and pad lie inside one pad half; a
    control payload exactly when it is the encoding of a control message.  So
    every value survives the wire and none has two encodings. *)
Theorem otp_wire_iff bytes :
  (forall r, decode_frame bytes = Ok r <-> wf_frame r /\ encode_frame r = bytes) /\
  (forall m, decode_control bytes = Ok m <->
     wf_control m /\ encode_control m = bytes).
Proof.
  split; intros x; split; intros Hx.
  - apply decode_frame_sound, Hx.
  - destruct Hx as [Hw <-]. apply decode_frame_complete, Hw.
  - apply decode_control_sound, Hx.
  - destruct Hx as [Hw <-]. apply decode_control_complete, Hw.
Qed.
