(* ===== verification/OtpRecord.v ===== *)
(** * OtpRecord: one-time pads and records ([otp-fullotp]: pad.rs, record.rs)

    The pad stream of one direction with its cursor and its in-place burning,
    and the sealing and opening of single records.  Poly1305 is a third-party
    crate: the class [Poly1305] has its one operation and its tag length.
    [usize] values are [Z]; an index out of range is the outcome [None], a
    panic. *)

From stdpp Require Import strings.
From S2P Require Export OtpWire.

#[local] Open Scope list_scope.
#[local] Open Scope Z_scope.

(** [Poly1305::new(key).compute_unpadded(data)]. *)
Class Poly1305 := {
  poly1305 : list byte -> list byte -> list byte;
  poly1305_length : forall k m, length (poly1305 k m) = 16%nat;
}.

(** ** pad.rs *)

Definition PAD_HALF : Z := 4096.
Definition MAC_KEY_LEN : Z := 32.
Definition BUNDLE_BYTES : Z := 2 * PAD_HALF.
Definition LOW_WATER : Z := 1024.
Definition BUNDLE_SEGMENTS : Z := 128.

Record PadStream := MkPad {
  ps_bundle_id : Z;
  ps_base_segment : Z;
  ps_buf : list byte;
  ps_cursor : Z;
}.

Definition from_half (bundle_id base_segment : Z) (half : list byte) :
  PadStream := MkPad bundle_id base_segment half 0.

Definition remaining (s : PadStream) : Z := PAD_HALF - ps_cursor s.

Definition max_record_len (s : PadStream) : Z :=
  Z.min (saturating_sub (remaining s) MAC_KEY_LEN) MAX_CIPHERTEXT_LEN.

Definition fits (s : PadStream) (l : Z) : bool :=
  MAC_KEY_LEN + l <=? remaining s.

Definition below_low_water (s : PadStream) : bool := remaining s <? LOW_WATER.

(** [buf[i..i+n]] zeroed in place. *)
Definition burn_range (i n : nat) (buf : list byte) : list byte :=
  take i buf ++ zeros n ++ drop (i + n) buf.

Definition set_buf (s : PadStream) (buf : list byte) : PadStream :=
  MkPad (ps_bundle_id s) (ps_base_segment s) buf (ps_cursor s).

(** The bytes [buf[i..i+n]] taken out, and the stream with them zeroed. *)
Definition take_burn (s : PadStream) (i n : nat) :
  option (list byte * PadStream) :=
  if (i + n <=? length (ps_buf s))%nat
  then Some (slice i (i + n) (ps_buf s), set_buf s (burn_range i n (ps_buf s)))
  else None.

Definition take_mac_key (s : PadStream) : option (list byte * PadStream) :=
  take_burn s (Z.to_nat (ps_cursor s)) (Z.to_nat MAC_KEY_LEN).

(** [xor_burn_pad]: [dst] xored with the pad after the key. *)
Definition xor_burn_pad (s : PadStream) (dst : list byte) :
  option (list byte * PadStream) :=
  let start := ps_cursor s + MAC_KEY_LEN in
  match take_burn s (Z.to_nat start) (length dst) with
  | None => None
  | Some (pad, s) => Some (zip_with xor_byte dst pad, s)
  end.

Definition advance (s : PadStream) (l : Z) : PadStream :=
  MkPad (ps_bundle_id s) (ps_base_segment s) (ps_buf s)
    (ps_cursor s + (MAC_KEY_LEN + l)).

Definition waste (s : PadStream) : PadStream :=
  MkPad (ps_bundle_id s) (ps_base_segment s) (zeros (length (ps_buf s)))
    PAD_HALF.

(** [retire_into]: the old buffer is zeroed and dropped, the next stream takes
    its place; the old cursor is returned. *)
Definition retire_into (s next : PadStream) : PadStream * Z :=
  (next, ps_cursor s).

(** [base_segment + 64] wraps at 64 bits (in a debug build it would panic). *)
Definition split_bundle (bundle_id base_segment : Z) (flat : list byte) :
  PadStream * PadStream :=
  let half := Z.to_nat PAD_HALF in
  (from_half bundle_id base_segment (take half flat),
   from_half bundle_id ((base_segment + 64) mod 2 ^ 64) (drop half flat)).

(** ** record.rs *)

Definition DOMAIN_SEPARATOR : list byte :=
  Eval cbv in ascii_bytes "otp-term/full-otp/data/v1"%string.

Definition mac_input (header ciphertext : list byte) : list byte :=
  DOMAIN_SEPARATOR ++ u16_be (Z.of_nat (length DOMAIN_SEPARATOR)) ++
  header ++ ciphertext.

(** The loop [diff |= a[i] ^ b[i]]. *)
Definition ct_eq_16 (a b : list byte) : bool :=
  fold_left (fun diff ab => Z.lor diff (Z.lxor (b2z (fst ab)) (b2z (snd ab))))
    (zip a b) 0 =? 0.

Record OpenExpectation := MkOpenExpect {
  oe_direction : Direction;
  oe_bundle_id : Z;
  oe_base_segment : Z;
  oe_record_seq : Z;
}.

Section Records.
Context `{Poly1305}.

Definition seal_otp_record (stream : PadStream) (direction : Direction)
  (record_seq : Z) (plaintext : list byte) :
  PadStream * option (result OtpDataRecord OtpError) :=
  let l := Z.of_nat (length plaintext) in
  if l =? 0 then (stream, Some (Err OeDoesNotFit)) else
  if negb (fits stream l) then (stream, Some (Err OeDoesNotFit)) else
  let bundle_id := ps_bundle_id stream in
  let base_segment := ps_base_segment stream in
  let pad_offset := Z.min (ps_cursor stream) U16_MAX in
  match take_mac_key stream with
  | None => (stream, None)
  | Some (key, stream) =>
  match xor_burn_pad stream plaintext with
  | None => (stream, None)
  | Some (ciphertext, stream) =>
      let stream := advance stream l in
      let header := canonical_header direction bundle_id base_segment
                      record_seq pad_offset (length plaintext) in
      let tag := poly1305 key (mac_input header ciphertext) in
      (stream, Some (Ok (MkOtpRecord direction bundle_id base_segment
                           record_seq pad_offset ciphertext tag)))
  end end.

Definition open_otp_record (stream : PadStream) (expect : OpenExpectation)
  (frame : list byte) :
  PadStream * option (result (list byte) OtpError) :=
  match decode_frame frame with
  | Err e => (stream, Some (Err (OeWire e)))
  | Ok rec =>
  if negb (bool_decide (od_direction rec = oe_direction expect))
  then (stream, Some (Err OeDirection)) else
  if negb (od_bundle_id rec =? oe_bundle_id expect) ||
     negb (od_base_segment rec =? oe_base_segment expect)
  then (stream, Some (Err OeBundle)) else
  if od_record_seq rec <? oe_record_seq expect
  then (stream, Some (Err OeReplay)) else
  if oe_record_seq expect <? od_record_seq rec
  then (stream, Some (Err OeGap)) else
  if negb (od_pad_offset rec =? ps_cursor stream)
  then (stream, Some (Err OeOffset)) else
  let l := Z.of_nat (length (od_ciphertext rec)) in
  if negb (fits stream l) then (stream, Some (Err OeOffset)) else
  match take_mac_key stream with
  | None => (stream, None)
  | Some (key, stream) =>
  let header := canonical_header (od_direction rec) (od_bundle_id rec)
                  (od_base_segment rec) (od_record_seq rec)
                  (od_pad_offset rec) (length (od_ciphertext rec)) in
  let computed := poly1305 key (mac_input header (od_ciphertext rec)) in
  if negb (ct_eq_16 computed (od_tag rec)) then (stream, Some (Err OeTag)) else
  match xor_burn_pad stream (od_ciphertext rec) with
  | None => (stream, None)
  | Some (plaintext, stream) =>
      (advance stream l, Some (Ok plaintext))
  end end end.

End Records.

(** ** Lemmas *)

(** The invariant of a stream: a full half, the cursor inside it. *)
Definition wf_pad (s : PadStream) : Prop :=
  length (ps_buf s) = 4096%nat /\ 0 <= ps_cursor s <= PAD_HALF.

(** Everything before the cursor is zero: consumed bytes are gone. *)
Definition spent_zero (s : PadStream) : Prop :=
  take (Z.to_nat (ps_cursor s)) (ps_buf s) = zeros (Z.to_nat (ps_cursor s)).

(** The key and the pad a record of [l] bytes takes at the cursor. *)
Definition pad_key (s : PadStream) : list byte :=
  slice (Z.to_nat (ps_cursor s)) (Z.to_nat (ps_cursor s) + 32) (ps_buf s).
Definition pad_bytes (s : PadStream) (l : nat) : list byte :=
  slice (Z.to_nat (ps_cursor s) + 32) (Z.to_nat (ps_cursor s) + 32 + l)
    (ps_buf s).

(** The stream after a record of [l] bytes. *)
Definition spend (s : PadStream) (l : nat) : PadStream :=
  MkPad (ps_bundle_id s) (ps_base_segment s)
    (burn_range (Z.to_nat (ps_cursor s)) (32 + l) (ps_buf s))
    (ps_cursor s + (MAC_KEY_LEN + Z.of_nat l)).

Lemma length_burn_range i n (l : list byte) :
  (i + n <= length l)%nat -> length (burn_range i n l) = length l.
Proof.
  intros H. unfold burn_range, zeros.
  rewrite !length_app, length_take, repeat_length, length_drop. lia.
Qed.

Lemma burn_range_after i n m (l : list byte) :
  (i + n + m <= length l)%nat ->
  slice (i + n) (i + n + m) (burn_range i n l) = slice (i + n) (i + n + m) l.
Proof.
  intros H. unfold slice. f_equal. unfold burn_range, zeros.
  rewrite app_assoc, drop_app_length'; [reflexivity|].
  rewrite length_app, length_take, repeat_length. lia.
Qed.

Lemma burn_range_burn i n m (l : list byte) :
  (i + n + m <= length l)%nat ->
  burn_range (i + n) m (burn_range i n l) = burn_range i (n + m) l.
Proof.
  intros H. unfold burn_range.
  assert (Hz : length (take i l ++ zeros n) = (i + n)%nat)
    by (unfold zeros; rewrite length_app, length_take, repeat_length; lia).
  rewrite (app_assoc (take i l)), (take_app_length' _ _ _ (eq_sym Hz)).
  rewrite drop_app_ge by lia. rewrite Hz, drop_drop.
  unfold zeros. rewrite repeat_app, <- !app_assoc.
  do 4 f_equal. lia.
Qed.

Lemma wf_spend s l :
  wf_pad s -> fits s (Z.of_nat l) = true -> wf_pad (spend s l).
Proof.
  unfold wf_pad, fits, remaining, spend. intros [Hl Hc] Hf.
  rewrite Z.leb_le in Hf. cbn. unfold PAD_HALF, MAC_KEY_LEN in *.
  rewrite length_burn_range by lia. split; [exact Hl | lia].
Qed.

Lemma spent_spend s l :
  wf_pad s -> fits s (Z.of_nat l) = true -> spent_zero s ->
  spent_zero (spend s l).
Proof.
  unfold wf_pad, fits, remaining, spent_zero. intros [Hl Hc] Hf Hs.
  rewrite Z.leb_le in Hf. cbn [spend ps_cursor ps_buf].
  unfold PAD_HALF, MAC_KEY_LEN, burn_range in *. rewrite Hs.
  replace (Z.to_nat (ps_cursor s + (32 + Z.of_nat l)))
    with (Z.to_nat (ps_cursor s) + (32 + l))%nat by lia.
  unfold zeros. rewrite app_assoc, <- repeat_app.
  apply take_app_length'. rewrite repeat_length. reflexivity.
Qed.

Lemma wf_from_half b s half :
  length half = 4096%nat -> wf_pad (from_half b s half) /\
  spent_zero (from_half b s half).
Proof. intros H. split; [split; [exact H | unfold PAD_HALF; simpl; lia] | reflexivity]. Qed.

(** The two takes of a record that fits. *)
Lemma takes_fit s data :
  wf_pad s -> fits s (Z.of_nat (length data)) = true ->
  exists s1, take_mac_key s = Some (pad_key s, s1) /\
    ps_bundle_id s1 = ps_bundle_id s /\
    ps_base_segment s1 = ps_base_segment s /\ ps_cursor s1 = ps_cursor s /\
    exists s2,
    xor_burn_pad s1 data =
      Some (zip_with xor_byte data (pad_bytes s (length data)), s2) /\
    advance s2 (Z.of_nat (length data)) = spend s (length data).
Proof.
  unfold wf_pad, fits, remaining. intros [Hl Hc] Hf. rewrite Z.leb_le in Hf.
  unfold PAD_HALF, MAC_KEY_LEN in *. unfold take_mac_key, xor_burn_pad, take_burn.
  change (Z.to_nat MAC_KEY_LEN) with 32%nat.
  rewrite (proj2 (Nat.leb_le _ _)) by lia.
  eexists. split; [reflexivity|]. cbn [ps_cursor set_buf ps_buf ps_bundle_id
    ps_base_segment]. split_and!; auto.
  replace (Z.to_nat (ps_cursor s + MAC_KEY_LEN))
    with (Z.to_nat (ps_cursor s) + 32)%nat by (unfold MAC_KEY_LEN; lia).
  rewrite length_burn_range, (proj2 (Nat.leb_le _ _)) by lia.
  rewrite burn_range_after, burn_range_burn by lia.
  eexists. split; reflexivity.
Qed.

(** The constant-time comparison is equality. *)
Lemma lxor_zero_iff a b : Z.lxor a b = 0 <-> a = b.
Proof. split; [apply Z.lxor_eq | intros ->; apply Z.lxor_nilpotent]. Qed.

Lemma fold_diff_zero (l : list (byte * byte)) diff :
  fold_left (fun diff ab => Z.lor diff (Z.lxor (b2z (fst ab)) (b2z (snd ab))))
    l diff = 0 <->
  diff = 0 /\ Forall (fun ab => fst ab = snd ab) l.
Proof.
  revert diff. induction l as [|[a b] l IH]; intros diff; simpl.
  - split; [auto using Forall_nil | tauto].
  - rewrite IH, Z.lor_eq_0_iff, lxor_zero_iff, Forall_cons_iff. simpl.
    split; [intros [[? E] ?]; apply b2z_inj in E | intros [? [-> ?]]]; auto.
Qed.

Lemma ct_eq_spec a b :
  length a = length b -> ct_eq_16 a b = true <-> a = b.
Proof.
  intros Hl. unfold ct_eq_16. rewrite Z.eqb_eq, fold_diff_zero.
  split; [intros [_ HF] | intros ->; split; [reflexivity|]].
  - revert b Hl HF. induction a as [|x a IH]; intros [|y b]; try discriminate;
      [auto|]. cbn. rewrite Forall_cons_iff. cbn. intros [= Hl] [-> HF].
    f_equal. apply IH; auto.
  - clear. induction b; simpl; constructor; auto.
Qed.

Section RecordFacts.
Context `{Poly1305}.

(** The record a stream seals: all its fields. *)
Definition sealed_record (s : PadStream) (d : Direction) (q : Z)
  (pt : list byte) : OtpDataRecord :=
  let ct := zip_with xor_byte pt (pad_bytes s (length pt)) in
  MkOtpRecord d (ps_bundle_id s) (ps_base_segment s) q (ps_cursor s) ct
    (poly1305 (pad_key s)
       (mac_input (canonical_header d (ps_bundle_id s) (ps_base_segment s) q
                     (ps_cursor s) (length pt)) ct)).

Definition sealable (s : PadStream) (pt : list byte) : bool :=
  negb (Z.of_nat (length pt) =? 0) && fits s (Z.of_nat (length pt)).

Lemma seal_otp_eq s d q pt :
  wf_pad s ->
  seal_otp_record s d q pt =
  if sealable s pt then (spend s (length pt), Some (Ok (sealed_record s d q pt)))
  else (s, Some (Err OeDoesNotFit)).
Proof.
  intros Hw. unfold seal_otp_record, sealable.
  destruct (Z.of_nat (length pt) =? 0); [reflexivity|].
  destruct (fits s (Z.of_nat (length pt))) eqn:Ef; [|reflexivity].
  cbn [negb andb].
  destruct (takes_fit s pt Hw Ef) as (s1 & -> & H1 & H2 & H3 & s2 & -> & ->).
  destruct Hw as [_ Hc]. unfold PAD_HALF, U16_MAX in *.
  rewrite Z.min_l by lia. reflexivity.
Qed.

(** The record a stream accepts. *)
Definition acceptable (s : PadStream) (e : OpenExpectation)
  (r : OtpDataRecord) : Prop :=
  od_direction r = oe_direction e /\ od_bundle_id r = oe_bundle_id e /\
  od_base_segment r = oe_base_segment e /\
  od_record_seq r = oe_record_seq e /\ od_pad_offset r = ps_cursor s /\
  fits s (Z.of_nat (length (od_ciphertext r))) = true /\
  od_tag r = poly1305 (pad_key s)
    (mac_input (canonical_header (od_direction r) (od_bundle_id r)
       (od_base_segment r) (od_record_seq r) (od_pad_offset r)
       (length (od_ciphertext r))) (od_ciphertext r)).

Lemma open_otp_ok s e frame s' p :
  wf_pad s ->
  open_otp_record s e frame = (s', Some (Ok p)) <->
  exists r, decode_frame frame = Ok r /\ acceptable s e r /\
    p = zip_with xor_byte (od_ciphertext r)
          (pad_bytes s (length (od_ciphertext r))) /\
    s' = spend s (length (od_ciphertext r)).
Proof.
  intros Hw. unfold open_otp_record, acceptable.
  destruct (decode_frame frame) as [r|] eqn:Ed;
    [|split; [discriminate | intros (r & [=] & _)]].
  pose proof (decode_frame_sound _ _ Ed) as [(_ & _ & _ & _ & _ & _ & Ht) _].
  assert (Hf : fits s (Z.of_nat (length (od_ciphertext r))) = true ->
    exists s1, take_mac_key s = Some (pad_key s, s1) /\
    exists s2, xor_burn_pad s1 (od_ciphertext r) =
      Some (zip_with xor_byte (od_ciphertext r)
              (pad_bytes s (length (od_ciphertext r))), s2) /\
      advance s2 (Z.of_nat (length (od_ciphertext r))) =
        spend s (length (od_ciphertext r))).
  { intros Hf. destruct (takes_fit s _ Hw Hf) as (s1 & ? & _ & _ & _ & ?).
    eauto. }
  split.
  - intros E. repeat (case_match_in E; [discriminate|]).
    rewrite ?negb_false_iff, ?Z.ltb_ge, ?Z.eqb_eq in *.
    match goal with H : _ || _ = false |- _ =>
      apply orb_false_iff in H as [HA HB] end.
    rewrite negb_false_iff, Z.eqb_eq in HA, HB.
    match goal with H : bool_decide _ = true |- _ =>
      apply bool_decide_eq_true in H end.
    match goal with H : fits _ _ = true |- _ =>
      destruct (Hf H) as (s1 & T1 & s2 & T2 & T3) end.
    rewrite T1 in E. case_match_in E; [discriminate|].
    rewrite T2, T3 in E. injection E as <- <-.
    match goal with H : negb (ct_eq_16 _ _) = false |- _ =>
      apply negb_false_iff, ct_eq_spec in H;
        [|rewrite poly1305_length; symmetry; exact Ht] end.
    exists r. split_and!; auto. lia.
  - intros (r' & [= <-] & (H1 & H2 & H3 & H4 & H5 & H6 & H7) & -> & ->).
    destruct (Hf H6) as (s1 & T1 & s2 & T2 & T3).
    rewrite bool_decide_eq_true_2, H2, H3, H4, H5, H6, !Z.eqb_refl, Z.ltb_irrefl
      by auto. cbn [negb orb]. rewrite T1.
    assert (Hl : forall k m, length (poly1305 k m) = length (od_tag r))
      by (intros; rewrite poly1305_length; symmetry; exact Ht).
    rewrite (proj2 (ct_eq_spec _ _ (Hl _ _))) by congruence.
    cbn [negb]. rewrite T2, T3. reflexivity.
Qed.

(** An open never panics, and a failing one leaves the names of the stream. *)
Lemma open_otp_shape s e frame s' r :
  wf_pad s -> open_otp_record s e frame = (s', r) ->
  r <> None /\ ps_bundle_id s' = ps_bundle_id s /\
  ps_base_segment s' = ps_base_segment s /\ length (ps_buf s') = 4096%nat.
Proof.
  intros Hw E. pose proof Hw as [Hlen Hcur]. unfold open_otp_record in E.
  destruct (decode_frame frame) as [d|];
    [|injection E as <- <-; split_and!; auto; discriminate].
  do 5 (case_match_in E; [injection E as <- <-; split_and!; auto; discriminate|]).
  destruct (fits s (Z.of_nat (length (od_ciphertext d)))) eqn:Ef;
    [|injection E as <- <-; split_and!; auto; discriminate].
  cbn [negb] in E.
  destruct (takes_fit s _ Hw Ef) as (s1 & T1 & B1 & B2 & B3 & s2 & T2 & T3).
  assert (L1 : length (ps_buf s1) = 4096%nat).
  { unfold take_mac_key, take_burn in T1. case_match_in T1; [|discriminate].
    apply (f_equal (option_map snd)) in T1. injection T1 as <-.
    cbn [set_buf ps_buf]. rewrite length_burn_range; [exact Hlen|].
    match goal with H : (_ <=? _)%nat = true |- _ => apply Nat.leb_le in H end.
    assumption. }
  rewrite T1, T2, T3 in E. case_match_in E; injection E as <- <-.
  - split_and!; auto; discriminate.
  - split_and!; try reflexivity; [discriminate|].
    apply (proj1 (wf_spend s _ Hw Ef)).
Qed.

(** A stream opens what an equal stream sealed, and both move alike. *)
Lemma open_sealed s e d q pt :
  wf_pad s -> is_u64 (ps_bundle_id s) -> is_u64 (ps_base_segment s) ->
  is_u64 q -> sealable s pt = true ->
  e = MkOpenExpect d (ps_bundle_id s) (ps_base_segment s) q ->
  wf_frame (sealed_record s d q pt) /\
  open_otp_record s e (encode_frame (sealed_record s d q pt)) =
    (spend s (length pt), Some (Ok pt)).
Proof.
  intros Hw Hb Hs Hq Hsl ->. unfold sealable in Hsl.
  apply andb_true_iff in Hsl as [Hn Hf].
  apply negb_true_iff, Z.eqb_neq in Hn.
  pose proof Hw as [Hl Hc]. pose proof Hf as Hf'.
  unfold fits, remaining, PAD_HALF, MAC_KEY_LEN in Hf', Hc.
  rewrite Z.leb_le in Hf'.
  assert (Hpb : length (pad_bytes s (length pt)) = length pt)
    by (unfold pad_bytes; rewrite length_slice; lia).
  assert (Hct : length (od_ciphertext (sealed_record s d q pt)) = length pt)
    by (cbn; rewrite length_zip_with; lia).
  assert (Hwf : wf_frame (sealed_record s d q pt)).
  { unfold wf_frame, MAC_KEY_BOUND, PAD_HALF_WIRE. rewrite Hct.
    cbn [sealed_record od_bundle_id od_base_segment od_record_seq od_pad_offset
      od_tag]. split_and!; auto; try lia. apply poly1305_length. }
  split; [exact Hwf|]. apply open_otp_ok; [exact Hw|].
  eexists. split; [apply decode_frame_complete, Hwf|]. unfold acceptable.
  rewrite Hct. split_and!; try reflexivity; auto.
  cbn [od_ciphertext sealed_record]. rewrite xor_bytes_cancel; auto.
Qed.

End RecordFacts.
