(* ===== verification/OtpPump.v ===== *)
(** * OtpPump: the full-OTP data pump ([otp-fullotp]: pump.rs, error.rs)

    Both directions of one end, the bundle coordination and every failure
    path.  The material comes from the trait [PadSource] (a class).  Counters
    of 64 bits wrap, as in a release build.  A call returns the pump it leaves;
    the outcome [None] of [send] and [receive] is a panic. *)

From stdpp Require Import strings.
From S2P Require Export OtpRecord.

#[local] Open Scope list_scope.
#[local] Open Scope Z_scope.

(** ** error.rs *)

Inductive SendError :=
  | SdClosed | SdEmptyPlaintext | SdSequenceExhausted | SdInternal.

Inductive PadSourceError :=
  | PsPointerMismatch (local announced : Z)
  | PsReserve (why : String.string).

Inductive PumpError :=
  | PuData (e : OtpError)
  | PuSource (e : PadSourceError).

(** [OtpError::audit_category]. *)
Definition audit_category (e : OtpError) : String.string :=
  match e with
  | OeWire _ => "OTP_FORMAT"
  | OeDirection => "OTP_DIRECTION"
  | OeBundle => "OTP_BUNDLE"
  | OeReplay => "OTP_REPLAY"
  | OeGap => "OTP_GAP"
  | OeOffset => "OTP_OFFSET"
  | OeTag => "OTP_TAG_INVALID"
  | OeClosed => "OTP_CLOSED"
  | OeDoesNotFit => "OTP_INTERNAL"
  end%string.

(** ** The trait [PadSource] (pad.rs): a bundle and its base, or the bundle at
    an announced base.  The laws are its types: a base is a [u64], a bundle a
    [[u8; 8192]]. *)
Class PadSource (S : Type) := {
  reserve_next_bundle : S -> S * result (Z * list byte) PadSourceError;
  reserve_bundle_at : S -> Z -> S * result (list byte) PadSourceError;
  reserve_next_typed : forall s s' base flat,
    reserve_next_bundle s = (s', Ok (base, flat)) ->
    is_u64 base /\ length flat = Z.to_nat BUNDLE_BYTES;
  reserve_at_typed : forall s s' base flat,
    reserve_bundle_at s base = (s', Ok flat) ->
    length flat = Z.to_nat BUNDLE_BYTES;
}.

(** ** pump.rs *)

Inductive PumpAction :=
  | SendPadNeed
  | SendPadOffer (bundle_id base_segment : Z)
  | SendPadAck (bundle_id : Z).

Inductive SendOutcome :=
  | SoRecord (record : OtpDataRecord) (consumed_plaintext : Z) (need_pad : bool)
  | SoBackpressure.

Record Received := MkReceived {
  rv_plaintext : list byte;
  rv_need_pad : bool;
}.

Record DirPlane := MkPlane {
  dp_current : PadStream;
  dp_next : option PadStream;
}.

Record FullOtpPump := MkPump {
  fp_role : Role;
  fp_planes : DirPlane * DirPlane;
  fp_send_seq : Z;
  fp_recv_seq : Z;
  fp_next_bundle_id : Z;
  fp_next_acked : bool;
  fp_pending_ack : option Z;
  fp_consumed : Z * Z;
  fp_closed : bool;
}.

Definition wrap64 (z : Z) : Z := z mod 2 ^ 64.

Definition pump_new (role : Role) (base_segment : Z) (bundle0 : list byte) :
  FullOtpPump :=
  let '(c2s, s2c) := split_bundle 0 base_segment bundle0 in
  MkPump role (MkPlane c2s None, MkPlane s2c None) 0 0 1 false None (0, 0)
    false.

Definition pump_is_active (p : FullOtpPump) : bool := negb (fp_closed p).

Definition plane (p : FullOtpPump) (d : Direction) : DirPlane :=
  at_dir (fp_planes p) d.
Definition pump_cursor (p : FullOtpPump) (d : Direction) : Z :=
  ps_cursor (dp_current (plane p d)).
Definition session_consumed (p : FullOtpPump) (d : Direction) : Z :=
  at_dir (fp_consumed p) d.
Definition pump_remaining (p : FullOtpPump) (d : Direction) : Z :=
  remaining (dp_current (plane p d)).
Definition current_bundle (p : FullOtpPump) (d : Direction) : Z * Z :=
  (ps_bundle_id (dp_current (plane p d)),
   ps_base_segment (dp_current (plane p d))).

Definition pump_send_dir (p : FullOtpPump) : Direction :=
  role_send_direction (fp_role p).
Definition pump_recv_dir (p : FullOtpPump) : Direction :=
  opposite (pump_send_dir p).

(** *** Updates of single fields *)

Definition set_planes (p : FullOtpPump) (planes : DirPlane * DirPlane) :=
  MkPump (fp_role p) planes (fp_send_seq p) (fp_recv_seq p)
    (fp_next_bundle_id p) (fp_next_acked p) (fp_pending_ack p) (fp_consumed p)
    (fp_closed p).

Definition set_pad (p : FullOtpPump) (d : Direction) (s : PadStream) :=
  set_planes p (put_dir (fp_planes p) d (MkPlane s (dp_next (plane p d)))).

Definition set_send_counter (p : FullOtpPump) (seq : Z) :=
  MkPump (fp_role p) (fp_planes p) seq (fp_recv_seq p)
    (fp_next_bundle_id p) (fp_next_acked p) (fp_pending_ack p) (fp_consumed p)
    (fp_closed p).

Definition set_recv_counter (p : FullOtpPump) (seq : Z) :=
  MkPump (fp_role p) (fp_planes p) (fp_send_seq p) seq
    (fp_next_bundle_id p) (fp_next_acked p) (fp_pending_ack p) (fp_consumed p)
    (fp_closed p).

(** [session_consumed[idx] += MAC_KEY_LEN + l]. *)
Definition add_consumed (p : FullOtpPump) (d : Direction) (l : Z) :=
  MkPump (fp_role p) (fp_planes p) (fp_send_seq p) (fp_recv_seq p)
    (fp_next_bundle_id p) (fp_next_acked p) (fp_pending_ack p)
    (put_dir (fp_consumed p) d
       (wrap64 (at_dir (fp_consumed p) d + (MAC_KEY_LEN + l))))
    (fp_closed p).

Definition set_ack (p : FullOtpPump) (acked : bool) (pending : option Z) :=
  MkPump (fp_role p) (fp_planes p) (fp_send_seq p) (fp_recv_seq p)
    (fp_next_bundle_id p) acked pending (fp_consumed p) (fp_closed p).

Definition set_closed (p : FullOtpPump) :=
  MkPump (fp_role p) (fp_planes p) (fp_send_seq p) (fp_recv_seq p)
    (fp_next_bundle_id p) (fp_next_acked p) (fp_pending_ack p) (fp_consumed p)
    true.

(** *** Failure and closing *)

(** The next streams are zeroed and dropped, the current ones zeroed. *)
Definition fail_waste_all (p : FullOtpPump) : FullOtpPump :=
  let waste_plane pl := MkPlane (waste (dp_current pl)) None in
  set_planes p (waste_plane (fst (fp_planes p)), waste_plane (snd (fp_planes p))).

Definition pump_fail (p : FullOtpPump) : FullOtpPump :=
  set_closed (fail_waste_all p).

Definition pump_close (p : FullOtpPump) : FullOtpPump :=
  if fp_closed p then p else pump_fail p.

(** *** Switching to the next bundle *)

Definition no_next (p : FullOtpPump) : bool :=
  negb (is_some (dp_next (plane p ClientToServer))) &&
  negb (is_some (dp_next (plane p ServerToClient))).

Definition refresh_ack_state_after_switch (p : FullOtpPump) : FullOtpPump :=
  if no_next p then set_ack p false (fp_pending_ack p) else p.

Definition next_ready_for_send (p : FullOtpPump) (d : Direction) : bool :=
  is_some (dp_next (plane p d)) &&
  (bool_decide (fp_role p = Client) || fp_next_acked p).

(** [planes[idx].next.take()], [retire_into] and the refresh; [None] is the
    panic of the [expect]. *)
Definition switch_bundle (p : FullOtpPump) (d : Direction) :
  option FullOtpPump :=
  match dp_next (plane p d) with
  | None => None
  | Some next =>
      let '(current, _) := retire_into (dp_current (plane p d)) next in
      Some (refresh_ack_state_after_switch
              (set_planes p (put_dir (fp_planes p) d (MkPlane current None))))
  end.

Section Calls.
Context `{Poly1305}.

(** The second half of [send]: seal into the current bundle. *)
Definition send_record (p : FullOtpPump) (plaintext : list byte) :
  FullOtpPump * option (result SendOutcome SendError) :=
  let dir := pump_send_dir p in
  let seq := fp_send_seq p in
  let fit := max_record_len (dp_current (plane p dir)) in
  let l := Z.min (Z.of_nat (length plaintext)) fit in
  let '(stream, sealed) :=
    seal_otp_record (dp_current (plane p dir)) dir seq
      (take (Z.to_nat l) plaintext) in
  let p := set_pad p dir stream in
  match sealed with
  | None => (p, None)
  | Some (Err e) => (pump_fail p, Some (Err SdInternal))
  | Some (Ok record) =>
      match checked_add_u64 (fp_send_seq p) 1 with
      | None => (pump_close p, Some (Err SdSequenceExhausted))
      | Some next =>
          let p := add_consumed (set_send_counter p next) dir l in
          let need_pad := below_low_water (dp_current (plane p dir)) in
          (p, Some (Ok (SoRecord record l need_pad)))
      end
  end.

Definition send (p : FullOtpPump) (plaintext : list byte) :
  FullOtpPump * option (result SendOutcome SendError) :=
  if fp_closed p then (p, Some (Err SdClosed)) else
  match plaintext with
  | [] => (p, Some (Err SdEmptyPlaintext))
  | _ =>
      let dir := pump_send_dir p in
      if max_record_len (dp_current (plane p dir)) =? 0 then
        if negb (next_ready_for_send p dir)
        then (p, Some (Ok SoBackpressure))
        else
          match switch_bundle p dir with
          | None => (p, None)
          | Some p => send_record p plaintext
          end
      else send_record p plaintext
  end.

(** The switch of [receive] to the next bundle, when the frame is of it;
    [Err]: that bundle is not here. *)
Definition receive_switch (p : FullOtpPump) (dir : Direction)
  (peek : OtpDataRecord) : option (result FullOtpPump unit) :=
  let cur_id := ps_bundle_id (dp_current (plane p dir)) in
  if od_bundle_id peek =? wrap64 (cur_id + 1) then
    let next_ok :=
      match dp_next (plane p dir) with
      | Some n => ps_bundle_id n =? od_bundle_id peek
      | None => false
      end in
    if negb next_ok then Some (Err tt)
    else option_map Ok (switch_bundle p dir)
  else Some (Ok p).

(** The rest of [receive]: open the frame in the current bundle. *)
Definition receive_record (p : FullOtpPump) (peek : OtpDataRecord)
  (frame : list byte) : FullOtpPump * option (result Received OtpError) :=
  let dir := pump_recv_dir p in
  let current := dp_current (plane p dir) in
  let expect := MkOpenExpect dir (ps_bundle_id current)
                  (ps_base_segment current) (fp_recv_seq p) in
  let '(stream, opened) := open_otp_record current expect frame in
  let p := set_pad p dir stream in
  match opened with
  | None => (p, None)
  | Some (Err e) => (pump_fail p, Some (Err e))
  | Some (Ok plaintext) =>
      let l := Z.of_nat (length (od_ciphertext peek)) in
      let p := add_consumed p dir l in
      let need_pad := below_low_water (dp_current (plane p dir)) in
      match checked_add_u64 (fp_recv_seq p) 1 with
      | Some next =>
          (set_recv_counter p next, Some (Ok (MkReceived plaintext need_pad)))
      | None => (pump_close p, Some (Err OeClosed))
      end
  end.

Definition receive (p : FullOtpPump) (frame : list byte) :
  FullOtpPump * option (result Received OtpError) :=
  if fp_closed p then (p, Some (Err OeClosed)) else
  let dir := pump_recv_dir p in
  match decode_frame frame with
  | Err e => (p, Some (Err (OeWire e)))
  | Ok peek =>
      if negb (bool_decide (od_direction peek = dir))
      then (pump_fail p, Some (Err OeDirection)) else
      match receive_switch p dir peek with
      | None => (p, None)
      | Some (Err _) => (pump_fail p, Some (Err OeBundle))
      | Some (Ok p) => receive_record p peek frame
      end
  end.

End Calls.

Section Control.
Context {S : Type} `{PadSource S}.

(** Both next streams set from one bundle, which takes the next number. *)
Definition set_next (p : FullOtpPump) (c2s s2c : PadStream) : FullOtpPump :=
  let cur d := dp_current (plane p d) in
  MkPump (fp_role p)
    (MkPlane (cur ClientToServer) (Some c2s),
     MkPlane (cur ServerToClient) (Some s2c))
    (fp_send_seq p) (fp_recv_seq p) (wrap64 (fp_next_bundle_id p + 1))
    (fp_next_acked p) (fp_pending_ack p) (fp_consumed p) (fp_closed p).

Definition prefetch (p : FullOtpPump) (source : S) :
  FullOtpPump * S * result (option PumpAction) PadSourceError :=
  let bundle_id := fp_next_bundle_id p in
  match reserve_next_bundle source with
  | (source, Err e) => (pump_fail p, source, Err e)
  | (source, Ok (base, flat)) =>
      let '(c2s, s2c) := split_bundle bundle_id base flat in
      let p := set_ack (set_next p c2s s2c) false (Some bundle_id) in
      (p, source, Ok (Some (SendPadOffer bundle_id base)))
  end.

Definition server_prefetch (p : FullOtpPump) (source : S) :
  FullOtpPump * S * result (option PumpAction) PadSourceError :=
  if fp_closed p then (p, source, Ok None) else
  if negb (bool_decide (fp_role p = Server))
  then (pump_fail p, source,
        Err (PsReserve "coordinator-must-be-server"%string)) else
  if negb (no_next p) then (p, source, Ok None)
  else prefetch p source.

Definition on_control (p : FullOtpPump) (msg : PadControl) (source : S) :
  FullOtpPump * S * result (list PumpAction) PumpError :=
  let data_fail e := (pump_fail p, source, Err (PuData e)) in
  if fp_closed p then (p, source, Err (PuData OeClosed)) else
  match msg with
  | PadNeed =>
      if negb (bool_decide (fp_role p = Server)) then data_fail OeClosed else
      let '(p, source, r) := server_prefetch p source in
      (p, source,
       match r with
       | Ok action => Ok (option_list action)
       | Err e => Err (PuSource e)
       end)
  | PadOffer bundle_id base_segment =>
      if negb (bool_decide (fp_role p = Client)) then data_fail OeClosed else
      if negb (bundle_id =? fp_next_bundle_id p) then data_fail OeBundle else
      if negb (no_next p) then data_fail OeBundle else
      match reserve_bundle_at source base_segment with
      | (source, Err e) => (pump_fail p, source, Err (PuSource e))
      | (source, Ok flat) =>
          let '(c2s, s2c) := split_bundle bundle_id base_segment flat in
          (set_next p c2s s2c, source, Ok [SendPadAck bundle_id])
      end
  | PadAck bundle_id =>
      if negb (bool_decide (fp_role p = Server)) then data_fail OeClosed else
      if negb (bool_decide (fp_pending_ack p = Some bundle_id))
      then data_fail OeBundle
      else (set_ack p true None, source, Ok [])
  | PadClose => (pump_close p, source, Ok [])
  end.

End Control.
