(* ===== verification/OtpPumpSpec.v ===== *)
(** * OtpPumpSpec: what the full-OTP pump guarantees

    Pad bytes are used once, whatever the peer and the caller do; two pumps
    that share their bundles stay in step over ordered channels. *)

From stdpp Require Import strings.
From S2P Require Export OtpPump.

#[local] Open Scope list_scope.
#[local] Open Scope Z_scope.

(** ** Streams as positions in reserved material

    The material of a pump: the bundles reserved so far with their bases, the
    bundle numbered [k] at index [k].  Every stream of a pump that is not
    closed is the half of one bundle for its direction, zero up to its
    cursor. *)

Notation Material := (list (Z * list byte)).

Definition bundle_half (mat : Material) (k : nat) (d : Direction) : list byte :=
  let flat := snd (nth k mat (0, [])) in
  match d with
  | ClientToServer => take (Z.to_nat PAD_HALF) flat
  | ServerToClient => drop (Z.to_nat PAD_HALF) flat
  end.

Definition bundle_base (mat : Material) (k : nat) (d : Direction) : Z :=
  let base := fst (nth k mat (0, [])) in
  match d with
  | ClientToServer => base
  | ServerToClient => (base + 64) mod 2 ^ 64
  end.

Definition stream_at (mat : Material) (k : nat) (d : Direction) (c : nat) :
  PadStream :=
  MkPad (Z.of_nat k) (bundle_base mat k d)
    (zeros c ++ drop c (bundle_half mat k d)) (Z.of_nat c).

Definition wf_material (mat : Material) : Prop :=
  Forall (fun b => is_u64 (fst b) /\ length (snd b) = Z.to_nat BUNDLE_BYTES) mat.

Definition last_id (mat : Material) : nat := (length mat - 1)%nat.

(** A plane before and after its switch to the last bundle. *)
Definition plane_at (mat : Material) (ahead : bool) (d : Direction) (c : nat) :
  DirPlane :=
  if ahead
  then MkPlane (stream_at mat (last_id mat - 1) d c)
         (Some (stream_at mat (last_id mat) d 0))
  else MkPlane (stream_at mat (last_id mat) d c) None.

(** The position of a plane: the bundle it is in. *)
Definition plane_bundle (mat : Material) (ahead : bool) : nat :=
  if ahead then (last_id mat - 1)%nat else last_id mat.

Definition ahead (p : FullOtpPump) (d : Direction) : bool :=
  is_some (dp_next (plane p d)).

(** A live pump over its material. *)
Definition pump_over (mat : Material) (p : FullOtpPump) : Prop :=
  fp_closed p = false /\ wf_material mat /\ mat <> [] /\
  fp_next_bundle_id p = Z.of_nat (length mat) /\
  is_u64 (fp_send_seq p) /\ is_u64 (fp_recv_seq p) /\
  (forall d, ahead p d = true -> (2 <= length mat)%nat) /\
  forall d, exists c, Z.of_nat c <= 4096 /\
    plane p d = plane_at mat (ahead p d) d c.

Lemma nth_app_old {A} k (l : list A) x d :
  (k < length l)%nat -> nth k (l ++ [x]) d = nth k l d.
Proof. intros H. apply app_nth1, H. Qed.

Lemma stream_at_app mat x k d c :
  (k < length mat)%nat -> stream_at (mat ++ [x]) k d c = stream_at mat k d c.
Proof.
  intros H. unfold stream_at, bundle_base, bundle_half.
  rewrite nth_app_old by exact H. reflexivity.
Qed.

Lemma length_bundle_half mat k d :
  wf_material mat -> (k < length mat)%nat ->
  length (bundle_half mat k d) = Z.to_nat PAD_HALF.
Proof.
  intros Hw Hk.
  destruct (proj1 (List.Forall_forall _ _) Hw _ (nth_In mat (0, []) Hk))
    as [_ Hl].
  unfold bundle_half, PAD_HALF, BUNDLE_BYTES in *.
  destruct d; rewrite ?length_take, ?length_drop, Hl; unfold PAD_HALF; lia.
Qed.

Lemma bundle_base_u64 mat k d :
  wf_material mat -> (k < length mat)%nat -> is_u64 (bundle_base mat k d).
Proof.
  intros Hw Hk.
  destruct (proj1 (List.Forall_forall _ _) Hw _ (nth_In mat (0, []) Hk))
    as [Hu _].
  unfold bundle_base. destruct d; [exact Hu|].
  unfold is_u64. change 18446744073709551616 with (2 ^ 64).
  apply Z.mod_pos_bound. lia.
Qed.

Lemma wf_stream_at mat k d c :
  wf_material mat -> (k < length mat)%nat -> Z.of_nat c <= 4096 ->
  wf_pad (stream_at mat k d c).
Proof.
  intros Hw Hk Hc. unfold wf_pad, stream_at, zeros. cbn [ps_buf ps_cursor].
  rewrite length_app, repeat_length, length_drop, length_bundle_half by auto.
  unfold PAD_HALF. lia.
Qed.

Lemma stream_at_new mat d :
  stream_at mat (last_id mat) d 0 =
  from_half (Z.of_nat (last_id mat)) (bundle_base mat (last_id mat) d)
    (bundle_half mat (last_id mat) d).
Proof. reflexivity. Qed.

(** Spending moves the cursor within the same bundle. *)
Lemma spend_stream_at mat k d c l :
  wf_material mat -> (k < length mat)%nat -> Z.of_nat (c + 32 + l) <= 4096 ->
  spend (stream_at mat k d c) l = stream_at mat k d (c + 32 + l).
Proof.
  intros Hw Hk Hc. unfold spend, stream_at, burn_range. cbn [ps_buf ps_cursor
    ps_bundle_id ps_base_segment]. rewrite Nat2Z.id.
  assert (Hz : length (zeros c) = c) by apply repeat_length.
  pose proof (length_bundle_half mat k d Hw Hk) as Hh.
  rewrite (take_app_length' _ _ c) by auto.
  rewrite drop_app_ge by lia. rewrite Hz, drop_drop.
  f_equal; [|unfold MAC_KEY_LEN; lia].
  rewrite app_assoc. f_equal; [|f_equal; lia].
  unfold zeros. rewrite <- repeat_app. f_equal. lia.
Qed.

Lemma pad_key_stream_at mat k d c :
  Z.of_nat (c + 32) <= 4096 -> wf_material mat -> (k < length mat)%nat ->
  pad_key (stream_at mat k d c) = slice c (c + 32) (bundle_half mat k d).
Proof.
  intros Hc Hw Hk. unfold pad_key, stream_at. cbn [ps_cursor ps_buf].
  rewrite Nat2Z.id. unfold slice. rewrite drop_app_length' ; [reflexivity|].
  apply eq_sym, repeat_length.
Qed.

Lemma pad_bytes_stream_at mat k d c l :
  pad_bytes (stream_at mat k d c) l =
  slice (c + 32) (c + 32 + l) (bundle_half mat k d).
Proof.
  unfold pad_bytes, stream_at. cbn [ps_cursor ps_buf]. rewrite Nat2Z.id.
  unfold slice. f_equal. rewrite drop_app_ge
    by (unfold zeros; rewrite repeat_length; lia).
  unfold zeros. rewrite repeat_length, drop_drop. f_equal. lia.
Qed.

Lemma max_len_stream_at mat k d c :
  Z.of_nat c <= 4096 ->
  max_record_len (stream_at mat k d c) = Z.max 0 (4064 - Z.of_nat c).
Proof.
  intros Hc. unfold max_record_len, remaining, saturating_sub, PAD_HALF,
    MAC_KEY_LEN, MAX_CIPHERTEXT_LEN, stream_at. cbn [ps_cursor]. lia.
Qed.

Lemma sealable_stream_at mat k d c pt :
  (1 <= length pt)%nat -> Z.of_nat (c + 32 + length pt) <= 4096 ->
  sealable (stream_at mat k d c) pt = true.
Proof.
  intros H1 H2. unfold sealable, fits, remaining, MAC_KEY_LEN, PAD_HALF,
    stream_at. cbn [ps_cursor].
  rewrite (proj2 (Z.eqb_neq _ _)), (proj2 (Z.leb_le _ _)) by lia. reflexivity.
Qed.

Lemma plane_set_pad p d e s :
  plane (set_pad p d s) e =
  if bool_decide (d = e) then MkPlane s (dp_next (plane p e)) else plane p e.
Proof.
  unfold plane, set_pad, set_planes. cbn [fp_planes].
  destruct (bool_decide_reflect (d = e)) as [<-|Hn];
    [apply at_put_dir | apply at_put_dir_other, Hn].
Qed.

Section Send.
Context `{Poly1305}.

(** How much of a plaintext a record at cursor [c] takes. *)
Definition taken (pt : list byte) (c : nat) : nat :=
  Nat.min (length pt) (Z.to_nat (4064 - Z.of_nat c)).

Lemma send_record_eq mat p pt k c :
  let d := pump_send_dir p in
  let seq := fp_send_seq p in
  let l := taken pt c in
  let after := set_pad p d (stream_at mat k d (c + 32 + l)) in
  wf_material mat -> (k < length mat)%nat -> Z.of_nat c < 4064 -> pt <> [] ->
  dp_current (plane p d) = stream_at mat k d c -> is_u64 seq ->
  send_record p pt =
  if seq =? U64_MAX
  then (pump_close after, Some (Err SdSequenceExhausted))
  else (add_consumed (set_send_counter after (seq + 1)) d (Z.of_nat l),
        Some (Ok (SoRecord (sealed_record (stream_at mat k d c) d seq
                              (take l pt)) (Z.of_nat l)
                    (below_low_water (stream_at mat k d (c + 32 + l)))))).
Proof.
  intros d seq l after Hw Hk Hc Hpt Hcur Hq.
  assert (Hl : (1 <= l <= length pt)%nat /\ Z.of_nat (c + 32 + l) <= 4096).
  { subst l. unfold taken. destruct pt; [congruence|]. cbn [length]. lia. }
  unfold send_record. fold d seq. rewrite Hcur, max_len_stream_at by lia.
  replace (Z.min (Z.of_nat (length pt)) (Z.max 0 (4064 - Z.of_nat c)))
    with (Z.of_nat l) by (subst l; unfold taken; lia).
  rewrite Nat2Z.id, seal_otp_eq by (apply wf_stream_at; first [assumption | lia]).
  assert (Ht : length (take l pt) = l) by (rewrite length_take; lia).
  rewrite sealable_stream_at, Ht, spend_stream_at by (rewrite ?Ht; first [assumption | lia]).
  fold after. change (fp_send_seq after) with seq.
  unfold checked_add_u64.
  destruct (Z.eqb_spec seq U64_MAX) as [E|E].
  - rewrite (proj2 (Z.leb_gt _ _)) by ulia. reflexivity.
  - rewrite (proj2 (Z.leb_le _ _)) by ulia.
    assert (Hcur' : dp_current (plane (add_consumed (set_send_counter after
        (seq + 1)) d (Z.of_nat l)) d) = stream_at mat k d (c + 32 + l)).
    { change (dp_current (plane after d) = stream_at mat k d (c + 32 + l)).
      unfold after. rewrite plane_set_pad, bool_decide_eq_true_2 by auto.
      reflexivity. }
    rewrite Hcur'. reflexivity.
Qed.

End Send.

(** ** Single steps over the material *)

(** What a switch and the pad operations leave alone. *)
Definition same_frame (p q : FullOtpPump) : Prop :=
  fp_role q = fp_role p /\ fp_next_bundle_id q = fp_next_bundle_id p /\
  fp_pending_ack q = fp_pending_ack p /\ fp_closed q = fp_closed p.

Lemma ahead_plane_at mat b d c p :
  plane p d = plane_at mat b d c -> ahead p d = b.
Proof. intros E. unfold ahead. rewrite E. destruct b; reflexivity. Qed.

Lemma plane_refresh p d : plane (refresh_ack_state_after_switch p) d = plane p d.
Proof. unfold refresh_ack_state_after_switch. destruct (no_next p); reflexivity. Qed.

Lemma last_id_lt (mat : Material) : mat <> [] -> (last_id mat < length mat)%nat.
Proof. destruct mat; [congruence|]. unfold last_id. simpl. lia. Qed.

Lemma plane_bundle_lt (mat : Material) b :
  mat <> [] -> (plane_bundle mat b < length mat)%nat.
Proof.
  intros H. apply last_id_lt in H. unfold plane_bundle. destruct b; lia.
Qed.

Lemma current_plane_at mat b d c :
  dp_current (plane_at mat b d c) = stream_at mat (plane_bundle mat b) d c.
Proof. destruct b; reflexivity. Qed.

(** Rebuilding [pump_over] after one plane and the counters moved. *)
Lemma pump_over_move mat p q d b c :
  pump_over mat p -> same_frame p q ->
  is_u64 (fp_send_seq q) -> is_u64 (fp_recv_seq q) ->
  Z.of_nat c <= 4096 -> (b = true -> ahead p d = true) ->
  plane q d = plane_at mat b d c ->
  (forall e, e <> d -> plane q e = plane p e) ->
  pump_over mat q.
Proof.
  intros (Hcl & Hw & Hne & Hid & _ & _ & H2 & Hpl) (R & I & P & C) Hs Hr Hc Hb
    Hd Ho.
  assert (Ha : forall e, e <> d -> ahead q e = ahead p e)
    by (intros e He; unfold ahead; rewrite Ho; auto).
  assert (Hd' : ahead q d = b) by (eapply ahead_plane_at; eauto).
  unfold pump_over. rewrite C, I. split_and!; auto.
  - intros e He. destruct (decide (e = d)) as [->|Hn].
    + apply (H2 d), Hb. congruence.
    + apply (H2 e). rewrite <- Ha; auto.
  - intros e. destruct (decide (e = d)) as [->|Hn].
    + exists c. rewrite Hd'. auto.
    + destruct (Hpl e) as (ce & Hce & E). exists ce. rewrite Ha, Ho; auto.
Qed.

Lemma switch_over mat p d :
  pump_over mat p -> ahead p d = true ->
  exists p1, switch_bundle p d = Some p1 /\ pump_over mat p1 /\
    same_frame p p1 /\ plane p1 d = plane_at mat false d 0 /\
    (forall e, e <> d -> plane p1 e = plane p e) /\
    fp_send_seq p1 = fp_send_seq p /\ fp_recv_seq p1 = fp_recv_seq p /\
    (fp_next_acked p1 = true -> fp_next_acked p = true).
Proof.
  intros Ho Ha. pose proof Ho as (Hcl & Hw & Hne & Hid & Hs & Hr & H2 & Hpl).
  destruct (Hpl d) as (c & Hc & E). rewrite Ha in E.
  unfold switch_bundle. rewrite E. cbn [plane_at dp_next retire_into].
  set (q := set_planes _ _). set (p1 := refresh_ack_state_after_switch q).
  assert (Hq : plane q d = plane_at mat false d 0).
  { unfold plane, q, set_planes. cbn [fp_planes]. apply at_put_dir. }
  assert (Hqo : forall e, e <> d -> plane q e = plane p e).
  { intros e He. unfold plane, q, set_planes. cbn [fp_planes].
    apply at_put_dir_other. auto. }
  assert (Hf : same_frame p p1).
  { unfold same_frame, p1, refresh_ack_state_after_switch.
    destruct (no_next q); auto. }
  assert (Hsr : fp_send_seq p1 = fp_send_seq p /\
                fp_recv_seq p1 = fp_recv_seq p /\
                (fp_next_acked p1 = true -> fp_next_acked p = true)).
  { unfold p1, refresh_ack_state_after_switch.
    destruct (no_next q); cbn; split_and!; auto; discriminate. }
  destruct Hsr as (Es & Er & Ea).
  exists p1. split_and!; auto.
  - apply (pump_over_move mat p p1 d false 0); auto; try congruence; try lia.
    + unfold p1. rewrite plane_refresh. exact Hq.
    + intros e He. unfold p1. rewrite plane_refresh. auto.
  - unfold p1. rewrite plane_refresh. exact Hq.
  - intros e He. unfold p1. rewrite plane_refresh. auto.
Qed.

(** The position the next record is sealed at: the cursor of the current
    bundle, or the start of the next one when the current has no room and the
    switch is allowed. *)
Definition seal_position (mat : Material) (p : FullOtpPump) (k c : nat) :
  Prop :=
  let d := pump_send_dir p in
  exists c0, Z.of_nat c0 <= 4096 /\ plane p d = plane_at mat (ahead p d) d c0 /\
    if bool_decide (Z.of_nat c0 < 4064)
    then k = plane_bundle mat (ahead p d) /\ c = c0
    else ahead p d = true /\ next_ready_for_send p d = true /\
         k = last_id mat /\ c = 0%nat.

Section SendOver.
Context `{Poly1305}.

(** A record is sealed at [(k, c)], and the pump moves past it. *)
Definition sent_at (mat : Material) (p : FullOtpPump) (pt : list byte)
  (k c : nat) (r : OtpDataRecord) (p' : FullOtpPump) : Prop :=
  let d := pump_send_dir p in
  let l := taken pt c in
  seal_position mat p k c /\ Z.of_nat c < 4064 /\ pt <> [] /\
  r = sealed_record (stream_at mat k d c) d (fp_send_seq p) (take l pt) /\
  fp_send_seq p < U64_MAX /\ fp_send_seq p' = fp_send_seq p + 1 /\
  fp_recv_seq p' = fp_recv_seq p /\
  same_frame p p' /\
  (fp_next_acked p' = true -> fp_next_acked p = true) /\
  plane p' d = plane_at mat (ahead p' d) d (c + 32 + l) /\
  plane_bundle mat (ahead p' d) = k /\
  (ahead p' d = true -> ahead p d = true) /\
  (forall e, e <> d -> plane p' e = plane p e).

Lemma taken_bounds pt c :
  pt <> [] -> Z.of_nat c < 4064 ->
  (1 <= taken pt c <= length pt)%nat /\
  Z.of_nat (c + 32 + taken pt c) <= 4096 /\
  length (take (taken pt c) pt) = taken pt c.
Proof.
  intros Hp Hc. rewrite length_take. unfold taken.
  destruct pt; [congruence|]. cbn [length]. lia.
Qed.

Lemma send_record_over mat p pt b c p' r :
  pump_over mat p -> plane p (pump_send_dir p) = plane_at mat b (pump_send_dir p) c ->
  Z.of_nat c < 4064 -> pt <> [] -> send_record p pt = (p', r) ->
  let d := pump_send_dir p in
  let l := taken pt c in
  (fp_send_seq p = U64_MAX /\ fp_closed p' = true /\
   r = Some (Err SdSequenceExhausted)) \/
  (fp_send_seq p < U64_MAX /\ pump_over mat p' /\ same_frame p p' /\
   fp_send_seq p' = fp_send_seq p + 1 /\ fp_recv_seq p' = fp_recv_seq p /\
   fp_next_acked p' = fp_next_acked p /\
   plane p' d = plane_at mat b d (c + 32 + l) /\
   (forall e, e <> d -> plane p' e = plane p e) /\
   exists need, r = Some (Ok (SoRecord
     (sealed_record (stream_at mat (plane_bundle mat b) d c) d (fp_send_seq p)
        (take l pt)) (Z.of_nat l) need))).
Proof.
  intros Ho Hpl Hc Hpt E d l.
  pose proof Ho as (Hcl & Hw & Hne & Hid & Hs & Hr & H2 & _).
  destruct (taken_bounds pt c Hpt Hc) as (L1 & L2 & L3). fold l in L1, L2, L3.
  pose proof (send_record_eq mat p pt (plane_bundle mat b) c Hw
    (plane_bundle_lt mat b Hne) Hc Hpt
    (eq_trans (f_equal dp_current Hpl) (current_plane_at _ _ _ _)) Hs) as Eq.
  rewrite Eq in E. clear Eq. fold d in E. fold l in E. fold d in Hpl.
  set (after := set_pad p d _) in E.
  destruct (Z.eqb_spec (fp_send_seq p) U64_MAX) as [Hx|Hx].
  - injection E as <- <-. left. split_and!; auto.
    unfold pump_close. change (fp_closed after) with (fp_closed p).
    rewrite Hcl. reflexivity.
  - injection E as <- <-. right.
    assert (Hd : plane after d = plane_at mat b d (c + 32 + l)).
    { unfold after. rewrite plane_set_pad, bool_decide_eq_true_2, Hpl
        by reflexivity. destruct b; reflexivity. }
    assert (Hoth : forall e, e <> d -> plane after e = plane p e).
    { intros e He. unfold after.
      rewrite plane_set_pad, bool_decide_eq_false_2; auto. }
    assert (Ha : ahead p d = b) by (eapply ahead_plane_at; eauto).
    split_and!; auto; try (unfold same_frame; auto; fail); try ulia; eauto.
    apply (pump_over_move mat p _ d b (c + 32 + l)); auto; try ulia.
    + unfold same_frame. auto.
    + cbn. ulia.
    + intros. congruence.
Qed.

(** Every outcome of [send] on a live pump. *)
Lemma send_over mat p pt p' r :
  pump_over mat p -> send p pt = (p', r) ->
  match r with
  | Some (Ok (SoRecord rec l need)) =>
      exists k c, sent_at mat p pt k c rec p' /\ l = Z.of_nat (taken pt c) /\
        pump_over mat p'
  | Some (Ok SoBackpressure) => p' = p
  | Some (Err SdEmptyPlaintext) => p' = p /\ pt = []
  | Some (Err SdSequenceExhausted) =>
      fp_send_seq p = U64_MAX /\ fp_closed p' = true
  | _ => False
  end.
Proof.
  intros Ho E. pose proof Ho as (Hcl & Hw & Hne & Hid & Hs & Hr & H2 & Hpl).
  unfold send in E. rewrite Hcl in E. set (d := pump_send_dir p) in *.
  destruct pt as [|x pt']; [injection E as <- <-; auto|].
  set (pt := x :: pt') in *.
  destruct (Hpl d) as (c0 & Hc0 & Ed).
  rewrite Ed, current_plane_at, max_len_stream_at in E by exact Hc0.
  destruct (Z.eqb_spec (Z.max 0 (4064 - Z.of_nat c0)) 0) as [Hfull|Hroom].
  - destruct (next_ready_for_send p d) eqn:Erdy; cbn [negb] in E;
      [|injection E as <- <-; reflexivity].
    pose proof Erdy as Ha. unfold next_ready_for_send in Ha.
    apply andb_true_iff in Ha as [Ha _]. fold (ahead p d) in Ha.
    destruct (switch_over mat p d Ho Ha)
      as (p1 & Esw & Ho1 & Hf & Hd1 & Hoth & Es1 & Er1 & Ea1).
    rewrite Esw in E.
    assert (Edir : pump_send_dir p1 = d)
      by (unfold pump_send_dir; rewrite (proj1 Hf); reflexivity).
    destruct (send_record_over mat p1 pt false 0 p' r Ho1
      ltac:(rewrite Edir; exact Hd1) ltac:(lia) ltac:(discriminate) E)
      as [(A & B & ->)|(A & B & C & D & F & G & I & J & need & ->)];
      rewrite ?Edir, ?Es1 in *; [split; [exact A | exact B]|].
    exists (last_id mat), 0%nat. split; [|split; [reflexivity | exact B]].
    assert (Ha' : ahead p' d = false) by (eapply ahead_plane_at; eauto).
    unfold sent_at. fold d. rewrite Ha'.
    split_and!; auto; try congruence; try lia; try discriminate.
    + exists c0. fold d. split_and!; [exact Hc0 | exact Ed |].
      rewrite bool_decide_eq_false_2 by lia. auto.
    + unfold same_frame in *. intuition congruence.
    + intros Hx. apply Ea1. rewrite <- G. exact Hx.
    + intros e He. rewrite J; auto.
  - destruct (send_record_over mat p pt (ahead p d) c0 p' r Ho Ed
      ltac:(lia) ltac:(discriminate) E)
      as [(A & B & ->)|(A & B & C & D & F & G & I & J & need & ->)];
      [split; [exact A | exact B]|].
    exists (plane_bundle mat (ahead p d)), c0. split; [|split; [reflexivity | exact B]].
    assert (Ha' : ahead p' d = ahead p d) by (eapply ahead_plane_at; eauto).
    unfold sent_at. fold d. rewrite Ha'.
    split_and!; auto; try congruence; try lia; try discriminate.
    exists c0. fold d. split_and!; [exact Hc0 | exact Ed |].
    rewrite bool_decide_eq_true_2 by lia. auto.
Qed.

End SendOver.

(** ** Receiving over the material *)

(** The position a record of bundle [id] is opened at. *)
Definition open_position (mat : Material) (p : FullOtpPump) (id : Z)
  (k c : nat) : Prop :=
  let d := pump_recv_dir p in
  exists c0, Z.of_nat c0 <= 4096 /\ plane p d = plane_at mat (ahead p d) d c0 /\
    ((k = plane_bundle mat (ahead p d) /\ c = c0 /\
      (ahead p d = true -> id <> Z.of_nat (last_id mat))) \/
     (ahead p d = true /\ k = last_id mat /\ c = 0%nat /\
      id = Z.of_nat (last_id mat))).

Section ReceiveOver.
Context `{Poly1305}.

(** The frame was accepted at [(k, c)], and the pump moved past it. *)
Definition received_at (mat : Material) (p : FullOtpPump) (frame : list byte)
  (k c : nat) (pt : list byte) (p' : FullOtpPump) : Prop :=
  let d := pump_recv_dir p in
  exists r, decode_frame frame = Ok r /\
    open_position mat p (od_bundle_id r) k c /\
    acceptable (stream_at mat k d c)
      (MkOpenExpect d (Z.of_nat k) (bundle_base mat k d) (fp_recv_seq p)) r /\
    pt = zip_with xor_byte (od_ciphertext r)
           (pad_bytes (stream_at mat k d c) (length (od_ciphertext r))) /\
    fp_recv_seq p < U64_MAX /\ fp_recv_seq p' = fp_recv_seq p + 1 /\
    fp_send_seq p' = fp_send_seq p /\ same_frame p p' /\
    (fp_next_acked p' = true -> fp_next_acked p = true) /\
    plane p' d = plane_at mat (ahead p' d) d (c + 32 + length (od_ciphertext r)) /\
    plane_bundle mat (ahead p' d) = k /\
    (ahead p' d = true -> ahead p d = true) /\
    (forall e, e <> d -> plane p' e = plane p e).

Lemma fits_stream_at mat k d c l :
  fits (stream_at mat k d c) (Z.of_nat l) = true <->
  Z.of_nat (c + 32 + l) <= 4096.
Proof.
  unfold fits, remaining, MAC_KEY_LEN, PAD_HALF, stream_at. cbn [ps_cursor].
  rewrite Z.leb_le. lia.
Qed.

(** [receive_record] when the frame's bundle is the current one. *)
Lemma receive_record_over mat p peek frame b c p' r :
  let d := pump_recv_dir p in
  let k := plane_bundle mat b in
  pump_over mat p -> plane p d = plane_at mat b d c -> Z.of_nat c <= 4096 ->
  decode_frame frame = Ok peek -> receive_record p peek frame = (p', r) ->
  r <> None /\
  ((exists e, r = Some (Err e) /\ fp_closed p' = true) \/
   exists pt need, r = Some (Ok (MkReceived pt need)) /\ pump_over mat p' /\
     acceptable (stream_at mat k d c)
       (MkOpenExpect d (Z.of_nat k) (bundle_base mat k d) (fp_recv_seq p)) peek /\
     pt = zip_with xor_byte (od_ciphertext peek)
       (pad_bytes (stream_at mat k d c) (length (od_ciphertext peek))) /\
     fp_recv_seq p < U64_MAX /\ fp_recv_seq p' = fp_recv_seq p + 1 /\
     fp_send_seq p' = fp_send_seq p /\ same_frame p p' /\
     fp_next_acked p' = fp_next_acked p /\
     plane p' d = plane_at mat b d (c + 32 + length (od_ciphertext peek)) /\
     (forall e, e <> d -> plane p' e = plane p e)).
Proof.
  intros d k Ho Hpl Hc Hdec E.
  pose proof Ho as (Hcl & Hw & Hne & Hid & Hs & Hr & H2 & _).
  assert (Hk : (k < length mat)%nat) by (apply plane_bundle_lt, Hne).
  assert (Hwf : wf_pad (stream_at mat k d c)) by (apply wf_stream_at; auto).
  unfold receive_record in E. fold d in E.
  rewrite Hpl, current_plane_at in E. fold k in E.
  cbn [ps_bundle_id ps_base_segment stream_at] in E.
  fold (stream_at mat k d c) in E.
  destruct (open_otp_record _ _ frame) as [stream opened] eqn:Eo.
  pose proof (open_otp_shape _ _ _ _ _ Hwf Eo) as (Hn & _).
  destruct opened as [[pt|e]|]; [| |congruence]; cycle 1.
  { injection E as <- <-. split; [discriminate|]. left. eauto. }
  apply open_otp_ok in Eo as (rec & Hd' & Hacc & -> & ->); [|exact Hwf].
  assert (rec = peek) as -> by congruence.
  pose proof Hacc as (_ & _ & _ & _ & _ & Hf & _).
  apply fits_stream_at in Hf.
  rewrite spend_stream_at in E by auto.
  set (after := set_pad p d _) in E.
  assert (Hd : plane after d =
    plane_at mat b d (c + 32 + length (od_ciphertext peek))).
  { unfold after. rewrite plane_set_pad, bool_decide_eq_true_2, Hpl
      by reflexivity. destruct b; reflexivity. }
  assert (Hoth : forall e, e <> d -> plane after e = plane p e).
  { intros e He. unfold after.
    rewrite plane_set_pad, bool_decide_eq_false_2; auto. }
  assert (Ha : ahead p d = b) by (eapply ahead_plane_at; eauto).
  cbv zeta in E. change (fp_recv_seq (add_consumed after d _)) with (fp_recv_seq p) in E.
  destruct (checked_add_u64 (fp_recv_seq p) 1) as [nx|] eqn:En.
  - apply checked_add_u64_some in En as [-> Hlt]. injection E as <- <-.
    split; [discriminate|]. right. eexists _, _. split; [reflexivity|].
    split_and!; auto; try (unfold same_frame; auto; fail); try ulia.
    apply (pump_over_move mat p _ d b (c + 32 + length (od_ciphertext peek)));
      auto; try ulia; [unfold same_frame; auto | cbn; ulia | congruence].
  - injection E as <- <-. split; [discriminate|]. left. eexists.
    split; [reflexivity|]. unfold pump_close.
    change (fp_closed (add_consumed after d _)) with (fp_closed p).
    rewrite Hcl. reflexivity.
Qed.

(** Every outcome of [receive] on a live pump. *)
Lemma receive_over mat p frame p' r :
  pump_over mat p -> Z.of_nat (length mat) <= U64_MAX ->
  receive p frame = (p', r) ->
  match r with
  | Some (Ok (MkReceived pt need)) =>
      exists k c, received_at mat p frame k c pt p' /\ pump_over mat p'
  | Some (Err e) =>
      fp_closed p' = true \/
      (p' = p /\ exists w, decode_frame frame = Err w /\ e = OeWire w)
  | None => False
  end.
Proof.
  intros Ho Hbound E.
  pose proof Ho as (Hcl & Hw & Hne & Hid & Hs & Hr & H2 & Hpl).
  unfold receive in E. rewrite Hcl in E. set (d := pump_recv_dir p) in *.
  destruct (decode_frame frame) as [peek|w] eqn:Ed;
    [|injection E as <- <-; right; eauto].
  case_match_in E; [injection E as <- <-; left; reflexivity|].
  destruct (Hpl d) as (c0 & Hc0 & Epl).
  unfold receive_switch in E. rewrite Epl, current_plane_at in E.
  cbn [ps_bundle_id stream_at] in E.
  pose proof (plane_bundle_lt mat (ahead p d) Hne) as Hlt.
  unfold wrap64 in E. rewrite Z.mod_small in E by ulia.
  destruct (Z.eqb_spec (od_bundle_id peek)
    (Z.of_nat (plane_bundle mat (ahead p d)) + 1)) as [Hid'|Hid'].
  - destruct (ahead p d) eqn:Ea;
      [|cbn in E; injection E as <- <-; left; reflexivity].
    cbn [plane_at dp_next ps_bundle_id stream_at] in E.
    specialize (H2 d Ea). unfold plane_bundle in Hid'.
    assert (Hid2 : od_bundle_id peek = Z.of_nat (last_id mat))
      by (unfold last_id in *; lia).
    rewrite Hid2, Z.eqb_refl in E. cbn [negb] in E.
    destruct (switch_over mat p d Ho Ea)
      as (p1 & Esw & Ho1 & Hf & Hd1 & Hoth & Es1 & Er1 & Ea1).
    rewrite Esw in E. cbn [option_map] in E.
    assert (Edir : pump_recv_dir p1 = d)
      by (unfold pump_recv_dir, pump_send_dir; rewrite (proj1 Hf); reflexivity).
    destruct (receive_record_over mat p1 peek frame false 0 p' r Ho1
      ltac:(rewrite Edir; exact Hd1) ltac:(lia) Ed E)
      as [_ [(e & -> & A)|(pt & need & -> & A & B & C & D & F & G & I & J & K & L)]];
      [left; exact A|].
    rewrite Edir in *. exists (last_id mat), 0%nat. split; [|exact A].
    assert (Ha' : ahead p' d = false) by (eapply ahead_plane_at; eauto).
    exists peek. fold d. rewrite Ha', <- Er1, <- Es1.
    split_and!; auto; try congruence.
    + exists c0. fold d. rewrite Ea. split_and!; auto.
    + unfold same_frame in *. intuition congruence.
    + intros Hx. apply Ea1. rewrite <- J. exact Hx.
    + intros e He. rewrite L; auto.
  - destruct (receive_record_over mat p peek frame (ahead p d) c0 p' r Ho Epl
      Hc0 Ed E)
      as [_ [(e & -> & A)|(pt & need & -> & A & B & C & D & F & G & I & J & K & L)]];
      [left; exact A|].
    exists (plane_bundle mat (ahead p d)), c0. split; [|exact A].
    fold d in B, C, K, L.
    assert (Ha' : ahead p' d = ahead p d) by (eapply ahead_plane_at; eauto).
    exists peek. fold d. rewrite Ha'. split_and!; auto; try congruence.
    exists c0. fold d. split_and!; auto. left. split_and!; auto.
    intros Ha Hx. apply Hid'. rewrite Ha in *. unfold plane_bundle.
    specialize (H2 d Ha). unfold last_id in *. lia.
Qed.

End ReceiveOver.

(** ** New material *)

Lemma no_next_ahead p :
  no_next p = true <-> ahead p ClientToServer = false /\ ahead p ServerToClient = false.
Proof.
  unfold no_next, ahead. rewrite andb_true_iff, !negb_true_iff. reflexivity.
Qed.

Lemma no_next_dir p d : no_next p = true -> ahead p d = false.
Proof. intros H. apply no_next_ahead in H as [A B]. destruct d; auto. Qed.

Lemma set_next_over mat p base flat c2s s2c :
  pump_over mat p -> no_next p = true ->
  is_u64 base -> length flat = Z.to_nat BUNDLE_BYTES ->
  Z.of_nat (length mat) < U64_MAX ->
  split_bundle (fp_next_bundle_id p) base flat = (c2s, s2c) ->
  let mat' := mat ++ [(base, flat)] in
  pump_over mat' (set_next p c2s s2c) /\
  forall d c, Z.of_nat c <= 4096 -> plane p d = plane_at mat false d c ->
    plane (set_next p c2s s2c) d = plane_at mat' true d c.
Proof.
  intros (Hcl & Hw & Hne & Hid & Hs & Hr & H2 & Hpl) Hno Hb Hf Hlt Esp mat'.
  assert (Hlen : length mat' = S (length mat))
    by (unfold mat'; rewrite length_app; simpl; lia).
  assert (Hlast : last_id mat' = length mat) by (unfold last_id; lia).
  assert (Hnew : forall d, stream_at mat' (last_id mat') d 0 =
    at_dir (c2s, s2c) d).
  { unfold split_bundle in Esp. injection Esp as <- <-. intros d.
    unfold stream_at, bundle_base, bundle_half. rewrite Hlast, Hid.
    unfold mat'. rewrite app_nth2, Nat.sub_diag by lia. destruct d; reflexivity. }
  assert (Hp : forall d c, Z.of_nat c <= 4096 -> plane p d = plane_at mat false d c ->
    plane (set_next p c2s s2c) d = plane_at mat' true d c).
  { intros d c Hc E. unfold plane_at. rewrite Hnew, Hlast.
    replace (length mat - 1)%nat with (last_id mat) by reflexivity.
    unfold mat'. rewrite stream_at_app by (apply last_id_lt, Hne).
    unfold plane in *. destruct d; cbn in E |- *; rewrite E; reflexivity. }
  split; [|exact Hp]. unfold pump_over. split_and!; auto.
  - unfold mat', wf_material. apply Forall_app. split; [exact Hw|].
    constructor; [|constructor]. auto.
  - unfold mat'. destruct mat; discriminate.
  - cbn. rewrite Hid, Hlen. unfold wrap64. rewrite Z.mod_small by ulia. lia.
  - intros d _. destruct mat; [congruence|]. simpl in *. lia.
  - intros d. destruct (Hpl d) as (c & Hc & E).
    rewrite (no_next_dir p d Hno) in E. exists c. split; [exact Hc|].
    replace (ahead (set_next p c2s s2c) d) with true by (destruct d; reflexivity).
    apply Hp; auto.
Qed.

(** A source that writes down what it hands out. *)
Section Logging.
Context {S : Type} `{PadSource S}.

Definition logged_next (sl : S * Material) :=
  match reserve_next_bundle (fst sl) with
  | (s, Ok (base, flat)) => ((s, snd sl ++ [(base, flat)]), Ok (base, flat))
  | (s, Err e) => ((s, snd sl), Err e)
  end.

Definition logged_at (sl : S * Material) (base : Z) :=
  match reserve_bundle_at (fst sl) base with
  | (s, Ok flat) => ((s, snd sl ++ [(base, flat)]), Ok flat)
  | (s, Err e) => ((s, snd sl), Err e)
  end.

#[export] Instance logged_source : PadSource (S * Material).
Proof.
  refine {| reserve_next_bundle := logged_next; reserve_bundle_at := logged_at |}.
  - intros [s l] s' base flat E. unfold logged_next in E. cbn [fst snd] in E.
    destruct (reserve_next_bundle s) as [s1 [[b f]|]] eqn:En; [|discriminate].
    injection E as <- <- <-. eapply reserve_next_typed; eauto.
  - intros [s l] s' base flat E. unfold logged_at in E. cbn [fst snd] in E.
    destruct (reserve_bundle_at s base) as [s1 [f|]] eqn:En; [|discriminate].
    injection E as <- <-. eapply reserve_at_typed; eauto.
Defined.

End Logging.

(** ** Histories of one pump *)

Inductive PumpOp :=
  | PoSend (plaintext : list byte)
  | PoReceive (frame : list byte)
  | PoControl (msg : PadControl)
  | PoPrefetch
  | PoClose.

Definition wf_op (op : PumpOp) : Prop :=
  match op with PoControl m => wf_control m | _ => True end.

Section Histories.
Context `{Poly1305} {S : Type} `{PadSource S}.

(** One call of the pump's interface, with the record it gives out. *)
Definition pump_step (p : FullOtpPump) (s : S) (op : PumpOp) :
  FullOtpPump * S * list OtpDataRecord :=
  match op with
  | PoSend pt =>
      let '(p', r) := send p pt in
      (p', s, match r with Some (Ok (SoRecord rec _ _)) => [rec] | _ => [] end)
  | PoReceive frame => (fst (receive p frame), s, [])
  | PoControl m => (fst (on_control p m s), [])
  | PoPrefetch => (fst (server_prefetch p s), [])
  | PoClose => (pump_close p, s, [])
  end.

Fixpoint pump_run (p : FullOtpPump) (s : S) (ops : list PumpOp) :
  FullOtpPump * S * list OtpDataRecord :=
  match ops with
  | [] => (p, s, [])
  | op :: ops =>
      let '(p, s, recs) := pump_step p s op in
      let '(p, s, more) := pump_run p s ops in
      (p, s, recs ++ more)
  end.

End Histories.

Section Trace.
Context `{Poly1305} {S : Type} `{PadSource S}.

(** What a call of the control plane does to a live pump. *)
Definition control_moved (mat : Material) (p : FullOtpPump) (log : Material)
  (p' : FullOtpPump) (log' : Material) : Prop :=
  fp_closed p' = true /\ log' = log \/
  exists ext, log' = log ++ ext /\ (length ext <= 1)%nat /\
    pump_over (mat ++ ext) p' /\ fp_role p' = fp_role p /\
    fp_send_seq p' = fp_send_seq p /\ fp_recv_seq p' = fp_recv_seq p /\
    (forall d c, Z.of_nat c <= 4096 -> plane p d = plane_at mat (ahead p d) d c ->
       plane p' d = plane_at (mat ++ ext) (ahead p' d) d c /\
       plane_bundle (mat ++ ext) (ahead p' d) = plane_bundle mat (ahead p d)).

Lemma control_still mat p log p' :
  pump_over mat p' -> fp_role p' = fp_role p ->
  fp_send_seq p' = fp_send_seq p -> fp_recv_seq p' = fp_recv_seq p ->
  (forall d, plane p' d = plane p d) ->
  control_moved mat p log p' log.
Proof.
  intros Ho R E1 E2 Hp. right. exists []. rewrite !app_nil_r.
  split_and!; auto. intros d c Hc Hd.
  unfold ahead in *. rewrite Hp. auto.
Qed.

Lemma control_closed mat p log log' p' :
  fp_closed p' = true -> log' = log ->
  control_moved mat p log p' log'.
Proof. intros. left. auto. Qed.

Lemma control_grown mat p log base flat c2s s2c acked pending :
  pump_over mat p -> no_next p = true -> is_u64 base ->
  length flat = Z.to_nat BUNDLE_BYTES -> Z.of_nat (length mat) < U64_MAX ->
  split_bundle (fp_next_bundle_id p) base flat = (c2s, s2c) ->
  control_moved mat p log (set_ack (set_next p c2s s2c) acked pending)
    (log ++ [(base, flat)]).
Proof.
  intros Ho Hno Hb Hf Hlt Esp.
  destruct (set_next_over mat p base flat c2s s2c Ho Hno Hb Hf Hlt Esp)
    as [Ho' Hp].
  right. exists [(base, flat)].
  assert (Ho2 : pump_over (mat ++ [(base, flat)])
    (set_ack (set_next p c2s s2c) acked pending)).
  { destruct Ho' as (A & B & C & D & F & G & I & J). unfold pump_over.
    split_and!; auto. }
  split_and!; auto. intros d c Hc Hd.
  pose proof (no_next_dir p d Hno) as Ha. rewrite Ha in Hd.
  specialize (Hp d c Hc Hd).
  replace (ahead (set_ack (set_next p c2s s2c) acked pending) d) with true
    by (destruct d; reflexivity).
  split; [exact Hp|]. rewrite Ha. unfold plane_bundle, last_id.
  rewrite length_app. simpl. lia.
Qed.

Lemma prefetch_over mat p (s s' : S) log log' p' r :
  pump_over mat p -> Z.of_nat (length mat) < U64_MAX ->
  server_prefetch p (s, log) = (p', (s', log'), r) ->
  control_moved mat p log p' log'.
Proof.
  intros Ho Hlt E. pose proof Ho as (Hcl & _). unfold server_prefetch in E.
  rewrite Hcl in E. case_match_in E.
  { injection E as <- <- <- <-. apply control_closed; reflexivity. }
  destruct (no_next p) eqn:Hno; cbn [negb] in E.
  2:{ injection E as <- <- <- <-. apply control_still; auto. }
  unfold prefetch in E. cbn [reserve_next_bundle logged_source] in E.
  unfold logged_next in E. cbn [fst snd] in E.
  destruct (reserve_next_bundle s) as [s1 [[base flat]|e]] eqn:En.
  - destruct (split_bundle _ base flat) as [c2s s2c] eqn:Esp.
    injection E as <- <- <- <-.
    destruct (reserve_next_typed _ _ _ _ En) as [Hb Hf].
    apply control_grown; auto.
  - injection E as <- <- <- <-. apply control_closed; reflexivity.
Qed.

Lemma on_control_over mat p msg (s s' : S) log log' p' r :
  pump_over mat p -> Z.of_nat (length mat) < U64_MAX -> wf_control msg ->
  on_control p msg (s, log) = (p', (s', log'), r) ->
  control_moved mat p log p' log'.
Proof.
  intros Ho Hlt Hm E. pose proof Ho as (Hcl & _). unfold on_control in E.
  rewrite Hcl in E.
  destruct msg as [id base|id| |].
  - do 2 (case_match_in E; [injection E as <- <- <- <-;
      apply control_closed; auto; fail|]).
    destruct (no_next p) eqn:Hno; cbn [negb] in E;
      [|injection E as <- <- <- <-; apply control_closed; auto].
    match goal with H : negb (id =? _) = false |- _ =>
      apply negb_false_iff, Z.eqb_eq in H; subst id end.
    cbn [reserve_bundle_at logged_source] in E. unfold logged_at in E.
    cbn [fst snd] in E.
    destruct (reserve_bundle_at s base) as [s1 [flat|e]] eqn:En.
    + destruct (split_bundle _ base flat) as [c2s s2c] eqn:Esp.
      injection E as <- <- <- <-. pose proof (reserve_at_typed _ _ _ _ En).
      apply (control_grown mat p log base flat c2s s2c
        (fp_next_acked p) (fp_pending_ack p)); auto. apply Hm.
    + injection E as <- <- <- <-. apply control_closed; auto.
  - case_match_in E; [injection E as <- <- <- <-; apply control_closed; auto|].
    case_match_in E; [injection E as <- <- <- <-; apply control_closed; auto|].
    injection E as <- <- <- <-. apply control_still; auto.
  - case_match_in E; [injection E as <- <- <- <-; apply control_closed; auto|].
    destruct (server_prefetch p (s, log)) as [[p1 [s1 log1]] r1] eqn:Ep.
    injection E as <- <- <- <-. eapply prefetch_over; eauto.
  - injection E as <- <- <- <-. apply control_closed; auto.
    unfold pump_close. rewrite Hcl. reflexivity.
Qed.

(** A closed pump stays closed and gives out nothing. *)
Lemma closed_step p (s : S) op :
  fp_closed p = true -> pump_step p s op = (p, s, []).
Proof.
  intros Hc. destruct op; simpl; unfold send, receive, on_control,
    server_prefetch, pump_close; rewrite Hc; reflexivity.
Qed.

Lemma closed_run ops : forall p (s : S),
  fp_closed p = true -> pump_run p s ops = (p, s, []).
Proof.
  induction ops as [|op ops IH]; intros p s Hc; simpl; [reflexivity|].
  rewrite closed_step, IH by exact Hc. reflexivity.
Qed.

End Trace.

(** ** Pad bytes are used once *)

Section PadUse.
Context `{Poly1305} {S : Type} `{PadSource S}.

(** A record's place in its pad half: it takes the 32 bytes of its key and the
    bytes of its pad from [start] on. *)
Definition pad_end (r : OtpDataRecord) : Z :=
  od_pad_offset r + 32 + Z.of_nat (length (od_ciphertext r)).

Definition ends_before (r : OtpDataRecord) (bundle offset : Z) : Prop :=
  od_bundle_id r < bundle \/ od_bundle_id r = bundle /\ pad_end r <= offset.

Definition uses_before (r1 r2 : OtpDataRecord) : Prop :=
  ends_before r1 (od_bundle_id r2) (od_pad_offset r2).

(** The record is made of its own bytes of the material. *)
Definition made_from (mat : Material) (d : Direction) (r : OtpDataRecord) :
  Prop :=
  let k := Z.to_nat (od_bundle_id r) in
  let o := Z.to_nat (od_pad_offset r) in
  let l := length (od_ciphertext r) in
  let half := bundle_half mat k d in
  (k < length mat)%nat /\ 0 <= od_bundle_id r /\ 0 <= od_pad_offset r /\
  (1 <= l)%nat /\ pad_end r <= PAD_HALF /\ od_direction r = d /\
  od_base_segment r = bundle_base mat k d /\
  (exists pt, length pt = l /\
     od_ciphertext r = zip_with xor_byte pt (slice (o + 32) (o + 32 + l) half)) /\
  od_tag r = poly1305 (slice o (o + 32) half)
    (mac_input (canonical_header d (od_bundle_id r) (od_base_segment r)
                  (od_record_seq r) (od_pad_offset r) l) (od_ciphertext r)).

Lemma made_from_app mat x d r : made_from mat d r -> made_from (mat ++ x) d r.
Proof.
  unfold made_from, bundle_half, bundle_base. intros (Hk & Hr).
  assert (E : nth (Z.to_nat (od_bundle_id r)) (mat ++ x) (0, []) =
    nth (Z.to_nat (od_bundle_id r)) mat (0, [])) by (apply app_nth1, Hk).
  rewrite E, length_app. split; [lia | exact Hr].
Qed.

Lemma sealed_made_from mat k d c q pt :
  wf_material mat -> (k < length mat)%nat -> (1 <= length pt)%nat ->
  Z.of_nat (c + 32 + length pt) <= 4096 ->
  let r := sealed_record (stream_at mat k d c) d q pt in
  made_from mat d r /\ length (od_ciphertext r) = length pt /\
  od_bundle_id r = Z.of_nat k /\ od_pad_offset r = Z.of_nat c /\
  od_record_seq r = q.
Proof.
  intros Hw Hk H1 H2 r.
  assert (Hl : length (od_ciphertext r) = length pt).
  { unfold r, sealed_record. cbn [od_ciphertext].
    rewrite length_zip_with, pad_bytes_stream_at, length_slice; [lia|].
    rewrite length_bundle_half by auto. unfold PAD_HALF. lia. }
  split_and!; try reflexivity; [|exact Hl].
  unfold made_from, pad_end. rewrite Hl. unfold r.
  cbn [sealed_record od_bundle_id od_pad_offset od_direction od_base_segment
    od_ciphertext od_tag od_record_seq stream_at ps_bundle_id ps_base_segment
    ps_cursor].
  fold (stream_at mat k d c).
  rewrite !Nat2Z.id, pad_key_stream_at, pad_bytes_stream_at by (auto; lia).
  unfold PAD_HALF. split_and!; auto; try lia. eauto.
Qed.

(** The invariant of a history. *)
Definition trace_inv (d : Direction) (mat : Material) (p : FullOtpPump)
  (recs : list OtpDataRecord) : Prop :=
  counts_from 0 (map od_record_seq recs) /\
  Forall (made_from mat d) recs /\
  ForallOrdPairs uses_before recs /\
  (fp_closed p = true \/
   pump_over mat p /\ pump_send_dir p = d /\
   fp_send_seq p = Z.of_nat (length recs) /\
   exists c, Z.of_nat c <= 4096 /\ plane p d = plane_at mat (ahead p d) d c /\
     Forall (fun r => ends_before r (Z.of_nat (plane_bundle mat (ahead p d)))
                        (Z.of_nat c)) recs).

Lemma ForallOrdPairs_snoc {A} (R : A -> A -> Prop) l x :
  ForallOrdPairs R l -> Forall (fun y => R y x) l ->
  ForallOrdPairs R (l ++ [x]).
Proof.
  induction 1 as [|y l Hy Hl IH]; intros Hx; simpl.
  - constructor; constructor.
  - inversion Hx; subst. constructor; [|apply IH; auto].
    apply Forall_app. auto.
Qed.

Lemma ends_before_mono r k c k' c' :
  ends_before r k c -> k < k' \/ k = k' /\ c <= c' -> ends_before r k' c'.
Proof. unfold ends_before. lia. Qed.

Lemma send_trace d mat p recs pt p' r :
  trace_inv d mat p recs -> fp_closed p = false -> send p pt = (p', r) ->
  trace_inv d mat p'
    (recs ++ match r with Some (Ok (SoRecord rec _ _)) => [rec] | _ => [] end).
Proof.
  intros (T1 & T2 & T3 & [T4|(Ho & Hd & Hq & c0 & Hc0 & Hpl & Hall)]) Hcl E;
    [congruence|].
  pose proof (send_over mat p pt p' r Ho E) as Hs.
  pose proof Ho as (_ & Hw & Hne & _).
  assert (Hquiet : p' = p \/ fp_closed p' = true ->
    trace_inv d mat p' (recs ++ [])).
  { rewrite app_nil_r. intros [->|Hx]; unfold trace_inv; split_and!; auto.
    right. split_and!; eauto. }
  destruct r as [[[rec l need|]|[]]|]; try contradiction; try (apply Hquiet; tauto).
  destruct Hs as (k & c & (Hpos & Hc & Hpt & Hrec & Hlt & Hsq & _ & Hf & _ & Hpl'
    & Hk & Hah & Hoth) & Hl & Ho'). rewrite Hd in *.
  destruct Hpos as (c0' & Hc0' & Hpl0 & Hpos). rewrite Hd in *.
  assert (c0' = c0) as ->.
  { rewrite Hpl in Hpl0. apply (f_equal (fun x => ps_cursor (dp_current x))) in Hpl0.
    rewrite !current_plane_at in Hpl0. cbn in Hpl0. lia. }
  destruct (taken_bounds pt c Hpt Hc) as (B1 & B2 & B3).
  assert (Hkl : (k < length mat)%nat) by (rewrite <- Hk; apply plane_bundle_lt, Hne).
  destruct (sealed_made_from mat k d c (fp_send_seq p) (take (taken pt c) pt)
    Hw Hkl) as (M & ML & MB & MO & MQ); rewrite ?B3; try lia.
  rewrite <- Hrec in M, ML, MB, MO, MQ.
  assert (Hbefore : Forall (fun r => ends_before r (Z.of_nat k) (Z.of_nat c)) recs).
  { eapply Forall_impl; [|exact Hall]. cbn. intros x Hx.
    eapply ends_before_mono; [exact Hx|].
    case_bool_decide; [right; destruct Hpos as [Ek Ec]; rewrite Ek, Ec; lia|].
    destruct Hpos as (Ha & _ & -> & ->). rewrite Ha.
    left. unfold plane_bundle, last_id.
    pose proof (proj1 (proj2 (proj2 (proj2 (proj2 (proj2 (proj2 Ho)))))) d Ha). lia. }
  unfold trace_inv. split_and!.
  - rewrite map_app. apply counts_from_app; [exact T1|]. simpl.
    rewrite length_map. split; [lia | exact I].
  - apply Forall_app. split; [exact T2|]. constructor; [exact M | constructor].
  - apply ForallOrdPairs_snoc; [exact T3|]. unfold uses_before.
    rewrite MB, MO. exact Hbefore.
  - right. assert (Hd' : pump_send_dir p' = d).
    { rewrite <- Hd. unfold pump_send_dir. rewrite (proj1 Hf). reflexivity. }
    split_and!; auto; [rewrite Hsq, Hq, length_app; simpl; lia|].
    exists (c + 32 + taken pt c)%nat. split_and!; auto. rewrite Hk.
    apply Forall_app. split.
    + eapply Forall_impl; [|exact Hbefore]. cbn. intros x Hx.
      eapply ends_before_mono; [exact Hx|]. lia.
    + constructor; [|constructor]. right. unfold pad_end.
      rewrite MB, MO, ML, B3. lia.
Qed.

(** A call that gives out no record keeps the invariant. *)
Lemma quiet_trace d mat ext p p' recs :
  trace_inv d mat p recs ->
  (fp_closed p' = true \/
   pump_over (mat ++ ext) p' /\ fp_role p' = fp_role p /\
   fp_send_seq p' = fp_send_seq p /\
   (forall c, Z.of_nat c <= 4096 -> plane p d = plane_at mat (ahead p d) d c ->
      plane p' d = plane_at (mat ++ ext) (ahead p' d) d c /\
      plane_bundle (mat ++ ext) (ahead p' d) = plane_bundle mat (ahead p d))) ->
  (fp_closed p = true -> p' = p) ->
  trace_inv d (mat ++ ext) p' recs.
Proof.
  intros (T1 & T2 & T3 & T4) Hq Hc. unfold trace_inv. split_and!; auto.
  - eapply Forall_impl; [|exact T2]. cbn. intros. apply made_from_app. auto.
  - destruct Hq as [Hx|(Ho & R & E & Hp)]; [auto|].
    destruct T4 as [Hx|(_ & Hd & Hs & c & Hcc & Hpl & Hall)].
    { left. rewrite Hc by exact Hx. exact Hx. }
    right. destruct (Hp c Hcc Hpl) as [P1 P2]. split_and!; auto.
    + unfold pump_send_dir. rewrite R. exact Hd.
    + congruence.
    + exists c. rewrite P2. auto.
Qed.

Lemma step_trace d mat (p p' : FullOtpPump) (s s' : S) log log' op recs new :
  trace_inv d mat p recs -> Z.of_nat (length mat) < U64_MAX -> wf_op op ->
  pump_step p (s, log) op = (p', (s', log'), new) ->
  exists ext, log' = log ++ ext /\ (length ext <= 1)%nat /\
    trace_inv d (mat ++ ext) p' (recs ++ new).
Proof.
  intros HT Hlt Hwf E. destruct (fp_closed p) eqn:Hcl.
  { rewrite closed_step in E by exact Hcl. injection E as <- <- <- <-.
    exists []. rewrite !app_nil_r. split_and!; auto. }
  destruct HT as (T1 & T2 & T3 & [T4|T4]); [congruence|].
  pose proof T4 as (Ho & Hd & _).
  assert (HT : trace_inv d mat p recs) by (unfold trace_inv; auto).
  assert (Hctl : control_moved mat p log p' log' -> new = [] ->
    exists ext, log' = log ++ ext /\ (length ext <= 1)%nat /\
      trace_inv d (mat ++ ext) p' (recs ++ new)).
  { intros [[Hx He]|(e & He & Hl & Ho' & R & E1 & E2 & Hp)] ->;
      rewrite app_nil_r.
    - exists []. rewrite app_nil_r. split_and!; auto.
      apply (quiet_trace d mat [] p); auto. congruence.
    - exists e. split_and!; auto. apply (quiet_trace d mat e p); auto; [|congruence].
      right. split_and!; auto. }
  assert (Hsame : forall q, q = p' -> s' = s -> log' = log -> new = [] ->
    fp_closed p' = true \/
    pump_over mat p' /\ fp_role p' = fp_role p /\
    fp_send_seq p' = fp_send_seq p /\ plane p' d = plane p d ->
    exists ext, log' = log ++ ext /\ (length ext <= 1)%nat /\
      trace_inv d (mat ++ ext) p' (recs ++ new)).
  { intros q -> -> -> -> Hx. exists []. rewrite !app_nil_r. split_and!; auto.
    pose proof (quiet_trace d mat [] p p' recs HT) as Q. rewrite app_nil_r in Q.
    apply Q; [|congruence]. destruct Hx as [Hx|(A & B & C & D)]; [auto|].
    right. split_and!; auto. intros c Hc Hp. unfold ahead. rewrite D. auto. }
  destruct op as [pt|frame|m| |]; cbn [pump_step] in E.
  - destruct (send p pt) as [q r] eqn:Es. injection E as <- <- <- <-.
    exists []. rewrite !app_nil_r. split_and!; auto. eapply send_trace; eauto.
  - destruct (receive p frame) as [q r] eqn:Er. injection E as <- <- <- <-.
    apply (Hsame q); auto.
    pose proof (receive_over mat p frame q r Ho ltac:(lia) Er) as Hr.
    destruct r as [[[pt need]|e]|]; [| |contradiction].
    + destruct Hr as (k & c & (r & _ & _ & _ & _ & _ & _ & R1 & R2 & _ & _ & _ & _ & R3)
        & R4). right. split_and!; auto; [apply R2|]. apply R3.
      rewrite <- Hd. unfold pump_recv_dir. intros X.
      apply (opposite_ne (pump_send_dir p)). auto.
    + destruct Hr as [Hx|[-> _]]; [auto|]. right. auto.
  - destruct (on_control p m (s, log)) as [[q [s1 l1]] r] eqn:Em.
    injection E as <- <- <- <-. apply Hctl; [|reflexivity].
    eapply on_control_over; eauto.
  - destruct (server_prefetch p (s, log)) as [[q [s1 l1]] r] eqn:Ep.
    injection E as <- <- <- <-. apply Hctl; [|reflexivity].
    eapply prefetch_over; eauto.
  - injection E as <- <- <- <-. apply (Hsame (pump_close p)); auto.
    left. unfold pump_close. rewrite Hcl. reflexivity.
Qed.

Lemma run_trace ops : forall d mat (p p' : FullOtpPump) (s s' : S) log log' recs new,
  trace_inv d mat p recs ->
  Z.of_nat (length mat) + Z.of_nat (length ops) <= U64_MAX ->
  Forall wf_op ops ->
  pump_run p (s, log) ops = (p', (s', log'), new) ->
  exists ext, log' = log ++ ext /\ trace_inv d (mat ++ ext) p' (recs ++ new).
Proof.
  induction ops as [|op ops IH]; intros d mat p p' s s' log log' recs new HT Hb
    Hwf E; cbn [pump_run] in E.
  - injection E as <- <- <- <-. exists []. rewrite !app_nil_r. auto.
  - destruct (pump_step p (s, log) op) as [[p1 [s1 log1]] n1] eqn:E1.
    destruct (pump_run p1 (s1, log1) ops) as [[p2 [s2 log2]] n2] eqn:E2.
    injection E as <- <- <- <-. apply Forall_cons_iff in Hwf as [Hw1 Hw2].
    cbn [length] in Hb.
    destruct (step_trace d mat p p1 s s1 log log1 op recs n1 HT ltac:(lia) Hw1 E1)
      as (e1 & -> & Hl1 & T1).
    destruct (IH d (mat ++ e1) p1 p2 s1 s2 (log ++ e1) log2 (recs ++ n1) n2 T1)
      as (e2 & -> & T2); auto.
    { rewrite length_app. lia. }
    exists (e1 ++ e2). rewrite !app_assoc in *. auto.
Qed.

Lemma pump_new_over role base flat :
  is_u64 base -> length flat = Z.to_nat BUNDLE_BYTES ->
  pump_over [(base, flat)] (pump_new role base flat).
Proof.
  intros Hb Hf. unfold pump_over. split_and!; try reflexivity; try ulia.
  - constructor; [auto | constructor].
  - discriminate.
  - cbn. ulia.
  - cbn. ulia.
  - intros d. destruct d; discriminate.
  - intros d. exists 0%nat. split; [lia|]. destruct d; reflexivity.
Qed.

End PadUse.

Section Theorems.
Context `{Poly1305} {S : Type} `{PadSource S}.

(** C6: pad bytes are used once.  In any history of a pump (any plaintexts, any
    frames and control messages from the peer, any answers of the source, fewer
    than 2^64 calls) the records it gives out are numbered 0, 1, 2, ...; each is
    made of its own 32 key bytes and its own pad bytes of the half, for the
    pump's direction, of a bundle the source handed out; and the ranges of any
    two records are disjoint: a later record is in a later bundle or starts
    where the earlier one ended, or further. *)
Theorem pad_used_once role base flat (s : S) ops p s' log recs :
  is_u64 base -> length flat = Z.to_nat BUNDLE_BYTES ->
  Forall wf_op ops -> Z.of_nat (length ops) < U64_MAX ->
  pump_run (pump_new role base flat) (s, [] : Material) ops = (p, (s', log), recs) ->
  counts_from 0 (map od_record_seq recs) /\
  Forall (made_from ((base, flat) :: log) (role_send_direction role)) recs /\
  ForallOrdPairs uses_before recs.
Proof.
  intros Hb Hf Hwf Hn E.
  assert (T0 : trace_inv (role_send_direction role) [(base, flat)]
    (pump_new role base flat) []).
  { unfold trace_inv. split; [exact I|]. split; [constructor|].
    split; [constructor|]. right. pose proof (pump_new_over role base flat Hb Hf) as Ho.
    split_and!; auto. exists 0%nat. split_and!; [lia | | constructor].
    destruct role; reflexivity. }
  destruct (run_trace ops _ _ _ _ _ _ _ _ _ _ T0 ltac:(cbn; lia) Hwf E)
    as (ext & Hlog & T1 & T2 & T3 & _).
  cbn [app] in *. subst log. auto.
Qed.

(** What [receive] of a live pump accepts, and what it answers otherwise:
    an accepted frame is the next in sequence, sits exactly at the cursor of the
    current bundle or at the start of the next one held, carries the tag of the
    key bytes there, and yields the ciphertext xored with the pad bytes there;
    the cursor then moves past them and nothing else moves.  A refused frame
    closes the pump, except that a malformed one leaves it as it is.  It never
    panics. *)
Theorem receive_accepts mat p frame p' r :
  pump_over mat p -> Z.of_nat (length mat) <= U64_MAX ->
  receive p frame = (p', r) ->
  match r with
  | Some (Ok (MkReceived pt need)) =>
      exists k c, received_at mat p frame k c pt p' /\ pump_over mat p'
  | Some (Err e) =>
      fp_closed p' = true \/
      (p' = p /\ exists w, decode_frame frame = Err w /\ e = OeWire w)
  | None => False
  end.
Proof. apply receive_over. Qed.

(** What failing leaves: no next stream, the current ones zero and spent. *)
Definition wasted (p : FullOtpPump) : Prop :=
  fp_closed p = true /\
  forall d, dp_next (plane p d) = None /\
    ps_cursor (dp_current (plane p d)) = PAD_HALF /\
    all_zero (ps_buf (dp_current (plane p d))) = true.

Lemma all_zero_zeros' n : all_zero (zeros n) = true.
Proof. apply all_zero_spec. unfold zeros. rewrite repeat_length. reflexivity. Qed.

Lemma pump_fail_wasted p : wasted (pump_fail p).
Proof.
  split; [reflexivity|].
  intros []; (split; [reflexivity|]; split; [reflexivity|]; apply all_zero_zeros').
Qed.

Lemma pump_close_wasted p : fp_closed p = false -> wasted (pump_close p).
Proof. intros E. unfold pump_close. rewrite E. apply pump_fail_wasted. Qed.

Lemma set_pad_closed p d s : fp_closed (set_pad p d s) = fp_closed p.
Proof. reflexivity. Qed.

Lemma switch_closed p d q :
  switch_bundle p d = Some q -> fp_closed q = fp_closed p.
Proof.
  unfold switch_bundle. destruct (dp_next _); [|discriminate]. cbn.
  intros [= <-]. unfold refresh_ack_state_after_switch.
  destruct (no_next _); reflexivity.
Qed.

Lemma send_record_err p pt p' e :
  fp_closed p = false -> send_record p pt = (p', Some (Err e)) -> wasted p'.
Proof.
  intros Hc E. unfold send_record in E.
  destruct (seal_otp_record _ _ _ _) as [st [[rec|e0]|]]; [| |discriminate].
  - destruct (checked_add_u64 _ _); [discriminate|]. injection E as <- <-.
    apply pump_close_wasted, Hc.
  - injection E as <- <-. apply pump_fail_wasted.
Qed.

Lemma receive_record_err p peek frame p' e :
  fp_closed p = false -> receive_record p peek frame = (p', Some (Err e)) ->
  wasted p'.
Proof.
  intros Hc E. unfold receive_record in E.
  destruct (open_otp_record _ _ _) as [st [[pt|e0]|]]; [| |discriminate].
  - destruct (checked_add_u64 _ _); [discriminate|]. injection E as <- <-.
    apply pump_close_wasted, Hc.
  - injection E as <- <-. apply pump_fail_wasted.
Qed.

(** C19: failures are final.  On a live pump every error, except that of an
    empty plaintext or of a malformed frame, wastes all material and closes; so
    does [close]; and a closed pump answers CLOSED to everything, sends nothing,
    calls its source no more and does not change. *)
Theorem pump_fail_closed p (s : S) :
  (fp_closed p = false ->
     (forall pt p' e, send p pt = (p', Some (Err e)) ->
        (e = SdEmptyPlaintext /\ pt = [] /\ p' = p) \/ wasted p') /\
     (forall frame p' e, receive p frame = (p', Some (Err e)) ->
        (exists w, decode_frame frame = Err w /\ e = OeWire w /\ p' = p) \/
        wasted p') /\
     (forall m p' s' e, on_control p m s = (p', s', Err e) -> wasted p') /\
     (forall p' s' e, server_prefetch p s = (p', s', Err e) -> wasted p') /\
     wasted (pump_close p)) /\
  (fp_closed p = true ->
     (forall pt, send p pt = (p, Some (Err SdClosed))) /\
     (forall frame, receive p frame = (p, Some (Err OeClosed))) /\
     (forall m, on_control p m s = (p, s, Err (PuData OeClosed))) /\
     server_prefetch p s = (p, s, Ok None) /\ pump_close p = p).
Proof.
  split; intros Hc.
  2:{ unfold send, receive, on_control, server_prefetch, pump_close.
      rewrite Hc. auto. }
  assert (Hpf : forall p' s' e, server_prefetch p s = (p', s', Err e) -> wasted p').
  { intros p' s' e E. unfold server_prefetch, prefetch in E. rewrite Hc in E.
    case_match_in E; [injection E as <- _ _; apply pump_fail_wasted|].
    case_match_in E; [discriminate|].
    destruct (reserve_next_bundle s) as [s1 [[b f]|x]]; [discriminate|].
    injection E as <- _ _. apply pump_fail_wasted. }
  split_and!; [| | |exact Hpf | apply pump_close_wasted, Hc].
  - intros pt p' e E. unfold send in E. rewrite Hc in E.
    destruct pt as [|x pt]; [injection E as <- <-; auto|]. right.
    case_match_in E; [|eapply send_record_err; eauto].
    case_match_in E; [discriminate|].
    destruct (switch_bundle p (pump_send_dir p)) as [q|] eqn:Eq; [|discriminate].
    eapply send_record_err; [|exact E]. rewrite (switch_closed _ _ _ Eq). exact Hc.
  - intros frame p' e E. unfold receive in E. rewrite Hc in E.
    destruct (decode_frame frame) as [peek|w]; [|injection E as <- <-; eauto].
    right. case_match_in E; [injection E as <- <-; apply pump_fail_wasted|].
    destruct (receive_switch p _ peek) as [[q|u]|] eqn:Eq; [| |discriminate].
    + eapply receive_record_err; [|exact E]. unfold receive_switch in Eq.
      repeat case_match_in Eq; simplify_eq; auto;
        destruct (switch_bundle p _) as [q'|] eqn:Es; try discriminate;
        cbn in Eq; injection Eq as ->; rewrite (switch_closed _ _ _ Es); exact Hc.
    + injection E as <- <-. apply pump_fail_wasted.
  - intros m p' s' e E. unfold on_control in E. rewrite Hc in E.
    destruct m as [id base|id| |].
    + do 3 (case_match_in E; [injection E as <- _ _; apply pump_fail_wasted|]).
      destruct (reserve_bundle_at s base) as [s1 [f|x]];
        [|injection E as <- _ _; apply pump_fail_wasted].
      destruct (split_bundle id base f). discriminate.
    + do 2 (case_match_in E; [injection E as <- _ _; apply pump_fail_wasted|]).
      discriminate.
    + case_match_in E; [injection E as <- _ _; apply pump_fail_wasted|].
      destruct (server_prefetch p s) as [[q s1] [a|x]] eqn:Ep; [discriminate|].
      injection E as <- <- <-. eapply Hpf; reflexivity.
    + discriminate.
Qed.

(** One-way traffic stalls: a sender that has used up a bundle waits while the
    other direction has not left the bundle before, and the coordinator will
    not reserve another one. *)
Lemma one_way_stalls p (s : S) pt :
  fp_closed p = false -> fp_role p = Server -> pt <> [] ->
  max_record_len (dp_current (plane p ServerToClient)) = 0 ->
  ahead p ServerToClient = false -> ahead p ClientToServer = true ->
  send p pt = (p, Some (Ok SoBackpressure)) /\
  server_prefetch p s = (p, s, Ok None).
Proof.
  intros Hc Hr Hpt Hm Ha Hb. split.
  - unfold send, pump_send_dir. rewrite Hc, Hr. cbn [role_send_direction].
    destruct pt; [congruence|]. rewrite Hm. cbn [Z.eqb].
    unfold next_ready_for_send. fold (ahead p ServerToClient). rewrite Ha.
    reflexivity.
  - unfold server_prefetch. rewrite Hc, Hr, bool_decide_eq_true_2 by reflexivity.
    assert (no_next p = false) as ->; [|reflexivity].
    apply not_true_is_false. intros Hn. apply no_next_ahead in Hn as [Hn _].
    congruence.
Qed.

End Theorems.

(** ** Witnesses *)

(** A stand-in for Poly1305 that depends on every byte. *)
Definition sum_poly : Poly1305.
Proof.
  refine {| poly1305 := fun k m => be_bytes 16 (be_val (k ++ m)) |}.
  intros. apply length_be_bytes.
Defined.

#[local] Existing Instance sum_poly.

Definition demo_bundle (b : byte) : list byte := repeat b (Z.to_nat BUNDLE_BYTES).

Lemma length_demo_bundle b : length (demo_bundle b) = Z.to_nat BUNDLE_BYTES.
Proof. apply repeat_length. Qed.

(** A source that hands out the same bytes at every base. *)
Definition demo_source : PadSource Z.
Proof.
  refine {| reserve_next_bundle := fun n => (n, Ok (128, demo_bundle Byte.x77));
            reserve_bundle_at := fun n base => (n, Ok (demo_bundle Byte.x77)) |}.
  - intros s s' base flat [= <- <- <-]. split; [ulia | apply length_demo_bundle].
  - intros s s' base flat [= <- <-]. apply length_demo_bundle.
Defined.

#[local] Existing Instance demo_source.

Definition demo_ops : list PumpOp :=
  [PoSend [Byte.x01; Byte.x02]; PoControl (PadOffer 1 128); PoReceive [];
   PoSend [Byte.x03]].

Lemma pad_used_once_witness :
  let run := pump_run (pump_new Client 0 (demo_bundle Byte.x55)) (0, []) demo_ops in
  length (snd run) = 2%nat /\ ForallOrdPairs uses_before (snd run).
Proof.
  cbv zeta.
  assert (L : length (snd (pump_run (pump_new Client 0 (demo_bundle Byte.x55))
    (0, [] : Material) demo_ops)) = 2%nat) by (vm_compute; reflexivity).
  split; [exact L|]. clear L.
  destruct (pump_run (pump_new Client 0 (demo_bundle Byte.x55)) (0, []) demo_ops)
    as [[p [s log]] recs] eqn:E.
  apply (pad_used_once Client 0 (demo_bundle Byte.x55) 0 demo_ops p s log recs);
    [ulia | apply length_demo_bundle | | reflexivity | exact E].
  repeat constructor; cbn; ulia.
Defined.

Lemma receive_accepts_witness :
  let p := pump_new Server 0 (demo_bundle Byte.x55) in
  let sealed := sealed_record (stream_at [(0, demo_bundle Byte.x55)] 0
    ClientToServer 0) ClientToServer 0 [Byte.x01] in
  exists k c p', received_at [(0, demo_bundle Byte.x55)] p (encode_frame sealed)
    k c [Byte.x01] p'.
Proof.
  cbv zeta.
  set (p := pump_new Server 0 (demo_bundle Byte.x55)).
  set (f := encode_frame _).
  assert (R : match snd (receive p f) with
              | Some (Ok (MkReceived [x] _)) => x = Byte.x01 | _ => False end)
    by (vm_compute; reflexivity).
  destruct (receive p f) as [p' r] eqn:E. cbn [snd] in R.
  pose proof (receive_accepts [(0, demo_bundle Byte.x55)] p f p' r
    (pump_new_over Server 0 _ ltac:(ulia) (length_demo_bundle _))
    ltac:(vm_compute; congruence) E) as A.
  destruct r as [[[[|x [|]] need]|]|]; try contradiction. subst x.
  destruct A as (k & c & A & _). exists k, c, p'. exact A.
Defined.
