(* ===== verification/OtpLink.v ===== *)
(** * OtpLink: two full-OTP pumps over ordered channels

    A client and a server pump over one book of bundles, with a first-in
    first-out channel in each direction that carries data frames and control
    payloads as bytes, in the order they were sent.  Whatever the two callers
    do and however deliveries interleave, no call fails and the plaintext
    arrives in order. *)

From stdpp Require Import strings.
From S2P Require Export OtpPumpSpec.

#[local] Open Scope list_scope.
#[local] Open Scope Z_scope.

Section Link.
Context `{Poly1305}.

(** The bundles both ends reserve, in order: bundle 0 first. *)
Context (book : nat -> Z * list byte).
Context (book_typed : forall i,
  is_u64 (fst (book i)) /\ length (snd (book i)) = Z.to_nat BUNDLE_BYTES).

(** A source over the book: the next unreserved index. *)
#[local] Instance book_source : PadSource nat.
Proof.
  refine {|
    reserve_next_bundle := fun n => (S n, Ok (book n));
    reserve_bundle_at := fun n base =>
      if base =? fst (book n) then (S n, Ok (snd (book n)))
      else (n, Err (PsPointerMismatch (fst (book n)) base)) |}.
  - intros s s' base flat E. injection E as <- E. rewrite (surjective_pairing (book s)) in E.
    injection E as <- <-. apply book_typed.
  - intros s s' base flat E. case_match_in E; [|discriminate].
    injection E as <- <-. apply book_typed.
Defined.

Inductive Item := IData (frame : list byte) | ICtl (payload : list byte).

(** The pumps, queues and logs are indexed by the direction their owner or
    their data is sent in: the client is [ClientToServer]. *)
Record Net := MkNet {
  n_pumps : FullOtpPump * FullOtpPump;
  n_sources : nat * nat;
  n_queues : list Item * list Item;
  n_sent : list byte * list byte;
  n_rcvd : list byte * list byte;
  n_ok : bool;
}.

Definition net_init : Net :=
  let '(base, flat) := book 0 in
  MkNet (pump_new Client base flat, pump_new Server base flat) (1%nat, 1%nat)
    ([], []) ([], []) ([], []) true.

Definition net_pump (w : Net) (d : Direction) := at_dir (n_pumps w) d.
Definition net_queue (w : Net) (d : Direction) := at_dir (n_queues w) d.

Definition set_pump (w : Net) (d : Direction) (p : FullOtpPump) : Net :=
  MkNet (put_dir (n_pumps w) d p) (n_sources w) (n_queues w) (n_sent w)
    (n_rcvd w) (n_ok w).
Definition set_source (w : Net) (d : Direction) (s : nat) : Net :=
  MkNet (n_pumps w) (put_dir (n_sources w) d s) (n_queues w) (n_sent w)
    (n_rcvd w) (n_ok w).
Definition set_queue (w : Net) (d : Direction) (q : list Item) : Net :=
  MkNet (n_pumps w) (n_sources w) (put_dir (n_queues w) d q) (n_sent w)
    (n_rcvd w) (n_ok w).
Definition push (w : Net) (d : Direction) (i : list Item) : Net :=
  set_queue w d (net_queue w d ++ i).
Definition log_sent (w : Net) (d : Direction) (b : list byte) : Net :=
  MkNet (n_pumps w) (n_sources w) (n_queues w)
    (put_dir (n_sent w) d (at_dir (n_sent w) d ++ b)) (n_rcvd w) (n_ok w).
Definition log_rcvd (w : Net) (d : Direction) (b : list byte) : Net :=
  MkNet (n_pumps w) (n_sources w) (n_queues w) (n_sent w)
    (put_dir (n_rcvd w) d (at_dir (n_rcvd w) d ++ b)) (n_ok w).
Definition broken (w : Net) : Net :=
  MkNet (n_pumps w) (n_sources w) (n_queues w) (n_sent w) (n_rcvd w) false.

Definition action_item (a : PumpAction) : Item :=
  ICtl (encode_control
    match a with
    | SendPadNeed => PadNeed
    | SendPadOffer id base => PadOffer id base
    | SendPadAck id => PadAck id
    end).

(** What the callers and the channels may do. *)
Inductive NetAct :=
  | ActSend (d : Direction) (plaintext : list byte)
  | ActPrefetch
  | ActNeed
  | ActDeliver (d : Direction).

Definition do_send (w : Net) (d : Direction) (pt : list byte) : Net :=
  match send (net_pump w d) pt with
  | (p, Some (Ok (SoRecord r l _))) =>
      log_sent (push (set_pump w d p) d [IData (encode_frame r)]) d
        (take (Z.to_nat l) pt)
  | (p, Some (Ok SoBackpressure)) | (p, Some (Err SdEmptyPlaintext)) =>
      set_pump w d p
  | (p, _) => broken (set_pump w d p)
  end.

Definition do_control (w : Net) (d : Direction) (m : PadControl) : Net :=
  match on_control (net_pump w (opposite d)) m (at_dir (n_sources w) (opposite d)) with
  | (p, s, Ok actions) =>
      push (set_source (set_pump w (opposite d) p) (opposite d) s) (opposite d)
        (map action_item actions)
  | (p, s, Err _) => broken (set_pump w (opposite d) p)
  end.

Definition do_prefetch (w : Net) : Net :=
  match server_prefetch (net_pump w ServerToClient)
          (at_dir (n_sources w) ServerToClient) with
  | (p, s, Ok action) =>
      push (set_source (set_pump w ServerToClient p) ServerToClient s)
        ServerToClient (map action_item (option_list action))
  | (p, s, Err _) => broken (set_pump w ServerToClient p)
  end.

Definition do_data (w : Net) (d : Direction) (frame : list byte) : Net :=
  match receive (net_pump w (opposite d)) frame with
  | (p, Some (Ok r)) => log_rcvd (set_pump w (opposite d) p) d (rv_plaintext r)
  | (p, _) => broken (set_pump w (opposite d) p)
  end.

Definition net_step (w : Net) (act : NetAct) : Net :=
  match act with
  | ActSend d pt => do_send w d pt
  | ActPrefetch => do_prefetch w
  | ActNeed => push w ClientToServer [action_item SendPadNeed]
  | ActDeliver d =>
      match net_queue w d with
      | [] => w
      | i :: q =>
          let w := set_queue w d q in
          match i with
          | IData frame => do_data w d frame
          | ICtl payload =>
              match decode_control payload with
              | Ok m => do_control w d m
              | Err _ => broken w
              end
          end
      end
  end.

Definition net_run (acts : list NetAct) : Net := fold_left net_step acts net_init.

(** ** The channel invariant

    What is in a channel takes its receiver, step by step, to the state of
    its sender: bundle, cursor and sequence of the direction; the bundles the
    receiver knows of; and whether it still waits for a PAD_ACK. *)
Definition mats (n : nat) : Material := map book (seq 0 (S n)).

Definition data_item (d : Direction) (k c : nat) (q : Z) (pt : list byte) :
  Item := IData (encode_frame (sealed_record (stream_at (mats k) k d c) d q pt)).

Record ChanEnd := MkEnd {
  e_bundle : nat;
  e_cursor : nat;
  e_seq : Z;
  e_known : nat;
  e_waits : bool;
}.

Inductive chain (d : Direction) : ChanEnd -> list Item -> ChanEnd -> list byte -> Prop :=
  | chain_nil e : chain d e [] e []
  | chain_data k c q n a pt items e' rest :
      (1 <= length pt)%nat -> Z.of_nat (c + 32 + length pt) <= 4096 ->
      chain d (MkEnd k (c + 32 + length pt) (q + 1) n a) items e' rest ->
      chain d (MkEnd k c q n a) (data_item d k c q pt :: items) e' (pt ++ rest)
  | chain_switch k c q n a pt items e' rest :
      (S k <= n)%nat ->
      (1 <= length pt)%nat -> Z.of_nat (32 + length pt) <= 4096 ->
      chain d (MkEnd (S k) (32 + length pt) (q + 1) n a) items e' rest ->
      chain d (MkEnd k c q n a) (data_item d (S k) 0 q pt :: items) e' (pt ++ rest)
  | chain_offer c q n a items e' rest :
      d = ServerToClient -> chain d (MkEnd n c q (S n) a) items e' rest ->
      chain d (MkEnd n c q n a)
        (action_item (SendPadOffer (Z.of_nat (S n)) (fst (book (S n)))) :: items)
        e' rest
  | chain_ack k c q n items e' rest :
      d = ClientToServer -> chain d (MkEnd k c q n false) items e' rest ->
      chain d (MkEnd k c q n true)
        (action_item (SendPadAck (Z.of_nat n)) :: items) e' rest
  | chain_need e items e' rest :
      d = ClientToServer -> chain d e items e' rest ->
      chain d e (action_item SendPadNeed :: items) e' rest.

Lemma chain_mono d e items e' rest :
  chain d e items e' rest ->
  (e_bundle e <= e_bundle e')%nat /\ (e_known e <= e_known e')%nat /\
  e_seq e <= e_seq e' /\ (e_waits e = false -> e_waits e' = false).
Proof.
  induction 1; cbn in *; split_and!; try lia; auto; try tauto;
    repeat match goal with H : _ /\ _ |- _ => destruct H end; auto; lia.
Qed.

Lemma chain_app d e items e1 rest items2 e2 rest2 :
  chain d e items e1 rest -> chain d e1 items2 e2 rest2 ->
  chain d e (items ++ items2) e2 (rest ++ rest2).
Proof.
  induction 1; intros Hn; cbn; rewrite <- ?app_assoc;
    [exact Hn | constructor; auto ..].
Qed.

(** Without a waited-for ack, a later offer changes nothing in the queue of
    the client. *)
Lemma chain_reoffer k c q n items k' c' q' n' rest :
  chain ClientToServer (MkEnd k c q n false) items (MkEnd k' c' q' n' false) rest ->
  chain ClientToServer (MkEnd k c q (S n) true) items
    (MkEnd k' c' q' (S n') true) rest.
Proof.
  remember (MkEnd k c q n false) as e eqn:Ee.
  remember (MkEnd k' c' q' n' false) as e' eqn:Ee'.
  intros Hc. revert k c q n Ee.
  induction Hc; intros; subst; simplify_eq; try (constructor; auto; lia);
    try discriminate.
Qed.

(** ** The material of the book *)

Lemma length_mats n : length (mats n) = S n.
Proof. unfold mats. rewrite length_map, length_seq. reflexivity. Qed.

Lemma last_id_mats n : last_id (mats n) = n.
Proof. unfold last_id. rewrite length_mats. lia. Qed.

Lemma mats_S n : mats (S n) = mats n ++ [book (S n)].
Proof. unfold mats. rewrite (seq_S (S n)), map_app. reflexivity. Qed.

Lemma mats_ne n : mats n <> [].
Proof. intros E. pose proof (length_mats n). rewrite E in *. discriminate. Qed.

Lemma wf_mats n : wf_material (mats n).
Proof.
  unfold wf_material, mats. apply List.Forall_forall. intros b Hb.
  apply in_map_iff in Hb as (i & <- & _). apply book_typed.
Qed.

Lemma stream_mats n k d c :
  (k <= n)%nat -> stream_at (mats n) k d c = stream_at (mats k) k d c.
Proof.
  intros Hk. induction Hk as [|n Hk IH]; [reflexivity|].
  rewrite mats_S, stream_at_app, IH; [reflexivity | rewrite length_mats; lia].
Qed.

(** The bundle a pump that knows [n] bundles is in. *)
Definition pos (p : FullOtpPump) (n : nat) (d : Direction) : nat :=
  plane_bundle (mats n) (ahead p d).

Lemma pos_cases p n d :
  pos p n d = if ahead p d then (n - 1)%nat else n.
Proof. unfold pos, plane_bundle. rewrite last_id_mats. reflexivity. Qed.

Definition pump_pos (p : FullOtpPump) (role : Role) (n : nat) (c : nat * nat) :
  Prop :=
  pump_over (mats n) p /\ fp_role p = role /\
  forall d, Z.of_nat (at_dir c d) <= 4096 /\
    plane p d = plane_at (mats n) (ahead p d) d (at_dir c d).

Lemma pump_pos_ahead p role n c d :
  pump_pos p role n c -> ahead p d = true -> (1 <= n)%nat.
Proof.
  intros [Ho _] Ha. destruct Ho as (_ & _ & _ & _ & _ & _ & H2 & _).
  specialize (H2 d Ha). rewrite length_mats in H2. lia.
Qed.

(** Moving one plane of a pump. *)
Lemma pump_pos_move p role n c p' d cd :
  pump_pos p role n c -> pump_over (mats n) p' -> fp_role p' = fp_role p ->
  Z.of_nat cd <= 4096 ->
  plane p' d = plane_at (mats n) (ahead p' d) d cd ->
  (forall e, e <> d -> plane p' e = plane p e) ->
  pump_pos p' role n (put_dir c d cd) /\
  (forall e, e <> d -> pos p' n e = pos p n e /\ ahead p' e = ahead p e).
Proof.
  intros (Ho & Hr & Hp) Ho' Hr' Hc Hd Hoth. split.
  - unfold pump_pos. split_and!; [exact Ho' | congruence|]. intros e.
    destruct (decide (e = d)) as [->|Hn].
    + rewrite at_put_dir. auto.
    + rewrite at_put_dir_other by auto. unfold ahead. rewrite Hoth by auto.
      apply Hp.
  - intros e Hn. unfold pos, ahead. rewrite Hoth by auto. auto.
Qed.

Lemma same_pos p role n c d k0 b :
  pump_pos p role n c -> pump_over (mats n) p ->
  plane p d = plane_at (mats n) b d k0 -> k0 = at_dir c d.
Proof.
  intros (_ & _ & Hp) _ E. destruct (Hp d) as [_ E']. rewrite E in E'.
  apply (f_equal (fun x => ps_cursor (dp_current x))) in E'.
  rewrite !current_plane_at in E'. cbn in E'. lia.
Qed.

(** ** Receiving what the peer sealed *)

Lemma receive_record_ok mat p d b c pt :
  let k := plane_bundle mat b in
  let r := sealed_record (stream_at mat k d c) d (fp_recv_seq p) pt in
  pump_over mat p -> d = pump_recv_dir p -> plane p d = plane_at mat b d c ->
  Z.of_nat (length mat) <= U64_MAX ->
  (1 <= length pt)%nat -> Z.of_nat (c + 32 + length pt) <= 4096 ->
  fp_recv_seq p < U64_MAX ->
  wf_frame r /\
  exists need p', receive_record p r (encode_frame r) =
    (p', Some (Ok (MkReceived pt need))).
Proof.
  intros k r Ho Hd Hpl Hlen H1 H2 Hq.
  pose proof Ho as (_ & Hw & Hne & _ & _ & Hr & _).
  assert (Hk : (k < length mat)%nat) by (apply plane_bundle_lt, Hne).
  destruct (open_sealed (stream_at mat k d c)
    (MkOpenExpect d (Z.of_nat k) (bundle_base mat k d) (fp_recv_seq p)) d
    (fp_recv_seq p) pt) as [Hwf Hop];
    [apply wf_stream_at; [exact Hw | exact Hk | lia] | cbn; ulia
    | apply bundle_base_u64; auto | exact Hr
    | apply sealable_stream_at; auto | reflexivity |].
  split; [exact Hwf|]. unfold receive_record. rewrite <- Hd, Hpl, current_plane_at.
  fold k. cbn [ps_bundle_id ps_base_segment stream_at]. fold (stream_at mat k d c).
  unfold r. rewrite Hop. cbv zeta.
  assert (E : checked_add_u64 (fp_recv_seq p) 1 = Some (fp_recv_seq p + 1))
    by (apply checked_add_u64_some; lia).
  match goal with |- context [checked_add_u64 ?x 1] =>
    change (checked_add_u64 x 1) with (checked_add_u64 (fp_recv_seq p) 1) end.
  rewrite E. eauto.
Qed.

(** A frame of a live pump's next position is delivered. *)
Lemma receive_delivers p role n c d k cc pt :
  pump_pos p role n c -> d = pump_recv_dir p -> Z.of_nat (S n) <= U64_MAX ->
  (k = pos p n d /\ cc = at_dir c d) \/
    ((S (pos p n d) = k)%nat /\ (k <= n)%nat /\ cc = 0%nat) ->
  (1 <= length pt)%nat -> Z.of_nat (cc + 32 + length pt) <= 4096 ->
  fp_recv_seq p < U64_MAX ->
  exists need p', receive p (encode_frame (sealed_record
      (stream_at (mats n) k d cc) d (fp_recv_seq p) pt)) =
    (p', Some (Ok (MkReceived pt need))).
Proof.
  intros Hp Hd Hn Hpos H1 H2 Hq. pose proof Hp as (Ho & Hrole & Hpl).
  pose proof Ho as (Hcl & _). destruct (Hpl d) as [Hc Epl].
  assert (Hlen : Z.of_nat (length (mats n)) <= U64_MAX) by (rewrite length_mats; lia).
  assert (Hk : (k <= n)%nat).
  { destruct Hpos as [[-> _]|(_ & Hk & _)]; [|exact Hk].
    rewrite pos_cases. destruct (ahead p d); lia. }
  set (r := sealed_record (stream_at (mats n) k d cc) d (fp_recv_seq p) pt).
  assert (Hid : od_bundle_id r = Z.of_nat k /\ od_direction r = d) by auto.
  destruct Hid as [Hid Hdir].
  unfold receive. rewrite Hcl, <- Hd.
  destruct Hpos as [[-> ->]|(HS & _ & ->)].
  - destruct (receive_record_ok (mats n) p d (ahead p d) (at_dir c d) pt Ho Hd
      Epl Hlen H1 H2 Hq) as [Hwf (need & p' & E)]. fold (pos p n d) in *.
    fold r in Hwf, E. rewrite decode_frame_complete by exact Hwf.
    rewrite Hdir, bool_decide_eq_true_2 by reflexivity. cbn [negb].
    unfold receive_switch. rewrite Epl, current_plane_at.
    cbn [ps_bundle_id stream_at]. fold (pos p n d).
    unfold wrap64. rewrite Z.mod_small by ulia. rewrite Hid.
    rewrite (proj2 (Z.eqb_neq _ _)) by lia. exists need, p'. exact E.
  - assert (Ha : ahead p d = true).
    { rewrite pos_cases in HS. destruct (ahead p d); [reflexivity | lia]. }
    assert (k = n) as ->.
    { rewrite pos_cases, Ha in HS. pose proof (pump_pos_ahead _ _ _ _ _ Hp Ha). lia. }
    destruct (switch_over (mats n) p d Ho Ha)
      as (p1 & Esw & Ho1 & Hf & Hd1 & Hoth & Es1 & Er1 & Ea1).
    assert (Hd' : d = pump_recv_dir p1).
    { rewrite Hd. unfold pump_recv_dir, pump_send_dir. rewrite (proj1 Hf). auto. }
    destruct (receive_record_ok (mats n) p1 d false 0 pt Ho1 Hd' Hd1 Hlen H1 H2
      ltac:(lia)) as [Hwf (need & p' & E)].
    cbn [plane_bundle] in Hwf, E. rewrite last_id_mats, Er1 in Hwf, E.
    fold r in Hwf, E. rewrite decode_frame_complete by exact Hwf.
    rewrite Hdir, bool_decide_eq_true_2 by reflexivity. cbn [negb].
    unfold receive_switch. rewrite Epl, current_plane_at.
    cbn [ps_bundle_id stream_at]. fold (pos p n d).
    unfold wrap64. rewrite Z.mod_small by ulia. rewrite Hid.
    rewrite (proj2 (Z.eqb_eq _ _)) by lia.
    rewrite Ha. cbn [plane_at dp_next ps_bundle_id stream_at].
    rewrite last_id_mats, Z.eqb_refl. cbn [negb].
    rewrite Esw. cbn [option_map]. exists need, p'. exact E.
Qed.

(** ... and the pump moves past it. *)
Lemma receive_moves p role n c frame p' pt need :
  pump_pos p role n c -> Z.of_nat (S n) <= U64_MAX ->
  receive p frame = (p', Some (Ok (MkReceived pt need))) ->
  let d := pump_recv_dir p in
  exists k cc, received_at (mats n) p frame k cc pt p' /\
    pump_pos p' role n (put_dir c d (cc + 32 + length pt)%nat) /\
    pos p' n d = k /\
    (forall e, e <> d -> pos p' n e = pos p n e /\ ahead p' e = ahead p e).
Proof.
  intros Hp Hn E d. pose proof Hp as (Ho & Hrole & Hpl).
  pose proof (receive_over (mats n) p frame p' _ Ho
    ltac:(rewrite length_mats; exact Hn) E) as (k & cc & Hrc & Ho').
  pose proof Hrc as (r & Hdec & Hop & Hacc & Hpt & _ & _ & _ & Hf & _ & Hpl' & Hk & _ & Hoth).
  fold d in Hpl', Hk, Hoth, Hop, Hacc, Hpt.
  assert (Hl : length pt = length (od_ciphertext r)).
  { destruct Hacc as (_ & _ & _ & _ & _ & Hfit & _). apply fits_stream_at in Hfit.
    rewrite Hpt, length_zip_with, pad_bytes_stream_at, length_slice; [lia|].
    rewrite length_bundle_half;
      [unfold PAD_HALF; lia | apply wf_mats |].
    rewrite <- Hk. apply plane_bundle_lt, mats_ne. }
  exists k, cc. split; [exact Hrc|].
  assert (Hcc : Z.of_nat (cc + 32 + length pt) <= 4096).
  { destruct Hacc as (_ & _ & _ & _ & _ & Hfit & _). apply fits_stream_at in Hfit.
    rewrite Hl. exact Hfit. }
  destruct (pump_pos_move p role n c p' d (cc + 32 + length pt) Hp Ho'
    (proj1 Hf) Hcc ltac:(rewrite Hl; exact Hpl') Hoth) as [A B].
  split_and!; auto; apply B.
Qed.

(** How a pump moved in direction [d]. *)
Definition moved (p p' : FullOtpPump) (role : Role) (n : nat) (c : nat * nat)
  (d : Direction) (k cc : nat) : Prop :=
  pump_pos p' role n (put_dir c d cc) /\ pos p' n d = k /\
  fp_pending_ack p' = fp_pending_ack p /\
  (fp_next_acked p' = true -> fp_next_acked p = true) /\
  forall e, e <> d -> pos p' n e = pos p n e /\ ahead p' e = ahead p e.

Lemma receive_step p role n c d k cc pt :
  pump_pos p role n c -> d = pump_recv_dir p -> Z.of_nat (S n) <= U64_MAX ->
  (k = pos p n d /\ cc = at_dir c d) \/
    ((S (pos p n d) = k)%nat /\ (k <= n)%nat /\ cc = 0%nat) ->
  (1 <= length pt)%nat -> Z.of_nat (cc + 32 + length pt) <= 4096 ->
  fp_recv_seq p < U64_MAX ->
  exists need p', receive p (encode_frame (sealed_record
      (stream_at (mats k) k d cc) d (fp_recv_seq p) pt)) =
    (p', Some (Ok (MkReceived pt need))) /\
    moved p p' role n c d k (cc + 32 + length pt)%nat /\
    fp_recv_seq p' = fp_recv_seq p + 1 /\ fp_send_seq p' = fp_send_seq p.
Proof.
  intros Hp Hd Hn Hpos H1 H2 Hq.
  assert (Hk : (k <= n)%nat).
  { destruct Hpos as [[-> _]|(_ & Hk & _)]; [|exact Hk].
    rewrite pos_cases. destruct (ahead p d); lia. }
  rewrite <- (stream_mats n k d cc Hk).
  destruct (receive_delivers p role n c d k cc pt Hp Hd Hn Hpos H1 H2 Hq)
    as (need & p' & E).
  exists need, p'. split; [exact E|].
  destruct (receive_moves p role n c _ p' pt need Hp Hn E)
    as (k' & cc' & Hrc & Hp' & Hk' & Hoth).
  rewrite <- Hd in Hp', Hk', Hoth.
  destruct Hrc as (r & Hdec & _ & Hacc & _ & _ & Hr1 & Hs1 & Hf & Hack & _).
  pose proof Hp as (Ho & _). pose proof Ho as (_ & Hw & Hne & _ & _ & Hru & _).
  destruct (open_sealed (stream_at (mats n) k d cc)
    (MkOpenExpect d (Z.of_nat k) (bundle_base (mats n) k d) (fp_recv_seq p)) d
    (fp_recv_seq p) pt) as [Hwf _];
    [apply wf_stream_at; [exact Hw | rewrite length_mats; lia | lia]
    | cbn; ulia | apply bundle_base_u64; [exact Hw | rewrite length_mats; lia]
    | exact Hru | apply sealable_stream_at; auto | reflexivity |].
  rewrite decode_frame_complete in Hdec by exact Hwf. apply ok_inj in Hdec.
  destruct Hacc as (_ & Hb & _ & _ & Hoff & _). rewrite <- Hdec in Hb, Hoff.
  cbn in Hb, Hoff. assert (k' = k /\ cc' = cc) as [-> ->] by lia.
  split; [|auto]. unfold moved. split_and!; auto; apply Hf.
Qed.

(** Sending moves a pump and seals at its position, or at the next bundle's. *)
Lemma send_step p role n c pt p' res :
  pump_pos p role n c -> Z.of_nat (S n) <= U64_MAX -> fp_send_seq p < U64_MAX ->
  send p pt = (p', res) ->
  let d := pump_send_dir p in
  (p' = p /\ (res = Some (Ok SoBackpressure) \/ res = Some (Err SdEmptyPlaintext))) \/
  exists k cc l need,
    res = Some (Ok (SoRecord
      (sealed_record (stream_at (mats k) k d cc) d (fp_send_seq p) (take l pt))
      (Z.of_nat l) need)) /\
    (1 <= length (take l pt))%nat /\
    Z.of_nat (cc + 32 + length (take l pt)) <= 4096 /\
    moved p p' role n c d k (cc + 32 + length (take l pt))%nat /\
    fp_send_seq p' = fp_send_seq p + 1 /\ fp_recv_seq p' = fp_recv_seq p /\
    ((k = pos p n d /\ cc = at_dir c d /\ ahead p' d = ahead p d) \/
     (S (pos p n d) = k /\ k = n /\ cc = 0%nat /\
      next_ready_for_send p d = true)%nat).
Proof.
  intros Hp Hn Hlt E d. pose proof Hp as (Ho & Hrole & Hpl).
  pose proof (send_over (mats n) p pt p' res Ho E) as Hs.
  destruct res as [[[r l need|]|[]]|]; try contradiction; [right | left; auto ..].
  2:{ destruct Hs as [-> _]. auto. } 2: lia.
  destruct Hs as (k & cc & Hsent & -> & Ho'). fold d in Hsent.
  destruct Hsent as (Hpos & Hc & Hpt & -> & _ & Hsq & Hrq & Hf & Hack & Hpl' & Hk
    & Hah & Hoth). fold d in Hpos, Hpl', Hk, Hah, Hoth |- *.
  destruct (taken_bounds pt cc Hpt Hc) as (B1 & B2 & B3).
  assert (Hkn : (k <= n)%nat).
  { rewrite <- Hk. unfold plane_bundle. rewrite last_id_mats.
    destruct (ahead p' d); lia. }
  exists k, cc, (taken pt cc), need. rewrite (stream_mats n k) by exact Hkn.
  rewrite B3. split_and!; auto; try lia.
  - destruct (pump_pos_move p role n c p' d (cc + 32 + taken pt cc) Hp Ho'
      (proj1 Hf) B2 Hpl' Hoth) as [A B].
    unfold moved. split_and!; auto; try apply B. apply Hf.
  - destruct Hpos as (c0 & _ & E0 & Hpos). fold d in E0, Hpos.
    pose proof (same_pos p role n c d c0 _ Hp Ho E0) as ->.
    case_bool_decide.
    + destruct Hpos as [Hk2 ->]. left. split_and!; auto.
      destruct (ahead p' d) eqn:A'; [symmetry; auto|].
      destruct (ahead p d) eqn:A; [|reflexivity].
      pose proof (pump_pos_ahead _ _ _ _ _ Hp A). revert Hk Hk2.
      unfold plane_bundle. rewrite last_id_mats. lia.
    + destruct Hpos as (A & Hrdy & -> & ->). right. rewrite last_id_mats.
      pose proof (pump_pos_ahead _ _ _ _ _ Hp A). rewrite pos_cases, A.
      split_and!; auto; lia.
Qed.

(** ** The invariant of the network *)

Definition c2s_chain (pC pS : FullOtpPump) (nC nS : nat) (cC cS : nat * nat)
  (pend : bool) (q : list Item) (rest : list byte) : Prop :=
  chain ClientToServer
    (MkEnd (pos pS nS ClientToServer) (fst cS) (fp_recv_seq pS) nS pend) q
    (MkEnd (pos pC nC ClientToServer) (fst cC) (fp_send_seq pC) nS
       (bool_decide (nS = S nC))) rest.

Definition s2c_chain (pC pS : FullOtpPump) (nC nS : nat) (cC cS : nat * nat)
  (q : list Item) (rest : list byte) : Prop :=
  chain ServerToClient
    (MkEnd (pos pC nC ServerToClient) (snd cC) (fp_recv_seq pC) nC false) q
    (MkEnd (pos pS nS ServerToClient) (snd cS) (fp_send_seq pS) nS false) rest.

Definition acks_ok (pS : FullOtpPump) (nS : nat) (pend : bool) : Prop :=
  fp_pending_ack pS = (if pend then Some (Z.of_nat nS) else None) /\
  (pend = true -> ahead pS ServerToClient = true /\ fp_next_acked pS = false).

Definition net_inv (m : Z) (w : Net) : Prop :=
  exists pC pS nC nS cC cS pend fc fs,
    w = MkNet (pC, pS) (S nC, S nS) (n_queues w) (fst (n_rcvd w) ++ fc,
      snd (n_rcvd w) ++ fs) (n_rcvd w) true /\
    pump_pos pC Client nC cC /\ pump_pos pS Server nS cS /\
    (nC <= nS <= S nC)%nat /\ acks_ok pS nS pend /\
    Z.of_nat nS <= m /\ fp_send_seq pC <= m /\ fp_send_seq pS <= m /\
    c2s_chain pC pS nC nS cC cS pend (fst (n_queues w)) fc /\
    s2c_chain pC pS nC nS cC cS (snd (n_queues w)) fs.

Lemma net_inv_mono m m' w : net_inv m w -> m <= m' -> net_inv m' w.
Proof.
  intros (pC & pS & nC & nS & cC & cS & pend & fc & fs & E & A & B & C & D & F
    & G & I & J & K) Hm.
  exists pC, pS, nC, nS, cC, cS, pend, fc, fs. split_and!; auto; try lia; apply D.
Qed.

(** The item a send appends. *)
Lemma chain_one_data d k c q n a k' cc pt :
  (1 <= length pt)%nat -> Z.of_nat (cc + 32 + length pt) <= 4096 ->
  (k' = k /\ cc = c) \/ (S k = k' /\ (k' <= n) /\ cc = 0)%nat ->
  chain d (MkEnd k c q n a) [data_item d k' cc q pt]
    (MkEnd k' (cc + 32 + length pt) (q + 1) n a) pt.
Proof.
  intros H1 H2 Hpos. rewrite <- (app_nil_r pt) at 3.
  destruct Hpos as [[-> ->]|(<- & Hn & ->)].
  - apply chain_data; auto. constructor.
  - apply chain_switch; auto. constructor.
Qed.

Ltac net_simpl :=
  unfold push, set_queue, set_source, set_pump, log_sent, log_rcvd, broken,
    net_queue, net_pump in *;
  cbn [n_pumps n_sources n_queues n_sent n_rcvd n_ok at_dir put_dir
    opposite fst snd] in *.

Lemma inv_send m w d pt :
  net_inv m w -> m + 1 < U64_MAX -> net_inv (m + 1) (do_send w d pt).
Proof.
  intros Hinv Hm. pose proof Hinv as (pC & pS & nC & nS & cC & cS & pend & fc & fs
    & E & HC & HS & Hn & Hack & HnS & HsC & HsS & Cc & Cs).
  destruct w as [pumps sources [qc qs] sent [rc rs] ok].
  cbn [n_queues n_rcvd fst snd] in *. injection E as -> -> -> ->.
  unfold do_send. destruct d; cbn [net_pump n_pumps at_dir fst snd].
  - destruct (send pC pt) as [p' res] eqn:Es.
    pose proof HC as (_ & Hrole & _).
    destruct (send_step pC Client nC cC pt p' res HC ltac:(lia) ltac:(lia) Es)
      as [[-> [-> | ->]]|(k & cc & l & need & -> & L1 & L2 & Hmv & Hsq & Hrq & Hpos)].
    1,2: apply (net_inv_mono m); [exact Hinv | lia].
    assert (Hd : pump_send_dir pC = ClientToServer)
      by (unfold pump_send_dir; rewrite Hrole; reflexivity).
    rewrite Hd in Hmv, Hpos |- *. destruct Hmv as (Hp' & Hk & _ & _ & Hoth).
    destruct (Hoth ServerToClient ltac:(discriminate)) as [Ho1 Ho2].
    exists p', pS, nC, nS, (put_dir cC ClientToServer
      (cc + 32 + length (take l pt))%nat), cS, pend, (fc ++ take l pt), fs.
    net_simpl. rewrite Nat2Z.id, app_assoc. split_and!; auto; try lia; try apply Hack.
    + eapply chain_app; [exact Cc|]. rewrite Hk, Hsq.
      apply chain_one_data; auto.
      destruct Hpos as [(-> & -> & _)|(P1 & P2 & -> & _)]; [auto|].
      right. split_and!; auto; lia.
    + unfold s2c_chain. rewrite Ho1, Hrq. exact Cs.
  - destruct (send pS pt) as [p' res] eqn:Es.
    pose proof HS as (_ & Hrole & _).
    destruct (send_step pS Server nS cS pt p' res HS ltac:(lia) ltac:(lia) Es)
      as [[-> [-> | ->]]|(k & cc & l & need & -> & L1 & L2 & Hmv & Hsq & Hrq & Hpos)].
    1,2: apply (net_inv_mono m); [exact Hinv | lia].
    assert (Hd : pump_send_dir pS = ServerToClient)
      by (unfold pump_send_dir; rewrite Hrole; reflexivity).
    rewrite Hd in Hmv, Hpos |- *. destruct Hmv as (Hp' & Hk & Hpend & Hacked & Hoth).
    destruct (Hoth ClientToServer ltac:(discriminate)) as [Ho1 Ho2].
    exists pC, p', nC, nS, cC, (put_dir cS ServerToClient
      (cc + 32 + length (take l pt))%nat), pend, fc, (fs ++ take l pt).
    net_simpl. rewrite Nat2Z.id, app_assoc. split_and!; auto; try lia.
    + destruct Hack as [Hp1 Hp2]. split; [congruence|]. intros Hx.
      destruct (Hp2 Hx) as [A1 A2]. destruct Hpos as [(_ & _ & A)|(_ & _ & _ & Hrdy)].
      * split; [congruence|]. destruct (fp_next_acked p'); [|reflexivity].
        rewrite Hacked in A2; auto.
      * unfold next_ready_for_send in Hrdy. rewrite Hrole, A2 in Hrdy.
        rewrite bool_decide_eq_false_2, andb_false_r in Hrdy; discriminate.
    + unfold c2s_chain. rewrite Ho1, Hrq. exact Cc.
    + eapply chain_app; [exact Cs|]. rewrite Hk, Hsq.
      apply chain_one_data; auto.
      destruct Hpos as [(-> & -> & _)|(P1 & P2 & -> & _)]; [auto|].
      right. split_and!; auto; lia.
Qed.

(** The head of a channel. *)
Lemma chain_head d k c q n a i items e' rest :
  chain d (MkEnd k c q n a) (i :: items) e' rest ->
  (exists k' cc pt rest', i = data_item d k' cc q pt /\ rest = pt ++ rest' /\
     (1 <= length pt)%nat /\ Z.of_nat (cc + 32 + length pt) <= 4096 /\
     ((k' = k /\ cc = c) \/ ((S k = k')%nat /\ (k' <= n)%nat /\ cc = 0%nat)) /\
     chain d (MkEnd k' (cc + 32 + length pt) (q + 1) n a) items e' rest') \/
  (d = ServerToClient /\ k = n /\
     i = action_item (SendPadOffer (Z.of_nat (S n)) (fst (book (S n)))) /\
     chain d (MkEnd n c q (S n) a) items e' rest) \/
  (d = ClientToServer /\ a = true /\ i = action_item (SendPadAck (Z.of_nat n)) /\
     chain d (MkEnd k c q n false) items e' rest) \/
  (d = ClientToServer /\ i = action_item SendPadNeed /\
     chain d (MkEnd k c q n a) items e' rest).
Proof.
  intros Hc. inversion Hc; subst.
  - left. eauto 12.
  - left. exists (S k), 0%nat, pt, rest0. split_and!; auto.
  - right. left. auto.
  - right. right. left. auto.
  - right. right. right. auto.
Qed.

Lemma recv_dir_of p role n c :
  pump_pos p role n c -> pump_recv_dir p = opposite (role_send_direction role).
Proof. intros (_ & Hr & _). unfold pump_recv_dir, pump_send_dir. rewrite Hr. reflexivity. Qed.

Lemma inv_data_c2s m pC pS nC nS cC cS pend fc fs qc qs rc rs k cc pt frame :
  let w := MkNet (pC, pS) (S nC, S nS) (qc, qs) (rc ++ pt ++ fc, rs ++ fs)
             (rc, rs) true in
  pump_pos pC Client nC cC -> pump_pos pS Server nS cS ->
  (nC <= nS <= S nC)%nat -> acks_ok pS nS pend ->
  Z.of_nat nS <= m -> fp_send_seq pC <= m -> fp_send_seq pS <= m ->
  m + 1 < U64_MAX ->
  frame = encode_frame (sealed_record (stream_at (mats k) k ClientToServer cc)
            ClientToServer (fp_recv_seq pS) pt) ->
  (1 <= length pt)%nat -> Z.of_nat (cc + 32 + length pt) <= 4096 ->
  ((k = pos pS nS ClientToServer /\ cc = fst cS) \/
   ((S (pos pS nS ClientToServer) = k)%nat /\ (k <= nS)%nat /\ cc = 0%nat)) ->
  chain ClientToServer
    (MkEnd k (cc + 32 + length pt) (fp_recv_seq pS + 1) nS pend) qc
    (MkEnd (pos pC nC ClientToServer) (fst cC) (fp_send_seq pC) nS
       (bool_decide (nS = S nC))) fc ->
  s2c_chain pC pS nC nS cC cS qs fs ->
  net_inv m (do_data w ClientToServer frame).
Proof.
  intros w HC HS Hn Hack HnS HsC HsS Hm -> L1 L2 Hpos Cc Cs.
  pose proof (chain_mono _ _ _ _ _ Cc) as (_ & _ & Hseq & _). cbn in Hseq.
  destruct (receive_step pS Server nS cS ClientToServer k cc pt HS
    (eq_sym (recv_dir_of _ _ _ _ HS)) ltac:(lia) Hpos L1 L2 ltac:(lia))
    as (need & p' & E & (Hp' & Hk & Hpend & Hacked & Hoth) & Hrq & Hsq).
  unfold do_data. net_simpl. subst w. net_simpl. rewrite E. cbn [rv_plaintext].
  destruct (Hoth ServerToClient ltac:(discriminate)) as [Ho1 Ho2].
  exists pC, p', nC, nS, cC,
    (put_dir cS ClientToServer (cc + 32 + length pt)%nat), pend, fc, fs.
  net_simpl. rewrite <- app_assoc. split_and!; auto; try congruence; try lia.
  - destruct Hack as [Hp1 Hp2]. split; [congruence|]. intros Hx.
    destruct (Hp2 Hx) as [A1 A2]. split; [congruence|].
    destruct (fp_next_acked p'); [rewrite Hacked in A2; auto | reflexivity].
  - unfold c2s_chain. rewrite Hk, Hrq. exact Cc.
  - unfold s2c_chain. rewrite Ho1, Hsq. exact Cs.
Qed.

Lemma inv_data_s2c m pC pS nC nS cC cS pend fc fs qc qs rc rs k cc pt frame :
  let w := MkNet (pC, pS) (S nC, S nS) (qc, qs) (rc ++ fc, rs ++ pt ++ fs)
             (rc, rs) true in
  pump_pos pC Client nC cC -> pump_pos pS Server nS cS ->
  (nC <= nS <= S nC)%nat -> acks_ok pS nS pend ->
  Z.of_nat nS <= m -> fp_send_seq pC <= m -> fp_send_seq pS <= m ->
  m + 1 < U64_MAX ->
  frame = encode_frame (sealed_record (stream_at (mats k) k ServerToClient cc)
            ServerToClient (fp_recv_seq pC) pt) ->
  (1 <= length pt)%nat -> Z.of_nat (cc + 32 + length pt) <= 4096 ->
  ((k = pos pC nC ServerToClient /\ cc = snd cC) \/
   ((S (pos pC nC ServerToClient) = k)%nat /\ (k <= nC)%nat /\ cc = 0%nat)) ->
  c2s_chain pC pS nC nS cC cS pend qc fc ->
  chain ServerToClient
    (MkEnd k (cc + 32 + length pt) (fp_recv_seq pC + 1) nC false) qs
    (MkEnd (pos pS nS ServerToClient) (snd cS) (fp_send_seq pS) nS false) fs ->
  net_inv m (do_data w ServerToClient frame).
Proof.
  intros w HC HS Hn Hack HnS HsC HsS Hm -> L1 L2 Hpos Cc Cs.
  pose proof (chain_mono _ _ _ _ _ Cs) as (_ & _ & Hseq & _). cbn in Hseq.
  destruct (receive_step pC Client nC cC ServerToClient k cc pt HC
    (eq_sym (recv_dir_of _ _ _ _ HC)) ltac:(lia) Hpos L1 L2 ltac:(lia))
    as (need & p' & E & (Hp' & Hk & Hpend & Hacked & Hoth) & Hrq & Hsq).
  unfold do_data. net_simpl. subst w. net_simpl. rewrite E. cbn [rv_plaintext].
  destruct (Hoth ClientToServer ltac:(discriminate)) as [Ho1 Ho2].
  exists p', pS, nC, nS,
    (put_dir cC ServerToClient (cc + 32 + length pt)%nat), cS, pend, fc, fs.
  net_simpl. rewrite <- app_assoc.
  split_and!; auto; try congruence; try lia; try apply Hack.
  - unfold c2s_chain. rewrite Ho1, Hsq. exact Cc.
  - unfold s2c_chain. rewrite Hk, Hrq. exact Cs.
Qed.

(** A pump that takes the next bundle of the book. *)
Lemma next_bundle_pos p role n c acked pending :
  pump_pos p role n c -> no_next p = true -> Z.of_nat (S (S n)) <= U64_MAX ->
  exists c2s s2c,
    split_bundle (fp_next_bundle_id p) (fst (book (S n))) (snd (book (S n))) =
      (c2s, s2c) /\
    fp_next_bundle_id p = Z.of_nat (S n) /\
    pump_pos (set_ack (set_next p c2s s2c) acked pending) role (S n) c /\
    (forall d, ahead (set_ack (set_next p c2s s2c) acked pending) d = true) /\
    (forall d, pos (set_ack (set_next p c2s s2c) acked pending) (S n) d =
               pos p n d).
Proof.
  intros (Ho & Hr & Hp) Hno Hb.
  destruct (split_bundle _ _ _) as [c2s s2c] eqn:Es.
  destruct (book_typed (S n)) as [Hu Hl].
  destruct (set_next_over (mats n) p _ _ c2s s2c Ho Hno Hu Hl
    ltac:(rewrite length_mats; lia) Es) as [Ho' Hp'].
  rewrite <- (surjective_pairing (book (S n))), <- mats_S in Ho', Hp'.
  assert (Ha : forall d, ahead (set_ack (set_next p c2s s2c) acked pending) d = true)
    by (intros []; reflexivity).
  exists c2s, s2c. split_and!; auto.
  - destruct Ho as (_ & _ & _ & Hid & _). rewrite Hid, length_mats. reflexivity.
  - unfold pump_pos. split_and!; [exact Ho' | exact Hr |]. intros d.
    destruct (Hp d) as [Hc E]. split; [exact Hc|]. rewrite Ha.
    rewrite (no_next_dir p d Hno) in E. apply Hp'; auto.
  - intros d. rewrite !pos_cases, Ha, (no_next_dir p d Hno). lia.
Qed.

Lemma inv_prefetch m w :
  net_inv m w -> m + 2 < U64_MAX -> net_inv (m + 1) (do_prefetch w).
Proof.
  intros Hinv Hm. pose proof Hinv as (pC & pS & nC & nS & cC & cS & pend & fc & fs
    & E & HC & HS & Hn & Hack & HnS & HsC & HsS & Cc & Cs).
  destruct w as [pumps sources [qc qs] sent [rc rs] ok].
  cbn [n_queues n_rcvd fst snd] in *. injection E as -> -> -> ->.
  pose proof HS as (Ho & Hrole & _). pose proof Ho as (Hcl & _).
  unfold do_prefetch, server_prefetch. net_simpl. rewrite Hcl, Hrole.
  rewrite bool_decide_eq_true_2 by reflexivity. cbn [negb].
  destruct (no_next pS) eqn:Hno; cbn [negb].
  2:{ change (map action_item (option_list None)) with (@nil Item).
      net_simpl. rewrite app_nil_r.
      apply (net_inv_mono m); [exact Hinv | lia]. }
  assert (HpC : nC = nS).
  { pose proof (chain_mono _ _ _ _ _ Cc) as (Hmono & _). cbn in Hmono.
    rewrite !pos_cases in Hmono. rewrite (no_next_dir pS _ Hno) in Hmono.
    destruct (ahead pC ClientToServer); lia. }
  assert (pend = false) as ->.
  { destruct pend; [|reflexivity]. destruct Hack as [_ Hp2].
    destruct (Hp2 eq_refl) as [A _].
    rewrite (no_next_dir pS _ Hno) in A. discriminate. }
  destruct (next_bundle_pos pS Server nS cS false
    (Some (fp_next_bundle_id pS)) HS Hno ltac:(lia))
    as (c2s & s2c & Es & Hid & Hp' & Ha & Hpos').
  unfold prefetch. cbn [reserve_next_bundle book_source].
  rewrite (surjective_pairing (book (S nS))), Es.
  match goal with |- context [option_list (Some ?x)] =>
    change (map action_item (option_list (Some x))) with [action_item x] end.
  net_simpl.
  eexists pC, _, nC, (S nS), cC, cS, true, fc, fs. net_simpl.
  split_and!; [reflexivity | exact HC | exact Hp' | lia | lia | | lia | lia
    | cbn; lia | |].
  - split; [cbn; rewrite Hid; reflexivity|]. intros _. split; [apply Ha | reflexivity].
  - unfold c2s_chain. rewrite Hpos'. rewrite bool_decide_eq_true_2 by congruence.
    unfold c2s_chain in Cc. rewrite bool_decide_eq_false_2 in Cc by lia.
    apply chain_reoffer in Cc. exact Cc.
  - unfold s2c_chain. rewrite Hpos'. rewrite <- (app_nil_r fs).
    eapply chain_app; [exact Cs|].
    rewrite pos_cases, (no_next_dir pS _ Hno), Hid.
    apply chain_offer; [reflexivity|]. constructor.
Qed.

Lemma inv_need m pC pS nC nS cC cS pend fc fs qc qs rc rs :
  let w := MkNet (pC, pS) (S nC, S nS) (qc, qs) (rc ++ fc, rs ++ fs)
             (rc, rs) true in
  net_inv m w -> pump_pos pS Server nS cS -> m + 2 < U64_MAX ->
  pump_pos pC Client nC cC -> c2s_chain pC pS nC nS cC cS pend qc fc ->
  net_inv (m + 1) (do_control w ClientToServer PadNeed).
Proof.
  intros w Hinv HS Hm HC Cc. pose proof (inv_prefetch m w Hinv Hm) as Hp.
  pose proof HS as (Ho & Hrole & _). pose proof Ho as (Hcl & _).
  unfold do_control, on_control. unfold do_prefetch in Hp.
  subst w. net_simpl. rewrite Hcl, Hrole. rewrite bool_decide_eq_true_2 by reflexivity.
  cbn [negb]. destruct (server_prefetch pS (S nS)) as [[p s] [a|e]]; exact Hp.
Qed.

Lemma inv_offer m pC pS nC nS cC cS pend fc fs qc qs rc rs :
  let w := MkNet (pC, pS) (S nC, S nS) (qc, qs) (rc ++ fc, rs ++ fs)
             (rc, rs) true in
  pump_pos pC Client nC cC -> pump_pos pS Server nS cS ->
  (nC <= nS <= S nC)%nat -> acks_ok pS nS pend ->
  Z.of_nat nS <= m -> fp_send_seq pC <= m -> fp_send_seq pS <= m ->
  m + 1 < U64_MAX ->
  c2s_chain pC pS nC nS cC cS pend qc fc ->
  pos pC nC ServerToClient = nC ->
  chain ServerToClient (MkEnd nC (snd cC) (fp_recv_seq pC) (S nC) false) qs
    (MkEnd (pos pS nS ServerToClient) (snd cS) (fp_send_seq pS) nS false) fs ->
  net_inv m (do_control w ServerToClient
    (PadOffer (Z.of_nat (S nC)) (fst (book (S nC))))).
Proof.
  intros w HC HS Hn Hack HnS HsC HsS Hm Cc Hk Cs.
  pose proof (chain_mono _ _ _ _ _ Cs) as (_ & Hkn & _ & _). cbn in Hkn.
  assert (nS = S nC) as -> by lia.
  pose proof HC as (Ho & Hrole & _). pose proof Ho as (Hcl & _ & _ & Hid & _).
  rewrite length_mats in Hid.
  assert (Hno : no_next pC = true).
  { apply no_next_ahead. split.
    - pose proof (chain_mono _ _ _ _ _ Cc) as (Hmono & _). cbn in Hmono.
      rewrite !pos_cases in Hmono.
      destruct (ahead pC ClientToServer) eqn:A; [|reflexivity].
      pose proof (pump_pos_ahead _ _ _ _ _ HC A).
      destruct (ahead pS ClientToServer); lia.
    - rewrite pos_cases in Hk. destruct (ahead pC ServerToClient) eqn:A;
        [|reflexivity]. pose proof (pump_pos_ahead _ _ _ _ _ HC A). lia. }
  unfold do_control, on_control. subst w. net_simpl. rewrite Hcl, Hrole, Hid.
  rewrite bool_decide_eq_true_2, Z.eqb_refl, Hno by reflexivity. cbn [negb].
  cbn [reserve_bundle_at book_source]. rewrite Z.eqb_refl.
  destruct (next_bundle_pos pC Client nC cC (fp_next_acked pC)
    (fp_pending_ack pC) HC Hno ltac:(lia))
    as (c2s & s2c & Es & _ & Hp' & Ha & Hpos').
  rewrite Hid in Es. rewrite Es.
  eexists _, pS, (S nC), (S nC), cC, cS, pend, fc, fs. net_simpl.
  split_and!; [reflexivity | exact Hp' | exact HS | lia | lia
    | exact Hack | lia | exact HsC | exact HsS | |].
  - unfold c2s_chain. rewrite Hpos'. rewrite bool_decide_eq_false_2 by lia.
    unfold c2s_chain in Cc. rewrite bool_decide_eq_true_2 in Cc by reflexivity.
    rewrite <- (app_nil_r fc). eapply chain_app; [exact Cc|].
    apply chain_ack; [reflexivity|]. constructor.
  - unfold s2c_chain. rewrite Hpos', Hk. exact Cs.
Qed.

Lemma inv_ack m pC pS nC nS cC cS fc fs qc qs rc rs :
  let w := MkNet (pC, pS) (S nC, S nS) (qc, qs) (rc ++ fc, rs ++ fs)
             (rc, rs) true in
  pump_pos pC Client nC cC -> pump_pos pS Server nS cS ->
  (nC <= nS <= S nC)%nat -> acks_ok pS nS true ->
  Z.of_nat nS <= m -> fp_send_seq pC <= m -> fp_send_seq pS <= m ->
  c2s_chain pC pS nC nS cC cS false qc fc ->
  s2c_chain pC pS nC nS cC cS qs fs ->
  net_inv m (do_control w ClientToServer (PadAck (Z.of_nat nS))).
Proof.
  intros w HC HS Hn [Hp1 Hp2] HnS HsC HsS Cc Cs.
  pose proof HS as (Ho & Hrole & Hpl). pose proof Ho as (Hcl & _).
  unfold do_control, on_control. subst w. net_simpl. rewrite Hcl, Hrole, Hp1.
  rewrite !bool_decide_eq_true_2 by reflexivity. cbn [negb map].
  net_simpl. rewrite app_nil_r.
  eexists pC, _, nC, nS, cC, cS, false, fc, fs. net_simpl.
  split_and!; [reflexivity | exact HC | | lia | lia | | exact HnS | exact HsC
    | exact HsS | exact Cc | exact Cs]; [|split; [reflexivity | discriminate]].
  split; [exact Ho|]. split; [exact Hrole | exact Hpl].
Qed.

Lemma control_roundtrip m : wf_control m -> decode_control (encode_control m) = Ok m.
Proof. apply decode_control_complete. Qed.

Lemma inv_deliver m w d :
  net_inv m w -> m + 2 < U64_MAX -> net_inv (m + 1) (net_step w (ActDeliver d)).
Proof.
  intros Hinv Hm. pose proof Hinv as (pC & pS & nC & nS & cC & cS & pend & fc & fs
    & E & HC & HS & Hn & Hack & HnS & HsC & HsS & Cc & Cs).
  destruct w as [pumps sources [qc qs] sent [rc rs] ok].
  cbn [n_queues n_rcvd fst snd] in *. injection E as -> -> -> ->.
  cbn [net_step]. destruct d; net_simpl.
  - destruct qc as [|i qc]; [apply (net_inv_mono m); [exact Hinv | lia]|].
    pose proof Cc as Cc0. apply chain_head in Cc0
      as [(k & cc & pt & rest & -> & -> & L1 & L2 & Hpos & Cn)
         |[(X & _)|[(_ & -> & -> & Cn)|(_ & -> & Cn)]]]; [|discriminate| |].
    + cbn [data_item]. apply (net_inv_mono m); [|lia].
      eapply (inv_data_c2s m pC pS nC nS cC cS pend rest fs qc qs rc rs k cc pt);
        eauto. lia.
    + unfold action_item at 1. rewrite control_roundtrip by (cbn; ulia).
      apply (net_inv_mono m); [|lia].
      eapply (inv_ack m pC pS nC nS cC cS fc fs qc qs rc rs); eauto.
    + unfold action_item at 1. rewrite control_roundtrip by exact I.
      eapply (inv_need m pC pS nC nS cC cS pend fc fs qc qs rc rs); eauto.
      exists pC, pS, nC, nS, cC, cS, pend, fc, fs.
      cbn [n_queues n_rcvd fst snd]. split_and!; auto; try lia; apply Hack.
  - destruct qs as [|i qs]; [apply (net_inv_mono m); [exact Hinv | lia]|].
    pose proof Cs as Cs0. apply chain_head in Cs0
      as [(k & cc & pt & rest & -> & -> & L1 & L2 & Hpos & Cn)
         |[(_ & Hk & -> & Cn)|[(X & _)|(X & _)]]]; [| |discriminate|discriminate].
    + cbn [data_item]. apply (net_inv_mono m); [|lia].
      eapply (inv_data_s2c m pC pS nC nS cC cS pend fc rest qc qs rc rs k cc pt);
        eauto. lia.
    + unfold action_item at 1. rewrite control_roundtrip; cycle 1.
      { pose proof (chain_mono _ _ _ _ _ Cn) as (_ & Hkn & _). cbn in Hkn.
        destruct (book_typed (S nC)). cbn. split; [ulia | assumption]. }
      apply (net_inv_mono m); [|lia].
      eapply (inv_offer m pC pS nC nS cC cS pend fc fs qc qs rc rs); eauto. lia.
Qed.

Lemma inv_init : net_inv 0 net_init.
Proof.
  unfold net_init. rewrite (surjective_pairing (book 0)).
  destruct (book_typed 0) as [Hu Hl].
  assert (Hp : forall role, pump_pos (pump_new role (fst (book 0)) (snd (book 0)))
    role 0 (0, 0)%nat).
  { intros role. pose proof (pump_new_over role _ _ Hu Hl) as Ho.
    rewrite <- (surjective_pairing (book 0)) in Ho.
    split; [exact Ho|]. split; [reflexivity|]. intros d.
    split; [destruct d; cbn; lia|]. destruct d; unfold plane_at, mats; cbn [map seq];
      rewrite (surjective_pairing (book 0)); reflexivity. }
  eexists _, _, 0%nat, 0%nat, (0, 0)%nat, (0, 0)%nat, false, [], [].
  cbn [n_queues n_rcvd fst snd app].
  split_and!; [reflexivity | apply Hp | apply Hp | lia | lia
    | split; [reflexivity | discriminate] | lia | cbn; lia | cbn; lia | |].
  - unfold c2s_chain. constructor.
  - unfold s2c_chain. constructor.
Qed.

Lemma inv_run acts m w :
  net_inv m w -> m + Z.of_nat (length acts) + 2 < U64_MAX ->
  net_inv (m + Z.of_nat (length acts)) (fold_left net_step acts w).
Proof.
  revert m w. induction acts as [|a acts IH]; intros m w Hinv Hm;
    cbn [length fold_left] in *; [rewrite Z.add_0_r; exact Hinv|].
  replace (m + Z.of_nat (S (length acts))) with (m + 1 + Z.of_nat (length acts)) by lia.
  apply IH; [|lia]. destruct a as [d pt| | |d].
  - apply inv_send; [exact Hinv | lia].
  - apply inv_prefetch; [exact Hinv | lia].
  - destruct Hinv as (pC & pS & nC & nS & cC & cS & pend & fc & fs
      & E & HC & HS & Hn & Hack & HnS & HsC & HsS & Cc & Cs).
    destruct w as [pumps sources [qc qs] sent [rc rs] ok].
    cbn [n_queues n_rcvd fst snd] in *. injection E as -> -> -> ->.
    cbn [net_step]. exists pC, pS, nC, nS, cC, cS, pend, fc, fs. net_simpl.
    split_and!; auto; try lia; try apply Hack.
    rewrite <- (app_nil_r fc). eapply chain_app; [exact Cc|].
    apply chain_need; [reflexivity|]. constructor.
  - apply inv_deliver; [exact Hinv | lia].
Qed.

(** What the invariant says to the outside. *)
Lemma net_inv_facts m w :
  net_inv m w ->
  n_ok w = true /\ (forall d, pump_is_active (net_pump w d) = true) /\
  forall d, exists flight, at_dir (n_sent w) d = at_dir (n_rcvd w) d ++ flight /\
    (net_queue w d = [] -> flight = []).
Proof.
  intros (pC & pS & nC & nS & cC & cS & pend & fc & fs
    & E & HC & HS & _ & _ & _ & _ & _ & Cc & Cs).
  destruct w as [pumps sources [qc qs] sent [rc rs] ok].
  cbn [n_queues n_rcvd fst snd] in *. injection E as -> -> -> ->.
  net_simpl. split_and!; [reflexivity | |].
  - intros d. unfold pump_is_active. destruct HC as [(HC & _) _].
    destruct HS as [(HS & _) _].
    destruct d; net_simpl; [rewrite HC | rewrite HS]; reflexivity.
  - intros []; net_simpl; [exists fc | exists fs]; (split; [reflexivity|]);
      intros ->; [inversion Cc | inversion Cs]; reflexivity.
Qed.

Lemma deliver_pops w d :
  net_queue (net_step w (ActDeliver d)) d = tl (net_queue w d) /\
  at_dir (n_sent (net_step w (ActDeliver d))) d = at_dir (n_sent w) d.
Proof.
  cbn [net_step]. destruct (net_queue w d) as [|i q] eqn:Eq; [rewrite Eq; auto|].
  assert (A : forall x, x = q -> tl (i :: q) = x) by auto.
  destruct i as [frame|payload].
  - unfold do_data. destruct (receive _ frame) as [p [[r|]|]];
      net_simpl; rewrite ?at_put_dir; auto.
  - destruct (decode_control payload) as [c|];
      [|net_simpl; rewrite ?at_put_dir; auto].
    unfold do_control. destruct (on_control _ c _) as [[p s0] [acts|]];
      net_simpl; rewrite ?(at_put_dir_other _ (opposite d) d)
        by apply opposite_ne; rewrite ?at_put_dir; auto.
Qed.

Lemma deliver_all w d n :
  n = length (net_queue w d) ->
  let w' := fold_left net_step (repeat (ActDeliver d) n) w in
  net_queue w' d = [] /\ at_dir (n_sent w') d = at_dir (n_sent w) d.
Proof.
  revert w. induction n as [|n IH]; intros w Hn; cbn [repeat fold_left].
  - destruct (net_queue w d); [auto | discriminate].
  - destruct (deliver_pops w d) as [Hq Hs].
    destruct (IH (net_step w (ActDeliver d))) as [A B].
    + rewrite Hq. destruct (net_queue w d); [discriminate | simpl in *; lia].
    + split; [exact A | congruence].
Qed.

(** C7: two pumps over one book stay in step.  Whatever the two callers send,
    prefetch or ask for and however the deliveries of the two ordered channels
    interleave (for fewer than 2^64 actions), no call fails, neither end closes,
    what one end was given to send is what the other got followed by what is
    still in the channel, and delivering the channel delivers everything. *)
Theorem pumps_in_step acts :
  let w := net_run acts in
  let drained d := fold_left net_step
    (repeat (ActDeliver d) (length (net_queue w d))) w in
  Z.of_nat (length acts) + 2 < U64_MAX ->
  n_ok w = true /\
  (forall d, pump_is_active (net_pump w d) = true) /\
  (forall d, at_dir (n_rcvd w) d `prefix_of` at_dir (n_sent w) d) /\
  (forall d, Z.of_nat (length acts) + Z.of_nat (length (net_queue w d)) + 2
               < U64_MAX ->
     n_ok (drained d) = true /\
     at_dir (n_rcvd (drained d)) d = at_dir (n_sent w) d).
Proof.
  intros w drained Hb.
  pose proof (inv_run acts 0 net_init inv_init ltac:(lia)) as Hinv.
  fold (net_run acts) in Hinv. fold w in Hinv.
  destruct (net_inv_facts _ _ Hinv) as (Hok & Hact & Hlog).
  split_and!; [exact Hok | exact Hact | |].
  - intros d. destruct (Hlog d) as (fl & -> & _). exists fl. reflexivity.
  - intros d Hd.
    pose proof (inv_run (repeat (ActDeliver d) (length (net_queue w d))) _ _ Hinv)
      as Hi. rewrite repeat_length in Hi. specialize (Hi ltac:(lia)).
    fold (drained d) in Hi.
    destruct (net_inv_facts _ _ Hi) as (Hok' & _ & Hlog').
    destruct (deliver_all w d _ eq_refl) as [Hq Hs]. fold (drained d) in Hq, Hs.
    destruct (Hlog' d) as (fl & E & Hfl). rewrite Hfl, app_nil_r in E by exact Hq.
    split; [exact Hok' | congruence].
Qed.

End Link.

(** ** Witness *)

#[local] Existing Instance sum_poly.

Definition demo_book (i : nat) : Z * list byte :=
  (1 + 128 * Z.of_nat (Nat.min i 9), demo_bundle (z2b (Z.of_nat i))).

Lemma demo_book_typed i :
  is_u64 (fst (demo_book i)) /\
  length (snd (demo_book i)) = Z.to_nat BUNDLE_BYTES.
Proof. split; [unfold demo_book; cbn [fst]; ulia | apply length_demo_bundle]. Qed.

Definition demo_acts : list NetAct :=
  [ActSend ClientToServer [Byte.x68; Byte.x69]; ActPrefetch; ActNeed;
   ActDeliver ServerToClient; ActDeliver ClientToServer;
   ActSend ServerToClient [Byte.x6f]; ActDeliver ClientToServer].

Lemma pumps_in_step_witness :
  let w := net_run demo_book demo_book_typed demo_acts in
  n_ok w = true /\ n_rcvd w = ([Byte.x68; Byte.x69], []) /\
  n_sent w = ([Byte.x68; Byte.x69], [Byte.x6f]).
Proof.
  cbv zeta. split; [|vm_compute; auto].
  destruct (pumps_in_step demo_book demo_book_typed demo_acts) as [A _];
    [reflexivity | exact A].
Defined.
