(* ===== verification/TermFrame.v ===== *)
(** * TermFrame: the terminal frames inside the session ([otp-terminal],
    frame.rs and the error type of lib.rs)

    Frames travel as the plaintext of DATA records.  The encoder panics on a
    chunk over the limit ([None]); the decoder is strict. *)

From S2P Require Export Handshake.

#[local] Open Scope list_scope.
#[local] Open Scope Z_scope.

(** ** lib.rs *)

(** [Handshake] and [Transport] errors carry the error of their layer; the
    transport's is the parameter [TE]. *)
Inductive TerminalError {TE : Type} :=
  | TeLeaseHeldByOther (holder : Z)
  | TeStaleWriter
  | TeTerminalGone
  | TeHandshake (e : HandshakeError)
  | TeSession (e : SessionError)
  | TeTransport (e : TE)
  | TeIo
  | TeClosed
  | TeProtocol
  | TeTimeout.
Arguments TerminalError : clear implicits.

Record WindowSize := MkWindow { ws_rows : Z; ws_cols : Z }.

Definition WINDOW_FALLBACK : WindowSize := MkWindow 24 80.

(** ** frame.rs *)

Definition FRAME_OVERHEAD : Z := 3.
Definition DATA_CHUNK_MAX : Z := MAX_APP_PLAINTEXT - FRAME_OVERHEAD.

Definition T_OPEN : Z := 0x01.
Definition T_ATTACH : Z := 0x02.
Definition T_INPUT : Z := 0x03.
Definition T_RESIZE : Z := 0x04.
Definition T_PING : Z := 0x05.
Definition T_GRANTED : Z := 0x11.
Definition T_DENIED : Z := 0x12.
Definition T_OUTPUT : Z := 0x13.
Definition T_EXIT : Z := 0x14.

Inductive DenyReason := DenyBusy | DenyGone | DenyFenced.

Definition deny_wire (r : DenyReason) : Z :=
  match r with DenyBusy => 1 | DenyGone => 2 | DenyFenced => 3 end.

(** [DenyReason::WIRE]. *)
Definition DENY_WIRE : list DenyReason := [DenyBusy; DenyGone; DenyFenced].

Inductive TerminalFrame :=
  | TfOpen (rows cols : Z)
  | TfAttach (handle rows cols : Z)
  | TfInput (data : list byte)
  | TfResize (rows cols : Z)
  | TfPing
  | TfGranted (handle token : Z)
  | TfDenied (reason : DenyReason)
  | TfOutput (data : list byte)
  | TfExit (code : Z).

Definition encode_chunk (t : Z) (data : list byte) : option (list byte) :=
  if Z.of_nat (length data) <=? DATA_CHUNK_MAX
  then Some ([z2b t] ++ u16_be (Z.of_nat (length data)) ++ data)
  else None.

Definition term_encode (f : TerminalFrame) : option (list byte) :=
  match f with
  | TfOpen rows cols => Some ([z2b T_OPEN] ++ u16_be rows ++ u16_be cols)
  | TfAttach handle rows cols =>
      Some ([z2b T_ATTACH] ++ u64_be handle ++ u16_be rows ++ u16_be cols)
  | TfInput data => encode_chunk T_INPUT data
  | TfOutput data => encode_chunk T_OUTPUT data
  | TfResize rows cols => Some ([z2b T_RESIZE] ++ u16_be rows ++ u16_be cols)
  | TfPing => Some [z2b T_PING]
  | TfGranted handle token =>
      Some ([z2b T_GRANTED] ++ u64_be handle ++ u64_be token)
  | TfDenied reason => Some [z2b T_DENIED; z2b (deny_wire reason)]
  | TfExit code => Some ([z2b T_EXIT] ++ u32_be code)
  end.

(** [i32::from_be_bytes]. *)
Definition i32_of_be (b : list byte) : Z :=
  let v := be_val b in if v <? 2 ^ 31 then v else v - 2 ^ 32.

Section Decode.
Context {TE : Type}.

Definition term_decode_chunk (rest : list byte) :
  result (list byte) (TerminalError TE) :=
  if (length rest <? 2)%nat then Err TeProtocol else
  let len := be_val (take 2 rest) in
  let body := drop 2 rest in
  if negb (Z.of_nat (length body) =? len) || (DATA_CHUNK_MAX <? len)
  then Err TeProtocol
  else Ok body.

Definition term_decode (bytes : list byte) :
  result TerminalFrame (TerminalError TE) :=
  match bytes with
  | [] => Err TeProtocol
  | t :: rest =>
      let t := b2z t in
      if t =? T_OPEN then
        if negb (length rest =? 4)%nat then Err TeProtocol
        else Ok (TfOpen (be_val (slice 0 2 rest)) (be_val (slice 2 4 rest)))
      else if t =? T_ATTACH then
        if negb (length rest =? 12)%nat then Err TeProtocol
        else Ok (TfAttach (be_val (slice 0 8 rest)) (be_val (slice 8 10 rest))
                   (be_val (slice 10 12 rest)))
      else if t =? T_INPUT then result_map TfInput (term_decode_chunk rest)
      else if t =? T_OUTPUT then result_map TfOutput (term_decode_chunk rest)
      else if t =? T_RESIZE then
        if negb (length rest =? 4)%nat then Err TeProtocol
        else Ok (TfResize (be_val (slice 0 2 rest)) (be_val (slice 2 4 rest)))
      else if t =? T_PING then
        if negb (length rest =? 0)%nat then Err TeProtocol else Ok TfPing
      else if t =? T_GRANTED then
        if negb (length rest =? 16)%nat then Err TeProtocol
        else Ok (TfGranted (be_val (slice 0 8 rest)) (be_val (slice 8 16 rest)))
      else if t =? T_DENIED then
        match rest with
        | [r] =>
            let? reason :=
              ok_or (find (fun c => deny_wire c =? b2z r) DENY_WIRE)
                TeProtocol in
            Ok (TfDenied reason)
        | _ => Err TeProtocol
        end
      else if t =? T_EXIT then
        if negb (length rest =? 4)%nat then Err TeProtocol
        else Ok (TfExit (i32_of_be rest))
      else Err TeProtocol
  end.

End Decode.

(** [data.chunks(DATA_CHUNK_MAX)]; the fuel is the length. *)
Fixpoint chunks_fuel (fuel n : nat) (data : list byte) : list (list byte) :=
  match fuel, data with
  | O, _ | _, [] => []
  | S fuel, _ => take n data :: chunks_fuel fuel n (drop n data)
  end.

Definition chunk_input (data : list byte) : list (list byte) :=
  chunks_fuel (length data) (Z.to_nat DATA_CHUNK_MAX) data.

(** ** Lemmas *)

Definition is_i32 (z : Z) : Prop := - 2 ^ 31 <= z < 2 ^ 31.

Definition wf_term (f : TerminalFrame) : Prop :=
  match f with
  | TfOpen rows cols | TfResize rows cols => is_u16 rows /\ is_u16 cols
  | TfAttach handle rows cols => is_u64 handle /\ is_u16 rows /\ is_u16 cols
  | TfInput data | TfOutput data => Z.of_nat (length data) <= DATA_CHUNK_MAX
  | TfPing | TfDenied _ => True
  | TfGranted handle token => is_u64 handle /\ is_u64 token
  | TfExit code => is_i32 code
  end.

Lemma i32_back code : is_i32 code -> i32_of_be (u32_be code) = code.
Proof.
  unfold is_i32, i32_of_be. intros H. rewrite be_val_be_bytes_mod.
  change (256 ^ Z.of_nat 4) with (2 ^ 32). destruct (Z.ltb_spec code 0).
  - rewrite <- (Z_mod_plus_full code 1 (2 ^ 32)), Z.mod_small by lia.
    destruct (Z.ltb_spec (code + 1 * 2 ^ 32) (2 ^ 31)); lia.
  - rewrite Z.mod_small by lia. destruct (Z.ltb_spec code (2 ^ 31)); lia.
Qed.

Lemma i32_forth b :
  length b = 4%nat -> is_i32 (i32_of_be b) /\ u32_be (i32_of_be b) = b.
Proof.
  intros Hl. pose proof (be_val_bound b) as Hb. rewrite Hl in Hb.
  change (256 ^ Z.of_nat 4) with (2 ^ 32) in Hb.
  assert (Hi : is_i32 (i32_of_be b)).
  { unfold is_i32, i32_of_be. destruct (Z.ltb_spec (be_val b) (2 ^ 31)); lia. }
  split; [exact Hi|]. apply be_val_inj; [rewrite length_be_bytes; lia|].
  rewrite be_val_be_bytes_mod. change (256 ^ Z.of_nat 4) with (2 ^ 32).
  unfold i32_of_be. destruct (Z.ltb_spec (be_val b) (2 ^ 31)).
  - apply Z.mod_small. lia.
  - rewrite <- (Z_mod_plus_full (be_val b - 2 ^ 32) 1 (2 ^ 32)), Z.mod_small; lia.
Qed.

Lemma deny_find r z :
  find (fun c => deny_wire c =? z) DENY_WIRE = Some r <-> deny_wire r = z.
Proof.
  split.
  - intros E. apply find_some in E as [_ E]. apply Z.eqb_eq, E.
  - intros <-. destruct r; reflexivity.
Qed.

Section Roundtrip.
Context {TE : Type}.

Lemma tag_byte t : is_u8 t -> b2z (z2b t) = t.
Proof. apply b2z_z2b_small. Qed.

Lemma chunk_back t data out :
  encode_chunk t data = Some out -> is_u8 t ->
  exists rest, out = z2b t :: rest /\
    term_decode_chunk (TE := TE) rest = Ok data.
Proof.
  unfold encode_chunk. destruct (Z.leb_spec (Z.of_nat (length data)) DATA_CHUNK_MAX)
    as [Hl|]; [|discriminate]. intros E _. apply some_inj in E as <-.
  exists (u16_be (Z.of_nat (length data)) ++ data). split; [reflexivity|].
  assert (Hu : is_u16 (Z.of_nat (length data)))
    by (unfold DATA_CHUNK_MAX, MAX_APP_PLAINTEXT, FRAME_OVERHEAD in Hl; ulia).
  unfold term_decode_chunk.
  rewrite length_app, length_be_bytes. cbn [Nat.ltb Nat.leb Nat.add].
  rewrite (take_app_length' _ _ 2), (drop_app_length' _ _ 2), u16_be_val
    by (exact Hu || reflexivity).
  rewrite Z.eqb_refl, (proj2 (Z.ltb_ge _ _)) by lia. reflexivity.
Qed.

Lemma chunk_forth rest data t :
  term_decode_chunk (TE := TE) rest = Ok data ->
  Z.of_nat (length data) <= DATA_CHUNK_MAX /\
  encode_chunk t data = Some (z2b t :: rest).
Proof.
  unfold term_decode_chunk. intros E.
  destruct (Nat.ltb_spec (length rest) 2) as [|Hl]; [discriminate|].
  case_match_in E; [discriminate|]. apply ok_inj in E as <-.
  match goal with H : _ || _ = false |- _ => apply orb_false_iff in H as [Ha Hb] end.
  rewrite negb_false_iff, Z.eqb_eq in Ha. rewrite Z.ltb_ge in Hb.
  unfold encode_chunk. rewrite Ha.
  rewrite (proj2 (Z.leb_le _ _)) by exact Hb. split; [exact Hb|].
  rewrite be_bytes_be_val by (rewrite length_take; lia).
  cbn [app]. rewrite take_drop. reflexivity.
Qed.

Ltac term_tag :=
  rewrite tag_byte by (vm_compute; split; congruence);
  cbn -[be_bytes be_val slice term_decode_chunk length i32_of_be];
  rewrite ?length_app, ?length_be_bytes; cbn -[be_bytes be_val slice i32_of_be].

Lemma term_complete f bytes :
  wf_term f -> term_encode f = Some bytes ->
  term_decode (TE := TE) bytes = Ok f.
Proof.
  intros Hwf E.
  destruct f as [r c|h r c|d|r c| |h k|x|d|c]; cbn [term_encode wf_term] in *.
  3: { apply chunk_back in E as (rest & -> & E); [|vm_compute; split; congruence].
       unfold term_decode. term_tag. rewrite E. reflexivity. }
  7: { apply chunk_back in E as (rest & -> & E); [|vm_compute; split; congruence].
       unfold term_decode. term_tag. rewrite E. reflexivity. }
  all: apply some_inj in E as <-; cbn [app]; unfold term_decode.
  - term_tag. slices. destruct Hwf. rewrite !u16_be_val by auto. reflexivity.
  - term_tag. slices. destruct Hwf as (? & ? & ?).
    rewrite u64_be_val, !u16_be_val by auto. reflexivity.
  - term_tag. slices. destruct Hwf. rewrite !u16_be_val by auto. reflexivity.
  - reflexivity.
  - term_tag. slices. destruct Hwf. rewrite !u64_be_val by auto. reflexivity.
  - destruct x; reflexivity.
  - term_tag. rewrite i32_back by exact Hwf. reflexivity.
Qed.

Lemma two_slices (l : list byte) i n :
  length l = n -> (i <= n)%nat -> slice 0 i l ++ slice i n l = l.
Proof.
  intros Hl Hi. rewrite <- slice_split by lia. rewrite <- Hl. apply slice_all.
Qed.

Lemma slice_field (l : list byte) i j n :
  (i + n = j)%nat -> (j <= length l)%nat ->
  be_bytes n (be_val (slice i j l)) = slice i j l.
Proof. intros <- Hl. apply be_bytes_be_val. rewrite length_slice; lia. Qed.

Lemma slice_u16 (l : list byte) i j :
  (i + 2 = j)%nat -> (j <= length l)%nat -> is_u16 (be_val (slice i j l)).
Proof. intros <- Hl. apply be_val_u16. rewrite length_slice; lia. Qed.

Lemma slice_u64 (l : list byte) i j :
  (i + 8 = j)%nat -> (j <= length l)%nat -> is_u64 (be_val (slice i j l)).
Proof. intros <- Hl. apply be_val_u64. rewrite length_slice; lia. Qed.

Lemma term_sound bytes f :
  term_decode (TE := TE) bytes = Ok f ->
  wf_term f /\ term_encode f = Some bytes.
Proof.
  destruct bytes as [|t rest]; [discriminate|]. unfold term_decode. intros E.
  assert (Ht : forall z, b2z t = z -> t = z2b z)
    by (intros z <-; symmetry; apply z2b_b2z).
  repeat match type of E with
  | context [b2z t =? ?z] =>
      destruct (Z.eqb_spec (b2z t) z) as [Hz|_]; [apply Ht in Hz; subst t|]
  end; try discriminate.
  all: try (match type of E with context [(length ?l =? ?n)%nat] =>
    destruct (Nat.eqb_spec (length l) n) as [Hl|] end;
    cbn [negb] in E; [|discriminate];
    apply ok_inj in E as <-; cbn [wf_term term_encode]).
  - rewrite !slice_field, two_slices by lia.
    split; [split; apply slice_u16; lia | reflexivity].
  - rewrite !slice_field by lia. rewrite app_assoc, <- app_assoc.
    rewrite <- (slice_split rest 8 10 12), two_slices by lia.
    split; [|reflexivity].
    split; [apply slice_u64; lia | split; apply slice_u16; lia].
  - destruct (term_decode_chunk rest) as [d|] eqn:Ed; [|discriminate].
    apply ok_inj in E as <-. apply (chunk_forth rest d T_INPUT), Ed.
  - destruct (term_decode_chunk rest) as [d|] eqn:Ed; [|discriminate].
    apply ok_inj in E as <-. apply (chunk_forth rest d T_OUTPUT), Ed.
  - rewrite !slice_field, two_slices by lia.
    split; [split; apply slice_u16; lia | reflexivity].
  - destruct rest; [split; [exact I | reflexivity] | discriminate].
  - rewrite !slice_field, two_slices by lia.
    split; [split; apply slice_u64; lia | reflexivity].
  - destruct rest as [|r [|]]; try discriminate.
    destruct (find _ DENY_WIRE) as [x|] eqn:Ef; [|discriminate].
    cbn in E. apply ok_inj in E as <-. apply deny_find in Ef.
    split; [exact I|]. cbn. rewrite Ef, z2b_b2z. reflexivity.
  - destruct (i32_forth rest Hl) as [A B]. rewrite B. split; [exact A | reflexivity].
Qed.

(** A terminal frame is accepted exactly when it is the encoding of a
    frame whose fields fit and whose chunk is within the limit; so a frame that
    was sent is received as it was, and nothing else is. *)
Theorem term_frame_iff bytes f :
  term_decode (TE := TE) bytes = Ok f <->
  wf_term f /\ term_encode f = Some bytes.
Proof.
  split; [apply term_sound|]. intros [Hw He]. apply (term_complete f); auto.
Qed.

End Roundtrip.
