(* ===== verification/Terminal.v ===== *)
(** * Terminal: write lease, PTY hub and registry ([otp-terminal]: lease.rs,
    hub.rs)

    One method is one atomic step: each holds its mutex from its first to its
    last line.  [Instant::now()] is an argument of the step, once per call of
    it.  The kernel's terminal and child process are the class [PtyDevice]; a
    hub shared by [Arc] is an entry of the registry's store, under its handle,
    so that every holder of the handle sees the same hub. *)

From stdpp Require Import gmap.
From S2P Require Export TermFrame Pty.

#[local] Open Scope list_scope.
#[local] Open Scope Z_scope.

(** ** lease.rs *)

Inductive LeaseDenied := LdBusy (holder token : Z).

Record LeaseInner := MkLease {
  li_token : Z;
  li_holder : option Z;
  li_last_seen : Z;
  li_abandoned : bool;
}.

Record LeaseSnapshot := MkSnapshot {
  sn_token : Z;
  sn_holder : option Z;
  sn_abandoned : bool;
  sn_expired : bool;
}.

(** [LeaseManager::new]; [None] is the panic on a zero timeout. *)
Definition lease_new (timeout now : Z) : option LeaseInner :=
  if 0 <? timeout then Some (MkLease 0 None now true) else None.

(** [elapsed] does not go below zero. *)
Definition is_expired (g : LeaseInner) (timeout now : Z) : bool :=
  timeout <? saturating_sub now (li_last_seen g).

(** The token check of [heartbeat], [is_current] and [with_write_gate]. *)
Definition stale (g : LeaseInner) (timeout now token : Z) : bool :=
  negb (li_token g =? token) || li_abandoned g || is_expired g timeout now.

(** [acquire]: the new token; [None] is the panic on overflow. *)
Definition acquire (g : LeaseInner) (timeout now later conn : Z) :
  LeaseInner * option (result Z LeaseDenied) :=
  let grant :=
    match checked_add_u64 (li_token g) 1 with
    | None => (g, None)
    | Some token => (MkLease token (Some conn) later false, Some (Ok token))
    end in
  match li_holder g with
  | Some holder =>
      if negb (li_abandoned g) && negb (is_expired g timeout now)
      then (g, Some (Err (LdBusy holder (li_token g))))
      else grant
  | None => grant
  end.

(** [LeaseGrant::drop]. *)
Definition drop_grant (g : LeaseInner) (token : Z) : LeaseInner :=
  if (li_token g =? token) && negb (li_abandoned g)
  then MkLease (li_token g) (li_holder g) (li_last_seen g) true
  else g.

Section Lease.
Context {TE : Type}.

Definition heartbeat (g : LeaseInner) (timeout now later token : Z) :
  LeaseInner * result unit (TerminalError TE) :=
  if stale g timeout now token then (g, Err TeStaleWriter)
  else (MkLease (li_token g) (li_holder g) later (li_abandoned g), Ok tt).

Definition is_current (g : LeaseInner) (timeout now token : Z) : bool :=
  (li_token g =? token) && negb (li_abandoned g) &&
  negb (is_expired g timeout now).

(** [with_write_gate]: the action runs under the lock, on the state [S] it
    shares. *)
Definition with_write_gate {S T : Type} (g : LeaseInner)
  (timeout now token : Z) (s : S)
  (action : S -> S * result T (TerminalError TE)) :
  S * result T (TerminalError TE) :=
  if stale g timeout now token then (s, Err TeStaleWriter) else action s.

Definition lease_snapshot (g : LeaseInner) (timeout now : Z) : LeaseSnapshot :=
  MkSnapshot (li_token g) (li_holder g) (li_abandoned g)
    (is_expired g timeout now).

End Lease.

(** ** hub.rs *)

Definition PTY_WRITE_SLICE : Z := 2048.

(** What [waitpid] reported: an exit code, or a signal. *)
Record WaitStatus := MkWait { wt_code : option Z; wt_signal : option Z }.

(** The PTY master and its child (otp-platform pty.rs, over the kernel);
    [false] and [Err] are I/O errors. *)
Class PtyDevice (D : Type) := {
  write_all_bounded : D -> list byte -> D * bool;
  set_winsize : D -> WindowSize -> D * bool;
  read_timeout : D -> nat -> D * result PtyRead unit;
  try_wait : D -> D * result (option WaitStatus) unit;
}.

Record PtySlot (D : Type) := MkSlot { sl_device : D; sl_exit : option Z }.
Arguments MkSlot {D}. Arguments sl_device {D}. Arguments sl_exit {D}.

Record PtyHub (D : Type) := MkHub {
  hb_handle : Z;
  hb_lease : LeaseInner;
  hb_pty : PtySlot D;
}.
Arguments MkHub {D}. Arguments hb_handle {D}. Arguments hb_lease {D}.
Arguments hb_pty {D}.

Section Hub.
Context {TE D : Type} `{PtyDevice D}.

Definition set_lease (h : PtyHub D) (g : LeaseInner) : PtyHub D :=
  MkHub (hb_handle h) g (hb_pty h).
Definition set_slot (h : PtyHub D) (s : PtySlot D) : PtyHub D :=
  MkHub (hb_handle h) (hb_lease h) s.

Definition hub_acquire (h : PtyHub D) (timeout now later conn : Z) :
  PtyHub D * option (result Z LeaseDenied) :=
  let '(g, r) := acquire (hb_lease h) timeout now later conn in
  (set_lease h g, r).

Definition hub_heartbeat (h : PtyHub D) (timeout now later token : Z) :
  PtyHub D * result unit (TerminalError TE) :=
  let '(g, r) := heartbeat (hb_lease h) timeout now later token in
  (set_lease h g, r).

(** An action on the device under the write gate, refused after the exit. *)
Definition gated (h : PtyHub D) (timeout now token : Z)
  (f : D -> D * bool) : PtyHub D * result unit (TerminalError TE) :=
  let '(slot, r) :=
    with_write_gate (hb_lease h) timeout now token (hb_pty h)
      (fun slot =>
         match sl_exit slot with
         | Some _ => (slot, Err TeClosed)
         | None =>
             let '(d, ok) := f (sl_device slot) in
             (MkSlot d (sl_exit slot), if ok then Ok tt else Err TeIo)
         end) in
  (set_slot h slot, r).

Definition write_input (h : PtyHub D) (timeout now token : Z)
  (data : list byte) : PtyHub D * result unit (TerminalError TE) :=
  gated h timeout now token (fun d => write_all_bounded d data).

Definition resize (h : PtyHub D) (timeout now token : Z) (w : WindowSize) :
  PtyHub D * result unit (TerminalError TE) :=
  gated h timeout now token (fun d => set_winsize d w).

Definition drain_output (h : PtyHub D) (n : nat) :
  PtyHub D * result PtyRead (TerminalError TE) :=
  let '(d, r) := read_timeout (sl_device (hb_pty h)) n in
  (set_slot h (MkSlot d (sl_exit (hb_pty h))), map_err (fun _ => TeIo) r).

(** [status.code().unwrap_or(128 + signal_of(&status))]. *)
Definition exit_code (st : WaitStatus) : Z :=
  match wt_code st with
  | Some code => code
  | None => 128 + match wt_signal st with Some s => s | None => 0 end
  end.

Definition poll_exit (h : PtyHub D) : PtyHub D * option Z :=
  match sl_exit (hb_pty h) with
  | Some code => (h, Some code)
  | None =>
      let '(d, r) := try_wait (sl_device (hb_pty h)) in
      match r with
      | Ok (Some st) =>
          (set_slot h (MkSlot d (Some (exit_code st))), Some (exit_code st))
      | _ => (set_slot h (MkSlot d None), None)
      end
  end.

Definition has_exited (h : PtyHub D) : bool := is_some (sl_exit (hb_pty h)).

(** *** The registry *)

(** [rg_store] is every hub a connection may still hold; [rg_live] the handles
    of the map. *)
Record TerminalRegistry := MkRegistry {
  rg_timeout : Z;
  rg_conn_counter : Z;
  rg_next_handle : Z;
  rg_live : gset Z;
  rg_store : gmap Z (PtyHub D);
}.

Definition registry_new (timeout : Z) : TerminalRegistry :=
  MkRegistry timeout 0 1 ∅ ∅.

(** [fetch_add] wraps; the [+ 1] on its result too. *)
Definition next_conn (r : TerminalRegistry) : TerminalRegistry * Z :=
  let n := (rg_conn_counter r + 1) mod 2 ^ 64 in
  (MkRegistry (rg_timeout r) n (rg_next_handle r) (rg_live r) (rg_store r), n).

(** [open]: [spawned] is what the spawn thread answers, [now] the clock of the
    lease; [None] is the panic on overflow, or on a zero lease timeout. *)
Definition registry_open (r : TerminalRegistry) (spawned : option D) (now : Z) :
  TerminalRegistry * option (result Z (TerminalError TE)) :=
  let handle := rg_next_handle r in
  match checked_add_u64 handle 1 with
  | None => (r, None)
  | Some next =>
      let r := MkRegistry (rg_timeout r) (rg_conn_counter r) next (rg_live r)
                 (rg_store r) in
      match spawned with
      | None => (r, Some (Err TeIo))
      | Some d =>
          match lease_new (rg_timeout r) now with
          | None => (r, None)
          | Some g =>
              let hub := MkHub handle g (MkSlot d None) in
              (MkRegistry (rg_timeout r) (rg_conn_counter r) next
                 ({[handle]} ∪ rg_live r) (<[handle := hub]> (rg_store r)),
               Some (Ok handle))
          end
      end
  end.

Definition registry_find (r : TerminalRegistry) (handle : Z) : bool :=
  bool_decide (handle ∈ rg_live r).

Definition retire (r : TerminalRegistry) (handle : Z) : TerminalRegistry :=
  MkRegistry (rg_timeout r) (rg_conn_counter r) (rg_next_handle r)
    (rg_live r ∖ {[handle]}) (rg_store r).

Definition live_handles (r : TerminalRegistry) : nat := size (rg_live r).

End Hub.
Arguments TerminalRegistry : clear implicits.
