(* ===== verification/TerminalSpec.v ===== *)
(** * TerminalSpec: one writer at a time, and handles that are never reused *)

From stdpp Require Import gmap.
From Stdlib Require Import Sorted Strings.Byte.
From S2P Require Export Terminal.

#[local] Open Scope list_scope.
#[local] Open Scope Z_scope.

(** ** The abstract lease

    What connections see of a hub: grants, accepted heartbeats, actions on the
    terminal, and guards dropped.  The specification is an automaton over the
    last granted token, the time of its last sign of life, and whether it has
    been given up. *)
Inductive HubEvent :=
  | EvGrant (token at_ : Z)
  | EvBeat (token at_ : Z)
  | EvAction (token : Z)
  | EvDrop (token : Z).

Fixpoint fenced (timeout cur last : Z) (free : bool)
  (evs : list (Z * HubEvent)) : Prop :=
  match evs with
  | [] => True
  | (now, EvGrant token t) :: evs =>
      token = cur + 1 /\ (free = true \/ timeout < now - last) /\
      fenced timeout token t false evs
  | (now, EvBeat token t) :: evs =>
      token = cur /\ free = false /\ now - last <= timeout /\
      fenced timeout cur t free evs
  | (now, EvAction token) :: evs =>
      token = cur /\ free = false /\ now - last <= timeout /\
      fenced timeout cur last free evs
  | (_, EvDrop token) :: evs =>
      fenced timeout cur last (free || (token =? cur)) evs
  end.

Definition action_token (e : Z * HubEvent) : list Z :=
  match snd e with EvAction token => [token] | _ => [] end.

Lemma fenced_actions_from timeout evs : forall cur last free,
  fenced timeout cur last free evs ->
  Forall (Z.le cur) (concat (map action_token evs)) /\
  StronglySorted Z.le (concat (map action_token evs)).
Proof.
  induction evs as [|[now e] evs IH]; intros cur last free Hf;
    [split; constructor|].
  destruct e as [token t|token t|token|token]; cbn in *.
  - destruct Hf as (-> & _ & Hf). apply IH in Hf as [A B]. split; [|exact B].
    revert A. apply Forall_impl. cbn. lia.
  - destruct Hf as (_ & _ & _ & Hf). eapply IH, Hf.
  - destruct Hf as (-> & _ & _ & Hf). apply IH in Hf as [A B].
    split; constructor; auto; lia.
  - eapply IH, Hf.
Qed.

(** ** Histories of a hub *)

Section HubHistory.
Context {TE D : Type} `{PtyDevice D}.

Inductive HubOp :=
  | HoAcquire (conn : Z)
  | HoHeartbeat (token : Z)
  | HoWrite (token : Z) (data : list byte)
  | HoResize (token : Z) (w : WindowSize)
  | HoDrop (token : Z)
  | HoDrain (n : nat)
  | HoPoll.

(** The terminal was touched unless the gate or the exit refused. *)
Definition touched (r : result unit (TerminalError TE)) : bool :=
  match r with Ok _ | Err TeIo => true | _ => false end.

(** One step at times [now <= later], with what it shows. *)
Definition hub_step (timeout : Z) (h : PtyHub D) (now later : Z) (op : HubOp) :
  PtyHub D * list (Z * HubEvent) :=
  match op with
  | HoAcquire conn =>
      let '(h, r) := hub_acquire h timeout now later conn in
      (h, match r with
          | Some (Ok token) => [(now, EvGrant token later)]
          | _ => []
          end)
  | HoHeartbeat token =>
      let '(h, r) := hub_heartbeat (TE := TE) h timeout now later token in
      (h, match r with Ok _ => [(now, EvBeat token later)] | _ => [] end)
  | HoWrite token data =>
      let '(h, r) := write_input (TE := TE) h timeout now token data in
      (h, if touched r then [(now, EvAction token)] else [])
  | HoResize token w =>
      let '(h, r) := resize (TE := TE) h timeout now token w in
      (h, if touched r then [(now, EvAction token)] else [])
  | HoDrop token => (set_lease h (drop_grant (hb_lease h) token), [(now, EvDrop token)])
  | HoDrain n => (fst (drain_output (TE := TE) h n), [])
  | HoPoll => (fst (poll_exit h), [])
  end.

Fixpoint hub_run (timeout : Z) (h : PtyHub D) (ops : list (Z * Z * HubOp)) :
  PtyHub D * list (Z * HubEvent) :=
  match ops with
  | [] => (h, [])
  | (now, later, op) :: ops =>
      let '(h, e1) := hub_step timeout h now later op in
      let '(h, e2) := hub_run timeout h ops in
      (h, e1 ++ e2)
  end.

(** The lease and the automaton's state. *)
Definition lease_abs (g : LeaseInner) (cur last : Z) (free : bool) : Prop :=
  li_token g = cur /\ li_last_seen g = last /\ li_abandoned g = free /\
  (li_holder g = None -> free = true).

Lemma expired_iff g timeout now :
  0 < timeout ->
  is_expired g timeout now = true <-> timeout < now - li_last_seen g.
Proof.
  intros Ht. unfold is_expired, saturating_sub. rewrite Z.ltb_lt. lia.
Qed.

Lemma stale_false g timeout now token :
  0 < timeout -> stale g timeout now token = false ->
  token = li_token g /\ li_abandoned g = false /\
  now - li_last_seen g <= timeout.
Proof.
  intros Ht E. unfold stale in E. apply orb_false_iff in E as [E E3].
  apply orb_false_iff in E as [E1 E2].
  apply negb_false_iff, Z.eqb_eq in E1. split_and!; auto.
  apply Z.nlt_ge. intros X. apply (expired_iff g timeout now Ht) in X. congruence.
Qed.

Lemma gated_lease (h : PtyHub D) timeout now token f h' r :
  0 < timeout -> gated (TE := TE) h timeout now token f = (h', r) ->
  hb_lease h' = hb_lease h /\
  (touched r = true -> stale (hb_lease h) timeout now token = false).
Proof.
  intros Ht E. unfold gated, with_write_gate in E.
  destruct (stale (hb_lease h) timeout now token) eqn:Es.
  - injection E as <- <-. split; [reflexivity | discriminate].
  - destruct (sl_exit (hb_pty h)); [injection E as <- <-; auto|].
    destruct (f (sl_device (hb_pty h))) as [d ok].
    injection E as <- <-. auto.
Qed.

(** An acquisition is refused, or takes a lease that is free or expired. *)
Lemma acquire_cases g timeout now later conn g' r :
  0 < timeout -> acquire g timeout now later conn = (g', r) ->
  (g' = g /\ forall token, r <> Some (Ok token)) \/
  (r = Some (Ok (li_token g + 1)) /\ g' = MkLease (li_token g + 1) (Some conn) later false /\
   (li_holder g = None \/ li_abandoned g = true \/ timeout < now - li_last_seen g)).
Proof.
  intros Ht E. unfold acquire in E.
  assert (Hg : (li_holder g = None \/ li_abandoned g = true \/ timeout < now - li_last_seen g) ->
    match checked_add_u64 (li_token g) 1 with
    | None => (g, None)
    | Some token => (MkLease token (Some conn) later false, Some (Ok (E := LeaseDenied) token))
    end = (g', r) ->
    (g' = g /\ forall token, r <> Some (Ok token)) \/
    (r = Some (Ok (li_token g + 1)) /\ g' = MkLease (li_token g + 1) (Some conn) later false /\
     (li_holder g = None \/ li_abandoned g = true \/ timeout < now - li_last_seen g))).
  { intros Hf Eg. destruct (checked_add_u64 _ 1) as [tk|] eqn:Ek; injection Eg as <- <-.
    - apply checked_add_u64_some in Ek as [-> _]. auto.
    - left. split; [reflexivity | discriminate]. }
  destruct (li_holder g) as [o|] eqn:Eo; [|apply Hg; auto].
  destruct (_ && _) eqn:Eb.
  - injection E as <- <-. left. split; [reflexivity | discriminate].
  - apply Hg; [|exact E]. apply andb_false_iff in Eb as [Eb|Eb]; apply negb_false_iff in Eb; auto.
    apply expired_iff in Eb; auto.
Qed.

(** Every step is a step of the automaton. *)
Lemma hub_step_fenced timeout (h : PtyHub D) now later op h' evs cur last free rest :
  0 < timeout -> lease_abs (hb_lease h) cur last free ->
  hub_step timeout h now later op = (h', evs) ->
  (forall cur' last' free', lease_abs (hb_lease h') cur' last' free' ->
     fenced timeout cur' last' free' rest) ->
  fenced timeout cur last free (evs ++ rest).
Proof.
  intros Ht (Hc & Hl & Hf & Hn) E Hrest.
  assert (Hsame : hb_lease h' = hb_lease h -> fenced timeout cur last free rest).
  { intros El. apply Hrest. rewrite El. unfold lease_abs. auto. }
  assert (Hact : forall token r,
    hb_lease h' = hb_lease h /\
      (touched r = true -> stale (hb_lease h) timeout now token = false) ->
    fenced timeout cur last free
      ((if touched r then [(now, EvAction token)] else []) ++ rest)).
  { intros token r [El Hs]. destruct (touched r); [|auto].
    destruct (stale_false _ _ _ _ Ht (Hs eq_refl)) as (-> & A & B).
    cbn. split_and!; auto; congruence. }
  destruct op as [conn|token|token data|token w|token|n|]; cbn [hub_step] in E.
  - unfold hub_acquire in E. destruct (acquire _ _ _ _ _) as [g r] eqn:Ea.
    apply acquire_cases in Ea as [[-> Hr]|(-> & -> & Hfree)]; [| |exact Ht].
    + assert (evs = []) as -> by (destruct r as [[token|]|]; [destruct (Hr token eq_refl)|congruence..]).
      injection E as <- _. apply Hsame. reflexivity.
    + injection E as <- <-. cbn. split_and!; [congruence | intuition congruence|].
      apply Hrest. unfold lease_abs. cbn. split_and!; auto; discriminate.
  - unfold hub_heartbeat, heartbeat in E.
    destruct (stale (hb_lease h) timeout now token) eqn:Es; injection E as <- <-.
    + apply Hsame. reflexivity.
    + destruct (stale_false _ _ _ _ Ht Es) as (-> & A & B). cbn.
      split_and!; try congruence. apply Hrest. unfold lease_abs. cbn. auto.
  - destruct (write_input h timeout now token data) as [h1 r] eqn:Ew.
    injection E as <- <-. apply Hact. eapply gated_lease; eauto.
  - destruct (resize h timeout now token w) as [h1 r] eqn:Ew.
    injection E as <- <-. apply Hact. eapply gated_lease; eauto.
  - injection E as <- <-. cbn. apply Hrest. cbn. unfold drop_grant, lease_abs.
    rewrite Hc, (Z.eqb_sym token). destruct (Z.eqb_spec cur token);
      cbn [andb]; [|rewrite orb_false_r; auto].
    rewrite Hf, orb_true_r. destruct free; cbn; auto.
  - injection E as <- <-. apply Hsame. unfold drain_output.
    destruct (read_timeout _ n). reflexivity.
  - injection E as <- <-. apply Hsame. unfold poll_exit.
    destruct (sl_exit (hb_pty h)); [reflexivity|].
    destruct (try_wait _) as [d [[st|]|]]; reflexivity.
Qed.

Lemma hub_run_fenced timeout ops : forall (h h' : PtyHub D) evs cur last free,
  0 < timeout -> lease_abs (hb_lease h) cur last free ->
  hub_run timeout h ops = (h', evs) -> fenced timeout cur last free evs.
Proof.
  induction ops as [|[[now later] op] ops IH]; intros h h' evs cur last free Ht Ha E;
    cbn [hub_run] in E; [injection E as <- <-; exact I|].
  destruct (hub_step timeout h now later op) as [h1 e1] eqn:E1.
  destruct (hub_run timeout h1 ops) as [h2 e2] eqn:E2. injection E as <- <-.
  eapply hub_step_fenced; eauto.
Qed.

(** C22: one writer at a time.  Whatever operations connections perform on a
    fresh hub, in any order and at any times, what they see is a run of the
    abstract lease: tokens are granted 1, 2, 3, ...; a new token only after the
    last one was dropped or gave no sign of life for the timeout; heartbeats and
    actions on the terminal only with the last token granted, while it is neither
    dropped nor expired.  So the tokens of the actions never go down: once a
    connection is taken over, it never touches the terminal again. *)
Theorem hub_single_writer timeout (h : PtyHub D) now0 ops h' evs :
  lease_new timeout now0 = Some (hb_lease h) ->
  hub_run timeout h ops = (h', evs) ->
  fenced timeout 0 now0 true evs /\
  StronglySorted Z.le (concat (map action_token evs)).
Proof.
  intros En E. unfold lease_new in En.
  destruct (Z.ltb_spec 0 timeout) as [Ht|]; [|discriminate].
  injection En as Eg.
  assert (Hf : fenced timeout 0 now0 true evs).
  { eapply hub_run_fenced; eauto. rewrite <- Eg. unfold lease_abs. cbn. auto. }
  split; [exact Hf|]. apply (fenced_actions_from _ _ _ _ _ Hf).
Qed.

End HubHistory.

(** ** Histories of the registry *)

Section RegistryHistory.
Context {TE D : Type} `{PtyDevice D}.

Inductive RegistryOp :=
  | RoOpen (spawned : option D) (now : Z)
  | RoRetire (handle : Z).

Inductive RegistryEvent := RvOpened (handle : Z) | RvFailed | RvPanic | RvRetired (handle : Z).

Definition registry_step (r : TerminalRegistry D) (op : RegistryOp) :
  TerminalRegistry D * RegistryEvent :=
  match op with
  | RoOpen spawned now =>
      let '(r, res) := registry_open (TE := TE) r spawned now in
      (r, match res with
          | Some (Ok handle) => RvOpened handle
          | Some (Err _) => RvFailed
          | None => RvPanic
          end)
  | RoRetire handle => (retire r handle, RvRetired handle)
  end.

(** The events are listed with the last one first. *)
Fixpoint registry_run (r : TerminalRegistry D) (past : list RegistryEvent)
  (ops : list RegistryOp) : TerminalRegistry D * list RegistryEvent :=
  match ops with
  | [] => (r, past)
  | op :: ops => let '(r, e) := registry_step r op in registry_run r (e :: past) ops
  end.

(** Opens that took a handle number, whether the spawn succeeded or not. *)
Definition took (e : RegistryEvent) : nat :=
  match e with RvOpened _ | RvFailed => 1 | _ => 0 end.

Definition taken (past : list RegistryEvent) : Z :=
  Z.of_nat (sum_list (map took past)).

(** Opened, and not retired since. *)
Fixpoint alive (past : list RegistryEvent) (h : Z) : Prop :=
  match past with
  | [] => False
  | RvOpened h' :: past => h = h' \/ alive past h
  | RvRetired h' :: past => h <> h' /\ alive past h
  | _ :: past => alive past h
  end.

(** Each handle is the number of the open that took it. *)
Fixpoint numbered (past : list RegistryEvent) : Prop :=
  match past with
  | [] => True
  | RvOpened h :: past => h = 1 + taken past /\ numbered past
  | _ :: past => numbered past
  end.

Record registry_inv (timeout : Z) (r : TerminalRegistry D)
  (past : list RegistryEvent) : Prop := {
  ri_timeout : rg_timeout r = timeout;
  ri_next : rg_next_handle r = 1 + taken past;
  ri_numbered : numbered past;
  ri_alive : forall h, h ∈ rg_live r <-> alive past h;
  ri_store : forall h, h ∈ rg_live r ->
    exists hub, rg_store r !! h = Some hub /\ hb_handle hub = h;
}.

Lemma registry_step_inv timeout r past op r' e :
  0 < timeout -> registry_inv timeout r past ->
  registry_step r op = (r', e) -> registry_inv timeout r' (e :: past).
Proof.
  intros Ht [It In Inum Ia Is] E. destruct op as [sp now|h]; cbn in E.
  - unfold registry_open, lease_new in E.
    destruct (checked_add_u64 _ 1) as [nx|] eqn:Ek.
    2: { injection E as <- <-. split; auto. }
    apply checked_add_u64_some in Ek as [-> _]. cbn in E.
    rewrite It, (proj2 (Z.ltb_lt _ _) Ht) in E. destruct sp as [d|].
    + injection E as <- <-.
      split; cbn; [auto | unfold taken in *; cbn; lia | auto | |].
      * intros h. rewrite elem_of_union, elem_of_singleton, Ia. tauto.
      * intros h [->%elem_of_singleton|Hin]%elem_of_union.
        -- rewrite lookup_insert_eq. eauto.
        -- destruct (decide (h = rg_next_handle r)) as [->|Hne];
             [rewrite lookup_insert_eq; eauto|].
           rewrite lookup_insert_ne by congruence. auto.
    + injection E as <- <-.
      split; cbn; auto. unfold taken in *; cbn; lia.
  - injection E as <- <-. split; cbn; auto.
    + intros h'. rewrite elem_of_difference, elem_of_singleton, Ia. tauto.
    + intros h' [? _]%elem_of_difference. auto.
Qed.

Lemma registry_run_inv timeout ops : forall r past r' past',
  0 < timeout -> registry_inv timeout r past ->
  registry_run r past ops = (r', past') -> registry_inv timeout r' past'.
Proof.
  induction ops as [|op ops IH]; intros r past r' past' Ht Hi E; cbn in E.
  - injection E as <- <-. exact Hi.
  - destruct (registry_step r op) as [r1 e] eqn:E1.
    eapply IH; [exact Ht | | exact E]. eapply registry_step_inv; eauto.
Qed.

(** A handle names one terminal for ever.  In any history of opens and
    retirements each handle is the number of the open that took it, a number
    being used up by an open that failed too, so no handle is handed out twice;
    a handle is found exactly when it was opened and not retired since, and what
    is found under it is the terminal opened with it. *)
Theorem registry_handles_fresh timeout ops r past :
  0 < timeout ->
  registry_run (registry_new timeout) [] ops = (r, past) ->
  numbered past /\
  (forall h, registry_find r h = true <-> alive past h) /\
  (forall h, registry_find r h = true ->
     exists hub, rg_store r !! h = Some hub /\ hb_handle hub = h).
Proof.
  intros Ht E.
  destruct (registry_run_inv timeout ops (registry_new timeout) [] r past Ht)
    as [_ _ In Ia Is]; [|exact E|].
  - split; try reflexivity; cbn; set_solver.
  - unfold registry_find. split_and!; [exact In | |];
      intros h; rewrite bool_decide_eq_true; auto.
Qed.

End RegistryHistory.
Arguments RegistryOp : clear implicits.

(** ** Witnesses *)

(** A terminal that keeps what was written to it and never exits. *)
Module Witness.

#[local] Instance tape : PtyDevice (list byte) := {
  write_all_bounded d data := (d ++ data, true);
  set_winsize d _ := (d, true);
  read_timeout d _ := (d, Ok PrTimeout);
  try_wait d := (d, Ok None);
}.

Definition hub0 : PtyHub (list byte) :=
  MkHub 1 (MkLease 0 None 100 true) (MkSlot [] None).

(** Taken over at the timeout: the first holder's late write is refused. *)
Definition takeover : list (Z * Z * HubOp) :=
  [(100, 101, HoAcquire 7); (102, 102, HoWrite 1 [x61]);
   (110, 110, HoAcquire 8); (160, 161, HoAcquire 8);
   (162, 162, HoWrite 1 [x62]); (163, 163, HoWrite 2 [x63])].

Definition registry_ops : list (RegistryOp (list byte)) :=
  [RoOpen (Some []) 0; RoOpen None 0; RoOpen (Some []) 1; RoRetire 1].

End Witness.

Lemma hub_single_writer_witness :
  let evs := [(100, EvGrant 1 101); (102, EvAction 1); (160, EvGrant 2 161);
              (163, EvAction 2)] in
  fenced 50 0 100 true evs /\
  StronglySorted Z.le (concat (map action_token evs)).
Proof.
  apply (hub_single_writer (TE := unit) (H := Witness.tape) 50 Witness.hub0 100
           Witness.takeover
           (MkHub 1 (MkLease 2 (Some 8) 161 false) (MkSlot [x61; x63] None)));
    vm_compute; reflexivity.
Defined.

Lemma registry_handles_fresh_witness :
  let past := [RvRetired 1; RvOpened 3; RvFailed; RvOpened 1] in
  numbered past /\
  let r := fst (registry_run (TE := unit) (registry_new 50) []
                  Witness.registry_ops) in
  (forall h, registry_find r h = true <-> alive past h) /\
  (forall h, registry_find r h = true ->
     exists hub, rg_store r !! h = Some hub /\ hb_handle hub = h).
Proof.
  apply (registry_handles_fresh (TE := unit) 50 Witness.registry_ops).
  - lia.
  - vm_compute. reflexivity.
Defined.
