(* ===== verification/TermSpawn.v ===== *)
(** * TermSpawn: shells of terminals ([otp-terminal], hub.rs)

    Making a pair of master and shell, the thread of the registry that does so for all
    connections, the registry's side of it, and the end of a terminal; with the theorem
    that a shell is started whole or leaves nothing behind. *)

From stdpp Require Import strings sets gmultiset.
From S2P Require Export Terminal PtySpec.

#[local] Open Scope list_scope.
#[local] Open Scope Z_scope.

Section Spawn.
Context {TE : Type}.

(** A master and the id of its child. *)
Definition pty_pair : Type := Fd * Z.

Definition winsize_of (w : WindowSize) : PtyWinsize := MkWinsize (ws_rows w) (ws_cols w).

(** The job of the spawn thread, and [spawn_pty_pair]; a master whose shell does not
    start is dropped. *)
Definition spawn_job (shell : list string) (ws : PtyWinsize) :
  pty_act (result pty_pair (TerminalError TE)) :=
  try* master := master_open ws else (fun _ => TeIo) in
  let* r := spawn_on_pty master shell ws in
  match r with
  | Ok child => done (Ok (master, child))
  | Err _ => let* _ := pty_ask (PyClose master) in done (Err TeIo)
  end.

Definition spawn_pty_pair (shell : list string) (window : WindowSize) :
  pty_act (result pty_pair (TerminalError TE)) := spawn_job shell (winsize_of window).

(** [PtyHub::spawn] and [from_parts]; [None] is the panic on a zero lease timeout. *)
Definition hub_spawn (handle : Z) (shell : list string) (window : WindowSize)
  (lease_timeout : Z) : pty_act (result (option (PtyHub pty_pair)) (TerminalError TE)) :=
  try* p := spawn_pty_pair shell window else id in
  let* now := pty_ask PyNow in
  done (Ok (option_map (fun g => MkHub handle g (MkSlot p None)) (lease_new lease_timeout now))).

(** Five seconds. *)
Definition MASTER_WRITE_BUDGET : Z := 5 * 10 ^ 9.

(** What [write_input], [resize] and [drain_output] do to the master: the operations
    of the class [PtyDevice]. *)
Definition slot_write (fuel : nat) (p : pty_pair) (data : list byte) :
  pty_act (result unit (TerminalError TE)) :=
  let* r := master_write_all_bounded fuel p.1 data MASTER_WRITE_BUDGET in
  done (map_err (fun _ => TeIo) r).

Definition slot_resize (p : pty_pair) (window : WindowSize) :
  pty_act (result unit (TerminalError TE)) :=
  let* r := master_set_winsize p.1 (winsize_of window) in
  done (map_err (fun _ => TeIo) r).

Definition slot_drain (fuel : nat) (p : pty_pair) (n : nat) :
  pty_act (result PtyRead (TerminalError TE)) :=
  let* r := master_read_timeout fuel p.1 n 0 in
  done (map_err (fun _ => TeIo) r).

(** [Drop for PtyHub], then the fields. *)
Definition hub_drop (p : pty_pair) : pty_act unit :=
  let* _ := pty_ask (PyKill p.2) in
  let* _ := pty_ask (PyWait p.2) in
  pty_ask (PyClose p.1).

(** ** The thread that makes shells *)

(** [WkNext]: the next job, or [None] when the registry is gone; [WkReply]: is anyone
    still waiting? *)
Inductive WorkerCall :=
  | WkNext
  | WkPty (c : PtyCall)
  | WkReply (r : result pty_pair (TerminalError TE)).

Definition worker_answer (c : WorkerCall) : Type :=
  match c with
  | WkNext => option (list string * PtyWinsize)
  | WkPty c => pty_answer c
  | WkReply _ => bool
  end.

Notation worker_act R := (act WorkerCall worker_answer R).
Definition worker_ask (c : WorkerCall) : worker_act (worker_answer c) :=
  ask (C := WorkerCall) (A := worker_answer) c.
Definition worker_pty {R} (p : pty_act R) : worker_act R :=
  lift (A2 := worker_answer) WkPty (fun _ a => a) p.

(** One job; a result nobody waits for is dropped with its master. *)
Definition worker_job (shell : list string) (ws : PtyWinsize) : worker_act unit :=
  let* r := worker_pty (spawn_job shell ws) in
  let* taken := worker_ask (WkReply r) in
  match r with
  | Ok (master, _) => if (taken : bool) then done tt else worker_ask (WkPty (PyClose master))
  | Err _ => done tt
  end.

Fixpoint spawn_thread (fuel : nat) : worker_act unit :=
  match fuel with
  | O => Ret OutOfFuel
  | S fuel =>
      let* job := worker_ask WkNext in
      match job with
      | None => done tt
      | Some (shell, ws) => let* _ := worker_job shell ws in spawn_thread fuel
      end
  end.

(** ** The registry's side *)

(** [HcThread]: a thread is started; [HcSend]: a job is handed to it, [false] when it has
    ended; [HcRecv]: its answer, [None] when it ended without one. *)
Inductive HubCall :=
  | HcThread
  | HcSend (shell : list string) (ws : PtyWinsize)
  | HcRecv
  | HcNow.

Definition hub_answer (c : HubCall) : Type :=
  match c with
  | HcThread | HcSend _ _ => bool
  | HcRecv => option (result pty_pair (TerminalError TE))
  | HcNow => Z
  end.

Notation hub_act R := (act HubCall hub_answer R).
Definition hub_ask (c : HubCall) : hub_act (hub_answer c) :=
  ask (C := HubCall) (A := hub_answer) c.

(** [spawner]: the registry holds the sending end of a thread; also what it holds
    afterwards. *)
Definition spawn_via_worker (spawner : bool) (shell : list string) (window : WindowSize) :
  hub_act (bool * result pty_pair (TerminalError TE)) :=
  let* spawner := (if spawner then done true else hub_ask HcThread) in
  if negb spawner then done (false, Err TeIo) else
  let* sent := hub_ask (HcSend shell (winsize_of window)) in
  if negb sent then done (false, Err TeIo) else
  let* r := hub_ask HcRecv in
  done match r with
       | Some r => (true, r)
       | None => (false, Err TeIo)
       end.

(** [TerminalRegistry::open], with the spawn thread. *)
Definition open_terminal (r : TerminalRegistry pty_pair) (spawner : bool)
  (shell : list string) (window : WindowSize) :
  hub_act (TerminalRegistry pty_pair * bool * result Z (TerminalError TE)) :=
  match checked_add_u64 (rg_next_handle r) 1 with
  | None => Ret Panicked
  | Some _ =>
      let* '(spawner, p) := spawn_via_worker spawner shell window in
      match p with
      | Err e =>
          done ((registry_open (TE := TE) r None 0).1, spawner, Err e)
      | Ok d =>
          let* now := hub_ask HcNow in
          match registry_open r (Some d) now with
          | (r, Some h) => done (r, spawner, h)
          | (_, None) => Ret Panicked
          end
      end
  end.

End Spawn.

(** ** A shell is started whole or leaves nothing behind *)

(** The descriptors that are open, with multiplicity. *)
Definition held_step (h : gmultiset Fd) (e : event pty_answer) : gmultiset Fd :=
  match e with
  | existT PyOpenpt a => match a with Some fd => h ⊎ {[+ fd +]} | None => h end
  | existT (PyOpenSlave _) a => match a with Ok fd => h ⊎ {[+ fd +]} | Err _ => h end
  | existT (PyClose fd) _ => h ∖ {[+ fd +]}
  | _ => h
  end.
Definition held (t : list (event pty_answer)) : gmultiset Fd := foldl held_step ∅ t.

(** What was started: program, parent and child. *)
Definition started (t : list (event pty_answer)) : list (list string * Z * Z) :=
  concat (map (fun e : event pty_answer =>
    match e with
    | existT (PySpawn argv _ parent) a => match a with Ok pid => [(argv, parent, pid)] | Err _ => [] end
    | _ => []
    end) t).

(** Every call is on a descriptor that is open. *)
Definition in_use (t : list (event pty_answer)) (c : PtyCall) (_ : pty_answer c) : Prop :=
  match c with
  | PyGrant fd | PyUnlock fd | PyGetFl fd | PySetFl fd _ | PyClose fd | PyPoll fd _ _
  | PyWrite fd _ | PyRead fd _ | PySetWinsize fd _ | PyGetWinsize fd | PyPtsname fd _ =>
      fd ∈ held t
  | PySpawn _ (i, o, e) _ => {[+ i; o; e +]} ⊆ held t
  | _ => True
  end.

Definition nonblocking (fd : Fd) (t : list (event pty_answer)) : Prop :=
  exists flags, ev (PySetFl fd (Z.lor flags O_NONBLOCK)) true ∈ t.

Lemma held_snoc t e : held (t ++ [e]) = held_step (held t) e.
Proof. unfold held. rewrite foldl_app. reflexivity. Qed.

Lemma started_trace_app t t' : started (t ++ t') = started t ++ started t'.
Proof. unfold started. rewrite map_app. apply concat_app. Qed.

(** A point to compare with: the descriptors, what was started, the calls so far. *)
Record Base := MkBase {
  ba_held : gmultiset Fd; ba_started : list (list string * Z * Z); ba_trace : list (event pty_answer)
}.
Definition base (m : list (event pty_answer)) : Base := MkBase (held m) (started m) m.

(** So many descriptors more, and nothing started, since [b]. *)
Definition opens (fds : gmultiset Fd) (b : Base) (m : list (event pty_answer)) : Prop :=
  held m = ba_held b ⊎ fds /\ started m = ba_started b /\ ba_trace b `prefix_of` m.

Lemma opens_refl m : opens ∅ (base m) m.
Proof. split_and!; [multiset_solver | reflexivity | reflexivity]. Qed.

Lemma opens_snoc b fds m' c (a : pty_answer c) fds' :
  opens fds b m' -> held_step (held m') (ev c a) = ba_held b ⊎ fds' -> started [ev c a] = [] ->
  opens fds' b (m' ++ [ev c a]).
Proof.
  intros (Hh & Hs & Hp) E Es. split_and!.
  - rewrite held_snoc. exact E.
  - rewrite started_trace_app, Es, app_nil_r. exact Hs.
  - apply prefix_app_r, Hp.
Qed.

Notation wholds p m Q := (act_upholds in_use p m Q) (only parsing).

(** A call that leaves the descriptors as they are; [Hm] says which are open. *)
Lemma keeps_upholds m0 fds m c (Q : pty_answer c -> list (event pty_answer) -> Prop) :
  opens fds m0 m ->
  (forall a, in_use m c a /\ held_step (held m) (ev c a) = held m /\ started [ev c a] = []) ->
  (forall a m', opens fds m0 m' -> m' = m ++ [ev c a] -> Q a m') ->
  wholds (pty_ask c) m Q.
Proof.
  intros Hm Hc HQ a. destruct (Hc a) as (Hu & Hh & Hs). split; [exact Hu|].
  apply HQ; [|reflexivity]. eapply opens_snoc; [exact Hm | rewrite Hh; apply Hm | exact Hs].
Qed.

Lemma close_upholds m0 fds m fd (Q : unit -> list (event pty_answer) -> Prop) :
  opens ({[+ fd +]} ⊎ fds) m0 m ->
  (forall m', opens fds m0 m' -> Q tt m') -> wholds (pty_ask (PyClose fd)) m Q.
Proof.
  intros Hm HQ []. destruct Hm as (Hh & Hs & Hp). split; [cbn; rewrite Hh; multiset_solver|].
  apply HQ. eapply opens_snoc; [split_and!; eassumption | | reflexivity].
  cbn. rewrite Hh. multiset_solver.
Qed.

Ltac on_held Hm :=
  eapply keeps_upholds; [exact Hm | intros ?; split_and!; [cbn; auto | reflexivity..] |].

Lemma nonblocking_prefix fd m m' : nonblocking fd m -> m `prefix_of` m' -> nonblocking fd m'.
Proof. intros [flags Hf] [l ->]. exists flags. apply elem_of_app. auto. Qed.

Lemma opens_holds fds b m fd : opens fds b m -> fd ∈ fds -> fd ∈ held m.
Proof. intros (-> & _) Hf. multiset_solver. Qed.

Lemma set_winsize_upholds fds m0 m fd w (Q : _ -> _ -> Prop) :
  opens fds m0 m -> fd ∈ held m -> (forall r m', opens fds m0 m' -> m `prefix_of` m' -> Q r m') ->
  wholds (master_set_winsize fd w) m Q.
Proof.
  intros Hm Hf HQ. apply act_upholds_bind. on_held Hm.
  intros a m' Hm' ->. apply HQ; [exact Hm'|]. apply prefix_app_r. reflexivity.
Qed.

Lemma master_open_upholds w m :
  wholds (master_open w) m (fun r m' =>
    match r with
    | Ok fd => opens {[+ fd +]} (base m) m' /\ nonblocking fd m'
    | Err _ => opens ∅ (base m) m'
    end).
Proof.
  apply act_upholds_bind, act_upholds_ask. intros [fd|]; (split; [exact Logic.I|]).
  2:{ apply act_upholds_done. eapply opens_snoc; [apply opens_refl | cbn; multiset_solver | reflexivity]. }
  assert (H0 : opens {[+ fd +]} (base m) (m ++ [ev PyOpenpt (Some fd)])).
  { eapply opens_snoc; [apply opens_refl | reflexivity | reflexivity]. }
  assert (Hfd : forall m', opens {[+ fd +]} (base m) m' -> fd ∈ held m').
  { intros m' Hm'. eapply opens_holds; [exact Hm' | multiset_solver]. }
  assert (Hdrop : forall m' e, opens {[+ fd +]} (base m) m' ->
    wholds (master_drop (R := Fd) fd e) m' (fun r m'' =>
      match r with Ok fd => opens {[+ fd +]} (base m) m'' /\ nonblocking fd m'' | Err _ => opens ∅ (base m) m'' end)).
  { intros m' e Hm'. apply act_upholds_bind. apply (close_upholds (base m) ∅); [|auto].
    rewrite (right_id_L ∅ (⊎)). exact Hm'. }
  apply act_upholds_bind. on_held H0. intros [] m1 H1 _.
  apply act_upholds_bind. on_held H1. intros [] m2 H2 _.
  apply act_upholds_bind. on_held H2. intros [flags|] m3 H3 _;
    [|apply Hdrop, H3].
  apply act_upholds_bind. on_held H3. intros [] m4 H4 E4; [|apply Hdrop, H4].
  assert (Hn : nonblocking fd m4) by (exists flags; subst m4; set_solver).
  cbn [negb]. destruct (winsize_known w); [|split; assumption].
  apply act_upholds_bind. eapply set_winsize_upholds; [exact H4 | auto|].
  intros [u|e] m5 H5 Hp; [|apply Hdrop, H5]. split; [exact H5 | eapply nonblocking_prefix; eassumption].
Qed.

Notation these l := (list_to_set_disj (C := gmultiset Fd) l) (only parsing).

Lemma close_all_upholds m0 fds l : forall m (Q : unit -> _ -> Prop),
  opens (these l ⊎ fds) m0 m -> (forall m', opens fds m0 m' -> Q tt m') ->
  wholds (close_all l) m Q.
Proof.
  induction l as [|fd l IH]; intros m Q Hm HQ.
  - apply act_upholds_done, HQ. change (these []) with (∅ : gmultiset Fd) in Hm. rewrite (left_id_L ∅ (⊎)) in Hm. exact Hm.
  - apply act_upholds_bind. apply (close_upholds m0 (these l ⊎ fds)); [|intros m' H'; eauto].
    rewrite (assoc_L (⊎)). exact Hm.
Qed.

Lemma open_slave_upholds m0 path l m (Q : _ -> _ -> Prop) :
  opens (these l) m0 m ->
  (forall fd m', opens (these (fd :: l)) m0 m' -> Q (Ok fd) m') ->
  (forall e m', opens ∅ m0 m' -> Q (Err e) m') ->
  wholds (open_slave path l) m Q.
Proof.
  intros Hm HQ He. apply act_upholds_bind, act_upholds_ask. intros [fd|e]; (split; [exact Logic.I|]).
  - apply act_upholds_done, HQ. eapply opens_snoc; [exact Hm | | reflexivity].
    destruct Hm as (Hh & _).
    change (held m ⊎ {[+ fd +]} = ba_held m0 ⊎ these (fd :: l)). rewrite Hh, list_to_set_disj_cons, <- (assoc_L (⊎)).
    f_equal. apply (comm_L (⊎)).
  - apply act_upholds_bind. apply (close_all_upholds m0 ∅ l); [|intros m' H'; apply He, H'].
    rewrite (right_id_L ∅ (⊎)). eapply opens_snoc; [exact Hm | apply Hm | reflexivity].
Qed.

Lemma slave_path_upholds m0 m fd (Q : _ -> _ -> Prop) :
  opens ∅ m0 m -> fd ∈ held m -> (forall r m', opens ∅ m0 m' -> Q r m') ->
  wholds (slave_path fd) m Q.
Proof.
  intros Hm Hf HQ. apply act_upholds_bind. on_held Hm. intros a m' Hm' _. apply HQ, Hm'.
Qed.

(** What [spawn_on_pty] leaves: nothing more open, and the child if it answers one. *)
Definition spawned (argv : list string) (b : Base)
  {E} (r : result Z E) (m : list (event pty_answer)) : Prop :=
  match r with
  | Err _ => opens ∅ b m
  | Ok pid => exists parent, ev PyGetpid parent ∈ m /\
      opens ∅ (MkBase (ba_held b) (ba_started b ++ [(argv, parent, pid)]) (ba_trace b)) m
  end.

Lemma run_child_upholds argv b m i o e :
  opens (these [i; o; e]) b m ->
  wholds (let* parent := pty_ask PyGetpid in
          let* child := pty_ask (PySpawn argv (i, o, e) parent) in
          let* _ := close_all [i; o; e] in
          done (map_err (fun _ => PeIo) child)) m (spawned argv b).
Proof.
  intros Hm. apply act_upholds_bind. on_held Hm. intros parent m1 H1 E1.
  assert (Hp : ev PyGetpid parent ∈ m1) by (subst m1; set_solver). clear E1.
  destruct H1 as (Hh & Hs & Ht).
  apply act_upholds_bind, act_upholds_ask. intros child. split.
  { cbn [in_use]. rewrite Hh, !list_to_set_disj_cons, list_to_set_disj_nil. multiset_solver. }
  set (m2 := m1 ++ _).
  assert (Hp2 : ev PyGetpid parent ∈ m2) by (unfold m2; set_solver).
  assert (H2 : opens (these [i; o; e] ⊎ ∅) (MkBase (ba_held b)
    (ba_started b ++ started [ev (PySpawn argv (i, o, e) parent) child]) m2) m2).
  { split_and!; [unfold m2; rewrite held_snoc, (right_id_L ∅ (⊎)); exact Hh
      | unfold m2; rewrite started_trace_app, Hs; reflexivity | reflexivity]. }
  assert (Ht2 : ba_trace b `prefix_of` m2) by apply prefix_app_r, Ht.
  clearbody m2. apply act_upholds_bind. apply (close_all_upholds _ ∅ [i; o; e] m2 _ H2).
  intros m3 (Hh3 & Hs3 & Ht3). cbn in Hs3, Ht3. apply act_upholds_done.
  assert (Hbt : ba_trace b `prefix_of` m3) by (etransitivity; eassumption).
  destruct child as [pid|err]; cbn in *.
  - exists parent. split; [|split_and!; assumption].
    destruct Ht3 as [l ->]. apply elem_of_app. auto.
  - rewrite app_nil_r in Hs3. split_and!; assumption.
Qed.

Lemma spawn_on_pty_upholds argv w m fd :
  fd ∈ held m -> wholds (spawn_on_pty fd argv w) m (spawned argv (base m)).
Proof.
  intros Hf. unfold spawn_on_pty. case_bool_decide; [apply act_upholds_done, opens_refl|].
  apply act_upholds_bind. eapply (act_upholds_mono _ _ _ (fun _ => opens ∅ (base m))).
  { destruct (winsize_known w); [|apply act_upholds_done, opens_refl].
    eapply set_winsize_upholds; [apply opens_refl | exact Hf | auto]. }
  intros [u|e] m1 H1; [|apply act_upholds_done, H1].
  assert (Hf1 : fd ∈ held m1) by (destruct H1 as (-> & _); cbn; multiset_solver).
  apply act_upholds_bind. eapply slave_path_upholds; [exact H1 | exact Hf1|].
  intros [path|e] m2 H2; [|apply act_upholds_done, H2].
  apply act_upholds_bind. eapply (open_slave_upholds _ path []); [exact H2 | |]; cycle 1.
  { intros e m3 H3. apply act_upholds_done, H3. }
  intros i m3 H3. apply act_upholds_bind. eapply (open_slave_upholds _ path [i]); [exact H3 | |]; cycle 1.
  { intros e m4 H4. apply act_upholds_done, H4. }
  intros o m4 H4. apply act_upholds_bind. eapply (open_slave_upholds _ path [o; i]); [exact H4 | |]; cycle 1.
  { intros e m5 H5. apply act_upholds_done, H5. }
  intros e m5 H5. apply run_child_upholds.
  replace (these [i; o; e]) with (these [e; o; i]); [exact H5|].
  rewrite !list_to_set_disj_cons, list_to_set_disj_nil. multiset_solver.
Qed.

(** [spawn] answers a child only if the child's side of it ended in the program. *)
Definition spawn_sound (e : event pty_answer) : Prop :=
  match e with
  | existT (PySpawn argv _ parent) a =>
      match a with Ok _ => exists t, runs (child_main argv parent) t (Done (Ok tt)) | Err _ => True end
  | _ => True
  end.

(** The child is the head of a session of its own with the terminal as its own, dies with
    its parent, and saw its parent alive after that was arranged; then it is the program. *)
Lemma child_ready argv parent t :
  runs (child_main argv parent) t (Done (Ok tt)) ->
  t = [ev CcSetsid (Ok tt); ev (CcSetCtty 0) (Ok tt); ev (CcDeathSignal SIGKILL) (Ok tt);
       ev CcGetppid parent; ev (CcExec argv) None].
Proof.
  intros ([[]|e1] & t1 & -> & Hr); cbn in Hr; [|destruct Hr as [-> Hr]; discriminate Hr].
  destruct Hr as ([[]|e2] & t2 & -> & Hr); cbn in Hr; [|destruct Hr as [-> Hr]; discriminate Hr].
  destruct Hr as ([[]|e3] & t3 & -> & Hr); cbn in Hr; [|destruct Hr as [-> Hr]; discriminate Hr].
  destruct Hr as (ppid & t4 & -> & Hr). cbn in Hr.
  case_bool_decide as Hp; cbn in Hr; [|destruct Hr as [-> Hr]; discriminate Hr]. subst ppid.
  destruct Hr as ([e5|] & t5 & -> & -> & Hr); [discriminate Hr | reflexivity].
Qed.

Lemma close_all_total l : finishes (close_all l).
Proof. induction l as [|fd l IH]; cbn [close_all]; finishes_steps. Qed.

Lemma open_slave_total path l : finishes (open_slave path l).
Proof. unfold open_slave. pose proof (close_all_total l). finishes_steps. Qed.

Lemma spawn_job_total {TE} shell ws : finishes (spawn_job (TE := TE) shell ws).
Proof.
  pose proof close_all_total as Hc. pose proof open_slave_total as Ho.
  assert (Hs : forall fd w, finishes (master_set_winsize fd w)).
  { intros fd w. unfold master_set_winsize. finishes_steps. }
  assert (Hd : forall fd e, finishes (master_drop (R := Fd) fd e)).
  { intros fd e. unfold master_drop. finishes_steps. }
  unfold spawn_job, master_open, spawn_on_pty, slave_path. finishes_steps; auto.
Qed.

Lemma opens_trans a c m m1 m2 :
  opens a (base m) m1 -> opens c (base m1) m2 -> opens (a ⊎ c) (base m) m2.
Proof.
  intros (H1 & H2 & H3) (H4 & H5 & H6). cbn in *. split_and!.
  - rewrite H4, H1. symmetry. apply (assoc_L (⊎)).
  - cbn. congruence.
  - cbn. etransitivity; eassumption.
Qed.

(** A child that was started ran its part. *)
Lemma started_child argv parent pid t :
  Forall spawn_sound t -> started t = [(argv, parent, pid)] ->
  exists tc, runs (child_main argv parent) tc (Done (Ok tt)).
Proof.
  induction 1 as [|[c a] t He _ IH]; [discriminate|]. intros Hs.
  pose proof (started_trace_app [ev c a] t) as E. change (started (ev c a :: t) = [(argv, parent, pid)]) in Hs.
  change ([ev c a] ++ t) with (ev c a :: t) in E. rewrite E in Hs. clear E.
  destruct c; try exact (IH Hs). destruct a as [pid'|]; [|exact (IH Hs)].
  injection Hs as -> -> ->. exact He.
Qed.

Definition job_left {TE} (shell : list string) (m : list (event pty_answer))
  (r : result pty_pair (TerminalError TE)) (m' : list (event pty_answer)) : Prop :=
  match r with
  | Err e => e = TeIo /\ opens ∅ (base m) m'
  | Ok (master, pid) =>
      held m' = held m ⊎ {[+ master +]} /\ nonblocking master m' /\
      exists parent, ev PyGetpid parent ∈ m' /\
        started m' = started m ++ [(shell, parent, pid)]
  end.

Lemma spawn_job_upholds {TE} shell ws m :
  wholds (spawn_job (TE := TE) shell ws) m (job_left shell m).
Proof.
  apply act_upholds_bind. eapply act_upholds_mono; [apply master_open_upholds|].
  intros [fd|e] m1 H1; [|apply act_upholds_done; split; [reflexivity | exact H1]].
  destruct H1 as [H1 Hn].
  assert (Hf : fd ∈ held m1) by (eapply opens_holds; [exact H1 | multiset_solver]).
  apply act_upholds_bind. eapply act_upholds_mono; [apply spawn_on_pty_upholds, Hf|].
  intros [pid|e] m2 H2.
  - destruct H2 as (parent & Hp & Hh & Hs & Ht). apply act_upholds_done.
    destruct H1 as (Hh1 & Hs1 & Ht1). cbn in *. split_and!.
    + rewrite Hh, Hh1. apply (right_id_L ∅ (⊎)).
    + eapply nonblocking_prefix; [exact Hn | exact Ht].
    + exists parent. split; [exact Hp|]. rewrite Hs, Hs1. reflexivity.
  - apply act_upholds_bind. apply (close_upholds (base m) ∅).
    + eapply opens_trans; [exact H1 | exact H2].
    + intros m3 H3. apply act_upholds_done. split; [reflexivity | exact H3].
Qed.

(** C27: making a terminal always returns, uses descriptors only while they are open and
    opens no others.  If it fails, it has closed all it opened and no program runs.  If
    it succeeds, exactly the master is open, in the non-blocking mode that the bounded
    writes rely on, and one program runs: the shell, at the head of its own session with
    the terminal as its own, set to die with the server, which was alive then. *)
Theorem shell_spawned {TE} shell ws t o :
  runs (spawn_job (TE := TE) shell ws) t o -> Forall spawn_sound t ->
  (forall t1 c a t2, t = t1 ++ ev c a :: t2 -> in_use t1 c a) /\
  exists r, o = Done r /\
    match r with
    | Err e => e = TeIo /\ held t = ∅ /\ started t = []
    | Ok (master, pid) =>
        held t = {[+ master +]} /\ nonblocking master t /\
        exists parent, ev PyGetpid parent ∈ t /\ started t = [(shell, parent, pid)] /\
          runs (child_main shell parent)
            [ev CcSetsid (Ok tt); ev (CcSetCtty 0) (Ok tt); ev (CcDeathSignal SIGKILL) (Ok tt);
             ev CcGetppid parent; ev (CcExec shell) None] (Done (Ok tt))
    end.
Proof.
  intros Hr Hsound. pose proof (spawn_job_upholds (TE := TE) shell ws []) as Hu. split.
  { intros t1 c a t2 ->. apply runs_follows in Hr.
    exact (upholds_follows _ _ _ _ _ _ _ _ Hu Hr). }
  destruct (finishes_runs _ _ _ (spawn_job_total shell ws) Hr) as [r ->]. exists r. split; [reflexivity|].
  pose proof (upholds_runs _ _ _ _ _ _ Hu Hr) as Hq. cbn in Hq.
  destruct r as [[master pid]|e].
  - destruct Hq as (Hh & Hn & parent & Hp & Hs). split_and!; [|exact Hn|].
    { rewrite Hh. apply (left_id_L ∅ (⊎)). }
    exists parent. split_and!; [exact Hp | exact Hs|].
    destruct (started_child _ _ _ _ Hsound Hs) as [tc Hc]. pose proof (child_ready _ _ _ Hc) as ->.
    exact Hc.
  - destruct Hq as (-> & Hh & Hs & _). split_and!; [reflexivity | exact Hh | exact Hs].
Qed.

(** The terminal ends: its child is killed and waited for, its master closed. *)
Lemma hub_drop_closes p m t o :
  held m = {[+ p.1 +]} -> runs (hub_drop p) t o ->
  o = Done tt /\ held (m ++ t) = ∅ /\
  exists k w, t = [ev (PyKill p.2) k; ev (PyWait p.2) w; ev (PyClose p.1) tt].
Proof.
  intros Hm (k & t1 & -> & w & t2 & -> & [] & t3 & -> & -> & ->). split_and!; [reflexivity | | eauto].
  unfold held in *. rewrite foldl_app, Hm. apply gmultiset_difference_diag.
Qed.

(** ** The registry with its spawn thread

    The thread only answers [Io]; then opening is [registry_open] of what the thread
    made, and the registry holds on to a thread only if it answered. *)
Definition io_only {TE} (e : event (hub_answer (TE := TE))) : Prop :=
  match e with
  | existT HcRecv a => forall e, a = Some (Err e) -> e = TeIo
  | _ => True
  end.

(** The thread's answers. *)
Definition replies {TE} (t : list (event (hub_answer (TE := TE)))) :=
  concat (map (fun e : event hub_answer =>
    match e with existT HcRecv a => match a with Some r => [r] | None => [] end | _ => [] end) t).

Lemma replies_app {TE} (t t' : list (event (hub_answer (TE := TE)))) :
  replies (t ++ t') = replies t ++ replies t'.
Proof. unfold replies. rewrite map_app. apply concat_app. Qed.

Lemma spawn_via_worker_runs {TE} spawner shell window t o :
  runs (spawn_via_worker (TE := TE) spawner shell window) t o -> Forall io_only t ->
  exists held res, o = Done (held, res) /\ (forall e, res = Err e -> e = TeIo) /\
    (held = true <-> replies t <> []).
Proof.
  intros Hr Ht. unfold spawn_via_worker in Hr. apply runs_bind in Hr as (t1 & t2 & o1 & -> & H1 & H2).
  rewrite replies_app. assert (E : (exists b, o1 = Done b) /\ replies t1 = []).
  { destruct spawner; [destruct H1 as [-> ->] | destruct H1 as (b & ? & -> & -> & ->)]; split; eauto. }
  destruct E as [[b ->] ->]. destruct b; cbn in H2.
  2:{ destruct H2 as [-> ->]. do 2 eexists. split_and!; [reflexivity | congruence | cbn; easy]. }
  destruct H2 as ([] & t3 & -> & H2); cbn in H2.
  2:{ destruct H2 as [-> ->]. do 2 eexists. split_and!; [reflexivity | congruence | cbn; easy]. }
  destruct H2 as (a & t4 & -> & -> & ->). destruct a as [a|]; do 2 eexists;
    (split_and!; [reflexivity | | cbn; easy]); [|congruence].
  intros e ->. apply Forall_app in Ht as [_ Ht]. apply Forall_cons_iff in Ht as [_ Ht].
  apply Forall_cons_iff in Ht as [Ht _]. exact (Ht e eq_refl).
Qed.

Lemma open_terminal_opens {TE} r spawner shell window t o :
  runs (open_terminal (TE := TE) r spawner shell window) t o -> Forall io_only t ->
  exists made now, match o with
    | Done (r', held, res) =>
        registry_open r made now = (r', Some res) /\ (held = true <-> replies t <> [])
    | Panicked => (registry_open (TE := TE) r made now).2 = None
    | OutOfFuel => False
    end.
Proof.
  unfold open_terminal. destruct (checked_add_u64 (rg_next_handle r) 1) as [next|] eqn:En.
  2:{ intros [-> ->] _. exists None, 0. unfold registry_open. rewrite En. reflexivity. }
  intros Hr Ht. apply runs_bind in Hr as (t1 & t2 & o1 & -> & H1 & H2).
  apply Forall_app in Ht as [Ht1 _].
  destruct (spawn_via_worker_runs _ _ _ _ _ H1 Ht1) as (held & res & -> & Hio & Hh).
  rewrite replies_app. destruct res as [d|e]; cbn in H2.
  - destruct H2 as (now & t3 & -> & H2). cbn in H2. exists (Some d), now.
    destruct (registry_open r (Some d) now) as [r' [h|]]; destruct H2 as [-> ->]; [|reflexivity].
    cbn [replies map concat app]. rewrite app_nil_r. split; [reflexivity | exact Hh].
  - destruct H2 as [-> ->]. exists None, 0. rewrite app_nil_r. split; [|exact Hh].
    unfold registry_open. rewrite En, (Hio e eq_refl). reflexivity.
Qed.

(** ** Witness *)

Definition demo_child (w : unit) (c : ChildCall) : unit * child_answer c :=
  match c with
  | CcSetsid | CcSetCtty _ | CcDeathSignal _ => (tt, Ok tt)
  | CcGetppid => (tt, 41)
  | CcExec _ => (tt, None)
  end.

Definition demo_job :=
  exec demo_kernel (0, []) (spawn_job (TE := unit) ["/bin/sh"%string] (MkWinsize 24 80)).

Lemma demo_job_run :
  runs (spawn_job (TE := unit) ["/bin/sh"%string] (MkWinsize 24 80)) (snd (fst demo_job)) (snd demo_job) /\
  Forall spawn_sound (snd (fst demo_job)) /\ snd demo_job = Done (Ok (7, 42)).
Proof.
  split; [exact (exec_is_run demo_kernel _ _)|]. split; [|reflexivity].
  match goal with |- Forall _ ?l => let l' := eval vm_compute in l in change (Forall spawn_sound l') end.
  repeat apply Forall_cons_2; try exact Logic.I; [|apply Forall_nil_2].
  exists (snd (fst (exec demo_child tt (child_main ["/bin/sh"%string] 41)))).
  exact (exec_is_run demo_child tt _).
Qed.

Lemma shell_spawned_witness :
  snd demo_job = Done (Ok (7, 42)) /\ held (snd (fst demo_job)) = {[+ 7 +]} /\
  nonblocking 7 (snd (fst demo_job)).
Proof.
  destruct demo_job_run as (Hr & Hs & E). split; [exact E|].
  destruct (shell_spawned _ _ _ _ Hr Hs) as (_ & r & Er & Hq). rewrite E in Er.
  injection Er as <-. destruct Hq as (Hh & Hn & _). split; [exact Hh | exact Hn].
Defined.
