(* ===== verification/Transport.v ===== *)
(** * Transport: frames over byte streams ([otp-transport]: lib.rs, frame.rs,
    tcp.rs, loopback.rs)

    A call that does not return (it blocks for ever, or loops) is [None].  The
    kernel's socket is the class [TcpStream]; the two ends of the in-memory pipe
    share the store [Shared], and what the other end does while this one waits is
    a schedule carried by the call's state. *)

From S2P Require Export Message.

#[local] Open Scope list_scope.
#[local] Open Scope Z_scope.

(** ** lib.rs *)

Inductive TransportError :=
  | TrIo
  | TrTimeout
  | TrClosedByPeer
  | TrFrameTooLarge (len : Z)
  | TrFrameMalformed.

#[global] Instance transport_error_eq_dec : EqDecision TransportError.
Proof. solve_decision. Defined.

Definition transport_code (e : TransportError) : ErrorCode :=
  match e with
  | TrIo | TrTimeout => IO_ERROR
  | TrClosedByPeer | TrFrameMalformed => FRAME_TRUNCATED
  | TrFrameTooLarge _ => BAD_LENGTH
  end.

Definition is_peer_condition (e : TransportError) : bool :=
  match e with TrClosedByPeer | TrFrameMalformed => true | _ => false end.

(** [FramedStream]; deadlines are in any unit. *)
Class FramedStream (T : Type) := {
  fs_send_frame : T -> list byte -> option (T * result unit TransportError);
  fs_recv_frame : T -> option (T * result (list byte) TransportError);
  fs_set_deadline : T -> Z -> T * result unit TransportError;
  fs_shutdown_write : T -> T * result unit TransportError;
  fs_close : T -> T * result unit TransportError;
}.

(** ** frame.rs *)

Definition WRITE_CHUNK : nat := 16 * 1024.

(** [read_full] answers [Some] of the bytes, or [None] for [Ok(false)]: the
    stream ended before the first one. *)
Class ByteIo (T : Type) := {
  read_full : T -> nat ->
    option (T * result (option (list byte)) TransportError);
  write_partial : T -> list byte -> option (T * result nat TransportError);
}.

(** [u32::from_be_bytes] of bytes 4 to 7. *)
Definition declared_len (header : list byte) : Z := be_val (slice 4 8 header).

Section Frame.
Context {T : Type} `{ByteIo T}.

Definition recv_frame (io : T) :
  option (T * result (list byte) TransportError) :=
  match read_full io (Z.to_nat FRAME_HEADER_LEN) with
  | None => None
  | Some (io, Err e) => Some (io, Err e)
  | Some (io, Ok None) => Some (io, Err TrClosedByPeer)
  | Some (io, Ok (Some header)) =>
      let payload_len := declared_len header in
      if MAX_FRAME_PAYLOAD <? payload_len
      then Some (io, Err (TrFrameTooLarge payload_len)) else
      match read_full io (Z.to_nat payload_len) with
      | None => None
      | Some (io, Err e) => Some (io, Err e)
      | Some (io, Ok None) => Some (io, Err TrFrameMalformed)
      | Some (io, Ok (Some payload)) => Some (io, Ok (header ++ payload))
      end
  end.

(** The loop of [send_frame]; the fuel is the length of the frame, enough when
    every write advances. *)
Fixpoint send_loop (fuel : nat) (io : T) (rest : list byte) :
  option (T * result unit TransportError) :=
  match rest, fuel with
  | [], _ => Some (io, Ok tt)
  | _, O => None
  | _, S fuel =>
      match write_partial io (take WRITE_CHUNK rest) with
      | None => None
      | Some (io, Err e) => Some (io, Err e)
      | Some (io, Ok n) => send_loop fuel io (drop n rest)
      end
  end.

Definition send_frame (io : T) (frame : list byte) :
  option (T * result unit TransportError) :=
  let len := Z.of_nat (length frame) in
  if len <? FRAME_HEADER_LEN then Some (io, Err TrFrameMalformed) else
  let declared := declared_len frame in
  if MAX_FRAME_PAYLOAD <? declared
  then Some (io, Err (TrFrameTooLarge declared)) else
  if negb (declared =? len - FRAME_HEADER_LEN)
  then Some (io, Err TrFrameMalformed) else
  send_loop (length frame) io frame.

End Frame.

(** ** tcp.rs *)

(** [std::io::ErrorKind], as far as it is told apart. *)
Inductive ErrorKind :=
  | EkWouldBlock | EkTimedOut | EkBrokenPipe | EkConnectionReset | EkNotConnected
  | EkOther.

(** The kernel's socket ([read], [write], [shutdown]); a read answers the bytes
    it filled in, none at the end of the stream. *)
Class TcpStream (S : Type) := {
  sock_read : S -> nat -> S * result (list byte) ErrorKind;
  sock_write : S -> list byte -> S * result nat ErrorKind;
  sock_shutdown : S -> bool -> S * result unit ErrorKind;
  sock_set_read_timeout : S -> Z -> S * result unit ErrorKind;
  sock_set_write_timeout : S -> Z -> S * result unit ErrorKind;
}.

Section Tcp.
Context {S : Type} `{TcpStream S}.

Definition read_error (e : ErrorKind) : TransportError :=
  match e with EkWouldBlock | EkTimedOut => TrTimeout | _ => TrIo end.

Definition write_error (e : ErrorKind) : TransportError :=
  match e with
  | EkWouldBlock | EkTimedOut => TrTimeout
  | EkBrokenPipe | EkConnectionReset => TrClosedByPeer
  | _ => TrIo
  end.

(** The loop of [read_full]: [missing] bytes are still wanted; one byte at least
    comes with every read that does not end it. *)
Fixpoint tcp_read_loop (fuel : nat) (s : S) (missing : nat)
  (got : list byte) : S * result (option (list byte)) TransportError :=
  match missing, fuel with
  | O, _ | _, O => (s, Ok (Some got))
  | _, Datatypes.S fuel =>
      let '(s, r) := sock_read s missing in
      match r with
      | Ok [] =>
          (s, match got with [] => Ok None | _ => Err TrFrameMalformed end)
      | Ok bs => tcp_read_loop fuel s (missing - length bs) (got ++ bs)
      | Err e => (s, Err (read_error e))
      end
  end.

#[global] Instance tcp_byte_io : ByteIo S := {
  read_full s n := Some (tcp_read_loop n s n []);
  write_partial s buf :=
    let '(s, r) := sock_write s buf in Some (s, map_err write_error r);
}.

(** [shutdown]: [false] for the write side, [true] for both. *)
Definition tcp_shutdown (s : S) (both : bool) : S * result unit TransportError :=
  let '(s, r) := sock_shutdown s both in
  (s, match r with
      | Ok _ | Err EkNotConnected => Ok tt
      | Err _ => Err TrIo
      end).

Definition tcp_set_deadline (s : S) (timeout : Z) :
  S * result unit TransportError :=
  if timeout =? 0 then (s, Err TrIo) else
  let '(s, r) := sock_set_read_timeout s timeout in
  match r with
  | Err _ => (s, Err TrIo)
  | Ok _ =>
      let '(s, r) := sock_set_write_timeout s timeout in
      (s, map_err (fun _ => TrIo) r)
  end.

#[global] Instance tcp_framed : FramedStream S := {
  fs_send_frame := send_frame;
  fs_recv_frame := recv_frame;
  fs_set_deadline := tcp_set_deadline;
  fs_shutdown_write s := tcp_shutdown s false;
  fs_close s := tcp_shutdown s true;
}.

End Tcp.
