(* ===== verification/Loopback.v ===== *)
(** * Loopback: the in-memory transport ([otp-transport], loopback.rs)

    Two ends share two bounded pipes and a tap.  A lock is held from its taking
    to its release; a wait on a condition variable releases it, and what the
    other end does meanwhile is the next entry of the schedule.  When the schedule
    is used up the call is still waiting ([None]).  Times are nanoseconds;
    [Instant::now()] reads the next entry of a clock. *)

From S2P Require Export Transport.

#[local] Open Scope list_scope.
#[local] Open Scope Z_scope.

Record PipeState := MkPipe {
  pp_buf : list byte;
  pp_capacity : nat;
  pp_write_closed : bool;
  pp_reader_gone : bool;
}.

Inductive Side := SideA | SideB.

Record Shared := MkShared {
  sh_a2b : PipeState;
  sh_b2a : PipeState;
  sh_tap : option (list byte);
}.

Record LoopbackTransport := MkLoopback {
  lt_side : Side;
  lt_timeout : option Z;
  lt_closed : bool;
}.

Definition DEFAULT_CAPACITY : nat := Z.to_nat MAX_FRAME.

Definition pipe_new (capacity : nat) : PipeState := MkPipe [] capacity false false.

(** [build]; [None] is the panic on a zero capacity. *)
Definition loopback_build (capacity : nat) (tap : option (list byte)) :
  option (Shared * (LoopbackTransport * LoopbackTransport)) :=
  if (0 <? capacity)%nat
  then Some (MkShared (pipe_new capacity) (pipe_new capacity) tap,
             (MkLoopback SideA None false, MkLoopback SideB None false))
  else None.

Definition new_pair_bounded (capacity : nat) := loopback_build capacity None.
Definition new_pair := new_pair_bounded DEFAULT_CAPACITY.

(** The tap is part of what the pair shares. *)
Definition new_pair_tapped := loopback_build DEFAULT_CAPACITY (Some []).

Definition tap_snapshot (sh : Shared) : option (list byte) := sh_tap sh.
Definition tap_len (sh : Shared) : option nat := option_map (@length byte) (tap_snapshot sh).

(** Pipes are named by the side that writes into them. *)
Definition pipe_from (sh : Shared) (w : Side) : PipeState :=
  match w with SideA => sh_a2b sh | SideB => sh_b2a sh end.

Definition set_pipe (sh : Shared) (w : Side) (p : PipeState) : Shared :=
  match w with
  | SideA => MkShared p (sh_b2a sh) (sh_tap sh)
  | SideB => MkShared (sh_a2b sh) p (sh_tap sh)
  end.

Definition other_side (s : Side) : Side :=
  match s with SideA => SideB | SideB => SideA end.

Definition outgoing (t : LoopbackTransport) : Side := lt_side t.
Definition incoming (t : LoopbackTransport) : Side := other_side (lt_side t).

Definition pipe_set_buf (p : PipeState) (b : list byte) : PipeState :=
  MkPipe b (pp_capacity p) (pp_write_closed p) (pp_reader_gone p).
Definition close_write (p : PipeState) : PipeState :=
  MkPipe (pp_buf p) (pp_capacity p) true (pp_reader_gone p).
Definition leave_reader (p : PipeState) : PipeState :=
  MkPipe (pp_buf p) (pp_capacity p) (pp_write_closed p) true.

(** Writing [bs] into a pipe, and into the tap. *)
Definition push (sh : Shared) (w : Side) (bs : list byte) : Shared :=
  let p := pipe_from sh w in
  let sh := set_pipe sh w (pipe_set_buf p (pp_buf p ++ bs)) in
  MkShared (sh_a2b sh) (sh_b2a sh)
    (match sh_tap sh with Some t => Some (t ++ bs) | None => None end).

(** Taking the first [n] bytes out of a pipe. *)
Definition pull (sh : Shared) (w : Side) (n : nat) : Shared :=
  let p := pipe_from sh w in set_pipe sh w (pipe_set_buf p (drop n (pp_buf p))).

(** What the other end did while this end waited; what it wrote did fit. *)
Inductive PeerAct :=
  | PaWrite (bs : list byte)
  | PaRead (n : nat)
  | PaShutdownWrite
  | PaClose.

Definition pipe_space (p : PipeState) : nat := (pp_capacity p - length (pp_buf p))%nat.

(** [me] is the end that waits. *)
Definition peer_act (sh : Shared) (me : Side) (a : PeerAct) : Shared :=
  let you := other_side me in
  match a with
  | PaWrite bs => push sh you bs
  | PaRead n => pull sh me n
  | PaShutdownWrite => set_pipe sh you (close_write (pipe_from sh you))
  | PaClose =>
      let sh := set_pipe sh you (close_write (pipe_from sh you)) in
      set_pipe sh me (leave_reader (pipe_from sh me))
  end.

(** A call's view: [PipeEnd], the store, the clock and the schedule. *)
Record PipeEnd := MkEnd {
  pe_me : Side;
  pe_timeout : option Z;
  pe_shared : Shared;
  pe_clock : list Z;
  pe_sched : list PeerAct;
}.

Definition set_shared (e : PipeEnd) (sh : Shared) : PipeEnd :=
  MkEnd (pe_me e) (pe_timeout e) sh (pe_clock e) (pe_sched e).

Definition set_sched (e : PipeEnd) (sched : list PeerAct) : PipeEnd :=
  MkEnd (pe_me e) (pe_timeout e) (pe_shared e) (pe_clock e) sched.

(** The lock is taken again after the other end acted. *)
Definition after_wait (e : PipeEnd) (a : PeerAct) (sched : list PeerAct) : PipeEnd :=
  set_sched (set_shared e (peer_act (pe_shared e) (pe_me e) a)) sched.

(** [PipeEnd::deadline]. *)
Definition deadline (e : PipeEnd) :
  option (PipeEnd * result (option Z) TransportError) :=
  match pe_timeout e with
  | None => Some (e, Ok None)
  | Some t =>
      if t =? 0 then Some (e, Err TrIo) else
      match pe_clock e with
      | [] => None
      | now :: clock =>
          Some (MkEnd (pe_me e) (pe_timeout e) (pe_shared e) clock (pe_sched e),
                Ok (Some (now + t)))
      end
  end.

(** [PipeEnd::wait], before the other end acts: [false] when the deadline has
    passed. *)
Definition wait_begin (e : PipeEnd) (deadline : option Z) :
  option (PipeEnd * bool) :=
  match deadline with
  | None => Some (e, true)
  | Some d =>
      match pe_clock e with
      | [] => None
      | now :: clock =>
          Some (MkEnd (pe_me e) (pe_timeout e) (pe_shared e) clock (pe_sched e),
                negb (d <=? now))
      end
  end.

(** One pass of the loop of [read_full]: take what is buffered. *)
Definition read_pass (e : PipeEnd) (want : nat) (got : list byte) :
  PipeEnd * list byte * option (result (option (list byte)) TransportError) :=
  let w := other_side (pe_me e) in
  let p := pipe_from (pe_shared e) w in
  let n := Nat.min (length (pp_buf p)) (want - length got) in
  let e' := set_shared e (pull (pe_shared e) w n) in
  let got' := got ++ take n (pp_buf p) in
  (e', got',
   if (0 <? length (pp_buf p))%nat && (length got' =? want)%nat
   then Some (Ok (Some got'))
   else if pp_write_closed p
   then Some (match got' with [] => Ok None | _ => Err TrFrameMalformed end)
   else None).

(** The loop, over the schedule of [e]. *)
Fixpoint read_waits (sched : list PeerAct) (e : PipeEnd) (d : option Z)
  (want : nat) (got : list byte) :
  option (PipeEnd * result (option (list byte)) TransportError) :=
  let '(e, got, r) := read_pass e want got in
  match r with
  | Some r => Some (set_sched e sched, r)
  | None =>
      match wait_begin e d with
      | None => None
      | Some (e, false) =>
          Some (set_sched e sched,
                Err TrTimeout)
      | Some (e, true) =>
          match sched with
          | [] => None
          | a :: sched =>
              read_waits sched (after_wait e a sched) d want got
          end
      end
  end.

Definition pipe_read_full (e : PipeEnd) (want : nat) :
  option (PipeEnd * result (option (list byte)) TransportError) :=
  match deadline e with
  | None => None
  | Some (e, Err x) => Some (e, Err x)
  | Some (e, Ok d) => read_waits (pe_sched e) e d want []
  end.

(** One pass of the loop of [write_partial]. *)
Definition write_pass (e : PipeEnd) (buf : list byte) :
  PipeEnd * option (result nat TransportError) :=
  let p := pipe_from (pe_shared e) (pe_me e) in
  if pp_reader_gone p then (e, Some (Err TrClosedByPeer)) else
  if (0 <? pipe_space p)%nat then
    let n := Nat.min (pipe_space p) (length buf) in
    (set_shared e (push (pe_shared e) (pe_me e) (take n buf)), Some (Ok n))
  else (e, None).

Fixpoint write_waits (sched : list PeerAct) (e : PipeEnd) (d : option Z)
  (buf : list byte) : option (PipeEnd * result nat TransportError) :=
  let '(e, r) := write_pass e buf in
  match r with
  | Some r => Some (set_sched e sched, r)
  | None =>
      match wait_begin e d with
      | None => None
      | Some (e, false) =>
          Some (set_sched e sched,
                Err TrTimeout)
      | Some (e, true) =>
          match sched with
          | [] => None
          | a :: sched =>
              write_waits sched (after_wait e a sched) d buf
          end
      end
  end.

Definition pipe_write_partial (e : PipeEnd) (buf : list byte) :
  option (PipeEnd * result nat TransportError) :=
  match deadline e with
  | None => None
  | Some (e, Err x) => Some (e, Err x)
  | Some (e, Ok d) => write_waits (pe_sched e) e d buf
  end.

#[global] Instance pipe_byte_io : ByteIo PipeEnd := {
  read_full := pipe_read_full;
  write_partial := pipe_write_partial;
}.

(** ** [FramedStream] of an end: the end, and its view of the rest. *)

Record Endpoint := MkEndpoint {
  ep_end : LoopbackTransport;
  ep_shared : Shared;
  ep_clock : list Z;
  ep_sched : list PeerAct;
}.

Definition as_pipe (t : Endpoint) : PipeEnd :=
  MkEnd (lt_side (ep_end t)) (lt_timeout (ep_end t)) (ep_shared t) (ep_clock t)
    (ep_sched t).

Definition back (t : Endpoint) (e : PipeEnd) : Endpoint :=
  MkEndpoint (ep_end t) (pe_shared e) (pe_clock e) (pe_sched e).

Definition lb_send_frame (t : Endpoint) (frame : list byte) :
  option (Endpoint * result unit TransportError) :=
  if lt_closed (ep_end t) then Some (t, Err TrClosedByPeer) else
  match send_frame (as_pipe t) frame with
  | None => None
  | Some (e, r) => Some (back t e, r)
  end.

Definition lb_recv_frame (t : Endpoint) :
  option (Endpoint * result (list byte) TransportError) :=
  if lt_closed (ep_end t) then Some (t, Err TrClosedByPeer) else
  match recv_frame (as_pipe t) with
  | None => None
  | Some (e, r) => Some (back t e, r)
  end.

Definition lb_set_deadline (t : Endpoint) (timeout : Z) :
  Endpoint * result unit TransportError :=
  if timeout =? 0 then (t, Err TrIo) else
  (MkEndpoint (MkLoopback (lt_side (ep_end t)) (Some timeout) (lt_closed (ep_end t)))
     (ep_shared t) (ep_clock t) (ep_sched t), Ok tt).

Definition lb_shutdown_write (t : Endpoint) : Endpoint * result unit TransportError :=
  let w := outgoing (ep_end t) in
  (MkEndpoint (ep_end t)
     (set_pipe (ep_shared t) w (close_write (pipe_from (ep_shared t) w)))
     (ep_clock t) (ep_sched t), Ok tt).

Definition lb_close (t : Endpoint) : Endpoint * result unit TransportError :=
  if lt_closed (ep_end t) then (t, Ok tt) else
  let w := outgoing (ep_end t) in
  let r := incoming (ep_end t) in
  let sh := set_pipe (ep_shared t) w (close_write (pipe_from (ep_shared t) w)) in
  let sh := set_pipe sh r (leave_reader (pipe_from sh r)) in
  (MkEndpoint (MkLoopback (lt_side (ep_end t)) (lt_timeout (ep_end t)) true)
     sh (ep_clock t) (ep_sched t), Ok tt).

#[global] Instance lb_framed : FramedStream Endpoint := {
  fs_send_frame := lb_send_frame;
  fs_recv_frame := lb_recv_frame;
  fs_set_deadline := lb_set_deadline;
  fs_shutdown_write := lb_shutdown_write;
  fs_close := lb_close;
}.
