(* ===== verification/TransportSpec.v ===== *)
(** * TransportSpec: frames over any ordered byte stream *)

From Stdlib Require Import Strings.Byte.
From S2P Require Export Loopback.

#[local] Open Scope list_scope.
#[local] Open Scope Z_scope.

(** ** What a byte stream promises

    [rx]: the bytes still to come, in order.  [accepts io bs io']: from [io] to
    [io'] the stream has taken [bs], after what it had.  A failed read has taken
    bytes off the stream, but never all it asked for. *)
Class ByteStream (T : Type) `{ByteIo T} := {
  rx : T -> list byte;
  accepts : T -> list byte -> T -> Prop;
  accepts_nil io : accepts io [] io;
  accepts_app io1 b1 io2 b2 io3 :
    accepts io1 b1 io2 -> accepts io2 b2 io3 -> accepts io1 (b1 ++ b2) io3;
  read_full_law io n io' r :
    read_full io n = Some (io', r) ->
    match r with
    | Ok (Some bs) => length bs = n /\ rx io = bs ++ rx io'
    | Ok None => rx io' = rx io
    | Err _ => exists lost, rx io = lost ++ rx io' /\
                 (lost = [] \/ (length lost < n)%nat)
    end;
  write_partial_law io buf io' r :
    write_partial io buf = Some (io', r) ->
    match r with
    | Ok k => (k <= length buf)%nat /\ (buf <> [] -> (1 <= k)%nat) /\
              accepts io (take k buf) io'
    | Err _ => accepts io [] io'
    end;
}.

(** A frame whose header declares its length. *)
Definition delimited (f : list byte) : Prop :=
  (8 <= length f)%nat /\ declared_len f <= MAX_FRAME_PAYLOAD /\
  declared_len f = Z.of_nat (length f) - FRAME_HEADER_LEN.

Lemma declared_len_app h rest :
  length h = 8%nat -> declared_len (h ++ rest) = declared_len h.
Proof.
  intros Hl. unfold declared_len, slice. f_equal.
  rewrite skipn_app, take_app_le by (rewrite length_skipn; lia). reflexivity.
Qed.

Lemma declared_len_nonneg h : 0 <= declared_len h.
Proof. apply be_val_bound. Qed.

(** A stream begins with at most one delimited frame. *)
Lemma delimited_unique f g x y :
  delimited f -> delimited g -> f ++ x = g ++ y -> f = g /\ x = y.
Proof.
  intros (Lf & _ & Df) (Lg & _ & Dg) E.
  assert (E8 : take 8 f = take 8 g).
  { rewrite <- (take_app_le f x 8), <- (take_app_le g y 8), E by lia. reflexivity. }
  assert (Hd : forall h, (8 <= length h)%nat -> declared_len h = declared_len (take 8 h)).
  { intros h Lh. rewrite <- (take_drop 8 h) at 1. apply declared_len_app.
    rewrite length_take. lia. }
  rewrite (Hd f Lf), E8, <- (Hd g Lg) in Df.
  apply app_inj_1 in E; [exact E | unfold FRAME_HEADER_LEN in *; lia].
Qed.

Section Frames.
Context {T : Type} `{ByteStream T}.

(** ** Sending *)

Lemma send_loop_law fuel : forall io rest io' r,
  send_loop fuel io rest = Some (io', r) ->
  match r with
  | Ok _ => accepts io rest io'
  | Err _ => exists k, (k < length rest)%nat /\ accepts io (take k rest) io'
  end.
Proof.
  induction fuel as [|fuel IH]; intros io rest io' r E; cbn [send_loop] in E.
  - destruct rest; [|discriminate]. injection E as <- <-. apply accepts_nil.
  - destruct rest as [|b rest]; [injection E as <- <-; apply accepts_nil|].
    remember (b :: rest) as l eqn:El.
    destruct (write_partial io (take WRITE_CHUNK l)) as [[io1 [k|e]]|] eqn:Ew;
      [| |discriminate]; apply write_partial_law in Ew.
    + destruct Ew as (Hk & H1 & Ha). rewrite length_take in Hk.
      rewrite take_take, Nat.min_l in Ha by lia.
      specialize (IH _ _ _ _ E).
      assert (1 <= k)%nat.
      { apply H1. subst l. unfold WRITE_CHUNK. discriminate. }
      destruct r as [[]|e].
      * rewrite <- (take_drop k l). eapply accepts_app; eauto.
      * destruct IH as (j & Hj & Hb). rewrite length_drop in Hj.
        exists (k + j)%nat. split; [lia|].
        rewrite <- (take_take_drop l k j). eapply accepts_app; eauto.
    + injection E as <- <-. exists O. subst l. cbn. split; [lia | exact Ew].
Qed.

Lemma send_loop_some fuel : forall io rest,
  (forall io buf, buf <> [] -> is_Some (write_partial io buf)) ->
  (length rest <= fuel)%nat -> is_Some (send_loop fuel io rest).
Proof.
  induction fuel as [|fuel IH]; intros io rest Hw Hf; cbn [send_loop].
  - destruct rest; [eauto | cbn in Hf; lia].
  - destruct rest as [|b rest]; [eauto|].
    assert (Hne : take WRITE_CHUNK (b :: rest) <> []) by (unfold WRITE_CHUNK; discriminate).
    destruct (Hw io _ Hne) as [[io1 [k|e]] Ew]; rewrite Ew; [|eauto].
    apply write_partial_law in Ew as (_ & H1 & _). specialize (H1 Hne).
    apply IH; [exact Hw|]. rewrite length_drop. cbn [length] in *. lia.
Qed.

(** What [send_frame] does, and that it returns. *)
Lemma send_frame_law io f io' r :
  send_frame io f = Some (io', r) ->
  match r with
  | Ok _ => delimited f /\ accepts io f io'
  | Err e =>
      (delimited f /\ exists k, (k < length f)%nat /\ accepts io (take k f) io') \/
      (~ delimited f /\ io' = io /\ (e = TrFrameMalformed \/ exists n, e = TrFrameTooLarge n))
  end.
Proof.
  unfold send_frame, delimited. intros E.
  destruct (Z.ltb_spec (Z.of_nat (length f)) FRAME_HEADER_LEN) as [L|L];
    unfold FRAME_HEADER_LEN in *.
  { injection E as <- <-. right. split_and!; auto. intros (? & _). lia. }
  destruct (Z.ltb_spec MAX_FRAME_PAYLOAD (declared_len f)) as [M|M].
  { injection E as <- <-. right. split_and!; eauto. intros (_ & ? & _). lia. }
  destruct (Z.eqb_spec (declared_len f) (Z.of_nat (length f) - 8)) as [D|D];
    cbn [negb] in E.
  - apply send_loop_law in E. destruct r; [split; [split_and!; lia | exact E]|].
    left. split; [split_and!; lia | exact E].
  - injection E as <- <-. right. split_and!; auto. intros (_ & _ & ?). congruence.
Qed.

Lemma send_frame_some io f :
  (forall io buf, buf <> [] -> is_Some (write_partial io buf)) ->
  is_Some (send_frame io f).
Proof.
  intros Hw. unfold send_frame. repeat (destruct (_ : bool); [eauto|]).
  apply send_loop_some; auto.
Qed.

(** ** Receiving *)

Lemma recv_frame_law io io' r :
  recv_frame io = Some (io', r) ->
  match r with
  | Ok f => delimited f /\ rx io = f ++ rx io'
  | Err _ => exists lost, rx io = lost ++ rx io' /\
      forall f rest, delimited f -> (8 < length f)%nat -> rx io = f ++ rest ->
        (length lost < length f)%nat
  end.
Proof.
  unfold recv_frame. change (Z.to_nat FRAME_HEADER_LEN) with 8%nat. intros E.
  destruct (read_full io 8) as [[io1 [[h|]|e]]|] eqn:E1; [| | |discriminate];
    apply read_full_law in E1.
  2: { injection E as <- <-. exists []. rewrite E1. split; [reflexivity|].
       intros f rest _ ? _. cbn. lia. }
  2: { injection E as <- <-. destruct E1 as (lost & E1 & Hl). exists lost.
       split; [exact E1|]. intros f rest _ ? _.
       destruct Hl as [->|]; [cbn|]; lia. }
  destruct E1 as [Hh E1].
  assert (Hhd : forall f rest, delimited f -> rx io = f ++ rest ->
            declared_len f = declared_len h).
  { intros f rest (Lf & _) Er. rewrite E1 in Er.
    rewrite <- (take_drop 8 f), declared_len_app by (rewrite length_take; lia).
    f_equal. apply (f_equal (take 8)) in Er.
    rewrite take_app_length', take_app_le in Er by lia. symmetry. exact Er. }
  destruct (Z.ltb_spec MAX_FRAME_PAYLOAD (declared_len h)) as [M|M].
  { injection E as <- <-. exists h. split; [exact E1|]. intros f rest Hd _ Er.
    pose proof (Hhd f rest Hd Er). destruct Hd as (_ & ? & _). lia. }
  pose proof (declared_len_nonneg h) as Hn.
  destruct (read_full io1 _) as [[io2 [[p|]|e]]|] eqn:E2; [| | |discriminate];
    apply read_full_law in E2; injection E as <- <-.
  - destruct E2 as [Hp E2]. rewrite E1, E2, app_assoc. split; [|reflexivity].
    unfold delimited. rewrite declared_len_app, length_app by exact Hh.
    unfold FRAME_HEADER_LEN. split_and!; lia.
  - exists h. rewrite E1, E2. split; [reflexivity|]. intros. lia.
  - destruct E2 as (lost & E2 & Hl). exists (h ++ lost). rewrite E1, E2, app_assoc.
    split; [reflexivity|]. intros f rest Hd Hlong Er.
    rewrite <- app_assoc, <- E2, <- E1 in Er. pose proof (Hhd f rest Hd Er) as Hq.
    destruct Hd as (Lf & _ & Df). rewrite length_app. unfold FRAME_HEADER_LEN in Df.
    destruct Hl as [->|Hl]; [cbn|]; lia.
Qed.

(** ** Runs of calls *)

Inductive sent : T -> list (list byte) -> T -> Prop :=
  | sent_nil io : sent io [] io
  | sent_cons io f io1 fs io2 :
      send_frame io f = Some (io1, Ok tt) -> sent io1 fs io2 ->
      sent io (f :: fs) io2.

(** A receive that fails in between, as by a time-out before the next frame begins, has
    taken no byte. *)
Inductive received : T -> list (list byte) -> T -> Prop :=
  | received_nil io : received io [] io
  | received_idle io e io1 fs io2 :
      recv_frame io = Some (io1, Err e) -> rx io1 = rx io -> received io1 fs io2 ->
      received io fs io2
  | received_cons io f io1 fs io2 :
      recv_frame io = Some (io1, Ok f) -> received io1 fs io2 ->
      received io (f :: fs) io2.

Lemma sent_law io fs io' :
  sent io fs io' -> Forall delimited fs /\ accepts io (concat fs) io'.
Proof.
  induction 1 as [io|io f io1 fs io2 E _ [IHd IHa]].
  - split; [constructor | apply accepts_nil].
  - apply send_frame_law in E as [Hd Ha]. split; [constructor; auto|].
    eapply accepts_app; eauto.
Qed.

Lemma received_law io gs io' :
  received io gs io' -> forall fs more,
  Forall delimited fs -> rx io = concat fs ++ more ->
  (length gs <= length fs)%nat ->
  gs = take (length gs) fs /\ rx io' = concat (drop (length gs) fs) ++ more.
Proof.
  induction 1 as [io|io e io1 gs io2 _ Ei _ IH|io g io1 gs io2 E _ IH]; intros fs more Hd Er Hl.
  - split; [reflexivity | exact Er].
  - apply IH; [exact Hd | congruence | exact Hl].
  - destruct fs as [|f fs]; [cbn in Hl; lia|]. apply Forall_cons_iff in Hd as [Hf Hd].
    apply recv_frame_law in E as [Hg E]. cbn [concat] in Er.
    rewrite E, <- app_assoc in Er.
    destruct (delimited_unique g f _ _ Hg Hf Er) as [-> Er'].
    destruct (IH fs more Hd Er') as [A B]; [cbn in Hl; lia|].
    cbn. split; [f_equal; exact A | exact B].
Qed.

End Frames.

(** ** The two transports are byte streams *)

(** What the kernel promises of a connected socket: reads take the stream's bytes
    in order, one at least while it has not ended; writes accept a prefix. *)
Class TcpOrdered (S : Type) `{TcpStream S} := {
  sock_in : S -> list byte;
  sock_out : S -> list byte;
  sock_read_law s n s' r :
    sock_read s n = (s', r) -> (0 < n)%nat ->
    match r with
    | Ok bs => sock_in s = bs ++ sock_in s' /\ (length bs <= n)%nat
    | Err _ => sock_in s' = sock_in s
    end;
  sock_write_law s buf s' r :
    sock_write s buf = (s', r) -> buf <> [] ->
    match r with
    | Ok k => (1 <= k <= length buf)%nat /\ sock_out s' = sock_out s ++ take k buf
    | Err _ => sock_out s' = sock_out s
    end;
  sock_write_nil s : sock_write s [] = (s, Ok O);
}.

Section TcpIsStream.
Context {S : Type} `{TcpOrdered S}.

Lemma tcp_read_loop_law fuel : forall s missing got s' r,
  (missing <= fuel)%nat -> tcp_read_loop fuel s missing got = (s', r) ->
  match r with
  | Ok (Some bs) => exists new, bs = got ++ new /\ length new = missing /\
                      sock_in s = new ++ sock_in s'
  | Ok None => got = [] /\ sock_in s' = sock_in s
  | Err _ => exists lost, sock_in s = lost ++ sock_in s' /\
               (length lost < missing)%nat
  end.
Proof.
  induction fuel as [|fuel IH]; intros s missing got s' r Hf E;
    cbn [tcp_read_loop] in E.
  - destruct missing; [|lia]. injection E as <- <-.
    exists []. rewrite app_nil_r. auto.
  - destruct missing as [|m].
    { injection E as <- <-. exists []. rewrite app_nil_r. auto. }
    destruct (sock_read s _) as [s1 [bs|e]] eqn:Er;
      apply sock_read_law in Er; try lia.
    + destruct Er as [Er Hl]. destruct bs as [|b bs].
      * injection E as <- <-. destruct got; [auto|]. exists []. cbn in *. split; [exact Er | lia].
      * apply IH in E; [|cbn; lia]. destruct r as [[out|]|e].
        -- destruct E as (new & -> & Hn & E). exists ((b :: bs) ++ new).
           rewrite Er, E, <- !app_assoc, length_app. cbn [length] in *. split_and!; auto; lia.
        -- destruct E as [E _]. destruct got; discriminate.
        -- destruct E as (lost & E & Hd). exists ((b :: bs) ++ lost).
           rewrite Er, E, <- app_assoc, length_app. cbn [length] in *.
           split; [reflexivity|]. lia.
    + injection E as <- <-. exists []. cbn. split; [congruence | lia].
Qed.

#[global] Program Instance tcp_byte_stream : ByteStream S := {
  rx := sock_in;
  accepts s bs s' := sock_out s' = sock_out s ++ bs;
}.
Next Obligation. intros io. symmetry. apply app_nil_r. Qed.
Next Obligation.
  cbn. intros io1 b1 io2 b2 io3 E1 E2. rewrite app_assoc. congruence.
Qed.
Next Obligation.
  intros s n s' r E. cbn in E. injection E as E. apply tcp_read_loop_law in E; [|lia].
  destruct r as [[bs|]|e].
  - destruct E as (new & -> & Hn & E). auto.
  - apply E.
  - destruct E as (lost & E & Hd). eauto.
Qed.
Next Obligation.
  intros s buf s' r E. cbn in E.
  destruct (sock_write s buf) as [s1 r1] eqn:Ew. injection E as <- <-.
  destruct buf as [|b buf].
  - rewrite sock_write_nil in Ew. injection Ew as <- <-. cbn.
    rewrite app_nil_r. split_and!; auto. congruence.
  - apply sock_write_law in Ew; [|discriminate]. destruct r1 as [k|e]; cbn.
    + destruct Ew as [Ek Ew]. split_and!; [apply Ek | intros _; apply Ek | exact Ew].
    + rewrite app_nil_r. exact Ew.
Qed.

End TcpIsStream.

(** The in-memory pipe, whatever the other end does. *)

Definition wrote (a : PeerAct) : list byte :=
  match a with PaWrite bs => bs | _ => [] end.

Definition inbox (e : PipeEnd) : PipeState :=
  pipe_from (pe_shared e) (other_side (pe_me e)).
Definition outbox (e : PipeEnd) : PipeState := pipe_from (pe_shared e) (pe_me e).

Definition pipe_rx (e : PipeEnd) : list byte :=
  pp_buf (inbox e) ++ concat (map wrote (pe_sched e)).

(** What was in the pipe, then [bs]: the other end has taken a front of it. *)
Definition pipe_accepts (e : PipeEnd) (bs : list byte) (e' : PipeEnd) : Prop :=
  pe_me e' = pe_me e /\
  exists taken, pp_buf (outbox e) ++ bs = taken ++ pp_buf (outbox e').

Lemma peer_act_boxes sh me a :
  pp_buf (pipe_from (peer_act sh me a) (other_side me)) =
    pp_buf (pipe_from sh (other_side me)) ++ wrote a /\
  exists taken, pp_buf (pipe_from sh me) =
    taken ++ pp_buf (pipe_from (peer_act sh me a) me).
Proof.
  split; [destruct a, me; cbn; rewrite ?app_nil_r; reflexivity|].
  destruct a as [bs|n| |]; [exists [] | exists (take n (pp_buf (pipe_from sh me)))
    | exists [] | exists []]; destruct me; cbn; rewrite ?take_drop; reflexivity.
Qed.

Lemma peer_act_pipe e a :
  let e' := set_shared e (peer_act (pe_shared e) (pe_me e) a) in
  pp_buf (inbox e') = pp_buf (inbox e) ++ wrote a /\ pipe_accepts e [] e'.
Proof.
  cbn. destruct (peer_act_boxes (pe_shared e) (pe_me e) a) as [A B].
  split; [exact A|]. split; [reflexivity|]. rewrite app_nil_r. exact B.
Qed.

Lemma pipe_accepts_refl e : pipe_accepts e [] e.
Proof. split; [reflexivity|]. exists []. apply app_nil_r. Qed.

Lemma pipe_accepts_trans e1 b1 e2 b2 e3 :
  pipe_accepts e1 b1 e2 -> pipe_accepts e2 b2 e3 -> pipe_accepts e1 (b1 ++ b2) e3.
Proof.
  intros [M1 [t1 E1]] [M2 [t2 E2]]. split; [congruence|]. exists (t1 ++ t2).
  rewrite app_assoc, E1, <- !app_assoc, E2. reflexivity.
Qed.

(** Only the store and the end matter. *)
Lemma pipe_accepts_ext e1 e2 e1' e2' bs :
  pe_me e1 = pe_me e1' -> pe_shared e1 = pe_shared e1' ->
  pe_me e2 = pe_me e2' -> pe_shared e2 = pe_shared e2' ->
  pipe_accepts e1 bs e2 -> pipe_accepts e1' bs e2'.
Proof. unfold pipe_accepts, outbox. intros <- <- <- <-. auto. Qed.

Lemma wait_begin_same e d e' b :
  wait_begin e d = Some (e', b) ->
  pe_me e' = pe_me e /\ pe_shared e' = pe_shared e.
Proof.
  unfold wait_begin. intros E. destruct d; [destruct (pe_clock e); [discriminate|]|];
    injection E as <- <-; auto.
Qed.

Lemma read_pass_law e want got e' got' r :
  read_pass e want got = (e', got', r) ->
  exists new, got' = got ++ new /\ pp_buf (inbox e) = new ++ pp_buf (inbox e') /\
    (length new <= want - length got)%nat /\ pe_me e' = pe_me e /\
    pp_buf (outbox e') = pp_buf (outbox e) /\
    match r with
    | Some (Ok (Some bs)) => bs = got' /\ length got' = want
    | Some (Ok None) => got' = []
    | _ => (length new < want - length got)%nat \/ new = []
    end.
Proof.
  unfold read_pass. set (p := pipe_from _ _).
  intros E. injection E as <- <- <-.
  exists (take (Nat.min (length (pp_buf p)) (want - length got)) (pp_buf p)).
  split_and!; [reflexivity | | rewrite length_take; lia | reflexivity | |].
  - unfold inbox, pull. cbn. subst p. destruct (pe_me e); cbn; symmetry; apply take_drop.
  - unfold outbox, pull. cbn. destruct (pe_me e); reflexivity.
  - set (new := take _ (pp_buf p)).
    destruct ((0 <? length (pp_buf p))%nat && (length (got ++ new) =? want)%nat) eqn:Eb.
    { apply andb_true_iff in Eb as [_ Eb]. apply Nat.eqb_eq in Eb. auto. }
    assert (Hn : (length new < want - length got)%nat \/ new = []).
    { subst new. destruct (want - length got)%nat eqn:Ed;
        [right; rewrite Nat.min_0_r; reflexivity|].
      apply andb_false_iff in Eb as [Eb|Eb].
      - apply Nat.ltb_ge in Eb. right. destruct (pp_buf p); [apply take_nil|].
        cbn in Eb. lia.
      - apply Nat.eqb_neq in Eb. rewrite length_app, length_take in *. left. lia. }
    destruct (pp_write_closed p); [|exact Hn].
    destruct (got ++ new) eqn:Eg; [reflexivity | exact Hn].
Qed.

(** What a read of [want] bytes, [got] of them before, has done. *)
Definition read_outcome (e : PipeEnd) (want : nat) (got : list byte)
  (e' : PipeEnd) (r : result (option (list byte)) TransportError) : Prop :=
  pipe_accepts e [] e' /\
  match r with
  | Ok (Some bs) => length bs = want /\ got ++ pipe_rx e = bs ++ pipe_rx e'
  | Ok None => got = [] /\ pipe_rx e' = pipe_rx e
  | Err _ => exists lost, pipe_rx e = lost ++ pipe_rx e' /\
      (lost = [] \/ (length lost < want - length got)%nat)
  end.

Lemma read_pass_outcome e want got e1 got1 r1 e2 r :
  read_pass e want got = (e1, got1, r1) ->
  pe_me e2 = pe_me e1 -> pe_shared e2 = pe_shared e1 -> pe_sched e2 = pe_sched e ->
  match r1 with Some r' => r = r' | None => r = Err TrTimeout end ->
  read_outcome e want got e2 r.
Proof.
  intros Ep Hm Hs Hd Er. apply read_pass_law in Ep as (new & -> & Eb & Hl & Em & Eo & Hr).
  assert (Hrx : pipe_rx e = new ++ pipe_rx e2)
    by (unfold pipe_rx, inbox in *; rewrite Hm, Hs, Hd, Eb, app_assoc; reflexivity).
  split.
  { split; [congruence|]. exists []. unfold outbox in *. rewrite app_nil_r, Hm, Hs. auto. }
  assert (Herr : (length new < want - length got)%nat \/ new = [] ->
    exists lost, pipe_rx e = lost ++ pipe_rx e2 /\
      (lost = [] \/ (length lost < want - length got)%nat)).
  { intros Hn. exists new. split; [exact Hrx | tauto]. }
  destruct r1 as [r'|]; subst r; [|auto].
  destruct r' as [[bs|]|x]; [| |auto].
  - destruct Hr as [-> Hr]. rewrite Hrx, app_assoc. auto.
  - apply app_nil in Hr as [-> ->]. auto.
Qed.

Lemma read_pass_peer e want got e1 got1 a e2 e' r :
  read_pass e want got = (e1, got1, None) ->
  pe_me e2 = pe_me e1 ->
  pe_shared e2 = peer_act (pe_shared e1) (pe_me e1) a ->
  pe_sched e = a :: pe_sched e2 ->
  read_outcome e2 want got1 e' r -> read_outcome e want got e' r.
Proof.
  intros Ep Hm Hs Hd [Ha Hr2].
  apply read_pass_law in Ep as (new & -> & Eb & Hl & Em & Eo & Hr).
  destruct (peer_act_pipe e1 a) as [A [_ [taken B]]]. rewrite app_nil_r in B.
  assert (Hrx : pipe_rx e = new ++ pipe_rx e2).
  { unfold pipe_rx, inbox in *. rewrite Hm, Hs, Hd, Eb. cbn [set_shared pe_me pe_shared] in A.
    rewrite A. cbn. rewrite <- !app_assoc. reflexivity. }
  split.
  { eapply (pipe_accepts_trans _ [] e2 [] e'); [|exact Ha].
    split; [congruence|]. exists taken. rewrite app_nil_r, <- Eo, B.
    unfold outbox. cbn. rewrite Hm, Hs. reflexivity. }
  destruct r as [[bs|]|x].
  - rewrite Hrx, app_assoc. exact Hr2.
  - destruct Hr2 as [Hg Hr2]. apply app_nil in Hg as [-> ->]. rewrite Hrx. auto.
  - destruct Hr2 as (lost & El & Hd2). exists (new ++ lost).
    rewrite Hrx, El, app_assoc. split; [reflexivity|].
    rewrite length_app in *. destruct Hr as [Hr| ->]; [|cbn in *; rewrite Nat.add_0_r in Hd2; exact Hd2].
    right. destruct Hd2 as [->|]; [cbn|]; lia.
Qed.

Lemma read_waits_law sched : forall e d want got e' r,
  pe_sched e = sched -> read_waits sched e d want got = Some (e', r) ->
  read_outcome e want got e' r.
Proof.
  induction sched as [|a sched IH]; intros e d want got e' r Es E;
    cbn [read_waits] in E; destruct (read_pass e want got) as [[e1 got1] r1] eqn:Ep.
  all: destruct r1 as [r1|];
    [injection E as <- <-; eapply read_pass_outcome; [exact Ep|..]; cbn; auto|].
  all: destruct (wait_begin e1 d) as [[e2 []]|] eqn:Ew; try discriminate;
    apply wait_begin_same in Ew as [Em Eh].
  1, 3: injection E as <- <-; eapply read_pass_outcome; [exact Ep|..]; cbn; auto.
  apply IH in E; [|reflexivity].
  eapply (read_pass_peer e want got e1 got1 a _ e' r Ep); [| | |exact E]; cbn;
    congruence.
Qed.

Lemma deadline_same e e' r :
  deadline e = Some (e', r) ->
  pe_me e' = pe_me e /\ pe_shared e' = pe_shared e /\ pe_sched e' = pe_sched e.
Proof.
  unfold deadline. intros E. repeat case_match_in E; try discriminate;
    injection E as <- <-; auto.
Qed.

(** Writing. *)

Definition write_outcome (e : PipeEnd) (buf : list byte) (e' : PipeEnd)
  (r : result nat TransportError) : Prop :=
  pipe_rx e' = pipe_rx e /\
  match r with
  | Ok k => (k <= length buf)%nat /\ (buf <> [] -> (1 <= k)%nat) /\
            pipe_accepts e (take k buf) e'
  | Err _ => pipe_accepts e [] e'
  end.

Lemma write_pass_outcome e buf e1 r1 e2 r :
  write_pass e buf = (e1, r1) ->
  pe_me e2 = pe_me e1 -> pe_shared e2 = pe_shared e1 -> pe_sched e2 = pe_sched e ->
  match r1 with Some r' => r = r' | None => r = Err TrTimeout end ->
  write_outcome e buf e2 r.
Proof.
  unfold write_pass. intros E Hm Hs Hd Er.
  destruct (pp_reader_gone _).
  { injection E as <- <-. subst r. split; [unfold pipe_rx, inbox; rewrite Hm, Hs, Hd; auto|].
    eapply pipe_accepts_ext; [| | | |apply (pipe_accepts_refl e)]; auto. }
  destruct (Nat.ltb_spec 0 (pipe_space (pipe_from (pe_shared e) (pe_me e)))) as [Hp|Hp].
  - injection E as <- <-. subst r.
    set (n := Nat.min _ _) in *. cbn in Hm, Hs. split.
    + unfold pipe_rx, inbox. rewrite Hm, Hs, Hd. unfold push.
      destruct (pe_me e); reflexivity.
    + split_and!; [lia | destruct buf; [congruence | cbn [length] in *; lia] |].
      split; [exact Hm|]. exists []. unfold outbox. rewrite Hm, Hs. unfold push.
      destruct (pe_me e); reflexivity.
  - injection E as <- <-. subst r. split; [unfold pipe_rx, inbox; rewrite Hm, Hs, Hd; auto|].
    eapply pipe_accepts_ext; [| | | |apply (pipe_accepts_refl e)]; auto.
Qed.

Lemma write_pass_none e buf e1 : write_pass e buf = (e1, None) -> e1 = e.
Proof.
  unfold write_pass. intros E. repeat case_match_in E; try discriminate.
  congruence.
Qed.

Lemma write_waits_law sched : forall e d buf e' r,
  pe_sched e = sched -> write_waits sched e d buf = Some (e', r) ->
  write_outcome e buf e' r.
Proof.
  induction sched as [|a sched IH]; intros e d buf e' r Es E;
    cbn [write_waits] in E; destruct (write_pass e buf) as [e1 r1] eqn:Ep.
  all: destruct r1 as [r1|];
    [injection E as <- <-; eapply write_pass_outcome; [exact Ep|..]; cbn; auto|].
  all: destruct (wait_begin e1 d) as [[e2 []]|] eqn:Ew; try discriminate;
    apply wait_begin_same in Ew as [Em Eh].
  1, 3: injection E as <- <-; eapply write_pass_outcome; [exact Ep|..]; cbn; auto.
  apply write_pass_none in Ep as ->.
  apply IH in E as [Hr Ha]; [|reflexivity].
  destruct (peer_act_pipe e a) as [A B].
  assert (B' : pipe_accepts e [] (after_wait e2 a sched)).
  { eapply pipe_accepts_ext; [| | | |exact B]; cbn; congruence. }
  split.
  - rewrite Hr. unfold pipe_rx, inbox in *. cbn in *. rewrite Em, Eh, A, Es. cbn.
    rewrite <- app_assoc. reflexivity.
  - destruct r as [k|x].
    + destruct Ha as (H1 & H2 & Ha). split_and!; auto.
      eapply (pipe_accepts_trans _ []); eauto.
    + eapply (pipe_accepts_trans _ [] _ []); eauto.
Qed.

#[global] Program Instance pipe_byte_stream : ByteStream PipeEnd := {
  rx := pipe_rx;
  accepts := pipe_accepts;
  accepts_nil := pipe_accepts_refl;
  accepts_app := pipe_accepts_trans;
}.
Next Obligation.
  intros e n e' r E. unfold read_full, pipe_byte_io, pipe_read_full in E.
  destruct (deadline e) as [[e0 [d|x]]|] eqn:Ed; [| |discriminate];
    apply deadline_same in Ed as (A & B & C);
    assert (Hrx : pipe_rx e0 = pipe_rx e)
      by (unfold pipe_rx, inbox; rewrite A, B, C; reflexivity).
  - apply read_waits_law in E as [_ E]; [|reflexivity]. rewrite Hrx in E.
    destruct r as [[bs|]|x]; [exact E | apply E |].
    destruct E as (lost & E & Hl). rewrite Nat.sub_0_r in Hl. eauto.
  - injection E as <- <-. exists []. auto.
Qed.
Next Obligation.
  intros e buf e' r E. unfold write_partial, pipe_byte_io, pipe_write_partial in E.
  destruct (deadline e) as [[e0 [d|x]]|] eqn:Ed; [| |discriminate];
    apply deadline_same in Ed as (A & B & C);
    assert (H0 : forall bs e2, pipe_accepts e0 bs e2 -> pipe_accepts e bs e2)
      by (intros bs e2; apply pipe_accepts_ext; auto).
  - apply write_waits_law in E as [_ E]; [|reflexivity].
    destruct r as [k|x]; [destruct E as (? & ? & E)|]; auto.
  - injection E as <- <-. apply H0, pipe_accepts_refl.
Qed.

(** ** Theorems *)

(** C38: frames arrive as they were sent.  Over any ordered byte stream, however it splits
    the bytes: frames that [send_frame] reported as sent are accepted whole and in order;
    and on a stream that carries them, in a run of [recv_frame] in which no failing call
    has taken a byte, the calls that succeed return exactly those frames, in that order,
    leaving the rest of the stream untouched.  A time-out between two frames is such a
    failing call; one in the middle of a frame is not, and puts the stream out of step
    ([recv_timeout_desync]). *)
Theorem frames_roundtrip {T U} `{ByteStream T} `{ByteStream U}
  (s s' : T) (r r' : U) fs gs more :
  sent s fs s' -> rx r = concat fs ++ more ->
  received r gs r' -> (length gs <= length fs)%nat ->
  accepts s (concat fs) s' /\ gs = take (length gs) fs /\
  rx r' = concat (drop (length gs) fs) ++ more.
Proof.
  intros Hs Er Hr Hl. apply sent_law in Hs as [Hd Ha].
  split; [exact Ha|]. eapply received_law; eauto.
Qed.

(** Results of the frame calls over any ordered byte stream.  [send_frame]
    returns when every write does; it accepts exactly the frames whose header
    declares their length, writes them whole, refuses others untouched, and after
    an error has written a strict front of the frame.  [recv_frame] answers the
    next frame of the stream and takes exactly its bytes; after an error it has
    dropped some bytes of the stream, never a whole frame. *)
Theorem frame_io_result {T} `{ByteStream T} (io : T) :
  (forall f, (forall io buf, buf <> [] -> is_Some (write_partial io buf)) ->
     is_Some (send_frame io f)) /\
  (forall f io', send_frame io f = Some (io', Ok tt) ->
     delimited f /\ accepts io f io') /\
  (forall f io' e, send_frame io f = Some (io', Err e) ->
     if bool_decide (delimited f)
     then exists k, (k < length f)%nat /\ accepts io (take k f) io'
     else io' = io /\ (e = TrFrameMalformed \/ exists n, e = TrFrameTooLarge n)) /\
  (forall io' f, recv_frame io = Some (io', Ok f) ->
     delimited f /\ rx io = f ++ rx io') /\
  (forall io' e, recv_frame io = Some (io', Err e) ->
     exists lost, rx io = lost ++ rx io' /\
       forall f rest, delimited f -> (8 < length f)%nat -> rx io = f ++ rest ->
         (length lost < length f)%nat).
Proof.
  split_and!.
  - intros f. apply send_frame_some.
  - intros f io' E. apply send_frame_law in E. exact E.
  - intros f io' e E. apply send_frame_law in E. case_bool_decide; tauto.
  - intros io' f E. apply recv_frame_law in E. exact E.
  - intros io' e E. apply recv_frame_law in E. exact E.
Qed.

(** ** A socket that follows a script *)

Record Script := MkScript {
  sc_in : list (result (list byte) ErrorKind);
  sc_out : list byte;
}.

Definition script_read (s : Script) (n : nat) : Script * result (list byte) ErrorKind :=
  match sc_in s with
  | [] => (s, Ok [])
  | Err e :: rest => (MkScript rest (sc_out s), Err e)
  | Ok bs :: rest =>
      if (length bs <=? n)%nat then (MkScript rest (sc_out s), Ok bs)
      else (MkScript (Ok (drop n bs) :: rest) (sc_out s), Ok (take n bs))
  end.

(** At most five bytes a write. *)
#[global] Instance script_socket : TcpStream Script := {
  sock_read := script_read;
  sock_write s buf := (MkScript (sc_in s) (sc_out s ++ take 5 buf),
                       Ok (Nat.min 5 (length buf)));
  sock_shutdown s _ := (s, Ok tt);
  sock_set_read_timeout s _ := (s, Ok tt);
  sock_set_write_timeout s _ := (s, Ok tt);
}.

Definition arriving (r : result (list byte) ErrorKind) : list byte :=
  match r with Ok bs => bs | Err _ => [] end.

#[global] Program Instance script_ordered : TcpOrdered Script := {
  sock_in s := concat (map arriving (sc_in s));
  sock_out := sc_out;
}.
Next Obligation.
  intros [i o] n s' r E Hn. cbn in E. unfold script_read in E. cbn in E.
  destruct i as [|[bs|e] i];
    [injection E as <- <-; cbn; split; [reflexivity | lia]| |].
  - destruct (Nat.leb_spec (length bs) n); injection E as <- <-; cbn.
    + auto.
    + rewrite app_assoc, take_drop. split; [reflexivity|]. rewrite length_take. lia.
  - injection E as <- <-. reflexivity.
Qed.
Next Obligation.
  intros [i o] buf s' r E Hn. unfold sock_write, script_socket in E.
  apply pair_equal_spec in E as [<- <-]. cbn [sc_out].
  split; [destruct buf; [congruence | cbn [length]; lia]|].
  f_equal. destruct (Nat.le_ge_cases 5 (length buf)).
  - rewrite Nat.min_l by lia. reflexivity.
  - rewrite Nat.min_r, !take_ge by lia. reflexivity.
Qed.
Next Obligation. intros [i o]. cbn. rewrite app_nil_r. reflexivity. Qed.

(** A frame of [n] bytes of payload. *)
Definition frame_with (payload : list byte) : list byte :=
  u32_be 0 ++ u32_be (Z.of_nat (length payload)) ++ payload.

(** A time-out in the middle of a frame puts the stream out of step.  When
    the header has been read and the payload is late, [recv_frame] reports a
    time-out and drops the header; the next call reads the payload as if it were a
    header, and can hand out a frame that was never sent.  The terminal's loops
    call again after a time-out. *)
Theorem recv_timeout_desync :
  exists (s s1 s2 : Script) (f g : list byte),
    delimited f /\ rx s = f /\
    recv_frame s = Some (s1, Err TrTimeout) /\
    recv_frame s1 = Some (s2, Ok g) /\ g <> f.
Proof.
  set (f := frame_with (zeros 32)).
  exists (MkScript [Ok (take 8 f); Err EkTimedOut; Ok (drop 8 f)] []).
  exists (MkScript [Ok (drop 8 f)] []), (MkScript [Ok (zeros 24)] []), f, (zeros 8).
  split_and!; [| reflexivity | vm_compute; reflexivity | vm_compute; reflexivity
    | discriminate].
  unfold delimited. split_and!; [vm_compute; lia | vm_compute; discriminate | reflexivity].
Qed.

(** The receiver's first call times out before the first frame. *)
Lemma frames_roundtrip_witness :
  let fs := [frame_with [x01; x02]; frame_with [x03]] in
  let r := MkScript [Err EkTimedOut; Ok (concat fs); Ok [x09]] [] in
  accepts (MkScript [] []) (concat fs) (MkScript [] (concat fs)) /\
  [frame_with [x01; x02]] = take 1 fs /\
  rx (MkScript [Ok (frame_with [x03]); Ok [x09]] []) = concat (drop 1 fs) ++ [x09].
Proof.
  intros fs r.
  apply (frames_roundtrip (MkScript [] []) (MkScript [] (concat fs)) r
           (MkScript [Ok (frame_with [x03]); Ok [x09]] []) fs
           [frame_with [x01; x02]] [x09]).
  - eapply sent_cons; [vm_compute; reflexivity|].
    eapply sent_cons; [vm_compute; reflexivity|]. apply sent_nil.
  - reflexivity.
  - eapply received_idle; [vm_compute; reflexivity | reflexivity |].
    eapply received_cons; [vm_compute; reflexivity|]. apply received_nil.
  - cbn. lia.
Defined.

Lemma frame_io_result_witness :
  let io := MkScript [Ok (frame_with [x01]); Err EkTimedOut; Ok [x02]] [] in
  (forall io' f, recv_frame io = Some (io', Ok f) ->
     delimited f /\ rx io = f ++ rx io') /\
  is_Some (send_frame io (frame_with [x01])).
Proof.
  intros io. destruct (frame_io_result io) as (A & _ & _ & B & _).
  split; [exact B|]. apply A. intros [i o] buf _. vm_compute. eauto.
Defined.
