(* ===== verification/TermServer.v ===== *)
(** * TermServer: the server's side of a connection ([otp-terminal], server.rs)

    [serve_connection] is a program over its environment: the framed stream, the
    clock, and the registry and hub it shares with other connections.  Each call
    of the hub is one atomic step of it, and other connections act in between, so
    nothing is assumed of the answers. *)

From stdpp Require Import gmap.
From S2P Require Export Effects Terminal Transport.

#[local] Open Scope list_scope.
#[local] Open Scope Z_scope.

Notation terror := (TerminalError TransportError).

(** ** The environment *)

Inductive TermCall :=
  | CNow
  | CSetDeadline (timeout : Z)
  | CRecv
  | CSend (wire : list byte)
  | CShutdownWrite
  | CClose
  | COpen (window : WindowSize)
  | CFind (handle : Z)
  | CRetire (handle : Z)
  | CAcquire (handle conn : Z)
  | CDropGrant (handle token : Z)
  | CHeartbeat (handle token : Z)
  | CIsCurrent (handle token : Z)
  | CSnapshot (handle : Z)
  | CWrite (handle token : Z) (data : list byte)
  | CResize (handle token : Z) (window : WindowSize)
  | CDrain (handle : Z) (n : nat)
  | CPollExit (handle : Z)
  | CHasExited (handle : Z).

(** [None] where the call can panic. *)
Definition answer (c : TermCall) : Type :=
  match c with
  | CNow => Z
  | CSetDeadline _ | CSend _ | CShutdownWrite | CClose => result unit TransportError
  | CRecv => result (list byte) TransportError
  | COpen _ => option (result Z terror)
  | CFind _ | CIsCurrent _ _ | CHasExited _ => bool
  | CRetire _ | CDropGrant _ _ => unit
  | CAcquire _ _ => option (result Z LeaseDenied)
  | CHeartbeat _ _ | CWrite _ _ _ | CResize _ _ _ => result unit terror
  | CSnapshot _ => LeaseSnapshot
  | CDrain _ _ => result PtyRead terror
  | CPollExit _ => option Z
  end.

Notation term_act R := (act TermCall answer R).
Definition term_ask (c : TermCall) : term_act (answer c) := ask (C := TermCall) (A := answer) c.

(** ** Options and results *)

Record ServeOptions := MkServeOptions {
  so_first_frame_timeout : Z;
  so_poll_slice : Z;
  so_exit_grace : Z;
}.

(** [ServeOptions::default], in milliseconds. *)
Definition default_options : ServeOptions := MkServeOptions (30 * 1000) 25 250.

Inductive ServeEnd :=
  | SeShellExited (code : Z)
  | SePeerClosed
  | SeFenced
  | SeLeaseExpired
  | SeDeniedBusy
  | SeDeniedGone
  | SeProtocol
  | SeFailed (e : terror).

Record ServeSummary := MkSummary {
  su_handle : Z;
  su_token : Z;
  su_input_bytes : Z;
  su_output_bytes : Z;
  su_exit : option Z;
  su_end : ServeEnd;
}.

(** [u64::saturating_add]. *)
Definition saturating_add (a b : Z) : Z := Z.min U64_MAX (a + b).

(** A summary of a connection that was not served. *)
Definition no_service (handle : Z) (e : ServeEnd) : ServeSummary :=
  MkSummary handle 0 0 0 None e.

(** ** Frames through the session *)

Inductive RecvOutcome :=
  | RoFrame (f : TerminalFrame)
  | RoTimeout
  | RoClosed (e : terror).

Section Server.
Context `{Aead}.

(** What [recv_terminal_frame] makes of a received frame; [None] is a panic. *)
Definition open_frame (role : Role) (s : Session) (wire : list byte) :
  Session * option (result TerminalFrame terror) :=
  match decode role wire with
  | Err _ => (s, Some (Err TeProtocol))
  | Ok (Data _ seq data) =>
      let '(s, r) := open_record s DataRecord seq data in
      (s, match r with
          | None => None
          | Some (Err e) => Some (Err (TeSession e))
          | Some (Ok plain) => Some (map_err (fun _ => TeProtocol)
                                       (term_decode (TE := TransportError) plain))
          end)
  | Ok _ => (s, Some (Err TeProtocol))
  end.

Definition recv_terminal_frame (s : Session) : term_act (Session * RecvOutcome) :=
  let* r := term_ask CRecv in
  match r with
  | Err TrTimeout => done (s, RoTimeout)
  | Err e => done (s, RoClosed (TeTransport e))
  | Ok wire =>
      match open_frame Server s wire with
      | (s, None) => Ret Panicked
      | (s, Some (Ok f)) => done (s, RoFrame f)
      | (s, Some (Err e)) => done (s, RoClosed e)
      end
  end.

(** What [send_terminal_frame] puts on the wire; [None] is a panic. *)
Definition seal_frame (s : Session) (f : TerminalFrame) :
  Session * option (result (list byte) terror) :=
  match term_encode f with
  | None => (s, None)
  | Some bytes =>
      let '(s, r) := seal_record s DataRecord bytes in
      (s, match r with
          | None => None
          | Some (Err e) => Some (Err (TeSession e))
          | Some (Ok rc) =>
              Some (map_err (fun _ => TeProtocol)
                      (encode (Data 0 (rc_sequence rc) (rc_sealed rc))))
          end)
  end.

Definition send_terminal_frame (s : Session) (f : TerminalFrame) :
  term_act (Session * result unit terror) :=
  match seal_frame s f with
  | (s, None) => Ret Panicked
  | (s, Some (Err e)) => done (s, Err e)
  | (s, Some (Ok wire)) =>
      let* r := term_ask (CSend wire) in
      done (s, map_err TeTransport r)
  end.

(** ** State of the loop *)

Record ServeSt := MkServe {
  sv_session : Session;
  sv_input_bytes : Z;
  sv_output_bytes : Z;
  sv_exit : option Z;
  sv_end : option ServeEnd;
  sv_pty_eof : bool;
  sv_exit_sent_at : option Z;
  sv_pending : list byte;
}.

Definition serve_start (s : Session) : ServeSt :=
  MkServe s 0 0 None None false None [].

Definition set_session (st : ServeSt) (s : Session) : ServeSt :=
  MkServe s (sv_input_bytes st) (sv_output_bytes st) (sv_exit st) (sv_end st)
    (sv_pty_eof st) (sv_exit_sent_at st) (sv_pending st).
Definition count_input (st : ServeSt) (n : Z) : ServeSt :=
  MkServe (sv_session st) (saturating_add (sv_input_bytes st) n)
    (sv_output_bytes st) (sv_exit st) (sv_end st) (sv_pty_eof st)
    (sv_exit_sent_at st) (sv_pending st).
Definition count_output (st : ServeSt) (n : Z) : ServeSt :=
  MkServe (sv_session st) (sv_input_bytes st)
    (saturating_add (sv_output_bytes st) n) (sv_exit st) (sv_end st)
    (sv_pty_eof st) (sv_exit_sent_at st) (sv_pending st).
Definition set_end (st : ServeSt) (e : ServeEnd) : ServeSt :=
  MkServe (sv_session st) (sv_input_bytes st) (sv_output_bytes st) (sv_exit st)
    (Some e) (sv_pty_eof st) (sv_exit_sent_at st) (sv_pending st).
Definition set_drained (st : ServeSt) (pending : list byte) (eof : bool) : ServeSt :=
  MkServe (sv_session st) (sv_input_bytes st) (sv_output_bytes st) (sv_exit st)
    (sv_end st) eof (sv_exit_sent_at st) pending.
Definition set_exit (st : ServeSt) (code : Z) : ServeSt :=
  MkServe (sv_session st) (sv_input_bytes st) (sv_output_bytes st) (Some code)
    (sv_end st) (sv_pty_eof st) (sv_exit_sent_at st) (sv_pending st).
Definition set_exit_sent (st : ServeSt) (at_ : Z) : ServeSt :=
  MkServe (sv_session st) (sv_input_bytes st) (sv_output_bytes st) (sv_exit st)
    (sv_end st) (sv_pty_eof st) (Some at_) (sv_pending st).

(** ** [drain_pty] *)

Definition OUT_BUF : nat := 16 * 1024.

(** The reads; the fuel is the bound on what they gather, which every read but
    the last adds to. *)
Fixpoint drain_loop (fuel : nat) (handle : Z) (pending : list byte) :
  term_act (list byte * bool * result unit terror) :=
  match fuel with
  | O => Ret OutOfFuel
  | S fuel =>
      let* r := term_ask (CDrain handle OUT_BUF) in
      match r with
      | Ok (PrData bs) =>
          let pending := pending ++ bs in
          if DATA_CHUNK_MAX <=? Z.of_nat (length pending)
          then done (pending, false, Ok tt)
          else drain_loop fuel handle pending
      | Ok PrEof => done (pending, true, Ok tt)
      | Ok PrTimeout => done (pending, false, Ok tt)
      | Err e => done (pending, false, Err e)
      end
  end.

Fixpoint send_chunks (st : ServeSt) (chunks : list (list byte)) :
  term_act (ServeSt * result unit terror) :=
  match chunks with
  | [] => done (st, Ok tt)
  | chunk :: chunks =>
      let* '(s, r) := send_terminal_frame (sv_session st) (TfOutput chunk) in
      let st := set_session st s in
      match r with
      | Err e => done (st, Err e)
      | Ok _ => send_chunks (count_output st (Z.of_nat (length chunk))) chunks
      end
  end.

Definition drain_pty (handle : Z) (st : ServeSt) :
  term_act (ServeSt * result unit terror) :=
  if sv_pty_eof st then done (st, Ok tt) else
  let* '(pending, eof, r) :=
    drain_loop (S (Z.to_nat DATA_CHUNK_MAX)) handle (sv_pending st) in
  let st := set_drained st pending eof in
  match r with
  | Err e => done (st, Err e)
  | Ok _ =>
      match pending with
      | [] => done (st, Ok tt)
      | _ =>
          let* '(st, r) := send_chunks st (chunk_input pending) in
          match r with
          | Err e => done (st, Err e)
          | Ok _ => done (set_drained st [] (sv_pty_eof st), Ok tt)
          end
      end
  end.

(** ** One pass of the loop of [drive] *)

(** [slice.chunks(n)], for chunks within chunks. *)
Definition input_slices (data : list byte) : list (list byte) :=
  concat (map (fun chunk => chunks_fuel (length chunk) (Z.to_nat PTY_WRITE_SLICE) chunk)
    (chunk_input data)).

(** The loops ['input]. *)
Fixpoint write_slices (handle token : Z) (st : ServeSt)
  (slices : list (list byte)) : term_act ServeSt :=
  match slices with
  | [] => done st
  | slice :: slices =>
      let* r := term_ask (CWrite handle token slice) in
      match r with
      | Err TeStaleWriter => done (set_end st SeFenced)
      | Err e => done (set_end st (SeFailed e))
      | Ok _ =>
          let st := count_input st (Z.of_nat (length slice)) in
          let* '(st, r) := drain_pty handle st in
          match r with
          | Err e => done (set_end st (SeFailed e))
          | Ok _ => write_slices handle token st slices
          end
      end
  end.

(** How a pass goes on: to its next part, out of the loop, or out of [drive]. *)
Inductive Flow := FlGo | FlBreak | FlFail (e : terror).

Definition on_frame (handle token : Z) (st : ServeSt) (f : TerminalFrame) :
  term_act (ServeSt * Flow) :=
  let* r := term_ask (CHeartbeat handle token) in
  let fresh := is_ok r in
  match f with
  | TfInput data =>
      if fresh then
        let* st := write_slices handle token st (input_slices data) in
        done (st, FlGo)
      else done (set_end st SeFenced, FlBreak)
  | TfResize rows cols =>
      if fresh then
        let* r := term_ask (CResize handle token (MkWindow rows cols)) in
        match r with
        | Err TeStaleWriter => done (set_end st SeFenced, FlBreak)
        | _ => done (st, FlGo)
        end
      else done (set_end st SeFenced, FlBreak)
  | TfPing => done (st, FlGo)
  | _ => done (set_end st SeProtocol, FlBreak)
  end.

(** The network part of a pass. *)
Definition net_part (handle token : Z) (st : ServeSt) : term_act (ServeSt * Flow) :=
  let* '(s, r) := recv_terminal_frame (sv_session st) in
  let st := set_session st s in
  match r with
  | RoFrame f => on_frame handle token st f
  | RoTimeout => done (st, FlGo)
  | RoClosed e =>
      if is_some (sv_exit_sent_at st) then done (st, FlGo) else
      let e' :=
        match e with
        | TeTransport TrClosedByPeer => SePeerClosed
        | other => SeFailed other
        end in
      done (set_end st e', FlBreak)
  end.

(** The exit part: the exit code once it is known. *)
Definition exit_part (handle : Z) (st : ServeSt) : term_act (ServeSt * Flow) :=
  if is_some (sv_exit st) then done (st, FlGo) else
  let* seen :=
    if sv_pty_eof st then done true
    else let* c := term_ask (CPollExit handle) in done (is_some c) in
  if seen then
    let* c := term_ask (CPollExit handle) in
    match c with
    | None => done (st, FlGo)
    | Some code =>
        let st := set_exit st code in
        let* '(s, r) := send_terminal_frame (sv_session st) (TfExit code) in
        let st := set_session st s in
        match r with
        | Err e => done (st, FlFail e)
        | Ok _ =>
            let* _ := term_ask CShutdownWrite in
            let* now := term_ask CNow in
            done (set_exit_sent st now, FlGo)
        end
    end
  else done (st, FlGo).

Definition grace_part (opts : ServeOptions) (st : ServeSt) : term_act (ServeSt * Flow) :=
  match sv_exit_sent_at st with
  | None => done (st, FlGo)
  | Some at_ =>
      let* now := term_ask CNow in
      if so_exit_grace opts <=? saturating_sub now at_
      then done (set_end st (SeShellExited
                   (match sv_exit st with Some c => c | None => 0 end)), FlBreak)
      else done (st, FlGo)
  end.

Definition control_part (handle token : Z) (st : ServeSt) : term_act ServeSt :=
  if is_some (sv_end st) || is_some (sv_exit_sent_at st) then done st else
  let* current := term_ask (CIsCurrent handle token) in
  if current then done st else
  let* snap := term_ask (CSnapshot handle) in
  done (set_end st (if token <? sn_token snap then SeFenced else SeLeaseExpired)).

(** A pass: each part unless one before left the loop. *)
Definition serve_pass (opts : ServeOptions) (handle token : Z) (st : ServeSt) :
  term_act (ServeSt * Flow) :=
  let* '(st, fl) := net_part handle token st in
  match fl with FlGo =>
  let* '(st, r) := drain_pty handle st in
  match r with
  | Err e => done (set_end st (SeFailed e), FlBreak)
  | Ok _ =>
  let* '(st, fl) := exit_part handle st in
  match fl with FlGo =>
  let* '(st, fl) := grace_part opts st in
  match fl with FlGo =>
  let* st := control_part handle token st in
  done (st, FlGo)
  | fl => done (st, fl) end
  | fl => done (st, fl) end
  end
  | fl => done (st, fl) end.

(** [while end.is_none()]; the error is that of a [?] inside. *)
Fixpoint serve_loop (fuel : nat) (opts : ServeOptions) (handle token : Z)
  (st : ServeSt) : term_act (ServeSt * result unit terror) :=
  if is_some (sv_end st) then done (st, Ok tt) else
  match fuel with
  | O => Ret OutOfFuel
  | S fuel =>
      let* '(st, fl) := serve_pass opts handle token st in
      match fl with
      | FlGo => serve_loop fuel opts handle token st
      | FlBreak => done (st, Ok tt)
      | FlFail e => done (st, Err e)
      end
  end.

(** ** [drive] *)

Inductive FirstFrame :=
  | FfHub (handle : Z) (window : WindowSize)
  | FfDenied (handle : Z)
  | FfFailed (e : terror).

(** The wait for the first frame. *)
Fixpoint first_frame (fuel : nat) (deadline : Z) (s : Session) :
  term_act (Session * FirstFrame) :=
  match fuel with
  | O => Ret OutOfFuel
  | S fuel =>
      let* '(s, r) := recv_terminal_frame s in
      match r with
      | RoFrame (TfOpen rows cols) =>
          let w := MkWindow rows cols in
          let* o := term_ask (COpen w) in
          match o with
          | None => Ret Panicked
          | Some (Ok handle) => done (s, FfHub handle w)
          | Some (Err e) => done (s, FfFailed e)
          end
      | RoFrame (TfAttach handle rows cols) =>
          let* found := term_ask (CFind handle) in
          if found then done (s, FfHub handle (MkWindow rows cols)) else
          let* '(s, r) := send_terminal_frame s (TfDenied DenyGone) in
          match r with
          | Err e => done (s, FfFailed e)
          | Ok _ =>
              let* _ := term_ask CShutdownWrite in
              done (s, FfDenied handle)
          end
      | RoFrame _ => done (s, FfFailed TeProtocol)
      | RoClosed e => done (s, FfFailed e)
      | RoTimeout =>
          let* now := term_ask CNow in
          if deadline <=? now then done (s, FfFailed TeProtocol)
          else first_frame fuel deadline s
      end
  end.

(** From the grant to its drop, on every way out. *)
Definition drive_granted (fuel : nat) (opts : ServeOptions) (handle token : Z)
  (window : WindowSize) (s : Session) :
  term_act (Session * result ServeSummary terror) :=
  let* '(s, r) := send_terminal_frame s (TfGranted handle token) in
  match r with
  | Err e =>
      let* _ := term_ask (CDropGrant handle token) in done (s, Err e)
  | Ok _ =>
      let* _ := term_ask (CResize handle token window) in
      let* '(st, r) := serve_loop fuel opts handle token (serve_start s) in
      let* _ := term_ask (CDropGrant handle token) in
      match r with
      | Err e => done (sv_session st, Err e)
      | Ok _ =>
          let e := match sv_end st with Some e => e | None => SePeerClosed end in
          let* exited := term_ask (CHasExited handle) in
          let* _ := if exited then term_ask (CRetire handle) else done tt in
          done (sv_session st,
                Ok (MkSummary handle token (sv_input_bytes st)
                      (sv_output_bytes st) (sv_exit st) e))
      end
  end.

Definition drive (fuel : nat) (opts : ServeOptions) (conn : Z) (s : Session) :
  term_act (Session * result ServeSummary terror) :=
  let* r := term_ask (CSetDeadline (so_poll_slice opts)) in
  match r with
  | Err e => done (s, Err (TeTransport e))
  | Ok _ =>
  let* now := term_ask CNow in
  let* '(s, f) := first_frame fuel (now + so_first_frame_timeout opts) s in
  match f with
  | FfFailed e => done (s, Err e)
  | FfDenied handle => done (s, Ok (no_service handle SeDeniedGone))
  | FfHub handle window =>
      let* a := term_ask (CAcquire handle conn) in
      match a with
      | None => Ret Panicked
      | Some (Err _) =>
          let* '(s, r) := send_terminal_frame s (TfDenied DenyBusy) in
          match r with
          | Err e => done (s, Err e)
          | Ok _ =>
              let* _ := term_ask CShutdownWrite in
              done (s, Ok (no_service handle SeDeniedBusy))
          end
      | Some (Ok token) => drive_granted fuel opts handle token window s
      end
  end
  end.

(** The session is returned as it is left; after an error it is closed. *)
Definition serve_connection (fuel : nat) (opts : ServeOptions) (conn : Z)
  (s : Session) : term_act (Session * ServeSummary) :=
  let* '(s, r) := drive fuel opts conn s in
  let '(s, summary) :=
    match r with
    | Ok summary => (s, summary)
    | Err e => (session_close s, no_service 0 (SeFailed e))
    end in
  let* _ := term_ask CClose in
  done (s, summary).

End Server.
