(* ===== verification/TermServerSpec.v ===== *)
(** * TermServerSpec: a connection is a run of an abstract automaton *)

From stdpp Require Import gmap.
From Stdlib Require Import Strings.Byte.
From S2P Require Export TermServer SessionSpec.

#[local] Open Scope list_scope.
#[local] Open Scope Z_scope.

(** ** The abstract connection

    What one connection may do to its stream and to the terminal it holds.
    [cn_typed] is the input of its accepted frames, [cn_written] what of it the
    terminal has taken; [cn_drained] is the output read off the terminal,
    [cn_sent] what of it was sent. *)
Record Conn := MkConn {
  cn_session : Session;
  cn_frame : option TerminalFrame;
  cn_hub : option Z;
  cn_grant : option Z;
  cn_live : bool;
  cn_fresh : bool;
  cn_typed : list byte;
  cn_written : list byte;
  cn_drained : list byte;
  cn_sent : list byte;
  cn_broken : bool;
  cn_code : option Z;
  cn_exit : bool;
  cn_gone : bool;
  cn_closed : bool;
}.

Definition conn_start (s : Session) : Conn :=
  MkConn s None None None false false [] [] [] [] false None false false false.

(** Frames in and out. *)
Definition cn_recv (m : Conn) (s : Session) (f : option TerminalFrame) : Conn :=
  MkConn s f (cn_hub m) (cn_grant m) (cn_live m) false (cn_typed m) (cn_written m)
    (cn_drained m) (cn_sent m) (cn_broken m) (cn_code m) (cn_exit m) (cn_gone m)
    (cn_closed m).
Definition cn_send (m : Conn) (s : Session) (d : list byte) (broken exit_ : bool) : Conn :=
  MkConn s (cn_frame m) (cn_hub m) (cn_grant m) (cn_live m) (cn_fresh m)
    (cn_typed m) (cn_written m) (cn_drained m) (cn_sent m ++ d)
    (cn_broken m || broken) (cn_code m) (cn_exit m || exit_) (cn_gone m) (cn_closed m).

(** The lease. *)
Definition cn_attach (m : Conn) (h : Z) : Conn :=
  MkConn (cn_session m) (cn_frame m) (Some h) (cn_grant m) (cn_live m) (cn_fresh m)
    (cn_typed m) (cn_written m) (cn_drained m) (cn_sent m) (cn_broken m) (cn_code m)
    (cn_exit m) (cn_gone m) (cn_closed m).
Definition cn_granted (m : Conn) (t : Z) : Conn :=
  MkConn (cn_session m) (cn_frame m) (cn_hub m) (Some t) true (cn_fresh m)
    (cn_typed m) (cn_written m) (cn_drained m) (cn_sent m) (cn_broken m) (cn_code m)
    (cn_exit m) (cn_gone m) (cn_closed m).
Definition cn_drop (m : Conn) : Conn :=
  MkConn (cn_session m) (cn_frame m) (cn_hub m) (cn_grant m) false (cn_fresh m)
    (cn_typed m) (cn_written m) (cn_drained m) (cn_sent m) (cn_broken m) (cn_code m)
    (cn_exit m) (cn_gone m) (cn_closed m).
Definition cn_beat (m : Conn) (input : list byte) : Conn :=
  MkConn (cn_session m) None (cn_hub m) (cn_grant m) (cn_live m) true
    (cn_typed m ++ input) (cn_written m) (cn_drained m) (cn_sent m) (cn_broken m)
    (cn_code m) (cn_exit m) (cn_gone m) (cn_closed m).

(** The terminal. *)
Definition cn_write (m : Conn) (d : list byte) (fresh : bool) : Conn :=
  MkConn (cn_session m) (cn_frame m) (cn_hub m) (cn_grant m) (cn_live m) fresh
    (cn_typed m) (cn_written m ++ d) (cn_drained m) (cn_sent m) (cn_broken m)
    (cn_code m) (cn_exit m) (cn_gone m) (cn_closed m).
Definition cn_drain (m : Conn) (d : list byte) : Conn :=
  MkConn (cn_session m) (cn_frame m) (cn_hub m) (cn_grant m) (cn_live m) (cn_fresh m)
    (cn_typed m) (cn_written m) (cn_drained m ++ d) (cn_sent m) (cn_broken m)
    (cn_code m) (cn_exit m) (cn_gone m) (cn_closed m).
Definition cn_see (m : Conn) (code : option Z) : Conn :=
  MkConn (cn_session m) (cn_frame m) (cn_hub m) (cn_grant m) (cn_live m) (cn_fresh m)
    (cn_typed m) (cn_written m) (cn_drained m) (cn_sent m) (cn_broken m) code
    (cn_exit m) (cn_gone m) (cn_closed m).
Definition cn_end (m : Conn) (gone closed : bool) : Conn :=
  MkConn (cn_session m) (cn_frame m) (cn_hub m) (cn_grant m) (cn_live m) (cn_fresh m)
    (cn_typed m) (cn_written m) (cn_drained m) (cn_sent m) (cn_broken m) (cn_code m)
    (cn_exit m) gone closed.

(** The terminal is this connection's: it holds token [t] of hub [h]. *)
Definition holds (m : Conn) (h t : Z) : Prop :=
  cn_hub m = Some h /\ cn_grant m = Some t /\ cn_live m = true.

Definition input_of (f : option TerminalFrame) : list byte :=
  match f with Some (TfInput d) => d | _ => [] end.

Section Spec.
Context `{Aead}.

(** The frames a connection may send. *)
Definition may_send (m : Conn) (f : TerminalFrame) : Prop :=
  match f with
  | TfDenied _ => cn_grant m = None
  | TfGranted h t => holds m h t
  | TfOutput d =>
      cn_live m = true /\
      (cn_broken m = false -> (cn_sent m ++ d) `prefix_of` cn_drained m)
  | TfExit code =>
      cn_live m = true /\ cn_exit m = false /\ cn_code m = Some code /\
      (cn_broken m = false -> cn_sent m = cn_drained m)
  | _ => False
  end.

Definition output_of (f : TerminalFrame) : list byte :=
  match f with TfOutput d => d | _ => [] end.
Definition is_exit (f : TerminalFrame) : bool :=
  match f with TfExit _ => true | _ => false end.

Inductive conn_step (m : Conn) : forall c, answer c -> Conn -> Prop :=
  | cs_now t : conn_step m CNow t m
  | cs_deadline d r : conn_step m (CSetDeadline d) r m
  | cs_recv_fail e : conn_step m CRecv (Err e) m
  | cs_recv wire s r :
      cn_closed m = false -> cn_written m = cn_typed m ->
      open_frame Server (cn_session m) wire = (s, r) ->
      conn_step m CRecv (Ok wire)
        (cn_recv m s (match r with Some (Ok f) => Some f | _ => None end))
  | cs_send f wire s r :
      cn_closed m = false -> may_send m f ->
      seal_frame (cn_session m) f = (s, Some (Ok wire)) ->
      conn_step m (CSend wire) r
        (if is_ok r then cn_send m s (output_of f) false (is_exit f)
         else cn_send m s [] true false)
  | cs_shutdown r :
      cn_closed m = false -> cn_exit m = true \/ cn_grant m = None ->
      conn_step m CShutdownWrite r m
  | cs_open rows cols h :
      cn_frame m = Some (TfOpen rows cols) -> cn_hub m = None ->
      conn_step m (COpen (MkWindow rows cols)) (Some (Ok h)) (cn_attach m h)
  | cs_open_fail rows cols e :
      cn_frame m = Some (TfOpen rows cols) -> cn_hub m = None ->
      conn_step m (COpen (MkWindow rows cols)) (Some (Err e)) m
  | cs_find h rows cols b :
      cn_frame m = Some (TfAttach h rows cols) -> cn_hub m = None ->
      conn_step m (CFind h) b (if b then cn_attach m h else m)
  | cs_acquire h conn t :
      cn_hub m = Some h -> cn_grant m = None ->
      conn_step m (CAcquire h conn) (Some (Ok t)) (cn_granted m t)
  | cs_busy h conn e :
      cn_hub m = Some h -> cn_grant m = None ->
      conn_step m (CAcquire h conn) (Some (Err e)) m
  | cs_beat h t :
      holds m h t ->
      conn_step m (CHeartbeat h t) (Ok tt) (cn_beat m (input_of (cn_frame m)))
  | cs_beat_fail h t e :
      holds m h t -> conn_step m (CHeartbeat h t) (Err e) m
  | cs_write h t d r :
      holds m h t -> cn_fresh m = true -> d <> [] ->
      Z.of_nat (length d) <= PTY_WRITE_SLICE ->
      (cn_written m ++ d) `prefix_of` cn_typed m ->
      conn_step m (CWrite h t d) r
        (if is_ok r then cn_write m d true else cn_write m [] false)
  | cs_resize h t w r : holds m h t -> conn_step m (CResize h t w) r m
  | cs_drain h t n r :
      holds m h t ->
      conn_step m (CDrain h n) r
        (match r with Ok (PrData d) => cn_drain m d | _ => m end)
  | cs_poll h t c :
      holds m h t ->
      conn_step m (CPollExit h) c
        (match c with Some _ => cn_see m c | None => m end)
  | cs_current h t b : holds m h t -> conn_step m (CIsCurrent h t) b m
  | cs_snapshot h t sn : holds m h t -> conn_step m (CSnapshot h) sn m
  | cs_drop h t : holds m h t -> conn_step m (CDropGrant h t) tt (cn_drop m)
  | cs_exited h b :
      cn_hub m = Some h -> cn_grant m <> None -> cn_live m = false ->
      conn_step m (CHasExited h) b (cn_end m b (cn_closed m))
  | cs_retire h :
      cn_hub m = Some h -> cn_live m = false -> cn_gone m = true ->
      conn_step m (CRetire h) tt m
  | cs_close r :
      cn_live m = false -> cn_closed m = false ->
      conn_step m CClose r (cn_end m (cn_gone m) true).

(** What is known of the answers: counters of the registry and of the lease do not
    overflow, and a read that gives data gives some. *)
Definition answer_ok (c : TermCall) : answer c -> Prop :=
  match c with
  | COpen _ => fun a => a <> None
  | CAcquire _ _ => fun a => a <> None
  | CDrain _ _ => fun a => a <> Ok (PrData [])
  | _ => fun _ => True
  end.

(** What the summary of a served connection says. *)
Definition accounts (su : ServeSummary) (m : Conn) : Prop :=
  cn_grant m = Some (su_token su) /\ cn_hub m = Some (su_handle su) /\
  su_input_bytes su = Z.min U64_MAX (Z.of_nat (length (cn_written m))) /\
  su_output_bytes su = Z.min U64_MAX (Z.of_nat (length (cn_sent m))) /\
  (forall code, su_exit su = Some code -> cn_code m = Some code) /\
  (forall code, su_end su = SeShellExited code ->
     cn_exit m = true /\ cn_code m = Some code).

(** At the end the stream is closed and the lease given up. *)
Definition conn_final (r : Session * ServeSummary) (m : Conn) : Prop :=
  let '(s, su) := r in
  cn_closed m = true /\ cn_live m = false /\
  (su_end su = SeDeniedBusy \/ su_end su = SeDeniedGone -> cn_grant m = None) /\
  (cn_grant m <> None ->
     accounts su m \/
     (exists e, su = no_service 0 (SeFailed e) /\ ss_keys s = None)).

(** ** Helper facts *)

Lemma length_term_encode f bytes :
  term_encode f = Some bytes -> (length bytes <= Z.to_nat MAX_APP_PLAINTEXT)%nat.
Proof.
  intros E. assert (Hm : (22 <= Z.to_nat MAX_APP_PLAINTEXT)%nat)
    by (unfold MAX_APP_PLAINTEXT; lia).
  assert (Hc : forall t d out, encode_chunk t d = Some out ->
            (length out <= Z.to_nat MAX_APP_PLAINTEXT)%nat).
  { intros t d out Ec. unfold encode_chunk in Ec.
    destruct (Z.leb_spec (Z.of_nat (length d)) DATA_CHUNK_MAX) as [Hl|]; [|discriminate].
    apply some_inj in Ec as <-. rewrite !length_app, length_be_bytes. cbn [length].
    unfold DATA_CHUNK_MAX, FRAME_OVERHEAD in Hl. lia. }
  destruct f; cbn [term_encode] in E; eauto;
    apply some_inj in E as <-;
    rewrite ?length_app, ?length_be_bytes; cbn [length]; lia.
Qed.

(** Sealing a frame that encodes gives bytes for the wire, or ends the session. *)
Lemma seal_frame_cases s f :
  sess_inv s -> term_encode f <> None ->
  exists s' r, seal_frame s f = (s', Some r) /\ sess_inv s' /\
    match r with Ok _ => ss_terminated s = None | Err _ => ss_terminated s' <> None end.
Proof.
  intros Hi Hf. unfold seal_frame. destruct (term_encode f) as [bytes|] eqn:Ef; [|congruence].
  destruct (seal_record s DataRecord bytes) as [s' r] eqn:Es.
  destruct (seal_shape _ _ _ _ _ Hi Es) as [Hi' Hs].
  destruct r as [[rc|e]|]; [| |contradiction].
  - destruct (seal_ok _ _ _ _ _ Es) as (k & ct & tag & Ht & _ & _ & _ & _ & Ee & Hr & _).
    apply aead_lengths in Ee as [Hct Htag]. apply length_term_encode in Ef.
    assert (Hl : in_data_range (Z.of_nat (length (rc_sealed rc))) = true).
    { rewrite Hr, length_app. unfold in_data_range, MIN_DATA_FIELD, MAX_DATA_FIELD.
      unfold MAX_APP_PLAINTEXT in Ef. apply andb_true_iff. rewrite !Z.leb_le. lia. }
    unfold encode, encode_into. cbn [encode_precheck]. rewrite Hl.
    cbn [negb result_bind map_err]. eauto 10.
  - destruct Hs as (_ & Hs & _). eauto 10.
Qed.

Lemma seal_frame_terminated s f s' wire :
  ss_terminated s <> None -> seal_frame s f <> (s', Some (Ok wire)).
Proof.
  intros Ht E. unfold seal_frame in E. destruct (term_encode f) as [bytes|]; [|congruence].
  destruct (seal_record s DataRecord bytes) as [s1 [[rc|e]|]] eqn:Es; try congruence.
  apply seal_ok in Es as (k & ct & tag & Hn & _). congruence.
Qed.

Lemma open_frame_cases role s wire :
  sess_inv s -> exists s' r, open_frame role s wire = (s', Some r) /\ sess_inv s' /\
    (ss_terminated s <> None -> ss_terminated s' <> None).
Proof.
  intros Hi. unfold open_frame. destruct (decode role wire) as [m|]; [|eauto 10].
  destruct m; eauto 10. destruct (open_record s DataRecord dseq data) as [s' r] eqn:Eo.
  destruct (open_shape _ _ _ _ _ _ Hi Eo) as [Hi' Hs].
  destruct r as [[p|e]|]; [| |contradiction]; eexists _, _;
    (split; [reflexivity|]; split; [exact Hi'|]); [congruence|].
  intros Ht. apply Hs.
Qed.

Lemma chunks_fuel_spec {n} fuel : forall data,
  (0 < n)%nat -> (length data <= fuel)%nat ->
  concat (chunks_fuel fuel n data) = data /\
  Forall (fun c => c <> [] /\ (length c <= n)%nat) (chunks_fuel fuel n data).
Proof.
  induction fuel as [|fuel IH]; intros data Hn Hl.
  - destruct data; [split; [reflexivity | constructor] | cbn in Hl; lia].
  - destruct data as [|b data]; [split; [reflexivity | constructor]|].
    cbn [chunks_fuel concat]. destruct (IH (drop n (b :: data)) Hn) as [A B].
    { rewrite length_drop. cbn [length] in *. lia. }
    rewrite A, take_drop. split; [reflexivity|]. constructor; [|exact B].
    split; [destruct n; [lia | discriminate] | rewrite length_take; lia].
Qed.

Lemma chunk_input_spec data :
  concat (chunk_input data) = data /\
  Forall (fun c => c <> [] /\ Z.of_nat (length c) <= DATA_CHUNK_MAX) (chunk_input data).
Proof.
  destruct (chunks_fuel_spec (n := Z.to_nat DATA_CHUNK_MAX) (length data) data)
    as [A B]; [unfold DATA_CHUNK_MAX, MAX_APP_PLAINTEXT, FRAME_OVERHEAD; lia | lia |].
  split; [exact A|]. eapply List.Forall_impl; [|exact B]. cbn. intros c [? ?].
  split; [assumption|]. unfold DATA_CHUNK_MAX, MAX_APP_PLAINTEXT, FRAME_OVERHEAD in *. lia.
Qed.

Lemma input_slices_spec data :
  concat (input_slices data) = data /\
  Forall (fun c => c <> [] /\ Z.of_nat (length c) <= PTY_WRITE_SLICE) (input_slices data).
Proof.
  unfold input_slices. destruct (chunk_input_spec data) as [A _].
  rewrite <- A at 2. generalize (chunk_input data). clear.
  assert (Hs : forall c : list byte, let l := chunks_fuel (length c) (Z.to_nat PTY_WRITE_SLICE) c in
    concat l = c /\ Forall (fun c => c <> [] /\ Z.of_nat (length c) <= PTY_WRITE_SLICE) l).
  { intros c. destruct (chunks_fuel_spec (n := Z.to_nat PTY_WRITE_SLICE) (length c) c)
      as [A B]; [unfold PTY_WRITE_SLICE; lia | lia |].
    split; [exact A|]. eapply List.Forall_impl; [|exact B]. cbn. intros d [? ?].
    split; [assumption|]. unfold PTY_WRITE_SLICE in *. lia. }
  induction l as [|c l [IHa IHb]]; [split; [reflexivity | constructor]|].
  cbn [map concat]. destruct (Hs c) as [A B]. rewrite concat_app, A, IHa.
  split; [reflexivity|]. apply Forall_app. auto.
Qed.

(** ** The frames *)

Notation csafe F p m Q := (act_safe answer_ok conn_step F p m Q).

(** The session of the program and that of the automaton: one, or the program's
    is over. *)
Definition synced (s : Session) (m : Conn) : Prop :=
  s = cn_session m \/ ss_terminated s <> None.

Lemma send_safe F s f m Q :
  sess_inv s -> synced s m -> term_encode f <> None -> cn_closed m = false ->
  (ss_terminated s = None -> may_send m f) ->
  (forall s' e, sess_inv s' -> ss_terminated s' <> None -> Q (s', Err e) m) ->
  (forall s', sess_inv s' -> s = cn_session m -> ss_terminated s = None -> may_send m f ->
     Q (s', Ok tt) (cn_send m s' (output_of f) false (is_exit f))) ->
  (forall s' e, sess_inv s' -> s = cn_session m -> ss_terminated s = None ->
     Q (s', Err e) (cn_send m s' [] true false)) ->
  csafe F (send_terminal_frame s f) m Q.
Proof.
  intros Hi Hy Hf Hc Hm Hseal Hok Herr. unfold send_terminal_frame.
  destruct (seal_frame_cases s f Hi Hf) as (s' & r & E & Hi' & Ht). rewrite E.
  destruct r as [wire|e]; [|apply act_safe_done; auto].
  assert (s = cn_session m) as -> by (destruct Hy; congruence).
  apply act_safe_bind, act_safe_ask. intros a _. eexists. split.
  { eapply (cs_send m f wire s' a); auto. }
  apply act_safe_done. destruct a as [[]|e]; cbn [is_ok map_err]; auto.
Qed.

Lemma recv_safe F s m Q :
  sess_inv s -> s = cn_session m -> cn_closed m = false ->
  cn_written m = cn_typed m ->
  (forall r, match r with RoFrame _ => False | _ => True end -> Q (s, r) m) ->
  (forall s' r, sess_inv s' -> r <> RoTimeout ->
     (ss_terminated s <> None -> ss_terminated s' <> None) ->
     Q (s', r) (cn_recv m s' (match r with RoFrame f => Some f | _ => None end))) ->
  csafe F (recv_terminal_frame s) m Q.
Proof.
  intros Hi Hy Hc Hw Hquiet Hrecv. unfold recv_terminal_frame.
  apply act_safe_bind, act_safe_ask. intros a _. destruct a as [wire|e].
  - destruct (open_frame_cases Server s wire Hi) as (s' & r & E & Hi' & Ht). rewrite E.
    eexists. split; [eapply (cs_recv m wire s' (Some r)); auto; congruence|].
    destruct r as [f|e]; apply act_safe_done.
    + apply (Hrecv s' (RoFrame f)); [auto | discriminate | exact Ht].
    + apply (Hrecv s' (RoClosed e)); [auto | discriminate | exact Ht].
  - eexists. split; [apply cs_recv_fail|]. destruct e; apply act_safe_done; auto.
Qed.

(** ** The invariant of the loop *)

Definition untidy (st : ServeSt) (m : Conn) : Prop :=
  cn_broken m = true \/ ss_terminated (sv_session st) <> None.

(** [owed] is the output read and not yet sent. *)
Record core_inv (h t : Z) (owed : list byte) (st : ServeSt) (m : Conn) : Prop := {
  ci_holds : holds m h t;
  ci_closed : cn_closed m = false;
  ci_sess : sess_inv (sv_session st);
  ci_sync : synced (sv_session st) m;
  ci_in : sv_input_bytes st = Z.min U64_MAX (Z.of_nat (length (cn_written m)));
  ci_out : sv_output_bytes st = Z.min U64_MAX (Z.of_nat (length (cn_sent m)));
  ci_owed : untidy st m \/ cn_drained m = cn_sent m ++ owed;
  ci_noexit : sv_exit st = None -> cn_exit m = false;
  ci_code : forall c, sv_exit st = Some c -> cn_code m = Some c;
  ci_at : sv_exit_sent_at st <> None -> cn_exit m = true /\ sv_exit st <> None;
  ci_end : forall c, sv_end st = Some (SeShellExited c) ->
             cn_exit m = true /\ cn_code m = Some c;
  ci_served : sv_end st <> Some SeDeniedBusy /\ sv_end st <> Some SeDeniedGone;
}.

Definition conn_inv (h t : Z) (st : ServeSt) (m : Conn) : Prop :=
  core_inv h t (sv_pending st) st m /\
  (sv_pty_eof st = true -> untidy st m \/ sv_pending st = []).

(** At the head of the loop. *)
Definition loop_inv (h t : Z) (st : ServeSt) (m : Conn) : Prop :=
  conn_inv h t st m /\
  (sv_end st = None ->
     sv_session st = cn_session m /\ cn_written m = cn_typed m).

Lemma min_add a n b :
  a = Z.min U64_MAX (Z.of_nat b) ->
  saturating_add a (Z.of_nat n) = Z.min U64_MAX (Z.of_nat (b + n)).
Proof. intros ->. unfold saturating_add. lia. Qed.

(** Setting the reason of the end, but for the two that need more. *)
Lemma conn_inv_end h t st m e :
  conn_inv h t st m ->
  match e with SeShellExited c => cn_exit m = true /\ cn_code m = Some c
             | SeDeniedBusy | SeDeniedGone => False | _ => True end ->
  conn_inv h t (set_end st e) m.
Proof.
  intros [[? ? ? ? ? ? ? ? ? ? ? ?] Heof] He. split; [|exact Heof]. split; cbn; auto.
  - intros c Hc. apply some_inj in Hc as ->. exact He.
  - split; intros Hc; apply some_inj in Hc as ->; exact He.
Qed.

(** The core does not look at what is pending. *)
Lemma core_drained h t owed st m p eof :
  core_inv h t owed st m -> core_inv h t owed (set_drained st p eof) m.
Proof. intros [? ? ? ? ? ? ? ? ? ? ? ?]. split; auto. Qed.

Lemma core_untidy h t owed owed' st m :
  core_inv h t owed st m -> untidy st m -> core_inv h t owed' st m.
Proof. intros [? ? ? ? ? ? ? ? ? ? ? ?] Hu. split; auto. Qed.

(** What draining leaves alone. *)
Definition same_side (st st' : ServeSt) (m m' : Conn) : Prop :=
  sv_end st' = sv_end st /\ sv_exit st' = sv_exit st /\
  sv_exit_sent_at st' = sv_exit_sent_at st /\
  cn_typed m' = cn_typed m /\ cn_written m' = cn_written m /\
  cn_fresh m' = cn_fresh m /\ cn_code m' = cn_code m.

Lemma same_side_refl st m : same_side st st m m.
Proof. unfold same_side. auto 10. Qed.

Lemma same_side_trans st1 st2 st3 m1 m2 m3 :
  same_side st1 st2 m1 m2 -> same_side st2 st3 m2 m3 -> same_side st1 st3 m1 m3.
Proof. unfold same_side. intuition congruence. Qed.

(** The reads: what they gather is what the terminal gave. *)
Lemma drain_loop_safe h t fuel : forall pending m Q,
  holds m h t ->
  (Z.to_nat DATA_CHUNK_MAX - length pending < fuel)%nat ->
  (forall pending' eof r m' new, pending' = pending ++ new -> m' = cn_drain m new ->
     (is_ok r = false -> eof = false) -> Q (pending', eof, r) m') ->
  csafe False (drain_loop fuel h pending) m Q.
Proof.
  induction fuel as [|fuel IH]; intros pending m Q Hh Hf HQ; [lia|].
  cbn [drain_loop]. apply act_safe_bind, act_safe_ask. intros a Ha.
  eexists. split; [eapply (cs_drain m h t OUT_BUF a), Hh|].
  assert (Hm : forall x, x = m -> x = cn_drain m []).
  { intros x ->. destruct m. unfold cn_drain. cbn. rewrite app_nil_r. reflexivity. }
  destruct a as [[bs| |]|e]; cbn [answer_ok] in Ha.
  2-4: apply act_safe_done; eapply HQ; [symmetry; apply app_nil_r | auto | easy].
  destruct (Z.leb_spec DATA_CHUNK_MAX (Z.of_nat (length (pending ++ bs)))) as [Hl|Hl].
  - apply act_safe_done. eapply HQ; [reflexivity | reflexivity | easy].
  - apply IH; [exact Hh | |].
    + destruct bs as [|b bs]; [congruence|]. rewrite length_app in *. cbn [length] in *. lia.
    + intros p' eof r m' new -> -> He. eapply HQ; [symmetry; apply app_assoc| |exact He].
      unfold cn_drain. cbn. rewrite app_assoc. reflexivity.
Qed.

(** After an output frame was sent. *)
Lemma core_sent h t owed d st m s' :
  core_inv h t (d ++ owed) st m -> sess_inv s' -> ss_terminated (sv_session st) = None ->
  core_inv h t owed
    (count_output (set_session st s') (Z.of_nat (length d)))
    (cn_send m s' d false false).
Proof.
  intros [? ? ? ? ? ? Ho ? ? Hat Hend ?] Hi Hn. split; cbn; rewrite ?orb_false_r; auto.
  - left. reflexivity.
  - rewrite length_app. apply min_add. assumption.
  - destruct Ho as [[Hb|Ht]|Hd]; [|congruence|].
    + left. left. cbn. rewrite Hb. reflexivity.
    + right. rewrite Hd. apply app_assoc.
Qed.

(** After a send failed: the session is over, or the stream is broken. *)
Lemma core_failed h t owed owed' st m s' m' :
  core_inv h t owed st m -> sess_inv s' ->
  (m' = m /\ ss_terminated s' <> None \/ m' = cn_send m s' [] true false) ->
  core_inv h t owed' (set_session st s') m' /\ untidy (set_session st s') m'.
Proof.
  intros [? ? ? ? ? ? ? ? ? ? ? ?] Hi [[-> Ht]| ->].
  - assert (Hu : untidy (set_session st s') m) by (right; exact Ht).
    split; [|exact Hu]. split; cbn; auto. right. exact Ht.
  - assert (Hu : untidy (set_session st s') (cn_send m s' [] true false))
      by (left; cbn; apply orb_true_r).
    split; [|exact Hu]. split; cbn; rewrite ?orb_false_r, ?app_nil_r; auto.
    left. reflexivity.
Qed.

(** Sending the chunks. *)
Lemma send_chunks_safe h t chunks : forall st m Q,
  core_inv h t (concat chunks) st m ->
  Forall (fun c => c <> [] /\ Z.of_nat (length c) <= DATA_CHUNK_MAX) chunks ->
  (forall st' m' r, core_inv h t [] st' m' -> same_side st st' m m' ->
     sv_pty_eof st' = sv_pty_eof st -> sv_pending st' = sv_pending st ->
     match r with
     | Ok _ => sv_session st = cn_session m -> sv_session st' = cn_session m'
     | Err _ => untidy st' m'
     end -> Q (st', r) m') ->
  csafe False (send_chunks st chunks) m Q.
Proof.
  induction chunks as [|d chunks IH]; intros st m Q Hc Hl HQ; cbn [send_chunks].
  - apply act_safe_done. apply HQ; auto using same_side_refl.
  - apply Forall_cons_iff in Hl as [[_ Hd] Hl]. cbn [concat] in Hc.
    assert (Hfail : forall s' m' e, sess_inv s' ->
      (m' = m /\ ss_terminated s' <> None \/ m' = cn_send m s' [] true false) ->
      Q (set_session st s', Err e) m').
    { intros s' m' e Hi Hm. destruct (core_failed _ _ _ [] _ _ _ _ Hc Hi Hm) as [A B].
      apply HQ; auto. destruct Hm as [[-> _]| ->]; unfold same_side; cbn; auto 10. }
    apply act_safe_bind. apply send_safe.
    + apply Hc.
    + apply Hc.
    + cbn [term_encode]. unfold encode_chunk.
      rewrite (proj2 (Z.leb_le _ _)) by exact Hd. discriminate.
    + apply Hc.
    + intros Hn. split; [apply Hc|]. intros Hb.
      destruct (ci_owed _ _ _ _ _ Hc) as [[?|?]|Ho]; [congruence..|].
      rewrite Ho, app_assoc. apply prefix_app_r. reflexivity.
    + intros s' e Hi Ht. apply act_safe_done. eapply Hfail; eauto.
    + intros s' Hi Hy Hn _. cbn [output_of is_exit].
      apply IH; [apply core_sent; auto | exact Hl |].
      intros st' m' r Hc' Hs He Hp Hr. apply HQ; [exact Hc' | exact Hs | exact He
        | exact Hp |].
      destruct r; [intros _; apply Hr; reflexivity | exact Hr].
    + intros s' e Hi Hy Hn. apply act_safe_done. eapply Hfail; eauto.
Qed.

(** Draining the terminal.  It always comes to an end. *)
Lemma drain_pty_safe h t st m Q :
  conn_inv h t st m ->
  (forall st' m' r, conn_inv h t st' m' -> same_side st st' m m' ->
     match r with
     | Ok _ => (untidy st' m' \/ cn_drained m' = cn_sent m') /\
         (sv_session st = cn_session m -> sv_session st' = cn_session m')
     | Err _ => True
     end -> Q (st', r) m') ->
  csafe False (drain_pty h st) m Q.
Proof.
  intros [Hc Heof] HQ. unfold drain_pty. destruct (sv_pty_eof st) eqn:Ee.
  { apply act_safe_done. apply HQ; [split; auto | apply same_side_refl |].
    split; [|auto]. destruct (Heof eq_refl) as [Hu|Hp]; [auto|].
    destruct (ci_owed _ _ _ _ _ Hc) as [Hu|Ho]; [auto|].
    rewrite Hp, app_nil_r in Ho. auto. }
  apply act_safe_bind. apply (drain_loop_safe h t); [apply Hc | lia |].
  intros p eof r m' new -> -> He.
  assert (Hc' : core_inv h t (sv_pending st ++ new)
            (set_drained st (sv_pending st ++ new) eof) (cn_drain m new)).
  { apply core_drained. destruct Hc as [? ? ? ? ? ? Ho ? ? ? ? ?]. split; auto.
    destruct Ho as [Hu|Ho]; [left; exact Hu | right]. cbn. rewrite Ho, app_assoc.
    reflexivity. }
  assert (Hs0 : forall st', sv_end st' = sv_end st -> sv_exit st' = sv_exit st ->
            sv_exit_sent_at st' = sv_exit_sent_at st ->
            same_side st st' m (cn_drain m new)) by (unfold same_side; cbn; auto 10).
  destruct r as [[]|e].
  2: { apply act_safe_done. apply HQ; [|apply Hs0; reflexivity | exact I].
       split; [exact Hc'|]. cbn. rewrite He by reflexivity. discriminate. }
  destruct (sv_pending st ++ new) as [|b p] eqn:Ep.
  { apply act_safe_done. apply HQ; [split; [exact Hc' | auto] | apply Hs0; reflexivity |].
    split; [|auto]. destruct (ci_owed _ _ _ _ _ Hc') as [Hu|Ho]; [auto|].
    rewrite app_nil_r in Ho. auto. }
  rewrite <- Ep in *. clear Ep b p.
  destruct (chunk_input_spec (sv_pending st ++ new)) as [Hcat Hall].
  apply act_safe_bind. apply (send_chunks_safe h t); [rewrite Hcat; exact Hc' | exact Hall |].
  intros st' m' r Hn Hs Heof' Hp Hr.
  assert (Hside : same_side st st' m m')
    by (eapply same_side_trans; [|exact Hs]; apply Hs0; reflexivity).
  destruct r as [[]|e]; apply act_safe_done; (apply HQ; [|exact Hside|]).
  - split; [apply core_drained, Hn | auto].
  - split; [|exact Hr]. destruct (ci_owed _ _ _ _ _ Hn) as [Hu|Ho]; [auto|].
    rewrite app_nil_r in Ho. auto.
  - split; [eapply core_untidy; eauto | auto].
  - exact I.
Qed.

(** ** The parts of a pass *)

(** An ended connection is at the head of the loop whatever it left undone. *)
Lemma loop_inv_end h t st m e :
  conn_inv h t st m ->
  match e with SeShellExited c => cn_exit m = true /\ cn_code m = Some c
             | SeDeniedBusy | SeDeniedGone => False | _ => True end ->
  loop_inv h t (set_end st e) m.
Proof. intros Hc He. split; [apply conn_inv_end; auto | discriminate]. Qed.

(** The automaton's moves that do not touch what the loop knows. *)
Lemma conn_inv_written h t st m d :
  conn_inv h t st m ->
  conn_inv h t (count_input st (Z.of_nat (length d))) (cn_write m d true).
Proof.
  intros [[? ? ? ? Hin ? ? ? ? ? ? ?] Heof]. split; [|exact Heof]. split; cbn; auto.
  rewrite length_app. apply min_add, Hin.
Qed.

Lemma conn_inv_refused h t st m :
  conn_inv h t st m -> conn_inv h t st (cn_write m [] false).
Proof.
  intros [[? ? ? ? Hin ? ? ? ? ? ? ?] Heof]. split; [|exact Heof].
  split; cbn; rewrite ?app_nil_r; auto.
Qed.

Lemma conn_inv_beat h t st m d :
  conn_inv h t st m -> conn_inv h t st (cn_beat m d).
Proof.
  intros [[? ? ? ? ? ? ? ? ? ? ? ?] Heof]. split; [|exact Heof]. split; auto.
Qed.

Lemma conn_inv_see h t st m code :
  conn_inv h t st m -> sv_exit st = None -> conn_inv h t st (cn_see m (Some code)).
Proof.
  intros [[? ? ? ? ? ? ? Hno ? ? Hend ?] Heof] Hn. split; [|exact Heof].
  split; cbn; auto; [congruence|]. intros c Hc. apply Hend in Hc as [Hc _].
  rewrite Hno in Hc by exact Hn. discriminate.
Qed.

Lemma conn_inv_recv h t st m s f :
  conn_inv h t st m -> sess_inv s -> sv_session st = cn_session m ->
  (ss_terminated (cn_session m) <> None -> ss_terminated s <> None) ->
  conn_inv h t (set_session st s) (cn_recv m s f).
Proof.
  intros [[? ? ? ? ? ? Ho ? ? ? ? ?] Heof] Hs Hy Ht. rewrite <- Hy in Ht.
  assert (Hu : untidy st m -> untidy (set_session st s) (cn_recv m s f)).
  { intros [Hb|Hn]; [left; exact Hb | right; auto]. }
  split; [|cbn; intros E; destruct (Heof E); auto]. split; cbn; auto.
  - left. reflexivity.
  - destruct Ho; auto.
Qed.

Lemma write_slices_safe h t slices : forall st m Q,
  conn_inv h t st m -> cn_fresh m = true -> sv_end st = None ->
  sv_session st = cn_session m ->
  cn_typed m = cn_written m ++ concat slices ->
  Forall (fun c => c <> [] /\ Z.of_nat (length c) <= PTY_WRITE_SLICE) slices ->
  (forall st' m', loop_inv h t st' m' -> Q st' m') ->
  csafe False (write_slices h t st slices) m Q.
Proof.
  induction slices as [|d slices IH]; intros st m Q Hc Hf He Hy Ht Hl HQ;
    cbn [write_slices].
  - apply act_safe_done, HQ. split; [exact Hc|]. intros _. split; [exact Hy|].
    cbn in Ht. rewrite app_nil_r in Ht. auto.
  - apply Forall_cons_iff in Hl as [[Hd Hd'] Hl]. cbn [concat] in Ht.
    apply act_safe_bind, act_safe_ask. intros a _. eexists. split.
    { apply cs_write; auto; [apply Hc|]. rewrite Ht, app_assoc.
      apply prefix_app_r. reflexivity. }
    destruct a as [[]|e]; cbn [is_ok].
    + apply act_safe_bind. apply (drain_pty_safe h t); [apply conn_inv_written, Hc|].
      intros st' m' r Hc' (Ee & _ & _ & Et & Ew & Ef & _) Hr. cbn in *.
      destruct r as [[]|e]; [|apply act_safe_done, HQ, loop_inv_end; auto].
      apply IH; auto; try congruence; [apply Hr, Hy|].
      rewrite Et, Ew, Ht, <- app_assoc. reflexivity.
    + destruct e; apply act_safe_done, HQ, loop_inv_end; auto using conn_inv_refused.
Qed.

(** What the first parts of a pass leave: in the loop, or ended. *)
Definition flow_post (h t : Z) (r : ServeSt * Flow) (m : Conn) : Prop :=
  match snd r with
  | FlGo => loop_inv h t (fst r) m
  | FlBreak => loop_inv h t (fst r) m /\ sv_end (fst r) <> None
  | FlFail _ => conn_inv h t (fst r) m
  end.

Lemma on_frame_safe h t st m f Q :
  conn_inv h t st m -> sv_end st = None -> sv_session st = cn_session m ->
  cn_frame m = Some f -> cn_written m = cn_typed m ->
  (forall r m', flow_post h t r m' -> Q r m') ->
  csafe False (on_frame h t st f) m Q.
Proof.
  intros Hc He Hy Hf Hw HQ. unfold on_frame.
  assert (Hbreak : forall m' e, conn_inv h t st m' ->
    match e with SeFenced | SeProtocol => True | _ => False end ->
    Q (set_end st e, FlBreak) m').
  { intros m' e Hc' Hok. apply HQ. split; [|discriminate].
    apply loop_inv_end; [exact Hc'|]. destruct e; try exact I; contradiction. }
  assert (Hgo : forall m', conn_inv h t st m' -> cn_session m' = cn_session m ->
    cn_written m' = cn_typed m' -> Q (st, FlGo) m').
  { intros m' Hc' Es Ew. apply HQ. split; [exact Hc'|]. intros _. cbn. split; congruence. }
  apply act_safe_bind, act_safe_ask. intros a _. destruct a as [[]|e]; cbn [is_ok].
  - eexists. split; [apply cs_beat, Hc|]. rewrite Hf. cbn [input_of].
    destruct f; try (apply act_safe_done, Hbreak; [apply conn_inv_beat, Hc | exact I]).
    + apply act_safe_bind. destruct (input_slices_spec data) as [Hcat Hall].
      apply (write_slices_safe h t); cbn; auto using conn_inv_beat.
      rewrite Hcat, Hw. reflexivity.
    + apply act_safe_bind, act_safe_ask. intros a _. eexists.
      split; [apply cs_resize, Hc|].
      destruct a as [[]|[]]; apply act_safe_done;
        try (apply Hgo; cbn; rewrite ?app_nil_r; auto using conn_inv_beat).
      apply Hbreak; [apply conn_inv_beat, Hc | exact I].
    + apply act_safe_done, Hgo; cbn; rewrite ?app_nil_r; auto using conn_inv_beat.
  - eexists. split; [apply cs_beat_fail, Hc|].
    destruct f; apply act_safe_done; try (apply Hbreak; [exact Hc | exact I]).
    apply Hgo; auto.
Qed.

Lemma set_session_same st : set_session st (sv_session st) = st.
Proof. destruct st. reflexivity. Qed.

Lemma net_part_safe h t st m Q :
  loop_inv h t st m -> sv_end st = None ->
  (forall r m', flow_post h t r m' -> Q r m') ->
  csafe False (net_part h t st) m Q.
Proof.
  intros [Hc Hl] He HQ. destruct (Hl He) as [Hy Hw]. unfold net_part.
  assert (Hclosed : forall st' m' e, conn_inv h t st' m' -> sv_end st' = None ->
    sv_session st' = cn_session m' -> cn_written m' = cn_typed m' ->
    Q (if is_some (sv_exit_sent_at st') then (st', FlGo)
       else (set_end st' (match e with TeTransport TrClosedByPeer => SePeerClosed
                          | other => SeFailed other end), FlBreak)) m').
  { intros st' m' e Hc' He' Hy' Hw'. destruct (is_some _); apply HQ.
    - split; [exact Hc' | auto].
    - split; [|discriminate]. apply loop_inv_end; [exact Hc'|].
      destruct e as [| | | | |[]| | | |]; exact I. }
  assert (Hdone : forall st' m' e, Q (if is_some (sv_exit_sent_at st') then (st', FlGo)
       else (set_end st' (match e with TeTransport TrClosedByPeer => SePeerClosed
                          | other => SeFailed other end), FlBreak)) m' ->
    csafe False (if is_some (sv_exit_sent_at st') then done (st', FlGo)
       else done (set_end st' (match e with TeTransport TrClosedByPeer => SePeerClosed
                          | other => SeFailed other end), FlBreak)) m' Q)
    by (intros st' m' e; destruct (is_some _); exact id).
  apply act_safe_bind. apply recv_safe; auto; try apply Hc.
  - intros r Hr. rewrite set_session_same. destruct r as [f| |e]; [contradiction| |].
    + apply act_safe_done, HQ. split; auto.
    + apply Hdone, Hclosed; auto.
  - intros s' r Hi Hr Ht. rewrite Hy in Ht.
    destruct r as [f| |e]; [|congruence|].
    + apply on_frame_safe; auto. apply conn_inv_recv; auto.
    + apply Hdone, Hclosed; auto. apply conn_inv_recv; auto.
Qed.

Lemma poll_safe h t st m Q :
  conn_inv h t st m -> sv_exit st = None ->
  (forall c m', conn_inv h t st m' -> m' = m \/ m' = cn_see m c ->
     (forall code, c = Some code -> cn_code m' = Some code) -> Q c m') ->
  csafe False (term_ask (CPollExit h)) m Q.
Proof.
  intros Hc Hn HQ. apply act_safe_ask. intros a _. eexists.
  split; [apply (cs_poll m h t), Hc|]. destruct a as [code|]; apply HQ; auto.
  - apply conn_inv_see; auto.
  - discriminate.
Qed.

Lemma conn_inv_exit h t st m code :
  conn_inv h t st m -> sv_exit st = None -> cn_code m = Some code ->
  conn_inv h t (set_exit st code) m.
Proof.
  intros [[? ? ? ? ? ? ? ? ? Hat ? ?] Heof] Hx Hcode. split; [|exact Heof].
  split; cbn; try assumption; [discriminate | congruence |].
  intros X. split; [apply Hat, X | discriminate].
Qed.

(** The frame with the exit code was sent, and the sending direction is shut. *)
Lemma conn_inv_exit_sent h t st m code s' now :
  conn_inv h t (set_exit st code) m -> ss_terminated (sv_session st) = None -> sess_inv s' ->
  conn_inv h t (set_exit_sent (set_session (set_exit st code) s') now) (cn_send m s' [] false true).
Proof.
  intros [[? ? ? ? ? ? Ho ? ? ? Hend ?] Heof] Hn Hi. cbn [sv_session set_exit] in *.
  assert (Hkeep : forall P, untidy (set_exit st code) m \/ P ->
    untidy (set_exit_sent (set_session (set_exit st code) s') now) (cn_send m s' [] false true) \/ P).
  { intros P [[X|X]|X]; [left; left; cbn; rewrite X; reflexivity | cbn in X; congruence | auto]. }
  split; [|intros E; apply Hkeep, Heof, E].
  split; cbn; rewrite ?orb_true_r, ?orb_false_r, ?app_nil_r; auto; try discriminate.
  - left. reflexivity.
  - intros c Hc0. split; [reflexivity | eapply Hend, Hc0].
Qed.

Lemma exit_part_safe h t st m Q :
  loop_inv h t st m -> untidy st m \/ cn_drained m = cn_sent m ->
  (forall r m', flow_post h t r m' -> Q r m') ->
  csafe False (exit_part h st) m Q.
Proof.
  intros [Hc Hl] Hd HQ. unfold exit_part.
  destruct (sv_exit st) as [c|] eqn:Hx; cbn [is_some].
  { apply act_safe_done, HQ. split; auto. }
  assert (Hsee : forall m' c, m' = m \/ m' = cn_see m c ->
    (untidy st m' \/ cn_drained m' = cn_sent m') /\
    (conn_inv h t st m' -> loop_inv h t st m')).
  { intros m' c [-> | ->]; (split; [exact Hd | intros Hc'; split; [exact Hc' | exact Hl]]). }
  apply act_safe_bind. eapply act_safe_mono with (F := False)
    (Q := fun _ m' => conn_inv h t st m' /\ exists c, m' = m \/ m' = cn_see m c);
    [|exact id|].
  { destruct (sv_pty_eof st);
      [apply act_safe_done; split; [exact Hc | exists None; auto]|].
    apply act_safe_bind, (poll_safe h t st); auto.
    intros c m' Hc' Hm _. apply act_safe_done. eauto. }
  intros seen m1 (Hc1 & c1 & Hm1). destruct seen.
  2: { apply act_safe_done, HQ. eapply Hsee; eauto. }
  apply act_safe_bind, (poll_safe h t st); auto. intros c m2 Hc2 Hm2 Hcode.
  assert (H2 : (untidy st m2 \/ cn_drained m2 = cn_sent m2) /\ loop_inv h t st m2).
  { destruct (Hsee m1 c1 Hm1) as [A B]. destruct Hm2 as [-> | ->]; [auto|].
    split; [exact A|]. split; [exact Hc2 | apply (B Hc1)]. }
  destruct H2 as [Hd2 [_ Hl2]].
  destruct c as [code|]; [|apply act_safe_done, HQ; split; auto].
  specialize (Hcode code eq_refl).
  assert (Hc3 : conn_inv h t (set_exit st code) m2) by (apply conn_inv_exit; auto).
  apply act_safe_bind. apply send_safe;
    [apply Hc3 | apply Hc3 | discriminate | apply Hc3 | | | |].
  - intros Hn. split; [apply Hc3|]. split; [apply (ci_noexit _ _ _ _ _ (proj1 Hc2)), Hx|].
    split; [exact Hcode|]. intros Hb. destruct Hd2 as [[X|X]|X]; [congruence | | auto].
    cbn in Hn. congruence.
  - intros s' e Hi Ht. apply act_safe_done, HQ. cbn.
    destruct (core_failed _ _ _ (sv_pending st) _ _ s' m2 (proj1 Hc3) Hi) as [A B]; [auto|].
    split; [exact A | auto].
  - intros s' Hi Hy Hn _. cbn [output_of is_exit].
    apply act_safe_bind, act_safe_ask. intros a _. eexists.
    split; [apply cs_shutdown; [apply Hc2 | left; cbn; apply orb_true_r]|].
    apply act_safe_bind, act_safe_ask. intros now _. eexists. split; [apply cs_now|].
    apply act_safe_done, HQ. cbn. split.
    + apply (conn_inv_exit_sent h t st m2 code s' now Hc3 Hn Hi).
    + cbn. intros E. split; [reflexivity | apply Hl2, E].
  - intros s' e Hi Hy Hn. apply act_safe_done, HQ. cbn.
    destruct (core_failed _ _ _ (sv_pending st) _ _ s' _ (proj1 Hc3) Hi (or_intror eq_refl))
      as [A B].
    split; [exact A | auto].
Qed.

Lemma grace_part_safe opts h t st m Q :
  loop_inv h t st m -> (forall r m', flow_post h t r m' -> Q r m') ->
  csafe False (grace_part opts st) m Q.
Proof.
  intros Hl HQ. unfold grace_part. destruct (sv_exit_sent_at st) as [at_|] eqn:Ea;
    [|apply act_safe_done, HQ, Hl].
  apply act_safe_bind, act_safe_ask. intros now _. eexists. split; [apply cs_now|].
  destruct (_ <=? _); apply act_safe_done, HQ; [|exact Hl].
  split; [|discriminate]. apply loop_inv_end; [apply Hl|].
  destruct Hl as [[[? ? ? ? ? ? ? ? Hcode Hat ? ?] _] _].
  destruct Hat as [Hx Hs]; [congruence|]. destruct (sv_exit st) as [c|]; [|congruence].
  split; [exact Hx | apply Hcode; reflexivity].
Qed.

Lemma control_part_safe h t st m Q :
  loop_inv h t st m -> (forall st' m', loop_inv h t st' m' -> Q st' m') ->
  csafe False (control_part h t st) m Q.
Proof.
  intros Hl HQ. unfold control_part. destruct (_ || _); [apply act_safe_done, HQ, Hl|].
  apply act_safe_bind, act_safe_ask. intros b _. eexists.
  split; [apply cs_current, Hl|]. destruct b; [apply act_safe_done, HQ, Hl|].
  apply act_safe_bind, act_safe_ask. intros sn _. eexists.
  split; [apply (cs_snapshot m h t), Hl|].
  apply act_safe_done, HQ, loop_inv_end; [apply Hl|]. destruct (_ <? _); exact I.
Qed.

(** A pass follows the automaton, and comes to its end. *)
Lemma serve_pass_safe opts h t st m Q :
  loop_inv h t st m -> sv_end st = None ->
  (forall r m', flow_post h t r m' -> Q r m') ->
  csafe False (serve_pass opts h t st) m Q.
Proof.
  intros Hl He HQ. unfold serve_pass.
  apply act_safe_bind, net_part_safe; auto. intros [st1 fl] m1 H1.
  destruct fl as [| |e]; [|apply act_safe_done, HQ, H1..].
  apply act_safe_bind, (drain_pty_safe h t); [apply H1|].
  intros st2 m2 r Hc2 Hs2 Hr. destruct r as [[]|e].
  2: { apply act_safe_done, HQ. split; [|discriminate]. apply loop_inv_end; auto. }
  destruct Hr as [Hd Hy].
  assert (Hl2 : loop_inv h t st2 m2).
  { split; [exact Hc2|]. destruct Hs2 as (Ee & _ & _ & Et & Ew & _). intros E.
    destruct H1 as [_ H1]. cbn in H1. rewrite Ee in E. destruct (H1 E). split; [auto | congruence]. }
  apply act_safe_bind, (exit_part_safe h t); auto. intros [st3 fl] m3 H3.
  destruct fl as [| |e]; [|apply act_safe_done, HQ, H3..].
  apply act_safe_bind, (grace_part_safe opts h t); [exact H3|]. intros [st4 fl] m4 H4.
  destruct fl as [| |e]; [|apply act_safe_done, HQ, H4..].
  apply act_safe_bind, (control_part_safe h t); [exact H4|].
  intros st5 m5 H5. apply act_safe_done, HQ, H5.
Qed.

Lemma serve_loop_safe opts h t fuel : forall st m Q,
  loop_inv h t st m ->
  (forall st' m' r, conn_inv h t st' m' -> Q (st', r) m') ->
  csafe True (serve_loop fuel opts h t st) m Q.
Proof.
  induction fuel as [|fuel IH]; intros st m Q Hl HQ; cbn [serve_loop];
    (destruct (sv_end st) eqn:He; cbn [is_some]; [apply act_safe_done, HQ, Hl|]).
  { exact I. }
  apply act_safe_bind. eapply act_safe_mono;
    [apply (serve_pass_safe opts h t st m (fun r m' => flow_post h t r m'));
       auto | tauto |].
  intros [st' fl] m' H'. destruct fl as [| |e].
  - apply IH; auto.
  - apply act_safe_done, HQ, H'.
  - apply act_safe_done, HQ, H'.
Qed.

(** ** The whole connection *)

(** Nothing has been done with a terminal. *)
Definition untouched (s : Session) (m : Conn) : Prop :=
  sess_inv s /\ cn_closed m = false /\ cn_typed m = [] /\ cn_written m = [] /\
  cn_drained m = [] /\ cn_sent m = [] /\ cn_exit m = false.

Definition not_granted (s : Session) (m : Conn) : Prop :=
  untouched s m /\ cn_grant m = None /\ cn_live m = false.

Definition first_post (r : Session * FirstFrame) (m : Conn) : Prop :=
  not_granted (fst r) m /\
  match snd r with
  | FfHub h _ => cn_hub m = Some h /\ fst r = cn_session m
  | _ => True
  end.

Lemma deny_safe F s m f Q :
  not_granted s m -> s = cn_session m -> (exists r, f = TfDenied r) ->
  (forall s' r m', not_granted s' m' -> Q (s', r) m') ->
  csafe F (send_terminal_frame s f) m Q.
Proof.
  intros [(Hi & Hc & Hu) Hg] Hy [r ->] HQ.
  assert (Hn : forall s' b, sess_inv s' -> not_granted s' (cn_send m s' [] b false)).
  { intros s' b Hi'. destruct Hu as (? & ? & ? & ? & ?). unfold not_granted, untouched. cbn.
    rewrite app_nil_r, orb_false_r. split_and!; auto; apply Hg. }
  apply send_safe; [exact Hi | left; exact Hy | discriminate | exact Hc | | | |].
  - intros _. apply Hg.
  - intros s' e Hi' _. apply HQ. split; [|exact Hg]. split; auto.
  - intros s' Hi' _ _ _. apply HQ, Hn, Hi'.
  - intros s' e Hi' _ _. apply HQ, Hn, Hi'.
Qed.

Lemma first_frame_safe deadline fuel : forall s m Q,
  not_granted s m -> s = cn_session m -> cn_hub m = None ->
  (forall r m', first_post r m' -> Q r m') ->
  csafe True (first_frame fuel deadline s) m Q.
Proof.
  induction fuel as [|fuel IH]; intros s m Q Hn Hy Hh HQ; [exact I|].
  cbn [first_frame]. apply act_safe_bind.
  pose proof Hn as [(Hi & Hc & Ht & Hw & _) _].
  apply recv_safe; auto; [congruence | |].
  - intros r Hr. destruct r as [f| |e]; [contradiction| |].
    + apply act_safe_bind, act_safe_ask. intros now _. eexists. split; [apply cs_now|].
      destruct (_ <=? _); [apply act_safe_done, HQ; split; auto | apply IH; auto].
    + apply act_safe_done, HQ. split; [auto | exact I].
  - intros s' r Hi' Hr _.
    assert (Hn' : forall o, not_granted s' (cn_recv m s' o))
      by (intros o; destruct Hn as [(_ & ?) ?]; split; [split; [exact Hi'|] |]; auto).
    destruct r as [f| |e]; [|congruence|].
    + destruct f; try (apply act_safe_done, HQ; split; [apply (Hn' (Some _)) | exact I]).
      * apply act_safe_bind, act_safe_ask. intros a Ha.
        destruct a as [[h|e]|]; [| |cbn in Ha; congruence]; eexists.
        -- split; [eapply cs_open; [reflexivity | exact Hh]|].
           apply act_safe_done, HQ. split; [apply (Hn' (Some (TfOpen rows cols))) | split; reflexivity].
        -- split; [eapply cs_open_fail; [reflexivity | exact Hh]|].
           apply act_safe_done, HQ. split; [apply (Hn' (Some (TfOpen rows cols))) | exact I].
      * apply act_safe_bind, act_safe_ask. intros b _. eexists.
        split; [eapply cs_find; [reflexivity | exact Hh]|]. destruct b.
        -- apply act_safe_done, HQ.
           split; [apply (Hn' (Some (TfAttach handle rows cols))) | split; reflexivity].
        -- apply act_safe_bind, deny_safe; eauto. intros s2 r m2 Hn2.
           destruct r as [[]|e]; [|apply act_safe_done, HQ; split; [auto | exact I]].
           apply act_safe_bind, act_safe_ask. intros a _. eexists.
           split; [apply cs_shutdown; [apply Hn2 | right; apply Hn2]|].
           apply act_safe_done, HQ. split; [auto | exact I].
    + apply act_safe_done, HQ. split; [apply (Hn' None) | exact I].
Qed.

(** Before the stream is closed. *)
Definition drive_post (r : Session * result ServeSummary terror) (m : Conn) : Prop :=
  sess_inv (fst r) /\ cn_closed m = false /\ cn_live m = false /\
  match snd r with
  | Err _ => True
  | Ok su =>
      (su_end su = SeDeniedBusy \/ su_end su = SeDeniedGone -> cn_grant m = None) /\
      (cn_grant m <> None -> accounts su m)
  end.

(** The state in which the loop starts. *)
Lemma loop_inv_start h t s m :
  untouched s m -> holds m h t -> s = cn_session m ->
  loop_inv h t (serve_start s) m.
Proof.
  intros (Hi & Hc & Ht & Hw & Hd & Hs & Hx) Hh Hy. split.
  - split; [|discriminate]. split; cbn; auto; try congruence; try discriminate.
    + left. exact Hy.
    + rewrite Hw. reflexivity.
    + rewrite Hs. reflexivity.
    + right. rewrite Hd, Hs. reflexivity.
  - intros _. split; [exact Hy | congruence].
Qed.

Lemma drive_granted_safe fuel opts h t w s m Q :
  untouched s m -> holds m h t -> s = cn_session m ->
  (forall r m', drive_post r m' -> Q r m') ->
  csafe True (drive_granted fuel opts h t w s) m Q.
Proof.
  intros Hu Hh Hy HQ. unfold drive_granted.
  assert (Hdrop : forall s' e m', sess_inv s' -> cn_closed m' = false -> holds m' h t ->
    csafe True (let* _ := term_ask (CDropGrant h t) in done (s', Err e)) m' Q).
  { intros s' e m' Hi' Hc' Hh'. apply act_safe_bind, act_safe_ask. intros a _.
    destruct a. eexists. split; [apply cs_drop, Hh'|].
    apply act_safe_done, HQ. unfold drive_post. cbn. auto. }
  pose proof Hu as (Hi & Hc & Hrest).
  apply act_safe_bind, send_safe;
    [exact Hi | left; exact Hy | discriminate | exact Hc | auto | | |].
  - intros s' e Hi' _. apply Hdrop; auto.
  - intros s' Hi' _ _ _. cbn [output_of is_exit].
    apply act_safe_bind, act_safe_ask. intros a _. eexists.
    split; [apply cs_resize, Hh|]. apply act_safe_bind.
    apply serve_loop_safe.
    { apply loop_inv_start; [|exact Hh | reflexivity].
      destruct Hrest as (? & ? & ? & ? & ?).
      unfold untouched. cbn. rewrite app_nil_r, orb_false_r. auto 10. }
    intros st m' r [Hci _]. destruct r as [[]|e]; [|apply Hdrop; apply Hci].
    apply act_safe_bind, act_safe_ask. intros [] _. eexists.
    split; [apply cs_drop, Hci|].
    apply act_safe_bind, act_safe_ask. intros b _. eexists.
    destruct (ci_holds _ _ _ _ _ Hci) as (Hhub & Hgr & _).
    split; [apply cs_exited; [exact Hhub | cbn; congruence | reflexivity]|].
    set (su := MkSummary _ _ _ _ _ _).
    assert (Hpost : drive_post (sv_session st, Ok su)
              (cn_end (cn_drop m') b (cn_closed m'))).
    { destruct Hci as [? ? ? ? ? ? ? ? ? ? Hend [Hb Hg]].
      split; [assumption|]. split; [assumption|]. split; [reflexivity|].
      cbn -[Z.min U64_MAX]. split.
      - intros [X|X]; destruct (sv_end st) as [[]|]; congruence.
      - intros _. unfold accounts. cbn -[Z.min U64_MAX]. split_and!; auto.
        intros code X. apply Hend. destruct (sv_end st); congruence. }
    apply act_safe_bind. destruct b.
    + apply act_safe_ask. intros [] _. eexists.
      split; [apply cs_retire; auto|]. apply act_safe_done, HQ, Hpost.
    + apply act_safe_done. apply act_safe_done, HQ, Hpost.
  - intros s' e Hi' _ _. apply Hdrop; auto.
Qed.

Lemma drive_safe fuel opts conn s Q :
  sess_inv s -> (forall r m', drive_post r m' -> Q r m') ->
  csafe True (drive fuel opts conn s) (conn_start s) Q.
Proof.
  intros Hi HQ. unfold drive.
  assert (Hn : not_granted s (conn_start s)) by (unfold not_granted, untouched; cbn; auto 10).
  assert (Herr : forall s' e m', not_granted s' m' -> Q (s', Err e) m').
  { intros s' e m' [(? & ? & _) [_ ?]]. apply HQ. unfold drive_post. cbn. auto. }
  assert (Hden : forall s' h e m', not_granted s' m' -> Q (s', Ok (no_service h e)) m').
  { intros s' h e m' [(? & ? & _) [? ?]]. apply HQ. unfold drive_post. cbn.
    split_and!; auto; congruence. }
  apply act_safe_bind, act_safe_ask. intros a _. eexists. split; [apply cs_deadline|].
  destruct a as [[]|e]; [|apply act_safe_done; auto].
  apply act_safe_bind, act_safe_ask. intros now _. eexists. split; [apply cs_now|].
  apply act_safe_bind, first_frame_safe; auto. intros [s1 f] m1 [Hn1 Hf]. cbn in Hf, Hn1.
  destruct f as [h w|h|e]; [|apply act_safe_done; auto..].
  destruct Hf as [Hh Hy]. destruct Hn1 as [Hu [Hg Hl]].
  apply act_safe_bind, act_safe_ask. intros a Ha.
  destruct a as [[t|e]|]; [| |cbn in Ha; congruence]; eexists.
  - split; [apply cs_acquire; auto|]. apply drive_granted_safe; auto.
    unfold holds. cbn. auto.
  - split; [apply cs_busy; auto|].
    apply act_safe_bind, deny_safe; eauto; [split; auto|]. intros s2 r m2 Hn2.
    destruct r as [[]|e']; [|apply act_safe_done; auto].
    apply act_safe_bind, act_safe_ask. intros b _. eexists.
    split; [apply cs_shutdown; [apply Hn2 | right; apply Hn2]|].
    apply act_safe_done; auto.
Qed.

Lemma serve_connection_safe fuel opts conn s :
  sess_inv s ->
  csafe True (serve_connection fuel opts conn s) (conn_start s) conn_final.
Proof.
  intros Hi. unfold serve_connection. apply act_safe_bind, drive_safe; [exact Hi|].
  intros [s1 r] m (Hi1 & Hc & Hl & Hr). cbn in Hi1, Hr.
  destruct r as [su|e]; apply act_safe_bind, act_safe_ask; intros a _; eexists;
    (split; [apply cs_close; auto|]); apply act_safe_done; split; auto; split; auto.
  - destruct Hr as [Hden Hac]. split; [exact Hden | intros X; left; apply Hac, X].
  - split; [intros [X|X]; discriminate X|]. intros _. right.
    exists e. split; [reflexivity | apply session_close_keys, Hi1].
Qed.

(** What a path of the automaton says of the bytes. *)
Definition bytes_inv (m : Conn) : Prop :=
  cn_written m `prefix_of` cn_typed m /\
  (cn_broken m = false -> cn_sent m `prefix_of` cn_drained m).

Lemma step_bytes m c a m' : conn_step m c a m' -> bytes_inv m -> bytes_inv m'.
Proof.
  intros Hs [Hw Hd].
  destruct Hs as [| | | |f wire s r Hc Hm E| | | | | | | | |h t d r ? ? ? ? Hp| |h t n r| | | | | | |];
    try (split; [exact Hw | exact Hd]).
  - destruct r; cbn [is_ok]; split; cbn; auto; rewrite ?orb_true_r, ?orb_false_r; [|discriminate].
    intros Hb. destruct f; cbn [output_of]; rewrite ?app_nil_r; auto. apply Hm, Hb.
  - destruct b; split; auto.
  - split; [|exact Hd]. cbn. apply prefix_app_r, Hw.
  - destruct r; cbn [is_ok]; split; cbn; rewrite ?app_nil_r; auto.
  - destruct r as [[bs| |]|]; split; cbn; auto. intros Hb. apply prefix_app_r; auto.
  - destruct c; split; auto.
Qed.

Lemma path_bytes m t m' : path conn_step m t m' -> bytes_inv m -> bytes_inv m'.
Proof. induction 1; eauto using step_bytes. Qed.


(** C37: a pass of the server's loop ends.  From any state the loop can be in, and
    whatever the environment answers, the pass returns, without a panic: the reads
    that drain the terminal stop after one chunk of output, and the writes after
    the frame. *)
Theorem serve_pass_returns opts h t st m tr o :
  loop_inv h t st m -> sv_end st = None ->
  runs (serve_pass opts h t st) tr o ->
  Forall (fun e => answer_ok (projT1 e) (projT2 e)) tr ->
  exists st' fl m', o = Done (st', fl) /\ path conn_step m tr m' /\
    match fl with
    | FlGo => loop_inv h t st' m'
    | FlBreak => loop_inv h t st' m' /\ sv_end st' <> None
    | FlFail _ => True
    end.
Proof.
  intros Hl He Hr Ht.
  destruct (safe_runs answer_ok conn_step _ _ _ _ _
    (serve_pass_safe opts h t st m (flow_post h t) Hl He (fun _ _ x => x)) Hr Ht)
    as (m' & Hp & Hf).
  destruct o as [[st' fl]| |]; cbn in Hf; try contradiction.
  exists st', fl, m'. split_and!; auto. destruct fl; cbn in *; auto.
Qed.

End Spec.

(** ** Witnesses: a connection over the hub of Terminal *)

Module Witness.

#[local] Existing Instance checksum_aead.

(** A terminal that echoes, and exits with 3 at the end of its input. *)
Record Echo := MkEcho { eo_out : list byte; eo_done : bool }.

#[local] Instance echo : PtyDevice Echo := {
  write_all_bounded d data :=
    (MkEcho (eo_out d ++ data) (eo_done d || existsb (Byte.eqb x04) data), true);
  set_winsize d _ := (d, true);
  read_timeout d n :=
    match eo_out d with
    | [] => (d, Ok (if eo_done d then PrEof else PrTimeout))
    | out => (MkEcho (drop n out) (eo_done d), Ok (PrData (take n out)))
    end;
  try_wait d := (d, Ok (if eo_done d then Some (MkWait (Some 3) None) else None));
}.

Record World := MkWorld {
  w_in : list (list byte);
  w_reg : TerminalRegistry Echo;
  w_now : Z;
}.

Definition on_hub {R} (w : World) (h : Z) (none : R)
  (f : PtyHub Echo -> PtyHub Echo * R) : World * R :=
  match rg_store (w_reg w) !! h with
  | None => (w, none)
  | Some hub =>
      let '(hub, r) := f hub in
      let g := w_reg w in
      (MkWorld (w_in w)
         (MkRegistry (rg_timeout g) (rg_conn_counter g) (rg_next_handle g)
            (rg_live g) (<[h := hub]> (rg_store g))) (w_now w), r)
  end.

Definition lease_time : Z := 50.

(** Every call of the environment, over the registry's own operations. *)
Definition answers (w0 : World) (c : TermCall) : World * answer c :=
  let w := MkWorld (w_in w0) (w_reg w0) (w_now w0 + 1) in
  let now := w_now w in
  match c return World * answer c with
  | CNow => (w, now)
  | CSetDeadline _ | CSend _ | CShutdownWrite | CClose => (w, Ok tt)
  | CRecv =>
      match w_in w with
      | [] => (w, Err TrTimeout)
      | f :: rest => (MkWorld rest (w_reg w) now, Ok f)
      end
  | COpen _ =>
      let '(g, r) := registry_open (w_reg w) (Some (MkEcho [] false)) now in
      (MkWorld (w_in w) g now, r)
  | CFind h => (w, registry_find (w_reg w) h)
  | CRetire h => (MkWorld (w_in w) (retire (w_reg w) h) now, tt)
  | CAcquire h conn => on_hub w h None (fun b => hub_acquire b lease_time now now conn)
  | CDropGrant h t =>
      on_hub w h tt (fun b => (set_lease b (drop_grant (hb_lease b) t), tt))
  | CHeartbeat h t => on_hub w h (Err TeClosed) (fun b => hub_heartbeat b lease_time now now t)
  | CIsCurrent h t =>
      on_hub w h false (fun b => (b, is_current (hb_lease b) lease_time now t))
  | CSnapshot h =>
      on_hub w h (MkSnapshot 0 None true true)
        (fun b => (b, lease_snapshot (hb_lease b) lease_time now))
  | CWrite h t d => on_hub w h (Err TeClosed) (fun b => write_input b lease_time now t d)
  | CResize h t win => on_hub w h (Err TeClosed) (fun b => Terminal.resize b lease_time now t win)
  | CDrain h n => on_hub w h (Err TeClosed) (fun b => drain_output b n)
  | CPollExit h => on_hub w h None poll_exit
  | CHasExited h => on_hub w h false (fun b => (b, has_exited b))
  end.

(** Two sessions after their confirmations, and frames of the client. *)
Definition confirmed (s : Session) (mine theirs : MessageType) (sealed : list byte) : Session :=
  fst (open_record (fst (seal_record s mine [])) theirs 0 sealed).

Definition confirmation (s : Session) (mt : MessageType) : list byte :=
  match seal_record s mt [] with (_, Some (Ok rc)) => rc_sealed rc | _ => [] end.

Definition client0 : Session := session_new demo_segment (demo_ctx Client).
Definition server0 : Session := session_new demo_segment (demo_ctx Server).
Definition client1 : Session :=
  confirmed client0 ClientConfirm ServerConfirm (confirmation server0 ServerConfirm).
Definition server1 : Session :=
  confirmed server0 ServerConfirm ClientConfirm (confirmation client0 ClientConfirm).

Fixpoint client_sends (s : Session) (fs : list TerminalFrame) : list (list byte) :=
  match fs with
  | [] => []
  | f :: fs =>
      match seal_frame s f with
      | (s, Some (Ok wire)) => wire :: client_sends s fs
      | _ => []
      end
  end.

Definition world0 : World :=
  MkWorld (client_sends client1 [TfOpen 24 80; TfInput [x6c; x73]; TfPing; TfInput [x04]])
    (registry_new lease_time) 100.

Definition options : ServeOptions := MkServeOptions 30 1 5.

Definition served := exec answers world0 (serve_connection 20 options 1 server1).

(** Within a connection: terminal 1 is open and granted to it. *)
Definition world1 : World :=
  let '(w, _) := answers world0 (COpen (MkWindow 24 80)) in
  let '(w, _) := answers w (CAcquire 1 1) in
  MkWorld (tail (client_sends client1 [TfPing; TfInput [x6c; x73]])) (w_reg w) (w_now w).

Definition held : Conn := cn_granted (cn_attach (conn_start server1) 1) 1.

Definition passed := exec answers world1 (serve_pass options 1 1 (serve_start server1)).

Definition is_fine (e : event answer) : bool :=
  let 'existT c a := e in
  (match c return answer c -> bool with
   | COpen _ => is_some
   | CAcquire _ _ => is_some
   | CDrain _ _ => fun a => match a with Ok (PrData []) => false | _ => true end
   | _ => fun _ => true
   end) a.

Lemma fine_ok t :
  forallb is_fine t = true ->
  Forall (fun e => answer_ok (projT1 e) (projT2 e)) t.
Proof.
  intros Hf. apply List.Forall_forall. intros [c a] Hin.
  apply forallb_forall with (x := existT c a) in Hf; [|exact Hin].
  destruct c; try exact I; cbn in *; destruct a as [x|]; try discriminate.
  destruct x; discriminate || (intros E; injection E as ->; discriminate).
Qed.

Lemma server1_inv : sess_inv server1.
Proof.
  unfold server1, confirmed.
  destruct (seal_record server0 ServerConfirm []) as [s r] eqn:Es.
  destruct (seal_shape _ _ _ _ _ (sess_inv_new _ _) Es) as [Hi _].
  destruct (open_record (fst (s, r)) ClientConfirm 0 _) as [s' r'] eqn:Eo.
  apply (open_shape _ _ _ _ _ _ Hi Eo).
Qed.

Lemma served_runs :
  runs (serve_connection 20 options 1 server1) (snd (fst served)) (snd served).
Proof. unfold served. apply exec_is_run. Qed.

Lemma passed_runs :
  runs (serve_pass options 1 1 (serve_start server1)) (snd (fst passed)) (snd passed).
Proof. unfold passed. apply exec_is_run. Qed.

Lemma served_fine : forallb is_fine (snd (fst served)) = true.
Proof. vm_compute. reflexivity. Qed.

Lemma passed_fine : forallb is_fine (snd (fst passed)) = true.
Proof. vm_compute. reflexivity. Qed.

Lemma served_end : exists s,
  snd served = Done (s, MkSummary 1 1 3 3 (Some 3) (SeShellExited 3)).
Proof. eexists. vm_compute. reflexivity. Qed.

Lemma held_inv : loop_inv 1 1 (serve_start server1) held.
Proof.
  apply loop_inv_start; [|unfold holds; cbn; auto | reflexivity].
  unfold untouched. split; [apply server1_inv | cbn; auto 10].
Qed.

End Witness.

(** ** Output after the exit

    A terminal whose shell has exited and left more output than one pass drains: the exit
    is reported and the writing side shut down in the first pass, and the rest of the
    output sent in the next. *)

Module LateOutput.
Import Witness.

(** A cipher that costs nothing to run. *)
Definition null_aead : Aead.
Proof.
  refine {|
    aead_encrypt := fun k n a p => Some (p, zeros 16);
    aead_decrypt := fun k n a c t => if bool_decide (t = zeros 16) then Some c else None |}.
  - intros k n a p c t E. injection E as <- <-. split; reflexivity.
  - intros k n a p c t E. injection E as <- <-. reflexivity.
Defined.

#[local] Existing Instance null_aead.

Definition late_server : Session :=
  fst (open_record (fst (seal_record server0 ServerConfirm [])) ClientConfirm 0 (zeros 16)).

Definition late_world : World :=
  let '(g, _) := registry_open (TE := unit) (registry_new lease_time)
    (Some (MkEcho (zeros (Z.to_nat 100000)) true)) 100 in
  let '(w, _) := answers (MkWorld [] g 100) (CAcquire 1 1) in w.

Definition late_loop : term_act (ServeSt * result unit (TerminalError TransportError)) :=
  serve_loop 3 (MkServeOptions 30 1 60) 1 1 (serve_start late_server).

Definition late_run := exec answers late_world late_loop.

Fixpoint late_send (shut : bool) (t : list (event answer)) : bool :=
  match t with
  | [] => false
  | existT CShutdownWrite _ :: t => late_send true t
  | existT (CSend _) _ :: t => shut || late_send shut t
  | _ :: t => late_send shut t
  end.

Lemma output_after_exit :
  runs late_loop (snd (fst late_run)) (snd late_run) /\
  late_send false (snd (fst late_run)) = true.
Proof. split; [unfold late_run; apply exec_is_run | vm_compute; reflexivity]. Qed.

End LateOutput.

#[local] Existing Instance checksum_aead.


Lemma serve_pass_returns_witness :
  exists st' fl m', snd Witness.passed = Done (st', fl) /\
    path conn_step Witness.held (snd (fst Witness.passed)) m'.
Proof.
  destruct (serve_pass_returns Witness.options 1 1
    (serve_start Witness.server1) Witness.held (snd (fst Witness.passed))
    (snd Witness.passed) Witness.held_inv eq_refl Witness.passed_runs
    (Witness.fine_ok _ Witness.passed_fine)) as (st' & fl & m' & E & Hp & _).
  exists st', fl, m'. split; [exact E | exact Hp].
Defined.
