(* ===== verification/TermClient.v ===== *)
(** * TermClient: the client's side of a connection ([otp-terminal], client.rs)

    Attaching, the calls of an attached session, and the interactive pump, as
    programs over their environment: the framed stream, the clock, the thread
    that reads the input, the probe of the window and the output. *)

From S2P Require Export TermServer.

#[local] Open Scope list_scope.
#[local] Open Scope Z_scope.

(** ** The environment *)

(** What [try_recv] of the input thread's channel says. *)
Inductive StdinRead := InData (bs : list byte) | InEof | InEmpty | InGone.

Inductive ClientCall :=
  | KNow
  | KSetDeadline (timeout : Z)
  | KRecv
  | KSend (wire : list byte)
  | KClose
  | KStdin
  | KProbe
  | KOutput (data : list byte).

(** [KOutput] writes all and flushes; [false] when the write failed. *)
Definition client_answer (c : ClientCall) : Type :=
  match c with
  | KNow => Z
  | KSetDeadline _ | KSend _ | KClose => result unit TransportError
  | KRecv => result (list byte) TransportError
  | KStdin => StdinRead
  | KProbe => option WindowSize
  | KOutput _ => bool
  end.

Notation client_act R := (act ClientCall client_answer R).
Definition client_ask (c : ClientCall) : client_act (client_answer c) :=
  ask (C := ClientCall) (A := client_answer) c.

(** ** Data *)

Inductive AttachMode :=
  | AmNew (window : WindowSize)
  | AmRecover (handle : Z) (window : WindowSize).

Inductive TerminalEvent := EvOutput (data : list byte) | EvExit (code : Z).

Record TerminalSession := MkTermSession {
  ts_session : Session;
  ts_handle : Z;
  ts_token : Z;
  ts_exit : option Z;
  ts_closed : bool;
}.

Definition ts_set_session (ts : TerminalSession) (s : Session) : TerminalSession :=
  MkTermSession s (ts_handle ts) (ts_token ts) (ts_exit ts) (ts_closed ts).
Definition ts_set_exit (ts : TerminalSession) (code : Z) : TerminalSession :=
  MkTermSession (ts_session ts) (ts_handle ts) (ts_token ts) (Some code) (ts_closed ts).

Definition first_of (mode : AttachMode) : TerminalFrame :=
  match mode with
  | AmNew w => TfOpen (ws_rows w) (ws_cols w)
  | AmRecover h w => TfAttach h (ws_rows w) (ws_cols w)
  end.

(** The error of a denial. *)
Definition denial (r : DenyReason) : terror :=
  match r with
  | DenyBusy => TeLeaseHeldByOther 0
  | DenyGone => TeTerminalGone
  | DenyFenced => TeStaleWriter
  end.

Definition DETACH_GRACE : Z := 800.

Section Client.
Context `{Aead}.

(** [TerminalSession::send]. *)
Definition client_send (s : Session) (f : TerminalFrame) :
  client_act (Session * result unit terror) :=
  match seal_frame s f with
  | (s, None) => Ret Panicked
  | (s, Some (Err e)) => done (s, Err e)
  | (s, Some (Ok wire)) =>
      let* r := client_ask (KSend wire) in
      done (s, map_err TeTransport r)
  end.

(** [recv_raw]; [Ok None] is a time-out. *)
Definition recv_raw (s : Session) :
  client_act (Session * result (option TerminalFrame) terror) :=
  let* r := client_ask KRecv in
  match r with
  | Err TrTimeout => done (s, Ok None)
  | Err e => done (s, Err (TeTransport e))
  | Ok wire =>
      match open_frame Client s wire with
      | (s, None) => Ret Panicked
      | (s, Some (Ok f)) => done (s, Ok (Some f))
      | (s, Some (Err e)) => done (s, Err e)
      end
  end.

(** Refusals that close the session and the stream. *)
Definition abandon (s : Session) (e : terror) :
  client_act (Session * result TerminalSession terror) :=
  let* _ := client_ask KClose in done (session_close s, Err e).

Fixpoint await_grant (fuel : nat) (deadline : Z) (s : Session) :
  client_act (Session * result TerminalSession terror) :=
  match fuel with
  | O => Ret OutOfFuel
  | S fuel =>
      let* '(s, r) := recv_raw s in
      match r with
      | Err e => done (s, Err e)
      | Ok (Some (TfGranted handle token)) =>
          done (s, Ok (MkTermSession s handle token None false))
      | Ok (Some (TfDenied reason)) => abandon s (denial reason)
      | Ok (Some _) => abandon s TeProtocol
      | Ok None =>
          let* now := client_ask KNow in
          if deadline <=? now then abandon s TeTimeout
          else await_grant fuel deadline s
      end
  end.

Definition attach (fuel : nat) (attach_timeout : Z) (mode : AttachMode)
  (s : Session) : client_act (Session * result TerminalSession terror) :=
  let* r := client_ask (KSetDeadline 50) in
  match r with
  | Err e => done (s, Err (TeTransport e))
  | Ok _ =>
      let* '(s, r) := client_send s (first_of mode) in
      match r with
      | Err e => done (s, Err e)
      | Ok _ =>
          let* now := client_ask KNow in
          await_grant fuel (now + attach_timeout) s
      end
  end.

(** ** Calls of an attached session *)

Definition ensure_open (ts : TerminalSession) : result unit terror :=
  if ts_closed ts || negb (is_active (ts_session ts)) then Err TeClosed else Ok tt.

(** Sending a frame on an open session. *)
Definition send_open (ts : TerminalSession) (f : TerminalFrame) :
  client_act (TerminalSession * result unit terror) :=
  let* '(s, r) := client_send (ts_session ts) f in
  done (ts_set_session ts s, r).

Fixpoint send_inputs (ts : TerminalSession) (chunks : list (list byte)) :
  client_act (TerminalSession * result unit terror) :=
  match chunks with
  | [] => done (ts, Ok tt)
  | chunk :: chunks =>
      let* '(ts, r) := send_open ts (TfInput chunk) in
      match r with
      | Err e => done (ts, Err e)
      | Ok _ => send_inputs ts chunks
      end
  end.

Definition send_input (ts : TerminalSession) (data : list byte) :
  client_act (TerminalSession * result unit terror) :=
  match ensure_open ts with
  | Err e => done (ts, Err e)
  | Ok _ => send_inputs ts (chunk_input data)
  end.

Definition client_resize (ts : TerminalSession) (w : WindowSize) :
  client_act (TerminalSession * result unit terror) :=
  match ensure_open ts with
  | Err e => done (ts, Err e)
  | Ok _ => send_open ts (TfResize (ws_rows w) (ws_cols w))
  end.

Definition ping (ts : TerminalSession) :
  client_act (TerminalSession * result unit terror) :=
  match ensure_open ts with
  | Err e => done (ts, Err e)
  | Ok _ => send_open ts TfPing
  end.

Definition client_close (ts : TerminalSession) : client_act TerminalSession :=
  let* _ := client_ask KClose in
  done (MkTermSession (session_close (ts_session ts)) (ts_handle ts) (ts_token ts)
          (ts_exit ts) true).

Definition poll_event (ts : TerminalSession) (wait : Z) :
  client_act (TerminalSession * result (option TerminalEvent) terror) :=
  match ts_exit ts with
  | Some code => done (ts, Ok (Some (EvExit code)))
  | None =>
      let* r := client_ask (KSetDeadline wait) in
      match r with
      | Err e => done (ts, Err (TeTransport e))
      | Ok _ =>
          let* '(s, r) := recv_raw (ts_session ts) in
          let ts := ts_set_session ts s in
          match r with
          | Err e => done (ts, Err e)
          | Ok (Some (TfOutput data)) => done (ts, Ok (Some (EvOutput data)))
          | Ok (Some (TfExit code)) =>
              done (ts_set_exit ts code, Ok (Some (EvExit code)))
          | Ok (Some _) => done (ts, Err TeProtocol)
          | Ok None => done (ts, Ok None)
          end
      end
  end.

(** The loop of [wait_exit]; [KOutput] is the caller's [on_output]. *)
Fixpoint wait_loop (fuel : nat) (deadline : Z) (ts : TerminalSession) :
  client_act (TerminalSession * result Z terror) :=
  match fuel with
  | O => Ret OutOfFuel
  | S fuel =>
      let* now := client_ask KNow in
      let remain := saturating_sub deadline now in
      if remain =? 0 then done (ts, Err TeTimeout) else
      let* '(ts, r) := poll_event ts (Z.min remain 200) in
      match r with
      | Err e => done (ts, Err e)
      | Ok (Some (EvExit code)) => done (ts, Ok code)
      | Ok (Some (EvOutput data)) =>
          let* _ := client_ask (KOutput data) in wait_loop fuel deadline ts
      | Ok None => wait_loop fuel deadline ts
      end
  end.

Definition wait_exit (fuel : nat) (budget : Z) (ts : TerminalSession) :
  client_act (TerminalSession * result Z terror) :=
  match ts_exit ts with
  | Some code => done (ts, Ok code)
  | None =>
      let* now := client_ask KNow in wait_loop fuel (now + budget) ts
  end.

(** ** The interactive pump *)

Record PumpSt := MkPump {
  pu_ts : TerminalSession;
  pu_last_ping : Z;
  pu_last_window : option WindowSize;
  pu_eof_at : option Z;
}.

#[global] Instance window_eq_dec : EqDecision WindowSize.
Proof. solve_decision. Defined.

(** A part of a pass goes on, or ends the pump with a result. *)
Notation part := (client_act (PumpSt * option (result Z terror))).

Definition pu_set_ts (p : PumpSt) (ts : TerminalSession) : PumpSt :=
  MkPump ts (pu_last_ping p) (pu_last_window p) (pu_eof_at p).
Definition pu_pinged (p : PumpSt) (now : Z) : PumpSt :=
  MkPump (pu_ts p) now (pu_last_window p) (pu_eof_at p).

Definition detach_part (p : PumpSt) : part :=
  match pu_eof_at p with
  | None => done (p, None)
  | Some at_ =>
      let* now := client_ask KNow in
      done (p, if DETACH_GRACE <=? saturating_sub now at_ then Some (Ok 0) else None)
  end.

Definition ping_part (ping_interval : Z) (p : PumpSt) : part :=
  let* now := client_ask KNow in
  if ping_interval <=? saturating_sub now (pu_last_ping p) then
    let* r := client_ask (KSetDeadline 2000) in
    match r with
    | Err e => done (p, Some (Err (TeTransport e)))
    | Ok _ =>
        let* '(ts, r) := ping (pu_ts p) in
        match r with
        | Err e => done (pu_set_ts p ts, Some (Err e))
        | Ok _ =>
            let* now := client_ask KNow in
            done (pu_pinged (pu_set_ts p ts) now, None)
        end
    end
  else done (p, None).

Definition input_part (p : PumpSt) : part :=
  let* r := client_ask KStdin in
  match r with
  | InData chunk =>
      let* '(ts, r) := send_input (pu_ts p) chunk in
      match r with
      | Err e => done (pu_set_ts p ts, Some (Err e))
      | Ok _ =>
          let* now := client_ask KNow in
          done (pu_pinged (pu_set_ts p ts) now, None)
      end
  | InEof =>
      match pu_eof_at p with
      | Some _ => done (p, None)
      | None =>
          let* now := client_ask KNow in
          done (MkPump (pu_ts p) (pu_last_ping p) (pu_last_window p) (Some now), None)
      end
  | InEmpty | InGone => done (p, None)
  end.

Definition window_part (p : PumpSt) : part :=
  let* current := client_ask KProbe in
  if bool_decide (current = pu_last_window p) then done (p, None) else
  let set_window p := MkPump (pu_ts p) (pu_last_ping p) current (pu_eof_at p) in
  match current with
  | None => done (set_window p, None)
  | Some w =>
      let* '(ts, r) := client_resize (pu_ts p) w in
      match r with
      | Err e => done (pu_set_ts p ts, Some (Err e))
      | Ok _ => done (set_window (pu_set_ts p ts), None)
      end
  end.

Definition event_part (p : PumpSt) : part :=
  let* '(ts, r) := poll_event (pu_ts p) 30 in
  let p := pu_set_ts p ts in
  match r with
  | Err e => done (p, Some (Err e))
  | Ok (Some (EvOutput data)) =>
      let* ok := client_ask (KOutput data) in
      done (p, if ok then None else Some (Err TeIo))
  | Ok (Some (EvExit code)) => done (p, Some (Ok code))
  | Ok None => done (p, None)
  end.

(** The parts of a pass in their order, until one ends the pump. *)
Fixpoint parts (ps : list (PumpSt -> part)) (p : PumpSt) : part :=
  match ps with
  | [] => done (p, None)
  | f :: ps =>
      let* '(p, r) := f p in
      match r with
      | Some r => done (p, Some r)
      | None => parts ps p
      end
  end.

Definition pump_pass (ping_interval : Z) : PumpSt -> part :=
  parts [detach_part; ping_part ping_interval; input_part; window_part; event_part].

Fixpoint pump (fuel : nat) (ping_interval : Z) (p : PumpSt) :
  client_act (PumpSt * result Z terror) :=
  match fuel with
  | O => Ret OutOfFuel
  | S fuel =>
      let* '(p, r) := pump_pass ping_interval p in
      match r with
      | Some r => done (p, r)
      | None => pump fuel ping_interval p
      end
  end.

Definition run_interactive (fuel : nat) (ping_interval : Z)
  (ts : TerminalSession) : client_act (Session * result Z terror) :=
  let* now := client_ask KNow in
  let* window := client_ask KProbe in
  let* '(p, r) := pump fuel ping_interval (MkPump ts now window None) in
  let* _ := client_ask KClose in
  done (session_close (ts_session (pu_ts p)), r).

(** What the [connect] command does with an established session (otp-cli
    main.rs): attach, then pump. *)
Definition connect (fuel : nat) (attach_timeout ping_interval : Z)
  (mode : AttachMode) (s : Session) : client_act (Session * result Z terror) :=
  let* '(s, r) := attach fuel attach_timeout mode s in
  match r with
  | Err e => done (s, Err e)
  | Ok ts => run_interactive fuel ping_interval ts
  end.

End Client.
