(* ===== verification/TermClientSpec.v ===== *)
(** * TermClientSpec: what the client sends and shows *)

From Stdlib Require Import Strings.Byte.
From S2P Require Export TermClient TermServerSpec.

#[local] Open Scope list_scope.
#[local] Open Scope Z_scope.

(** ** The abstract client

    [cl_typed] is what was read from the input, [cl_sent] what of it was sent;
    [cl_got] the output of the frames received, [cl_shown] what of it was
    written. *)
Record Cli := MkCli {
  cl_session : Session;
  cl_granted : bool;
  cl_typed : list byte;
  cl_sent : list byte;
  cl_got : list byte;
  cl_shown : list byte;
  cl_code : option Z;
  cl_eof : bool;
  cl_closed : bool;
}.

Definition cli_start (s : Session) : Cli := MkCli s false [] [] [] [] None false false.

Definition cl_receive (m : Cli) (s : Session) (f : option TerminalFrame) : Cli :=
  MkCli s
    (match f with Some (TfGranted _ _) => true | _ => cl_granted m end)
    (cl_typed m) (cl_sent m)
    (cl_got m ++ match f with Some (TfOutput d) => d | _ => [] end) (cl_shown m)
    (match f with Some (TfExit c) => Some c | _ => cl_code m end)
    (cl_eof m) (cl_closed m).
Definition cl_send (m : Cli) (s : Session) (d : list byte) : Cli :=
  MkCli s (cl_granted m) (cl_typed m) (cl_sent m ++ d) (cl_got m) (cl_shown m)
    (cl_code m) (cl_eof m) (cl_closed m).
Definition cl_type (m : Cli) (d : list byte) (eof : bool) : Cli :=
  MkCli (cl_session m) (cl_granted m) (cl_typed m ++ d) (cl_sent m) (cl_got m)
    (cl_shown m) (cl_code m) (cl_eof m || eof) (cl_closed m).
Definition cl_show (m : Cli) (d : list byte) : Cli :=
  MkCli (cl_session m) (cl_granted m) (cl_typed m) (cl_sent m) (cl_got m)
    (cl_shown m ++ d) (cl_code m) (cl_eof m) (cl_closed m).
Definition cl_close (m : Cli) : Cli :=
  MkCli (cl_session m) (cl_granted m) (cl_typed m) (cl_sent m) (cl_got m)
    (cl_shown m) (cl_code m) (cl_eof m) true.

Section Spec.
Context `{Aead}.

Definition client_may_send (m : Cli) (f : TerminalFrame) : Prop :=
  match f with
  | TfOpen _ _ | TfAttach _ _ _ => cl_granted m = false
  | TfInput d => cl_granted m = true /\ (cl_sent m ++ d) `prefix_of` cl_typed m
  | TfResize _ _ | TfPing => cl_granted m = true
  | _ => False
  end.

Inductive cli_step (m : Cli) : forall c, client_answer c -> Cli -> Prop :=
  | ks_now t : cli_step m KNow t m
  | ks_deadline d r : cli_step m (KSetDeadline d) r m
  | ks_probe w : cli_step m KProbe w m
  | ks_recv_fail e : cli_step m KRecv (Err e) m
  | ks_recv wire s r :
      cl_closed m = false -> cl_shown m = cl_got m ->
      open_frame Client (cl_session m) wire = (s, r) ->
      cli_step m KRecv (Ok wire)
        (cl_receive m s (match r with Some (Ok f) => Some f | _ => None end))
  | ks_send f wire s r :
      cl_closed m = false -> client_may_send m f ->
      seal_frame (cl_session m) f = (s, Some (Ok wire)) ->
      cli_step m (KSend wire) r
        (cl_send m s (if is_ok r then input_of (Some f) else []))
  | ks_stdin r :
      cl_sent m = cl_typed m -> cl_granted m = true ->
      cli_step m KStdin r
        (match r with
         | InData d => cl_type m d false
         | InEof => cl_type m [] true
         | _ => m
         end)
  | ks_output d ok :
      cl_got m = cl_shown m ++ d ->
      cli_step m (KOutput d) ok (if ok then cl_show m d else m)
  | ks_close r : cl_closed m = false -> cli_step m KClose r (cl_close m).

Notation ksafe F p m Q := (act_safe (fun _ _ => True) cli_step F p m Q).

(** ** The parts *)

(** Nothing is owed on either side. *)
Record cli_inv (s : Session) (m : Cli) : Prop := {
  ki_sess : sess_inv s;
  ki_sync : s = cl_session m;
  ki_closed : cl_closed m = false;
  ki_sent : cl_sent m = cl_typed m;
  ki_shown : cl_shown m = cl_got m;
}.

(** After an error. *)
Definition failed_inv (s : Session) (m : Cli) : Prop :=
  sess_inv s /\ cl_closed m = false.

Lemma cli_failed s m : cli_inv s m -> failed_inv s m.
Proof. intros []. split; auto. Qed.

Lemma client_send_safe F s f m Q :
  sess_inv s -> s = cl_session m -> cl_closed m = false ->
  term_encode f <> None -> client_may_send m f ->
  (forall s' e m', failed_inv s' m' -> cl_granted m' = cl_granted m -> Q (s', Err e) m') ->
  (forall s', sess_inv s' -> Q (s', Ok tt) (cl_send m s' (input_of (Some f)))) ->
  ksafe F (client_send s f) m Q.
Proof.
  intros Hi Hy Hc Hf Hm Herr Hok. unfold client_send.
  destruct (seal_frame_cases s f Hi Hf) as (s' & r & E & Hi' & Ht). rewrite E.
  destruct r as [wire|e]; [|apply act_safe_done, Herr; [split|]; auto].
  subst s. apply act_safe_bind, act_safe_ask. intros a _. eexists.
  split; [eapply (ks_send m f wire s' a); eauto|].
  apply act_safe_done. destruct a as [[]|e]; cbn [is_ok map_err]; [auto|].
  apply Herr; [split|]; auto.
Qed.

Lemma recv_raw_safe F s m Q :
  cli_inv s m ->
  (forall s' m' e, failed_inv s' m' -> cl_granted m' = cl_granted m -> Q (s', Err e) m') ->
  Q (s, Ok None) m ->
  (forall s' f, sess_inv s' -> Q (s', Ok (Some f)) (cl_receive m s' (Some f))) ->
  ksafe F (recv_raw s) m Q.
Proof.
  intros Hc Herr Hnone Hok. unfold recv_raw. pose proof Hc as [Hi Hy Hcl _ Hsh].
  apply act_safe_bind, act_safe_ask. intros a _. destruct a as [wire|e].
  - destruct (open_frame_cases Client s wire Hi) as (s' & r & E & Hi' & _). rewrite E.
    eexists. split; [eapply (ks_recv m wire s' (Some r)); auto; congruence|].
    destruct r as [f|e]; apply act_safe_done; [auto|]. apply Herr; [split|]; auto.
  - eexists. split; [apply ks_recv_fail|].
    destruct e; apply act_safe_done; auto using cli_failed.
Qed.

(** An attached session between two calls. *)
Definition ts_inv (ts : TerminalSession) (m : Cli) : Prop :=
  cli_inv (ts_session ts) m /\ cl_granted m = true /\
  (forall c, ts_exit ts = Some c -> cl_code m = Some c).

Definition ts_failed (ts : TerminalSession) (m : Cli) : Prop :=
  failed_inv (ts_session ts) m /\ cl_granted m = true.

Lemma ts_inv_failed ts m : ts_inv ts m -> ts_failed ts m.
Proof. intros (Hc & Hg & _). split; [apply cli_failed, Hc | exact Hg]. Qed.

Lemma send_open_safe ts f m Q :
  sess_inv (ts_session ts) -> ts_session ts = cl_session m -> cl_closed m = false ->
  cl_granted m = true -> term_encode f <> None -> client_may_send m f ->
  (forall ts' e m', ts_failed ts' m' -> Q (ts', Err e) m') ->
  (forall s', sess_inv s' ->
     Q (ts_set_session ts s', Ok tt) (cl_send m s' (input_of (Some f)))) ->
  ksafe False (send_open ts f) m Q.
Proof.
  intros Hi Hy Hc Hg Hf Hm Herr Hok. unfold send_open.
  apply act_safe_bind, client_send_safe; auto.
  intros s' e m' Hn Hg'. apply act_safe_done, Herr. split; [exact Hn | congruence].
Qed.

Lemma send_inputs_safe chunks : forall ts m Q,
  sess_inv (ts_session ts) -> ts_session ts = cl_session m -> cl_closed m = false ->
  cl_granted m = true -> cl_shown m = cl_got m ->
  (forall c, ts_exit ts = Some c -> cl_code m = Some c) ->
  cl_typed m = cl_sent m ++ concat chunks ->
  Forall (fun c => c <> [] /\ Z.of_nat (length c) <= DATA_CHUNK_MAX) chunks ->
  (forall ts' e m', ts_failed ts' m' -> Q (ts', Err e) m') ->
  (forall ts' m', ts_inv ts' m' -> cl_eof m' = cl_eof m -> Q (ts', Ok tt) m') ->
  ksafe False (send_inputs ts chunks) m Q.
Proof.
  induction chunks as [|d chunks IH]; intros ts m Q Hi Hy Hc Hg Hsh Hx Ht Hl Herr Hok;
    cbn [send_inputs].
  - apply act_safe_done, Hok; [|reflexivity]. cbn in Ht. rewrite app_nil_r in Ht.
    split; [split; auto | auto].
  - apply Forall_cons_iff in Hl as [[_ Hd] Hl]. cbn [concat] in Ht.
    apply act_safe_bind, send_open_safe; auto.
    + cbn [term_encode]. unfold encode_chunk.
      rewrite (proj2 (Z.leb_le _ _)) by exact Hd. discriminate.
    + split; [exact Hg|]. rewrite Ht, app_assoc. apply prefix_app_r. reflexivity.
    + intros s' Hi'. apply IH; auto. cbn. rewrite Ht. apply app_assoc.
Qed.

Lemma send_input_safe ts m d Q :
  ts_inv ts m ->
  (forall ts' e m', ts_failed ts' m' -> Q (ts', Err e) m') ->
  (forall ts' m', ts_inv ts' m' -> cl_eof m' = cl_eof m -> Q (ts', Ok tt) m') ->
  ksafe False (send_input ts d) (cl_type m d false) Q.
Proof.
  intros ([Hi Hy Hc Hs Hsh] & Hg & Hx) Herr Hok. unfold send_input.
  destruct (ensure_open ts) as [[]|e].
  2: { apply act_safe_done, Herr. split; [split|]; auto. }
  destruct (chunk_input_spec d) as [Hcat Hall].
  apply send_inputs_safe; auto.
  - cbn. rewrite Hcat, Hs. reflexivity.
  - intros ts' m' Hts He. apply Hok; [exact Hts|].
    rewrite He. cbn. apply orb_false_r.
Qed.

(** Frames that carry no input. *)
Lemma control_safe ts m f Q :
  ts_inv ts m -> term_encode f <> None -> client_may_send m f -> input_of (Some f) = [] ->
  (forall ts' e m', ts_failed ts' m' -> Q (ts', Err e) m') ->
  (forall ts' m', ts_inv ts' m' -> cl_eof m' = cl_eof m -> Q (ts', Ok tt) m') ->
  ksafe False (match ensure_open ts with
               | Err e => done (ts, Err e)
               | Ok _ => send_open ts f
               end) m Q.
Proof.
  intros Hts Hf Hm Hin Herr Hok. destruct (ensure_open ts) as [[]|e].
  2: { apply act_safe_done, Herr, ts_inv_failed, Hts. }
  destruct Hts as ([Hi Hy Hc Hs Hsh] & Hg & Hx).
  apply send_open_safe; auto. intros s' Hi'. rewrite Hin.
  apply Hok; [|reflexivity]. split; [split|]; cbn; rewrite ?app_nil_r; auto.
Qed.

(** What an event leaves: its output is still to be shown. *)
Definition event_post (r : TerminalSession * result (option TerminalEvent) terror)
  (m : Cli) : Prop :=
  match snd r with
  | Err _ => ts_failed (fst r) m
  | Ok None => ts_inv (fst r) m
  | Ok (Some (EvExit code)) => ts_failed (fst r) m /\ cl_code m = Some code
  | Ok (Some (EvOutput d)) =>
      cl_got m = cl_shown m ++ d /\
      (forall m', m' = cl_show m d -> ts_inv (fst r) m') /\ ts_failed (fst r) m
  end.

Lemma poll_event_safe ts wait m Q :
  ts_inv ts m ->
  (forall r m', event_post r m' -> (is_ok (snd r) = true -> cl_eof m' = cl_eof m) ->
     Q r m') ->
  ksafe False (poll_event ts wait) m Q.
Proof.
  intros Hts HQ. unfold poll_event. destruct (ts_exit ts) as [code|] eqn:Hx.
  { apply act_safe_done, HQ; [|reflexivity]. split; [apply ts_inv_failed, Hts|].
    apply Hts, Hx. }
  apply act_safe_bind, act_safe_ask. intros a _. eexists. split; [apply ks_deadline|].
  destruct a as [[]|e].
  2: { apply act_safe_done, HQ; [apply ts_inv_failed, Hts | reflexivity]. }
  pose proof Hts as (Hcli & Hg & _). pose proof Hcli as [Hi Hy Hc Hs Hsh].
  apply act_safe_bind, recv_raw_safe; [exact Hcli | | |].
  - intros s' m' e Hf Hg'. apply act_safe_done, HQ; [|discriminate].
    split; [exact Hf | congruence].
  - apply act_safe_done, HQ; [|reflexivity].
    replace (ts_set_session ts (ts_session ts)) with ts by (destruct ts; reflexivity).
    exact Hts.
  - intros s' f Hi'.
    assert (Hfl : forall ts', ts_session ts' = s' ->
      ts_failed ts' (cl_receive m s' (Some f))).
    { intros ts' E. split; [split; [rewrite E|]; auto|]. cbn. destruct f; auto. }
    destruct f; apply act_safe_done; (apply HQ; [|try discriminate; reflexivity]);
      try (apply Hfl; reflexivity); unfold event_post; cbn [snd fst].
    + split; [cbn; congruence|]. split; [|apply Hfl; reflexivity].
      intros m' ->. split; [split|]; cbn; auto; [congruence|].
      split; [exact Hg|]. congruence.
    + split; [apply Hfl; reflexivity | reflexivity].
Qed.

(** ** The pump *)

(** The result of a pump: an exit the server reported, or a detachment after the
    end of the input. *)
Definition result_ok (r : result Z terror) (m : Cli) : Prop :=
  match r with
  | Ok code => cl_code m = Some code \/ (code = 0 /\ cl_eof m = true)
  | Err _ => True
  end.

Definition part_post (r : PumpSt * option (result Z terror)) (m : Cli) : Prop :=
  match snd r with
  | None => ts_inv (pu_ts (fst r)) m /\ (pu_eof_at (fst r) <> None -> cl_eof m = true)
  | Some res => ts_failed (pu_ts (fst r)) m /\ result_ok res m
  end.

Definition part_safe (f : PumpSt -> client_act (PumpSt * option (result Z terror))) : Prop :=
  forall p m Q, part_post (p, None) m -> (forall r m', part_post r m' -> Q r m') ->
    ksafe False (f p) m Q.

Lemma detach_part_safe : part_safe detach_part.
Proof.
  intros p m Q [Hts He] HQ. unfold detach_part. destruct (pu_eof_at p) as [at_|] eqn:Ea.
  - apply act_safe_bind, act_safe_ask. intros now _. eexists. split; [apply ks_now|].
    apply act_safe_done, HQ. destruct (_ <=? _); unfold part_post; cbn [fst snd result_ok].
    + split; [apply ts_inv_failed, Hts | right]. split; [reflexivity|].
      apply He. cbn. congruence.
    + split; [exact Hts | exact He].
  - apply act_safe_done, HQ. split; [exact Hts | exact He].
Qed.

(** After a call that sends. *)
Lemma part_sent p m ts' m' (set : PumpSt -> PumpSt) :
  part_post (p, None) m -> ts_inv ts' m' -> cl_eof m' = cl_eof m ->
  pu_ts (set p) = ts' -> pu_eof_at (set p) = pu_eof_at p ->
  part_post (set p, None) m'.
Proof.
  intros [_ He] Hts Eo Et Ea. split; cbn [fst]; [rewrite Et; exact Hts|].
  rewrite Ea, Eo. exact He.
Qed.

Lemma part_err p ts' e m' :
  ts_failed ts' m' -> part_post (pu_set_ts p ts', Some (Err e)) m'.
Proof. intros Hf. split; [exact Hf | exact I]. Qed.

Lemma ping_part_safe interval : part_safe (ping_part interval).
Proof.
  intros p m Q Hp HQ. unfold ping_part.
  apply act_safe_bind, act_safe_ask. intros now _. eexists. split; [apply ks_now|].
  destruct (_ <=? _); [|apply act_safe_done, HQ, Hp].
  apply act_safe_bind, act_safe_ask. intros a _. eexists. split; [apply ks_deadline|].
  destruct a as [[]|e].
  2: { apply act_safe_done, HQ. split; [apply ts_inv_failed, Hp | exact I]. }
  apply act_safe_bind. unfold ping.
  apply (control_safe (pu_ts p) m TfPing); [apply Hp | discriminate | apply Hp | reflexivity | |].
  - intros ts' e m' Hf. apply act_safe_done, HQ, part_err, Hf.
  - intros ts' m' Hts Eo. apply act_safe_bind, act_safe_ask. intros t _.
    eexists. split; [apply ks_now|]. apply act_safe_done, HQ.
    apply (part_sent p m ts' m' (fun p => pu_pinged (pu_set_ts p ts') t)); auto.
Qed.

Lemma input_part_safe : part_safe input_part.
Proof.
  intros p m Q Hp HQ. unfold input_part. pose proof Hp as [Hts He]. cbn [fst] in Hts, He.
  pose proof Hts as ([Hi Hy Hc Hs Hsh] & Hg & Hx).
  apply act_safe_bind, act_safe_ask. intros a _. eexists. split; [apply ks_stdin; auto|].
  destruct a as [d| | |].
  - apply act_safe_bind, send_input_safe; [exact Hts | |].
    + intros ts' e m' Hf. apply act_safe_done, HQ, part_err, Hf.
    + intros ts' m' Hts' Eo. apply act_safe_bind, act_safe_ask. intros t _.
      eexists. split; [apply ks_now|]. apply act_safe_done, HQ.
      apply (part_sent p m ts' m' (fun p => pu_pinged (pu_set_ts p ts') t)); auto.
  - assert (Ht : ts_inv (pu_ts p) (cl_type m [] true)).
    { split; [split|]; cbn; rewrite ?app_nil_r; auto. }
    assert (Heof : cl_eof (cl_type m [] true) = true) by apply orb_true_r.
    destruct (pu_eof_at p) as [at_|] eqn:Ea.
    + apply act_safe_done, HQ. split; [exact Ht | intros _; exact Heof].
    + apply act_safe_bind, act_safe_ask. intros t _. eexists. split; [apply ks_now|].
      apply act_safe_done, HQ. split; [exact Ht | intros _; exact Heof].
  - apply act_safe_done, HQ, Hp.
  - apply act_safe_done, HQ, Hp.
Qed.

Lemma window_part_safe : part_safe window_part.
Proof.
  intros p m Q Hp HQ. unfold window_part.
  apply act_safe_bind, act_safe_ask. intros w _. eexists. split; [apply ks_probe|].
  destruct (bool_decide _); [apply act_safe_done, HQ, Hp|].
  destruct w as [w|]; [|apply act_safe_done, HQ, Hp].
  apply act_safe_bind. unfold client_resize.
  apply (control_safe (pu_ts p) m (TfResize (ws_rows w) (ws_cols w)));
    [apply Hp | discriminate | apply Hp | reflexivity | |].
  - intros ts' e m' Hf. apply act_safe_done, HQ, part_err, Hf.
  - intros ts' m' Hts Eo. apply act_safe_done, HQ.
    apply (part_sent p m ts' m' (fun p => MkPump ts' (pu_last_ping p) (Some w) (pu_eof_at p)));
      auto.
Qed.

Lemma event_part_safe : part_safe event_part.
Proof.
  intros p m Q Hp HQ. unfold event_part. pose proof Hp as [Hts He]. cbn [fst] in Hts, He.
  apply act_safe_bind, poll_event_safe; [exact Hts|].
  intros [ts' r] m' Hev Heo. unfold event_post in Hev. cbn [fst snd] in *.
  destruct r as [[[d|code]|]|e].
  - destruct Hev as (Hgot & Hshow & Hf).
    apply act_safe_bind, act_safe_ask. intros ok _. eexists.
    split; [apply ks_output, Hgot|]. apply act_safe_done, HQ. destruct ok.
    + split; [apply Hshow; reflexivity|]. cbn. intros X. rewrite Heo; auto.
    + split; [exact Hf | exact I].
  - apply act_safe_done, HQ. split; [apply Hev | left; apply Hev].
  - apply act_safe_done, HQ. split; [exact Hev|]. cbn. intros X. rewrite Heo; auto.
  - apply act_safe_done, HQ. split; [exact Hev | exact I].
Qed.

Lemma parts_safe ps : Forall part_safe ps -> part_safe (parts ps).
Proof.
  induction 1 as [|f ps Hf _ IH]; intros p m Q Hp HQ; cbn [parts].
  - apply act_safe_done, HQ, Hp.
  - apply act_safe_bind, Hf; [exact Hp|]. intros [p' [r|]] m' Hp'.
    + apply act_safe_done, HQ, Hp'.
    + apply IH; auto.
Qed.

Lemma pump_pass_safe interval : part_safe (pump_pass interval).
Proof.
  apply parts_safe. rewrite !List.Forall_cons_iff.
  auto 8 using detach_part_safe, ping_part_safe, input_part_safe, window_part_safe,
    event_part_safe.
Qed.

Lemma pump_safe interval fuel : forall p m Q,
  part_post (p, None) m ->
  (forall p' r m', part_post (p', Some r) m' -> Q (p', r) m') ->
  ksafe True (pump fuel interval p) m Q.
Proof.
  induction fuel as [|fuel IH]; intros p m Q Hp HQ; [exact I|]. cbn [pump].
  apply act_safe_bind. eapply act_safe_mono;
    [apply (pump_pass_safe interval p m part_post Hp); auto | tauto |].
  intros [p' [r|]] m' Hp'; [apply act_safe_done, HQ, Hp' | apply IH; auto].
Qed.

(** The stream is closed and the keys are gone, but after a failed attachment. *)
Definition client_final (r : Session * result Z terror) (m : Cli) : Prop :=
  result_ok (snd r) m /\
  (cl_granted m = true -> cl_closed m = true /\ ss_keys (fst r) = None) /\
  (is_ok (snd r) = true -> cl_granted m = true).

Lemma run_interactive_safe fuel interval ts m Q :
  ts_inv ts m -> (forall r m', client_final r m' -> Q r m') ->
  ksafe True (run_interactive fuel interval ts) m Q.
Proof.
  intros Hts HQ. unfold run_interactive.
  apply act_safe_bind, act_safe_ask. intros now _. eexists. split; [apply ks_now|].
  apply act_safe_bind, act_safe_ask. intros w _. eexists. split; [apply ks_probe|].
  apply act_safe_bind, pump_safe; [split; [exact Hts | cbn; congruence]|].
  intros p r m' [[[Hi Hc] Hg] Hr]. cbn [fst] in *.
  apply act_safe_bind, act_safe_ask. intros a _. eexists.
  split; [apply ks_close, Hc|]. apply act_safe_done, HQ. split; [exact Hr|].
  split; [|auto]. intros _. split; [reflexivity | apply session_close_keys, Hi].
Qed.

Lemma await_grant_safe deadline fuel : forall s m Q,
  cli_inv s m -> cl_granted m = false ->
  (forall s' e m', cl_granted m' = false -> Q (s', Err e) m') ->
  (forall s' ts m', ts_inv ts m' -> Q (s', Ok ts) m') ->
  ksafe True (await_grant fuel deadline s) m Q.
Proof.
  induction fuel as [|fuel IH]; intros s m Q Hc Hg Herr Hok; [exact I|].
  assert (Hgive : forall s' e m', failed_inv s' m' -> cl_granted m' = false ->
    ksafe True (abandon s' e) m' Q).
  { intros s' e m' [_ Hcl] Hg'. apply act_safe_bind, act_safe_ask. intros a _. eexists.
    split; [apply ks_close, Hcl|]. apply act_safe_done, Herr, Hg'. }
  cbn [await_grant]. apply act_safe_bind, recv_raw_safe; [exact Hc | | |].
  - intros s' m' e _ Hg'. apply act_safe_done, Herr. congruence.
  - apply act_safe_bind, act_safe_ask. intros now _. eexists. split; [apply ks_now|].
    destruct (_ <=? _); [apply Hgive; [apply cli_failed, Hc | exact Hg] | apply IH; auto].
  - intros s' f Hi'. destruct Hc as [Hi Hy Hcl Hs Hsh].
    destruct f; try (apply Hgive; [split; auto | exact Hg]).
    apply act_safe_done, Hok. split; [split|]; cbn; rewrite ?app_nil_r; auto.
    split; [reflexivity | discriminate].
Qed.

Lemma connect_safe fuel timeout interval mode s :
  sess_inv s ->
  ksafe True (connect fuel timeout interval mode s) (cli_start s) client_final.
Proof.
  intros Hi. unfold connect, attach.
  assert (Herr : forall s' e m', cl_granted m' = false ->
    ksafe True (done (s', Err e)) m' client_final).
  { intros s' e m' Hg. apply act_safe_done. split; [exact I|].
    split; [congruence | discriminate]. }
  assert (Hc : cli_inv s (cli_start s)) by (split; auto).
  apply act_safe_bind, act_safe_bind, act_safe_ask. intros a _. eexists.
  split; [apply ks_deadline|]. destruct a as [[]|e]; [|apply act_safe_done, Herr; auto].
  apply act_safe_bind, client_send_safe; auto.
  - destruct mode; discriminate.
  - destruct mode; reflexivity.
  - intros s' e m' _ Hg. apply act_safe_done, Herr. exact Hg.
  - intros s' Hi'. apply act_safe_bind, act_safe_ask. intros now _. eexists.
    split; [apply ks_now|]. apply await_grant_safe; auto.
    + split; auto. destruct mode; reflexivity.
    + intros s2 ts m' Hts. apply run_interactive_safe; auto.
Qed.

(** What a path says of the bytes. *)
Definition cli_bytes (m : Cli) : Prop :=
  cl_sent m `prefix_of` cl_typed m /\ cl_shown m `prefix_of` cl_got m.

Lemma cli_step_bytes m c a m' : cli_step m c a m' -> cli_bytes m -> cli_bytes m'.
Proof.
  intros Hst [Hs Hg]. destruct Hst as [| | | |wire s r _ _ _|f wire s r _ Hm _|r _ _|d ok Hd|];
    try (split; assumption); split; cbn; auto.
  - apply prefix_app_r, Hg.
  - destruct r; cbn [is_ok]; rewrite ?app_nil_r; auto.
    destruct f; cbn [input_of]; rewrite ?app_nil_r; auto. apply Hm.
  - destruct r; cbn; rewrite ?app_nil_r; auto. apply prefix_app_r, Hs.
  - destruct r; auto.
  - destruct ok; auto.
  - destruct ok; cbn; auto. rewrite Hd. reflexivity.
Qed.

(** C26: a client sends what was typed and shows what was sent.  Whatever the
    server, the clock and the input do, every run of attaching and pumping is a run
    of the abstract client: it sends the input in order with nothing left out
    between, reads more of it only when the last is sent, writes the output of the
    frames it received in order, and reads the next frame only when the last output
    is written; it never panics.  When it returns: a success was attached, and is
    the exit code that the server reported, or 0 after the end of the input; and
    once it was attached the stream is closed and the keys are gone, whatever the
    result (an attachment that fails may leave both). *)
Theorem client_refines fuel timeout interval mode s t o :
  sess_inv s ->
  runs (connect fuel timeout interval mode s) t o ->
  exists m, path cli_step (cli_start s) t m /\ cli_bytes m /\
    match o with
    | Done r => client_final r m
    | Panicked => False
    | OutOfFuel => True
    end.
Proof.
  intros Hi Hr.
  destruct (safe_runs (fun _ _ => True) cli_step _ _ _ _ _
              (connect_safe fuel timeout interval mode s Hi) Hr) as (m & Hp & Hf).
  { apply List.Forall_forall. auto. }
  exists m. split; [exact Hp|]. split; [|exact Hf].
  clear - Hp. assert (Hb : cli_bytes (cli_start s)) by (split; reflexivity).
  revert Hb. induction Hp; eauto using cli_step_bytes.
Qed.

End Spec.

(** ** A client that types a line and sees its output and the exit code *)

Module ClientWitness.
#[local] Existing Instance checksum_aead.

Definition world : Type := list (list byte) * list StdinRead * Z.

Definition replies (w : world) (c : ClientCall) : world * client_answer c :=
  let '(frames, reads, now) := w in
  match c return world * client_answer c with
  | KNow => ((frames, reads, now + 1), now)
  | KSetDeadline _ | KSend _ | KClose => (w, Ok tt)
  | KRecv =>
      match frames with
      | [] => (w, Err TrTimeout)
      | f :: frames => ((frames, reads, now), Ok f)
      end
  | KStdin =>
      match reads with
      | [] => (w, InEmpty)
      | r :: reads => ((frames, reads, now), r)
      end
  | KProbe => (w, Some (MkWindow 24 80))
  | KOutput _ => (w, true)
  end.

Definition server_world : world :=
  (Witness.client_sends Witness.server1 [TfGranted 1 1; TfOutput [x6f; x6b]; TfExit 3],
   [InData [x6c; x73]; InEof], 100).

Definition connected :=
  exec replies server_world (connect 20 1000 5000 (AmNew (MkWindow 24 80)) Witness.client1).

Lemma client1_inv : sess_inv Witness.client1.
Proof.
  unfold Witness.client1, Witness.confirmed.
  destruct (seal_record Witness.client0 ClientConfirm []) as [s r] eqn:Es.
  destruct (seal_shape _ _ _ _ _ (sess_inv_new _ _) Es) as [Hi _].
  destruct (open_record (fst (s, r)) ServerConfirm 0 _) as [s' r'] eqn:Eo.
  apply (open_shape _ _ _ _ _ _ Hi Eo).
Qed.

Lemma connected_runs :
  runs (connect 20 1000 5000 (AmNew (MkWindow 24 80)) Witness.client1)
    (snd (fst connected)) (snd connected).
Proof. unfold connected. apply exec_is_run. Qed.

Lemma connected_end : exists s, snd connected = Done (s, Ok 3).
Proof. eexists. vm_compute. reflexivity. Qed.

End ClientWitness.

#[local] Existing Instance checksum_aead.

Lemma client_refines_witness :
  exists m s, path cli_step (cli_start Witness.client1) (snd (fst ClientWitness.connected)) m /\
    cli_bytes m /\ client_final (s, Ok 3) m.
Proof.
  destruct (client_refines 20 1000 5000 (AmNew (MkWindow 24 80)) Witness.client1
    (snd (fst ClientWitness.connected)) (snd ClientWitness.connected)
    ClientWitness.client1_inv ClientWitness.connected_runs) as (m & Hp & Hb & Hf).
  destruct ClientWitness.connected_end as [s E]. rewrite E in Hf.
  exists m, s. split; [exact Hp | split; [exact Hb | exact Hf]].
Defined.
