(* ===== verification/Proto.v ===== *)
(** * Proto: the drivers of a session ([otp-cli], proto.rs)

    The handshake of both ends over a framed stream, and the echo data plane:
    programs over the stream, the random generator, the input and the output.
    The allocator is a value with its issuer and its state; a call returns the
    one it leaves. *)

From stdpp Require Import strings.
From S2P Require Export Effects Handshake Transport.

#[local] Open Scope list_scope.
#[local] Open Scope Z_scope.

(** ** The environment *)

Inductive ProtoCall :=
  | PcSetDeadline (timeout : Z)
  | PcRandom
  | PcRecv
  | PcSend (wire : list byte)
  | PcShutdownWrite
  | PcInput (n : nat)
  | PcOutput (bs : list byte).

(** [PcRandom] is [None] when the generator fails, [PcInput] when reading does,
    and [PcOutput] is [write_all] and [flush]. *)
Definition proto_answer (c : ProtoCall) : Type :=
  match c with
  | PcSetDeadline _ | PcSend _ | PcShutdownWrite => result unit TransportError
  | PcRandom => option Nonce
  | PcRecv => result (list byte) TransportError
  | PcInput _ => option (list byte)
  | PcOutput _ => bool
  end.

Notation proto_act R := (act ProtoCall proto_answer R).
Definition proto_ask (c : ProtoCall) : proto_act (proto_answer c) :=
  ask (C := ProtoCall) (A := proto_answer) c.

(** ** Failures *)

Definition MAX_DATA_PLAINTEXT : Z := MAX_APP_PLAINTEXT.

Record SessionFailure := MkFailure { sf_code : ErrorCode; sf_category : ErrorCategory }.

Definition failure_of_handshake (e : HandshakeError) : SessionFailure :=
  MkFailure (handshake_code e)
    (match e with HeIssuer _ => CatAllocation | _ => CatHandshake end).

Definition failure_of_transport (e : TransportError) : SessionFailure :=
  MkFailure (transport_code e) CatTransport.

Definition failure_of_session (e : SessionError) : SessionFailure :=
  MkFailure (match session_error_wire_code e with Some c => c | None => INTERNAL end)
    CatSession.

Definition failure_of_codec (c : ErrorCode) : SessionFailure := MkFailure c CatCodec.

Definition bad_order : SessionFailure := MkFailure BAD_ORDER CatHandshake.

Record SessionInfo := MkInfo { si_segment : Z; si_generation : Z }.
Record Endpoint := MkEndpoint { ep_book_id : BookId; ep_segment_count : Z }.

(** ** Frames *)

Definition send_msg (msg : Message) : proto_act (result unit SessionFailure) :=
  match encode msg with
  | Err c => done (Err (failure_of_codec c))
  | Ok wire =>
      let* r := proto_ask (PcSend wire) in done (map_err failure_of_transport r)
  end.

Fixpoint send_msgs (msgs : list Message) : proto_act (result unit SessionFailure) :=
  match msgs with
  | [] => done (Ok tt)
  | m :: msgs =>
      let* r := send_msg m in
      match r with Err e => done (Err e) | Ok _ => send_msgs msgs end
  end.

Definition recv_msg (role : Role) : proto_act (result Message SessionFailure) :=
  let* r := proto_ask PcRecv in
  match r with
  | Err e => done (Err (failure_of_transport e))
  | Ok wire => done (map_err failure_of_codec (decode role wire))
  end.

(** [Allocator::state]: next segment and generation. *)
Class PointerState (I : Type) := { pointer_state : I -> Z * Z }.

#[export] Instance core_state {M R} : PointerState (Core M R) :=
  {| pointer_state c := (ar_next (co_current c), ar_generation (co_current c)) |}.

Section Handshakes.
Context `{Aead} {I : Type} `{SegmentIssuer I} `{PointerState I}.

Notation outcome_of := (I * result (Session * SessionInfo) SessionFailure)%type.

Definition local_config (alloc : I) (ep : Endpoint) : HandshakeConfig :=
  MkConfig VERSION (ep_book_id ep) (fst (pointer_state alloc)) (ep_segment_count ep).

Definition established (alloc : I) (session : Session) (segment : Z) : outcome_of :=
  (alloc, Ok (session, MkInfo segment (snd (pointer_state alloc)))).

(** ** Server *)

(** The results of ARBITRATE that end the handshake at once. *)
Definition arbitrate_terminal (hello : Message) (sp : Z) (res : ArbitrateResult) :
  option HandshakeError :=
  match res with
  | ArBookMismatch => Some HeBookMismatch
  | ArExhausted => Some (HeExhausted sp)
  | ArClientAhead =>
      let cp := match hello with Hello _ _ cp _ => cp | _ => sp end in
      Some (HeClientAhead cp sp)
  | ArOk | ArServerAhead => None
  end.

(** [on_hello] draws random bytes when it is given a HELLO. *)
Definition hello_nonce (hello : Message) : proto_act (option Nonce) :=
  match hello with Hello _ _ _ _ => proto_ask PcRandom | _ => done None end.

(** From the awaited CONFIRM_C2S on. *)
Definition server_confirm (alloc : I) (k : ServerHandshake) : proto_act outcome_of :=
  let* r := recv_msg Server in
  match r with
  | Err e => done (alloc, Err e)
  | Ok confirm =>
      match on_confirm k confirm with
      | (_, None) => Ret Panicked
      | (_, Some (StEstablished outbox session segment)) =>
          let* r := send_msgs outbox in
          match r with
          | Err e => done (alloc, Err e)
          | Ok _ => done (established alloc session segment)
          end
      | (_, Some (StFailed e)) => done (alloc, Err (failure_of_handshake e))
      | (_, Some _) => done (alloc, Err bad_order)
      end
  end.

(** From the awaited ISSUE_REQUEST on. *)
Definition server_issue (alloc : I) (k : ServerHandshake) : proto_act outcome_of :=
  let* r := recv_msg Server in
  match r with
  | Err e => done (alloc, Err e)
  | Ok request =>
      match on_issue_request k request alloc with
      | (_, _, None) => Ret Panicked
      | (k, alloc, Some StAwaitPeer) => server_confirm alloc k
      | (_, alloc, Some (StFailed e)) => done (alloc, Err (failure_of_handshake e))
      | (_, alloc, Some _) => done (alloc, Err bad_order)
      end
  end.

Definition server_hello (alloc : I) (k : ServerHandshake) : proto_act outcome_of :=
  let* r := recv_msg Server in
  match r with
  | Err e => done (alloc, Err e)
  | Ok hello =>
      let* rand := hello_nonce hello in
      match on_hello k hello rand with
      | (_, Err e) => done (alloc, Err (failure_of_handshake e))
      | (k, Ok arbitrate) =>
          let* r := send_msg arbitrate in
          match r with
          | Err e => done (alloc, Err e)
          | Ok _ =>
              let terminal :=
                match arbitrate with
                | Arbitrate _ sp res => arbitrate_terminal hello sp res
                | _ => None
                end in
              match terminal with
              | Some e => done (alloc, Err (failure_of_handshake e))
              | None => server_issue alloc k
              end
          end
      end
  end.

Definition server_handshake (alloc : I) (ep : Endpoint) (deadline : Z) :
  proto_act outcome_of :=
  let* d := proto_ask (PcSetDeadline deadline) in
  match d with
  | Err e => done (alloc, Err (failure_of_transport e))
  | Ok _ =>
      match server_new (local_config alloc ep) with
      | Err e => done (alloc, Err (failure_of_handshake e))
      | Ok k => server_hello alloc k
      end
  end.

(** ** Client *)

Definition client_confirm (alloc : I) (h : ClientHandshake) : proto_act outcome_of :=
  let* r := recv_msg Client in
  match r with
  | Err e => done (alloc, Err e)
  | Ok confirm =>
      match client_handle h confirm alloc with
      | (_, _, None) => Ret Panicked
      | (_, alloc, Some (StEstablished _ session segment)) =>
          done (established alloc session segment)
      | (_, alloc, Some (StFailed e)) => done (alloc, Err (failure_of_handshake e))
      | (_, alloc, Some _) => done (alloc, Err bad_order)
      end
  end.

Definition client_arbitrate (alloc : I) (h : ClientHandshake) : proto_act outcome_of :=
  let* r := recv_msg Client in
  match r with
  | Err e => done (alloc, Err e)
  | Ok arbitrate =>
      match client_handle h arbitrate alloc with
      | (_, _, None) => Ret Panicked
      | (h, alloc, Some (StSend outbox)) =>
          let* r := send_msgs outbox in
          match r with
          | Err e => done (alloc, Err e)
          | Ok _ => client_confirm alloc h
          end
      | (_, alloc, Some (StFailed e)) => done (alloc, Err (failure_of_handshake e))
      | (_, alloc, Some _) => done (alloc, Err bad_order)
      end
  end.

Definition client_handshake (alloc : I) (ep : Endpoint) (deadline : Z) :
  proto_act outcome_of :=
  let* d := proto_ask (PcSetDeadline deadline) in
  match d with
  | Err e => done (alloc, Err (failure_of_transport e))
  | Ok _ =>
  match client_new (local_config alloc ep) with
  | Err e => done (alloc, Err (failure_of_handshake e))
  | Ok h =>
  let* rand := proto_ask PcRandom in
  match client_start h rand with
  | (_, Err e) => done (alloc, Err (failure_of_handshake e))
  | (h, Ok hello) =>
      let* r := send_msg hello in
      match r with
      | Err e => done (alloc, Err e)
      | Ok _ => client_arbitrate alloc h
      end
  end end end.

End Handshakes.

(** ** The echo data plane *)

Section Echo.
Context `{Aead}.

(** [u64::saturating_add]. *)
Definition add_bytes (a : Z) (bs : list byte) : Z :=
  Z.min U64_MAX (a + Z.of_nat (length bs)).

(** Sealing a plaintext and sending it as DATA. *)
Definition send_data (s : Session) (plain : list byte) :
  proto_act (Session * result unit SessionFailure) :=
  match seal_record s DataRecord plain with
  | (s, None) => Ret Panicked
  | (s, Some (Err e)) => done (s, Err (failure_of_session e))
  | (s, Some (Ok rc)) =>
      let* r := send_msg (Data 0 (rc_sequence rc) (rc_sealed rc)) in done (s, r)
  end.

(** Opening a message that must be DATA. *)
Definition open_data (s : Session) (m : Message) :
  Session * option (result (list byte) SessionFailure) :=
  match m with
  | Data _ seq data =>
      let '(s, r) := open_record s DataRecord seq data in
      (s, match r with Some r => Some (map_err failure_of_session r) | None => None end)
  | _ => (session_close s, Some (Err (MkFailure BAD_ORDER CatCodec)))
  end.

Fixpoint server_echo_loop (fuel : nat) (s : Session) (bytes : Z) :
  proto_act (Session * result Z SessionFailure) :=
  match fuel with
  | O => Ret OutOfFuel
  | S fuel =>
      let* r := proto_ask PcRecv in
      match r with
      | Err TrClosedByPeer => done (s, Ok bytes)
      | Err e => done (session_close s, Err (failure_of_transport e))
      | Ok wire =>
          match decode Server wire with
          | Err c => done (s, Err (failure_of_codec c))
          | Ok msg =>
              match open_data s msg with
              | (_, None) => Ret Panicked
              | (s, Some (Err e)) => done (s, Err e)
              | (s, Some (Ok plain)) =>
                  let bytes := add_bytes bytes plain in
                  let* '(s, r) := send_data s plain in
                  match r with
                  | Err e => done (s, Err e)
                  | Ok _ => server_echo_loop fuel s bytes
                  end
              end
          end
      end
  end.

Definition client_roundtrip (s : Session) (chunk : list byte) :
  proto_act (Session * result (list byte) SessionFailure) :=
  let* '(s, r) := send_data s chunk in
  match r with
  | Err e => done (s, Err e)
  | Ok _ =>
      let* r := recv_msg Client in
      match r with
      | Err e => done (s, Err e)
      | Ok echo =>
          match open_data s echo with
          | (_, None) => Ret Panicked
          | (s, Some r) => done (s, r)
          end
      end
  end.

Definition platform_io : SessionFailure := MkFailure IO_ERROR CatPlatform.

(** The loop of [client_stdio_pump] over the input. *)
Fixpoint echo_input (fuel : nat) (s : Session) (sent : Z) :
  proto_act (Session * result Z SessionFailure) :=
  match fuel with
  | O => Ret OutOfFuel
  | S fuel =>
      let* n := proto_ask (PcInput (Z.to_nat MAX_DATA_PLAINTEXT)) in
      match n with
      | None => done (s, Err platform_io)
      | Some [] => done (s, Ok sent)
      | Some chunk =>
          let* '(s, r) := client_roundtrip s chunk in
          match r with
          | Err e => done (s, Err e)
          | Ok echoed =>
              let* ok := proto_ask (PcOutput echoed) in
              if ok then echo_input fuel s (add_bytes sent chunk)
              else done (s, Err platform_io)
          end
      end
  end.

(** Its last loop: what still comes is dropped until the peer closes. *)
Fixpoint drain_peer (fuel : nat) : proto_act (result unit SessionFailure) :=
  match fuel with
  | O => Ret OutOfFuel
  | S fuel =>
      let* r := proto_ask PcRecv in
      match r with
      | Ok _ => drain_peer fuel
      | Err TrClosedByPeer => done (Ok tt)
      | Err e => done (Err (failure_of_transport e))
      end
  end.

Definition client_stdio_pump (fuel : nat) (s : Session) :
  proto_act (Session * result Z SessionFailure) :=
  let* '(s, r) := echo_input fuel s 0 in
  match r with
  | Err e => done (s, Err e)
  | Ok sent =>
      let* w := proto_ask PcShutdownWrite in
      match w with
      | Err e => done (s, Err (failure_of_transport e))
      | Ok _ =>
          let* d := drain_peer fuel in
          done (s, match d with Ok _ => Ok sent | Err e => Err e end)
      end
  end.

End Echo.
