(* ===== verification/ProtoSpec.v ===== *)
(** * ProtoSpec: two drivers joined by a pair of ordered channels

    A network of two programs of Proto: the frames on their way in each
    direction, and for each end its random bytes, its input and what it wrote.
    Either end may take the next step; the theorem holds for every order. *)

From stdpp Require Import strings relations.
From S2P Require Export Proto HandshakeSpec.

#[local] Open Scope list_scope.
#[local] Open Scope Z_scope.

(** ** One end *)

Record Local := MkLocal {
  lo_random : list Nonce;
  lo_input : list (list byte);
  lo_output : list byte;
  lo_shut : bool;
}.

Definition lo_draw (l : Local) (rest : list Nonce) : Local :=
  MkLocal rest (lo_input l) (lo_output l) (lo_shut l).
Definition lo_typed (l : Local) (rest : list (list byte)) : Local :=
  MkLocal (lo_random l) rest (lo_output l) (lo_shut l).
Definition lo_wrote (l : Local) (bs : list byte) : Local :=
  MkLocal (lo_random l) (lo_input l) (lo_output l ++ bs) (lo_shut l).
Definition lo_shutdown (l : Local) : Local :=
  MkLocal (lo_random l) (lo_input l) (lo_output l) true.

Notation proto_prog R := (prog ProtoCall proto_answer R).
Notation frames := (list (list byte)).

(** A read of at most [n] bytes from what was typed. *)
Definition read_input (n : nat) (typed : list (list byte)) : list byte * list (list byte) :=
  match typed with
  | [] => ([], [])
  | c :: rest => if (length c <=? n)%nat then (c, rest) else (take n c, drop n c :: rest)
  end.

(** One call of a program: the frames left to read, the frames sent; [None] when
    it has ended, or waits for a frame. *)
Definition local_step {R} (p : proto_prog R) (inn : frames) (closed : bool) (l : Local) :
  option (proto_prog R * frames * frames * Local) :=
  match p with
  | Ret _ => None
  | Call c k =>
      match c return (proto_answer c -> proto_prog R) ->
        option (proto_prog R * frames * frames * Local) with
      | PcSetDeadline _ => fun k => Some (k (Ok tt), inn, [], l)
      | PcRandom => fun k =>
          match lo_random l with
          | [] => Some (k None, inn, [], l)
          | x :: rest => Some (k (Some x), inn, [], lo_draw l rest)
          end
      | PcRecv => fun k =>
          match inn with
          | w :: inn => Some (k (Ok w), inn, [], l)
          | [] => if closed then Some (k (Err TrClosedByPeer), [], [], l) else None
          end
      | PcSend w => fun k =>
          if lo_shut l then Some (k (Err TrIo), inn, [], l)
          else Some (k (Ok tt), inn, [w], l)
      | PcShutdownWrite => fun k => Some (k (Ok tt), inn, [], lo_shutdown l)
      | PcInput n => fun k =>
          let '(bs, rest) := read_input n (lo_input l) in
          Some (k (Some bs), inn, [], lo_typed l rest)
      | PcOutput bs => fun k => Some (k true, inn, [], lo_wrote l bs)
      end k
  end.

(** Nothing more will come from an end that ended or shut its side. *)
Definition finished {R} (p : proto_prog R) (l : Local) : bool :=
  lo_shut l || match p with Ret _ => true | Call _ _ => false end.

Lemma local_step_closed {R} (p : proto_prog R) inn closed l p' inn' out l' :
  finished p l = true -> local_step p inn closed l = Some (p', inn', out, l') ->
  out = [] /\ finished p' l' = true.
Proof.
  intros Hf E. destruct p as [r|c k]; [discriminate|]. unfold finished in *.
  destruct (lo_shut l) eqn:Hs; [|discriminate].
  destruct c; cbn in E; rewrite ?Hs in E;
    repeat case_match; simplify_eq; cbn; rewrite ?Hs; auto.
Qed.

(** More frames, or the end of the peer, do not change a step that is possible. *)
Lemma local_step_more {R} (p : proto_prog R) inn closed l p' inn' out l' more closed' :
  local_step p inn closed l = Some (p', inn', out, l') ->
  (closed = true -> more = [] /\ closed' = true) ->
  local_step p (inn ++ more) closed' l = Some (p', inn' ++ more, out, l').
Proof.
  intros E Hm. destruct p as [r|c k]; [discriminate|].
  destruct c; cbn in *; repeat case_match; simplify_eq; auto.
  4: cbn in *; simplify_eq; reflexivity.
  all: destruct (Hm eq_refl) as [-> ?]; cbn in *; congruence.
Qed.

(** ** The network *)

Section Net.
Context {RA RB : Type}.

Record Net := MkNet {
  na : proto_prog RA;
  nb : proto_prog RB;
  la : Local;
  lb : Local;
  ab : frames;
  ba : frames;
}.

Definition step_a (n : Net) : option Net :=
  match local_step (na n) (ba n) (finished (nb n) (lb n)) (la n) with
  | Some (p, inn, out, l) => Some (MkNet p (nb n) l (lb n) (ab n ++ out) inn)
  | None => None
  end.

Definition step_b (n : Net) : option Net :=
  match local_step (nb n) (ab n) (finished (na n) (la n)) (lb n) with
  | Some (p, inn, out, l) => Some (MkNet (na n) p (la n) l inn (ba n ++ out))
  | None => None
  end.

Definition net_step (n n' : Net) : Prop := step_a n = Some n' \/ step_b n = Some n'.
Definition quiet (n : Net) : Prop := step_a n = None /\ step_b n = None.

Lemma steps_commute n n1 n2 :
  step_a n = Some n1 -> step_b n = Some n2 ->
  exists n3, step_b n1 = Some n3 /\ step_a n2 = Some n3.
Proof.
  unfold step_a, step_b. destruct n as [pa pb l1 l2 q1 q2]. cbn.
  destruct (local_step pa q2 (finished pb l2) l1) as [[[[pa' q2'] out1] l1']|] eqn:Ea;
    [|discriminate].
  destruct (local_step pb q1 (finished pa l1) l2) as [[[[pb' q1'] out2] l2']|] eqn:Eb;
    [|discriminate].
  intros E1 E2. injection E1 as <-. injection E2 as <-. cbn.
  rewrite (local_step_more _ _ _ _ _ _ _ _ out1 (finished pa' l1') Eb).
  2: { intros Hf. apply (local_step_closed _ _ _ _ _ _ _ _ Hf Ea). }
  rewrite (local_step_more _ _ _ _ _ _ _ _ out2 (finished pb' l2') Ea).
  2: { intros Hf. apply (local_step_closed _ _ _ _ _ _ _ _ Hf Eb). }
  eauto.
Qed.

Lemma net_diamond n n1 n2 :
  net_step n n1 -> net_step n n2 ->
  n1 = n2 \/ exists n3, net_step n1 n3 /\ net_step n2 n3.
Proof.
  intros [H1|H1] [H2|H2]; try (left; congruence); right.
  - destruct (steps_commute _ _ _ H1 H2) as (n3 & ? & ?). exists n3. unfold net_step. auto.
  - destruct (steps_commute _ _ _ H2 H1) as (n3 & ? & ?). exists n3. unfold net_step. auto.
Qed.

Lemma nsteps_0 {A} (R : relation A) x y : nsteps R 0 x y -> y = x.
Proof. inversion 1. reflexivity. Qed.

Lemma nsteps_inv_l {A} (R : relation A) n x z :
  nsteps R (S n) x z -> exists y, R x y /\ nsteps R n y z.
Proof. inversion 1; subst; eauto. Qed.

(** If one order of steps ends, every order ends, there and as soon. *)
Lemma net_confluent_one k : forall n n1 f,
  nsteps net_step k n f -> quiet f -> net_step n n1 ->
  exists j, k = S j /\ nsteps net_step j n1 f.
Proof.
  induction k as [|k IH]; intros n n1 f Hk Hq Hs.
  - apply nsteps_0 in Hk as ->. destruct Hq as [Ha Hb]. destruct Hs; congruence.
  - exists k. split; [reflexivity|]. apply nsteps_inv_l in Hk as (m & Hm & Hk).
    destruct (net_diamond _ _ _ Hm Hs) as [->|(n3 & H3 & H3')]; [exact Hk|].
    destruct (IH _ _ _ Hk Hq H3) as (j & -> & Hj). econstructor; eauto.
Qed.

Lemma net_confluent j : forall k n n1 f,
  nsteps net_step k n f -> quiet f -> nsteps net_step j n n1 ->
  (j <= k)%nat /\ nsteps net_step (k - j) n1 f.
Proof.
  induction j as [|j IH]; intros k n n1 f Hk Hq Hj.
  - apply nsteps_0 in Hj as ->. rewrite Nat.sub_0_r. split; [lia | exact Hk].
  - apply nsteps_inv_l in Hj as (m & Hm & Hj).
    destruct (net_confluent_one _ _ _ _ Hk Hq Hm) as (k' & -> & Hk').
    destruct (IH _ _ _ _ Hk' Hq Hj) as [Hle Hn]. split; [lia | exact Hn].
Qed.

End Net.
Arguments Net : clear implicits.
Arguments MkNet {RA RB}.

(** ** Runs of one end that do not need its peer's end *)

Inductive lrun {R} : proto_prog R -> frames -> Local -> proto_prog R -> frames -> frames ->
  Local -> Prop :=
  | lrun_refl p inn l : lrun p inn l p inn [] l
  | lrun_step p inn l p1 inn1 out1 l1 p2 inn2 out2 l2 :
      local_step p inn false l = Some (p1, inn1, out1, l1) ->
      lrun p1 inn1 l1 p2 inn2 out2 l2 ->
      lrun p inn l p2 inn2 (out1 ++ out2) l2.

Lemma lrun_trans {R} (p : proto_prog R) inn l p1 inn1 out1 l1 p2 inn2 out2 l2 :
  lrun p inn l p1 inn1 out1 l1 -> lrun p1 inn1 l1 p2 inn2 out2 l2 ->
  lrun p inn l p2 inn2 (out1 ++ out2) l2.
Proof.
  induction 1; [auto|]. intros Hr. rewrite <- app_assoc. econstructor; eauto.
Qed.

Lemma lrun_bind {R T} (K : R -> proto_act T) (p : proto_act R) inn l p' inn' out l' :
  lrun p inn l p' inn' out l' ->
  lrun (act_bind p K) inn l (act_bind p' K) inn' out l'.
Proof.
  induction 1 as [|p inn l p1 inn1 out1 l1 p2 inn2 out2 l2 Hs _ IH]; [constructor|].
  econstructor; [|exact IH]. destruct p as [r|c k]; [discriminate|].
  destruct c; cbn in *; repeat case_match; simplify_eq; reflexivity.
Qed.

(** Programs around a part that may take its steps. *)
Definition context {R T} (C : proto_act R -> proto_prog T) : Prop :=
  forall p inn l p' inn' out l',
    lrun p inn l p' inn' out l' -> lrun (C p) inn l (C p') inn' out l'.

Lemma context_bind {R T} (K : R -> proto_act T) : context (fun p => act_bind p K).
Proof. unfold context. apply lrun_bind. Qed.

Lemma context_comp {R S T} (C : proto_act S -> proto_prog T) (D : proto_act R -> proto_act S) :
  context C -> context D -> context (fun p => C (D p)).
Proof. unfold context. auto. Qed.

(** One part of a program after another. *)
Lemma lrun_seq {R T} (K : R -> proto_act T) (p : proto_act R) inn l r inn1 out1 l1
  p2 inn2 out2 l2 :
  lrun p inn l (done r) inn1 out1 l1 -> lrun (K r) inn1 l1 p2 inn2 out2 l2 ->
  lrun (act_bind p K) inn l p2 inn2 (out1 ++ out2) l2.
Proof.
  intros Hp HK. eapply lrun_trans; [apply lrun_bind, Hp | exact HK].
Qed.

(** The same, where the first part sends nothing. *)
Lemma lrun_then {R T} (K : R -> proto_act T) (p : proto_act R) inn l r inn1 l1
  p2 inn2 out2 l2 :
  lrun p inn l (done r) inn1 [] l1 -> lrun (K r) inn1 l1 p2 inn2 out2 l2 ->
  lrun (act_bind p K) inn l p2 inn2 out2 l2.
Proof. apply (lrun_seq K p inn l r inn1 []). Qed.

Lemma lrun_one {R} (p : proto_prog R) inn l p1 inn1 out1 l1 :
  local_step p inn false l = Some (p1, inn1, out1, l1) -> lrun p inn l p1 inn1 out1 l1.
Proof.
  intros Hs. rewrite <- (app_nil_r out1). eapply lrun_step; [exact Hs | constructor].
Qed.

Definition open_end (l : Local) : Prop := lo_shut l = false.

(** A message that reaches an end of role [role] as frame [w]. *)
Definition carries (w : list byte) (m : Message) (role : Role) : Prop :=
  encode m = Ok w /\ decode role w = Ok m.

Lemma lrun_send m w role inn l :
  open_end l -> carries w m role -> lrun (send_msg m) inn l (done (Ok tt)) inn [w] l.
Proof.
  intros Ho [He _]. unfold send_msg. rewrite He. apply lrun_one. cbn.
  rewrite Ho. reflexivity.
Qed.

Lemma lrun_sends ms : forall ws role inn l,
  open_end l -> Forall2 (fun w m => carries w m role) ws ms ->
  lrun (send_msgs ms) inn l (done (Ok tt)) inn ws l.
Proof.
  induction ms as [|m ms IH]; intros ws role inn l Ho Hc; inversion Hc; subst; cbn [send_msgs].
  - constructor.
  - change (x :: l0) with ([x] ++ l0). eapply lrun_seq; [eapply lrun_send; eauto|]. cbn.
    eapply IH; eauto.
Qed.

Lemma lrun_recv m w role inn l :
  carries w m role -> lrun (recv_msg role) (w :: inn) l (done (Ok m)) inn [] l.
Proof.
  intros [_ Hd]. apply lrun_one. cbn. rewrite Hd. reflexivity.
Qed.

Lemma carries_ok m role :
  wf_message m -> len_ok m -> direction_rejected (msg_type m) role = false ->
  exists w, carries w m role.
Proof.
  intros Hw Hl Hd. pose proof (deliver_ok role m Hw Hl Hd) as Hok. unfold deliver in Hok.
  apply result_bind_ok in Hok as (w & He & Hde). exists w. split; auto.
Qed.

(** A run of one end is a run of the network. *)
Lemma net_run_a {RA RB} (pa pa' : proto_prog RA) (pb : proto_prog RB) l l' m inn inn' out q :
  lrun pa inn l pa' inn' out l' ->
  rtc net_step (MkNet pa pb l m q inn) (MkNet pa' pb l' m (q ++ out) inn').
Proof.
  intros Hr. revert q. induction Hr as [|p inn l p1 inn1 out1 l1 p2 inn2 out2 l2 Hs _ IH];
    intros q; [rewrite app_nil_r; reflexivity|].
  rewrite app_assoc. eapply rtc_l; [left | apply IH].
  unfold step_a. cbn.
  pose proof (local_step_more _ _ _ _ _ _ _ _ [] (finished pb m) Hs ltac:(discriminate)) as E.
  rewrite !app_nil_r in E. rewrite E. reflexivity.
Qed.

Lemma net_run_b {RA RB} (pa : proto_prog RA) (pb pb' : proto_prog RB) l l' m inn inn' out q :
  lrun pb inn l pb' inn' out l' ->
  rtc net_step (MkNet pa pb m l inn q) (MkNet pa pb' m l' inn' (q ++ out)).
Proof.
  intros Hr. revert q. induction Hr as [|p inn l p1 inn1 out1 l1 p2 inn2 out2 l2 Hs _ IH];
    intros q; [rewrite app_nil_r; reflexivity|].
  rewrite app_assoc. eapply rtc_l; [right | apply IH].
  unfold step_b. cbn.
  pose proof (local_step_more _ _ _ _ _ _ _ _ [] (finished pa m) Hs ltac:(discriminate)) as E.
  rewrite !app_nil_r in E. rewrite E. reflexivity.
Qed.

(** ** The handshake *)

Section Handshake.
Context `{Aead} {IC IS : Type} `{SegmentIssuer IC} `{SegmentIssuer IS}
  `{PointerState IC} `{PointerState IS}.

Definition nonce_only (n : Nonce) (typed : list (list byte)) : Local :=
  MkLocal [n] typed [] false.

Definition fresh (typed : list (list byte)) : Local := MkLocal [] typed [] false.

(** What two honest allocators of one book need to meet on a segment. *)
Record meet (ic ic1 : IC) (isv is1 : IS) (ep : Endpoint) (seg : CommittedSegment) : Prop := {
  mt_book : wf_book_id (ep_book_id ep);
  mt_count : is_u64 (ep_segment_count ep);
  mt_client : is_u64 (fst (pointer_state ic));
  mt_server : is_u64 (fst (pointer_state isv));
  mt_order : fst (pointer_state ic) <= fst (pointer_state isv) < ep_segment_count ep;
  mt_issues : exists ic0,
    burn_gap ic (Z.to_nat (fst (pointer_state isv) - fst (pointer_state ic))) =
      (ic0, Some (Ok tt)) /\ issuer_issue ic0 = (ic1, Some (Ok seg));
  mt_serves : issuer_issue isv = (is1, Some (Ok seg));
}.

(** The frames of the handshake, and its five legs as runs of one end.  [ic] is the
    client's issuer, [isv] the server's; the server's pointer [sp] is agreed on. *)
Section Legs.
Context (ic ic1 : IC) (isv is1 : IS) (ep : Endpoint) (seg : CommittedSegment) (rc rs : Nonce).
Context (dc ds : Z) (typed : list (list byte)).
#[local] Notation cp := (fst (pointer_state ic)).
#[local] Notation sp := (fst (pointer_state isv)).
#[local] Notation cc := (local_config ic ep).
#[local] Notation cs := (local_config isv ep).
Hypothesis Hmeet : meet ic ic1 isv is1 ep seg.

Record carried (c1 c2 : ConfirmFields) (w1 w2 w3 w4 w5 : list byte) : Prop := {
  cr_hello : carries w1 (Hello (ep_book_id ep) rc cp 0) Server;
  cr_arbitrate : carries w2 (Arbitrate rs sp (agree_result cp sp)) Client;
  cr_request : carries w3 (IssueRequest sp rc rs) Server;
  cr_c2s : carries w4 (ConfirmC2s c1) Server;
  cr_s2c : carries w5 (ConfirmS2c c2) Client;
}.

Lemma frames_carried c1 c2 :
  wf_nonce16 rc -> wf_nonce16 rs -> wf_confirm c1 -> wf_confirm c2 ->
  exists w1 w2 w3 w4 w5, carried c1 c2 w1 w2 w3 w4 w5.
Proof using Hmeet.
  intros Hrc Hrs W1 W2. destruct Hmeet as [Hb Hn Hcp Hsp Hord _ _].
  destruct (carries_ok (Hello (ep_book_id ep) rc cp 0) Server) as [w1 ?];
    [simpl; split_and!; auto; ulia | reflexivity..|].
  destruct (carries_ok (Arbitrate rs sp (agree_result cp sp)) Client) as [w2 ?];
    [simpl; auto | unfold agree_result; destruct (_ <? _); reflexivity | reflexivity |].
  destruct (carries_ok (IssueRequest sp rc rs) Server) as [w3 ?]; [simpl; auto | reflexivity..|].
  destruct (carries_ok (ConfirmC2s c1) Server) as [w4 ?]; [simpl; auto | reflexivity..|].
  destruct (carries_ok (ConfirmS2c c2) Client) as [w5 ?]; [simpl; auto | reflexivity..|].
  exists w1, w2, w3, w4, w5. split; assumption.
Qed.

Definition hello_sent : ClientHandshake := MkClient cc CpHelloSent (Some rc) None None None None.
Definition issue_wait : ServerHandshake :=
  MkServer cs SpIssueWait (Some rc) (Some rs) (Some sp) None.
Definition confirm_sent (a1 : Session) : ClientHandshake :=
  MkClient cc CpConfirmSent (Some rc) (Some rs) (Some sp) (Some a1) (agree_gap cp sp).

Context {c1 c2 : ConfirmFields} {w1 w2 w3 w4 w5 : list byte}.
Hypothesis Hcar : carried c1 c2 w1 w2 w3 w4 w5.

Lemma leg_hello :
  lrun (client_handshake ic ep dc) [] (nonce_only rc typed)
    (client_arbitrate ic hello_sent) [] [w1] (fresh typed).
Proof using Hcar.
  unfold client_handshake.
  apply (lrun_seq _ _ _ _ (Ok tt) [] [] (nonce_only rc typed)); [apply lrun_one; reflexivity|].
  change (client_new (local_config ic ep)) with
    (Ok (E := HandshakeError) (MkClient cc CpIdle None None None None None)).
  apply (lrun_seq _ _ _ _ (Some rc) [] [] (fresh typed)); [apply lrun_one; reflexivity|].
  change (client_start _ _) with
    (hello_sent, Ok (E := HandshakeError) (Hello (ep_book_id ep) rc cp 0)).
  apply (lrun_seq _ _ _ _ (Ok tt) [] [w1] (fresh typed)); [|constructor].
  eapply lrun_send; [reflexivity | apply Hcar].
Qed.

Lemma leg_arbitrate :
  lrun (server_handshake isv ep ds) [w1] (nonce_only rs [])
    (server_issue isv issue_wait) [] [w2] (fresh []).
Proof using Hcar Hmeet.
  pose proof (mt_order _ _ _ _ _ _ Hmeet) as Hord. unfold server_handshake.
  apply (lrun_seq _ _ _ _ (Ok tt) [w1] [] (nonce_only rs [])); [apply lrun_one; reflexivity|].
  change (server_new (local_config isv ep)) with
    (Ok (E := HandshakeError) (MkServer cs SpIdle None None None None)).
  unfold server_hello. eapply lrun_then; [apply lrun_recv, Hcar|].
  apply (lrun_seq _ _ _ _ (Some rs) [] [] (fresh [])); [apply lrun_one; reflexivity|].
  change (ep_book_id ep) with (hc_book_id cs). rewrite hello_agrees by exact Hord.
  apply (lrun_seq _ _ _ _ (Ok tt) [] [w2] (fresh [])).
  - eapply lrun_send; [reflexivity | apply Hcar].
  - cbn [arbitrate_terminal]. unfold agree_result. destruct (_ <? _); constructor.
Qed.

Context {a1 a2 b1 b2 : Session}.
#[local] Notation opened role :=
  (session_new (bridge_segment seg) (MkCtx role (ep_book_id ep) sp rc rs)).

Lemma leg_confirm_c2s :
  seal_confirm (opened Client) (ep_book_id ep) sp rc rs ClientToServer =
    (a1, Some (Ok (ConfirmC2s c1))) ->
  lrun (client_arbitrate ic hello_sent) [w2] (fresh typed)
    (client_confirm ic1 (confirm_sent a1)) [] [w3; w4] (fresh typed).
Proof using Hcar Hmeet.
  intros E. destruct Hmeet as [_ _ _ _ Hord (ic0 & Hgap & Hic) _].
  unfold client_arbitrate. eapply lrun_then; [apply lrun_recv, Hcar|].
  cbv beta iota. unfold hello_sent.
  pose proof (arbitrate_confirms cc sp ic ic0 ic1 rc rs seg a1 c1 (proj1 Hord) Hgap Hic E) as Ha.
  change (hc_local_pointer cc) with cp in Ha. rewrite Ha.
  apply (lrun_seq _ _ _ _ (Ok tt) [] [w3; w4] (fresh typed)); [|constructor].
  eapply lrun_sends; [reflexivity|]. repeat constructor; apply Hcar.
Qed.

Lemma leg_confirm_s2c :
  verify_peer_confirm (opened Server) c1 (ep_book_id ep) sp rc rs ClientToServer =
    (b1, Some (Ok tt)) ->
  seal_confirm b1 (ep_book_id ep) sp rc rs ServerToClient = (b2, Some (Ok (ConfirmS2c c2))) ->
  lrun (server_issue isv issue_wait) [w3; w4] (fresh [])
    (done (established is1 b2 sp)) [] [w5] (fresh []).
Proof using Hcar Hmeet.
  intros E2 E3. pose proof (mt_serves _ _ _ _ _ _ Hmeet) as His.
  unfold server_issue. eapply lrun_then; [apply lrun_recv, Hcar|].
  cbv beta iota. unfold issue_wait. rewrite (issue_accepts cs sp isv is1 rc rs seg His).
  unfold server_confirm. eapply lrun_then; [apply lrun_recv, Hcar|].
  cbv beta iota. rewrite (confirm_establishes cs sp rc rs _ b1 b2 c1 (ConfirmS2c c2) E2 E3).
  apply (lrun_seq _ _ _ _ (Ok tt) [] [w5] (fresh [])); [|constructor].
  eapply lrun_sends; [reflexivity|]. repeat constructor; apply Hcar.
Qed.

Lemma leg_established :
  verify_peer_confirm a1 c2 (ep_book_id ep) sp rc rs ServerToClient = (a2, Some (Ok tt)) ->
  lrun (client_confirm ic1 (confirm_sent a1)) [w5] (fresh typed)
    (done (established ic1 a2 sp)) [] [] (fresh typed).
Proof using Hcar.
  intros E4. unfold client_confirm. eapply lrun_then; [apply lrun_recv, Hcar|].
  cbv beta iota. unfold confirm_sent. rewrite (confirm_s2c_establishes cc sp ic1 rc rs a1 a2 c2 _ E4).
  constructor.
Qed.

End Legs.

Lemma handshake_runs {TA TB} ic ic1 isv is1 ep seg (rc rs : Nonce) dc ds ta
  (KA : IC * result (Session * SessionInfo) SessionFailure -> proto_act TA)
  (KB : IS * result (Session * SessionInfo) SessionFailure -> proto_act TB) :
  (forall k n a p, aead_encrypt k n a p <> None) ->
  wf_nonce16 rc -> wf_nonce16 rs -> meet ic ic1 isv is1 ep seg ->
  exists sc ss,
    rtc net_step
      (MkNet (act_bind (client_handshake ic ep dc) KA)
         (act_bind (server_handshake isv ep ds) KB) (nonce_only rc ta) (nonce_only rs []) [] [])
      (MkNet (KA (established ic1 sc (fst (pointer_state isv))))
         (KB (established is1 ss (fst (pointer_state isv)))) (fresh ta) (fresh []) [] []) /\
    linked sc ss /\ linked ss sc /\
    ss_terminated sc = None /\ ss_terminated ss = None /\
    next_send_sequence sc = 1 /\ next_send_sequence ss = 1 /\
    ss_keys sc <> None /\ ss_keys ss <> None.
Proof.
  intros Henc Hrc Hrs Hm. pose proof Hm as [Hb _ _ Hsp _ _ _].
  destruct (confirms_exchange (ep_book_id ep) (fst (pointer_state isv)) rc rs (bridge_segment seg)
    Henc Hb Hsp Hrc Hrs) as (a1 & c1 & b1 & b2 & c2 & a2 & E1 & W1 & E2 & E3 & W2 & E4 & Hends).
  destruct (frames_carried _ _ _ _ _ _ _ _ Hm _ _ Hrc Hrs W1 W2) as (w1 & w2 & w3 & w4 & w5 & Hcar).
  exists a2, b2. split; [|exact Hends].
  etransitivity; [eapply net_run_a, lrun_bind, (leg_hello _ _ _ _ _ dc ta Hcar)|].
  etransitivity; [eapply net_run_b, lrun_bind, (leg_arbitrate _ _ _ _ _ _ _ _ ds Hm Hcar)|].
  etransitivity; [eapply net_run_a, lrun_bind, (leg_confirm_c2s _ _ _ _ _ _ _ _ ta Hm Hcar E1)|].
  etransitivity; [eapply net_run_b, lrun_bind, (leg_confirm_s2c _ _ _ _ _ _ _ _ Hm Hcar E2 E3)|].
  etransitivity; [eapply net_run_a, lrun_bind, (leg_established _ _ _ _ _ _ ta Hcar E4)|].
  reflexivity.
Qed.

End Handshake.

(** ** The echo *)

Section EchoRuns.
Context `{Aead}.

(** Two ends of one live session, past their confirmations. *)
Record paired (a b : Session) : Prop := {
  pd_ab : linked a b;
  pd_ba : linked b a;
  pd_a : ss_terminated a = None;
  pd_b : ss_terminated b = None;
  pd_keys : ss_keys a <> None;
  pd_next_a : 1 <= next_send_sequence a;
  pd_next_b : 1 <= next_send_sequence b;
}.

Lemma paired_sym a b : paired a b -> paired b a.
Proof.
  intros []. split; auto. destruct pd_ab0 as (_ & _ & _ & _ & _ & _ & Hl).
  destruct (Hl pd_a0) as (_ & -> & _). exact pd_keys0.
Qed.

(** A link is about what its first end sends. *)
Lemma linked_quiet a b a' b' :
  linked b a -> ss_ctx a' = ss_ctx a -> ss_ctx b' = ss_ctx b ->
  ss_domain a' = ss_domain a -> ss_domain b' = ss_domain b ->
  ss_keys a' = ss_keys a -> ss_keys b' = ss_keys b ->
  ss_terminated a' = ss_terminated a -> ss_terminated b' = ss_terminated b ->
  ss_send_seq b' = ss_send_seq b -> ss_recv_last a' = ss_recv_last a ->
  linked b' a'.
Proof.
  unfold linked, expected_seq, recv_dir, send_dir, session_role.
  intros Hl -> -> -> -> -> -> -> -> -> ->. exact Hl.
Qed.

(** What one end of a pair seals as data, its peer opens; the frame fits. *)
Lemma paired_data a b plain :
  (forall k n a p, aead_encrypt k n a p <> None) ->
  paired a b -> next_send_sequence a < U64_MAX ->
  Z.of_nat (length plain) <= MAX_DATA_PLAINTEXT ->
  exists a' b' rc w,
    seal_record a DataRecord plain = (a', Some (Ok rc)) /\
    open_record b DataRecord (rc_sequence rc) (rc_sealed rc) = (b', Some (Ok plain)) /\
    paired a' b' /\ next_send_sequence a' = next_send_sequence a + 1 /\
    next_send_sequence b' = next_send_sequence b /\
    forall role, carries w (Data 0 (rc_sequence rc) (rc_sealed rc)) role.
Proof.
  intros Henc [Lab Lba Ta Tb Ka Na Nb] Hmax Hlen.
  destruct (ss_keys a) as [k|] eqn:Ek; [|congruence].
  set (seq := next_send_sequence a) in *.
  assert (exists a' rc, seal_record a DataRecord plain = (a', Some (Ok rc))) as (a' & rc & Es).
  { unfold seal_record, ensure_active, aead_material. rewrite Ta, Ek.
    fold (send_dir a). change (at_dir (ss_send_seq a) (send_dir a)) with seq.
    assert (pairing_valid DataRecord (send_dir a) = true) as -> by (destruct (send_dir a); reflexivity).
    assert (seq_discipline_ok DataRecord seq = true) as -> by (apply Z.leb_le; exact Na).
    cbn [negb]. destruct (aead_encrypt _ _ _ plain) as [[ct tag]|] eqn:Ee; [eauto|].
    destruct (Henc _ _ _ _ Ee). }
  destruct (linked_seal _ _ _ _ _ _ Lab Es) as (b' & Eo & Lab').
  pose proof (seal_ok _ _ _ _ _ Es) as (k' & ct & tag & _ & _ & _ & Hr & _ & He & Hsl & Ha').
  apply open_ok in Eo as Eo'. destruct Eo' as [_ Hb'].
  change (at_dir (ss_send_seq a) (send_dir a)) with seq in Hr.
  rewrite Hr in Ha'.
  assert (Hn : sequence_next seq = Some (seq + 1)) by (apply sequence_next_some; lia).
  rewrite Hn in Ha'.
  assert (Hna : next_send_sequence a' = seq + 1).
  { subst a'. unfold next_send_sequence. cbn [set_send_seq ss_send_seq session_role ss_ctx].
    apply at_put_dir. }
  assert (Hnb : next_send_sequence b' = next_send_sequence b) by (subst b'; reflexivity).
  assert (Hw : exists w, forall role, carries w (Data 0 (rc_sequence rc) (rc_sealed rc)) role).
  { destruct (aead_lengths _ _ _ _ _ _ He) as [Hct Htag].
    assert (Hl : length (rc_sealed rc) = (length plain + 16)%nat)
      by (rewrite Hsl, length_app, Hct, Htag; reflexivity).
    unfold MAX_DATA_PLAINTEXT, MAX_APP_PLAINTEXT in Hlen.
    assert (Hwf : wf_message (Data 0 (rc_sequence rc) (rc_sealed rc)))
      by (simpl; split_and!; ulia).
    assert (Hok : len_ok (Data 0 (rc_sequence rc) (rc_sealed rc)))
      by (unfold len_ok; cbn [encode_precheck];
          rewrite (proj2 (in_data_range_spec _))
            by (unfold MAX_DATA_FIELD, MIN_DATA_FIELD; lia); reflexivity).
    destruct (carries_ok _ Client Hwf Hok eq_refl) as [w [He1 Hd1]].
    exists w. intros role. destruct (carries_ok _ role Hwf Hok) as [w' [He2 Hd2]];
      [destruct role; reflexivity|]. split; [exact He1|]. congruence. }
  destruct Hw as [w Hw]. exists a', b', rc, w. split_and!; auto.
  split; [exact Lab' | | subst a'; exact Ta | subst b'; exact Tb | | lia | lia].
  - subst a' b'. apply (linked_quiet a b); auto.
  - subst a'. cbn. congruence.
Qed.

Lemma read_input_chunk n c rest :
  (length c <= n)%nat -> read_input n (c :: rest) = (c, rest).
Proof. intros Hl. cbn. rewrite (proj2 (Nat.leb_le _ _) Hl). reflexivity. Qed.

Lemma lrun_send_data a a' plain rc w inn l :
  open_end l -> seal_record a DataRecord plain = (a', Some (Ok rc)) ->
  carries w (Data 0 (rc_sequence rc) (rc_sealed rc)) Server ->
  lrun (send_data a plain) inn l (done (a', Ok tt)) inn [w] l.
Proof.
  intros Ho Es Hw. unfold send_data. rewrite Es. change [w] with ([w] ++ @nil (list byte)).
  eapply lrun_seq; [eapply lrun_send; eauto | constructor].
Qed.

Lemma open_data_ok b b' rc plain :
  open_record b DataRecord (rc_sequence rc) (rc_sealed rc) = (b', Some (Ok plain)) ->
  open_data b (Data 0 (rc_sequence rc) (rc_sealed rc)) = (b', Some (Ok plain)).
Proof. intros Eo. cbn [open_data]. rewrite Eo. reflexivity. Qed.

(** The client's side of a round trip while it waits for the echo. *)
Definition await_echo (s : Session) : proto_act (Session * result (list byte) SessionFailure) :=
  let* r := recv_msg Client in
  match r with
  | Err e => done (s, Err e)
  | Ok echo =>
      match open_data s echo with
      | (_, None) => Ret Panicked
      | (s, Some r) => done (s, r)
      end
  end.

Definition after_echo (fuel : nat) (sent : Z) (chunk : list byte)
  (r : Session * result (list byte) SessionFailure) :
  proto_act (Session * result Z SessionFailure) :=
  let '(s, r) := r in
  match r with
  | Err e => done (s, Err e)
  | Ok echoed =>
      let* ok := proto_ask (PcOutput echoed) in
      if ok then echo_input fuel s (add_bytes sent chunk) else done (s, Err platform_io)
  end.

(** One chunk, there and back. *)
Lemma echo_one {TA TB} fa fb a b sent bytes out chunk rest (CA : _ -> proto_prog TA)
  (CB : _ -> proto_prog TB) :
  context CA -> context CB ->
  (forall k n a p, aead_encrypt k n a p <> None) ->
  paired a b -> next_send_sequence a < U64_MAX -> next_send_sequence b < U64_MAX ->
  chunk <> [] -> Z.of_nat (length chunk) <= MAX_DATA_PLAINTEXT ->
  exists a' b',
    rtc net_step
      (MkNet (CA (echo_input (S fa) a sent))
         (CB (server_echo_loop (S fb) b bytes))
         (MkLocal [] (chunk :: rest) out false) (fresh []) [] [])
      (MkNet (CA (echo_input fa a' (add_bytes sent chunk)))
         (CB (server_echo_loop fb b' (add_bytes bytes chunk)))
         (MkLocal [] rest (out ++ chunk) false) (fresh []) [] []) /\
    paired a' b' /\ next_send_sequence a' = next_send_sequence a + 1 /\
    next_send_sequence b' = next_send_sequence b + 1.
Proof.
  intros HCA HCB Henc Hp Hna Hnb Hne Hlen.
  destruct (paired_data a b chunk Henc Hp Hna Hlen)
    as (a1 & b1 & rc & w & Es & Eo & Hp1 & Na1 & Nb1 & Hw).
  destruct (paired_data b1 a1 chunk Henc (paired_sym _ _ Hp1) ltac:(lia) Hlen)
    as (b2 & a2 & rc' & w' & Es' & Eo' & Hp2 & Nb2 & Na2 & Hw').
  exists a2, b2. split; [|split; [apply paired_sym, Hp2 | lia]].
  etransitivity.
  { apply (net_run_a _ (CA (act_bind (await_echo a1) (after_echo fa sent chunk)))), HCA. cbn [echo_input].
    eapply lrun_seq.
    { apply lrun_one. cbn [local_step proto_ask ask lo_input].
      rewrite read_input_chunk by (unfold MAX_DATA_PLAINTEXT in *; lia). reflexivity. }
    destruct chunk as [|c chunk]; [congruence|]. cbv beta iota.
    change (act_bind (client_roundtrip a (c :: chunk)) _) with
      (act_bind (client_roundtrip a (c :: chunk)) (after_echo fa sent (c :: chunk))).
    apply lrun_bind. unfold client_roundtrip.
    eapply lrun_seq; [eapply lrun_send_data; eauto; reflexivity|].
    constructor. }
  etransitivity.
  { apply (net_run_b _ _ (CB (server_echo_loop fb b2 (add_bytes bytes chunk)))), HCB. cbn [app server_echo_loop].
    eapply lrun_seq; [apply lrun_one; reflexivity|]. cbv beta iota.
    rewrite (proj2 (Hw Server)), (open_data_ok _ _ _ _ Eo).
    eapply lrun_seq; [eapply lrun_send_data; eauto; reflexivity|].
    constructor. }
  etransitivity.
  { apply (net_run_a _ (CA (echo_input fa a2 (add_bytes sent chunk)))), HCA.
    cbn [app]. apply (lrun_seq (after_echo fa sent chunk) _ _ _ (a2, Ok chunk) [] []
      (MkLocal [] rest out false)).
    - unfold await_echo. eapply lrun_then; [apply lrun_recv, Hw'|].
      cbv beta iota. rewrite (open_data_ok _ _ _ _ Eo'). constructor.
    - cbn [after_echo]. eapply lrun_seq; [apply lrun_one; reflexivity|]. constructor. }
  reflexivity.
Qed.

Lemma echo_many {TA TB} fa fb chunks : forall a b sent bytes out
  (CA : _ -> proto_prog TA) (CB : _ -> proto_prog TB),
  context CA -> context CB ->
  (forall k n a p, aead_encrypt k n a p <> None) ->
  paired a b ->
  next_send_sequence a + Z.of_nat (length chunks) <= U64_MAX ->
  next_send_sequence b + Z.of_nat (length chunks) <= U64_MAX ->
  Forall (fun c => c <> [] /\ Z.of_nat (length c) <= MAX_DATA_PLAINTEXT) chunks ->
  exists a' b',
    rtc net_step
      (MkNet (CA (echo_input (length chunks + fa) a sent))
         (CB (server_echo_loop (length chunks + fb) b bytes))
         (MkLocal [] chunks out false) (fresh []) [] [])
      (MkNet (CA (echo_input fa a' (fold_left add_bytes chunks sent)))
         (CB (server_echo_loop fb b' (fold_left add_bytes chunks bytes)))
         (MkLocal [] [] (out ++ concat chunks) false) (fresh []) [] []) /\
    paired a' b'.
Proof.
  induction chunks as [|c chunks IH]; intros a b sent bytes out CA CB HCA HCB Henc Hp Ha Hb Hc.
  { exists a, b. cbn. rewrite app_nil_r. split; [reflexivity | exact Hp]. }
  apply Forall_cons_iff in Hc as [[Hne Hl] Hc]. cbn [length] in Ha, Hb.
  destruct (echo_one (length chunks + fa) (length chunks + fb) a b sent bytes out c chunks
    CA CB HCA HCB Henc Hp ltac:(lia) ltac:(lia) Hne Hl) as (a1 & b1 & Hs & Hp1 & Na & Nb).
  destruct (IH a1 b1 (add_bytes sent c) (add_bytes bytes c) (out ++ c) CA CB HCA HCB Henc Hp1)
    as (a2 & b2 & Hs2 & Hp2); [lia | lia | exact Hc |].
  exists a2, b2. split; [|exact Hp2]. cbn [length Nat.add fold_left concat].
  rewrite app_assoc. etransitivity; [exact Hs | exact Hs2].
Qed.

Lemma fold_add_bytes chunks : forall n,
  0 <= n -> n + Z.of_nat (length (concat chunks)) <= U64_MAX ->
  fold_left add_bytes chunks n = n + Z.of_nat (length (concat chunks)).
Proof.
  induction chunks as [|c chunks IH]; intros n Hn Hl; cbn [fold_left concat] in *; [cbn; lia|].
  rewrite length_app in *. rewrite IH; unfold add_bytes in *; lia.
Qed.

Lemma chunks_fewer (chunks : list (list byte)) :
  Forall (fun c => c <> [] /\ Z.of_nat (length c) <= MAX_DATA_PLAINTEXT) chunks ->
  (length chunks <= length (concat chunks))%nat.
Proof.
  induction 1 as [|c chunks [Hne _] _ IH]; cbn; [lia|]. rewrite length_app.
  destruct c; [congruence | cbn; lia].
Qed.

End EchoRuns.

(** ** A whole session *)

Section Session.
Context `{Aead} {IC IS : Type} `{SegmentIssuer IC} `{SegmentIssuer IS}
  `{PointerState IC} `{PointerState IS}.

(** The handshake and the data plane of each end. *)
Definition session_client (alloc : IC) (ep : Endpoint) (deadline : Z) (fuel : nat) :
  proto_act (result Z SessionFailure) :=
  let* r := client_handshake alloc ep deadline in
  match r.2 with
  | Err e => done (Err e)
  | Ok (s, _) => let* r := client_stdio_pump fuel s in done r.2
  end.

Definition session_server (alloc : IS) (ep : Endpoint) (deadline : Z) (fuel : nat) :
  proto_act (result Z SessionFailure) :=
  let* r := server_handshake alloc ep deadline in
  match r.2 with
  | Err e => done (Err e)
  | Ok (s, _) => let* r := server_echo_loop fuel s 0 in done r.2
  end.

(** A session carries what is typed.  Two ends with allocators of one book that
    can meet on a segment, joined by ordered channels: whatever order they take
    their steps in, both run their handshake and their data plane to the end - no
    order of steps goes on for ever or gets stuck - and then both report success
    with the number of bytes typed, and what the client wrote is what was typed. *)
Theorem session_end_to_end ic ic1 isv is1 ep seg (rc rs : Nonce) dc ds typed fa fb :
  (forall k n a p, aead_encrypt k n a p <> None) ->
  wf_nonce16 rc -> wf_nonce16 rs -> meet ic ic1 isv is1 ep seg ->
  Forall (fun c => c <> [] /\ Z.of_nat (length c) <= MAX_DATA_PLAINTEXT) typed ->
  Z.of_nat (length (concat typed)) < U64_MAX ->
  (length typed < fa)%nat -> (length typed < fb)%nat ->
  let start := MkNet (session_client ic ep dc fa) (session_server isv ep ds fb)
                 (nonce_only rc typed) (nonce_only rs []) [] [] in
  let total := Z.of_nat (length (concat typed)) in
  exists k last,
    nsteps net_step k start last /\
    na last = done (Ok total) /\ nb last = done (Ok total) /\
    lo_output (la last) = concat typed /\
    forall j n, nsteps net_step j start n ->
      (j <= k)%nat /\ nsteps net_step (k - j) n last.
Proof.
  intros Henc Hrc Hrs Hmeet Htyped Hsmall Hfa Hfb start total.
  set (last := MkNet (done (Ok total)) (done (Ok total))
    (MkLocal [] [] (concat typed) true) (fresh []) [] []
    : Net (outcome (result Z SessionFailure)) (outcome (result Z SessionFailure))).
  assert (Hrun : rtc net_step start last).
  2: { apply rtc_nsteps in Hrun as [k Hk]. exists k, last. split_and!; auto.
    intros j n Hj. apply (net_confluent j k start n last Hk); [split; reflexivity | exact Hj]. }
  unfold start, session_client, session_server.
  destruct (handshake_runs ic ic1 isv is1 ep seg rc rs dc ds typed
    (fun r => match r.2 with
      | Err e => done (Err e)
      | Ok (s, _) => let* r := client_stdio_pump fa s in done r.2 end)
    (fun r => match r.2 with
      | Err e => done (Err e)
      | Ok (s, _) => let* r := server_echo_loop fb s 0 in done r.2 end)
    Henc Hrc Hrs Hmeet) as (sc & ss & Hs & Lab & Lba & Ta & Tb & Na & Nb & Ka & _).
  etransitivity; [exact Hs|]. cbn [established snd]. unfold client_stdio_pump.
  replace fa with (length typed + S (fa - length typed - 1))%nat at 1 by lia.
  replace fb with (length typed + S (fb - length typed - 1))%nat by lia.
  pose proof (chunks_fewer typed Htyped) as Hfew.
  match goal with
  | |- rtc _ (MkNet (act_bind (act_bind _ ?G) ?K) (act_bind _ ?K') _ _ _ _) _ =>
      destruct (echo_many (S (fa - length typed - 1)) (S (fb - length typed - 1)) typed
        sc ss 0 0 [] (fun p => act_bind (act_bind p G) K) (fun p => act_bind p K')
        (context_comp _ _ (context_bind _) (context_bind _)) (context_bind _) Henc)
        as (a & b & Hm & _)
  end; [split; auto; rewrite ?Na, ?Nb; lia | rewrite Na; ulia | rewrite Nb; ulia
    | exact Htyped |].
  etransitivity; [exact Hm|]. rewrite !fold_add_bytes by lia. cbn [app Z.add]. fold total.
  etransitivity.
  { apply net_run_a. apply lrun_bind. eapply lrun_then.
    - cbn [echo_input]. eapply lrun_then; [apply lrun_one; reflexivity|]. constructor.
    - cbv beta iota. eapply lrun_then; [apply lrun_one; reflexivity|].
      cbv beta iota. constructor. }
  destruct fa as [|fa']; [lia|].
  eapply rtc_l; [right; reflexivity|]. eapply rtc_l; [left; reflexivity|].
  reflexivity.
Qed.

End Session.

(** ** Witness: one concrete session *)

#[local] Existing Instance checksum_aead.
#[local] Existing Instance list_issuer.

(** A book of eight segments: the pointer is behind the segments left. *)
#[local] Instance list_pointer : PointerState (list CommittedSegment) :=
  {| pointer_state l := (6 - Z.of_nat (length l), 0) |}.

Definition demo_endpoint : Endpoint := MkEndpoint (zeros 16) 9.
Definition demo_typed : list (list byte) := [[Byte.x6c; Byte.x73]; [Byte.x0a]].

(** The client holds pointer 3, the server pointer 5. *)
Lemma demo_meet :
  meet (demo_stock 2) [] (demo_stock 0) [] demo_endpoint (MkSegment demo_segment).
Proof.
  split; try reflexivity; try (cbn; ulia).
  exists [MkSegment demo_segment]. split; reflexivity.
Qed.

Lemma session_end_to_end_witness :
  exists k last,
    nsteps net_step k
      (MkNet (session_client (demo_stock 2) demo_endpoint 30 3)
         (session_server (demo_stock 0) demo_endpoint 30 3)
         (nonce_only demo_rc demo_typed) (nonce_only demo_rs []) [] []) last /\
    na last = done (Ok 3) /\ nb last = done (Ok 3) /\
    lo_output (la last) = [Byte.x6c; Byte.x73; Byte.x0a].
Proof.
  destruct (session_end_to_end (demo_stock 2) [] (demo_stock 0) [] demo_endpoint
    (MkSegment demo_segment) demo_rc demo_rs 30 30 demo_typed 3 3)
    as (k & last & Hk & Ha & Hb & Hout & _);
    [discriminate | reflexivity | reflexivity | exact demo_meet
    | repeat constructor; (discriminate || cbn; ulia) | cbn; ulia | cbn; lia | cbn; lia |].
  exists k, last. split_and!; [exact Hk | exact Ha | exact Hb | exact Hout].
Defined.
