(* ===== verification/Meeting.v ===== *)
(** * Meeting: sessions over two allocators

    Two ends whose allocators work, over one book, meet on a segment: the drivers of
    [otp-cli] (proto.rs) over the allocator cores of [otp-book] (allocator.rs).  The
    anchor files are media that work as long as no call on them fails. *)

From stdpp Require Import strings relations.
From S2P Require Export ProtoSpec AnchorFileSpec.

#[local] Open Scope list_scope.
#[local] Open Scope Z_scope.

(** ** A core that works issues one segment after the other *)

Section Cores.
Context `{Sha256} {M R : Type} `{AnchorMedia M} `{SegmentReader R}.
Context (G : M -> Prop) (K : R -> Prop).

Record able (c : Core M R) : Prop := {
  ab_media : G (co_media c);
  ab_reader : K (co_reader c);
  ab_running : co_halted c = false;
  ab_next : 0 <= ar_next (co_current c);
}.

Context {n : Z} {content : Z -> list byte}.
Context (Hm : healthy_media M G) (Hr : healthy_reader R K n content) (Hn : n <= U64_MAX).

Lemma able_issue (c : Core M R) :
  able c -> ar_next (co_current c) < n -> ar_generation (co_current c) < U64_MAX ->
  exists c', issue c = (c', Some (Ok (MkSegment (content (ar_next (co_current c)))))) /\
    able c' /\ ar_next (co_current c') = ar_next (co_current c) + 1 /\
    ar_generation (co_current c') = ar_generation (co_current c) + 1.
Proof using Hm Hr Hn.
  intros [Hg Hk Hh Hp] Hlt Hgen.
  destruct (issue_healthy Hm Hr c Hg Hk) as (m & r & Hg' & Hk' & ->); [|exact Hp|].
  { split_and!; auto; [rewrite (rel_count _ _ _ _ Hr _ Hk); exact Hlt | lia]. }
  eexists. split; [reflexivity|]. split; [split; auto; cbn; lia | auto].
Qed.

Lemma able_burn k : forall c : Core M R,
  able c -> ar_next (co_current c) + Z.of_nat k <= n ->
  ar_generation (co_current c) + Z.of_nat k <= U64_MAX ->
  exists c', burn_gap c k = (c', Some (Ok tt)) /\
    able c' /\ ar_next (co_current c') = ar_next (co_current c) + Z.of_nat k /\
    ar_generation (co_current c') = ar_generation (co_current c) + Z.of_nat k.
Proof using Hm Hr Hn.
  induction k as [|k IH]; intros c Hc Hlt Hgen; cbn [burn_gap].
  - exists c. split_and!; auto; lia.
  - destruct (able_issue c Hc) as (c1 & E & Hc1 & Hn1 & Hg1); [lia..|].
    change (issuer_issue c) with (issue c). rewrite E.
    destruct (IH c1 Hc1) as (c2 & -> & Hc2 & Hn2 & Hg2); [lia..|].
    exists c2. split_and!; auto; lia.
Qed.

End Cores.

(** ** Anchor files work while their calls do *)

Definition quiet_files (m : FileMedia) : Prop :=
  dv_script (fm_a m) = [] /\ dv_script (fm_b m) = [].

Lemma media_write_quiet d bs : dv_script d = [] ->
  exists d', run_fd d (media_file_write (loop_fuel d) bs) = (d', Ok tt) /\ dv_script d' = [].
Proof.
  intros Hd. destruct d as [data older pos script]. cbn in Hd. subst script.
  unfold run_fd, media_file_write, loop_fuel. cbn -[overwrite take extend Z.to_nat].
  destruct bs as [|b bs]; cbn -[overwrite take extend Z.to_nat Z.eqb Z.leb Z.of_nat];
    [eexists; split; reflexivity|].
  rewrite (proj2 (Z.eqb_neq (Z.of_nat (S (length bs))) 0)) by lia.
  change (S (length bs)) with (length (b :: bs)). rewrite Z.leb_refl, Nat2Z.id, (drop_all (b :: bs)).
  cbn -[overwrite take extend Z.to_nat Z.of_nat]. eexists. split; reflexivity.
Qed.

Lemma quiet_files_healthy `{Sha256} : healthy_media FileMedia quiet_files.
Proof.
  split.
  - intros m c bs [Ha Hb]. cbn [media_write file_media]. unfold on_file.
    assert (Hd : dv_script (media_file m c) = []) by (destruct c; assumption).
    destruct (media_write_quiet (media_file m c) bs Hd) as (d & -> & Hd').
    eexists. split; [reflexivity|]. destruct c; split; assumption.
  - intros m c [Ha Hb]. cbn. unfold on_file, run_fd.
    destruct m as [[da oa pa sa] [db ob pb sb] cl]. cbn in Ha, Hb. subst sa sb.
    destruct c; cbn; eexists; (split; [reflexivity|]); split; reflexivity.
  - intros m p Hg. exists m. split; [reflexivity | exact Hg].
Qed.

(** ** The session *)

Section Session.
Context `{Aead} `{Sha256} {MA RA MB RB : Type} `{AnchorMedia MA} `{SegmentReader RA}
  `{AnchorMedia MB} `{SegmentReader RB}.
Context (GA : MA -> Prop) (KA : RA -> Prop) (GB : MB -> Prop) (KB : RB -> Prop).
Context (n : Z) (content : Z -> list byte).

(** Two cores that meet: both work, over one book, and the client is not ahead. *)
Record meeting (a : Core MA RA) (b : Core MB RB) : Prop := {
  mg_a : able GA KA a;
  mg_b : able GB KB b;
  mg_order : ar_next (co_current a) <= ar_next (co_current b) < n;
  mg_gen_a : ar_generation (co_current a) +
    (ar_next (co_current b) - ar_next (co_current a)) < U64_MAX;
  mg_gen_b : ar_generation (co_current b) < U64_MAX;
}.

Lemma cores_meet a b book :
  healthy_media MA GA -> healthy_media MB GB ->
  healthy_reader RA KA n content -> healthy_reader RB KB n content ->
  is_u64 n -> wf_book_id book -> meeting a b ->
  exists a' b', ProtoSpec.meet a a' b b' (MkEndpoint book n) (MkSegment (content (ar_next (co_current b)))).
Proof.
  intros Hma Hmb Hra Hrb Hn Hb [Ha Hbb Ho Hga Hgb].
  pose proof (ab_next _ _ _ Ha) as Hpa. pose proof (ab_next _ _ _ Hbb) as Hpb.
  assert (Hu : n <= U64_MAX) by ulia.
  destruct (able_burn GA KA Hma Hra Hu (Z.to_nat (ar_next (co_current b) - ar_next (co_current a))) a Ha)
    as (a0 & E0 & Ha0 & Hn0 & Hg0); [lia..|].
  rewrite Z2Nat.id in Hn0, Hg0 by lia.
  destruct (able_issue GA KA Hma Hra Hu a0 Ha0) as (a1 & E1 & _); [lia..|].
  destruct (able_issue GB KB Hmb Hrb Hu b Hbb) as (b1 & E2 & _); [lia..|].
  replace (ar_next (co_current a0)) with (ar_next (co_current b)) in E1 by lia.
  exists a1, b1. split; cbn [pointer_state core_state fst ep_book_id ep_segment_count]; auto.
  - ulia.
  - ulia.
  - exists a0. split; [exact E0 | exact E1].
Qed.

End Session.

(** C5: a session of two allocators succeeds in every order of its steps.  Take two ends
    with allocators over one book that work, the client's pointer not ahead of the
    server's, joined by ordered channels.  Every order of steps of the two programs,
    client and echo server, can be continued to one same end, after the same number of
    steps; there both report success with the number of bytes typed, and the client has
    written exactly what was typed. *)
Theorem allocators_session `{Aead} `{Sha256} {MA RA MB RB} `{AnchorMedia MA} `{SegmentReader RA}
  `{AnchorMedia MB} `{SegmentReader RB} GA KA GB KB n content (a : Core MA RA) (b : Core MB RB)
  book (rc rs : Nonce) dc ds typed fa fb :
  (forall k n a p, aead_encrypt k n a p <> None) ->
  healthy_media MA GA -> healthy_media MB GB ->
  healthy_reader RA KA n content -> healthy_reader RB KB n content ->
  is_u64 n -> wf_book_id book -> wf_nonce16 rc -> wf_nonce16 rs ->
  meeting GA KA GB KB n a b ->
  Forall (fun c => c <> [] /\ Z.of_nat (length c) <= MAX_DATA_PLAINTEXT) typed ->
  Z.of_nat (length (concat typed)) < U64_MAX ->
  (length typed < fa)%nat -> (length typed < fb)%nat ->
  let ep := MkEndpoint book n in
  let start := MkNet (session_client a ep dc fa) (session_server b ep ds fb)
                 (nonce_only rc typed) (nonce_only rs []) [] [] in
  let total := Z.of_nat (length (concat typed)) in
  exists k last,
    nsteps net_step k start last /\
    na last = done (Ok total) /\ nb last = done (Ok total) /\
    lo_output (la last) = concat typed /\
    forall j m, nsteps net_step j start m ->
      (j <= k)%nat /\ nsteps net_step (k - j) m last.
Proof.
  intros Henc Hma Hmb Hra Hrb Hn Hb Hrc Hrs Hmeet Htyped Hsmall Hfa Hfb ep start total.
  destruct (cores_meet GA KA GB KB n content a b book Hma Hmb Hra Hrb Hn Hb Hmeet) as (a' & b' & Hm).
  exact (session_end_to_end a a' b b' ep _ rc rs dc ds typed fa fb Henc Hrc Hrs Hm Htyped Hsmall Hfa Hfb).
Qed.

(** ** Witness *)

#[local] Existing Instance checksum_aead.
#[local] Existing Instance low_digest.

Definition demo_pages : SimBook := MkBook 9 Byte.x00 None.

(** A core at segment [i] over its own files. *)
Definition demo_end (i : Z) : Core FileMedia SimBook :=
  let x := MkDevice (encode_record (MkAnchor (zeros 16) i i (PCommit (zeros 32))) []) [] 0 [] in
  MkCore (MkFileMedia x x true) demo_pages (zeros 16) (MkAnchor (zeros 16) i i (PCommit (zeros 32))) false.

Lemma demo_pages_healthy : healthy_reader SimBook (eq demo_pages) 9 (fun _ => zeros 64).
Proof. split; [intros r <-; reflexivity|]. intros r i <- Hi. exists demo_pages. split; reflexivity. Qed.

Lemma allocators_session_witness :
  exists k last,
    nsteps net_step k
      (MkNet (session_client (demo_end 3) demo_endpoint 30 3)
         (session_server (demo_end 5) demo_endpoint 30 3)
         (nonce_only demo_rc demo_typed) (nonce_only demo_rs []) [] []) last /\
    na last = done (Ok 3) /\ nb last = done (Ok 3) /\
    lo_output (la last) = [Byte.x6c; Byte.x73; Byte.x0a].
Proof.
  assert (Hm : meeting quiet_files (eq demo_pages) quiet_files (eq demo_pages) 9 (demo_end 3) (demo_end 5)).
  { split; cbn; try ulia; split; cbn; first [reflexivity | split; reflexivity | lia]. }
  destruct (allocators_session quiet_files (eq demo_pages) quiet_files (eq demo_pages) 9
    (fun _ => zeros 64) (demo_end 3) (demo_end 5) (zeros 16) demo_rc demo_rs 30 30 demo_typed 3 3)
    as (k & last & Hk & Ha & Hb & Hout & _);
    [discriminate | apply quiet_files_healthy | apply quiet_files_healthy | exact demo_pages_healthy
    | exact demo_pages_healthy | ulia | reflexivity | reflexivity | reflexivity | exact Hm
    | repeat constructor; (discriminate || cbn; ulia) | cbn; ulia | cbn; lia | cbn; lia |].
  exists k, last. auto.
Defined.
