(* ===== verification/DoorText.v ===== *)
(** * DoorText: the notice line and the version observer ([otp-doorkeeper],
      warn.rs, obs.rs and the configuration of lib.rs)

    What the SSH relay may say to a client, and the one thing it looks at: the
    version line a client sends.  Strings are their UTF-8 bytes. *)

From stdpp Require Import strings.
From S2P Require Export Prelude.

#[local] Open Scope list_scope.
#[local] Open Scope Z_scope.

Definition LF : byte := Byte.x0a.
Definition CR : byte := Byte.x0d.

Definition SSH_PREFIX : list byte := ascii_bytes "SSH-".

(** ** The notice line (warn.rs) *)

Definition DEFAULT_WARN_LINE : list byte :=
  ascii_bytes "NOTICE: SSH endpoint deprecated, migrating to jbuu (锦书). 本通道仅过渡，请迁移 jbuu。".

Definition DEFAULT_WARN_LINE_HEX : list byte :=
  ascii_bytes
    ("4e4f544943453a2053534820656e64706f696e7420646570726563617465642c" ++
     "206d6967726174696e6720746f206a6275752028e994a6e4b9a6292e20e69cac" ++
     "e9809ae98193e4bb85e8bf87e6b8a1efbc8ce8afb7e8bf81e7a7bb206a627575" ++
     "e380820d0a").

Definition DEFAULT_WARN_LINE_LEN : Z := 101.
Definition FAILURE_LINE : list byte :=
  ascii_bytes "NOTICE: upstream sshd unreachable via doorkeeper, try later".
Definition MAX_LINE_LEN : Z := 200.

Inductive LineError :=
  | LeSshPrefix
  | LeControlChar (b : byte) (pos : Z)
  | LeTooLong (len : Z).

(** The first control byte, with its position. *)
Fixpoint control_char (pos : Z) (content : list byte) : option LineError :=
  match content with
  | [] => None
  | b :: content =>
      if b2z b <? 32 then Some (LeControlChar b pos) else control_char (pos + 1) content
  end.

Definition validate_line (content : list byte) : result (list byte) LineError :=
  match control_char 0 content with
  | Some e => Err e
  | None =>
      if starts_with content SSH_PREFIX then Err LeSshPrefix else
      let line := content ++ [CR; LF] in
      let len := Z.of_nat (length line) in
      if MAX_LINE_LEN <? len then Err (LeTooLong len) else Ok line
  end.

(** [expect] of a line that must be valid: [None] is the panic. *)
Definition expect_line (r : result (list byte) LineError) : option (list byte) :=
  match r with Ok line => Some line | Err _ => None end.

Definition hex_digit (n : Z) : byte :=
  nth (Z.to_nat n) (ascii_bytes "0123456789abcdef") Byte.x00.

Definition hex_encode (bytes : list byte) : list byte :=
  List.flat_map (fun b => [hex_digit (Z.shiftr (b2z b) 4);
                           hex_digit (Z.land (b2z b) 15)]) bytes.

(** The two [debug_assert]s of [default_warn_line] panic as well. *)
Definition default_warn_line : option (list byte) :=
  match expect_line (validate_line DEFAULT_WARN_LINE) with
  | None => None
  | Some line =>
      if bool_decide (Z.of_nat (length line) = DEFAULT_WARN_LINE_LEN) &&
         bool_decide (hex_encode line = DEFAULT_WARN_LINE_HEX)
      then Some line else None
  end.

Definition failure_line : option (list byte) := expect_line (validate_line FAILURE_LINE).

(** ** Configuration (lib.rs) *)

Inductive OnOff := On | Off.

#[global] Instance onoff_eq_dec : EqDecision OnOff.
Proof. solve_decision. Defined.

Definition onoff_from_str (s : list byte) : option OnOff :=
  if bool_decide (s = ascii_bytes "on") then Some On
  else if bool_decide (s = ascii_bytes "off") then Some Off else None.

Definition onoff_fmt (v : OnOff) : list byte :=
  match v with On => ascii_bytes "on" | Off => ascii_bytes "off" end.

(** Addresses of the standard library: octets, and 16-bit segments. *)
Inductive IpAddr :=
  | V4 (a b c d : Z)
  | V6 (s0 s1 s2 s3 s4 s5 s6 s7 : Z).

#[global] Instance ip_addr_eq_dec : EqDecision IpAddr.
Proof. solve_decision. Defined.

Record SocketAddr := MkAddr { sa_ip : IpAddr; sa_port : Z }.

#[global] Instance socket_addr_eq_dec : EqDecision SocketAddr.
Proof. solve_decision. Defined.

Definition LOCALHOST4 : IpAddr := V4 127 0 0 1.
Definition LOCALHOST6 : IpAddr := V6 0 0 0 0 0 0 0 1.

Definition is_unspecified (ip : IpAddr) : bool :=
  bool_decide (ip = V4 0 0 0 0) || bool_decide (ip = V6 0 0 0 0 0 0 0 0).

Definition is_loopback (ip : IpAddr) : bool :=
  match ip with
  | V4 a _ _ _ => a =? 127
  | V6 _ _ _ _ _ _ _ _ => bool_decide (ip = LOCALHOST6)
  end.

(** [Ipv6Addr::to_ipv4_mapped]. *)
Definition to_ipv4_mapped (ip : IpAddr) : option IpAddr :=
  match ip with
  | V6 0 0 0 0 0 65535 hi lo => Some (V4 (hi / 256) (hi mod 256) (lo / 256) (lo mod 256))
  | _ => None
  end.

Inductive Family := FamV4 | FamV4Mapped | FamV6.

Definition family_of (ip : IpAddr) : Family :=
  match ip with
  | V4 _ _ _ _ => FamV4
  | V6 s0 s1 s2 s3 s4 s5 _ _ =>
      if forallb (Z.eqb 0) [s0; s1; s2; s3; s4] && (s5 =? 65535) then FamV4Mapped else FamV6
  end.

Record Cli := MkCli {
  cl_listen : SocketAddr;
  cl_upstream : SocketAddr;
  cl_warn_mode : OnOff;
  cl_warn_line : list byte;
  cl_failure_line : OnOff;
  cl_max_conns : Z;
  cl_log_file : list byte;
  cl_verbose : bool;
}.

(** The same fields after [from_cli]; the lines carry their terminator. *)
Record Config := MkDoorConfig {
  dc_listen : SocketAddr;
  dc_upstream : SocketAddr;
  dc_warn_mode : OnOff;
  dc_warn_line : list byte;
  dc_failure_line : OnOff;
  dc_max_conns : Z;
  dc_log_path : list byte;
  dc_verbose : bool;
}.

Inductive ConfigError :=
  | CeMaxConns
  | CeUpstream (addr : SocketAddr)
  | CeWarnLine (e : LineError).

Definition from_cli (cli : Cli) : result Config ConfigError :=
  if cl_max_conns cli =? 0 then Err CeMaxConns else
  if is_unspecified (sa_ip (cl_upstream cli)) then Err (CeUpstream (cl_upstream cli)) else
  let? warn_line := map_err CeWarnLine (validate_line (cl_warn_line cli)) in
  Ok (MkDoorConfig (cl_listen cli) (cl_upstream cli) (cl_warn_mode cli) warn_line
        (cl_failure_line cli) (cl_max_conns cli) (cl_log_file cli) (cl_verbose cli)).

(** The addresses tried for the upstream (proxy.rs). *)
Definition upstream_candidates (addr : SocketAddr) : list SocketAddr :=
  match sa_ip addr with
  | V4 _ _ _ _ as ip =>
      if is_loopback ip then [addr; MkAddr LOCALHOST6 (sa_port addr)] else [addr]
  | V6 _ _ _ _ _ _ _ _ as ip =>
      if is_loopback ip then
        let other :=
          match to_ipv4_mapped ip with
          | Some v4 => if is_loopback v4 then v4 else LOCALHOST4
          | None => LOCALHOST4
          end in
        [addr; MkAddr other (sa_port addr)]
      else [addr]
  end.

(** ** The version observer (obs.rs) *)

Definition SCAN_WINDOW : Z := 8 * 1024.
Definition VERSION_MAX_BYTES : nat := 128.

(** [iter().position(|b| b == '\n')]. *)
Fixpoint position_lf (l : list byte) : option nat :=
  match l with
  | [] => None
  | b :: l => if bool_decide (b = LF) then Some O else S <$> position_lf l
  end.

(** The length of the longest front of [l] that is one character or a maximal
    broken one, and whether it is a character: the chunks of UTF-8 decoding. *)
Definition continues (lo hi : Z) (l : list byte) : bool :=
  match l with b :: _ => (lo <=? b2z b) && (b2z b <=? hi) | [] => false end.

Definition utf8_char (l : list byte) : nat * bool :=
  match l with
  | [] => (O, false)
  | b :: t =>
      let x := b2z b in
      let tail := continues 128 191 in
      if x <? 128 then (1%nat, true)
      else if x <? 194 then (1%nat, false)
      else if x <? 224 then if tail t then (2%nat, true) else (1%nat, false)
      else if x <? 240 then
        let lo := if x =? 224 then 160 else 128 in
        let hi := if x =? 237 then 159 else 191 in
        if continues lo hi t
        then if tail (drop 1 t) then (3%nat, true) else (2%nat, false)
        else (1%nat, false)
      else if x <? 245 then
        let lo := if x =? 240 then 144 else 128 in
        let hi := if x =? 244 then 143 else 191 in
        if continues lo hi t
        then if tail (drop 1 t)
             then if tail (drop 2 t) then (4%nat, true) else (3%nat, false)
             else (2%nat, false)
        else (1%nat, false)
      else (1%nat, false)
  end.

(** U+FFFD. *)
Definition REPLACEMENT : list byte := [Byte.xef; Byte.xbf; Byte.xbd].

(** [String::from_utf8_lossy]; the fuel is the length. *)
Fixpoint utf8_lossy (fuel : nat) (l : list byte) : list byte :=
  match fuel, l with
  | S fuel, _ :: _ =>
      let '(n, good) := utf8_char l in
      (if good then take n l else REPLACEMENT) ++ utf8_lossy fuel (drop n l)
  | _, _ => []
  end.

Definition from_utf8_lossy (l : list byte) : list byte := utf8_lossy (length l) l.

Record VersionObserver := MkObserver {
  vo_buf : list byte;
  vo_scanned : Z;
  vo_base : Z;
  vo_done : bool;
  vo_version : option (list byte);
  vo_truncated : bool;
}.

Definition observer_new : VersionObserver := MkObserver [] 0 0 false None false.

Definition finish_none (o : VersionObserver) : VersionObserver :=
  MkObserver [] (vo_scanned o) (vo_base o) true None (vo_truncated o).

Definition strip_cr (line : list byte) : list byte :=
  if bool_decide (List.last line LF = CR) then removelast line else line.

(** The [while let] of [observe]; [true] when it returned.  Every pass takes a
    line off the buffer, so its length is enough fuel. *)
Fixpoint scan_lines (fuel : nat) (o : VersionObserver) : VersionObserver * bool :=
  match position_lf (vo_buf o), fuel with
  | Some i, S fuel =>
      if SCAN_WINDOW <=? vo_base o + Z.of_nat i then (finish_none o, true) else
      let line := strip_cr (take i (vo_buf o)) in
      if starts_with line SSH_PREFIX
      then
        (MkObserver [] (vo_scanned o) (vo_base o + Z.of_nat i + 1) true
           (Some (from_utf8_lossy (take VERSION_MAX_BYTES line)))
           (VERSION_MAX_BYTES <? length line)%nat, true)
      else
        scan_lines fuel
          (MkObserver (drop (S i) (vo_buf o)) (vo_scanned o) (vo_base o + Z.of_nat i + 1)
             (vo_done o) (vo_version o) (vo_truncated o))
  | _, _ => (o, false)
  end.

Definition observe (o : VersionObserver) (chunk : list byte) : VersionObserver :=
  if vo_done o then o else
  let o := MkObserver (vo_buf o ++ chunk) (vo_scanned o + Z.of_nat (length chunk))
             (vo_base o) (vo_done o) (vo_version o) (vo_truncated o) in
  match scan_lines (length (vo_buf o)) o with
  | (o, true) => o
  | (o, false) => if SCAN_WINDOW <=? vo_scanned o then finish_none o else o
  end.

(** [Option::take] leaves no version behind. *)
Definition take_result (o : VersionObserver) : VersionObserver * (option (list byte) * bool) :=
  let o := if vo_done o then o else finish_none o in
  (MkObserver (vo_buf o) (vo_scanned o) (vo_base o) (vo_done o) None (vo_truncated o),
   (vo_version o, vo_truncated o)).

(** ** Reference: the version line of a whole stream

    The first line that starts with SSH- and ends within the window; [pos] is the
    position of the next byte and [cur] the line read so far. *)
Fixpoint first_version (pos : Z) (cur s : list byte) : option (list byte) :=
  match s with
  | [] => None
  | b :: s =>
      if bool_decide (b = LF) then
        if (pos <? SCAN_WINDOW) && starts_with (strip_cr cur) SSH_PREFIX
        then Some (strip_cr cur) else first_version (pos + 1) [] s
      else first_version (pos + 1) (cur ++ [b]) s
  end.

(** What is reported of it. *)
Definition reported (v : option (list byte)) : option (list byte) * bool :=
  match v with
  | Some line =>
      (Some (from_utf8_lossy (take VERSION_MAX_BYTES line)),
       (VERSION_MAX_BYTES <? length line)%nat)
  | None => (None, false)
  end.

Lemma position_lf_none l : position_lf l = None -> forall pos cur more,
  first_version pos cur (l ++ more) =
    first_version (pos + Z.of_nat (length l)) (cur ++ l) more.
Proof.
  induction l as [|b l IH]; cbn; intros E pos cur more.
  - rewrite Z.add_0_r, app_nil_r. reflexivity.
  - case_bool_decide; [discriminate|]. destruct (position_lf l); [discriminate|].
    rewrite (IH eq_refl), <- app_assoc. f_equal. lia.
Qed.

Lemma position_lf_some l i : position_lf l = Some i ->
  (i < length l)%nat /\ forall pos cur more,
  first_version pos cur (l ++ more) =
    let line := strip_cr (cur ++ take i l) in
    if (pos + Z.of_nat i <? SCAN_WINDOW) && starts_with line SSH_PREFIX
    then Some line else first_version (pos + Z.of_nat i + 1) [] (drop (S i) l ++ more).
Proof.
  revert i. induction l as [|b l IH]; cbn; intros i E; [discriminate|].
  case_bool_decide.
  - injection E as <-. split; [lia|]. intros. rewrite Z.add_0_r, app_nil_r, drop_0.
    reflexivity.
  - destruct (position_lf l) as [j|]; [|discriminate]. injection E as <-.
    destruct (IH j eq_refl) as [Hj Hf]. split; [lia|]. intros. rewrite Hf.
    cbn zeta. rewrite <- app_assoc. cbn [app].
    replace (pos + 1 + Z.of_nat j) with (pos + Z.of_nat (S j)) by lia. reflexivity.
Qed.

Lemma first_version_late s : forall pos cur,
  SCAN_WINDOW <= pos -> first_version pos cur s = None.
Proof.
  induction s as [|b s IH]; cbn; intros pos cur Hp; [reflexivity|].
  rewrite (proj2 (Z.ltb_ge _ _) Hp). cbn. case_bool_decide; apply IH; lia.
Qed.

(** The loop takes lines off the front without changing what is to be found. *)
Lemma scan_lines_spec fuel : forall o,
  (length (vo_buf o) <= fuel)%nat ->
  vo_done o = false -> vo_version o = None -> vo_truncated o = false ->
  match scan_lines fuel o with
  | (o', true) =>
      vo_done o' = true /\ vo_buf o' = [] /\
      forall more, (vo_version o', vo_truncated o') =
        reported (first_version (vo_base o) [] (vo_buf o ++ more))
  | (o', false) =>
      vo_done o' = false /\ vo_version o' = None /\ vo_truncated o' = false /\
      vo_scanned o' = vo_scanned o /\ position_lf (vo_buf o') = None /\
      vo_base o' + Z.of_nat (length (vo_buf o')) =
        vo_base o + Z.of_nat (length (vo_buf o)) /\ vo_base o <= vo_base o' /\
      forall more, first_version (vo_base o) [] (vo_buf o ++ more) =
        first_version (vo_base o') [] (vo_buf o' ++ more)
  end.
Proof.
  induction fuel as [|fuel IH]; intros o Hl Hd Hv Ht; cbn [scan_lines];
    destruct (position_lf (vo_buf o)) as [i|] eqn:E; try (split_and!; auto; lia).
  all: destruct (position_lf_some _ _ E) as [Hi Hf]; try lia.
  destruct (Z.leb_spec SCAN_WINDOW (vo_base o + Z.of_nat i)) as [Hw|Hw].
  { split_and!; [reflexivity..|]. intros more. rewrite Hf. cbn zeta.
    rewrite (proj2 (Z.ltb_ge _ _) Hw). cbn [andb app].
    rewrite first_version_late by lia. cbn. congruence. }
  destruct (starts_with _ _) eqn:Es.
  { split_and!; [reflexivity..|]. intros more. rewrite Hf. cbn zeta.
    rewrite (proj2 (Z.ltb_lt _ _) Hw). cbn [app]. rewrite Es. reflexivity. }
  match goal with |- context [scan_lines fuel ?x] => specialize (IH x) end.
  cbn [vo_buf vo_done vo_version vo_truncated vo_base vo_scanned] in IH.
  destruct (scan_lines fuel _) as [o' b]. rewrite length_drop in IH.
  specialize (IH ltac:(lia) Hd Hv Ht).
  assert (Hn : forall more, first_version (vo_base o) [] (vo_buf o ++ more) =
    first_version (vo_base o + Z.of_nat i + 1) [] (drop (S i) (vo_buf o) ++ more)).
  { intros more. rewrite Hf. cbn zeta. cbn [app]. rewrite Es, andb_false_r. reflexivity. }
  destruct b.
  - destruct IH as (? & ? & Hr). split_and!; auto. intros. rewrite Hn. apply Hr.
  - destruct IH as (? & ? & ? & ? & ? & Hp & Hb & Hr). split_and!; auto; [lia..|].
    intros. rewrite Hn. apply Hr.
Qed.

(** After the stream [s]: what is left to scan, or the final result. *)
Definition observed (s : list byte) (o : VersionObserver) : Prop :=
  if vo_done o then
    vo_buf o = [] /\ forall more,
      (vo_version o, vo_truncated o) = reported (first_version 0 [] (s ++ more))
  else
    vo_version o = None /\ vo_truncated o = false /\
    vo_scanned o = Z.of_nat (length s) /\ vo_scanned o < SCAN_WINDOW /\
    position_lf (vo_buf o) = None /\
    vo_base o + Z.of_nat (length (vo_buf o)) = Z.of_nat (length s) /\ 0 <= vo_base o /\
    forall more, first_version 0 [] (s ++ more) =
      first_version (vo_base o) [] (vo_buf o ++ more).

Lemma observe_step s o chunk : observed s o -> observed (s ++ chunk) (observe o chunk).
Proof.
  unfold observe. intros Ho. destruct (vo_done o) eqn:Hd.
  - unfold observed in *. rewrite Hd in *. destruct Ho as [Hb Hr]. split; [exact Hb|].
    intros more. rewrite <- app_assoc. apply Hr.
  - unfold observed in Ho. rewrite Hd in Ho.
    destruct Ho as (Hv & Ht & Hs & Hw & Hn & Hp & H0 & Hf).
    match goal with |- context [scan_lines ?n ?x] => set (oc := x) in * end.
    pose proof (scan_lines_spec (length (vo_buf oc)) oc ltac:(lia) eq_refl Hv Ht) as Hsc.
    destruct (scan_lines _ oc) as [o' []].
    + destruct Hsc as (Hd' & Hb' & Hr). unfold observed. rewrite Hd'.
      split; [exact Hb'|]. intros more. rewrite (Hr more). subst oc. cbn.
      rewrite <- !app_assoc, Hf. reflexivity.
    + destruct Hsc as (Hd' & Hv' & Ht' & Hs' & Hn' & Hp' & Hb' & Hr).
      assert (Hall : forall more, first_version 0 [] ((s ++ chunk) ++ more) =
        first_version (vo_base o') [] (vo_buf o' ++ more)).
      { intros more. rewrite <- Hr. subst oc. cbn. rewrite <- !app_assoc. apply Hf. }
      subst oc. cbn in Hs', Hp', Hb'. rewrite length_app in Hp'.
      destruct (Z.leb_spec SCAN_WINDOW (vo_scanned o')).
      * split; [reflexivity|]. intros more. cbn. rewrite Hall, (position_lf_none _ Hn').
        rewrite first_version_late by lia. rewrite Ht'. reflexivity.
      * unfold observed. rewrite Hd', length_app. split_and!; auto; try lia.
Qed.

Lemma observed_chunks chunks : forall s o,
  observed s o -> observed (s ++ concat chunks) (fold_left observe chunks o).
Proof.
  induction chunks as [|c chunks IH]; cbn; intros s o Ho; [rewrite app_nil_r; exact Ho|].
  rewrite app_assoc. apply IH, observe_step, Ho.
Qed.

(** C40: the observer sees the stream, not its chunks.  However the bytes from the
    client are cut into reads, what it reports is the first line of the whole
    stream that starts with SSH- and ends within the window, cut to its limit (and
    nothing if there is none); and it never keeps as much as a window of bytes. *)
Theorem observer_sees_stream (chunks : list (list byte)) :
  let o := fold_left observe chunks observer_new in
  snd (take_result o) = reported (first_version 0 [] (concat chunks)) /\
  Z.of_nat (length (vo_buf o)) < SCAN_WINDOW.
Proof.
  intros o. assert (Ho : observed (concat chunks) o).
  { apply (observed_chunks chunks [] observer_new). split_and!; reflexivity. }
  unfold observed in Ho. unfold take_result. destruct (vo_done o) eqn:Hd.
  - destruct Ho as [-> Hr]. specialize (Hr []). rewrite app_nil_r in Hr.
    rewrite <- Hr. split; reflexivity.
  - destruct Ho as (Hv & Ht & Hs & Hw & Hn & Hp & H0 & Hf). split; [|lia].
    specialize (Hf []). rewrite (position_lf_none _ Hn) in Hf.
    cbn [first_version] in Hf. rewrite app_nil_r in Hf. rewrite Hf. cbn.
    rewrite Ht. reflexivity.
Qed.

(** ** The notice line *)

Lemma starts_with_iff l p : starts_with l p = true <-> exists r, l = p ++ r.
Proof.
  revert l. induction p as [|b p IH]; intros [|c l]; cbn.
  - split; eauto.
  - split; eauto.
  - split; [discriminate | intros [r [=]]].
  - rewrite andb_true_iff, bool_decide_eq_true, IH. split.
    + intros [-> [r ->]]. eauto.
    + intros [r [= -> ->]]. eauto.
Qed.

Lemma control_char_spec content : forall pos,
  match control_char pos content with
  | None => Forall (fun b => 32 <= b2z b) content
  | Some e => exists i b, content !! i = Some b /\ b2z b < 32 /\
      Forall (fun b => 32 <= b2z b) (take i content) /\
      e = LeControlChar b (pos + Z.of_nat i)
  end.
Proof.
  induction content as [|b content IH]; intros pos; cbn; [constructor|].
  destruct (Z.ltb_spec (b2z b) 32) as [Hb|Hb].
  - exists O, b. rewrite Z.add_0_r. cbn. auto.
  - specialize (IH (pos + 1)). destruct (control_char _ _) as [e|]; [|auto].
    destruct IH as (i & c & ? & ? & ? & ->). exists (S i), c. cbn. split_and!; auto.
    f_equal. lia.
Qed.

(** A configuration that is accepted can be served.  [from_cli] accepts exactly
    the command lines with room for a connection, an upstream that is not the
    unspecified address, and a notice without control bytes, that cannot be taken
    for an SSH version line and fits the length limit; the line sent is the notice
    and one line end.  The two built-in lines pass, so building them never panics. *)
Theorem config_safe (cli : Cli) :
  (forall cfg, from_cli cli = Ok cfg <->
     cl_max_conns cli <> 0 /\ is_unspecified (sa_ip (cl_upstream cli)) = false /\
     Forall (fun b => 32 <= b2z b) (cl_warn_line cli) /\
     (forall r, cl_warn_line cli <> SSH_PREFIX ++ r) /\
     Z.of_nat (length (cl_warn_line cli)) + 2 <= MAX_LINE_LEN /\
     cfg = MkDoorConfig (cl_listen cli) (cl_upstream cli) (cl_warn_mode cli)
             (cl_warn_line cli ++ [CR; LF]) (cl_failure_line cli) (cl_max_conns cli)
             (cl_log_file cli) (cl_verbose cli)) /\
  default_warn_line = Some (DEFAULT_WARN_LINE ++ [CR; LF]) /\
  failure_line = Some (FAILURE_LINE ++ [CR; LF]).
Proof.
  split; [|split; vm_compute; reflexivity]. intros cfg. unfold from_cli, validate_line.
  destruct (Z.eqb_spec (cl_max_conns cli) 0) as [|Hm]; [split; [discriminate|tauto]|].
  destruct (is_unspecified _) eqn:Hu; [split; [discriminate | intros (_ & ? & _); congruence]|].
  pose proof (control_char_spec (cl_warn_line cli) 0) as Hc.
  destruct (control_char _ _) as [e|].
  { destruct Hc as (i & b & Hi & Hb & _). split; [discriminate|].
    intros (_ & _ & Hall & _). rewrite list.Forall_forall in Hall.
    apply list_elem_of_lookup_2, Hall in Hi. lia. }
  destruct (starts_with _ _) eqn:Es.
  { apply starts_with_iff in Es as [r Er]. split; [discriminate|].
    intros (_ & _ & _ & Hs & _). destruct (Hs r Er). }
  rewrite length_app. cbn [length].
  destruct (Z.ltb_spec MAX_LINE_LEN (Z.of_nat (length (cl_warn_line cli) + 2)));
    cbn [map_err result_bind]; split; try discriminate; try (intros; lia).
  - intros [= <-]. split_and!; auto; [|lia]. intros r Er.
    rewrite (proj2 (starts_with_iff _ _)) in Es by eauto. discriminate.
  - intros (_ & _ & _ & _ & _ & ->). reflexivity.
Qed.
