(* ===== verification/DoorLog.v ===== *)
(** * DoorLog: the connection log of the relay ([otp-doorkeeper], log.rs)

    One event is one line of JSON, written by one [write] where the kernel takes
    it whole.  Strings are their UTF-8 bytes: the characters that are escaped are
    ASCII, and no byte of another character is. *)

From stdpp Require Import strings.
From S2P Require Export Effects DoorText.

#[local] Open Scope list_scope.
#[local] Open Scope Z_scope.

Definition QUOTE : byte := Byte.x22.
Definition BACKSLASH : byte := Byte.x5c.

Inductive Field :=
  | FStr (s : list byte)
  | FU64 (n : Z)
  | FBool (b : bool)
  | FNull.

(** ** Text *)

(** [format!] of an unsigned integer: the fuel bounds the digits of 64 bits. *)
Definition dec_digit (d : Z) : byte := z2b (48 + d).

Fixpoint dec_digits (fuel : nat) (n : Z) (acc : list byte) : list byte :=
  match fuel with
  | O => acc
  | S fuel =>
      let acc := dec_digit (n mod 10) :: acc in
      if n <? 10 then acc else dec_digits fuel (n / 10) acc
  end.

Definition dec (n : Z) : list byte := dec_digits 20 n [].

(** [{:0w}], sign included. *)
Definition pad_zeros (w : nat) (s : list byte) : list byte :=
  repeat Byte.x30 (w - length s) ++ s.

Definition dec_pad (w : nat) (n : Z) : list byte :=
  if n <? 0 then Byte.x2d :: pad_zeros (w - 1) (dec (- n)) else pad_zeros w (dec n).

(** [{code:04x}]. *)
Definition hex4 (n : Z) : list byte :=
  List.map (fun k => hex_digit (Z.land (Z.shiftr n k) 15)) [12; 8; 4; 0].

(** One character of [escape_into]. *)
Definition escape_char (c : byte) : list byte :=
  if bool_decide (c = QUOTE) then [BACKSLASH; QUOTE]
  else if bool_decide (c = BACKSLASH) then [BACKSLASH; BACKSLASH]
  else if bool_decide (c = LF) then [BACKSLASH; Byte.x6e]
  else if bool_decide (c = CR) then [BACKSLASH; Byte.x72]
  else if bool_decide (c = Byte.x09) then [BACKSLASH; Byte.x74]
  else if bool_decide (c = Byte.x08) then [BACKSLASH; Byte.x62]
  else if bool_decide (c = Byte.x0c) then [BACKSLASH; Byte.x66]
  else if b2z c <? 32 then [BACKSLASH; Byte.x75] ++ hex4 (b2z c)
  else [c].

Definition escape_into (s : list byte) : list byte := List.flat_map escape_char s.

Definition field_text (f : Field) : list byte :=
  match f with
  | FStr s => [QUOTE] ++ escape_into s ++ [QUOTE]
  | FU64 n => dec n
  | FBool b => if b then ascii_bytes "true" else ascii_bytes "false"
  | FNull => ascii_bytes "null"
  end.

Definition member_text (m : list byte * Field) : list byte :=
  [Byte.x2c; QUOTE] ++ escape_into m.1 ++ [QUOTE; Byte.x3a] ++ field_text m.2.

(** The pieces between the fields of an event. *)
Definition OPEN_TS : list byte := [Byte.x7b; QUOTE] ++ ascii_bytes "ts" ++ [QUOTE; Byte.x3a; QUOTE].
Definition OPEN_LEVEL : list byte :=
  [QUOTE; Byte.x2c; QUOTE] ++ ascii_bytes "level" ++ [QUOTE; Byte.x3a; QUOTE].
Definition OPEN_EVENT : list byte :=
  [QUOTE; Byte.x2c; QUOTE] ++ ascii_bytes "event" ++ [QUOTE; Byte.x3a; QUOTE].
Definition CLOSE : list byte := [Byte.x7d; LF].

Definition event_line (ts level kind : list byte) (fields : list (list byte * Field)) :
  list byte :=
  OPEN_TS ++ ts ++ OPEN_LEVEL ++ escape_into level ++ OPEN_EVENT ++ escape_into kind ++
  [QUOTE] ++ List.flat_map member_text fields ++ CLOSE.

(** ** The clock *)

(** [civil_from_days]: the era, the day of the era, the year of the era, the day
    of the year counted from March, and the month counted from March. *)
Record CivilParts := MkParts { cp_era : Z; cp_doe : Z; cp_yoe : Z; cp_doy : Z; cp_mp : Z }.

Definition civil_parts (z : Z) : CivilParts :=
  let z := z + 719468 in
  let era := Z.quot (if 0 <=? z then z else z - 146096) 146097 in
  let doe := z - era * 146097 in
  let yoe := (doe - doe / 1460 + doe / 36524 - doe / 146096) / 365 in
  let doy := doe - (365 * yoe + yoe / 4 - yoe / 100) in
  let mp := (5 * doy + 2) / 153 in
  MkParts era doe yoe doy mp.

Definition civil_from_days (z : Z) : Z * Z * Z :=
  let '(MkParts era _ yoe doy mp) := civil_parts z in
  let y := yoe + era * 400 in
  let dd := doy - (153 * mp + 2) / 5 + 1 in
  let m := if mp <? 10 then mp + 3 else mp - 9 in
  (if m <=? 2 then y + 1 else y, m, dd).

(** [as i64] of a [u64]. *)
Definition as_i64 (n : Z) : Z := if n <? 2 ^ 63 then n else n - 2 ^ 64.

(** Seconds (a [u64]) and milliseconds since the epoch; [/] and [%] of the time of
    day act on what [rem_euclid] left, which is not negative. *)
Definition now_rfc3339_millis (secs millis : Z) : list byte :=
  let secs := as_i64 secs in
  let days := secs / 86400 in
  let sod := secs mod 86400 in
  let '(y, m, dd) := civil_from_days days in
  dec_pad 4 y ++ [Byte.x2d] ++ dec_pad 2 m ++ [Byte.x2d] ++ dec_pad 2 dd ++
  ascii_bytes "T" ++ dec_pad 2 (sod / 3600) ++ [Byte.x3a] ++
  dec_pad 2 (sod mod 3600 / 60) ++ [Byte.x3a] ++ dec_pad 2 (sod mod 60) ++
  [Byte.x2e] ++ dec_pad 3 millis ++ ascii_bytes "Z".

(** ** The events *)

Definition key (s : String.string) : list byte := ascii_bytes s.

Definition listen_start (listen upstream warn_mode : list byte) (max_conns pid : Z)
  (version : list byte) : list (list byte * Field) :=
  [(key "listen", FStr listen); (key "upstream", FStr upstream);
   (key "warn_mode", FStr warn_mode); (key "max_conns", FU64 max_conns);
   (key "pid", FU64 pid); (key "version", FStr version)].

Definition family_str (f : Family) : list byte :=
  match f with
  | FamV4 => ascii_bytes "v4" | FamV4Mapped => ascii_bytes "v4mapped" | FamV6 => ascii_bytes "v6"
  end.

Definition conn_accept (conn_id : Z) (src_ip : list byte) (src_port : Z) (family : Family) :
  list (list byte * Field) :=
  [(key "conn_id", FU64 conn_id); (key "src_ip", FStr src_ip);
   (key "src_port", FU64 src_port); (key "family", FStr (family_str family))].

Definition warn_sent (conn_id bytes : Z) : list (list byte * Field) :=
  [(key "conn_id", FU64 conn_id); (key "bytes", FU64 bytes)].

Definition upstream_connect (conn_id : Z) (ok : bool) (elapsed_ms : Z)
  (err : option (list byte)) : list (list byte * Field) :=
  [(key "conn_id", FU64 conn_id); (key "ok", FBool ok); (key "elapsed_ms", FU64 elapsed_ms)]
  ++ match err with Some e => [(key "err", FStr e)] | None => [] end.

Definition client_version (conn_id : Z) (version : option (list byte)) (truncated : bool) :
  list (list byte * Field) :=
  [(key "conn_id", FU64 conn_id);
   (key "version", match version with Some v => FStr v | None => FNull end);
   (key "truncated", FBool truncated)].

Definition conn_close (conn_id : Z) (reason : list byte) (bytes_c2s bytes_s2c duration_ms : Z) :
  list (list byte * Field) :=
  [(key "conn_id", FU64 conn_id); (key "reason", FStr reason);
   (key "bytes_c2s", FU64 bytes_c2s); (key "bytes_s2c", FU64 bytes_s2c);
   (key "duration_ms", FU64 duration_ms)].

Definition conn_refused_over_limit (src_ip : list byte) (src_port cur_conns : Z) :
  list (list byte * Field) :=
  [(key "src_ip", FStr src_ip); (key "src_port", FU64 src_port);
   (key "cur_conns", FU64 cur_conns)].

(** ** The file *)

Inductive OpenError := OeNotFound | OeOther.

Inductive LogCall :=
  | LcClock
  | LcOpenAppend
  | LcCreateParent
  | LcWrite (file : Z) (bs : list byte)
  | LcWriteAll (file : Z) (bs : list byte)
  | LcStderr (bs : list byte)
  | LcComplain.

(** The clock answers seconds and milliseconds; [LcCreateParent] is
    [create_dir_all] of the parent of the path, which is there to create or not
    ([None]); [LcComplain] is the program's own message on its error output. *)
Definition log_answer (c : LogCall) : Type :=
  match c with
  | LcClock => (Z * Z)%type
  | LcOpenAppend => result Z OpenError
  | LcCreateParent => option (result unit OpenError)
  | LcWrite _ _ => option Z
  | LcWriteAll _ _ | LcStderr _ => bool
  | LcComplain => unit
  end.

Notation log_act R := (act LogCall log_answer R).
Definition log_ask (c : LogCall) : log_act (log_answer c) :=
  ask (C := LogCall) (A := log_answer) c.

Record JsonlLog := MkLog { lg_file : Z; lg_path : list byte; lg_verbose : bool }.

Definition open_append : log_act (result Z OpenError) :=
  let* r := log_ask LcOpenAppend in
  match r with
  | Ok f => done (Ok f)
  | Err OeNotFound =>
      let* p := log_ask LcCreateParent in
      match p with
      | Some (Err e) => done (Err e)
      | Some (Ok _) | None => log_ask LcOpenAppend
      end
  | Err e => done (Err e)
  end.

Definition log_open (path : list byte) (verbose : bool) : log_act (result JsonlLog OpenError) :=
  let* r := open_append in
  match r with
  | Ok f => done (Ok (MkLog f path verbose))
  | Err e => done (Err e)
  end.

(** [JsonlLog::event]. *)
Definition log_event (log : JsonlLog) (level kind : list byte)
  (fields : list (list byte * Field)) : log_act unit :=
  let* now := log_ask LcClock in
  let bytes := event_line (now_rfc3339_millis now.1 now.2) level kind fields in
  let* r := log_ask (LcWrite (lg_file log) bytes) in
  let* u :=
    match r with
    | Some n =>
        if n =? Z.of_nat (length bytes) then done tt
        else
          let* u := log_ask LcComplain in
          let* w := log_ask (LcWriteAll (lg_file log) (drop (Z.to_nat n) bytes)) in
          done tt
    | None => log_ask LcComplain
    end in
  if lg_verbose log then let* w := log_ask (LcStderr bytes) in done tt else done tt.

(** [JsonlLog::reopen]; an error leaves the old file. *)
Definition log_reopen (log : JsonlLog) : log_act (JsonlLog * result unit OpenError) :=
  let* r := open_append in
  match r with
  | Err e => done (log, Err e)
  | Ok f =>
      let log := MkLog f (lg_path log) (lg_verbose log) in
      let* u := log_event log (key "info") (key "log_reopened") [(key "path", FStr (lg_path log))] in
      done (log, Ok tt)
  end.
