(* ===== verification/DoorLogSpec.v ===== *)
(** * DoorLogSpec: log lines are JSON that gives the event back, and the calendar

    A reader of the lines, the Gregorian calendar as a successor of dates, and
    the theorems that the log's text and its dates agree with them. *)

From stdpp Require Import strings.
From S2P Require Export DoorLog.

#[local] Open Scope list_scope.
#[local] Open Scope Z_scope.

(** ** Reading a line *)

Fixpoint strip (p l : list byte) : option (list byte) :=
  match p, l with
  | [], _ => Some l
  | b :: p, c :: l => if bool_decide (b = c) then strip p l else None
  | _ :: _, [] => None
  end.

Definition hex_value (b : byte) : option Z :=
  let x := b2z b in
  if (48 <=? x) && (x <=? 57) then Some (x - 48)
  else if (97 <=? x) && (x <=? 102) then Some (x - 87)
  else None.

(** [\u] with four digits, below 128. *)
Definition unicode_escape (a b c d : byte) : option byte :=
  match hex_value a, hex_value b, hex_value c, hex_value d with
  | Some a, Some b, Some c, Some d =>
      let v := ((a * 16 + b) * 16 + c) * 16 + d in
      if v <? 128 then Some (z2b v) else None
  | _, _, _, _ => None
  end.

Definition short_escape (e : byte) : option byte :=
  if bool_decide (e = QUOTE) then Some QUOTE
  else if bool_decide (e = BACKSLASH) then Some BACKSLASH
  else if bool_decide (e = Byte.x6e) then Some LF
  else if bool_decide (e = Byte.x72) then Some CR
  else if bool_decide (e = Byte.x74) then Some Byte.x09
  else if bool_decide (e = Byte.x62) then Some Byte.x08
  else if bool_decide (e = Byte.x66) then Some Byte.x0c
  else None.

Definition cons_fst (b : byte) (r : option (list byte * list byte)) :
  option (list byte * list byte) :=
  match r with Some (s, l) => Some (b :: s, l) | None => None end.

(** The rest of a JSON string, and what follows it; control bytes are refused. *)
Fixpoint read_str (l : list byte) : option (list byte * list byte) :=
  match l with
  | [] => None
  | c :: l =>
      if bool_decide (c = QUOTE) then Some ([], l)
      else if bool_decide (c = BACKSLASH) then
        match l with
        | [] => None
        | e :: l =>
            if bool_decide (e = Byte.x75) then
              match l with
              | h1 :: h2 :: h3 :: h4 :: l =>
                  match unicode_escape h1 h2 h3 h4 with
                  | Some b => cons_fst b (read_str l)
                  | None => None
                  end
              | _ => None
              end
            else
              match short_escape e with
              | Some b => cons_fst b (read_str l)
              | None => None
              end
        end
      else if b2z c <? 32 then None
      else cons_fst c (read_str l)
  end.

Definition is_digit (b : byte) : bool := (48 <=? b2z b) && (b2z b <=? 57).

Fixpoint read_digits (acc : Z) (l : list byte) : Z * list byte :=
  match l with
  | b :: t => if is_digit b then read_digits (acc * 10 + (b2z b - 48)) t else (acc, l)
  | [] => (acc, [])
  end.

Definition read_field (l : list byte) : option (Field * list byte) :=
  match l with
  | [] => None
  | b :: t =>
      if bool_decide (b = QUOTE)
      then match read_str t with Some (s, l) => Some (FStr s, l) | None => None end
      else if is_digit b then let '(n, l) := read_digits 0 l in Some (FU64 n, l)
      else match strip (ascii_bytes "true") l with
      | Some l => Some (FBool true, l)
      | None =>
      match strip (ascii_bytes "false") l with
      | Some l => Some (FBool false, l)
      | None =>
      match strip (ascii_bytes "null") l with
      | Some l => Some (FNull, l)
      | None => None
      end end end
  end.

(** Members up to the end of the line; the fuel bounds their number. *)
Fixpoint read_members (fuel : nat) (l : list byte) : option (list (list byte * Field)) :=
  match strip CLOSE l, fuel with
  | Some [], _ => Some []
  | Some _, _ | None, O => None
  | None, S fuel =>
      match strip [Byte.x2c; QUOTE] l with
      | None => None
      | Some l =>
          match read_str l with
          | None => None
          | Some (k, l) =>
              match strip [Byte.x3a] l with
              | None => None
              | Some l =>
                  match read_field l with
                  | None => None
                  | Some (f, l) =>
                      match read_members fuel l with
                      | None => None
                      | Some ms => Some ((k, f) :: ms)
                      end
                  end
              end
          end
      end
  end.

(** The text between two fixed pieces: a string whose opening quote is read. *)
Definition read_after (p l : list byte) : option (list byte * list byte) :=
  match strip p l with Some l => read_str l | None => None end.

(** The separators without the quote that closes the string before them. *)
Definition read_line (l : list byte) :
  option (list byte * list byte * list byte * list (list byte * Field)) :=
  match read_after OPEN_TS l with
  | None => None
  | Some (ts, l) =>
  match read_after (tail OPEN_LEVEL) l with
  | None => None
  | Some (level, l) =>
  match read_after (tail OPEN_EVENT) l with
  | None => None
  | Some (kind, l) =>
  match read_members (length l) l with
  | None => None
  | Some fields => Some (ts, level, kind, fields)
  end end end end.

(** ** Reading back *)

Lemma strip_app p l : strip p (p ++ l) = Some l.
Proof.
  induction p as [|b p IH]; cbn; [reflexivity|].
  rewrite bool_decide_eq_true_2 by reflexivity. exact IH.
Qed.

(** A fact of every byte, checked on each. *)
Lemma all_bytes (P : byte -> bool) :
  forallb (fun n => P (z2b (Z.of_nat n))) (seq 0 256) = true -> forall b, P b = true.
Proof.
  intros H b. rewrite forallb_forall in H. rewrite <- (z2b_b2z b).
  pose proof (b2z_range b) as Hb. unfold is_u8 in Hb.
  rewrite <- (Z2Nat.id (b2z b)) by lia. apply H, in_seq. lia.
Qed.

Definition reads_back (c : byte) : bool :=
  bool_decide (read_str (escape_char c ++ [QUOTE]) = Some ([c], [])).

Lemma escape_char_shape c :
  reads_back c = true /\
  forallb (fun b => 32 <=? b2z b) (escape_char c) = true.
Proof.
  split; revert c; refine (all_bytes _ _); vm_compute; reflexivity.
Qed.

(** What is read of a character does not depend on what follows. *)
Lemma read_str_char c l : read_str (escape_char c ++ l) = cons_fst c (read_str l).
Proof.
  pose proof (proj1 (escape_char_shape c)) as Hr. unfold reads_back in Hr.
  apply bool_decide_eq_true in Hr. unfold escape_char in *.
  repeat match goal with
  | |- context [if bool_decide ?P then _ else _] => destruct (bool_decide P) eqn:?
  | H : bool_decide _ = true |- _ => apply bool_decide_eq_true in H as ->; reflexivity
  end.
  destruct (b2z c <? 32) eqn:Hc.
  - cbn in Hr |- *. destruct (unicode_escape _ _ _ _); [|discriminate].
    injection Hr as ->. reflexivity.
  - cbn. rewrite Heqb, Heqb0, Hc. reflexivity.
Qed.

Lemma read_str_escaped s l : read_str (escape_into s ++ QUOTE :: l) = Some (s, l).
Proof.
  induction s as [|c s IH]; cbn [escape_into List.flat_map app].
  - reflexivity.
  - rewrite <- app_assoc. fold (escape_into s). rewrite read_str_char, IH. reflexivity.
Qed.

(** Bytes that are their own text. *)
Definition plain (b : byte) : bool := bool_decide (escape_char b = [b]).

Lemma escape_plain s : forallb plain s = true -> escape_into s = s.
Proof.
  induction s as [|b s IH]; cbn; [reflexivity|]. intros [Hb Hs]%andb_true_iff.
  apply bool_decide_eq_true in Hb. fold (escape_into s). rewrite Hb, IH by exact Hs.
  reflexivity.
Qed.

(** ** Numbers *)

Lemma dec_digit_value d : 0 <= d < 10 ->
  b2z (dec_digit d) = 48 + d /\ is_digit (dec_digit d) = true.
Proof.
  intros Hd. unfold is_digit, dec_digit. rewrite b2z_z2b_small by ulia. lia.
Qed.

Lemma dec_digits_S fuel n acc :
  dec_digits (S fuel) n acc =
    if n <? 10 then dec_digit (n mod 10) :: acc
    else dec_digits fuel (n / 10) (dec_digit (n mod 10) :: acc).
Proof. reflexivity. Qed.

Lemma dec_digits_read fuel : forall n acc, 0 <= n < 10 ^ Z.of_nat (S fuel) ->
  exists ds, dec_digits (S fuel) n acc = ds ++ acc /\ ds <> [] /\
    forallb is_digit ds = true /\ (length ds <= S fuel)%nat /\
    forall a rest, read_digits a (ds ++ rest) =
      read_digits (a * 10 ^ Z.of_nat (length ds) + n) rest.
Proof.
  induction fuel as [|fuel IH]; intros n acc Hn; rewrite dec_digits_S;
    pose proof (Z.mod_pos_bound n 10 ltac:(lia)) as Hm;
    destruct (dec_digit_value (n mod 10) Hm) as [Hv Hd].
  all: assert (Hone : n < 10 -> exists ds, dec_digit (n mod 10) :: acc = ds ++ acc /\
    ds <> [] /\ forallb is_digit ds = true /\ length ds = 1%nat /\
    forall a rest, read_digits a (ds ++ rest) =
      read_digits (a * 10 ^ Z.of_nat (length ds) + n) rest).
  1, 3: intros Hs; exists [dec_digit (n mod 10)]; cbn [app forallb]; rewrite Hd;
    split_and!; [reflexivity | discriminate | reflexivity.. |];
    intros a rest; cbn [app read_digits length]; rewrite Hd, Hv;
    rewrite (Z.mod_small n 10) by lia; f_equal; lia.
  - destruct Hone as (ds & -> & ? & ? & Hl & ?); [change (10 ^ Z.of_nat 1) with 10 in Hn; lia|].
    destruct (n <? 10); exists ds; rewrite Hl; split_and!; auto.
    all: rewrite <- Hl; auto.
  - destruct (Z.ltb_spec n 10) as [Hs|Hs].
    + destruct (Hone Hs) as (ds & -> & ? & ? & Hl & ?). exists ds. split_and!; auto. lia.
    + destruct (IH (n / 10) (dec_digit (n mod 10) :: acc)) as (ds & -> & Hne & Hall & Hl & Hr).
      { rewrite Nat2Z.inj_succ, Z.pow_succ_r in Hn by lia.
        split; [apply Z.div_pos; lia | apply Z.div_lt_upper_bound; lia]. }
      exists (ds ++ [dec_digit (n mod 10)]). rewrite <- app_assoc, forallb_app, length_app, Hall.
      cbn [length forallb app]. rewrite Hd. split_and!; auto; [destruct ds; discriminate | lia |].
      intros a rest. rewrite <- app_assoc, Hr. cbn [app read_digits]. rewrite Hd, Hv.
      f_equal. rewrite Nat2Z.inj_add, Z.pow_add_r by lia.
      pose proof (Z.div_mod n 10 ltac:(lia)). change (10 ^ Z.of_nat 1) with 10. lia.
Qed.

Lemma dec_read n : is_u64 n ->
  exists ds, dec n = ds /\ ds <> [] /\ forallb is_digit ds = true /\
    forall rest, hd_error rest = None \/
      (exists b t, rest = b :: t /\ is_digit b = false) ->
      read_digits 0 (ds ++ rest) = (n, rest).
Proof.
  intros Hn. destruct (dec_digits_read 19 n []) as (ds & E & Hne & Hall & _ & Hr);
    [ulia|]. exists ds. unfold dec. rewrite E, app_nil_r. split_and!; auto.
  intros rest Hrest. rewrite Hr. destruct Hrest as [Hh|(b & t & -> & Hb)].
  - destruct rest; [reflexivity | discriminate].
  - cbn [read_digits]. rewrite Hb. reflexivity.
Qed.

(** ** Fields and lines *)

Definition wf_field (f : Field) : Prop := match f with FU64 n => is_u64 n | _ => True end.

Lemma read_field_text f b t : wf_field f -> is_digit b = false ->
  read_field (field_text f ++ b :: t) = Some (f, b :: t).
Proof.
  intros Hf Hb. destruct f as [s|n|[]|]; [| |reflexivity..].
  - cbn [field_text app read_field]. rewrite bool_decide_eq_true_2 by reflexivity.
    rewrite <- app_assoc. cbn [app]. rewrite read_str_escaped. reflexivity.
  - cbn [field_text]. destruct (dec_read n Hf) as (ds & -> & Hne & Hall & Hr).
    destruct ds as [|d ds]; [congruence|]. cbn [app read_field].
    cbn [forallb] in Hall. apply andb_true_iff in Hall as [Hd _].
    rewrite bool_decide_eq_false_2 by (intros ->; discriminate). rewrite Hd.
    rewrite app_comm_cons, Hr by eauto. reflexivity.
Qed.

Lemma read_members_cons fuel k f b t : wf_field f -> is_digit b = false ->
  read_members (S fuel) (member_text (k, f) ++ b :: t) =
    match read_members fuel (b :: t) with Some ms => Some ((k, f) :: ms) | None => None end.
Proof.
  intros Hf Hb. unfold member_text. cbn [fst snd]. rewrite <- !app_assoc.
  pose proof (read_str_escaped k (Byte.x3a :: field_text f ++ b :: t)) as Hk.
  pose proof (read_field_text f b t Hf Hb) as Ht. cbn [app] in *.
  remember (escape_into k ++ QUOTE :: Byte.x3a :: field_text f ++ b :: t) as l eqn:El.
  change (read_members (S fuel) (Byte.x2c :: QUOTE :: l)) with
    (match read_str l with
     | None => None
     | Some (k, l) =>
         match strip [Byte.x3a] l with
         | None => None
         | Some l =>
             match read_field l with
             | None => None
             | Some (f, l) =>
                 match read_members fuel l with
                 | None => None
                 | Some ms => Some ((k, f) :: ms)
                 end
             end
         end
     end).
  rewrite Hk. change (strip [Byte.x3a] (Byte.x3a :: field_text f ++ b :: t)) with
    (Some (field_text f ++ b :: t)). cbv iota. rewrite Ht. reflexivity.
Qed.

Lemma read_members_text fields : forall fuel, (length fields <= fuel)%nat ->
  Forall (fun m => wf_field m.2) fields ->
  read_members fuel (List.flat_map member_text fields ++ CLOSE) = Some fields.
Proof.
  induction fields as [|[k f] fields IH]; intros fuel Hl Hw; [destruct fuel; reflexivity|].
  destruct fuel as [|fuel]; [cbn in Hl; lia|]. apply Forall_cons_iff in Hw as [Hf Hw].
  cbn [List.flat_map]. rewrite <- app_assoc.
  assert (Hsep : exists b t, List.flat_map member_text fields ++ CLOSE = b :: t /\ is_digit b = false).
  { destruct fields as [|m fields]; eexists _, _; (split; [reflexivity | reflexivity]). }
  destruct Hsep as (b & t & Eb & Hb). rewrite Eb, read_members_cons, <- Eb, IH by
    (auto; cbn in Hl; lia). reflexivity.
Qed.

Lemma length_member m : (1 <= length (member_text m))%nat.
Proof. cbn. lia. Qed.

Lemma length_members fields :
  (length fields <= length (List.flat_map member_text fields ++ CLOSE))%nat.
Proof.
  rewrite length_app. induction fields as [|m fields IH]; [cbn; lia|].
  cbn [List.flat_map length]. rewrite length_app. pose proof (length_member m). lia.
Qed.

(** Bytes 32 and up. *)
Definition printable (l : list byte) : bool := forallb (fun b => 32 <=? b2z b) l.

Lemma printable_app a b : printable (a ++ b) = printable a && printable b.
Proof. apply forallb_app. Qed.

Lemma printable_escaped s : printable (escape_into s) = true.
Proof.
  induction s as [|c s IH]; [reflexivity|]. cbn [escape_into List.flat_map].
  rewrite printable_app. apply andb_true_iff. split; [apply escape_char_shape | exact IH].
Qed.

Lemma printable_digits ds : forallb is_digit ds = true -> printable ds = true.
Proof.
  unfold printable. rewrite !forallb_forall. intros Hd b Hb. specialize (Hd b Hb).
  unfold is_digit in Hd. lia.
Qed.

Lemma printable_field f : wf_field f -> printable (field_text f) = true.
Proof.
  destruct f as [s|n|[]|]; intros Hf; [|destruct (dec_read n Hf) as (ds & E & _ & Hd & _)
    |reflexivity..]; cbn [field_text].
  - rewrite !printable_app, printable_escaped. reflexivity.
  - rewrite E. apply printable_digits, Hd.
Qed.

Lemma printable_members fields : Forall (fun m => wf_field m.2) fields ->
  printable (List.flat_map member_text fields) = true.
Proof.
  induction 1 as [|[k f] fields Hf _ IH]; [reflexivity|]. cbn [List.flat_map].
  rewrite printable_app, IH. unfold member_text. cbn [fst snd] in *.
  rewrite !printable_app, printable_escaped, (printable_field f Hf). reflexivity.
Qed.

(** ** The calendar *)

Definition is_leap (y : Z) : bool :=
  (y mod 4 =? 0) && (negb (y mod 100 =? 0) || (y mod 400 =? 0)).

Definition month_days (leap : bool) (m : Z) : Z :=
  if m =? 2 then if leap then 29 else 28
  else if (m =? 4) || (m =? 6) || (m =? 9) || (m =? 11) then 30 else 31.

Definition day_after (leap : bool) (date : Z * Z * Z) : Z * Z * Z :=
  let '(y, m, d) := date in
  if d <? month_days leap m then (y, m, d + 1)
  else if m <? 12 then (y, m + 1, 1) else (y + 1, 1, 1).

(** The Gregorian calendar: the day after a date, and which dates there are. *)
Definition next_day (date : Z * Z * Z) : Z * Z * Z := day_after (is_leap date.1.1) date.

Definition valid_date (date : Z * Z * Z) : Prop :=
  let '(y, m, d) := date in 1 <= m <= 12 /\ 1 <= d <= month_days (is_leap y) m.

Lemma is_leap_period y k : is_leap (y + k * 400) = is_leap y.
Proof.
  unfold is_leap. replace (y + k * 400) with (y + (100 * k) * 4) at 1 by lia.
  replace (y + k * 400) with (y + (4 * k) * 100) at 1 by lia.
  rewrite !Z.mod_add by lia. reflexivity.
Qed.

Lemma forallb_range (P : Z -> bool) n :
  forallb (fun i => P (Z.of_nat i)) (seq 0 n) = true ->
  forall z, 0 <= z < Z.of_nat n -> P z = true.
Proof.
  rewrite forallb_forall. intros H z Hz. rewrite <- (Z2Nat.id z) by lia.
  apply H, in_seq. lia.
Qed.

(** *** The year of a day of the era *)

Definition yoe_of (doe : Z) : Z :=
  (doe - doe / 1460 + doe / 36524 - doe / 146096) / 365.

(** The first day of year [y] of the era, counted from March. *)
Definition start (y : Z) : Z := 365 * y + y / 4 - y / 100.

Lemma yoe_step doe : 0 <= doe -> yoe_of doe <= yoe_of (doe + 1).
Proof.
  intros Hd. unfold yoe_of. apply Z.div_le_mono; [lia|].
  Z.to_euclidean_division_equations. lia.
Qed.

Lemma yoe_mono a b : 0 <= a <= b -> yoe_of a <= yoe_of b.
Proof.
  intros [Ha Hab]. replace b with (a + Z.of_nat (Z.to_nat (b - a))) by lia.
  induction (Z.to_nat (b - a)) as [|n IH]; [rewrite Z.add_0_r; lia|].
  etransitivity; [exact IH|]. rewrite Nat2Z.inj_succ, <- Z.add_1_r, Z.add_assoc.
  apply yoe_step. lia.
Qed.

Definition year_ok (y : Z) : bool :=
  (yoe_of (start y) =? y) && (0 <=? start y) && ((y =? 0) || (yoe_of (start y - 1) =? y - 1)) &&
  ((if y =? 399 then 146097 else start (y + 1)) - start y =? if is_leap (y + 1) then 366 else 365).

Lemma years_ok y : 0 <= y < 400 -> year_ok y = true.
Proof. apply (forallb_range year_ok 400). vm_compute. reflexivity. Qed.

(** [doe] is the day [doe - start (yoe_of doe)] of its year. *)
Lemma yoe_spec doe : 0 <= doe < 146097 ->
  let y := yoe_of doe in
  0 <= y < 400 /\ 0 <= doe - start y < (if is_leap (y + 1) then 366 else 365).
Proof.
  intros Hd y. assert (Hy : 0 <= y < 400).
  { pose proof (yoe_mono 0 doe ltac:(lia)). pose proof (yoe_mono doe 146096 ltac:(lia)).
    change (yoe_of 0) with 0 in *. change (yoe_of 146096) with 399 in *. subst y. lia. }
  split; [exact Hy|]. pose proof (years_ok y Hy) as Hok. unfold year_ok in Hok.
  rewrite !andb_true_iff, orb_true_iff, !Z.eqb_eq, Z.leb_le in Hok.
  destruct Hok as [[[Hs H0] Hp] Hl].
  assert (Hlow : start y <= doe).
  { destruct Hp as [->|Hp]; [change (start 0) with 0 in *; lia|].
    destruct (Z.le_gt_cases (start y) doe) as [|Hlt]; [assumption|].
    pose proof (yoe_mono doe (start y - 1) ltac:(lia)) as Hm. fold y in Hm. lia. }
  split; [lia|]. rewrite <- Hl. destruct (Z.eqb_spec y 399) as [E|E]; [lia|].
  pose proof (years_ok (y + 1) ltac:(lia)) as Hn. unfold year_ok in Hn.
  rewrite !andb_true_iff, Z.leb_le, !Z.eqb_eq in Hn. destruct Hn as [[[Hn H1] _] _].
  destruct (Z.lt_ge_cases doe (start (y + 1))) as [|Hge]; [lia|].
  pose proof (yoe_mono (start (y + 1)) doe ltac:(lia)) as Hm. fold y in Hm. lia.
Qed.

Lemma start_mono a b : a <= b -> start a <= start b.
Proof. intros Hab. unfold start. Z.to_euclidean_division_equations. lia. Qed.

(** *** The month of a day of the year *)

(** The date of a day counted from March, with the year as an offset. *)
Definition month_day (doy : Z) : Z * Z * Z :=
  let mp := (5 * doy + 2) / 153 in
  let dd := doy - (153 * mp + 2) / 5 + 1 in
  let m := if mp <? 10 then mp + 3 else mp - 9 in
  (if m <=? 2 then 1 else 0, m, dd).

Definition add_years (y : Z) (date : Z * Z * Z) : Z * Z * Z :=
  let '(c, m, d) := date in (y + c, m, d).

Lemma add_years_twice a b date : add_years a (add_years b date) = add_years (a + b) date.
Proof. destruct date as [[c m] d]. cbn. rewrite Z.add_assoc. reflexivity. Qed.

Lemma day_after_years leap y date :
  day_after leap (add_years y date) = add_years y (day_after leap date).
Proof.
  destruct date as [[c m] d]. unfold day_after, add_years. repeat case_match; auto.
  rewrite Z.add_assoc. reflexivity.
Qed.

Definition dates_eqb (a b : Z * Z * Z) : bool :=
  (a.1.1 =? b.1.1) && (a.1.2 =? b.1.2) && (a.2 =? b.2).

Lemma dates_eqb_eq a b : dates_eqb a b = true -> a = b.
Proof.
  destruct a as [[]], b as [[]]. unfold dates_eqb. cbn.
  rewrite !andb_true_iff, !Z.eqb_eq. intros [[-> ->] ->]. reflexivity.
Qed.

(** Every day of the year in a leap year and in another; February is in the
    second of the two years that a year from March spans. *)
Definition day_ok (leap : bool) (doy : Z) : bool :=
  let '(c, m, d) := month_day doy in
  ((5 * doy + 2) / 153 <? 12) && (1 <=? m) && (m <=? 12) && (1 <=? d) &&
  (negb (m =? 2) || (c =? 1)) &&
  (negb (doy <? (if leap then 366 else 365)) ||
   ((d <=? month_days leap m) &&
    dates_eqb (day_after leap (month_day doy))
      (if doy <? (if leap then 365 else 364) then month_day (doy + 1)
       else add_years 1 (month_day 0)))).

Lemma days_ok leap doy : 0 <= doy < 366 -> day_ok leap doy = true.
Proof. apply (forallb_range (day_ok leap) 366). destruct leap; vm_compute; reflexivity. Qed.

(** Only February depends on the leap year. *)
Lemma month_days_leap a b m : m <> 2 -> month_days a m = month_days b m.
Proof. unfold month_days. destruct (Z.eqb_spec m 2); [congruence | reflexivity]. Qed.

Lemma date_step y doy (leap := is_leap (y + 1)) :
  0 <= doy < (if leap then 366 else 365) ->
  let date := add_years y (month_day doy) in
  valid_date date /\ 0 <= (5 * doy + 2) / 153 < 12 /\
  next_day date =
    if doy <? (if leap then 365 else 364) then add_years y (month_day (doy + 1))
    else add_years (y + 1) (month_day 0).
Proof.
  intros Hd date. assert (H366 : 0 <= doy < 366) by (destruct leap; lia).
  pose proof (days_ok leap doy H366) as Hok. subst date. unfold day_ok in Hok.
  destruct (month_day doy) as [[c m] d] eqn:E.
  rewrite !andb_true_iff, !orb_true_iff, andb_true_iff, !negb_true_iff in Hok.
  destruct Hok as [[[[[Hmp H1] H12] Hd1] Hc] Hrest].
  destruct Hrest as [Hrest|[Hlast Hnext]]; [destruct leap; lia|].
  apply dates_eqb_eq in Hnext.
  assert (Hleap : month_days (is_leap (y + c)) m = month_days leap m).
  { destruct (decide (m = 2)) as [->|Hm]; [|apply month_days_leap, Hm].
    destruct Hc as [?|Hc]; [lia|]. apply Z.eqb_eq in Hc as ->. reflexivity. }
  split; [cbn [add_years valid_date]; rewrite Hleap; lia|].
  split; [split; [apply Z.div_pos|]; lia|].
  unfold next_day. cbn [add_years fst]. change (y + c, m, d) with (add_years y (c, m, d)).
  replace (day_after (is_leap (y + c)) (add_years y (c, m, d)))
    with (day_after leap (add_years y (c, m, d)))
    by (unfold day_after; cbn [add_years]; rewrite Hleap; reflexivity).
  rewrite day_after_years, Hnext. destruct (doy <? _); [reflexivity|].
  apply add_years_twice.
Qed.

Lemma civil_floor z :
  let w := z + 719468 in
  let doe := w mod 146097 in
  civil_parts z = MkParts (w / 146097) doe (yoe_of doe) (doe - start (yoe_of doe))
    ((5 * (doe - start (yoe_of doe)) + 2) / 153) /\
  civil_from_days z =
    add_years (w / 146097 * 400 + yoe_of doe) (month_day (doe - start (yoe_of doe))).
Proof.
  intros w doe.
  assert (Hera : Z.quot (if 0 <=? w then w else w - 146096) 146097 = w / 146097).
  { destruct (Z.leb_spec 0 w); Z.to_euclidean_division_equations; lia. }
  assert (Hdoe : w - w / 146097 * 146097 = doe).
  { subst doe. rewrite Z.mod_eq by lia. lia. }
  assert (Hp : civil_parts z = MkParts (w / 146097) doe (yoe_of doe)
    (doe - start (yoe_of doe)) ((5 * (doe - start (yoe_of doe)) + 2) / 153)).
  { unfold civil_parts. fold w. cbn zeta. rewrite Hera, Hdoe. reflexivity. }
  split; [exact Hp|]. unfold civil_from_days. rewrite Hp. unfold month_day, add_years.
  cbn zeta. destruct (_ <=? 2); f_equal; f_equal; lia.
Qed.

Lemma calendar_day z :
  civil_from_days (z + 1) = next_day (civil_from_days z) /\
  valid_date (civil_from_days z) /\
  let p := civil_parts z in
  0 <= cp_doe p < 146097 /\ 0 <= cp_yoe p < 400 /\ 0 <= cp_doy p < 366 /\
  0 <= cp_mp p < 12.
Proof.
  destruct (civil_floor z) as [Hp Hc]. destruct (civil_floor (z + 1)) as [_ Hn].
  set (w := z + 719468) in *. replace (z + 1 + 719468) with (w + 1) in Hn by lia.
  pose proof (Z.mod_pos_bound w 146097 ltac:(lia)) as Hm.
  set (doe := w mod 146097) in *. pose proof (yoe_spec doe Hm) as [Hy Hd].
  set (y := yoe_of doe) in *.
  assert (Hleap : is_leap (w / 146097 * 400 + y + 1) = is_leap (y + 1)).
  { replace (w / 146097 * 400 + y + 1) with (y + 1 + w / 146097 * 400) by lia.
    apply is_leap_period. }
  pose proof (date_step (w / 146097 * 400 + y) (doe - start y)) as Hstep.
  cbv zeta in Hstep. rewrite Hleap in Hstep. specialize (Hstep Hd) as (Hv & Hmp & Hnext).
  rewrite Hc, Hnext, Hp. cbn [cp_doe cp_yoe cp_doy cp_mp].
  split; [|split; [exact Hv | split_and!; try lia; destruct (is_leap _); lia]].
  rewrite Hn. clear Hn Hnext Hv Hp Hc.
  pose proof (years_ok y Hy) as Hok. unfold year_ok in Hok.
  rewrite !andb_true_iff, !Z.eqb_eq in Hok. destruct Hok as [_ Hl].
  destruct (decide (doe = 146096)) as [Elast|Hlast].
  - assert (E1 : (w + 1) mod 146097 = 0 /\ (w + 1) / 146097 = w / 146097 + 1)
      by (subst doe; split; Z.to_euclidean_division_equations; lia).
    destruct E1 as [-> ->]. change (yoe_of 0) with 0. change (0 - start 0) with 0.
    assert (y = 399) as -> by (subst y; rewrite Elast; reflexivity).
    rewrite Elast. change (146096 - start 399) with 365. change (is_leap (399 + 1)) with true.
    cbn [Z.ltb Z.compare]. f_equal. lia.
  - assert (E1 : (w + 1) mod 146097 = doe + 1 /\ (w + 1) / 146097 = w / 146097)
      by (subst doe; split; Z.to_euclidean_division_equations; lia).
    destruct E1 as [-> ->]. pose proof (yoe_spec (doe + 1) ltac:(lia)) as [Hy' Hd'].
    pose proof (yoe_mono doe (doe + 1) ltac:(lia)) as Hup. fold y in Hup.
    destruct (Z.ltb_spec (doe - start y) (if is_leap (y + 1) then 365 else 364)) as [Hin|Hout].
    + assert (yoe_of (doe + 1) = y) as ->; [|f_equal; f_equal; lia].
      destruct (Z.eqb_spec y 399) as [E|E]; [lia|].
      destruct (Z.le_gt_cases (yoe_of (doe + 1)) y) as [|Hgt]; [lia|].
      pose proof (start_mono (y + 1) (yoe_of (doe + 1)) ltac:(lia)).
      destruct (is_leap (y + 1)); lia.
    + destruct (Z.eqb_spec y 399) as [E|E].
      { exfalso. apply Hlast. rewrite E in Hd, Hout.
        change (is_leap (399 + 1)) with true in *. cbv iota in Hd, Hout.
        assert (start 399 = 145731) by reflexivity. lia. }
      assert (doe + 1 = start (y + 1)) as E1 by (destruct (is_leap (y + 1)); lia).
      pose proof (years_ok (y + 1) ltac:(lia)) as Hnext. unfold year_ok in Hnext.
      rewrite !andb_true_iff, !Z.eqb_eq in Hnext. destruct Hnext as [[[Hnext _] _] _].
      rewrite E1, Hnext, Z.sub_diag. f_equal. lia.
Qed.

(** C39: the dates of the log are the Gregorian calendar.  Day 0 is 1 January 1970,
    the next day number gives the day after, and every number gives a valid date;
    on the way every quantity the code keeps unsigned stays in its range. *)
Theorem calendar_correct :
  civil_from_days 0 = (1970, 1, 1) /\
  forall z,
    civil_from_days (z + 1) = next_day (civil_from_days z) /\
    valid_date (civil_from_days z) /\
    let p := civil_parts z in
    0 <= cp_doe p < 146097 /\ 0 <= cp_yoe p < 400 /\ 0 <= cp_doy p < 366 /\
    0 <= cp_mp p < 12.
Proof.
  split; [vm_compute; reflexivity | exact calendar_day].
Qed.

(** ** Lines *)

Lemma plain_app a b : forallb plain (a ++ b) = forallb plain a && forallb plain b.
Proof. apply forallb_app. Qed.

Lemma plain_digit b : is_digit b = true -> plain b = true.
Proof.
  assert (H : forall b, implb (is_digit b) (plain b) = true)
    by (refine (all_bytes _ _); vm_compute; reflexivity).
  intros Hb. specialize (H b). rewrite Hb in H. exact H.
Qed.

Lemma plain_dec n : 0 <= n < 10 ^ 20 -> forallb plain (dec n) = true.
Proof.
  intros Hn. destruct (dec_digits_read 19 n [] Hn) as (ds & E & _ & Hd & _).
  unfold dec. rewrite E, app_nil_r. rewrite forallb_forall in *.
  intros b Hb. apply plain_digit, Hd, Hb.
Qed.

Lemma plain_dec_pad w n : - 10 ^ 20 < n < 10 ^ 20 -> forallb plain (dec_pad w n) = true.
Proof.
  intros Hn. unfold dec_pad, pad_zeros.
  assert (Hz : forall k, forallb plain (repeat Byte.x30 k) = true)
    by (induction k; [reflexivity | exact IHk]).
  destruct (Z.ltb_spec n 0); cbn [forallb]; rewrite plain_app, Hz, plain_dec by lia;
    reflexivity.
Qed.

Lemma civil_range z : - 10 ^ 18 <= z <= 10 ^ 18 ->
  let '(y, m, d) := civil_from_days z in - 10 ^ 19 <= y <= 10 ^ 19 /\ 1 <= m <= 12 /\ 1 <= d <= 31.
Proof.
  intros Hz. destruct (civil_floor z) as [_ Hc].
  destruct (calendar_day z) as (_ & Hv' & _ & Hy & _).
  destruct (civil_floor z) as [Hp _]. rewrite Hp in Hy. cbn [cp_yoe] in Hy.
  rewrite Hc in *. destruct (month_day _) as [[c m] d] eqn:E. cbn [add_years valid_date] in *.
  assert (0 <= c <= 1) by (unfold month_day in E; injection E as <- _ _; destruct (_ <=? 2); lia).
  assert (d <= 31) by (destruct Hv' as [_ [_ Hd]]; unfold month_days in Hd; repeat case_match; lia).
  split_and!; try lia; Z.to_euclidean_division_equations; lia.
Qed.

Lemma plain_timestamp secs millis : is_u64 secs -> 0 <= millis < 1000 ->
  forallb plain (now_rfc3339_millis secs millis) = true.
Proof.
  intros Hs Hm. unfold now_rfc3339_millis. set (t := as_i64 secs).
  assert (Ht : - 2 ^ 63 <= t < 2 ^ 63)
    by (subst t; unfold as_i64; destruct (Z.ltb_spec secs (2 ^ 63)); ulia).
  pose proof (civil_range (t / 86400)) as Hd.
  destruct (civil_from_days (t / 86400)) as [[y m] d].
  destruct Hd as (Hy & Hmo & Hday); [Z.to_euclidean_division_equations; lia|].
  pose proof (Z.mod_pos_bound t 86400 ltac:(lia)) as Hsod. set (sod := t mod 86400) in *.
  rewrite !plain_app, !plain_dec_pad; [reflexivity|..]; try lia;
    Z.to_euclidean_division_equations; lia.
Qed.

Lemma plain_printable s : forallb plain s = true -> printable s = true.
Proof. intros Hs. rewrite <- (escape_plain s Hs). apply printable_escaped. Qed.

(** A log line is one line and says what was logged.  Whatever the level, the
    event and the members are - the addresses and error texts in them come from
    outside - the line has no control byte before its line end, and a reader of
    JSON gets the time, the level, the event and every member back. *)
Theorem event_roundtrip secs millis level kind fields :
  is_u64 secs -> 0 <= millis < 1000 -> Forall (fun m => wf_field m.2) fields ->
  let ts := now_rfc3339_millis secs millis in
  let line := event_line ts level kind fields in
  read_line line = Some (ts, level, kind, fields) /\
  exists body, line = body ++ [LF] /\ printable body = true.
Proof.
  intros Hs Hm Hf ts line.
  assert (Hts : forallb plain ts = true) by (apply plain_timestamp; assumption). split.
  - subst line. unfold event_line, read_line, read_after. rewrite strip_app.
    rewrite <- (escape_plain ts Hts) at 1. cbn [OPEN_LEVEL app].
    rewrite read_str_escaped. cbn [tail OPEN_LEVEL].
    match goal with |- context [strip ?p ?l] => 
      change (strip p l) with (strip p (p ++ (escape_into level ++ OPEN_EVENT ++
        escape_into kind ++ [QUOTE] ++ List.flat_map member_text fields ++ CLOSE))) end.
    rewrite strip_app. cbn [OPEN_EVENT app]. rewrite read_str_escaped. cbn [tail OPEN_EVENT].
    match goal with |- context [strip ?p ?l] => 
      change (strip p l) with (strip p (p ++ (
        escape_into kind ++ [QUOTE] ++ List.flat_map member_text fields ++ CLOSE))) end.
    rewrite strip_app. cbn [app]. rewrite read_str_escaped.
    rewrite read_members_text; [reflexivity | apply length_members | exact Hf].
  - exists (OPEN_TS ++ ts ++ OPEN_LEVEL ++ escape_into level ++ OPEN_EVENT ++
      escape_into kind ++ [QUOTE] ++ List.flat_map member_text fields ++ [Byte.x7d]).
    split; [subst line; unfold event_line, CLOSE; rewrite <- !app_assoc; reflexivity|].
    rewrite !printable_app, !printable_escaped, (plain_printable ts Hts),
      (printable_members fields Hf). reflexivity.
Qed.

(** ** The write of a line

    A log file that is written by this program alone: what the clock said, the
    bytes in the file, and whether a call failed.  A [write] takes a front of its
    bytes, a failing [write_all] some front. *)
Record LogDisk := MkLogDisk { ld_now : Z * Z; ld_bytes : list byte; ld_failed : bool }.

Definition ld_grow (d : LogDisk) (bs : list byte) (failed : bool) : LogDisk :=
  MkLogDisk (ld_now d) (ld_bytes d ++ bs) (ld_failed d || failed).

Definition log_step (d : LogDisk) (c : LogCall) : log_answer c -> LogDisk -> Prop :=
  match c with
  | LcClock => fun now d' => d' = MkLogDisk now (ld_bytes d) (ld_failed d)
  | LcWrite _ bs => fun r d' =>
      match r with
      | Some n => 0 <= n <= Z.of_nat (length bs) /\ d' = ld_grow d (take (Z.to_nat n) bs) false
      | None => d' = ld_grow d [] true
      end
  | LcWriteAll _ bs => fun ok d' =>
      if ok : bool then d' = ld_grow d bs false else exists k, d' = ld_grow d (take k bs) true
  | LcOpenAppend | LcCreateParent => fun _ _ => False
  | LcStderr _ | LcComplain => fun _ d' => d' = d
  end.

Lemma meets_log_ask c d (Q : log_answer c -> LogDisk -> Prop) :
  (forall a d', log_step d c a d' -> Q a d') -> act_meets log_step False (log_ask c) d Q.
Proof. exact id. Qed.

(** [log_event] always returns; the file has grown by the line, or, when a write
    failed, by a front of it. *)
Lemma log_event_writes log level kind fields d :
  ld_failed d = false ->
  act_meets log_step False (log_event log level kind fields) d (fun _ d' =>
    let line := event_line (now_rfc3339_millis (ld_now d').1 (ld_now d').2) level kind fields in
    exists front, ld_bytes d' = ld_bytes d ++ front /\ front `prefix_of` line /\
      (ld_failed d' = false -> front = line)).
Proof.
  intros Hd. unfold log_event. apply act_meets_bind, meets_log_ask. intros now d1 ->.
  set (line := event_line _ _ _ _). cbn [ld_now].
  assert (Hend : forall d2 (Q : unit -> LogDisk -> Prop), Q tt d2 ->
    act_meets log_step False
      (if lg_verbose log then let* w := log_ask (LcStderr line) in done tt else done tt) d2 Q).
  { intros d2 Q HQ. destruct (lg_verbose log); [|exact HQ].
    apply act_meets_bind, meets_log_ask. intros ok d3 ->. exact HQ. }
  apply act_meets_bind, meets_log_ask. intros [n|] d2 Hw; cbn in Hw.
  - destruct Hw as [Hn ->]. apply act_meets_bind.
    destruct (Z.eqb_spec n (Z.of_nat (length line))) as [E|_].
    + apply act_meets_done, Hend. cbn [ld_now ld_bytes ld_failed ld_grow]. exists line.
      rewrite E, Nat2Z.id, firstn_all. auto.
    + apply act_meets_bind, meets_log_ask. intros u d3 ->.
      apply act_meets_bind, meets_log_ask. intros ok d4 Hall.
      apply act_meets_done, Hend.
      destruct ok; [|destruct Hall as [k Hall]]; rewrite Hall;
        cbn [ld_now ld_bytes ld_failed ld_grow].
      * exists line. rewrite <- app_assoc, take_drop. auto.
      * exists (take (Z.to_nat n) line ++ take k (drop (Z.to_nat n) line)).
        rewrite <- app_assoc. split_and!; [reflexivity | | rewrite orb_true_r; discriminate].
        rewrite take_take_drop. apply prefix_take.
  - rewrite Hw. apply act_meets_bind, meets_log_ask. intros u d3 ->. apply Hend.
    cbn [ld_now ld_bytes ld_failed ld_grow]. exists [].
    split_and!; [reflexivity | apply prefix_nil | rewrite orb_true_r; discriminate].
Qed.

Lemma event_roundtrip_witness :
  now_rfc3339_millis 1709210096 7 = ascii_bytes "2024-02-29T12:34:56.007Z" /\
  read_line (event_line (now_rfc3339_millis 1709210096 7) (key "info") (key "client_version")
    (client_version 3 (Some [QUOTE; LF; BACKSLASH]) false)) =
  Some (ascii_bytes "2024-02-29T12:34:56.007Z", key "info", key "client_version",
        client_version 3 (Some [QUOTE; LF; BACKSLASH]) false).
Proof.
  split; [reflexivity|].
  destruct (event_roundtrip 1709210096 7 (key "info") (key "client_version")
    (client_version 3 (Some [QUOTE; LF; BACKSLASH]) false)) as [Hr _];
    [ulia | lia | repeat constructor; cbn; ulia | exact Hr].
Defined.
