(* ===== verification/Doorkeeper.v ===== *)
(** * Doorkeeper: the SSH relay ([otp-doorkeeper], proxy.rs)

    The accept loop, the thread of a connection and its two pipe threads, as
    programs over the counters they share, the sockets, the clock and the log. *)

From stdpp Require Import strings.
From S2P Require Export DoorLog.

#[local] Open Scope list_scope.
#[local] Open Scope Z_scope.

Definition PIPE_BUF_SIZE : Z := 16 * 1024.

Inductive Side := SdClient | SdUpstream.

#[global] Instance side_eq_dec : EqDecision Side.
Proof. solve_decision. Defined.

(** [io::ErrorKind], as far as it is told apart. *)
Inductive IoKind := KReset | KBrokenPipe | KAborted | KInterrupted | KOther.

Inductive Shutdown := ShutWrite | ShutBoth.

(** ** Text of addresses ([Display] of the standard library) *)

(** [{:x}] of 16 bits. *)
Definition hex_short (n : Z) : list byte :=
  let digits := hex4 n in
  if n <? 16 then drop 3 digits else if n <? 256 then drop 2 digits
  else if n <? 4096 then drop 1 digits else digits.

Definition ip4_text (a b c d : Z) : list byte :=
  dec a ++ [Byte.x2e] ++ dec b ++ [Byte.x2e] ++ dec c ++ [Byte.x2e] ++ dec d.

Fixpoint segments_text (l : list Z) : list byte :=
  match l with
  | [] => []
  | [s] => hex_short s
  | s :: l => hex_short s ++ [Byte.x3a] ++ segments_text l
  end.

(** The longest run of zero segments, the first of that length: its start and its
    length; [cur] is the run that ends here. *)
Fixpoint longest_zeros (i : nat) (cur best : nat * nat) (l : list Z) : nat * nat :=
  match l with
  | [] => best
  | s :: l =>
      if s =? 0 then
        let cur := (if (cur.2 =? 0)%nat then i else cur.1, S cur.2) in
        longest_zeros (S i) cur (if (best.2 <? cur.2)%nat then cur else best) l
      else longest_zeros (S i) (O, O) best l
  end.

Definition ip_text (ip : IpAddr) : list byte :=
  match ip with
  | V4 a b c d => ip4_text a b c d
  | V6 s0 s1 s2 s3 s4 s5 s6 s7 =>
      match to_ipv4_mapped ip with
      | Some (V4 a b c d) => ascii_bytes "::ffff:" ++ ip4_text a b c d
      | _ =>
          let segs := [s0; s1; s2; s3; s4; s5; s6; s7] in
          let '(start, len) := longest_zeros 0 (O, O) (O, O) segs in
          if (1 <? len)%nat
          then segments_text (take start segs) ++ ascii_bytes "::" ++
               segments_text (drop (start + len) segs)
          else segments_text segs
      end
  end.

Definition addr_text (a : SocketAddr) : list byte :=
  match sa_ip a with
  | V4 _ _ _ _ as ip => ip_text ip ++ [Byte.x3a] ++ dec (sa_port a)
  | V6 _ _ _ _ _ _ _ _ as ip =>
      [Byte.x5b] ++ ip_text ip ++ [Byte.x5d; Byte.x3a] ++ dec (sa_port a)
  end.

(** ** Events *)

Inductive CloseReason :=
  | RsNormal | RsClientReset | RsUpstreamReset | RsWarnWriteTimeout
  | RsUpstreamUnavailable | RsOverLimit.

#[global] Instance close_reason_eq_dec : EqDecision CloseReason.
Proof. solve_decision. Defined.

Definition reason_str (r : CloseReason) : list byte :=
  ascii_bytes
    match r with
    | RsNormal => "normal" | RsClientReset => "client_reset"
    | RsUpstreamReset => "upstream_reset" | RsWarnWriteTimeout => "warn_write_timeout"
    | RsUpstreamUnavailable => "upstream_unavailable" | RsOverLimit => "over_limit"
    end.

Inductive DoorEvent :=
  | EvListenStart (cfg : Config)
  | EvAccept (id : Z) (peer : SocketAddr)
  | EvWarnSent (id bytes : Z)
  | EvUpstreamConnect (id : Z) (ok : bool) (ms : Z) (err : option (list byte))
  | EvClientVersion (id : Z) (version : option (list byte)) (truncated : bool)
  | EvClose (id : Z) (reason : CloseReason) (c2s s2c ms : Z)
  | EvRefused (peer : SocketAddr) (cur_conns : Z)
  | EvSpawnFailed (peer : SocketAddr).

(** The arguments of [JsonlLog::event]: level, kind and fields. *)
Definition event_args (pid : Z) (version : list byte) (e : DoorEvent) :
  list byte * list byte * list (list byte * Field) :=
  match e with
  | EvListenStart cfg =>
      (key "info", key "listen_start",
       listen_start (addr_text (dc_listen cfg)) (addr_text (dc_upstream cfg))
         (onoff_fmt (dc_warn_mode cfg)) (dc_max_conns cfg) pid version)
  | EvAccept id peer =>
      (key "info", key "conn_accept",
       conn_accept id (ip_text (sa_ip peer)) (sa_port peer) (family_of (sa_ip peer)))
  | EvWarnSent id n => (key "info", key "warn_sent", warn_sent id n)
  | EvUpstreamConnect id ok ms err =>
      (key "info", key "upstream_connect", upstream_connect id ok ms err)
  | EvClientVersion id v t => (key "info", key "client_version", client_version id v t)
  | EvClose id r a b ms => (key "info", key "conn_close", conn_close id (reason_str r) a b ms)
  | EvRefused peer n =>
      (key "warn", key "conn_refused_over_limit",
       conn_refused_over_limit (ip_text (sa_ip peer)) (sa_port peer) n)
  | EvSpawnFailed peer =>
      (key "error", key "conn_spawn_failed", [(key "src_ip", FStr (ip_text (sa_ip peer)))])
  end.

(** ** The environment *)

Inductive DoorCall :=
  | DcStop
  | DcAccept
  | DcDropStream
  | DcLoadConns
  | DcCasConns (cur new : Z)
  | DcSubConns
  | DcFetchId
  | DcSpawnConn (peer : SocketAddr)
  | DcLog (e : DoorEvent)
  | DcComplain
  | DcElapsed
  | DcApplyPolicy (s : Side)
  | DcConnect (addr : SocketAddr)
  | DcClearTimeouts (s : Side)
  | DcTryClone (s : Side)
  | DcSpawnPipe (read_side : Side)
  | DcJoin (read_side : Side)
  | DcTakeVersion
  | DcFirstErr
  | DcLoadBytes (read_side : Side)
  | DcRead (s : Side) (n : Z)
  | DcWriteAll (s : Side) (bs : list byte)
  | DcObserve (chunk : list byte)
  | DcRecordErr (s : Side)
  | DcAddBytes (read_side : Side) (n : Z)
  | DcShutdown (s : Side) (how : Shutdown).

(** [DcCasConns] is [compare_exchange_weak]: on failure it answers the value seen.
    [DcSpawnConn] and [DcSpawnPipe] answer whether the thread was made, [DcConnect]
    the text of its error.  The mutexes of the observer and of the first error are
    held for the one call that locks them. *)
Definition door_answer (c : DoorCall) : Type :=
  match c with
  | DcStop | DcSpawnConn _ | DcApplyPolicy _ | DcTryClone _ | DcSpawnPipe _ => bool
  | DcAccept => result SocketAddr IoKind
  | DcLoadConns | DcFetchId | DcElapsed | DcLoadBytes _ => Z
  | DcCasConns _ _ => result unit Z
  | DcConnect _ => result unit (list byte)
  | DcTakeVersion => (option (list byte) * bool)%type
  | DcFirstErr => option Side
  | DcRead _ _ => result (list byte) IoKind
  | DcWriteAll _ _ => result unit IoKind
  | _ => unit
  end.

Notation door_act R := (act DoorCall door_answer R).
Definition door_ask (c : DoorCall) : door_act (door_answer c) :=
  ask (C := DoorCall) (A := door_answer) c.

Definition log_it (e : DoorEvent) : door_act unit := door_ask (DcLog e).

(** ** The accept loop *)

(** [try_inc]: the loop of compare and exchange. *)
Fixpoint cas_loop (fuel : nat) (cur max : Z) : door_act bool :=
  match fuel with
  | O => Ret OutOfFuel
  | S fuel =>
      if max <=? cur then done false else
      let* r := door_ask (DcCasConns cur (cur + 1)) in
      match r with Ok _ => done true | Err actual => cas_loop fuel actual max end
  end.

Definition try_inc (fuel : nat) (max : Z) : door_act bool :=
  let* cur := door_ask DcLoadConns in cas_loop fuel cur max.

Definition refuse (cfg : Config) (peer : SocketAddr) : door_act unit :=
  let* _ := log_it (EvRefused peer (dc_max_conns cfg)) in
  let* id := door_ask DcFetchId in
  let* _ := log_it (EvClose id RsOverLimit 0 0 0) in
  door_ask DcDropStream.

Definition admit_conn (peer : SocketAddr) : door_act unit :=
  let* spawned := door_ask (DcSpawnConn peer) in
  if spawned then done tt
  else
    let* _ := door_ask DcSubConns in
    log_it (EvSpawnFailed peer).

Fixpoint accept_loop (fuel : nat) (cfg : Config) : door_act (result unit IoKind) :=
  match fuel with
  | O => Ret OutOfFuel
  | S fuel' =>
      let* stop := door_ask DcStop in
      if stop then done (Ok tt) else
      let* r := door_ask DcAccept in
      match r with
      | Err KInterrupted => accept_loop fuel' cfg
      | Err e => done (Err e)
      | Ok peer =>
          let* stop := door_ask DcStop in
          if stop then let* _ := door_ask DcDropStream in done (Ok tt) else
          let* ok := try_inc fuel (dc_max_conns cfg) in
          let* _ := if ok then admit_conn peer else refuse cfg peer in
          accept_loop fuel' cfg
      end
  end.

(** [serve]. *)
Definition door_serve (fuel : nat) (cfg : Config) : door_act (result unit IoKind) :=
  let* _ := log_it (EvListenStart cfg) in
  accept_loop fuel cfg.

(** ** One connection *)

Definition close_conn (id : Z) (reason : CloseReason) : door_act unit :=
  let* ms := door_ask DcElapsed in
  log_it (EvClose id reason 0 0 ms).

Fixpoint connect_to (cands : list SocketAddr) (last_err : list byte) :
  door_act (result unit (list byte)) :=
  match cands with
  | [] => done (Err last_err)
  | cand :: cands =>
      let* r := door_ask (DcConnect cand) in
      match r with
      | Ok _ =>
          let* ok := door_ask (DcApplyPolicy SdUpstream) in
          let* _ := if ok then done tt else door_ask DcComplain in
          done (Ok tt)
      | Err e => connect_to cands e
      end
  end.

Definition connect_upstream (addr : SocketAddr) : door_act (result unit (list byte)) :=
  connect_to (upstream_candidates addr) (ascii_bytes "无上游候选地址").

(** The four handles; [?] stops at the first that fails. *)
Fixpoint clone_all (sides : list Side) : door_act bool :=
  match sides with
  | [] => done true
  | s :: sides =>
      let* ok := door_ask (DcTryClone s) in
      if ok then clone_all sides else done false
  end.

(** [spawn_pipe_thread]: a failure panics. *)
Definition spawn_pipe_thread (read_side : Side) : door_act unit :=
  let* ok := door_ask (DcSpawnPipe read_side) in
  if ok then done tt else Ret Panicked.

Definition pipe (id : Z) : door_act unit :=
  let* _ := door_ask (DcClearTimeouts SdClient) in
  let* _ := door_ask (DcClearTimeouts SdUpstream) in
  let* ok := clone_all [SdClient; SdUpstream; SdUpstream; SdClient] in
  if ok then
    let* _ := spawn_pipe_thread SdClient in
    let* _ := spawn_pipe_thread SdUpstream in
    let* _ := door_ask (DcJoin SdClient) in
    let* _ := door_ask (DcJoin SdUpstream) in
    let* v := door_ask DcTakeVersion in
    let* _ := log_it (EvClientVersion id v.1 v.2) in
    let* e := door_ask DcFirstErr in
    let reason :=
      match e with
      | Some SdClient => RsClientReset
      | Some SdUpstream => RsUpstreamReset
      | None => RsNormal
      end in
    let* c2s := door_ask (DcLoadBytes SdClient) in
    let* s2c := door_ask (DcLoadBytes SdUpstream) in
    let* ms := door_ask DcElapsed in
    log_it (EvClose id reason c2s s2c ms)
  else
    let* _ := door_ask DcComplain in
    close_conn id RsClientReset.

(** From the upstream on. *)
Definition to_upstream (cfg : Config) (id : Z) : door_act unit :=
  let* r := connect_upstream (dc_upstream cfg) in
  match r with
  | Ok _ =>
      let* ms := door_ask DcElapsed in
      let* _ := log_it (EvUpstreamConnect id true ms None) in
      pipe id
  | Err e =>
      let* ms := door_ask DcElapsed in
      let* _ := log_it (EvUpstreamConnect id false ms (Some e)) in
      let* _ :=
        match dc_failure_line cfg, failure_line with
        | Off, _ => done tt
        | On, None => Ret Panicked
        | On, Some line => let* _ := door_ask (DcWriteAll SdClient line) in done tt
        end in
      close_conn id RsUpstreamUnavailable
  end.

(** While the guard of the counter is held. *)
Definition conn_body (cfg : Config) (id : Z) : door_act unit :=
  let* ok := door_ask (DcApplyPolicy SdClient) in
  if negb ok then
    let* _ := close_conn id RsClientReset in door_ask DcComplain
  else
  match dc_warn_mode cfg with
  | Off => to_upstream cfg id
  | On =>
      let* r := door_ask (DcWriteAll SdClient (dc_warn_line cfg)) in
      match r with
      | Ok _ =>
          let* _ := log_it (EvWarnSent id (Z.of_nat (length (dc_warn_line cfg)))) in
          to_upstream cfg id
      | Err e =>
          close_conn id
            (match e with
             | KReset | KBrokenPipe | KAborted => RsClientReset
             | KInterrupted | KOther => RsWarnWriteTimeout
             end)
      end
  end.

(** [ConnGuard]: its drop at the end, of a panic as well. *)
Definition guarded {R} (p : door_act R) : door_act R :=
  prog_bind p (fun o =>
    match o with
    | OutOfFuel => Ret OutOfFuel
    | _ => Call DcSubConns (fun _ => Ret o)
    end).

Definition handle_conn (cfg : Config) (peer : SocketAddr) : door_act unit :=
  let* id := door_ask DcFetchId in
  let* _ := log_it (EvAccept id peer) in
  guarded (conn_body cfg id).

(** ** One direction *)

Definition write_side (read_side : Side) : Side :=
  match read_side with SdClient => SdUpstream | SdUpstream => SdClient end.

Definition hard_close (a b : Side) : door_act unit :=
  let* _ := door_ask (DcShutdown a ShutBoth) in
  door_ask (DcShutdown b ShutBoth).

(** Only the direction from the client has an observer. *)
Fixpoint pipe_one (fuel : nat) (read_side : Side) : door_act unit :=
  match fuel with
  | O => Ret OutOfFuel
  | S fuel =>
      let* r := door_ask (DcRead read_side PIPE_BUF_SIZE) in
      match r with
      | Ok [] => door_ask (DcShutdown (write_side read_side) ShutWrite)
      | Ok bs =>
          let* _ :=
            match read_side with
            | SdClient => door_ask (DcObserve bs)
            | SdUpstream => done tt
            end in
          let* w := door_ask (DcWriteAll (write_side read_side) bs) in
          match w with
          | Err _ =>
              let* _ := door_ask (DcRecordErr (write_side read_side)) in
              hard_close read_side (write_side read_side)
          | Ok _ =>
              let* _ := door_ask (DcAddBytes read_side (Z.of_nat (length bs))) in
              pipe_one fuel read_side
          end
      | Err KInterrupted => pipe_one fuel read_side
      | Err _ =>
          let* _ := door_ask (DcRecordErr read_side) in
          hard_close read_side (write_side read_side)
      end
  end.
