(* ===== verification/DoorkeeperSpec.v ===== *)
(** * DoorkeeperSpec: the relay forwards what it reads, ends every connection
      once, and keeps its limit

    Abstract behaviour of a pipe thread and of a connection thread, followed by
    every run of the programs, and the pool of all threads over the counters
    they share. *)

From stdpp Require Import strings relations sorting.
From S2P Require Export Doorkeeper.

#[local] Open Scope list_scope.
#[local] Open Scope Z_scope.

(** ** One direction

    What was read, shown to the observer, written (by calls that succeeded; one that
    fails may have written a front) and counted; how it ended, and
    what was shut. *)

Record Relay := MkRelay {
  ry_read : list byte;
  ry_seen : list byte;
  ry_written : list byte;
  ry_count : Z;
  ry_eof : bool;
  ry_failed : option Side;
  ry_recorded : option Side;
  ry_shut : list (Side * Shutdown);
}.

Definition relay_start : Relay := MkRelay [] [] [] 0 false None None [].

(** Still forwarding. *)
Definition relay_open (m : Relay) : Prop :=
  ry_eof m = false /\ ry_failed m = None /\ ry_recorded m = None /\ ry_shut m = [].

Definition ry_fail (m : Relay) (s : Side) : Relay :=
  MkRelay (ry_read m) (ry_seen m) (ry_written m) (ry_count m) (ry_eof m) (Some s)
    (ry_recorded m) (ry_shut m).
Definition ry_close (m : Relay) (s : Side) (how : Shutdown) : Relay :=
  MkRelay (ry_read m) (ry_seen m) (ry_written m) (ry_count m) (ry_eof m) (ry_failed m)
    (ry_recorded m) (ry_shut m ++ [(s, how)]).

(** Reading waits until all that was read is written and counted; what is written
    is what was read, and only after the observer (of the client's side) saw it. *)
Definition relay_step (side : Side) (m : Relay) (c : DoorCall) :
  door_answer c -> Relay -> Prop :=
  match c with
  | DcRead s n => fun r m' =>
      s = side /\ n = PIPE_BUF_SIZE /\ relay_open m /\ ry_written m = ry_read m /\
      ry_count m = Z.of_nat (length (ry_read m)) /\
      match r with
      | Ok [] => m' = MkRelay (ry_read m) (ry_seen m) (ry_written m) (ry_count m) true
                        None None []
      | Ok bs => m' = MkRelay (ry_read m ++ bs) (ry_seen m) (ry_written m) (ry_count m)
                        false None None []
      | Err KInterrupted => m' = m
      | Err _ => m' = ry_fail m side
      end
  | DcObserve bs => fun _ m' =>
      side = SdClient /\ relay_open m /\ ry_read m = ry_seen m ++ bs /\
      m' = MkRelay (ry_read m) (ry_read m) (ry_written m) (ry_count m) false None None []
  | DcWriteAll s bs => fun r m' =>
      s = write_side side /\ relay_open m /\ ry_read m = ry_written m ++ bs /\
      (side = SdClient -> ry_seen m = ry_read m) /\
      match r with
      | Ok _ => m' = MkRelay (ry_read m) (ry_seen m) (ry_read m) (ry_count m) false None None []
      | Err _ => m' = ry_fail m s
      end
  | DcAddBytes s n => fun _ m' =>
      s = side /\ relay_open m /\ ry_count m + n = Z.of_nat (length (ry_written m)) /\
      m' = MkRelay (ry_read m) (ry_seen m) (ry_written m) (ry_count m + n) false None None []
  | DcRecordErr s => fun _ m' =>
      ry_failed m = Some s /\ ry_recorded m = None /\ ry_shut m = [] /\
      m' = MkRelay (ry_read m) (ry_seen m) (ry_written m) (ry_count m) (ry_eof m)
             (Some s) (Some s) []
  | DcShutdown s how => fun _ m' =>
      match how with
      | ShutWrite => s = write_side side /\ ry_eof m = true /\ ry_failed m = None
      | ShutBoth => ry_failed m <> None /\ ry_recorded m = ry_failed m
      end /\ m' = ry_close m s how
  | _ => fun _ _ => False
  end.

(** How a pipe thread ends. *)
Definition relay_ended (side : Side) (m : Relay) : Prop :=
  (side = SdClient -> ry_seen m = ry_read m) /\
  match ry_failed m with
  | None =>
      ry_eof m = true /\ ry_written m = ry_read m /\
      ry_count m = Z.of_nat (length (ry_read m)) /\
      ry_shut m = [(write_side side, ShutWrite)]
  | Some s =>
      ry_recorded m = Some s /\
      ry_shut m = [(side, ShutBoth); (write_side side, ShutBoth)] /\
      ry_count m = Z.of_nat (length (ry_written m)) /\
      (exists held, ry_read m = ry_written m ++ held) /\
      (s = side -> ry_written m = ry_read m)
  end.

(** The environment may answer anything. *)
Definition any_answer (c : DoorCall) (a : door_answer c) : Prop := True.

Lemma any_answers t : Forall (fun e => any_answer (projT1 e) (projT2 e)) t.
Proof. apply list.Forall_forall. intros e _. exact I. Qed.

Lemma relay_ask side c m (Q : door_answer c -> Relay -> Prop) :
  (forall a, any_answer c a -> exists m', relay_step side m c a m' /\ Q a m') ->
  act_safe any_answer (relay_step side) True (door_ask c) m Q.
Proof. exact id. Qed.

Section Relays.
Variable side : Side.

Definition between (m : Relay) : Prop :=
  relay_open m /\ ry_written m = ry_read m /\
  ry_count m = Z.of_nat (length (ry_read m)) /\
  (side = SdClient -> ry_seen m = ry_read m).

Notation relays p m Q := (act_safe any_answer (relay_step side) True p m Q).

Ltac relay_call a :=
  apply act_safe_bind, relay_ask; intros a _; cbn [door_answer] in a.

(** After an error that is known, the direction is closed on both sides. *)
Lemma relay_breaks m s :
  ry_failed m = Some s -> ry_recorded m = None -> ry_shut m = [] ->
  ry_count m = Z.of_nat (length (ry_written m)) ->
  (side = SdClient -> ry_seen m = ry_read m) ->
  (exists held, ry_read m = ry_written m ++ held) ->
  (s = side -> ry_written m = ry_read m) ->
  relays (let* _ := door_ask (DcRecordErr s) in hard_close side (write_side side)) m
    (fun _ m' => relay_ended side m').
Proof.
  intros Hf Hr Hsh Hc Hseen Hheld Hw. relay_call u. eexists. split; [cbn; split_and!; eauto|].
  unfold hard_close. relay_call v. eexists. split; [cbn; split_and!; eauto; discriminate|].
  apply relay_ask. intros z Hz. eexists. split; [cbn; split_and!; eauto; discriminate|].
  split; cbn; [exact Hseen|]. rewrite Hc. split_and!; auto.
Qed.

Lemma pipe_one_relays fuel : forall m, between m ->
  relays (pipe_one fuel side) m (fun _ m' => relay_ended side m').
Proof.
  induction fuel as [|fuel IH]; intros m Hm; [exact I|]. cbn [pipe_one].
  destruct Hm as (Ho & Hw & Hc & Hs). pose proof Ho as (He & Hf & Hr & Hsh).
  relay_call r. destruct r as [[|b bs]|k].
  - eexists. split; [cbn; split_and!; eauto|].
    apply relay_ask. intros u Hu. eexists. split; [cbn; split_and!; eauto|].
    split; cbn; auto.
  - eexists. split; [cbn; split_and!; eauto|].
    set (m1 := MkRelay (ry_read m ++ b :: bs) _ _ _ _ _ _ _).
    apply act_safe_bind.
    assert (Hobs : relays
      (match side with SdClient => door_ask (DcObserve (b :: bs)) | SdUpstream => done tt end) m1
      (fun _ m2 => relay_open m2 /\ ry_read m2 = ry_read m ++ b :: bs /\
        ry_written m2 = ry_read m /\ ry_count m2 = Z.of_nat (length (ry_read m)) /\
        (side = SdClient -> ry_seen m2 = ry_read m2))).
    { destruct side eqn:E.
      - apply relay_ask. intros u Hu. eexists. split; [cbn; split_and!; eauto|].
        + split_and!; reflexivity.
        + rewrite Hs by reflexivity. reflexivity.
        + cbn. split_and!; auto. split_and!; reflexivity.
      - apply act_safe_done. cbn. split_and!; auto; [split_and!; reflexivity | discriminate]. }
    refine (act_safe_mono _ _ _ _ _ _ _ _ Hobs id _). clear Hobs.
    intros _ m2 (Ho2 & Hr2 & Hw2 & Hc2 & Hs2). pose proof Ho2 as (He2 & Hf2 & Hrec2 & Hsh2).
    relay_call w. destruct w as [u|k].
    + eexists. split; [cbn; split_and!; eauto; congruence|].
      relay_call v. eexists.
      split; [cbn; split_and!; eauto; [split_and!; reflexivity|]|].
      * rewrite Hr2, Hc2, length_app. cbn [length]. lia.
      * apply IH. unfold between, relay_open. cbn [ry_eof ry_failed ry_recorded ry_shut
          ry_read ry_written ry_count ry_seen].
        split_and!; auto. rewrite Hr2, Hc2, length_app. cbn [length]. lia.
    + exists (ry_fail m2 (write_side side)). split; [cbn; split_and!; eauto; congruence|].
      apply relay_breaks; cbn; auto; try congruence.
      * exists (b :: bs). congruence.
      * destruct side; discriminate.
  - destruct k; cycle 3.
    { exists m. split; [cbn; split_and!; eauto|]. apply IH. split_and!; auto. }
    all: exists (ry_fail m side); (split; [cbn; split_and!; eauto|]);
      apply relay_breaks; cbn; auto; [congruence | exists []; rewrite app_nil_r; congruence].
Qed.

End Relays.

(** C33: a pipe thread forwards what it reads.  Whatever the sockets answer, it
    writes to the other side exactly the bytes it read, in order, each chunk
    before the next read and (from the client) after the observer saw it; it ends
    by passing the end of the stream on with everything written and counted, or
    by recording the side that failed and shutting both; it never panics. *)
Theorem relay_faithful fuel side t r :
  runs (pipe_one fuel side) t r ->
  exists m, path (relay_step side) relay_start t m /\
    (r = OutOfFuel \/ r = Done tt /\ relay_ended side m).
Proof.
  intros Hrun.
  assert (Hstart : between side relay_start) by (repeat split).
  destruct (safe_runs _ _ _ _ _ _ _ (pipe_one_relays side fuel _ Hstart) Hrun (any_answers t))
    as (m & Hp & HQ).
  exists m. split; [exact Hp|]. destruct r as [[]| |]; cbn in HQ; [auto | contradiction | auto].
Qed.

(** ** One connection

    What a connection thread has done: its number, what it wrote to the client,
    whether it reached the upstream, the pipe threads it started, whether its end
    is logged, and whether it holds a place of the counter. *)

Record Life := MkLife {
  li_id : option Z;
  li_sent : list byte;
  li_up : bool;
  li_pipes : list Side;
  li_closed : bool;
  li_holds : bool;
}.

Definition life_start : Life := MkLife None [] false [] false true.

(** What the client reads before anything of the upstream. *)
Definition greeting (cfg : Config) : list byte :=
  match dc_warn_mode cfg with On => dc_warn_line cfg | Off => [] end.

Definition life_step (cfg : Config) (peer : SocketAddr) (m : Life) (c : DoorCall) :
  door_answer c -> Life -> Prop :=
  match m with
  | MkLife id sent up pipes closed holds =>
    let same m' := holds = true /\ m' = m in
    match c with
    | DcFetchId => fun n m' =>
        id = None /\ closed = false /\ holds = true /\
        m' = MkLife (Some n) sent up pipes closed holds
    | DcLog e => fun _ m' =>
        holds = true /\
        match e with
        | EvAccept n p => id = Some n /\ p = peer /\ sent = [] /\ m' = m
        | EvWarnSent n len =>
            id = Some n /\ dc_warn_mode cfg = On /\ sent = dc_warn_line cfg /\
            len = Z.of_nat (length sent) /\ m' = m
        | EvUpstreamConnect n ok _ err =>
            id = Some n /\ up = ok /\ (err = None <-> ok = true) /\ m' = m
        | EvClientVersion n _ _ =>
            id = Some n /\ pipes = [SdClient; SdUpstream] /\ closed = false /\ m' = m
        | EvClose n reason _ _ _ =>
            id = Some n /\ closed = false /\
            (reason = RsNormal -> pipes = [SdClient; SdUpstream]) /\
            (reason = RsUpstreamUnavailable -> up = false /\ pipes = []) /\
            reason <> RsOverLimit /\
            m' = MkLife id sent up pipes true holds
        | _ => False
        end
    | DcWriteAll s bs => fun r m' =>
        holds = true /\ s = SdClient /\ up = false /\ closed = false /\
        (sent = [] /\ dc_warn_mode cfg = On /\ bs = dc_warn_line cfg \/
         sent = greeting cfg /\ dc_failure_line cfg = On /\ bs = FAILURE_LINE ++ [CR; LF]) /\
        m' = match r with
             | Ok _ => MkLife id (sent ++ bs) up pipes closed holds
             | Err _ => m
             end
    | DcConnect addr => fun r m' =>
        holds = true /\ sent = greeting cfg /\ up = false /\ closed = false /\
        addr ∈ upstream_candidates (dc_upstream cfg) /\
        m' = match r with Ok _ => MkLife id sent true pipes closed holds | Err _ => m end
    | DcSpawnPipe side => fun ok m' =>
        holds = true /\ sent = greeting cfg /\ up = true /\ side ∉ pipes /\
        m' = if ok : bool then MkLife id sent up (pipes ++ [side]) closed holds else m
    | DcSubConns => fun _ m' =>
        holds = true /\ m' = MkLife id sent up pipes closed false
    | DcTryClone _ | DcClearTimeouts _ | DcJoin _ | DcLoadBytes _ | DcFirstErr | DcTakeVersion =>
        fun _ m' => up = true /\ same m'
    | DcApplyPolicy _ | DcElapsed | DcComplain => fun _ m' => same m'
    | _ => fun _ _ => False
    end
  end.

(** A connection thread that returns has logged its end once; even a panic gives
    the place back. *)
Definition life_ended (o : outcome unit) (m : Life) : Prop :=
  li_holds m = false /\
  match o with Done _ => li_closed m = true | Panicked => True | OutOfFuel => False end.

Section Lives.
Variables (cfg : Config) (peer : SocketAddr).

Notation lives p m Q := (safe any_answer (life_step cfg peer) p m Q).
Notation act_lives p m Q := (act_safe any_answer (life_step cfg peer) False p m Q).

Lemma life_ask c m (Q : door_answer c -> Life -> Prop) :
  (forall a, any_answer c a -> exists m', life_step cfg peer m c a m' /\ Q a m') ->
  act_lives (door_ask c) m Q.
Proof. exact id. Qed.

(** Sequencing in a program that may panic later. *)
Lemma lives_bind {R} (p : door_act R) (f : R -> door_act unit) m Q :
  act_lives p m (fun r m' => lives (f r) m' Q) -> lives (act_bind p f) m Q.
Proof.
  intros Hp. apply safe_bind. eapply safe_mono; [|exact Hp]. intros [r| |] m' H; cbn in *.
  - exact H.
  - destruct H.
  - destruct H.
Qed.

Ltac life_call a :=
  apply lives_bind, life_ask; intros a _; cbn [door_answer] in a;
  eexists; split; [cbn; split_and!; eauto; try discriminate |].

(** The body of a connection ends with the place held, and closed if it returns. *)
Definition body_ended (o : outcome unit) (m : Life) : Prop :=
  li_holds m = true /\ match o with Done _ => li_closed m = true | Panicked => True | OutOfFuel => False end.

Lemma close_conn_lives n sent up pipes reason :
  reason <> RsNormal -> reason <> RsOverLimit ->
  (reason = RsUpstreamUnavailable -> up = false /\ pipes = []) ->
  lives (close_conn n reason) (MkLife (Some n) sent up pipes false true) (fun o m =>
    o = Done tt /\ m = MkLife (Some n) sent up pipes true true).
Proof.
  intros Hn Ho Hu. unfold close_conn. life_call ms.
  intros [] _. eexists. split; [cbn; split_and!; eauto; congruence|]. split; reflexivity.
Qed.

Lemma connect_lives n cands : forall err, 
  (forall a, a ∈ cands -> a ∈ upstream_candidates (dc_upstream cfg)) ->
  act_lives (connect_to cands err) (MkLife (Some n) (greeting cfg) false [] false true)
    (fun r m => m = MkLife (Some n) (greeting cfg)
       (match r with Ok _ => true | Err _ => false end) [] false true).
Proof.
  induction cands as [|a cands IH]; intros err Hc; [reflexivity|]. cbn [connect_to].
  apply act_safe_bind, life_ask. intros r _. eexists.
  split; [cbn; split_and!; eauto; apply Hc; left|].
  destruct r as [u|e]; [|apply IH; intros; apply Hc; right; assumption].
  apply act_safe_bind, life_ask. intros ok _. eexists. split; [cbn; split_and!; eauto|].
  apply act_safe_bind. destruct ok; [reflexivity|].
  apply life_ask. intros v _. eexists. split; [cbn; split_and!; eauto|]. reflexivity.
Qed.

Lemma clones_live n sides sent : forall m, m = MkLife (Some n) sent true [] false true ->
  act_lives (clone_all sides) m (fun _ m' => m' = m).
Proof.
  induction sides as [|s sides IH]; intros m ->; [reflexivity|]. cbn [clone_all].
  apply act_safe_bind, life_ask. intros ok _. eexists. split; [cbn; split_and!; eauto|].
  destruct ok; [apply IH; reflexivity | reflexivity].
Qed.

Lemma pipe_lives n :
  lives (pipe n) (MkLife (Some n) (greeting cfg) true [] false true) body_ended.
Proof.
  unfold pipe. life_call u1. life_call u2. apply lives_bind.
  refine (act_safe_mono _ _ _ _ _ _ _ _ (clones_live n _ _ _ eq_refl) id _).
  intros [] m ->.
  - assert (Hspawn : forall side pipes (f : unit -> door_act unit),
      side ∉ pipes ->
      lives (f tt) (MkLife (Some n) (greeting cfg) true (pipes ++ [side]) false true) body_ended ->
      lives (act_bind (spawn_pipe_thread side) f)
        (MkLife (Some n) (greeting cfg) true pipes false true) body_ended).
    { intros side pipes f Hnew Hf. apply safe_bind. intros ok _. eexists.
      split; [cbn; split_and!; eauto|]. destruct ok; [exact Hf | split; reflexivity]. }
    apply Hspawn; [intros Hin; inversion Hin|].
    apply Hspawn; [intros Hin%list_elem_of_singleton; discriminate|]. cbn [app].
    life_call u3. life_call u4. life_call v. life_call u5. life_call e. life_call a. life_call b.
    life_call ms. intros [] _. eexists.
    split; [cbn; split_and!; eauto; try congruence; destruct e as [[]|]; discriminate|].
    split; reflexivity.
  - life_call u. eapply safe_mono; [|apply close_conn_lives; discriminate].
    intros o m [-> ->]. split; reflexivity.
Qed.

Lemma to_upstream_lives n :
  lives (to_upstream cfg n) (MkLife (Some n) (greeting cfg) false [] false true) body_ended.
Proof.
  unfold to_upstream. apply lives_bind.
  refine (act_safe_mono _ _ _ _ _ _ _ _ (connect_lives n _ _ (fun a Ha => Ha)) id _).
  intros [u|e] m ->.
  - life_call ms. life_call v; [split; reflexivity|]. apply pipe_lives.
  - life_call ms. life_call v; [split; discriminate|].
    assert (Hend : forall sent,
      lives (close_conn n RsUpstreamUnavailable) (MkLife (Some n) sent false [] false true) body_ended).
    { intros sent. eapply safe_mono; [|apply close_conn_lives; (discriminate || auto)].
      intros o m [-> ->]. split; reflexivity. }
    assert (Hline : failure_line = Some (FAILURE_LINE ++ [CR; LF])) by (vm_compute; reflexivity).
    rewrite Hline. destruct (dc_failure_line cfg) eqn:Ef.
    + apply lives_bind, act_safe_bind, life_ask. intros r _. eexists.
      split; [cbn; split_and!; eauto; right; auto|]. destruct r; apply Hend.
    + apply lives_bind, act_safe_done, Hend.
Qed.

Lemma conn_body_lives n :
  lives (conn_body cfg n) (MkLife (Some n) [] false [] false true) body_ended.
Proof.
  unfold conn_body. life_call ok. destruct ok; cbn [negb].
  - pose proof (to_upstream_lives n) as Hup. unfold greeting in Hup.
    destruct (dc_warn_mode cfg) eqn:Ew; [|exact Hup].
    life_call r. destruct r as [u|e].
    + cbn [app]. life_call v. exact Hup.
    + eapply safe_mono; [|apply close_conn_lives; destruct e; (discriminate || auto)].
      intros o m [-> ->]. split; reflexivity.
  - apply safe_bind. eapply safe_mono; [|apply close_conn_lives; discriminate].
    intros o m [-> ->]. intros [] _. eexists. split; [cbn; split_and!; eauto|]. split; reflexivity.
Qed.

Lemma handle_conn_lives : lives (handle_conn cfg peer) life_start life_ended.
Proof.
  unfold handle_conn. life_call n. life_call v.
  unfold guarded. apply safe_bind. eapply safe_mono; [|apply conn_body_lives].
  intros o [id sent up pipes closed holds] [Hh Hc]. cbn in Hh, Hc. subst holds.
  destruct o as [[]| |]; [| |contradiction]; intros u _; eexists;
    (split; [cbn; split_and!; eauto|]); split; auto.
Qed.

End Lives.

(** C32: a connection is served once and ended once.  Whatever the sockets, the
    threads and the log answer, a connection thread writes the notice to the
    client before it connects the upstream or starts a pipe, writes nothing else
    but the failure line, starts each pipe thread once, logs the end of exactly
    its own number exactly once if it returns, and in every case, a panic
    included, gives its place of the counter back, once, as the last thing. *)
Theorem connection_lifecycle cfg peer t r :
  runs (handle_conn cfg peer) t r ->
  exists m, path (life_step cfg peer) life_start t m /\ life_ended r m.
Proof.
  intros Hrun.
  exact (safe_runs _ _ _ _ _ _ _ (handle_conn_lives cfg peer) Hrun (any_answers t)).
Qed.

(** ** The accept thread

    Whether it holds a place of the counter, and a number it has not closed. *)

Record Acceptor := MkAcceptor { ac_holds : bool; ac_id : option Z }.

Definition idle : Acceptor := MkAcceptor false None.

Definition accept_step (cfg : Config) (m : Acceptor) (c : DoorCall) :
  door_answer c -> Acceptor -> Prop :=
  match c with
  | DcStop | DcAccept | DcDropStream | DcLoadConns => fun _ m' => m' = m
  | DcCasConns cur new => fun r m' =>
      m = idle /\ new = cur + 1 /\ cur < dc_max_conns cfg /\
      m' = match r with Ok _ => MkAcceptor true None | Err _ => m end
  | DcSubConns => fun _ m' => ac_holds m = true /\ m' = MkAcceptor false (ac_id m)
  | DcSpawnConn _ => fun ok m' =>
      m = MkAcceptor true None /\ m' = if ok : bool then idle else m
  | DcFetchId => fun n m' => m = idle /\ m' = MkAcceptor false (Some n)
  | DcLog e => fun _ m' =>
      match e with
      | EvClose n reason _ _ _ =>
          m = MkAcceptor false (Some n) /\ reason = RsOverLimit /\ m' = idle
      | EvListenStart _ | EvRefused _ _ | EvSpawnFailed _ => m' = m
      | _ => False
      end
  | _ => fun _ _ => False
  end.

Section Accepts.
Variable cfg : Config.

Notation accepts p m Q := (safe any_answer (accept_step cfg) p m Q).

(** Sequencing that keeps to the idle state when the fuel runs out. *)
Lemma accepts_bind {R T} (p : door_act R) (f : R -> door_act T) m :
  accepts p m (fun o m' =>
    match o with
    | Done r => accepts (f r) m' (fun _ m => m = idle)
    | _ => m' = idle
    end) ->
  accepts (act_bind p f) m (fun _ m => m = idle).
Proof.
  intros Hp. apply safe_bind. eapply safe_mono; [|exact Hp]. intros [r| |] m' H; exact H.
Qed.

Ltac accept_call a :=
  apply accepts_bind; intros a _; cbn [door_answer] in a; eexists;
  split; [cbn; first [reflexivity | split_and!; eauto]|].

Lemma cas_loop_accepts fuel : forall cur,
  accepts (cas_loop fuel cur (dc_max_conns cfg)) idle (fun o m =>
    match o with Done ok => m = MkAcceptor ok None | _ => m = idle end).
Proof.
  induction fuel as [|fuel IH]; intros cur; [reflexivity|]. cbn [cas_loop].
  destruct (Z.leb_spec (dc_max_conns cfg) cur); [reflexivity|].
  intros r _. eexists. split; [cbn; first [reflexivity | split_and!; eauto]|].
  destruct r as [u|actual]; [reflexivity | apply IH].
Qed.

Lemma try_inc_accepts fuel :
  accepts (try_inc fuel (dc_max_conns cfg)) idle (fun o m =>
    match o with Done ok => m = MkAcceptor ok None | _ => m = idle end).
Proof. intros cur _. exists idle. split; [reflexivity | apply cas_loop_accepts]. Qed.

Lemma admit_accepts peer :
  accepts (admit_conn peer) (MkAcceptor true None) (fun o m => o = Done tt /\ m = idle).
Proof.
  intros ok _. eexists. split; [cbn; first [reflexivity | split_and!; eauto]|]. destruct ok; [split; reflexivity|].
  intros u _. eexists. split; [cbn; first [reflexivity | split_and!; eauto]|].
  intros [] _. eexists. split; [cbn; first [reflexivity | split_and!; eauto]|]. split; reflexivity.
Qed.

Lemma refuse_accepts peer :
  accepts (refuse cfg peer) idle (fun o m => o = Done tt /\ m = idle).
Proof.
  intros u _. eexists. split; [cbn; first [reflexivity | split_and!; eauto]|]. intros n _. eexists.
  split; [cbn; first [reflexivity | split_and!; eauto]|]. intros v _. eexists.
  split; [cbn; first [reflexivity | split_and!; eauto]|]. intros [] _. eexists. split; [cbn; first [reflexivity | split_and!; eauto]|].
  split; reflexivity.
Qed.

Lemma accept_loop_accepts fuel :
  accepts (accept_loop fuel cfg) idle (fun _ m => m = idle).
Proof.
  induction fuel as [|fuel IH]; [reflexivity|].
  change (accept_loop (S fuel) cfg) with
    (let* stop := door_ask DcStop in
     if stop then done (Ok tt) else
     let* r := door_ask DcAccept in
     match r with
     | Err KInterrupted => accept_loop fuel cfg
     | Err e => done (Err e)
     | Ok peer =>
         let* stop := door_ask DcStop in
         if stop then let* _ := door_ask DcDropStream in done (Ok tt) else
         let* ok := try_inc (S fuel) (dc_max_conns cfg) in
         let* _ := if ok then admit_conn peer else refuse cfg peer in
         accept_loop fuel cfg
     end : door_act (result unit IoKind)).
  accept_call stop. destruct stop; [reflexivity|]. accept_call r.
  destruct r as [peer|[]]; try reflexivity; [|exact IH].
  accept_call stop. destruct stop; [accept_call u; reflexivity|].
  apply accepts_bind. eapply safe_mono; [|apply try_inc_accepts].
  intros [ok| |] m Hm; cbn in Hm |- *; auto. subst m. apply accepts_bind.
  destruct ok.
  - eapply safe_mono; [|apply admit_accepts]. intros o m [-> ->]. exact IH.
  - eapply safe_mono; [|apply refuse_accepts]. intros o m [-> ->]. exact IH.
Qed.

Lemma door_serve_accepts fuel : accepts (door_serve fuel cfg) idle (fun _ m => m = idle).
Proof. unfold door_serve. accept_call u. apply accept_loop_accepts. Qed.

End Accepts.

(** ** All threads

    The counters they share, the accept thread, the connection threads with their
    peers, the numbers given out and the numbers whose end is logged. *)

Notation door_prog R := (prog DoorCall door_answer R).

Record Counters := MkCounters {
  sh_conns : Z;
  sh_next : Z;
  sh_given : list Z;
  sh_ended : list Z;
}.

Record Pool := MkPool {
  pl_shared : Counters;
  pl_accept : door_prog (outcome (result unit IoKind));
  pl_handlers : list (SocketAddr * door_prog (outcome unit));
}.

(** One call on the shared state; the rest of the world answers as it likes. *)
Definition shared_step (s : Counters) (c : DoorCall) : door_answer c -> Counters -> Prop :=
  match s with
  | MkCounters conns next given ended =>
    match c with
    | DcLoadConns => fun n s' => n = conns /\ s' = s
    | DcCasConns cur new => fun r s' =>
        match r with
        | Ok _ => conns = cur /\ s' = MkCounters new next given ended
        | Err actual => actual = conns /\ s' = s
        end
    | DcSubConns => fun _ s' => s' = MkCounters ((conns - 1) mod 2 ^ 64) next given ended
    | DcFetchId => fun n s' =>
        n = next /\ s' = MkCounters conns ((next + 1) mod 2 ^ 64) (given ++ [n]) ended
    | DcLog (EvClose n _ _ _ _) => fun _ s' => s' = MkCounters conns next given (ended ++ [n])
    | _ => fun _ s' => s' = s
    end
  end.

Definition spawned (cfg : Config) (c : DoorCall) :
  door_answer c -> list (SocketAddr * door_prog (outcome unit)) :=
  match c with
  | DcSpawnConn peer => fun ok => if ok : bool then [(peer, handle_conn cfg peer)] else []
  | _ => fun _ => []
  end.

Inductive pool_step (cfg : Config) : Pool -> Pool -> Prop :=
  | ps_accept s s' c k hs a :
      shared_step s c a s' ->
      pool_step cfg (MkPool s (Call c k) hs) (MkPool s' (k a) (hs ++ spawned cfg c a))
  | ps_handler s s' p hs1 hs2 peer c k a :
      shared_step s c a s' ->
      pool_step cfg (MkPool s p (hs1 ++ (peer, Call c k) :: hs2))
        (MkPool s' p (hs1 ++ (peer, k a) :: hs2)).

Definition pool_start (cfg : Config) (fuel : nat) : Pool :=
  MkPool (MkCounters 0 1 [] []) (door_serve fuel cfg) [].

(** *** The invariant: each thread with its abstract state *)

Definition open_id (m : Life) : option Z := if li_closed m then None else li_id m.
Definition place (holds : bool) : Z := if holds then 1 else 0.
Fixpoint places (ms : list Life) : Z :=
  match ms with [] => 0 | m :: ms => place (li_holds m) + places ms end.

Definition follows (cfg : Config) (h : SocketAddr * door_prog (outcome unit)) (m : Life) : Prop :=
  safe any_answer (life_step cfg h.1) h.2 m life_ended.

Record pool_ok (cfg : Config) (p : Pool) (am : Acceptor) (ms : list Life) : Prop := {
  ok_accept : safe any_answer (accept_step cfg) (pl_accept p) am (fun _ m => m = idle);
  ok_handlers : Forall2 (follows cfg) (pl_handlers p) ms;
  ok_conns : sh_conns (pl_shared p) = place (ac_holds am) + places ms;
  ok_max : sh_conns (pl_shared p) <= dc_max_conns cfg;
  ok_ids : sh_given (pl_shared p) ≡ₚ
    sh_ended (pl_shared p) ++ option_list (ac_id am) ++ omap open_id ms;
  ok_given : forall i n, sh_given (pl_shared p) !! i = Some n ->
    n = (1 + Z.of_nat i) mod 2 ^ 64;
  ok_next : sh_next (pl_shared p) =
    (1 + Z.of_nat (length (sh_given (pl_shared p)))) mod 2 ^ 64;
}.

Lemma places_app a b : places (a ++ b) = places a + places b.
Proof. induction a as [|m a IH]; cbn; [reflexivity | rewrite IH; lia]. Qed.

Lemma places_nonneg ms : 0 <= places ms.
Proof. induction ms as [|m ms IH]; cbn; [lia|]. unfold place. destruct (li_holds m); lia. Qed.

Section Pools.
Variable cfg : Config.
Hypothesis Hmax : 0 <= dc_max_conns cfg <= U64_MAX.

(** What a step of one thread does to the shared state, from the places and the
    open number it had to those it has. *)
Definition thread_effect (s s' : Counters) (b b' : Z) (o o' : option Z) : Prop :=
  sh_conns s' = sh_conns s - b + b' /\ sh_conns s' <= dc_max_conns cfg /\
  exists g e, sh_given s' = sh_given s ++ g /\ sh_ended s' = sh_ended s ++ e /\
    option_list o ++ g ≡ₚ e ++ option_list o' /\
    (g = [] /\ sh_next s' = sh_next s \/
     g = [sh_next s] /\ sh_next s' = (sh_next s + 1) mod 2 ^ 64).

Lemma effect_same s b o : sh_conns s <= dc_max_conns cfg -> thread_effect s s b b o o.
Proof.
  intros Hc. split; [lia|]. split; [exact Hc|]. exists [], [].
  rewrite !app_nil_r. split_and!; auto.
Qed.

Lemma effect_unchanged s s' b b' o o' :
  s' = s -> b' = b -> o' = o -> sh_conns s <= dc_max_conns cfg -> thread_effect s s' b b' o o'.
Proof. intros -> -> ->. apply effect_same. Qed.

Lemma effect_sub conns next given ended o : 1 <= conns <= dc_max_conns cfg ->
  thread_effect (MkCounters conns next given ended)
    (MkCounters ((conns - 1) mod 2 ^ 64) next given ended) 1 0 o o.
Proof.
  intros Hc. unfold thread_effect. cbn. rewrite Z.mod_small by ulia. split; [lia|].
  split; [lia|]. exists [], []. rewrite !app_nil_r. split_and!; auto.
Qed.

Lemma effect_fetch conns next given ended b : conns <= dc_max_conns cfg ->
  thread_effect (MkCounters conns next given ended)
    (MkCounters conns ((next + 1) mod 2 ^ 64) (given ++ [next]) ended) b b None (Some next).
Proof.
  intros Hc. unfold thread_effect. cbn. split; [lia|]. split; [exact Hc|].
  exists [next], []. rewrite app_nil_r. split_and!; auto.
Qed.

Lemma effect_close conns next given ended b n : conns <= dc_max_conns cfg ->
  thread_effect (MkCounters conns next given ended)
    (MkCounters conns next given (ended ++ [n])) b b (Some n) None.
Proof.
  intros Hc. unfold thread_effect. cbn. split; [lia|]. split; [exact Hc|].
  exists [], [n]. rewrite app_nil_r. split_and!; auto.
Qed.

Lemma accept_effect s c a s' am am' :
  shared_step s c a s' -> accept_step cfg am c a am' ->
  sh_conns s <= dc_max_conns cfg -> place (ac_holds am) <= sh_conns s ->
  thread_effect s s' (place (ac_holds am))
    (place (ac_holds am') + Z.of_nat (length (spawned cfg c a))) (ac_id am) (ac_id am').
Proof.
  intros Hs Ha Hc Hb. destruct s as [conns next given ended].
  destruct c; cbn in Ha; try contradiction; cbn in Hs; cbn [spawned length]; rewrite ?Z.add_0_r.
  1-3: subst; apply effect_same, Hc.
  - destruct Hs as [-> ->]. subst. apply effect_same, Hc.
  - destruct Ha as (-> & -> & Hlt & ->). destruct a as [u|actual].
    + destruct Hs as [<- ->]. split; [cbn; lia|]. split; [cbn; lia|]. exists [], [].
      rewrite !app_nil_r. split_and!; auto.
    + destruct Hs as [-> ->]. apply effect_same, Hc.
  - destruct Ha as [Hh ->]. subst s'. rewrite Hh in *. cbn in *. apply effect_sub. lia.
  - destruct Ha as [-> ->], Hs as [-> ->]. apply effect_fetch, Hc.
  - destruct Ha as [-> ->]. subst s'. destruct a; apply (effect_same _ 1), Hc.
  - destruct e; try contradiction; try (subst; apply effect_same, Hc).
    destruct Ha as (-> & _ & ->). subst s'. apply effect_close, Hc.
Qed.

Lemma life_effect peer s c a s' m m' :
  shared_step s c a s' -> life_step cfg peer m c a m' ->
  sh_conns s <= dc_max_conns cfg -> place (li_holds m) <= sh_conns s ->
  thread_effect s s' (place (li_holds m)) (place (li_holds m')) (open_id m) (open_id m').
Proof.
  intros Hs Hl Hc Hb. destruct s as [conns next given ended], m as [id sent up pipes closed holds].
  assert (Hsame : forall m', m' = MkLife id sent up pipes closed holds ->
    s' = MkCounters conns next given ended ->
    thread_effect (MkCounters conns next given ended) s' (place holds) (place (li_holds m'))
      (if closed then None else id) (open_id m')).
  { intros m1 -> ->. apply effect_same, Hc. }
  destruct c; cbn in Hl; try contradiction; cbn in Hs; cbn [li_holds open_id li_closed li_id];
    try (apply Hsame; [apply Hl | exact Hs]).
  - destruct Hl as [-> ->]. subst s'. apply effect_sub. cbn in *. lia.
  - destruct Hl as (-> & -> & -> & ->), Hs as [-> ->]. apply effect_fetch, Hc.
  - destruct e; destruct Hl as [_ Hl]; try contradiction; try (apply Hsame; [apply Hl | exact Hs]).
    destruct Hl as (-> & -> & _ & _ & _ & ->). subst s'. apply effect_close, Hc.
  - destruct Hl as (_ & _ & _ & _ & _ & ->). subst s'. destruct a; apply effect_same, Hc.
  - destruct Hl as (_ & _ & _ & _ & ->). subst s'. destruct a; apply effect_same, Hc.
  - destruct Hl as (_ & _ & _ & _ & _ & ->). subst s'. destruct a; apply effect_same, Hc.
Qed.

Lemma ids_step (G E O R g e O' : list Z) :
  G ≡ₚ E ++ O ++ R -> O ++ g ≡ₚ e ++ O' -> G ++ g ≡ₚ (E ++ e) ++ O' ++ R.
Proof.
  intros HG HO. rewrite HG, <- !app_assoc. apply Permutation_app_head.
  rewrite (Permutation_app_comm R g), (app_assoc O), HO, <- !app_assoc. reflexivity.
Qed.

(** Numbers are given out in order. *)
Definition in_order (s : Counters) : Prop :=
  (forall i n, sh_given s !! i = Some n -> n = (1 + Z.of_nat i) mod 2 ^ 64) /\
  sh_next s = (1 + Z.of_nat (length (sh_given s))) mod 2 ^ 64.

Lemma in_order_step s s' b b' o o' :
  thread_effect s s' b b' o o' -> in_order s -> in_order s'.
Proof.
  intros (_ & _ & g & e & Hg & _ & _ & Hn) [Hl Hnext]. unfold in_order. rewrite Hg.
  destruct Hn as [[-> ->]|[-> ->]]; [rewrite app_nil_r; auto|]. split.
  - intros i n Hi. apply lookup_app_Some in Hi as [Hi|[Hge Hi]]; [eauto|].
    apply list_lookup_singleton_Some in Hi as [Hi <-]. rewrite Hnext. f_equal. lia.
  - rewrite Hnext, length_app, Zplus_mod_idemp_l. f_equal. cbn. lia.
Qed.

Lemma follows_start peer : follows cfg (peer, handle_conn cfg peer) life_start.
Proof. apply handle_conn_lives. Qed.

Lemma accept_keeps s s' c k hs a am ms :
  pool_ok cfg (MkPool s (Call c k) hs) am ms -> shared_step s c a s' ->
  exists am' ms', pool_ok cfg (MkPool s' (k a) (hs ++ spawned cfg c a)) am' ms'.
Proof.
  intros [Hacc Hhs Hc Hm Hids Hg Hn] Hs. cbn in *.
  destruct (Hacc a I) as (am' & Hstep & Hk).
  pose proof (places_nonneg ms). assert (Hb : place (ac_holds am) <= sh_conns s) by lia.
  pose proof (accept_effect _ _ _ _ _ _ Hs Hstep Hm Hb) as He.
  pose proof (in_order_step _ _ _ _ _ _ He (conj Hg Hn)) as [Hg' Hn'].
  destruct He as (Hconns & Hmax' & g & e & Eg & Ee & Hperm & _).
  assert (Hnew : exists new, Forall2 (follows cfg) (spawned cfg c a) new /\
    places new = Z.of_nat (length (spawned cfg c a)) /\ omap open_id new = []).
  { destruct c; try (exists []; cbn; auto; fail). destruct a; [|exists []; cbn; auto].
    exists [life_start]. cbn. split_and!; auto. repeat constructor. apply follows_start. }
  destruct Hnew as (new & Hf & Hp & Ho).
  exists am', (ms ++ new). constructor; cbn; auto.
  - apply Forall2_app; assumption.
  - rewrite places_app. lia.
  - rewrite omap_app, Ho, app_nil_r, Eg, Ee. exact (ids_step _ _ _ _ _ _ _ Hids Hperm).
Qed.

Lemma handler_keeps s s' p hs1 hs2 peer c k a am ms :
  pool_ok cfg (MkPool s p (hs1 ++ (peer, Call c k) :: hs2)) am ms -> shared_step s c a s' ->
  exists ms', pool_ok cfg (MkPool s' p (hs1 ++ (peer, k a) :: hs2)) am ms'.
Proof.
  intros [Hacc Hhs Hc Hm Hids Hg Hn] Hs. cbn in *.
  apply Forall2_app_inv_l in Hhs as (ms1 & ms2' & H1 & H2 & ->).
  apply Forall2_cons_inv_l in H2 as (m & ms2 & Hm1 & H2 & ->).
  destruct (Hm1 a I) as (m' & Hstep & Hk).
  rewrite places_app in Hc. cbn [places] in Hc.
  pose proof (places_nonneg ms1). pose proof (places_nonneg ms2).
  assert (0 <= place (ac_holds am)) by (unfold place; destruct (ac_holds am); lia).
  pose proof (life_effect _ _ _ _ _ _ _ Hs Hstep Hm ltac:(lia)) as He.
  pose proof (in_order_step _ _ _ _ _ _ He (conj Hg Hn)) as [Hg' Hn'].
  destruct He as (Hconns & Hmax' & g & e & Eg & Ee & Hperm & _).
  exists (ms1 ++ m' :: ms2). constructor; cbn; auto.
  - apply Forall2_app; [assumption|]. constructor; [exact Hk | assumption].
  - rewrite places_app. cbn [places]. lia.
  - rewrite Eg, Ee.
    assert (Hsplit : forall x, option_list (ac_id am) ++ omap open_id (ms1 ++ x :: ms2) ≡ₚ
      option_list (open_id x) ++ option_list (ac_id am) ++ omap open_id (ms1 ++ ms2)).
    { intros x. rewrite !omap_app. cbn [omap list_omap]. destruct (open_id x); [|reflexivity].
      cbn. rewrite <- !Permutation_middle. reflexivity. }
    rewrite Hsplit in *. exact (ids_step _ _ _ _ _ _ _ Hids Hperm).
Qed.

Lemma pool_step_keeps p p' am ms :
  pool_ok cfg p am ms -> pool_step cfg p p' -> exists am' ms', pool_ok cfg p' am' ms'.
Proof.
  intros Hok Hstep. destruct Hstep.
  - eapply accept_keeps; eassumption.
  - destruct (handler_keeps _ _ _ _ _ _ _ _ _ _ _ Hok H) as [ms' Hok']. eauto.
Qed.

Lemma pool_start_ok fuel : pool_ok cfg (pool_start cfg fuel) idle [].
Proof.
  constructor; cbn; [apply door_serve_accepts | constructor | reflexivity | lia | reflexivity
    | intros i n Hi; rewrite lookup_nil in Hi; discriminate | reflexivity].
Qed.

Lemma pool_reach_ok fuel p :
  rtc (pool_step cfg) (pool_start cfg fuel) p -> exists am ms, pool_ok cfg p am ms.
Proof.
  assert (H : forall p1 p2, rtc (pool_step cfg) p1 p2 ->
    (exists am ms, pool_ok cfg p1 am ms) -> exists am ms, pool_ok cfg p2 am ms).
  { induction 1 as [|p1 p2 p3 Hs _ IH]; [auto|]. intros (am & ms & Hok).
    apply IH, (pool_step_keeps _ _ _ _ Hok Hs). }
  intros Hr. apply (H _ _ Hr). eauto using pool_start_ok.
Qed.

End Pools.

(** *** Reading the invariant *)

Definition running {R} (p : door_prog R) : bool :=
  match p with Ret _ => false | Call _ _ => true end.

(** The connection threads that have not ended. *)
Definition live (hs : list (SocketAddr * door_prog (outcome unit))) : Z :=
  Z.of_nat (length (filter (fun h => running h.2 = true) hs)).

(** Every call has an answer. *)
Definition some_answer (c : DoorCall) : door_answer c :=
  match c with
  | DcStop | DcSpawnConn _ | DcApplyPolicy _ | DcTryClone _ | DcSpawnPipe _ => true
  | DcAccept => Err KOther
  | DcLoadConns | DcFetchId | DcElapsed | DcLoadBytes _ => 0
  | DcCasConns _ _ => Err 0
  | DcConnect _ => Ok tt
  | DcTakeVersion => (None, false)
  | DcFirstErr => None
  | DcRead _ _ => Err KOther
  | DcWriteAll _ _ => Ok tt
  | _ => tt
  end.

Lemma life_step_holds cfg peer m c a m' : life_step cfg peer m c a m' -> li_holds m = true.
Proof.
  destruct m as [id sent up pipes closed holds]. destruct c; cbn; try contradiction;
    intros Hs; tauto || (destruct e; tauto).
Qed.

(** A thread holds its place exactly as long as it runs. *)
Lemma follows_running cfg h m : follows cfg h m -> li_holds m = running h.2.
Proof.
  destruct h as [peer [o|c k]]; unfold follows; cbn.
  - intros [Hh _]. exact Hh.
  - intros Hs. destruct (Hs (some_answer c) I) as (m' & Hstep & _).
    exact (life_step_holds _ _ _ _ _ _ Hstep).
Qed.

Lemma live_places cfg hs ms : Forall2 (follows cfg) hs ms -> live hs = places ms.
Proof.
  unfold live. induction 1 as [|h m hs ms Hf _ IH]; [reflexivity|]. cbn [places].
  rewrite filter_cons, (follows_running _ _ _ Hf). unfold place.
  destruct (running h.2); [rewrite decide_True by reflexivity | rewrite decide_False by discriminate];
    cbn [length]; lia.
Qed.

(** Numbers do not repeat before the counter has gone round. *)
Lemma given_unique s : in_order s -> Z.of_nat (length (sh_given s)) <= 2 ^ 64 ->
  NoDup (sh_given s).
Proof.
  intros [Hg _] Hl. apply NoDup_alt. intros i j n Hi Hj.
  pose proof (Hg _ _ Hi) as Ei. pose proof (Hg _ _ Hj) as Ej.
  apply lookup_lt_Some in Hi, Hj. rewrite Ei in Ej.
  Z.to_euclidean_division_equations. lia.
Qed.

(** C31: the limit holds and every connection is accounted for.  In every state the
    accept thread and the connection threads can reach, in any order of their
    steps: the counter is never above the limit, and it is the number of
    connection threads that run, plus the one place the accept thread may hold; no
    number is given or ended twice; only given numbers are ended; and once the
    accept thread and all the others have returned, all were. *)
Theorem pool_limits cfg fuel p :
  0 <= dc_max_conns cfg <= U64_MAX ->
  rtc (pool_step cfg) (pool_start cfg fuel) p ->
  let s := pl_shared p in
  live (pl_handlers p) <= sh_conns s <= live (pl_handlers p) + 1 /\
  sh_conns s <= dc_max_conns cfg /\
  (Z.of_nat (length (sh_given s)) <= 2 ^ 64 -> NoDup (sh_given s) /\ NoDup (sh_ended s)) /\
  sh_ended s ⊆+ sh_given s /\
  (running (pl_accept p) = false ->
     sh_conns s = live (pl_handlers p) /\
     (Forall (fun h => h.2 = done tt) (pl_handlers p) -> sh_ended s ≡ₚ sh_given s)).
Proof.
  intros Hmax Hr s.
  destruct (pool_reach_ok cfg Hmax fuel p Hr) as (am & ms & [Hacc Hhs Hc Hm Hids Hg Hn]).
  fold s in Hc, Hm, Hids, Hg, Hn. rewrite (live_places _ _ _ Hhs).
  assert (Hplace : 0 <= place (ac_holds am) <= 1) by (unfold place; destruct (ac_holds am); lia).
  split; [lia|]. split; [exact Hm|]. split; [|split].
  - intros Hl. pose proof (given_unique s (conj Hg Hn) Hl) as Hnd. split; [exact Hnd|].
    rewrite Hids in Hnd. apply list.NoDup_app in Hnd. apply Hnd.
  - rewrite Hids. apply submseteq_inserts_r. reflexivity.
  - intros Hend. destruct (pl_accept p) as [o|]; [|discriminate]. cbn in Hacc. subst am.
    split; [exact Hc|]. intros Hdone. rewrite Hids.
    assert (Hnone : omap open_id ms = []).
    { clear - Hhs Hdone. induction Hhs as [|h m hs ms Hf _ IH]; [reflexivity|].
      apply Forall_cons_iff in Hdone as [Hd Hdone]. unfold follows in Hf. rewrite Hd in Hf.
      destruct Hf as [_ Hf]. cbn. unfold open_id at 1. rewrite Hf. apply IH, Hdone. }
    rewrite Hnone, app_nil_r. reflexivity.
Qed.

(** ** Witnesses *)

(** An environment that hands out chunks to read and lets every call succeed. *)
Definition demo_door (reads : list (list byte)) (c : DoorCall) :
  list (list byte) * door_answer c :=
  match c return list (list byte) * door_answer c with
  | DcRead _ _ =>
      match reads with [] => ([], Ok []) | bs :: reads => (reads, Ok bs) end
  | c => (reads, some_answer c)
  end.

Lemma relay_faithful_witness :
  exists m,
    path (relay_step SdClient) relay_start
      (snd (fst (exec demo_door [[Byte.x53]; [Byte.x48; Byte.x0a]] (pipe_one 3 SdClient)))) m /\
    relay_ended SdClient m.
Proof.
  destruct (relay_faithful 3 SdClient _ _
    (exec_is_run demo_door [[Byte.x53]; [Byte.x48; Byte.x0a]] (pipe_one 3 SdClient)))
    as (m & Hp & [Hr|[_ Hm]]); [discriminate Hr|].
  exists m. split; [exact Hp | exact Hm].
Defined.

Definition demo_door_cfg : Config :=
  MkDoorConfig (MkAddr (V6 0 0 0 0 0 0 0 0) 22) (MkAddr LOCALHOST4 2222) On
    (DEFAULT_WARN_LINE ++ [CR; LF]) On 2 (ascii_bytes "door.log") false.
Definition demo_peer : SocketAddr := MkAddr (V4 192 0 2 7) 50000.

Lemma connection_lifecycle_witness :
  exists m,
    path (life_step demo_door_cfg demo_peer) life_start
      (snd (fst (exec demo_door [] (handle_conn demo_door_cfg demo_peer)))) m /\
    li_holds m = false /\ li_closed m = true.
Proof.
  destruct (connection_lifecycle demo_door_cfg demo_peer _ _
    (exec_is_run demo_door [] (handle_conn demo_door_cfg demo_peer))) as (m & Hp & Hh & Hc).
  exists m. split; [exact Hp|]. split; [exact Hh | exact Hc].
Defined.

(** The pool once a first client was let in. *)
Definition demo_pool : Pool :=
  MkPool (MkCounters 1 1 [] []) (accept_loop 1 demo_door_cfg)
    [(demo_peer, handle_conn demo_door_cfg demo_peer)].

Ltac accept_one c a :=
  eapply rtc_l; [eapply (ps_accept _ _ _ c _ _ (a : door_answer c)); cbn; auto|];
  cbn [app spawned].

Lemma demo_pool_reached : rtc (pool_step demo_door_cfg) (pool_start demo_door_cfg 2) demo_pool.
Proof.
  unfold pool_start. accept_one (DcLog (EvListenStart demo_door_cfg)) tt.
  accept_one DcStop false. accept_one DcAccept (Ok demo_peer : result SocketAddr IoKind).
  accept_one DcStop false. accept_one DcLoadConns 0.
  accept_one (DcCasConns 0 1) (Ok tt : result unit Z).
  accept_one (DcSpawnConn demo_peer) true. reflexivity.
Qed.

Lemma pool_limits_witness :
  live (pl_handlers demo_pool) = 1 /\
  live (pl_handlers demo_pool) <= sh_conns (pl_shared demo_pool) <= dc_max_conns demo_door_cfg.
Proof.
  split; [reflexivity|].
  destruct (pool_limits demo_door_cfg 2 demo_pool) as ([Hl _] & Hm & _);
    [split; [discriminate | discriminate] | exact demo_pool_reached|].
  split; [exact Hl | exact Hm].
Defined.
