(* ===== verification/DoorMain.v ===== *)
(** * DoorMain: the process of the relay ([otp-doorkeeper]: main.rs; proxy.rs)

    The listening socket, the options of the connections' sockets, the thread that
    handles signals and [main], with the theorem about the order in which the relay
    starts. *)

From stdpp Require Import strings.
From S2P Require Export Doorkeeper.

#[local] Open Scope list_scope.
#[local] Open Scope Z_scope.

(** ** The listening socket *)

Definition LISTEN_BACKLOG : Z := 256.

Inductive ListenCall :=
  | LsSocket6
  | LsV6Only (fd : Z) (only : bool)
  | LsBind (fd : Z) (addr : SocketAddr)
  | LsListen (fd backlog : Z)
  | LsBind4 (addr : SocketAddr)
  | LsNonblocking (fd : Z) (on : bool)
  | LsClose (fd : Z).

Definition listen_answer (c : ListenCall) : Type :=
  match c with
  | LsSocket6 | LsBind4 _ => result Z IoKind
  | LsClose _ => unit
  | _ => result unit IoKind
  end.

Notation listen_act R := (act ListenCall listen_answer R).
Definition listen_ask (c : ListenCall) : listen_act (listen_answer c) :=
  ask (C := ListenCall) (A := listen_answer) c.

(** [r?] while the descriptor is owned: it is closed on an error. *)
Definition owned (fd : Z) (r : result unit IoKind)
  (k : listen_act (result Z IoKind)) : listen_act (result Z IoKind) :=
  match r with
  | Ok _ => k
  | Err e => let* _ := listen_ask (LsClose fd) in done (Err e)
  end.

(** Both stacks on one socket; [TcpListener::bind] for an address of version 4. *)
Definition bind_listener (addr : SocketAddr) : listen_act (result Z IoKind) :=
  match sa_ip addr with
  | V6 _ _ _ _ _ _ _ _ =>
      let* r := listen_ask LsSocket6 in
      match r with
      | Err e => done (Err e)
      | Ok fd =>
          let* r := listen_ask (LsV6Only fd false) in owned fd r (
          let* r := listen_ask (LsBind fd addr) in owned fd r (
          let* r := listen_ask (LsListen fd LISTEN_BACKLOG) in owned fd r (done (Ok fd))))
      end
  | V4 _ _ _ _ =>
      let* r := listen_ask (LsBind4 addr) in
      match r with
      | Err e => done (Err e)
      | Ok fd => let* r := listen_ask (LsNonblocking fd false) in owned fd r (done (Ok fd))
      end
  end.

(** ** Options of a connection's sockets (module [sock]) *)

(** Seconds. *)
Definition CONNECT_TIMEOUT : Z := 5.
Definition WARN_WRITE_TIMEOUT : Z := 10.
Definition KEEPALIVE_IDLE : Z := 600.
Definition KEEPALIVE_INTERVAL : Z := 60.
Definition KEEPALIVE_COUNT : Z := 5.

Inductive SockCall :=
  | SoKeepalive (on : bool)
  | SoKeepIdle (secs : Z)
  | SoKeepInterval (secs : Z)
  | SoKeepCount (n : Z)
  | SoSendTimeout (secs : option Z)
  | SoRecvTimeout (secs : option Z).

Notation sock_act R := (act SockCall (fun _ => result unit IoKind) R).
Definition sock_ask (c : SockCall) : sock_act (result unit IoKind) :=
  ask (C := SockCall) (A := fun _ => result unit IoKind) c.

(** One after the other, up to the first that fails. *)
Fixpoint set_options (cs : list SockCall) : sock_act (result unit IoKind) :=
  match cs with
  | [] => done (Ok tt)
  | c :: cs =>
      let* r := sock_ask c in
      match r with Ok _ => set_options cs | Err e => done (Err e) end
  end.

Definition keepalive_options : list SockCall :=
  [SoKeepalive true; SoKeepIdle KEEPALIVE_IDLE; SoKeepInterval KEEPALIVE_INTERVAL;
   SoKeepCount KEEPALIVE_COUNT].

Definition apply_keepalive : sock_act (result unit IoKind) := set_options keepalive_options.

Definition apply_client_policy : sock_act (result unit IoKind) :=
  let* r := apply_keepalive in
  match r with
  | Ok _ => set_options [SoSendTimeout (Some WARN_WRITE_TIMEOUT)]
  | Err e => done (Err e)
  end.

Definition apply_upstream_policy : sock_act (result unit IoKind) := apply_keepalive.

Definition clear_app_timeouts : sock_act unit :=
  let* _ := sock_ask (SoSendTimeout None) in
  let* _ := sock_ask (SoRecvTimeout None) in
  done tt.

(** ** Signals *)

Inductive Signal := SigHup | SigTerm | SigInt.

(** [SgWake]: a connection to the listening address, within half a second, to wake the
    accepting loop; its result is ignored. *)
Inductive SignalCall :=
  | SgNext
  | SgLog (c : LogCall)
  | SgComplain
  | SgStop
  | SgWake (listen : SocketAddr).

Definition signal_answer (c : SignalCall) : Type :=
  match c with
  | SgNext => Signal
  | SgLog c => log_answer c
  | _ => unit
  end.

Notation signal_act R := (act SignalCall signal_answer R).
Definition signal_ask (c : SignalCall) : signal_act (signal_answer c) :=
  ask (C := SignalCall) (A := signal_answer) c.

Definition handle_signal (listen : SocketAddr) (log : JsonlLog) (s : Signal) :
  signal_act JsonlLog :=
  match s with
  | SigHup =>
      let* '(log, r) := lift (A2 := signal_answer) SgLog (fun _ a => a) (log_reopen log) in
      match r with
      | Ok _ => done log
      | Err _ => let* _ := signal_ask SgComplain in done log
      end
  | SigTerm | SigInt =>
      let* _ := signal_ask SgStop in
      let* _ := signal_ask (SgWake listen) in
      done log
  end.

(** The thread: it never ends. *)
Fixpoint signal_thread (fuel : nat) (listen : SocketAddr) (log : JsonlLog) : signal_act unit :=
  match fuel with
  | O => Ret OutOfFuel
  | S fuel =>
      let* s := signal_ask SgNext in
      let* log := handle_signal listen log s in
      signal_thread fuel listen log
  end.

(** ** main *)

Inductive MainCall :=
  | MnComplain
  | MnLog (c : LogCall)
  | MnSignals
  | MnSignalThread (listen : SocketAddr) (log : JsonlLog)
  | MnListen (c : ListenCall)
  | MnDoor (c : DoorCall).

(** [MnSignals]: the handlers are registered; [MnSignalThread]: the thread is made. *)
Definition main_answer (c : MainCall) : Type :=
  match c with
  | MnComplain => unit
  | MnLog c => log_answer c
  | MnSignals | MnSignalThread _ _ => bool
  | MnListen c => listen_answer c
  | MnDoor c => door_answer c
  end.

Notation main_act R := (act MainCall main_answer R).
Definition main_ask (c : MainCall) : main_act (main_answer c) :=
  ask (C := MainCall) (A := main_answer) c.
Definition as_log {R} (p : log_act R) : main_act R :=
  lift (A2 := main_answer) MnLog (fun _ a => a) p.
Definition as_listen {R} (p : listen_act R) : main_act R :=
  lift (A2 := main_answer) MnListen (fun _ a => a) p.
Definition as_door {R} (p : door_act R) : main_act R :=
  lift (A2 := main_answer) MnDoor (fun _ a => a) p.

Definition install_signal_handlers (log : JsonlLog) (listen : SocketAddr) : main_act bool :=
  let* ok := main_ask MnSignals in
  if (ok : bool) then main_ask (MnSignalThread listen log) else done false.

(** [proxy::run]; the listener is dropped at its end. *)
Definition door_run (fuel : nat) (cfg : Config) : main_act (result unit IoKind) :=
  let* r := as_listen (bind_listener (dc_listen cfg)) in
  match r with
  | Err e => done (Err e)
  | Ok fd =>
      let* r := as_door (door_serve fuel cfg) in
      let* _ := main_ask (MnListen (LsClose fd)) in
      done r
  end.

(** The exit code; failures are told on the error output. *)
Definition failure : main_act Z := let* _ := main_ask MnComplain in done 1.

Definition door_main (fuel : nat) (cli : Cli) : main_act Z :=
  match from_cli cli with
  | Err _ => failure
  | Ok cfg =>
      let* r := as_log (log_open (dc_log_path cfg) (dc_verbose cfg)) in
      match r with
      | Err _ => failure
      | Ok log =>
          let* ok := install_signal_handlers log (dc_listen cfg) in
          if negb ok then failure else
          let* r := door_run fuel cfg in
          match r with Ok _ => done 0 | Err _ => failure end
      end
  end.

(** ** The socket that listens *)

(** The sockets that were made. *)
Definition sockets (t : list (event listen_answer)) : list Z :=
  concat (map (fun e : event listen_answer =>
    match e with
    | existT LsSocket6 a => match a with Ok fd => [fd] | Err _ => [] end
    | existT (LsBind4 _) a => match a with Ok fd => [fd] | Err _ => [] end
    | _ => []
    end) t).

Ltac closed_again :=
  eexists; split; [reflexivity|]; cbn;
  match goal with
  | |- exists _, ?t = _ => first [exists t; reflexivity | exists (removelast t); reflexivity]
  end.

(** A listener that is bound is of both stacks, or of version 4 and blocking; when it
    cannot be, the socket that was made is closed, last. *)
Lemma bind_listener_runs addr t o :
  runs (bind_listener addr) t o ->
  exists r, o = Done r /\
    match r with
    | Ok fd =>
        t = match sa_ip addr with
            | V6 _ _ _ _ _ _ _ _ =>
                [ev LsSocket6 (Ok fd); ev (LsV6Only fd false) (Ok tt); ev (LsBind fd addr) (Ok tt);
                 ev (LsListen fd LISTEN_BACKLOG) (Ok tt)]
            | V4 _ _ _ _ => [ev (LsBind4 addr) (Ok fd); ev (LsNonblocking fd false) (Ok tt)]
            end
    | Err e => exists t', t = t' ++ map (fun fd => ev (LsClose fd) tt) (sockets t')
    end.
Proof.
  unfold bind_listener. intros Hr.
  destruct (sa_ip addr); destruct Hr as ([fd|e] & t1 & -> & Hr); cbn in Hr.
  - destruct Hr as ([[]|e] & t2 & -> & Hr); cbn in Hr; [destruct Hr as [-> ->]; by exists (Ok fd)|].
    destruct Hr as ([] & t3 & -> & -> & ->). closed_again.
  - destruct Hr as [-> ->]. closed_again.
  - destruct Hr as ([[]|e] & t2 & -> & Hr); cbn in Hr.
    2:{ destruct Hr as ([] & t3 & -> & -> & ->). closed_again. }
    destruct Hr as ([[]|e] & t3 & -> & Hr); cbn in Hr.
    2:{ destruct Hr as ([] & t4 & -> & -> & ->). closed_again. }
    destruct Hr as ([[]|e] & t4 & -> & Hr); cbn in Hr.
    2:{ destruct Hr as ([] & t5 & -> & -> & ->). closed_again. }
    destruct Hr as [-> ->]. by exists (Ok fd).
  - destruct Hr as [-> ->]. closed_again.
Qed.

(** ** The options are set in order, and none after one that failed *)
Lemma set_options_runs cs : forall t o,
  runs (set_options cs) t o ->
  (o = Done (Ok tt) /\ t = map (fun c => ev c (Ok tt)) cs) \/
  exists cs1 c cs2 e, cs = cs1 ++ c :: cs2 /\ o = Done (Err e) /\
    t = map (fun c => ev c (Ok tt)) cs1 ++ [ev c (Err e)].
Proof.
  induction cs as [|c cs IH]; cbn [set_options]; intros t o Hr; [destruct Hr as [-> ->]; auto|].
  destruct Hr as ([[]|e] & t1 & -> & Hr); cbn in Hr.
  - destruct (IH _ _ Hr) as [[-> ->]|(cs1 & c' & cs2 & e & -> & -> & ->)]; [auto|].
    right. exists (c :: cs1), c', cs2, e. auto.
  - destruct Hr as [-> ->]. right. by exists [], c, cs, e.
Qed.

(** ** The order in which the relay starts *)
Section Start.
Context (fuel : nat) (cli : Cli).

Notation same := (fun _ x => x) (only parsing).

(** The configuration is valid and its log open. *)
Definition logging (t : list (event main_answer)) (cfg : Config) (log : JsonlLog) : Prop :=
  from_cli cli = Ok cfg /\
  ran MnLog same (log_open (dc_log_path cfg) (dc_verbose cfg)) (Ok log) t.

(** Signals are handled, by a thread with that log. *)
Definition handling (t : list (event main_answer)) (cfg : Config) : Prop :=
  exists log, logging t cfg log /\ In (ev (A := main_answer) MnSignals true) t /\
    In (ev (A := main_answer) (MnSignalThread (dc_listen cfg) log) true) t.

Definition listening (t : list (event main_answer)) (cfg : Config) (fd : Z) : Prop :=
  handling t cfg /\ ran MnListen same (bind_listener (dc_listen cfg)) (Ok fd) t.

Definition relay_allowed (t : list (event main_answer)) (c : MainCall) (_ : main_answer c) : Prop :=
  match c with
  | MnComplain => True
  | MnLog _ => exists cfg, from_cli cli = Ok cfg
  | MnSignals => exists cfg log, logging t cfg log
  | MnSignalThread listen log =>
      exists cfg, listen = dc_listen cfg /\ logging t cfg log /\
        In (ev (A := main_answer) MnSignals true) t
  | MnListen _ => exists cfg, handling t cfg
  | MnDoor _ => exists cfg fd, listening t cfg fd
  end.

Notation upholds := (act_upholds relay_allowed).

Lemma logging_app t cfg log x : logging t cfg log -> logging (t ++ x) cfg log.
Proof. intros [Hc Hl]. split; [exact Hc | apply ran_app, Hl]. Qed.

Lemma handling_app t cfg x : handling t cfg -> handling (t ++ x) cfg.
Proof.
  intros (log & Hl & H1 & H2). exists log. split_and!; [apply logging_app, Hl | apply in_or_app; auto..].
Qed.

Lemma listening_app t cfg fd x : listening t cfg fd -> listening (t ++ x) cfg fd.
Proof. intros [Hh Hl]. split; [apply handling_app, Hh | apply ran_app, Hl]. Qed.

(** The relay ends with 0 when the accepting loop came to its regular end, else with 1. *)
Definition relay_ends (code : Z) (t : list (event main_answer)) : Prop :=
  (code = 0 /\ exists cfg fd, listening t cfg fd /\
     ran MnDoor same (door_serve fuel cfg) (Ok tt) t) \/ code = 1.

Lemma failure_upholds t : upholds failure t relay_ends.
Proof. intros a. split; [exact Logic.I | right; reflexivity]. Qed.

Lemma door_run_upholds cfg t : handling t cfg ->
  upholds (door_run fuel cfg) t (fun r t' => match r with
    | Ok _ => exists fd, listening t' cfg fd /\ ran MnDoor same (door_serve fuel cfg) (Ok tt) t'
    | Err _ => True
    end).
Proof.
  intros Ht. apply act_upholds_bind. eapply act_upholds_mono.
  { apply (act_upholds_part relay_allowed MnListen same (fun m => handling m cfg)); [|exact Ht].
    intros m c a Hm. split; [exists cfg; exact Hm | apply handling_app, Hm]. }
  cbn beta. intros [fd|e] t1 (Hh & _ & Hb); [|exact Logic.I].
  apply act_upholds_bind. eapply act_upholds_mono.
  { apply (act_upholds_part relay_allowed MnDoor same (fun m => listening m cfg fd)); [|split; assumption].
    intros m c a Hm. split; [exists cfg, fd; exact Hm | apply listening_app, Hm]. }
  cbn beta. intros r t2 (Hl & _ & Hd). apply act_upholds_bind, act_upholds_ask. intros u.
  split; [exists cfg; apply Hl|]. apply act_upholds_done. destruct r as [[]|e]; [|exact Logic.I].
  exists fd. split; [apply listening_app, Hl | apply ran_app, Hd].
Qed.

(** In every run, whatever is answered: the log is opened for a valid configuration only,
    signals are handled only with the log open, the address is bound only with signals
    handled, and connections are accepted only on a bound listener. *)
Lemma relay_starts t o :
  runs (door_main fuel cli) t o ->
  (forall t1 c a t2, t = t1 ++ ev c a :: t2 -> relay_allowed t1 c a) /\
  (forall code, o = Done code -> relay_ends code t).
Proof.
  intros Hr. assert (Hu : upholds (door_main fuel cli) [] relay_ends).
  { clear Hr t o. unfold door_main. destruct (from_cli cli) as [cfg|e] eqn:Ec; [|apply failure_upholds].
    apply act_upholds_bind. eapply act_upholds_mono.
    { apply (act_upholds_part relay_allowed MnLog same (fun _ => True)); [|exact Logic.I].
      intros m c a _. split; [exists cfg; exact Ec | exact Logic.I]. }
    cbn beta. intros [log|e] t (_ & _ & Hlog); [|apply failure_upholds].
    assert (Hl : logging t cfg log) by (split; assumption).
    apply act_upholds_bind, act_upholds_bind, act_upholds_ask. intros ok.
    split; [exists cfg, log; exact Hl|]. destruct ok; [|apply failure_upholds].
    set (t1 := t ++ _). assert (Hl1 : logging t1 cfg log) by apply logging_app, Hl.
    assert (Hs : In (ev (A := main_answer) MnSignals true) t1) by (apply in_or_app; right; left; reflexivity).
    clearbody t1. apply act_upholds_ask. intros ok.
    split; [exists cfg; auto|]. destruct ok; [|apply failure_upholds].
    assert (Hh : handling (t1 ++ [ev (A := main_answer) (MnSignalThread (dc_listen cfg) log) true]) cfg).
    { exists log. split_and!; [apply logging_app, Hl1 | apply in_or_app; auto
        | apply in_or_app; right; left; reflexivity]. }
    apply act_upholds_bind. eapply act_upholds_mono; [apply door_run_upholds, Hh|]. cbn beta.
    intros [u|e] t2 H2; [|apply failure_upholds]. destruct H2 as (fd & H2).
    apply act_upholds_done. left. eauto. }
  split.
  - intros t1 c a t2 ->. apply runs_follows in Hr. exact (upholds_follows _ _ _ _ _ _ _ _ Hu Hr).
  - intros code ->. exact (upholds_runs _ _ _ _ _ _ Hu Hr).
Qed.

End Start.
