(* ===== verification/TcpNet.v ===== *)
(** * TcpNet: making TCP connections ([otp-transport], tcp.rs)

    Resolving an address and connecting to or listening on the first of its results
    that works, accepting, and the addresses of both ends. *)

From stdpp Require Import strings.
From S2P Require Export Transport Doorkeeper.

#[local] Open Scope list_scope.
#[local] Open Scope Z_scope.

(** Streams and listeners are named by their descriptors; [NtOpen] listens on an
    address or connects to it. *)
Inductive NetCall :=
  | NtResolve (addr : list byte)
  | NtOpen (listen : bool) (a : SocketAddr)
  | NtAccept (listener : Z)
  | NtListenerAddr (listener : Z)
  | NtPeerAddr (stream : Z)
  | NtLocalAddr (stream : Z)
  | NtClose (fd : Z).

Definition net_answer (c : NetCall) : Type :=
  match c with
  | NtResolve _ => result (list SocketAddr) ErrorKind
  | NtOpen _ _ | NtAccept _ => result Z ErrorKind
  | NtListenerAddr _ | NtPeerAddr _ | NtLocalAddr _ => result SocketAddr ErrorKind
  | NtClose _ => unit
  end.

Notation net_act R := (act NetCall net_answer R).
Definition net_ask (c : NetCall) : net_act (net_answer c) :=
  ask (C := NetCall) (A := net_answer) c.

(** [for a in addrs]: the first that works; [last] is the error so far. *)
Fixpoint first_open (listen : bool) (addrs : list SocketAddr) (last : TransportError) :
  net_act (result Z TransportError) :=
  match addrs with
  | [] => done (Err last)
  | a :: addrs =>
      let* r := net_ask (NtOpen listen a) in
      match r with
      | Ok s => done (Ok s)
      | Err _ => first_open listen addrs TrIo
      end
  end.

Definition tcp_open (listen : bool) (addr : list byte) : net_act (result Z TransportError) :=
  let* r := net_ask (NtResolve addr) in
  match r with
  | Err _ => done (Err TrIo)
  | Ok addrs => first_open listen addrs TrIo
  end.

Definition tcp_connect (addr : list byte) : net_act (result Z TransportError) := tcp_open false addr.
Definition tcp_bind (addr : list byte) : net_act (result Z TransportError) := tcp_open true addr.

Definition tcp_accept (listener : Z) : net_act (result Z TransportError) :=
  let* r := net_ask (NtAccept listener) in done (map_err (fun _ => TrIo) r).

(** The listener is dropped at the end. *)
Definition bind_and_accept (addr : list byte) : net_act (result Z TransportError) :=
  let* r := tcp_bind addr in
  match r with
  | Err e => done (Err e)
  | Ok l =>
      let* s := tcp_accept l in
      let* _ := net_ask (NtClose l) in
      done s
  end.

Definition addr_answer (r : result SocketAddr ErrorKind) : result (list byte) TransportError :=
  match r with Ok a => Ok (addr_text a) | Err _ => Err TrIo end.

Definition listener_addr (listener : Z) : net_act (result (list byte) TransportError) :=
  let* r := net_ask (NtListenerAddr listener) in done (addr_answer r).

Definition tcp_peer_addr (stream : Z) : net_act (result (list byte) TransportError) :=
  let* r := net_ask (NtPeerAddr stream) in done (addr_answer r).

Definition tcp_local_addr (stream : Z) : net_act (result (list byte) TransportError) :=
  let* r := net_ask (NtLocalAddr stream) in done (addr_answer r).

(** ** The first address that works

    The addresses before it were tried in their order and refused, none after it; all
    were when there is no such address. *)
Definition refusals (listen : bool) (refused : list SocketAddr) (t : list (event net_answer)) : Prop :=
  Forall2 (fun a e => exists k, e = ev (NtOpen listen a) (Err k)) refused t.

Lemma first_open_runs listen addrs : forall t o,
  runs (first_open listen addrs TrIo) t o ->
  (o = Done (Err TrIo) /\ refusals listen addrs t) \/
  exists refused a rest t' s, addrs = refused ++ a :: rest /\ o = Done (Ok s) /\
    refusals listen refused t' /\ t = t' ++ [ev (NtOpen listen a) (Ok s)].
Proof.
  induction addrs as [|a addrs IH]; cbn [first_open]; intros t o Hr.
  - destruct Hr as [-> ->]. left. split; [reflexivity | constructor].
  - destruct Hr as ([s|k] & t1 & -> & Hr); cbn in Hr.
    + destruct Hr as [-> ->]. right. exists [], a, addrs, [], s. split_and!; auto. constructor.
    + destruct (IH _ _ Hr) as [[-> Hf]|(refused & b & rest & t' & s & -> & -> & Hf & ->)].
      * left. split; [reflexivity|]. constructor; [eauto | exact Hf].
      * right. exists (a :: refused), b, rest, (ev (NtOpen listen a) (Err k) :: t'), s.
        split_and!; auto. constructor; [eauto | exact Hf].
Qed.

(** Connecting and listening: an address that does not resolve, to nothing or at all,
    is an I/O error. *)
Lemma tcp_open_runs listen addr t o :
  runs (tcp_open listen addr) t o ->
  exists r t', t = ev (NtResolve addr) r :: t' /\
    match r with
    | Err _ => o = Done (Err TrIo) /\ t' = []
    | Ok addrs =>
        (o = Done (Err TrIo) /\ refusals listen addrs t') \/
        exists refused a rest t1 s, addrs = refused ++ a :: rest /\ o = Done (Ok s) /\
          refusals listen refused t1 /\ t' = t1 ++ [ev (NtOpen listen a) (Ok s)]
    end.
Proof.
  intros ([addrs|k] & t' & -> & Hr); cbn in Hr; do 2 eexists; (split; [reflexivity|]).
  - apply first_open_runs, Hr.
  - destruct Hr as [-> ->]. auto.
Qed.
