(* ===== verification/AuditTrail.v ===== *)
(** * AuditTrail: the audit log ([otp-platform], audit.rs; [otp-cli], auditlog.rs)

    An entry of five closed fields, its JSON line, the file it is appended to, the
    optional log of the command line, and the theorem that a line says what the
    entry said. *)

From stdpp Require Import strings.
From S2P Require Export Platform DoorLogSpec.

#[local] Open Scope list_scope.
#[local] Open Scope Z_scope.

Inductive Outcome := OcIssued | OcWasted | OcRejected | OcRecovered | OcQuarantined.

#[global] Instance audit_outcome_eq_dec : EqDecision Outcome.
Proof. solve_decision. Defined.

Record AuditEntry := MkEntry {
  ae_book_id : BookId;
  ae_segment : Z;
  ae_generation : Z;
  ae_outcome : Outcome;
  ae_error_category : option ErrorCategory;
}.

Definition outcome_str (o : Outcome) : string :=
  match o with
  | OcIssued => "issued" | OcWasted => "wasted" | OcRejected => "rejected"
  | OcRecovered => "recovered" | OcQuarantined => "quarantined"
  end.

Definition category_str (c : ErrorCategory) : string :=
  match c with
  | CatBook => "book" | CatCodec => "codec" | CatAnchor => "anchor"
  | CatAllocation => "allocation" | CatRecovery => "recovery"
  | CatHandshake => "handshake" | CatSession => "session" | CatTransport => "transport"
  | CatTerminal => "terminal" | CatPlatform => "platform" | CatInternal => "internal"
  end.

(** A member name in its quotes, with its colon. *)
Definition member (name : string) : list byte :=
  [QUOTE] ++ ascii_bytes name ++ [QUOTE; Byte.x3a].

Definition audit_entry_to_json (e : AuditEntry) : list byte :=
  [Byte.x7b] ++ member "book_id" ++ [QUOTE] ++ hex_encode (ae_book_id e) ++
  [QUOTE; Byte.x2c] ++ member "segment" ++ dec (ae_segment e) ++
  [Byte.x2c] ++ member "generation" ++ dec (ae_generation e) ++
  [Byte.x2c] ++ member "outcome" ++ [QUOTE] ++ ascii_bytes (outcome_str (ae_outcome e)) ++
  [QUOTE; Byte.x2c] ++ member "error_category" ++
  match ae_error_category e with
  | Some cat => [QUOTE] ++ ascii_bytes (category_str cat) ++ [QUOTE]
  | None => ascii_bytes "null"
  end ++ [Byte.x7d].

(** ** The file *)

Definition sink_open (p : Path) : sys_act (result Fd PlatformError) :=
  let* existed := sys_ask (SyExists p) in
  try* fd := sys_ask (SyOpen p OpAppendCreate) else from_io in
  match (if existed then None else path_parent p) with
  | Some dir => try* u := fsync_dir dir else id in done (Ok fd)
  | None => done (Ok fd)
  end.

Definition write_entry (fuel : nat) (e : AuditEntry) : fd_act (result unit PlatformError) :=
  try* u := write_full fuel (audit_entry_to_json e ++ [LF]) else id in
  try* u := fsync_file else id in
  done (Ok tt).

(** ** The log of the command line *)

(** [Audit]: the open file, or nothing. *)
Definition AuditLog : Type := option Fd.

Definition audit_open (p : Path) : sys_act (result AuditLog string) :=
  try* fd := sink_open p else (fun _ => "审计日志打开失败"%string) in done (Ok (Some fd)).

Definition emit (fuel : nat) (a : AuditLog) (e : AuditEntry) : sys_act (result unit string) :=
  match a with
  | Some fd =>
      let* r := on_fd fd (write_entry fuel e) in
      done (map_err (fun _ => "审计日志写入失败（fail closed）"%string) r)
  | None => done (Ok tt)
  end.

Definition emit_ok (fuel : nat) (a : AuditLog) (book_id : BookId) (segment generation : Z)
  (outcome : Outcome) : sys_act (result unit string) :=
  emit fuel a (MkEntry book_id segment generation outcome None).

Definition emit_err (fuel : nat) (a : AuditLog) (book_id : BookId) (segment generation : Z)
  (outcome : Outcome) (category : ErrorCategory) : sys_act (result unit string) :=
  emit fuel a (MkEntry book_id segment generation outcome (Some category)).

(** ** Reading a line back *)

Fixpoint unhex (l : list byte) : option (list byte) :=
  match l with
  | [] => Some []
  | a :: b :: l =>
      match hex_value a, hex_value b, unhex l with
      | Some x, Some y, Some r => Some (z2b (x * 16 + y) :: r)
      | _, _, _ => None
      end
  | _ => None
  end.

Definition all_outcomes : list Outcome :=
  [OcIssued; OcWasted; OcRejected; OcRecovered; OcQuarantined].

Definition all_categories : list ErrorCategory :=
  [CatBook; CatCodec; CatAnchor; CatAllocation; CatRecovery; CatHandshake; CatSession;
   CatTransport; CatTerminal; CatPlatform; CatInternal].

Definition by_name {A} (name : A -> string) (l : list A) (s : list byte) : option A :=
  List.find (fun x => bool_decide (ascii_bytes (name x) = s)) l.

Definition entry_of (ms : list (list byte * Field)) : option AuditEntry :=
  match ms with
  | [(k1, FStr id); (k2, FU64 seg); (k3, FU64 gen); (k4, FStr o); (k5, c)] =>
      if bool_decide ([k1; k2; k3; k4; k5] =
           map ascii_bytes ["book_id"; "segment"; "generation"; "outcome";
                            "error_category"]%string)
      then match unhex id, by_name outcome_str all_outcomes o with
           | Some id, Some o =>
               match c with
               | FNull => Some (MkEntry id seg gen o None)
               | FStr s =>
                   match by_name category_str all_categories s with
                   | Some c => Some (MkEntry id seg gen o (Some c))
                   | None => None
                   end
               | _ => None
               end
           | _, _ => None
           end
      else None
  | _ => None
  end.

(** The line as JSON: its members are read as those of the relay's log. *)
Definition read_audit (line : list byte) : option AuditEntry :=
  match strip [Byte.x7b] line with
  | Some l =>
      match read_members (length line) (Byte.x2c :: l) with
      | Some ms => entry_of ms
      | None => None
      end
  | None => None
  end.

Definition entry_members (e : AuditEntry) : list (list byte * Field) :=
  [(ascii_bytes "book_id", FStr (hex_encode (ae_book_id e)));
   (ascii_bytes "segment", FU64 (ae_segment e));
   (ascii_bytes "generation", FU64 (ae_generation e));
   (ascii_bytes "outcome", FStr (ascii_bytes (outcome_str (ae_outcome e))));
   (ascii_bytes "error_category",
    match ae_error_category e with
    | Some c => FStr (ascii_bytes (category_str c)) | None => FNull
    end)].

Definition wf_entry (e : AuditEntry) : Prop :=
  is_u64 (ae_segment e) /\ is_u64 (ae_generation e).

Lemma hex_pair b :
  hex_value (hex_digit (Z.shiftr (b2z b) 4)) = Some (b2z b / 16) /\
  hex_value (hex_digit (Z.land (b2z b) 15)) = Some (b2z b mod 16).
Proof. destruct b; vm_compute; auto. Qed.

Lemma unhex_hex l : unhex (hex_encode l) = Some l.
Proof.
  unfold hex_encode. induction l as [|b l IH]; [reflexivity|]. cbn [List.flat_map app unhex].
  destruct (hex_pair b) as [-> ->]. rewrite IH. do 2 f_equal.
  rewrite Z.mul_comm, <- Z.div_mod by discriminate. apply z2b_b2z.
Qed.

Lemma plain_hex l : forallb plain (hex_encode l) = true.
Proof.
  unfold hex_encode. induction l as [|b l IH]; [reflexivity|]. cbn [List.flat_map].
  rewrite plain_app, IH, andb_true_r. destruct b; vm_compute; reflexivity.
Qed.

Lemma plain_outcome o : forallb plain (ascii_bytes (outcome_str o)) = true.
Proof. destruct o; vm_compute; reflexivity. Qed.

Lemma plain_category c : forallb plain (ascii_bytes (category_str c)) = true.
Proof. destruct c; vm_compute; reflexivity. Qed.

(** A line is the members of its entry, without the comma before the first. *)
Lemma audit_line_members e :
  Byte.x7b :: tail (List.flat_map member_text (entry_members e) ++ CLOSE) =
  audit_entry_to_json e ++ [LF].
Proof.
  unfold entry_members. cbn [List.flat_map app]. unfold member_text at 1.
  unfold audit_entry_to_json, member_text, CLOSE, field_text. cbn [fst snd tail app].
  rewrite (escape_plain _ (plain_hex _)), (escape_plain _ (plain_outcome _)).
  generalize (hex_encode (ae_book_id e)) (dec (ae_segment e)) (dec (ae_generation e))
    (ascii_bytes (outcome_str (ae_outcome e))).
  intros h s g o. destruct (ae_error_category e) as [c|].
  - rewrite (escape_plain _ (plain_category c)). generalize (ascii_bytes (category_str c)).
    intros t. repeat (cbn; rewrite <- ?app_assoc). reflexivity.
  - repeat (cbn; rewrite <- ?app_assoc). reflexivity.
Qed.

Lemma by_name_outcome o :
  by_name outcome_str all_outcomes (ascii_bytes (outcome_str o)) = Some o.
Proof. destruct o; vm_compute; reflexivity. Qed.

Lemma by_name_category c :
  by_name category_str all_categories (ascii_bytes (category_str c)) = Some c.
Proof. destruct c; vm_compute; reflexivity. Qed.

Lemma entry_of_members e : entry_of (entry_members e) = Some e.
Proof.
  destruct e as [id seg gen o c]. unfold entry_members, entry_of. cbn [ae_book_id ae_segment
    ae_generation ae_outcome ae_error_category].
  rewrite bool_decide_eq_true_2 by reflexivity. rewrite unhex_hex, by_name_outcome.
  destruct c; [rewrite by_name_category|]; reflexivity.
Qed.

(** An audit line says what the entry said, and nothing else: whatever the entry, the
    line has no control byte before its end, and reading it as JSON gives exactly the five
    fields, in their order. *)
Theorem audit_roundtrip e :
  wf_entry e ->
  let line := audit_entry_to_json e ++ [LF] in
  read_audit line = Some e /\ exists body, line = body ++ [LF] /\ printable body = true.
Proof.
  intros [Hs Hg] line.
  assert (Hf : Forall (fun m => wf_field m.2) (entry_members e)).
  { unfold entry_members. rewrite !Forall_cons_iff. cbn [snd wf_field].
    destruct (ae_error_category e);
      (split_and!; [exact I | exact Hs | exact Hg | exact I | exact I | constructor]). }
  assert (Hc : exists r, List.flat_map member_text (entry_members e) ++ CLOSE = Byte.x2c :: r)
    by (eexists; reflexivity).
  destruct Hc as [r Hc]. split.
  - unfold read_audit. subst line. rewrite <- audit_line_members, Hc.
    change (strip [Byte.x7b] (Byte.x7b :: tail (Byte.x2c :: r))) with (Some r). cbv iota.
    rewrite <- Hc, read_members_text; [apply entry_of_members| |exact Hf].
    pose proof (length_members (entry_members e)) as Hl. rewrite Hc in Hl |- *. exact Hl.
  - subst line. exists (audit_entry_to_json e). split; [reflexivity|].
    unfold audit_entry_to_json, member. rewrite !printable_app.
    rewrite (plain_printable _ (plain_hex _)), (plain_printable _ (plain_outcome _)).
    pose proof (printable_field (FU64 (ae_segment e)) Hs) as Ps.
    pose proof (printable_field (FU64 (ae_generation e)) Hg) as Pg. cbn [field_text] in Ps, Pg.
    rewrite Ps, Pg. destruct (ae_error_category e) as [c|]; rewrite ?printable_app;
      [rewrite (plain_printable _ (plain_category c))|]; reflexivity.
Qed.

Lemma audit_roundtrip_witness :
  let e := MkEntry (ascii_bytes "OTPTERM-TESTBOOK") 7 8 OcIssued (Some CatHandshake) in
  read_audit (audit_entry_to_json e ++ [LF]) = Some e.
Proof.
  cbv zeta. apply (audit_roundtrip (MkEntry (ascii_bytes "OTPTERM-TESTBOOK") 7 8 OcIssued
    (Some CatHandshake))). split; cbn; ulia.
Defined.
