(* ===== verification/AnchorInit.v ===== *)
(** * AnchorInit: creating and inspecting anchors ([otp-cli], anchorinit.rs and
      anchorio.rs)

    The first anchor pair of an endpoint, as a program over the calls it makes; what
    it may do to the files there, whatever the calls answer; and the inspection of
    anchor files. *)

From stdpp Require Import strings.
From S2P Require Export Platform SimDisk.

#[local] Open Scope list_scope.
#[local] Open Scope Z_scope.

(** ** Creating the pair (anchorinit.rs) *)

Record AnchorInitSummary := MkInitSummary {
  is_record : AnchorRecord;
  is_path_a : Path;
  is_path_b : Path;
}.

Inductive AnchorInitError :=
  | AiAnchorExists (p : Path) (existing : option BookId) (mismatch : bool)
  | AiSamePath (p : Path)
  | AiUnsupportedFilesystem (p : Path)
  | AiIo (p : Path)
  | AiVerifyFailed (p : Path)
  | AiCleanupFailed (p : Path).

Section Init.
Context `{Sha256} (fuel : nat).

Definition ok_of {A E} (r : result A E) : option A :=
  match r with Ok a => Some a | Err _ => None end.

(** [read(path).ok().and_then(decode_and_verify(..).ok())]. *)
Definition read_record_file (p : Path) : sys_act (option AnchorRecord) :=
  let* r := sys_ask (SyReadFile p) in
  done (match r with Ok bytes => ok_of (decode_and_verify bytes) | Err _ => None end).

Definition exists_err (p : Path) (expected : BookId) : sys_act AnchorInitError :=
  let* r := read_record_file p in
  let existing := option_map ar_book_id r in
  let mismatch :=
    match existing with
    | Some id => negb (bool_decide (id = expected)) | None => false
    end in
  done (AiAnchorExists p existing mismatch).

Definition init_write_one (p : Path) (bytes : list byte) (expected : BookId) :
  sys_act (result unit AnchorInitError) :=
  let* o := sys_ask (SyOpen p OpCreateNew) in
  match o with
  | Err EExist => let* e := exists_err p expected in done (Err e)
  | Err _ => done (Err (AiIo p))
  | Ok fd =>
      try* u := on_fd fd (write_full fuel bytes) else (fun _ => AiIo p) in
      try* u := on_fd fd fsync_file else (fun _ => AiIo p) in
      try* u := fsync_dir (parent_or_cwd p) else (fun _ => AiIo p) in
      done (Ok tt)
  end.

Definition cleanup_partial (p : Path) : sys_act (result unit AnchorInitError) :=
  let* r := sys_ask (SyUnlink p) in
  let* gone :=
    match r with
    | Ok _ => done true
    | Err _ => let* there := sys_ask (SyExists p) in done (negb there)
    end in
  if gone : bool then let* _ := fsync_dir (parent_or_cwd p) in done (Ok tt)
  else done (Err (AiCleanupFailed p)).

(** The first two loops: the file systems, then that nothing is there. *)
Fixpoint init_check_fs (ps : list Path) : sys_act (result unit AnchorInitError) :=
  match ps with
  | [] => done (Ok tt)
  | p :: ps =>
      try* u := require_supported_filesystem p else (fun _ => AiUnsupportedFilesystem p) in
      init_check_fs ps
  end.

Fixpoint init_check_absent (book_id : BookId) (ps : list Path) :
  sys_act (result unit AnchorInitError) :=
  match ps with
  | [] => done (Ok tt)
  | p :: ps =>
      let* there := sys_ask (SyExists p) in
      let* taken := if there : bool then done true else sys_ask (SyIsSymlink p) in
      if taken : bool then let* e := exists_err p book_id in done (Err e)
      else init_check_absent book_id ps
  end.

(** The last loop: both files must decode to the record. *)
Fixpoint init_verify (record : AnchorRecord) (path_a path_b : Path) (ps : list Path) :
  sys_act (result unit AnchorInitError) :=
  match ps with
  | [] => done (Ok tt)
  | p :: ps =>
      let* r := read_record_file p in
      if bool_decide (r = Some record) then init_verify record path_a path_b ps else
      try* u := cleanup_partial path_a else id in
      try* u := cleanup_partial path_b else id in
      done (Err (AiVerifyFailed p))
  end.

Definition init_anchor_pair (book_id : BookId) (path_a path_b : Path) :
  sys_act (result AnchorInitSummary AnchorInitError) :=
  if bool_decide (path_a = path_b) then done (Err (AiSamePath path_a)) else
  try* u := init_check_fs [path_a; path_b] else id in
  try* u := init_check_absent book_id [path_a; path_b] else id in
  let record := anchor_init book_id in
  let bytes := encode_record record [] in
  try* u := init_write_one path_a bytes book_id else id in
  let* b := init_write_one path_b bytes book_id in
  match b with
  | Err e => try* u := cleanup_partial path_a else id in done (Err e)
  | Ok _ =>
      try* u := init_verify record path_a path_b [path_a; path_b] else id in
      done (Ok (MkInitSummary record path_a path_b))
  end.

(** ** Inspecting (anchorio.rs) *)

Record AnchorStatus := MkStatus {
  as_record : option AnchorRecord;
  as_failure : option string;
}.

Record AnchorInspectReport := MkInspect { ai_a : AnchorStatus; ai_b : AnchorStatus }.

Definition inspect_anchor (p : Path) : sys_act AnchorStatus :=
  let* r := sys_ask (SyReadFile p) in
  done match r with
       | Err _ => MkStatus None (Some "unreadable"%string)
       | Ok bytes =>
           match decode_and_verify bytes with
           | Ok rec => MkStatus (Some rec) None
           | Err _ => MkStatus None (Some "corrupt"%string)
           end
       end.

Definition relation (a b : AnchorStatus) : option string :=
  match as_record a, as_record b with
  | Some ra, Some rb =>
      Some match decide_anchors (Ok ra) (Ok rb) with
           | Consistent _ => "consistent"
           | AdoptHigher _ _ => "adopt-higher (stale copy repairable)"
           | QuarantineCorrupt _ _ => "quarantine"
           | BothUnreadable => "both-unreadable"
           | CannotProveSafe _ => "cannot-prove-safe"
           end%string
  | _, _ => None
  end.

Definition inspect_ok (r : AnchorInspectReport) : bool :=
  is_some (as_record (ai_a r)) && is_some (as_record (ai_b r)).

End Init.

(** ** What happens to the files *)

(** The files by path, and the path a descriptor that may write was made for. *)
Record Files := MkFiles {
  fl_content : Path -> option (list byte);
  fl_fds : Fd -> option Path;
}.

Definition put_file (f : Files) (p : Path) (x : option (list byte)) : Files :=
  MkFiles (fun q => if decide (q = p) then x else fl_content f q) (fl_fds f).

Definition add_fd (f : Files) (fd : Fd) (p : option Path) : Files :=
  MkFiles (fl_content f) (fun d => if decide (d = fd) then p else fl_fds f d).

(** Any call may fail; a created file did not exist before; writes on a new file
    append some of the bytes. *)
Definition files_step (f : Files) (c : SysCall) : sys_answer c -> Files -> Prop :=
  match c with
  | SyExists p => fun a f' => f' = f /\ a = is_some (fl_content f p)
  | SyReadFile p => fun a f' => f' = f /\ (forall x, a = Ok x -> fl_content f p = Some x)
  | SyOpen p OpCreateNew => fun a f' =>
      match a with
      | Ok fd => fl_content f p = None /\ f' = add_fd (put_file f p (Some [])) fd (Some p)
      | Err _ => f' = f
      end
  | SyOpen _ OpReadOnly => fun a f' =>
      match a with Ok fd => f' = add_fd f fd None | Err _ => f' = f end
  | SyFd fd (FdWrite bs) => fun a f' =>
      match a with
      | Ok n => exists k, n = Z.of_nat k /\ (k <= length bs)%nat /\
          match fl_fds f fd with
          | Some p => exists x, fl_content f p = Some x /\ f' = put_file f p (Some (x ++ take k bs))
          | None => f' = f
          end
      | Err _ => f' = f
      end
  | SyUnlink p => fun a f' =>
      match a with Ok _ => f' = put_file f p None | Err _ => f' = f end
  | _ => fun _ f' => f' = f
  end.

Lemma files_ask c f (Q : sys_answer c -> Files -> Prop) :
  (forall a f', files_step f c a f' -> Q a f') -> act_meets files_step True (sys_ask c) f Q.
Proof. exact id. Qed.

Lemma files_mono {R} (p : sys_act R) f (Q Q' : R -> Files -> Prop) :
  act_meets files_step True p f Q -> (forall r f', Q r f' -> Q' r f') ->
  act_meets files_step True p f Q'.
Proof. intros Hp HQ. eapply act_meets_mono; eauto. Qed.

(** A step of a sequence whose first program is described by [L]. *)
Ltac files_by L :=
  apply act_meets_bind; eapply files_mono; [apply L; eauto | cbn beta].

(** Programs that leave every file alone. *)
Notation reads_only p :=
  (forall f, act_meets files_step True p f (fun _ f' => fl_content f' = fl_content f)).

Lemma fsync_dir_reads p : reads_only (fsync_dir p).
Proof.
  intros f. unfold fsync_dir. apply act_meets_bind, files_ask. intros [fd|e] f' Hs.
  - cbn in Hs. subst f'. cbn. intros a f' ->. reflexivity.
  - cbn in Hs. subst f'. reflexivity.
Qed.

Lemma require_fs_reads p : reads_only (require_supported_filesystem p).
Proof.
  intros f. unfold require_supported_filesystem, statfs_magic. apply act_meets_bind, files_ask.
  intros b f' [-> _]. destruct (has_nul _); cbn -[fs_verdict]; [reflexivity|].
  intros r f' ->. destruct r; reflexivity.
Qed.

Section Safety.
Context `{Sha256} (fuel : nat) (book_id : BookId).

Notation enc := (encode_record (anchor_init book_id) []).

Lemma read_file_reads p f :
  act_meets files_step True (read_record_file p) f (fun r f' => f' = f /\
    forall rec, r = Some rec -> exists x, fl_content f p = Some x /\
      decode_and_verify x = Ok rec).
Proof.
  unfold read_record_file. apply act_meets_bind, files_ask. intros r f' [-> Hr]. cbn.
  split; [reflexivity|]. destruct r as [x|]; [|discriminate]. intros rec Hrec.
  exists x. split; [auto|]. destruct (decode_and_verify x); [cbn in Hrec; congruence | discriminate].
Qed.

Lemma exists_err_reads p f :
  act_meets files_step True (exists_err p book_id) f (fun e f' => f' = f /\
    exists id m, e = AiAnchorExists p id m).
Proof.
  unfold exists_err. files_by read_file_reads. intros r f' [-> _]. split; [reflexivity|]. eauto.
Qed.

(** [f'] is [f] with [y] at path [p]. *)
Definition changed (f f' : Files) (p : Path) (y : option (list byte)) : Prop :=
  fl_content f' p = y /\ forall q, q <> p -> fl_content f' q = fl_content f q.

Lemma changed_put f p y : changed f (put_file f p y) p y.
Proof.
  split; cbn; [rewrite decide_True by reflexivity; reflexivity|].
  intros q Hq. rewrite decide_False by exact Hq. reflexivity.
Qed.

Lemma changed_trans f1 f2 f3 p y z : changed f1 f2 p y -> changed f2 f3 p z -> changed f1 f3 p z.
Proof. intros [_ H1] [H2 H3]. split; [exact H2|]. intros q Hq. rewrite H3, H1; auto. Qed.

(** A complete write to a new file appends a part of the data, all of it on success. *)
Lemma write_full_files fd p : forall fu data f x,
  fl_fds f fd = Some p -> fl_content f p = Some x ->
  act_meets files_step True (on_fd fd (write_full fu data)) f (fun r f' =>
    exists k, (k <= length data)%nat /\ changed f f' p (Some (x ++ take k data)) /\
      (forall u, r = Ok u -> k = length data)).
Proof.
  induction fu as [|fu IH]; intros data f x Hfd Hx;
    (destruct data as [|b data];
      [cbn; exists O; rewrite app_nil_r; split_and!; auto; split; auto|]);
    [exact I|].
  set (l := b :: data). assert (Same : forall e, exists k, (k <= length l)%nat /\
    changed f f p (Some (x ++ take k l)) /\
    (forall u, Err (T := unit) (E := PlatformError) e = Ok u -> k = length l)).
  { intros e. exists O. cbn. rewrite app_nil_r. split_and!; [lia|split; auto|discriminate]. }
  intros a f' Hs. cbn in Hs. destruct a as [n|e].
  - destruct Hs as (k & -> & Hk & Hf). rewrite Hfd in Hf. destruct Hf as (y & Hy & ->).
    rewrite Hx in Hy. injection Hy as <-.
    cbn -[Z.eqb Z.leb Z.of_nat drop take put_file].
    destruct (Z.eqb_spec (Z.of_nat k) 0) as [Hk0|_].
    { cbn. exists O. replace k with O by lia. split_and!; [lia|apply changed_put|discriminate]. }
    rewrite (proj2 (Z.leb_le (Z.of_nat k) (Z.of_nat (S (length data))))) by lia.
    rewrite Nat2Z.id.
    eapply files_mono; [eapply (IH (drop k l)); [exact Hfd|]; apply changed_put|].
    cbn beta. intros r f' (j & Hj & Hc & Hok). rewrite length_drop in Hj, Hok.
    exists (k + j)%nat. subst l. cbn [length] in *. split; [lia|]. split.
    + rewrite <- app_assoc, take_take_drop in Hc.
      eapply changed_trans; [apply changed_put | exact Hc].
    + intros u Hu. specialize (Hok u Hu). lia.
  - subst f'. destruct e; first [apply Same | eapply IH; assumption].
Qed.

(** What one write leaves: nothing new, or a part of the anchor at a path that was free,
    all of it on success. *)
Lemma write_one_files p f :
  act_meets files_step True (init_write_one fuel p enc book_id) f (fun r f' =>
    match r with
    | Ok _ => fl_content f p = None /\ changed f f' p (Some enc)
    | Err e => fl_content f' = fl_content f /\ e <> AiCleanupFailed p \/
        e = AiIo p /\ fl_content f p = None /\ exists k, changed f f' p (Some (take k enc))
    end).
Proof.
  unfold init_write_one. apply act_meets_bind, files_ask. intros [fd|e] f' Hs.
  2:{ cbn in Hs. subst f'. destruct e; try (cbn; left; split; [reflexivity | discriminate]).
      files_by exists_err_reads. intros e f' (-> & id & m & ->). cbn. left.
      split; [reflexivity | discriminate]. }
  destruct Hs as [Hn ->]. set (f1 := add_fd _ _ _).
  assert (Hfd : fl_fds f1 fd = Some p) by (cbn; rewrite decide_True; reflexivity).
  assert (Hc1 : changed f f1 p (Some [])) by apply (changed_put f p (Some [])).
  apply act_meets_bind. eapply files_mono.
  { apply (write_full_files fd p fuel enc f1 [] Hfd). apply Hc1. }
  cbn beta. intros r f2 (k & Hk & Hc2 & Hok).
  pose proof (changed_trans _ _ _ _ _ _ Hc1 Hc2) as Hc. cbn [app] in Hc.
  destruct r as [u|e]; [|cbn; right; eauto].
  rewrite (Hok u eq_refl), firstn_all in Hc.
  assert (Hfull : forall f3, fl_content f3 = fl_content f2 ->
    changed f f3 p (Some enc)) by (intros f3 E; split; rewrite E; apply Hc).
  assert (Hleft : forall f3, fl_content f3 = fl_content f2 ->
    exists k, changed f f3 p (Some (take k enc))).
  { intros f3 E. exists (length enc). rewrite firstn_all. auto. }
  apply act_meets_bind. intros a f3 Hs. cbn in Hs. subst f3.
  destruct a as [[]|e]; cbn [prog_bind on_fd map_err]; [|cbn; right; eauto].
  files_by fsync_dir_reads. intros r f3 Hf3.
  destruct r as [[]|e]; cbn; [auto | right; eauto].
Qed.

(** The removal of a file: it is gone, or the call says so. *)
Lemma cleanup_files p f :
  act_meets files_step True (cleanup_partial p) f (fun r f' =>
    match r with
    | Ok _ => changed f f' p None
    | Err e => e = AiCleanupFailed p /\ fl_content f' = fl_content f
    end).
Proof.
  unfold cleanup_partial. apply act_meets_bind, files_ask. intros r f' Hs.
  assert (G : forall g, changed f g p None ->
    act_meets files_step True (let* _ := fsync_dir (parent_or_cwd p) in
      done (Ok (T := unit) (E := AnchorInitError) tt)) g (fun r f' =>
      match r with
      | Ok _ => changed f f' p None
      | Err e => e = AiCleanupFailed p /\ fl_content f' = fl_content f
      end)).
  { intros g Hg. files_by fsync_dir_reads. intros _ f2 E. cbn. split; rewrite E; apply Hg. }
  destruct r as [u|e]; cbn in Hs; subst f'.
  - apply act_meets_bind. cbn. apply G, changed_put.
  - apply act_meets_bind, act_meets_bind, files_ask. intros b f' [-> ->].
    destruct (fl_content f p) eqn:E; cbn; [auto|]. apply G. split; auto.
Qed.

Lemma check_fs_files ps f :
  act_meets files_step True (init_check_fs ps) f (fun r f' =>
    fl_content f' = fl_content f /\ forall e, r = Err e -> exists p, e = AiUnsupportedFilesystem p).
Proof.
  revert f. induction ps as [|p ps IH]; intros f; cbn [init_check_fs];
    [split; [reflexivity | discriminate]|].
  files_by require_fs_reads. intros [u|e] f' E.
  - eapply files_mono; [apply IH|]. cbn beta. intros r f2 [E2 He]. rewrite E2, E. auto.
  - split; [exact E|]. intros e' [= <-]. eauto.
Qed.

Lemma check_absent_files ps f :
  act_meets files_step True (init_check_absent book_id ps) f (fun r f' =>
    fl_content f' = fl_content f /\
    forall e, r = Err e -> exists p id m, e = AiAnchorExists p id m).
Proof.
  revert f. induction ps as [|p ps IH]; intros f; cbn [init_check_absent];
    [split; [reflexivity | discriminate]|].
  apply act_meets_bind, files_ask. intros b f' [-> ->]. apply act_meets_bind.
  assert (G : forall t : bool, act_meets files_step True
    (if t then let* e := exists_err p book_id in done (Err e)
     else init_check_absent book_id ps) f (fun r f' => fl_content f' = fl_content f /\
    forall e, r = Err e -> exists p id m, e = AiAnchorExists p id m)).
  { intros []; [|apply IH]. files_by exists_err_reads. intros e f' (-> & id & m & ->).
    split; [reflexivity|]. intros e' [= <-]. eauto. }
  destruct (is_some (fl_content f p)); [apply G|]. intros t f' ->. apply (G t).
Qed.

Context (pa pb : Path) (Hab : pa <> pb).

(** At most the two new files, each a part of the anchor, where nothing was. *)
Definition partial (f f' : Files) : Prop :=
  forall p, fl_content f' p = fl_content f p \/
    ((p = pa \/ p = pb) /\ fl_content f p = None /\
     exists k, fl_content f' p = Some (take k enc)).

(** How the command may end, started on [f]. *)
Definition init_ends (f : Files) (r : result AnchorInitSummary AnchorInitError) (f' : Files) :
  Prop :=
  match r with
  | Ok s => is_record s = anchor_init book_id /\
      (fl_content f pa = None /\ fl_content f' pa = Some enc) /\
      (fl_content f pb = None /\ fl_content f' pb = Some enc) /\
      forall p, p <> pa -> p <> pb -> fl_content f' p = fl_content f p
  | Err e => (forall p, fl_content f' p = fl_content f p) \/
      (exists p, e = AiIo p \/ e = AiCleanupFailed p) /\ partial f f'
  end.

(** Both files written: the state before the last loop. *)
Definition both_written (f f2 : Files) : Prop :=
  fl_content f pa = None /\ fl_content f pb = None /\
  fl_content f2 pa = Some enc /\ fl_content f2 pb = Some enc /\
  forall p, p <> pa -> p <> pb -> fl_content f2 p = fl_content f p.

Lemma partial_intro f f' :
  fl_content f pa = None -> fl_content f pb = None ->
  (fl_content f' pa = None \/ exists k, fl_content f' pa = Some (take k enc)) ->
  (fl_content f' pb = None \/ exists k, fl_content f' pb = Some (take k enc)) ->
  (forall p, p <> pa -> p <> pb -> fl_content f' p = fl_content f p) -> partial f f'.
Proof.
  intros Na Nb Ha Hb Ho p. destruct (decide (p = pa)) as [->|Ea].
  { rewrite Na. destruct Ha; auto. }
  destruct (decide (p = pb)) as [->|Eb]; [|auto]. rewrite Nb. destruct Hb; auto.
Qed.

Lemma whole_part : exists k, Some enc = Some (take k enc).
Proof. exists (length enc). rewrite firstn_all. reflexivity. Qed.

Lemma verify_files f : forall ps f2, both_written f f2 ->
  act_meets files_step True (init_verify (anchor_init book_id) pa pb ps) f2 (fun r f' =>
    match r with
    | Ok _ => both_written f f'
    | Err e => init_ends f (Err e) f'
    end).
Proof.
  induction ps as [|p ps IH]; intros f2 Hw; cbn [init_verify]; [exact Hw|].
  files_by read_file_reads. intros r f3 [-> _]. case_bool_decide; [apply IH, Hw|].
  destruct Hw as (Na & Nb & Wa & Wb & Ho).
  files_by cleanup_files. intros [u|e] f3 Hc.
  - destruct Hc as [Ca Co]. files_by cleanup_files. intros [u'|e] f4 Hd; cbn.
    + destruct Hd as [Da Do]. left. intros q.
      destruct (decide (q = pb)) as [->|Eb]; [congruence|]. rewrite Do by exact Eb.
      destruct (decide (q = pa)) as [->|Ea]; [congruence|]. rewrite Co; auto.
    + destruct Hd as [-> Ed]. right. split; [eauto|]. apply partial_intro; auto.
      * left. rewrite Ed. exact Ca.
      * right. rewrite Ed, Co by congruence. rewrite Wb. apply whole_part.
      * intros q Ha Hb. rewrite Ed, Co by exact Ha. auto.
  - destruct Hc as [-> Ec]. cbn. right. split; [eauto|].
    apply partial_intro; rewrite ?Ec; auto; right;
      rewrite ?Wa, ?Wb; apply whole_part.
Qed.

Lemma init_meets f :
  act_meets files_step True (init_anchor_pair fuel book_id pa pb) f (init_ends f).
Proof.
  unfold init_anchor_pair. rewrite bool_decide_eq_false_2 by exact Hab.
  files_by check_fs_files. intros [u|e] f0 [E0 _]; [|cbn; left; intros p; rewrite E0; reflexivity].
  files_by check_absent_files. intros [u'|e] f1 [E1 _];
    [|cbn; left; intros p; rewrite E1, E0; reflexivity]. rewrite E0 in E1. clear E0 f0.
  files_by write_one_files. intros [u2|e] f2 H2.
  2:{ cbn. destruct H2 as [[E2 _]|(-> & Hn & k & Hc)].
      - left. intros p. rewrite E2, E1. reflexivity.
      - right. split; [eauto|]. intros p. destruct Hc as [Hc Ho]. rewrite E1 in *.
        destruct (decide (p = pa)) as [->|Hp]; [right; eauto | left; auto]. }
  destruct H2 as [Na [Wa Wo]]. rewrite E1 in Na, Wo.
  files_by write_one_files. intros [u3|e] f3 H3.
  - destruct H3 as [Nb [Wb Wo']]. rewrite Wo in Nb by congruence.
    assert (Hw : both_written f f3).
    { split_and!; auto; [rewrite Wo'; auto|]. intros p Ha Hb. rewrite Wo', Wo; auto. }
    files_by verify_files. intros [u4|e] f4 H4; [|exact H4].
    destruct H4 as (? & ? & ? & ? & ?). cbn. auto.
  - files_by cleanup_files. intros [u4|e'] f4 H4.
    + destruct H4 as [Ca Co]. cbn. destruct H3 as [[E3 _]|(-> & Nb & k & Wb & Wo')].
      * left. intros p. destruct (decide (p = pa)) as [->|Hp]; [congruence|].
        rewrite Co, E3, Wo; auto.
      * right. split; [eauto|]. rewrite Wo in Nb by congruence. apply partial_intro; auto.
        -- right. exists k. rewrite Co; auto.
        -- intros p Ha Hb. rewrite Co, Wo', Wo; auto.
    + destruct H4 as [-> E4]. cbn. right. split; [eauto|].
      destruct H3 as [[E3 _]|(-> & Nb & k & Wb & Wo')].
      * intros p. rewrite E4, E3. destruct (decide (p = pa)) as [->|Hp]; [|left; auto].
        right. split; [auto|]. split; [exact Na|]. rewrite Wa. apply whole_part.
      * rewrite Wo in Nb by congruence. apply partial_intro; auto.
        -- right. rewrite E4, Wo', Wa by congruence. apply whole_part.
        -- right. exists k. rewrite E4. exact Wb.
        -- intros p Ha Hb. rewrite E4, Wo', Wo; auto.
Qed.

End Safety.

(** C30: creating an anchor pair never touches a file that was there, whatever its calls answer.
    A success found neither file and leaves exactly the encoded first record in both; an
    error leaves everything as it was, or is the failure of one file's calls or of the
    cleaning up, and then a part of the new anchor may be left where nothing was. *)
Theorem init_pair_safe `{Sha256} fuel book_id pa pb f f' t o :
  pa <> pb ->
  runs (init_anchor_pair fuel book_id pa pb) t o -> path files_step f t f' ->
  match o with
  | Done r => init_ends book_id pa pb f r f'
  | Panicked => False
  | OutOfFuel => True
  end.
Proof.
  intros Hab Hr Hp.
  pose proof (meets_runs _ _ _ _ _ _ _ (init_meets fuel book_id pa pb Hab f) Hr Hp) as Hm.
  destruct o; exact Hm.
Qed.

(** ** Witnesses *)

(** Files on a qualified file system; a script says which calls fail. *)
Definition files_env (w : Files * list bool) (c : SysCall) :
  (Files * list bool) * sys_answer c :=
  let '(f, script) := w in
  let bad := match script with b :: _ => b | [] => false end in
  let w := (f, tail script) in
  match c return (Files * list bool) * sys_answer c with
  | SyExists p => (w, is_some (fl_content f p))
  | SyIsSymlink _ => (w, false)
  | SyStatfs _ => (w, if bad then Err EOther else Ok EXT_MAGIC)
  | SyMetadata _ => (w, Err EOther)
  | SyReadFile p => (w, if bad then Err EOther else
      match fl_content f p with Some x => Ok x | None => Err ENoEnt end)
  | SyReadText _ => (w, Err EOther)
  | SyWriteFile _ _ => (w, Err EOther)
  | SyOpen p OpCreateNew =>
      match fl_content f p with
      | Some _ => (w, Err EExist)
      | None => if bad then (w, Err ENoSpc)
                else ((add_fd (put_file f p (Some [])) 3 (Some p), tail script), Ok 3)
      end
  | SyOpen p OpReadOnly => if bad then (w, Err EOther) else ((add_fd f 3 None, tail script), Ok 3)
  | SyOpen _ _ => (w, Err EOther)
  | SyFd fd (FdWrite bs) =>
      if bad then (w, Err ENoSpc) else
      match fl_fds f fd with
      | Some p =>
          match fl_content f p with
          | Some x => ((put_file f p (Some (x ++ bs)), tail script), Ok (Z.of_nat (length bs)))
          | None => (w, Err EOther)
          end
      | None => (w, Ok (Z.of_nat (length bs)))
      end
  | SyFd _ (FdRead _) => (w, Err EOther)
  | SyFd _ FdReadToEnd => (w, Err EOther)
  | SyFd _ _ => (w, if bad then Err EOther else Ok tt)
  | SyClone _ => (w, Err EOther)
  | SyOfdLock _ _ => (w, Err EOther)
  | SyUnlink p =>
      if bad then (w, Err EOther) else ((put_file f p None, tail script), Ok tt)
  | SyGetCoreLimit => (w, None)
  | SySetCoreLimit _ _ => (w, false)
  | SyGetDumpable => (w, 0)
  | SySetDumpable _ => (w, 0)
  end.

Lemma files_env_step w c :
  files_step (fst w) c (snd (files_env w c)) (fst (fst (files_env w c))).
Proof.
  destruct w as [f script]. destruct c as [p|p|p|p|p|p|p bs|p how|fd c|fd|fd x|p| |x y| |v];
    cbn; auto.
  - destruct script as [|[]]; cbn; (split; [reflexivity|]); intros x Hx;
      [destruct (fl_content f p); congruence|discriminate|destruct (fl_content f p); congruence].
  - destruct how; cbn; auto; [destruct (fl_content f p) eqn:E; cbn; auto|];
      destruct script as [|[]]; cbn; auto.
  - destruct c; cbn; auto.
    destruct script as [|[]]; cbn; auto; destruct (fl_fds f fd) as [p|] eqn:Ef; cbn;
      try destruct (fl_content f p) as [x|] eqn:Ex; cbn; auto;
      exists (length bs); rewrite ?Ef, ?firstn_all; eauto 10.
  - destruct script as [|[]]; cbn; auto.
Qed.

#[local] Existing Instance low_digest.

Definition demo_a : Path := components (ascii_bytes "/mnt/a/anchor").
Definition demo_b : Path := components (ascii_bytes "/mnt/b/anchor").
Definition no_files : Files := MkFiles (fun _ => None) (fun _ => None).

Definition demo_init (script : list bool) :=
  exec files_env (no_files, script) (init_anchor_pair 10 sim_book_id demo_a demo_b).

Lemma demo_init_run script :
  runs (init_anchor_pair 10 sim_book_id demo_a demo_b) (snd (fst (demo_init script)))
    (snd (demo_init script)) /\
  path files_step no_files (snd (fst (demo_init script))) (fst (fst (fst (demo_init script)))).
Proof.
  split; [apply exec_is_run|].
  exact (exec_path files_step files_env fst _ files_env_step (no_files, script)).
Qed.

Lemma demo_init_ok : snd (demo_init []) =
  Done (Ok (MkInitSummary (anchor_init sim_book_id) demo_a demo_b)).
Proof. vm_compute. reflexivity. Qed.

Lemma demo_paths : demo_a <> demo_b.
Proof. intros E. vm_compute in E. discriminate E. Qed.

Lemma init_pair_safe_witness :
  exists f', fl_content f' demo_a = fl_content f' demo_b /\
    fl_content f' demo_a = Some (encode_record (anchor_init sim_book_id) []).
Proof.
  destruct (demo_init_run []) as [Hr Hp]. rewrite demo_init_ok in Hr.
  destruct (init_pair_safe 10 sim_book_id demo_a demo_b _ _ _ _ demo_paths Hr Hp)
    as (_ & [_ Ha] & [_ Hb] & _).
  eexists. rewrite Ha, Hb. split; [reflexivity | exact Ha].
Defined.

(** The disk is full when the first file is written: the command fails and leaves that
    file, empty, behind; the next attempt finds it in its way. *)
Lemma init_leaves_partial :
  let w := demo_init [false; false; false; false; false; false; false; false; false; true] in
  snd w = Done (Err (AiIo demo_a)) /\ fl_content (fst (fst (fst w))) demo_a = Some [] /\
  fl_content no_files demo_a = None.
Proof. vm_compute. auto. Qed.
