(* ===== verification/Cli.v ===== *)
(** * Cli: the command line ([otp-cli], main.rs)

    The commands as programs over one alphabet that holds the calls of every part
    they drive: the system, the book, the handshake, the terminal.  What they share
    with the threads of a server (the allocator and the audit log, each behind a
    mutex) is taken and given back by calls.  The text of reasons, status lines and
    printed reports is left out: a status line is the facts it shows. *)

From stdpp Require Import strings.
From S2P Require Export Book AnchorFile Doctor AuditTrail AnchorInit Proto TermServer TermClient.

#[local] Open Scope list_scope.
#[local] Open Scope Z_scope.

Definition EXIT_WP17_SKELETON : Z := 3.
Definition EXIT_POLICY_REFUSED : Z := 2.
Definition DEFAULT_DEADLINE_SECS : Z := 120.
Definition DEFAULT_LEASE_TIMEOUT_MS : Z := 15000.
(** In milliseconds. *)
Definition CONNECT_PING_INTERVAL : Z := 1000.

(** [CliError]: the exit code. *)
Inductive CliError := CliExit (code : Z).

(** ** The commands and their arguments *)

Inductive BookCmd :=
  | BcInspect (path : Path) (json : bool)
  | BcGenerate (path : Path) (segments : Z) (book_id : option (list byte)).

Inductive AnchorCmd :=
  | AcInit (book path_a path_b : Path)
  | AcInspect (path : Path) (path_b : option Path) (json : bool).

Inductive Cmd :=
  | CmdServe (book anchor_a anchor_b : Path) (listen : string) (audit_log : option Path)
      (sessions deadline_secs : Z) (shell : option string) (lease_timeout_ms : Z)
      (allow_unencrypted_swap : bool)
  | CmdConnect (book anchor_a anchor_b : Path) (target : string) (recover : option Z)
      (audit_log : option Path) (deadline_secs : Z) (allow_unencrypted_swap : bool)
  | CmdBook (cmd : BookCmd)
  | CmdAnchor (cmd : AnchorCmd)
  | CmdDoctor (book anchor_a anchor_b : option Path) (json allow_unencrypted_swap : bool)
  | CmdDrain
  | CmdRotate (book_id : option (list byte)) (version : option Z)
      (authorizer_a authorizer_b : option string).

(** Times in milliseconds. *)
Record ServeArgs := MkServeArgs {
  sa_book : Path;
  sa_anchor_a : Path;
  sa_anchor_b : Path;
  sa_listen : string;
  sa_audit_log : option Path;
  sa_sessions : Z;
  sa_deadline : Z;
  sa_shell : string;
  sa_lease_timeout : Z;
  sa_allow_unencrypted_swap : bool;
}.

Record ConnectArgs := MkConnectArgs {
  ca_book : Path;
  ca_anchor_a : Path;
  ca_anchor_b : Path;
  ca_target : string;
  ca_audit_log : option Path;
  ca_recover : option Z;
  ca_deadline : Z;
  ca_allow_unencrypted_swap : bool;
}.

(** ** The calls *)

(** The lines of standard error. *)
Inductive Status :=
  | StDoctor (summary : string)
  | StRecoveryWarning (w : RecoveryWarning)
  | StRepaired (copy : AnchorCopy)
  | StReady (next generation : Z)
  | StTerminalServe (shell : string) (lease_timeout_ms : Z)
  | StListen (addr : string)
  | StAcceptFailed (e : TransportError)
  | StExit (next generation sessions : Z)
  | StSessionFailed (f : SessionFailure) (next : Z)
  | StAuditFailed
  | StSession (info : SessionInfo) (summary : ServeSummary)
  | StTerminal (handle token segment : Z)
  | StDone (info : SessionInfo) (code next : Z)
  | StSkeleton.

(** The reports of standard output. *)
Inductive Printed :=
  | PrDoctor (text : string)
  | PrGenerated (header : BookHeader) (file_size : Z)
  | PrInspected (report : Book.InspectReport) (json : bool)
  | PrInit (summary : AnchorInitSummary)
  | PrAnchors (report : AnchorInspectReport) (json : bool).

(** [I]: the allocator.  [ClLock] is [None] when the mutex is poisoned by a thread
    that panicked, as [ClLockAudit] is [false]; [ClSpawn] is [false] when no thread
    can be made. *)
Inductive CliCall {I : Type} :=
  | ClSys (c : SysCall)
  | ClBook (p : Path) (c : FileCall)
  | ClProto (c : ProtoCall)
  | ClTerm (c : TermCall)
  | ClClient (c : ClientCall)
  | ClRecover (a b : Path)
  | ClAllocator (cfg : AllocatorConfig)
  | ClShare (alloc : I)
  | ClLock
  | ClUnlock (alloc : I)
  | ClLockAudit
  | ClUnlockAudit
  | ClBind (addr : string)
  | ClLocalAddr
  | ClAccept
  | ClRegistry (shell : string) (lease_timeout : Z)
  | ClSpawn (audit : AuditLog) (ep : Endpoint) (deadline : Z) (book_id : BookId)
  | ClJoin
  | ClNextConn
  | ClConnect (addr : string)
  | ClRawMode
  | ClRestoreMode
  | ClWindow
  | ClStatus (line : Status)
  | ClPrint (what : Printed).
Arguments CliCall I : clear implicits.

Definition cli_answer {I} (c : CliCall I) : Type :=
  match c with
  | ClSys c => sys_answer c
  | ClBook _ c => file_answer c
  | ClProto c => proto_answer c
  | ClTerm c => answer c
  | ClClient c => client_answer c
  | ClRecover _ _ => result RecoveryReport RecoveryError
  | ClAllocator _ => result I IssueError
  | ClLock => option I
  | ClLockAudit | ClSpawn _ _ _ _ | ClRawMode => bool
  | ClBind _ | ClAccept | ClConnect _ => result unit TransportError
  | ClLocalAddr => result string TransportError
  | ClNextConn => Z
  | ClWindow => option WindowSize
  | _ => unit
  end.

Notation cli_act I R := (act (CliCall I) cli_answer R).

(** [default_shell]: [env] is the variable SHELL. *)
Definition default_shell (env : option string) : string := default "/bin/sh"%string env.

(** [Duration::from_secs(secs.max(1))], in milliseconds. *)
Definition duration_secs (secs : Z) : Z := Z.max 1 secs * 1000.

Section Cli.
Context `{Aead} `{Sha256} {I : Type} `{SegmentIssuer I} `{PointerState I}.

Definition cli_ask (c : CliCall I) : cli_act I (cli_answer c) :=
  ask (C := CliCall I) (A := cli_answer) c.

(** The programs of the parts, with their calls as calls of a command. *)
Definition sys {R} (p : sys_act R) : cli_act I R :=
  lift (A2 := cli_answer) ClSys (fun _ a => a) p.
Definition on_book {R} (path : Path) (p : file_act R) : cli_act I R :=
  lift (A2 := cli_answer) (ClBook path) (fun _ a => a) p.
Definition proto {R} (p : proto_act R) : cli_act I R :=
  lift (A2 := cli_answer) ClProto (fun _ a => a) p.
Definition term {R} (p : term_act R) : cli_act I R :=
  lift (A2 := cli_answer) ClTerm (fun _ a => a) p.
Definition client {R} (p : client_act R) : cli_act I R :=
  lift (A2 := cli_answer) ClClient (fun _ a => a) p.

Definition status (line : Status) : cli_act I unit := cli_ask (ClStatus line).
Definition print (what : Printed) : cli_act I unit := cli_ask (ClPrint what).

(** [alloc.lock().unwrap()] and [audit.lock().unwrap()]. *)
Definition lock : cli_act I I :=
  let* a := cli_ask ClLock in
  match a with Some alloc => done alloc | None => Ret Panicked end.
Definition unlock (alloc : I) : cli_act I unit := cli_ask (ClUnlock alloc).
Definition lock_audit : cli_act I unit :=
  let* ok := cli_ask ClLockAudit in if ok : bool then done tt else Ret Panicked.
Definition unlock_audit : cli_act I unit := cli_ask ClUnlockAudit.

Context (fuel : nat).

(** ** serve *)

(** [alloc.lock().unwrap().state()], for the length of one statement. *)
Definition locked_state : cli_act I (Z * Z) :=
  let* alloc := lock in
  let* _ := unlock alloc in
  done (pointer_state alloc).

(** [audit.lock().unwrap().emit..]. *)
Definition locked_emit (audit : AuditLog) (e : AuditEntry) : cli_act I (result unit string) :=
  let* _ := lock_audit in
  let* r := sys (emit fuel audit e) in
  let* _ := unlock_audit in
  done r.

Definition emit_rejected (audit : AuditLog) (book_id : BookId) (category : ErrorCategory) :
  cli_act I Z :=
  let* '(next, generation) := locked_state in
  let* _ := locked_emit audit (MkEntry book_id next generation OcRejected (Some category)) in
  done next.

Definition serve_one (opts : ServeOptions) (audit : AuditLog) (ep : Endpoint)
  (deadline : Z) (book_id : BookId) : cli_act I unit :=
  let* alloc := lock in
  let* '(alloc, handshake) := proto (server_handshake alloc ep deadline) in
  let* _ := unlock alloc in
  match handshake with
  | Err f =>
      let* next := emit_rejected audit book_id (sf_category f) in
      status (StSessionFailed f next)
  | Ok (session, info) =>
      let* issued := locked_emit audit
        (MkEntry book_id (si_segment info) (si_generation info) OcIssued None) in
      match issued with
      | Err _ => status StAuditFailed
      | Ok _ =>
          let* conn := cli_ask ClNextConn in
          let* '(_, summary) := term (serve_connection fuel opts conn session) in
          let* _ := status (StSession info summary) in
          match su_end summary with
          | SeDeniedBusy =>
              let* _ := emit_rejected audit book_id CatTerminal in done tt
          | _ => done tt
          end
      end
  end.

(** The accepting loop: the number served, and of threads started. *)
Section Accept.
Context (audit : AuditLog) (ep : Endpoint) (deadline : Z) (book_id : BookId) (sessions : Z).

Fixpoint accept_loop (n : nat) (served : Z) (workers : nat) : cli_act I (Z * nat) :=
  if sessions <=? served then done (served, workers) else
  match n with
  | O => Ret OutOfFuel
  | S n =>
      let* io := cli_ask ClAccept in
      match io with
      | Err e => let* _ := status (StAcceptFailed e) in done (served, workers)
      | Ok _ =>
          let* ok := cli_ask (ClSpawn audit ep deadline book_id) in
          if (ok : bool) then accept_loop n (served + 1) (S workers) else Ret Panicked
      end
  end.

End Accept.

Fixpoint join_all (workers : nat) : cli_act I unit :=
  match workers with
  | O => done tt
  | S n => let* _ := cli_ask ClJoin in join_all n
  end.

Fixpoint status_each (ws : list RecoveryWarning) : cli_act I unit :=
  match ws with
  | [] => done tt
  | w :: ws => let* _ := status (StRecoveryWarning w) in status_each ws
  end.

Definition open_audit (p : option Path) : cli_act I (result AuditLog CliError) :=
  match p with
  | Some p => try* a := sys (audit_open p) else (fun _ => CliExit EXIT_POLICY_REFUSED) in
              done (Ok a)
  | None => done (Ok None)
  end.

(** Steps 1 to 4 of both commands: hardening, the book, the examination, the log. *)
Definition prepare (book anchor_a anchor_b : Path) (allow_unencrypted_swap : bool)
  (audit_log : option Path) : cli_act I (result (BookHeader * AuditLog) CliError) :=
  try* u := sys harden_process else (fun _ => CliExit EXIT_POLICY_REFUSED) in
  try* header := on_book book (book_open fuel) else (fun _ => CliExit 1) in
  let* outcome :=
    sys (cli_doctor (Some (MkDoctorPaths book anchor_a anchor_b)) allow_unencrypted_swap) in
  let* _ := status (StDoctor (outcome_summary outcome allow_unencrypted_swap)) in
  if refuse_startup outcome then done (Err (CliExit EXIT_POLICY_REFUSED)) else
  try* audit := open_audit audit_log else id in
  done (Ok (header, audit)).

(** From the sharing of the allocator on. *)
Definition serve_connections (args : ServeArgs) (audit : AuditLog) (ep : Endpoint)
  (alloc : I) : cli_act I (result unit CliError) :=
  let* _ := cli_ask (ClRegistry (sa_shell args) (sa_lease_timeout args)) in
  let* _ := cli_ask (ClShare alloc) in
  try* u := cli_ask (ClBind (sa_listen args)) else (fun _ => CliExit 1) in
  try* addr := cli_ask ClLocalAddr else (fun _ => CliExit 1) in
  let* _ := status (StTerminalServe (sa_shell args) (sa_lease_timeout args)) in
  let* _ := status (StListen addr) in
  let* '(served, workers) :=
    accept_loop audit ep (sa_deadline args) (ep_book_id ep) (sa_sessions args) fuel 0 O in
  let* _ := join_all workers in
  let* '(next, generation) := locked_state in
  let* _ := status (StExit next generation served) in
  done (Ok tt).

Definition run_serve (args : ServeArgs) : cli_act I (result unit CliError) :=
  try* ready := prepare (sa_book args) (sa_anchor_a args) (sa_anchor_b args)
    (sa_allow_unencrypted_swap args) (sa_audit_log args) else id in
  let '(header, audit) := ready in
  let book_id := bh_book_id header in
  let ep := MkEndpoint book_id (bh_segment_count header) in
  let* recovered := cli_ask (ClRecover (sa_anchor_a args) (sa_anchor_b args)) in
  match recovered with
  | Err _ =>
      let* _ := sys (emit_err fuel audit book_id 0 0 OcQuarantined CatRecovery) in
      done (Err (CliExit EXIT_POLICY_REFUSED))
  | Ok report =>
      let* _ := sys (emit_ok fuel audit book_id (ar_next (rr_adopted report))
                       (ar_generation (rr_adopted report)) OcRecovered) in
      let* _ := status_each (rr_warnings report) in
      let* _ := match rr_repaired report with
                | Some copy => status (StRepaired copy) | None => done tt
                end in
      try* alloc := cli_ask (ClAllocator
          (MkAllocConfig (sa_book args) (sa_anchor_a args) (sa_anchor_b args) book_id))
        else (fun _ => CliExit EXIT_POLICY_REFUSED) in
      let '(next0, gen0) := pointer_state alloc in
      let* _ := status (StReady next0 gen0) in
      serve_connections args audit ep alloc
  end.

(** ** connect *)

Definition map_terminal_err (e : terror) : SessionFailure :=
  let category :=
    match e with
    | TeHandshake _ => CatHandshake | TeSession _ => CatSession
    | TeTransport _ => CatTransport | _ => CatTerminal
    end in
  let code :=
    match e with
    | TeLeaseHeldByOther _ => BAD_ORDER
    | TeStaleWriter => SEQ_REPLAY
    | TeTerminalGone => BAD_ORDER
    | TeHandshake h => handshake_code h
    | TeSession s => match session_error_wire_code s with Some c => c | None => INTERNAL end
    | TeTransport t => transport_code t
    | _ => IO_ERROR
    end in
  MkFailure code category.

Definition attach_mode (recover : option Z) (window : WindowSize) : AttachMode :=
  match recover with
  | Some handle => AmRecover handle window
  | None => AmNew window
  end.

(** The terminal part of the closure, the raw mode of the tty held throughout. *)
Definition connect_terminal (args : ConnectArgs) (session : Session) (info : SessionInfo) :
  cli_act I (result (SessionInfo * Z) SessionFailure) :=
  let* raw := cli_ask ClRawMode in
  let* w := cli_ask ClWindow in
  let mode := attach_mode (ca_recover args) (default WINDOW_FALLBACK w) in
  let* '(_, attached) := client (attach fuel (ca_deadline args) mode session) in
  let* r :=
    match attached with
    | Err e => done (Err (map_terminal_err e))
    | Ok ts =>
        let* _ := status (StTerminal (ts_handle ts) (ts_token ts) (si_segment info)) in
        let* '(_, code) := client (run_interactive fuel CONNECT_PING_INTERVAL ts) in
        done (map_err map_terminal_err (let? c := code in Ok (info, c)))
    end in
  let* _ := if raw : bool then cli_ask ClRestoreMode else done tt in
  done r.

(** The closure: the handshake, its audit, the terminal.  The allocator is returned as the
    handshake leaves it. *)
Definition connect_session (args : ConnectArgs) (audit : AuditLog) (ep : Endpoint)
  (alloc : I) : cli_act I (I * result (SessionInfo * Z) SessionFailure) :=
  let* '(alloc, handshake) := proto (client_handshake alloc ep (ca_deadline args)) in
  match handshake with
  | Err f => done (alloc, Err f)
  | Ok (session, info) =>
      let* issued := sys (emit_ok fuel audit (ep_book_id ep) (si_segment info)
                            (si_generation info) OcIssued) in
      match issued with
      | Err _ => done (alloc, Err (MkFailure IO_ERROR CatPlatform))
      | Ok _ => let* r := connect_terminal args session info in done (alloc, r)
      end
  end.

Definition run_connect (args : ConnectArgs) : cli_act I (result unit CliError) :=
  try* ready := prepare (ca_book args) (ca_anchor_a args) (ca_anchor_b args)
    (ca_allow_unencrypted_swap args) (ca_audit_log args) else id in
  let '(header, audit) := ready in
  let book_id := bh_book_id header in
  let ep := MkEndpoint book_id (bh_segment_count header) in
  try* report := cli_ask (ClRecover (ca_anchor_a args) (ca_anchor_b args))
    else (fun _ => CliExit EXIT_POLICY_REFUSED) in
  let* _ := sys (emit_ok fuel audit book_id (ar_next (rr_adopted report))
                   (ar_generation (rr_adopted report)) OcRecovered) in
  let* _ := status_each (rr_warnings report) in
  try* alloc := cli_ask (ClAllocator
      (MkAllocConfig (ca_book args) (ca_anchor_a args) (ca_anchor_b args) book_id))
    else (fun _ => CliExit EXIT_POLICY_REFUSED) in
  try* u := cli_ask (ClConnect (ca_target args)) else (fun _ => CliExit 1) in
  let* '(alloc, result) := connect_session args audit ep alloc in
  match result with
  | Ok (info, code) =>
      let* _ := status (StDone info code (fst (pointer_state alloc))) in
      done (Err (CliExit code))
  | Err f =>
      let '(next, generation) := pointer_state alloc in
      let* _ := sys (emit_err fuel audit book_id next generation OcRejected (sf_category f)) in
      done (Err (CliExit 1))
  end.

(** ** book *)

(** The value of a digit in either case ([from_str_radix]). *)
Definition hex_nibble (b : byte) : option Z :=
  let x := b2z b in
  if (48 <=? x) && (x <=? 57) then Some (x - 48) else
  if (97 <=? x) && (x <=? 102) then Some (x - 87) else
  if (65 <=? x) && (x <=? 70) then Some (x - 55) else None.

Fixpoint hex_pairs (s : list byte) : option (list byte) :=
  match s with
  | a :: b :: s =>
      match hex_nibble a, hex_nibble b, hex_pairs s with
      | Some x, Some y, Some l => Some (z2b (x * 16 + y) :: l)
      | _, _, _ => None
      end
  | [] => Some []
  | _ => None
  end.

Definition hex_parse (s : list byte) : option (list byte) :=
  if negb (length s =? 32)%nat || negb (forallb (fun b => is_some (hex_nibble b)) s)
  then None else hex_pairs s.

Definition parse_book_id (hex : list byte) : result BookId CliError :=
  match hex_parse hex with
  | Some bytes => Ok bytes
  | None => Err (CliExit 2)
  end.

Definition run_book (cmd : BookCmd) : cli_act I (result unit CliError) :=
  match cmd with
  | BcGenerate path segments book_id =>
      try* id' :=
        match book_id with
        | Some hex => done (parse_book_id hex)
        | None => try* i := on_book path random_book_id else (fun _ => CliExit 1) in
                  done (Ok i)
        end else id in
      try* header := on_book path (generate_book segments id') else (fun _ => CliExit 1) in
      let* st := on_book path (file_ask FcStat) in
      let* _ := print (PrGenerated header
        (match st with Ok (_, size) => size | Err _ => 0 end)) in
      done (Ok tt)
  | BcInspect path json =>
      try* report := on_book path (inspect_book fuel) else (fun _ => CliExit 1) in
      let* _ := print (PrInspected report json) in
      done (if Book.ir_ok report then Ok tt else Err (CliExit 1))
  end.

(** ** anchor *)

Definition init_exit (e : AnchorInitError) : CliError :=
  match e with
  | AiAnchorExists _ _ _ | AiSamePath _ | AiUnsupportedFilesystem _ =>
      CliExit EXIT_POLICY_REFUSED
  | _ => CliExit 1
  end.

Definition run_anchor_init (book path_a path_b : Path) : cli_act I (result unit CliError) :=
  try* header := on_book book (book_open fuel) else (fun _ => CliExit 1) in
  try* summary := sys (init_anchor_pair fuel (bh_book_id header) path_a path_b)
    else init_exit in
  let* _ := print (PrInit summary) in
  let* a := sys (inspect_anchor (is_path_a summary)) in
  let* b := sys (inspect_anchor (is_path_b summary)) in
  let report := AnchorInit.MkInspect a b in
  let* _ := print (PrAnchors report false) in
  done (if inspect_ok report && bool_decide (AnchorInit.relation a b = Some "consistent"%string)
        then Ok tt else Err (CliExit 1)).

Definition run_anchor (cmd : AnchorCmd) : cli_act I (result unit CliError) :=
  match cmd with
  | AcInit book path_a path_b => run_anchor_init book path_a path_b
  | AcInspect path path_b json =>
      let* a := sys (inspect_anchor path) in
      let* b :=
        match path_b with
        | Some p => sys (inspect_anchor p)
        | None => done (MkStatus None None)
        end in
      let report := AnchorInit.MkInspect a b in
      let* _ := print (PrAnchors report json) in
      if is_some path_b && negb (inspect_ok report) then done (Err (CliExit 1)) else
      if negb (is_some path_b) && negb (is_some (as_record a)) then done (Err (CliExit 1))
      else done (Ok tt)
  end.

(** ** The whole program *)

Definition doctor_paths (book anchor_a anchor_b : option Path) :
  result (option DoctorPaths) CliError :=
  match book, anchor_a, anchor_b with
  | Some b, Some a, Some c => Ok (Some (MkDoctorPaths b a c))
  | None, None, None => Ok None
  | _, _, _ => Err (CliExit 2)
  end.

Definition run_doctor_command (paths : option DoctorPaths) (json allow : bool) :
  cli_act I (result unit CliError) :=
  try* u := sys harden_process else (fun _ => CliExit EXIT_POLICY_REFUSED) in
  let* outcome := sys (cli_doctor paths allow) in
  let* _ := print (PrDoctor
    (if json then report_json outcome else outcome_summary outcome allow)) in
  done (if refuse_startup outcome then Err (CliExit EXIT_POLICY_REFUSED) else Ok tt).

Definition run (shell_env : option string) (cmd : Cmd) : cli_act I (result unit CliError) :=
  match cmd with
  | CmdServe book a b listen audit_log sessions deadline_secs shell lease_timeout_ms allow =>
      run_serve (MkServeArgs book a b listen audit_log sessions (duration_secs deadline_secs)
        (default (default_shell shell_env) shell) (Z.max 1 lease_timeout_ms) allow)
  | CmdConnect book a b target recover audit_log deadline_secs allow =>
      run_connect (MkConnectArgs book a b target audit_log recover
        (duration_secs deadline_secs) allow)
  | CmdBook cmd => run_book cmd
  | CmdAnchor cmd => run_anchor cmd
  | CmdDoctor book a b json allow =>
      match doctor_paths book a b with
      | Err e => done (Err e)
      | Ok paths => run_doctor_command paths json allow
      end
  | CmdDrain =>
      let* _ := status StSkeleton in
      let* _ := status StSkeleton in
      done (Err (CliExit EXIT_WP17_SKELETON))
  | CmdRotate _ _ _ _ =>
      let* _ := status StSkeleton in
      let* _ := status StSkeleton in
      let* _ := status StSkeleton in
      done (Err (CliExit EXIT_WP17_SKELETON))
  end.

(** [main]: the exit code of the process. *)
Definition main (shell_env : option string) (cmd : Cmd) : cli_act I Z :=
  let* r := run shell_env cmd in
  done match r with Ok _ => 0 | Err (CliExit code) => code end.

End Cli.
