(* ===== verification/ConnSpec.v ===== *)
(** * ConnSpec: the connections of a server ([serve_one] of [otp-cli], main.rs)

    Each connection is a thread that shares the allocator and the audit log with the
    others: the locks it takes, what it has done when it serves a terminal, and that
    no two connections share a segment. *)

From stdpp Require Import strings.
From S2P Require Export Cli HandshakeSpec ProtoSpec DoctorSpec BookSpec.

#[local] Open Scope list_scope.
#[local] Open Scope Z_scope.

(** ** Issuers whose pointer counts the segments *)

(** What the commands ask of an allocator: its pointer never moves back, and moves on
    by one with every segment it issues. *)
Class PointerLaw (I : Type) `{SegmentIssuer I} `{PointerState I} :=
  issue_pointer : forall i i' r, issuer_issue i = (i', r) ->
    fst (pointer_state i) <= fst (pointer_state i') /\
    forall seg, r = Some (Ok seg) -> fst (pointer_state i') = fst (pointer_state i) + 1.

Notation next_of a := (fst (pointer_state a)).

#[export] Instance core_pointer `{Sha256} {M R} `{AnchorMedia M} `{SegmentReader R} :
  PointerLaw (Core M R).
Proof.
  intros c c' r E. change (issue c = (c', r)) in E. cbn [pointer_state core_state fst].
  unfold issue in E.
  assert (Hstay : forall c1 (r1 : option (result CommittedSegment IssueError)),
    ar_next (co_current c1) = ar_next (co_current c) -> (forall seg, r1 <> Some (Ok seg)) ->
    (c1, r1) = (c', r) -> ar_next (co_current c) <= ar_next (co_current c') /\
    forall seg, r = Some (Ok seg) -> ar_next (co_current c') = ar_next (co_current c) + 1).
  { intros c1 r1 Hc Hr [= <- <-]. split; [lia | intros seg Hs; destruct (Hr seg Hs)]. }
  destruct (co_halted c); [eapply Hstay, E; [reflexivity | discriminate]|].
  destruct (_ <=? _); [eapply Hstay, E; [reflexivity | discriminate]|].
  destruct (checked_add_u64 _ 1) as [g|]; [|eapply Hstay, E; [reflexivity | discriminate]].
  destruct (anchor_intent _ _ _) as [intent|] eqn:Ei;
    [|eapply Hstay, E; [reflexivity | discriminate]].
  assert (Hi : ar_next intent = ar_next (co_current c) + 1).
  { unfold anchor_intent in Ei. destruct (segment_next _) as [n|] eqn:En; [|discriminate].
    injection Ei as <-. apply segment_next_some in En. cbn. lia. }
  clear Hstay. unfold issue_reserved in E.
  destruct (persist_pair _ intent true) as [c1 [u|e]] eqn:E1;
    apply persist_pair_book in E1 as (_ & _ & Hc & _); cbn in Hc;
    [|injection E as <- <-; cbn; rewrite Hc; split; [lia | discriminate]].
  destruct (media_boundary _ _) as [m [u'|e]];
    [|injection E as <- <-; cbn; rewrite Hc; split; [lia | discriminate]].
  destruct (segment_read _ _) as [rd [body|e]];
    [|injection E as <- <-; cbn; rewrite Hc; split; [lia | discriminate]].
  destruct (segment_next _) as [n|] eqn:En;
    [|injection E as <- <-; cbn; rewrite Hc; split; [lia | discriminate]].
  assert (Hn : n = ar_next (co_current c) + 1).
  { apply segment_next_some in En. lia. }
  destruct (persist_pair _ _ false) as [c2 [u2|e]] eqn:E2;
    apply persist_pair_book in E2 as (_ & _ & Hc2 & _); cbn in Hc2;
    injection E as <- <-; cbn; [split; [lia | intros; lia]|].
  rewrite Hc2, Hc. split; [lia | discriminate].
Qed.

(** ** A handshake spends the segment of its session *)

Section Handshakes.
Context `{Aead} {I : Type} `{PL : PointerLaw I}.

(** The issuer was called any number of times. *)
Definition issuing (a b : I) : Prop := exists n, issues a n b.

(** A session of the segment [seg] with the index [i]: it names [i], and its keys, while it
    has them, are the halves of [seg]. *)
Definition from_segment (seg : CommittedSegment) (i : Z) (s : Session) : Prop :=
  sx_segment (ss_ctx s) = i /\
  (ss_keys s = Some (split_segment (bridge_segment seg)) \/ ss_keys s = None).

(** What a handshake did to its issuer: some calls; and if it established a session, the
    last one gave the segment that the session names and is keyed by. *)
Definition took (a : I) (o : I * result (Session * SessionInfo) SessionFailure) : Prop :=
  issuing a (fst o) /\
  forall s info, snd o = Ok (s, info) -> exists c seg,
    issuing a c /\ issuer_issue c = (fst o, Some (Ok seg)) /\ si_segment info = next_of c /\
    from_segment seg (next_of c) s.

Lemma from_segment_evolves seg i s s' : evolves s s' -> from_segment seg i s -> from_segment seg i s'.
Proof. intros (Hc & _ & Hk & _) [Hi Hs]. unfold from_segment. rewrite Hc. intuition congruence. Qed.

Lemma seal_confirm_from seg i s book j cn sn d s' res :
  seal_confirm s book j cn sn d = (s', res) -> from_segment seg i s -> from_segment seg i s'.
Proof.
  unfold seal_confirm. destruct (confirm_kind d) as [[mt w] l].
  destruct (encode_confirm_body _) as [plain|]; [|intros [= <- <-]; auto].
  destruct (seal_record s mt plain) as [s1 [[rc|e]|]] eqn:Es;
    apply seal_evolves in Es; [case_match|..]; intros [= <- <-]; eauto using from_segment_evolves.
Qed.

Lemma verify_confirm_from seg i s c book j cn sn d s' res :
  verify_peer_confirm s c book j cn sn d = (s', res) -> from_segment seg i s -> from_segment seg i s'.
Proof.
  unfold verify_peer_confirm. destruct (confirm_kind d) as [[mt w] l].
  destruct (verify_confirm_outer _ _ _);
    [|intros [= <- <-]; apply from_segment_evolves, close_evolves].
  destruct (open_record s mt _ _) as [s1 [[p|e]|]] eqn:Eo; apply open_evolves in Eo;
    [|intros [= <- <-]; apply (from_segment_evolves _ _ _ _ Eo)..].
  destruct (decode_confirm_body p);
    [case_match|]; intros [= <- <-] Hs;
    try apply (from_segment_evolves _ _ s1 _ (close_evolves s1));
    exact (from_segment_evolves _ _ _ _ Eo Hs).
Qed.

Lemma issuing_refl a : issuing a a.
Proof. exists 0%nat. apply issues_0. Qed.

Lemma issuing_one a b r : issuer_issue a = (b, r) -> issuing a b.
Proof. intros E. exists 1%nat. econstructor; [exact E | apply issues_0]. Qed.

Lemma issuing_snoc a b c r : issuing a b -> issuer_issue b = (c, r) -> issuing a c.
Proof. intros [n Hn] E. exists (S n). eapply issues_snoc; eauto. Qed.

Lemma issuing_forward a b : issuing a b -> next_of a <= next_of b.
Proof.
  intros [n Hn]. induction Hn as [|i i1 r n i2 E _ IH]; [lia|].
  apply issue_pointer in E as [Hle _]. lia.
Qed.

Lemma took_err a b f : issuing a b -> took a (b, Err f).
Proof. intros Hab. split; [exact Hab | discriminate]. Qed.

Lemma took_self a f : took a (a, Err f).
Proof. apply took_err, issuing_refl. Qed.

Lemma took_range a b s info : took a (b, Ok (s, info)) ->
  next_of a <= si_segment info < next_of b.
Proof.
  intros [_ Ht]. destruct (Ht s info eq_refl) as (c & seg & Hc & E & -> & _). cbn in E.
  apply issuing_forward in Hc. apply issue_pointer in E as [_ Hn].
  specialize (Hn seg eq_refl). lia.
Qed.

(** The rest of a program after a call that fails or goes on. *)
Lemma ends_result {R T E} (p : proto_act (result R E)) (f : result R E -> proto_act T) Q :
  (forall e, ends (f (Err e)) (if_done Q)) -> (forall r, ends (f (Ok r)) (if_done Q)) ->
  ends (act_bind p f) (if_done Q).
Proof.
  intros He Hr. apply act_ends_bind. induction p as [o|c k IH]; [|exact IH].
  destruct o as [[r|e]| |]; cbn; auto.
Qed.

(** The segment [seg] at [i] was the last one issued. *)
Definition spent_at (a b : I) (i : Z) (seg : CommittedSegment) : Prop :=
  exists c, issuing a c /\ issuer_issue c = (b, Some (Ok seg)) /\ i = next_of c.

Lemma spent_issuing a b i seg : spent_at a b i seg -> issuing a b.
Proof. intros (c & Hc & E & _). eapply issuing_snoc; eauto. Qed.

Lemma established_took a b s i seg :
  spent_at a b i seg -> from_segment seg i s -> took a (established b s i).
Proof.
  intros Hs Hf. split; [eapply spent_issuing, Hs|]. intros s' info [= <- <-].
  destruct Hs as (c & Hc & E & Hi). exists c, seg. cbn. subst i. auto.
Qed.

Lemma server_confirm_took (a b : I) k i seg s0 :
  spent_at a b i seg -> sh_agreed k = Some i -> sh_session k = Some s0 -> from_segment seg i s0 ->
  ends (server_confirm b k) (if_done (took a)).
Proof.
  intros Hs Hk Hs0 Hf.
  assert (Herr : forall f, took a (b, Err f)) by (intros f; eapply took_err, spent_issuing, Hs).
  apply ends_result; [intros e; apply Herr|]. intros msg.
  destruct (on_confirm k msg) as [k' [st|]] eqn:Ec; [|exact Logic.I].
  destruct st as [out|out s j| |e]; try apply Herr.
  apply ends_result; [intros e; apply Herr|]. intros u.
  unfold on_confirm in Ec. case_match_in Ec; [discriminate|].
  destruct msg; try discriminate. unfold on_confirm_fields in Ec. rewrite Hk, Hs0 in Ec.
  destruct (sh_client_nonce k), (sh_server_nonce k); try discriminate.
  destruct (verify_peer_confirm _ _ _ _ _ _ _) as [s1 [[u1|e1]|]] eqn:Ev; try discriminate.
  destruct (seal_confirm _ _ _ _ _ _) as [s2 [[m|e2]|]] eqn:Es; try discriminate.
  injection Ec as <- <- <- <-. eapply established_took; [exact Hs|].
  eapply seal_confirm_from; [exact Es|]. eapply verify_confirm_from; eassumption.
Qed.

Lemma server_issue_took (a : I) k :
  sh_agreed k = Some (next_of a) \/ sh_phase k <> SpIssueWait ->
  ends (server_issue a k) (if_done (took a)).
Proof.
  intros Hk. apply ends_result; [intros e; apply took_self|]. intros msg.
  destruct (on_issue_request k msg a) as [[k' b] o] eqn:E.
  assert (Hb : issuing a b /\ (o = Some StAwaitPeer ->
    exists seg s0, spent_at a b (next_of a) seg /\ sh_agreed k' = Some (next_of a) /\
      sh_session k' = Some s0 /\ from_segment seg (next_of a) s0)).
  { unfold on_issue_request in E. unfold with_issuer, server_order_violation in E.
    assert (Hself : issuing a a) by apply issuing_refl.
    destruct (bool_decide_reflect (sh_phase k = SpIssueWait)) as [Hp|];
      [|injection E as <- <- <-; split; [exact Hself | discriminate]]. cbn [negb] in E.
    destruct Hk as [Hk|]; [|contradiction].
    destruct msg; try (injection E as <- <- <-; split; [exact Hself | discriminate]).
    unfold on_issue_fields in E. rewrite Hk in E.
    destruct (negb _) eqn:Heq; [injection E as <- <- <-; split; [exact Hself | discriminate]|].
    destruct (sh_client_nonce k), (sh_server_nonce k);
      try (injection E as <- <- <-; split; [exact Hself | discriminate]).
    destruct (_ || _); [injection E as <- <- <-; split; [exact Hself | discriminate]|].
    destruct (issuer_issue a) as [a' [[seg|e]|]] eqn:Ei; injection E as <- <- <-;
      (split; [eapply issuing_one, Ei|]); try discriminate.
    intros _. eexists seg, _. split; [exists a; auto|]. split; [exact Hk|].
    split; [reflexivity|]. split; [|left; reflexivity].
    apply negb_false_iff, Z.eqb_eq in Heq. cbn. congruence. }
  destruct Hb as [Hi Haw].
  destruct o as [[out|out s seg| |e]|]; try exact Logic.I; try (apply took_err, Hi).
  destruct (Haw eq_refl) as (seg & s0 & ? & ? & ? & ?). eapply server_confirm_took; eassumption.
Qed.

Lemma server_handshake_took (a : I) ep d :
  ends (server_handshake a ep d) (if_done (took a)).
Proof.
  apply ends_result; [intros e; apply took_self|]. intros u.
  destruct (server_new (local_config a ep)) as [k|e] eqn:En; [|apply took_self].
  unfold server_new in En. cbn [local_config hc_version] in En.
  rewrite Z.eqb_refl in En. injection En as <-.
  apply ends_result; [intros e; apply took_self|]. intros hello. apply act_ends_bind.
  set (k := MkServer _ _ _ _ _ _).
  assert (Hn : forall rand k' r, on_hello k hello rand = (k', r) ->
    sh_agreed k' = Some (next_of a) \/ sh_phase k' <> SpIssueWait).
  { intros rand k' r E. unfold on_hello in E. subst k.
    cbn [sh_phase] in E. rewrite bool_decide_eq_true_2 in E by reflexivity. cbn [negb] in E.
    destruct hello; try (injection E as <- <-; right; discriminate). cbn -[arbitrate] in E.
    destruct rand as [n|]; [|injection E as <- <-; right; discriminate].
    destruct (negb _); [injection E as <- <-; right; discriminate|].
    destruct (arbitrate _ _ _) as [res sp].
    destruct res; cbn in E; injection E as <- <-; cbn; auto; right; discriminate. }
  destruct hello; cbn [hello_nonce ends done if_done ask proto_ask]; try intros rand;
    (destruct (on_hello k _ _) as [k' [arb|e]] eqn:E; [|apply took_self];
     apply Hn in E; apply ends_result; [intros e; apply took_self|]; intros [];
     destruct arb; try destruct (arbitrate_terminal _ _ _);
     first [apply took_self | apply server_issue_took; exact E]).
Qed.

(** The client's issuer is called for the gap and once more. *)
Lemma burn_gap_pointer n : forall (a b : I) r, burn_gap a n = (b, r) ->
  issuing a b /\ (r = Some (Ok tt) -> next_of b = next_of a + Z.of_nat n).
Proof.
  induction n as [|n IH]; intros a b r E; cbn [burn_gap] in E.
  - injection E as <- <-. split; [apply issuing_refl | intros _; lia].
  - destruct (issuer_issue a) as [a1 [[seg|e]|]] eqn:Ei;
      [|injection E as <- <-; split; [eapply issuing_one, Ei | discriminate]..].
    destruct (IH _ _ _ E) as [[k Hk] Hn]. split; [exists (S k); econstructor; eauto|].
    intros Hr. apply issue_pointer in Ei as [_ Hs]. rewrite (Hn Hr), (Hs seg eq_refl). lia.
Qed.

(** The client waits for the confirmation of the session of [seg] at [i]. *)
Definition confirming (h : ClientHandshake) (i : Z) (seg : CommittedSegment) : Prop :=
  ch_phase h = CpConfirmSent /\ ch_agreed h = Some i /\
  exists s, ch_session h = Some s /\ from_segment seg i s.

Lemma confirm_segment_sent (h h' : ClientHandshake) i seg ms :
  ch_agreed h = Some i -> confirm_segment h i seg = (h', Some (StSend ms)) -> confirming h' i seg.
Proof.
  unfold confirm_segment, confirming. intros Ha E.
  destruct (ch_client_nonce h), (ch_server_nonce h); try discriminate.
  destruct (seal_confirm _ _ _ _ _ _) as [s [[m|e]|]] eqn:Es; try discriminate.
  injection E as <- _. split; [reflexivity|]. split; [exact Ha|]. exists s. split; [reflexivity|].
  eapply seal_confirm_from; [exact Es|]. split; [reflexivity | left; reflexivity].
Qed.

Lemma issue_and_confirm_spends (h h' : ClientHandshake) (a b : I) i st :
  ch_agreed h = Some i -> hc_local_pointer (ch_cfg h) = next_of a -> next_of a <= i ->
  issue_and_confirm h a = (h', b, st) ->
  issuing a b /\ (forall ms, st = Some (StSend ms) ->
    exists seg, spent_at a b i seg /\ confirming h' i seg).
Proof.
  intros Ha Hp Hle E. unfold issue_and_confirm in E. rewrite Ha, Hp in E.
  destruct (burn_gap a _) as [c r] eqn:Eb. apply burn_gap_pointer in Eb as [Hc Hn].
  destruct r as [[[]|e]|]; [|injection E as <- <- <-; split; [exact Hc | discriminate]..].
  destruct (issuer_issue c) as [d [[seg|e]|]] eqn:Ei;
    [|injection E as <- <- <-; split; [eapply issuing_snoc; eauto | discriminate]..].
  destruct (confirm_segment h i seg) as [h1 st1] eqn:Es. injection E as <- <- <-.
  split; [eapply issuing_snoc; eauto|]. intros ms ->.
  exists seg. split; [|exact (confirm_segment_sent _ _ _ _ _ Ha Es)].
  exists c. split_and!; [exact Hc | exact Ei | rewrite (Hn eq_refl); lia].
Qed.

Lemma client_confirm_took (a b : I) h i seg :
  spent_at a b i seg -> confirming h i seg -> ends (client_confirm b h) (if_done (took a)).
Proof.
  intros Hs (Hp & Hg & s0 & Hs0 & Hf). pose proof (spent_issuing _ _ _ _ Hs) as Hi.
  apply ends_result; [intros e; apply took_err, Hi|]. intros msg.
  destruct (client_handle h msg b) as [[h' c] o] eqn:E.
  assert (Hc : c = b /\ forall out s j, o = Some (StEstablished out s j) ->
    j = i /\ from_segment seg i s).
  { unfold client_handle in E. rewrite Hp in E.
    destruct msg; try (injection E as <- <- <-; split; [reflexivity | discriminate]).
    destruct (on_confirm_s2c h c0) as [h1 st] eqn:Ec. injection E as <- <- <-.
    split; [reflexivity|]. intros out s j ->. unfold on_confirm_s2c in Ec. rewrite Hg, Hs0 in Ec.
    destruct (ch_client_nonce h), (ch_server_nonce h); try discriminate.
    destruct (verify_peer_confirm _ _ _ _ _ _ _) as [s1 [[u1|e1]|]] eqn:Ev; try discriminate.
    injection Ec as <- <- <- <-. split; [reflexivity|]. eapply verify_confirm_from; eassumption. }
  destruct Hc as [-> Hj]. destruct o as [[out|out s j| |e]|]; try exact Logic.I;
    try (apply took_err, Hi).
  destruct (Hj _ _ _ eq_refl) as [-> Hf']. exact (established_took _ _ _ _ _ Hs Hf').
Qed.

Lemma on_arbitrate_spends (h h' : ClientHandshake) (a b : I) sn sp res st :
  ch_agreed h = None -> hc_local_pointer (ch_cfg h) = next_of a ->
  on_arbitrate h a sn sp res = (h', b, st) ->
  issuing a b /\ (forall ms, st = Some (StSend ms) -> exists i seg,
    spent_at a b i seg /\ confirming h' i seg).
Proof.
  intros Ha Hp E. unfold on_arbitrate in E. rewrite Hp in E.
  assert (Hgo : forall g, next_of a <= sp ->
    issue_and_confirm (ch_set_agreed h sn sp g) a = (h', b, st) ->
    issuing a b /\ (forall ms, st = Some (StSend ms) -> exists i seg,
      spent_at a b i seg /\ confirming h' i seg)).
  { intros g Hle Eg. eapply issue_and_confirm_spends in Eg as [Hi Hs]; [|reflexivity|exact Hp|exact Hle].
    split; [exact Hi|]. intros ms Hms. exists sp. exact (Hs ms Hms). }
  destruct res; repeat case_match_in E;
    try (injection E as <- <- <-; split; [apply issuing_refl | discriminate]).
  - apply negb_false_iff, Z.eqb_eq in E0. eapply Hgo, E. lia.
  - apply Z.leb_gt in E0. eapply Hgo, E. lia.
Qed.

Lemma client_arbitrate_took (a : I) h :
  ch_phase h = CpHelloSent -> ch_agreed h = None ->
  hc_local_pointer (ch_cfg h) = next_of a ->
  ends (client_arbitrate a h) (if_done (took a)).
Proof.
  intros Hph Hg Hp. apply ends_result; [intros e; apply took_self|]. intros msg.
  destruct (client_handle h msg a) as [[h' b] o] eqn:E.
  assert (Hb : issuing a b /\ (forall ms, o = Some (StSend ms) -> exists i seg,
    spent_at a b i seg /\ confirming h' i seg)).
  { unfold client_handle in E. rewrite Hph in E.
    destruct msg as [|sn sp res| | | |];
      try (injection E as <- <- <-; split; [apply issuing_refl | discriminate]).
    exact (on_arbitrate_spends _ _ _ _ _ _ _ _ Hg Hp E). }
  destruct Hb as [Hi Hs]. destruct o as [[out|out s j| |e]|]; try exact Logic.I;
    try (apply took_err, Hi).
  destruct (Hs _ eq_refl) as (i & seg & Hsp & Hc).
  apply ends_result; [intros e; apply took_err, Hi|]. intros u.
  eapply client_confirm_took; eassumption.
Qed.

Lemma client_handshake_took (a : I) ep d :
  ends (client_handshake a ep d) (if_done (took a)).
Proof.
  apply ends_result; [intros e; apply took_self|]. intros u.
  destruct (client_new (local_config a ep)) as [h|e] eqn:En; [|apply took_self].
  unfold client_new in En. cbn [local_config hc_version] in En.
  rewrite Z.eqb_refl in En. injection En as <-.
  set (h0 := MkClient _ _ _ _ _ _ _). apply act_ends_bind. intros rand. cbn [ends done if_done].
  destruct (client_start h0 rand) as [h [hello|e]] eqn:Es; [|exact (took_self a _)].
  assert (Hh : ch_phase h = CpHelloSent /\ ch_agreed h = None /\
    hc_local_pointer (ch_cfg h) = next_of a).
  { unfold client_start in Es. cbn in Es. destruct rand; [|discriminate Es].
    injection Es as <- _. auto. }
  destruct Hh as (? & ? & ?). apply ends_result; [intros e; apply took_self|]. intros u'.
  apply client_arbitrate_took; assumption.
Qed.

End Handshakes.

(** ** What a trace says *)

Section Traces.
Context {I : Type}.

#[local] Notation cli_event := (event (cli_answer (I := I))).

(** The lock a thread holds. *)
Inductive Held := HeldNone | HeldAlloc (a : I) | HeldAudit.

Definition hold_call (h : Held) (c : CliCall I) : cli_answer c -> Held :=
  match c with
  | ClLock => fun a => match a with Some x => HeldAlloc x | None => h end
  | ClLockAudit => fun ok => if ok then HeldAudit else h
  | ClUnlock _ | ClUnlockAudit => fun _ => HeldNone
  | _ => fun _ => h
  end.

Definition hold_event (h : Held) (e : cli_event) : Held := hold_call h (projT1 e) (projT2 e).

Definition holding (t : list cli_event) : Held := List.fold_left hold_event t HeldNone.

(** What was written on a descriptor, and the part of it a sync has covered. *)
Definition log_call (fd : Fd) (l : list byte * list byte) (c : CliCall I) :
  cli_answer c -> list byte * list byte :=
  match c with
  | ClSys (SyFd fd' (FdWrite bs)) => fun a =>
      match a with
      | Ok n => if fd' =? fd then (fst l ++ take (Z.to_nat n) bs, snd l) else l
      | Err _ => l
      end
  | ClSys (SyFd fd' FdSync) => fun a =>
      match a with Ok _ => if fd' =? fd then (fst l, fst l) else l | Err _ => l end
  | _ => fun _ => l
  end.

Definition log_add (fd : Fd) (l : list byte * list byte) (e : cli_event) :=
  log_call fd l (projT1 e) (projT2 e).

Definition log_of (fd : Fd) (t : list cli_event) : list byte * list byte :=
  List.fold_left (log_add fd) t ([], []).

Lemma holding_snoc t c a : holding (t ++ [ev c a]) = hold_call (holding t) c a.
Proof. unfold holding. rewrite fold_left_app. reflexivity. Qed.

Lemma log_snoc fd t c a : log_of fd (t ++ [ev c a]) = log_call fd (log_of fd t) c a.
Proof. unfold log_of. rewrite fold_left_app. reflexivity. Qed.

(** The complete line of an entry is the end of the log, and synced; no log, nothing to say. *)
Definition logged (audit : AuditLog) (e : AuditEntry) (t : list cli_event) : Prop :=
  forall fd, audit = Some fd -> exists before,
    log_of fd t = (before ++ audit_entry_to_json e ++ [LF], before ++ audit_entry_to_json e ++ [LF]).

End Traces.
Arguments Held I : clear implicits.

Notation cli_event I := (event (cli_answer (I := I))).

(** ** Writing to the log *)

Section Emit.
Context {I : Type} (allowed : list (cli_event I) -> forall c : CliCall I, cli_answer c -> Prop).
Context (h : Held I) (Hsys : forall m c a, holding m = h -> allowed m (ClSys c) a).

Notation upholds := (act_upholds allowed).

Lemma sys_ask_upholds c m (Q : sys_answer c -> list (cli_event I) -> Prop) :
  holding m = h -> (forall a, Q a (m ++ [ev (A := cli_answer) (ClSys c : CliCall I) a])) ->
  upholds (sys (sys_ask c)) m Q.
Proof. intros Hm HQ a. split; [apply Hsys, Hm | apply HQ]. Qed.

Lemma sys_bind {R T} (p : sys_act R) (k : R -> sys_act T) : forall m Q,
  upholds (sys p) m (fun r m' => upholds (sys (k r)) m' Q) -> upholds (sys (act_bind p k)) m Q.
Proof.
  induction p as [[r| |]|c f IH]; intros m Q Hp; try exact Hp.
  intros a. destruct (Hp a) as [Ha Hk]. split; [exact Ha | apply IH, Hk].
Qed.

Lemma sys_fd_bind {R T} fd (p : fd_act R) (k : R -> fd_act T) : forall m Q,
  upholds (sys (on_fd fd p)) m (fun r m' => upholds (sys (on_fd fd (k r))) m' Q) ->
  upholds (sys (on_fd fd (act_bind p k))) m Q.
Proof.
  induction p as [[r| |]|c f IH]; intros m Q Hp; try exact Hp.
  intros a. destruct (Hp a) as [Ha Hk]. split; [exact Ha | apply IH, Hk].
Qed.

Lemma write_full_log fd data : forall fu m x,
  holding m = h -> fst (log_of fd m) = x ->
  upholds (sys (on_fd fd (write_full fu data))) m (fun r m' =>
    holding m' = h /\ (exists t, m' = m ++ t) /\
    (r = Ok tt -> fst (log_of fd m') = x ++ data)).
Proof.
  intros fu. revert data. induction fu as [|fu IH]; intros data m x Hm Hx;
    (destruct data as [|b data];
      [cbn; split_and!; [exact Hm | exists []; rewrite app_nil_r; reflexivity|];
       intros _; rewrite app_nil_r; exact Hx|]); [exact Logic.I|].
  set (l := b :: data). intros a. split; [apply Hsys, Hm|].
  set (m1 := m ++ _). assert (Hm1 : holding m1 = h) by (unfold m1; rewrite holding_snoc; exact Hm).
  assert (Hext : exists t, m1 = m ++ t) by (eexists; reflexivity).
  assert (Hl : log_of fd m1 = log_call fd (log_of fd m) (ClSys (SyFd fd (FdWrite l))) a)
    by apply log_snoc.
  assert (Hstop : forall e, holding m1 = h /\ (exists t, m1 = m ++ t) /\
    (Err (T := unit) (E := PlatformError) e = Ok tt -> fst (log_of fd m1) = x ++ l)).
  { intros e. split_and!; [exact Hm1 | exact Hext | discriminate]. }
  assert (Hgo : forall data' y, fst (log_of fd m1) = y -> y ++ data' = x ++ l ->
    upholds (sys (on_fd fd (write_full fu data'))) m1 (fun r m' =>
      holding m' = h /\ (exists t, m' = m ++ t) /\
      (r = Ok tt -> fst (log_of fd m') = x ++ l))).
  { intros data' y Hy Heq. eapply act_upholds_mono; [apply (IH data' m1 y Hm1 Hy)|].
    cbn beta. intros r m' (Hh & [t ->] & Hok). split_and!; [exact Hh| |].
    - unfold m1. rewrite <- app_assoc. eauto.
    - intros Hr. rewrite <- Heq. exact (Hok Hr). }
  unfold log_call in Hl. destruct a as [n|e].
  - rewrite Z.eqb_refl, Hx in Hl. cbn -[log_of holding length take drop Z.leb Z.eqb m1 l].
    destruct (n =? 0); [apply Hstop|]. destruct (n <=? _); [|apply Hstop].
    eapply Hgo; [rewrite Hl; reflexivity|]. cbn [fst]. rewrite <- app_assoc, take_drop. reflexivity.
  - destruct e; try apply Hstop. eapply Hgo; [rewrite Hl; exact Hx | reflexivity].
Qed.

Lemma write_entry_log fu fd e m x :
  holding m = h -> fst (log_of fd m) = x ->
  upholds (sys (on_fd fd (write_entry fu e))) m (fun r m' =>
    holding m' = h /\ (exists t, m' = m ++ t) /\
    (r = Ok tt -> log_of fd m' =
       (x ++ audit_entry_to_json e ++ [LF], x ++ audit_entry_to_json e ++ [LF]))).
Proof.
  intros Hm Hx. apply sys_fd_bind. eapply act_upholds_mono; [apply write_full_log; eassumption|].
  cbn beta. intros r m1 (Hh & [t1 ->] & Hok).
  destruct r as [u|e1]; [|split_and!; [exact Hh | eauto | discriminate]].
  destruct u. specialize (Hok eq_refl). intros a. split; [apply Hsys, Hh|].
  assert (Hext : exists t, (m ++ t1) ++ [ev (A := cli_answer) (ClSys (SyFd fd FdSync)) a] = m ++ t)
    by (rewrite <- app_assoc; eauto).
  destruct a as [u|e1]; cbn -[log_of holding app]; (split; [rewrite holding_snoc; exact Hh|]);
    (split; [exact Hext|]); [|discriminate].
  intros _. rewrite log_snoc. cbn -[log_of app]. rewrite Z.eqb_refl, Hok. reflexivity.
Qed.

Lemma emit_log fu audit e m :
  holding m = h ->
  upholds (sys (emit fu audit e)) m (fun r m' =>
    holding m' = h /\ (exists t, m' = m ++ t) /\ (r = Ok tt -> logged audit e m')).
Proof.
  intros Hm. destruct audit as [fd|]; cbn.
  - apply sys_bind. eapply act_upholds_mono; [apply write_entry_log; [exact Hm | reflexivity]|].
    cbn beta. intros r m' (Hh & Ht & Hok). split_and!; [exact Hh | exact Ht|].
    destruct r as [[]|e']; [|discriminate]. intros _ fd' [= <-]. eauto.
  - split_and!; [exact Hm | exists []; rewrite app_nil_r; reflexivity|].
    intros _ fd' [=].
Qed.

End Emit.

(** ** A connection *)

Section Connection.
Context `{Aead} `{Sha256} {I : Type} `{PL : PointerLaw I}.
Context (audit : AuditLog) (ep : Endpoint) (deadline : Z) (book_id : BookId).

(** The thread took the allocator, established a session with it, and gave it back. *)
Definition opened (t : list (cli_event I)) (session : Session) (info : SessionInfo) : Prop :=
  exists t1 tl t2 th a b,
    t = t1 ++ [ev (A := cli_answer) ClLock (Some a)] ++ tl ++
        [ev (A := cli_answer) (ClUnlock b) tt] ++ t2 /\
    lifted ClProto (fun _ x => x) th tl /\
    runs (server_handshake a ep deadline) th (Done (b, Ok (session, info))).

Definition issued_entry (info : SessionInfo) : AuditEntry :=
  MkEntry book_id (si_segment info) (si_generation info) OcIssued None.

(** Ready for a terminal: no lock held, a session opened, its segment logged. *)
Definition ready (t : list (cli_event I)) : Prop :=
  holding t = HeldNone /\
  exists session info, opened t session info /\ logged audit (issued_entry info) t.

(** What a connection may do: the handshake under the lock of the allocator, which is only
    given back as its own calls of [issue] left it; the log under its own; one lock at a time; the terminal when [ready]. *)
Definition conn_allowed (t : list (cli_event I)) (c : CliCall I) : cli_answer c -> Prop :=
  match c with
  | ClLock | ClLockAudit => fun _ => holding t = HeldNone
  | ClUnlock b => fun _ => exists a, holding t = HeldAlloc a /\ issuing a b
  | ClUnlockAudit | ClSys _ => fun _ => holding t = HeldAudit
  | ClProto _ => fun _ => exists a, holding t = HeldAlloc a
  | ClTerm _ | ClNextConn => fun _ => ready t
  | ClStatus _ => fun _ => holding t = HeldNone
  | _ => fun _ => False
  end.

Notation upholds := (act_upholds conn_allowed).

Lemma opened_app t x s i : opened t s i -> opened (t ++ x) s i.
Proof.
  intros (t1 & tl & t2 & th & a & b & -> & Hl & Hr). exists t1, tl, (t2 ++ x), th, a, b.
  split; [|auto]. rewrite <- !app_assoc. reflexivity.
Qed.

(** A call of the thread, from a state where it is allowed. *)
Lemma call_upholds c t (Q : cli_answer c -> list (cli_event I) -> Prop) :
  (forall a, conn_allowed t c a) -> (forall a, Q a (t ++ [ev (A := cli_answer) c a])) ->
  upholds (cli_ask c) t Q.
Proof. intros Ha HQ a. split; [apply Ha | apply HQ]. Qed.

Lemma locked_state_upholds t : holding t = HeldNone ->
  upholds locked_state t (fun _ t' => holding t' = HeldNone).
Proof.
  intros Ht. apply act_upholds_bind, act_upholds_bind, call_upholds; [auto|].
  intros [a|]; [|exact Logic.I]. cbn -[holding].
  intros u. rewrite !holding_snoc. cbn -[holding]. split; [exists a; split; [reflexivity | apply issuing_refl]|].
  reflexivity.
Qed.

Lemma locked_emit_upholds fuel e t : holding t = HeldNone ->
  upholds (locked_emit fuel audit e) t (fun r t' =>
    holding t' = HeldNone /\ (exists x, t' = t ++ x) /\ (r = Ok tt -> logged audit e t')).
Proof.
  intros Ht. apply act_upholds_bind, act_upholds_bind, call_upholds; [auto|].
  intros [|]; [|exact Logic.I]. cbn [act_upholds]. apply act_upholds_done, act_upholds_bind.
  set (t1 := t ++ _).
  eapply act_upholds_mono.
  { apply (emit_log conn_allowed HeldAudit); [auto|]. unfold t1. rewrite holding_snoc. reflexivity. }
  cbn beta. intros r t2 (Hh & [x ->] & Hok). apply act_upholds_bind, call_upholds; [auto|].
  intros u. cbn -[holding log_of logged]. unfold returned, if_done. split_and!.
  - rewrite holding_snoc. reflexivity.
  - unfold t1. rewrite <- !app_assoc. eauto.
  - intros Hr fd Hfd. destruct (Hok Hr fd Hfd) as [before Hl]. exists before.
    rewrite log_snoc. exact Hl.
Qed.

Lemma emit_rejected_upholds fuel cat t : holding t = HeldNone ->
  upholds (emit_rejected fuel audit book_id cat) t (fun _ t' => holding t' = HeldNone).
Proof.
  intros Ht. apply act_upholds_bind. eapply act_upholds_mono; [apply locked_state_upholds, Ht|].
  cbn beta. intros [next generation] t1 Hn1. apply act_upholds_bind.
  eapply act_upholds_mono; [apply locked_emit_upholds, Hn1|]. cbn beta. intros r t2 [Hn2 _]. exact Hn2.
Qed.

Lemma status_upholds line t : holding t = HeldNone ->
  upholds (status line) t (fun _ t' => holding t' = HeldNone /\ exists x, t' = t ++ x).
Proof.
  intros Ht. apply call_upholds; [auto|]. intros u. rewrite holding_snoc. cbn. eauto.
Qed.

(** Under the lock of the allocator the handshake runs to its end. *)
Lemma handshake_upholds a t : holding t = HeldAlloc a ->
  upholds (proto (server_handshake a ep deadline)) t (fun o t' =>
    holding t' = HeldAlloc a /\ took a o /\
    exists th tl, t' = t ++ tl /\ lifted ClProto (fun _ x => x) th tl /\
      runs (server_handshake a ep deadline) th (Done o)).
Proof.
  intros Ht. eapply upholds_mono.
  { apply (upholds_lift conn_allowed ClProto (fun _ x => x) (fun t => holding t = HeldAlloc a));
      [|exact Ht].
    intros m c x Hm. split; [cbn; eauto|]. rewrite holding_snoc. exact Hm. }
  cbn beta. intros [o| |] t' (Hh & th & tl & Ht' & Hl & Hr); cbn; auto.
  split; [exact Hh|]. split; [|eauto 8].
  exact (ends_runs _ _ _ _ (server_handshake_took a ep deadline) Hr).
Qed.

(** The terminal is served with every call allowed. *)
Lemma term_upholds {R} (p : term_act R) t : ready t ->
  upholds (term p) t (fun _ t' => ready t').
Proof.
  intros Ht. eapply upholds_mono.
  { apply (upholds_lift conn_allowed ClTerm (fun _ x => x) ready); [|exact Ht].
    intros m c x Hm. split; [exact Hm|]. destruct Hm as (Hh & s & i & Ho & Hl). split.
    - rewrite holding_snoc. exact Hh.
    - exists s, i. split; [apply opened_app, Ho|]. intros fd Hfd. destruct (Hl fd Hfd) as [b Hb].
      exists b. rewrite log_snoc. exact Hb. }
  cbn beta. intros [r| |] t' [Hr _]; cbn; auto.
Qed.

Lemma ready_call t c a : ready t -> (forall h, hold_call h c a = h) ->
  (forall fd l, log_call fd l c a = l) -> ready (t ++ [ev (A := cli_answer) c a]).
Proof.
  intros (Hh & s & i & Ho & Hl) Hc Hf. split; [rewrite holding_snoc, Hc; exact Hh|].
  exists s, i. split; [apply opened_app, Ho|]. intros fd Hfd. rewrite log_snoc, Hf. auto.
Qed.

Lemma serve_one_upholds fuel opts :
  upholds (serve_one fuel opts audit ep deadline book_id) [] (fun _ t => holding t = HeldNone).
Proof.
  apply act_upholds_bind, act_upholds_bind, call_upholds; [reflexivity|].
  intros [a|]; [|exact Logic.I]. apply act_upholds_done, act_upholds_bind.
  eapply act_upholds_mono; [apply handshake_upholds; reflexivity|].
  cbn beta. intros [b r] t1 (Hh & Htook & th & tl & -> & Hl & Hr).
  apply act_upholds_bind, call_upholds.
  { intros u. cbn -[holding]. exists a. split; [exact Hh | exact (proj1 Htook)]. }
  intros []. set (t2 := _ ++ [ev (ClUnlock b) tt]).
  assert (Hn2 : holding t2 = HeldNone) by (unfold t2; rewrite holding_snoc; reflexivity).
  destruct r as [[session info]|f].
  2:{ apply act_upholds_bind. eapply act_upholds_mono; [apply emit_rejected_upholds, Hn2|].
      cbn beta. intros next t3 Hn3. eapply act_upholds_mono; [apply status_upholds, Hn3|].
      cbn beta. tauto. }
  assert (Ho : opened t2 session info).
  { exists [], tl, [], th, a, b. split; [|auto]. unfold t2. rewrite app_nil_r. reflexivity. }
  apply act_upholds_bind. eapply act_upholds_mono; [apply locked_emit_upholds, Hn2|].
  cbn beta. intros issued t3 (Hn3 & [x ->] & Hlog). destruct issued as [[]|e].
  2:{ eapply act_upholds_mono; [apply status_upholds, Hn3|]. cbn beta. tauto. }
  assert (Hready : ready (t2 ++ x)).
  { split; [exact Hn3|]. exists session, info. split; [apply opened_app, Ho | auto]. }
  apply act_upholds_bind, call_upholds; [intros conn; exact Hready|]. intros conn.
  apply act_upholds_bind. eapply act_upholds_mono.
  { apply term_upholds, ready_call; [exact Hready | reflexivity | reflexivity]. }
  cbn beta. intros [s summary] t4 [Hn4 _]. apply act_upholds_bind.
  eapply act_upholds_mono; [apply status_upholds, Hn4|]. cbn beta. intros u t5 [Hn5 _].
  destruct (su_end summary); try exact Hn5. apply act_upholds_bind.
  eapply act_upholds_mono; [apply emit_rejected_upholds, Hn5|]. cbn beta. auto.
Qed.

End Connection.

(** ** The connections of a server *)

Section Threads.
Context {I : Type}.

(** What an event does to the allocator's mutex. *)
Inductive Turn := TakeTurn (a : I) | GiveTurn (b : I) | NoTurn.

Definition turn_call (c : CliCall I) : cli_answer c -> Turn :=
  match c with
  | ClLock => fun a => match a with Some x => TakeTurn x | None => NoTurn end
  | ClUnlock b => fun _ => GiveTurn b
  | _ => fun _ => NoTurn
  end.

Definition turn_of (e : cli_event I) : Turn := turn_call (projT1 e) (projT2 e).

(** A run of all threads: which thread made which event. *)
Definition events_of (k : nat) (g : list (nat * cli_event I)) : list (cli_event I) :=
  map snd (List.filter (fun p => (fst p =? k)%nat) g).

(** The mutex: only the value it guards is handed out, to one thread at a time, and
    what that thread gives back is the next value. *)
Fixpoint shared (v : I) (holder : option nat) (g : list (nat * cli_event I)) : Prop :=
  match g with
  | [] => True
  | (k, e) :: g =>
      match turn_of e with
      | TakeTurn a => holder = None /\ a = v /\ shared v (Some k) g
      | GiveTurn b => holder = Some k /\ shared b None g
      | NoTurn => shared v holder g
      end
  end.

(** The turns of one thread: what it took and what it gave back. *)
Fixpoint turns (h : option I) (t : list (cli_event I)) : list (I * I) :=
  match t with
  | [] => []
  | e :: t =>
      match turn_of e with
      | TakeTurn a => turns (Some a) t
      | GiveTurn b => match h with Some a => [(a, b)] | None => [] end ++ turns None t
      | NoTurn => turns h t
      end
  end.

(** The turns of all threads, in their order. *)
Fixpoint all_turns (v : I) (g : list (nat * cli_event I)) : list (nat * (I * I)) :=
  match g with
  | [] => []
  | (k, e) :: g =>
      match turn_of e with GiveTurn b => (k, (v, b)) :: all_turns b g | _ => all_turns v g end
  end.

Definition in_hand (v : I) (holder : option nat) (k : nat) : option I :=
  if decide (holder = Some k) then Some v else None.

Lemma turns_shared k g : forall v holder, shared v holder g ->
  forall x, In x (turns (in_hand v holder k) (events_of k g)) <-> In (k, x) (all_turns v g).
Proof.
  unfold events_of. induction g as [|[j e] g IH]; intros v holder Hg x; [reflexivity|].
  cbn in Hg |- *. destruct (turn_of e) as [a|b|] eqn:Et.
  - destruct Hg as (-> & -> & Hg). rewrite <- (IH v (Some j) Hg). unfold in_hand.
    destruct (Nat.eqb_spec j k) as [->|Hj]; cbn.
    + rewrite Et, decide_True by reflexivity. reflexivity.
    + rewrite (decide_False (P := None = Some k)) by discriminate.
      rewrite decide_False by congruence. reflexivity.
  - destruct Hg as [-> Hg]. specialize (IH b None Hg x). unfold in_hand in IH |- *.
    rewrite decide_False in IH by discriminate. cbn [In]. rewrite <- IH.
    destruct (Nat.eqb_spec j k) as [->|Hj]; cbn.
    + rewrite Et, decide_True by reflexivity. cbn. split; (intros [E|E]; [left; congruence | auto]).
    + rewrite decide_False by congruence. split; [auto|]. intros [E|E]; [congruence | exact E].
  - rewrite <- (IH v holder Hg). destruct (j =? k)%nat; cbn; rewrite ?Et; reflexivity.
Qed.

Lemma turns_app t1 : forall h t2, exists h', turns h (t1 ++ t2) = turns h t1 ++ turns h' t2.
Proof.
  induction t1 as [|e t1 IH]; intros h t2; [exists h; reflexivity|]. cbn.
  destruct (turn_of e); cbn; try apply IH.
  destruct (IH None t2) as [h' ->]. exists h'. apply app_assoc.
Qed.

(** Events that leave the mutex alone. *)
Lemma turns_quiet h t1 t2 : Forall (fun e => turn_of e = NoTurn) t1 ->
  turns h (t1 ++ t2) = turns h t2.
Proof. induction 1 as [|e t1 He _ IH]; cbn; [reflexivity|]. rewrite He. exact IH. Qed.

Context `{!SegmentIssuer I} `{!PointerState I}.

(** Turns that never move the pointer back. *)
Definition forward (x : I * I) : Prop := next_of (fst x) <= next_of (snd x).

(** Turns that do nothing but issue. *)
Definition issuing_turn (x : I * I) : Prop := issuing (fst x) (snd x).

Lemma all_turns_after g : forall v, Forall (fun p => forward (snd p)) (all_turns v g) ->
  Forall (fun p => next_of v <= next_of (fst (snd p))) (all_turns v g).
Proof.
  induction g as [|[k e] g IH]; intros v Hf; cbn in *; [constructor|].
  destruct (turn_of e) as [a|b|]; auto.
  apply Forall_cons_iff in Hf as [Hvb Hf]. unfold forward in Hvb. cbn in Hvb.
  constructor; [cbn; lia|]. eapply Forall_impl; [|exact (IH b Hf)]. cbn. intros p Hp. lia.
Qed.

Lemma all_turns_apart g : forall v i j x y,
  Forall (fun p => forward (snd p)) (all_turns v g) ->
  In (i, x) (all_turns v g) -> In (j, y) (all_turns v g) -> i <> j ->
  next_of (snd x) <= next_of (fst y) \/ next_of (snd y) <= next_of (fst x).
Proof.
  induction g as [|[k e] g IH]; intros v i j x y Hf Hx Hy Hij; cbn in *; [contradiction|].
  destruct (turn_of e) as [a|b|]; eauto.
  apply Forall_cons_iff in Hf as [_ Hf]. pose proof (all_turns_after g b Hf) as Ha.
  rewrite List.Forall_forall in Ha.
  destruct Hx as [[= <- <-]|Hx], Hy as [[= <- <-]|Hy].
  - contradiction.
  - left. apply (Ha _ Hy).
  - right. apply (Ha _ Hx).
  - eauto.
Qed.

(** What holds of the turns of each thread holds of all turns. *)
Lemma shared_turns (P : I * I -> Prop) v g : shared v None g ->
  (forall k, Forall P (turns None (events_of k g))) ->
  Forall (fun p => P (snd p)) (all_turns v g).
Proof.
  intros Hg Hf. apply List.Forall_forall. intros [k x] Hx. cbn.
  apply (turns_shared k g v None Hg) in Hx. specialize (Hf k).
  rewrite List.Forall_forall in Hf. apply Hf, Hx.
Qed.

End Threads.

Section Disciplined.
Context `{Aead} `{Sha256} {I : Type} `{PL : PointerLaw I}.
Context (audit : AuditLog) (ep : Endpoint) (deadline : Z) (book_id : BookId).

Notation allowed := (conn_allowed audit ep deadline book_id).

Definition held_alloc (h : Held I) : option I :=
  match h with HeldAlloc a => Some a | _ => None end.

(** A thread that keeps to what a connection may do only issues in its turns. *)
Lemma allowed_turns t : forall p,
  (forall t1 c a t2, t = t1 ++ ev (A := cli_answer) c a :: t2 -> allowed (p ++ t1) c a) ->
  Forall issuing_turn (turns (held_alloc (holding p)) t).
Proof.
  induction t as [|[c a] t IH]; intros p Ht; [constructor|].
  pose proof (Ht [] c a t eq_refl) as Hc. rewrite app_nil_r in Hc.
  assert (Hn : forall t1 c' a' t2, t = t1 ++ ev (A := cli_answer) c' a' :: t2 ->
    allowed ((p ++ [ev (A := cli_answer) c a]) ++ t1) c' a').
  { intros t1 c' a' t2 ->. rewrite <- app_assoc. apply (Ht (ev c a :: t1) _ _ t2). reflexivity. }
  specialize (IH _ Hn). rewrite holding_snoc in IH.
  destruct c; cbn in *; try exact IH; try contradiction.
  - destruct a as [a|]; [exact IH|]. exact IH.
  - destruct Hc as (x & Hx & Hle). rewrite Hx. cbn. constructor; [exact Hle | exact IH].
  - rewrite Hc. destruct a; [|rewrite Hc in IH]; exact IH.
  - rewrite Hc. exact IH.
Qed.

(** The handshake of an opened session is one of the turns. *)
Lemma opened_turn t s info : opened ep deadline t s info -> exists a b,
  In (a, b) (turns None t) /\ took a (b, Ok (s, info)).
Proof.
  intros (t1 & tl & t2 & th & a & b & -> & Hl & Hr).
  exists a, b. split; [|exact (ends_runs _ _ _ _ (server_handshake_took a ep deadline) Hr)].
  destruct (turns_app t1 None ([ev (A := cli_answer) ClLock (Some a)] ++ tl ++
    [ev (A := cli_answer) (ClUnlock b) tt] ++ t2)) as [h' ->].
  apply in_or_app. right. cbn. rewrite turns_quiet; [left; reflexivity|].
  clear - Hl. induction Hl as [|e1 e2 ? ? (c & x & _ & ->) _ IH]; constructor; auto.
Qed.

(** All turns of the threads of a server only issue. *)
Lemma server_turns fuel opts (alloc : I) g : shared alloc None g ->
  (forall k, follows (serve_one fuel opts audit ep deadline book_id) (events_of k g)) ->
  Forall (fun p => issuing_turn (snd p)) (all_turns alloc g).
Proof.
  intros Hg Hf. apply (shared_turns issuing_turn alloc g Hg). intros k.
  apply (allowed_turns _ []). intros t1 c a t2 E. pose proof (Hf k) as Hk. rewrite E in Hk.
  exact (upholds_follows _ _ [] _ _ _ _ _ (serve_one_upholds audit ep deadline book_id fuel opts) Hk).
Qed.

(** An opened session of a thread belongs to one of all turns. *)
Lemma opened_in_turns (alloc : I) g k s info : shared alloc None g ->
  opened ep deadline (events_of k g) s info ->
  exists a b, In (k, (a, b)) (all_turns alloc g) /\ took a (b, Ok (s, info)).
Proof.
  intros Hg Ho. apply opened_turn in Ho as (a & b & Ht & Hk). exists a, b.
  split; [|exact Hk]. apply (turns_shared k g alloc None Hg), Ht.
Qed.

End Disciplined.

(** ** The properties *)

(** C12: a connection of a server keeps its order, whatever its peer, the shell, the files
    and the other threads do.  It holds one lock at a time and none at its end; every frame
    of the handshake passes under the lock of the allocator, which it gives back as its own
    calls of [issue] left it; every write to the audit log is under the log's lock; and every call of the
    terminal, its first included, comes when no lock is held, after a complete handshake
    that established the session and after the whole line that its segment was issued was
    written to the log and synced. *)
Theorem connection_order `{Aead} `{Sha256} {I : Type} `{PointerLaw I} fuel opts audit ep
  deadline book_id :
  let connection := serve_one (I := I) fuel opts audit ep deadline book_id in
  (forall t c a t', follows connection (t ++ ev (A := cli_answer) c a :: t') ->
     conn_allowed audit ep deadline book_id t c a) /\
  (forall t, runs connection t (Done tt) -> holding t = HeldNone).
Proof.
  pose proof (serve_one_upholds (I := I) audit ep deadline book_id fuel opts) as Hu.
  split; [intros t c a t' Hf | intros t Hr].
  - exact (upholds_follows _ _ [] _ _ _ _ _ Hu Hf).
  - exact (upholds_runs _ _ [] _ _ _ Hu Hr).
Qed.

(** No two connections of a server share a segment.  In any interleaving of any
    number of connections over one allocator behind its mutex, cut at any point, the
    sessions that two different connections established have different segments. *)
Theorem connections_never_share `{Aead} `{Sha256} {I : Type} `{PointerLaw I} fuel opts
  audit ep deadline book_id (alloc : I) g i j s1 info1 s2 info2 :
  shared alloc None g ->
  (forall k, follows (serve_one fuel opts audit ep deadline book_id) (events_of k g)) ->
  i <> j ->
  opened ep deadline (events_of i g) s1 info1 ->
  opened ep deadline (events_of j g) s2 info2 ->
  si_segment info1 <> si_segment info2.
Proof.
  intros Hg Hf Hij Ho1 Ho2.
  assert (Hfw : Forall (fun p => forward (snd p)) (all_turns alloc g)).
  { eapply List.Forall_impl; [|exact (server_turns audit ep deadline book_id fuel opts alloc g Hg Hf)].
    intros p Hp. apply issuing_forward, Hp. }
  apply (opened_in_turns ep deadline alloc g i s1 info1 Hg) in Ho1 as (a1 & b1 & Ht1 & Hk1).
  apply (opened_in_turns ep deadline alloc g j s2 info2 Hg) in Ho2 as (a2 & b2 & Ht2 & Hk2).
  apply took_range in Hk1, Hk2.
  destruct (all_turns_apart g alloc i j _ _ Hfw Ht1 Ht2 Hij); cbn in *; lia.
Qed.

(** ** Witnesses: one server and its connections *)

Module ServerWitness.
#[local] Existing Instance checksum_aead.
#[local] Existing Instance low_digest.
#[local] Existing Instance list_issuer.
#[local] Existing Instance list_pointer.

Notation Stock := (list CommittedSegment).

#[export] Instance list_law : PointerLaw Stock.
Proof.
  intros i i' r E. destruct i as [|seg i]; injection E as <- <-; cbn -[Z.of_nat].
  - split; [lia | discriminate].
  - split; [lia | intros; lia].
Qed.

(** What is behind the calls: the files, the frames of the peers, the mutex. *)
Record World {I : Type} := MkWorld {
  wo_sys : SysView;
  wo_book : FileSt;
  wo_peer : list (list byte);
  wo_alloc : I;
}.
Arguments World : clear implicits.
Arguments MkWorld {I}.

Definition wire_of (m : Message) : list byte :=
  match encode m with Ok w => w | Err _ => [] end.

(** A client at pointer [p] that is given the segment [seg] there. *)
Definition client_wires (p : Z) (seg : CommittedSegment) : list (list byte) :=
  let c := MkClient (demo_config p) CpHelloSent (Some demo_rc) None None None None in
  wire_of (Hello (zeros 16) demo_rc p 0) ::
  match client_handle c (Arbitrate demo_rs p ArOk) [seg] with
  | (_, _, Some (StSend ms)) => map wire_of ms
  | _ => []
  end.

Definition sys_run {I} (w : World I) (c : SysCall) : World I * sys_answer c :=
  match c return World I * sys_answer c with
  | SyFd _ (FdWrite bs) => (w, Ok (Z.of_nat (length bs)))
  | SyFd _ FdSync => (w, Ok tt)
  | c => let '(v, a) := view_env (wo_sys w) c in
         (MkWorld v (wo_book w) (wo_peer w) (wo_alloc w), a)
  end.

Definition proto_run {I} (w : World I) (c : ProtoCall) : World I * proto_answer c :=
  match c return World I * proto_answer c with
  | PcRandom => (w, Some demo_rs)
  | PcRecv =>
      match wo_peer w with
      | f :: fs => (MkWorld (wo_sys w) (wo_book w) fs (wo_alloc w), Ok f)
      | [] => (w, Err TrTimeout)
      end
  | PcInput _ => (w, None)
  | PcOutput _ => (w, true)
  | PcSetDeadline _ | PcSend _ | PcShutdownWrite => (w, Ok tt)
  end.

(** The shell cannot be started. *)
Definition term_run (c : TermCall) : answer c :=
  match c return answer c with
  | CNow => 0
  | CRecv => Err TrClosedByPeer
  | COpen _ => Some (Err TeIo)
  | CFind _ | CIsCurrent _ _ | CHasExited _ => false
  | CAcquire _ _ | CPollExit _ => None
  | CSnapshot _ => MkSnapshot 0 None false false
  | CHeartbeat _ _ | CWrite _ _ _ | CResize _ _ _ => Err TeIo
  | CDrain _ _ => Err TeIo
  | CSetDeadline _ | CSend _ | CShutdownWrite | CClose => Ok tt
  | CRetire _ | CDropGrant _ _ => tt
  end.

Definition demo_record : AnchorRecord := MkAnchor (zeros 16) 4 0 PInit.

Definition cli_run {I} (w : World I) (c : CliCall I) : World I * cli_answer c :=
  match c return World I * cli_answer c with
  | ClSys c => sys_run w c
  | ClBook _ c =>
      let '(m, a) := BookWitness.file_run (wo_book w) c in
      (MkWorld (wo_sys w) m (wo_peer w) (wo_alloc w), a)
  | ClProto c => proto_run w c
  | ClTerm c => (w, term_run c)
  | ClClient KNow => (w, 0)
  | ClClient KRecv => (w, Err TrClosedByPeer)
  | ClClient KStdin => (w, InEof)
  | ClClient KProbe => (w, None)
  | ClClient (KOutput _) => (w, true)
  | ClClient (KSetDeadline _) | ClClient (KSend _) | ClClient KClose => (w, Ok tt)
  | ClRecover _ _ => (w, Ok (MkReport demo_record None [] []))
  | ClAllocator _ => (w, Ok (wo_alloc w))
  | ClLock => (w, Some (wo_alloc w))
  | ClUnlock alloc => (MkWorld (wo_sys w) (wo_book w) (wo_peer w) alloc, tt)
  | ClLockAudit | ClSpawn _ _ _ _ | ClRawMode => (w, true)
  | ClBind _ | ClConnect _ => (w, Ok tt)
  | ClAccept => (w, Err TrClosedByPeer)
  | ClLocalAddr => (w, Ok "127.0.0.1:7")
  | ClNextConn => (w, 1)
  | ClWindow => (w, None)
  | ClShare _ | ClUnlockAudit | ClRegistry _ _ | ClJoin | ClRestoreMode | ClStatus _
  | ClPrint _ => (w, tt)
  end%string.

Definition stock : Stock := [MkSegment (zeros 64); MkSegment demo_segment].

Definition world0 : World Stock :=
  MkWorld demo_view BookWitness.on_disk
    (client_wires 4 (MkSegment (zeros 64)) ++ client_wires 5 (MkSegment demo_segment)) stock.

Definition options : ServeOptions := MkServeOptions 30000 25 250.

Definition connection : cli_act Stock unit :=
  serve_one 20 options (Some 7) demo_endpoint 30 (zeros 16).

(** One connection after the other. *)
Definition first := exec cli_run world0 connection.
Definition second := exec cli_run (fst (fst first)) connection.

Definition both : list (nat * cli_event Stock) :=
  map (pair 0%nat) (snd (fst first)) ++ map (pair 1%nat) (snd (fst second)).

Definition is_term {I} (e : cli_event I) : bool :=
  match projT1 e with ClTerm _ => true | _ => false end.

Lemma split_term {I} (t : list (cli_event I)) : existsb is_term t = true -> exists t1 c a t2,
  t = t1 ++ ev (A := cli_answer) (ClTerm c) a :: t2.
Proof.
  induction t as [|[c a] t IH]; [discriminate|]. cbn. intros E.
  destruct c as [| | |c| | | | | | | | | | | | | | | | | | | | |];
    try (destruct (IH E) as (t1 & c' & a' & t2 & ->); eexists (_ :: t1), c', a', t2; reflexivity).
  exists [], c, a, t. reflexivity.
Qed.

(** A connection that served a terminal had opened a session. *)
Lemma terminal_opened {I} `{PL : PointerLaw I} fuel opts audit ep deadline book (t : list (cli_event I)) r :
  runs (serve_one fuel opts audit ep deadline book) t r -> existsb is_term t = true ->
  exists s info, opened ep deadline t s info.
Proof.
  intros Hr Ht. apply split_term in Ht as (t1 & c & a & t2 & ->).
  destruct (upholds_follows _ _ [] _ _ _ _ _ (serve_one_upholds audit ep deadline book fuel opts)
    (runs_follows _ _ _ Hr)) as (_ & s & info & Ho & _).
  exists s, info. apply opened_app, Ho.
Qed.

Lemma first_run : runs connection (snd (fst first)) (snd first).
Proof. unfold first. apply exec_is_run. Qed.

Lemma second_run : runs connection (snd (fst second)) (snd second).
Proof. unfold second. apply exec_is_run. Qed.

Lemma first_terminal : existsb is_term (snd (fst first)) = true.
Proof. vm_compute. reflexivity. Qed.

Lemma second_terminal : existsb is_term (snd (fst second)) = true.
Proof. vm_compute. reflexivity. Qed.

Lemma both_shared : shared stock None both.
Proof. vm_compute. repeat split. Qed.

Lemma events_pair {I} k j (t : list (cli_event I)) :
  events_of k (map (pair j) t) = if (j =? k)%nat then t else [].
Proof.
  unfold events_of. induction t as [|e t IH]; cbn; [destruct (j =? k)%nat; reflexivity|].
  destruct (j =? k)%nat; cbn; rewrite IH; reflexivity.
Qed.

Lemma both_events k : events_of k both =
  (if (0 =? k)%nat then snd (fst first) else []) ++ (if (1 =? k)%nat then snd (fst second) else []).
Proof.
  rewrite <- !events_pair. unfold events_of, both.
  generalize (map (pair 0%nat) (snd (fst first))) (map (pair 1%nat) (snd (fst second))).
  intros g1 g2. induction g1 as [|[j e] g1 IH]; [reflexivity|]. cbn.
  destruct (j =? k)%nat; cbn; rewrite IH; reflexivity.
Qed.

Lemma both_follow k : follows connection (events_of k both).
Proof.
  rewrite both_events. destruct k as [|[|k]]; cbn [Nat.eqb app];
    [rewrite app_nil_r; exact (runs_follows _ _ _ first_run)
    |exact (runs_follows _ _ _ second_run) | exact I].
Qed.

Lemma first_opened : exists s info,
  opened demo_endpoint 30 (events_of 0 both) s info.
Proof.
  rewrite both_events. cbn [Nat.eqb]. rewrite app_nil_r.
  exact (terminal_opened _ _ _ _ _ _ _ _ first_run first_terminal).
Qed.

Lemma second_opened : exists s info,
  opened demo_endpoint 30 (events_of 1 both) s info.
Proof. rewrite both_events. exact (terminal_opened _ _ _ _ _ _ _ _ second_run second_terminal). Qed.

End ServerWitness.

#[local] Existing Instance checksum_aead.
#[local] Existing Instance low_digest.
#[local] Existing Instance list_issuer.
#[local] Existing Instance list_pointer.
Import ServerWitness.

Lemma connection_order_witness :
  exists t c a t', snd (fst first) = t ++ ev (A := cli_answer) (ClTerm c) a :: t' /\
    ready (Some 7) demo_endpoint 30 (zeros 16) t.
Proof.
  destruct (split_term _ first_terminal) as (t & c & a & t' & E).
  exists t, c, a, t'. split; [exact E|].
  destruct (connection_order 20 options (Some 7) demo_endpoint 30 (zeros 16) (I := Stock))
    as [Ho _].
  apply (Ho t (ClTerm c) a t'). rewrite <- E. exact (runs_follows _ _ _ first_run).
Defined.

Lemma connections_never_share_witness :
  exists s1 info1 s2 info2,
    opened demo_endpoint 30 (events_of 0 both) s1 info1 /\
    opened demo_endpoint 30 (events_of 1 both) s2 info2 /\
    si_segment info1 <> si_segment info2.
Proof.
  destruct first_opened as (s1 & info1 & O1). destruct second_opened as (s2 & info2 & O2).
  exists s1, info1, s2, info2. split; [exact O1|]. split; [exact O2|].
  exact (connections_never_share 20 options (Some 7) demo_endpoint 30 (zeros 16) stock both 0 1
    s1 info1 s2 info2 both_shared both_follow (Nat.neq_0_succ 0) O1 O2).
Defined.

