(* ===== verification/Lives.v ===== *)
(** * Lives: the segments of a book over the whole life of an end

    One end of the protocol, server or client, is a sequence of processes over its two
    anchor files: each recovers the files at its start ([otp-cli], recoveryio.rs), opens
    the allocator, hands segments to the handshakes of its sessions, and ends or is cut
    off, also with the machine.  No two of its sessions have the same segment. *)

From stdpp Require Import strings.
From S2P Require Export ConnSpec AnchorFileSpec.

#[local] Open Scope list_scope.
#[local] Open Scope Z_scope.

(** What the last turn of the threads of [g] left behind the mutex. *)
Fixpoint mutex_value {I} (v : I) (g : list (nat * cli_event I)) : I :=
  match g with
  | [] => v
  | (_, e) :: g => match turn_of e with GiveTurn b => mutex_value b g | _ => mutex_value v g end
  end.

(** The sessions that a process established, by the number of the connection. *)
Definition Claims : Type := nat -> Session -> SessionInfo -> Prop.
Definition no_claims : Claims := fun _ _ _ => False.

Section Lives.
Context `{Aead} `{Sha256} {R : Type} `{SegmentReader R}.

Notation FCore := (Core FileMedia R).

(** Start-up recovery of the two files; every write loop has enough fuel. *)
Definition recovery (pa pb : Path) (m : FileMedia) :
  FileMedia * result RecoveryReport RecoveryError :=
  let fuel := (loop_fuel (fm_a m) + loop_fuel (fm_b m))%nat in
  let '(da, db, r) := startup_recover one_file fuel (fm_a m) (fm_b m) pa pb in
  (MkFileMedia da db (fm_clean m), r).

(** What a process does with its allocator until it ends: a server has any interleaving of
    any connections behind the mutex, of which the last one may be cut in its handshake; a
    client has one handshake, whole or cut. *)
Inductive process (c : FCore) : FCore -> Claims -> Prop :=
  | process_server fuel opts audit ep deadline book g c' :
      shared c None g ->
      (forall k, follows (serve_one fuel opts audit ep deadline book) (events_of k g)) ->
      issuing (mutex_value c g) c' ->
      process c c' (fun k => opened ep deadline (events_of k g))
  | process_client ep deadline t c' r :
      runs (client_handshake c ep deadline) t (Done (c', r)) ->
      process c c' (fun k s info => k = 0%nat /\ r = Ok (s, info))
  | process_cut c' : issuing c c' -> process c c' no_claims.

(** The process ends, or the machine fails. *)
Definition ended (m m' : FileMedia) : Prop := m' = m \/ m' = media_crash m.

Inductive life (pa pb : Path) (m m' : FileMedia) : Claims -> Prop :=
  | life_recovering m1 r : recovery pa pb m = (m1, r) -> ended m1 m' -> life pa pb m m' no_claims
  | life_refused m1 rep reader book m2 reader' e :
      recovery pa pb m = (m1, Ok rep) -> core_open m1 reader book = (m2, reader', Err e) ->
      ended m2 m' -> life pa pb m m' no_claims
  | life_open m1 rep reader book m2 reader' c c' claims :
      recovery pa pb m = (m1, Ok rep) -> core_open m1 reader book = (m2, reader', Ok c) ->
      process c c' claims -> ended (co_media c') m' -> life pa pb m m' claims.

Inductive lives (pa pb : Path) : FileMedia -> list Claims -> FileMedia -> Prop :=
  | lives_none m : lives pa pb m [] m
  | lives_next m m1 m2 claims rest :
      life pa pb m m1 claims -> lives pa pb m1 rest m2 -> lives pa pb m (claims :: rest) m2.

(** ** Floors *)

(** A core whose medium and pointer are at [f] or above. *)
Definition floor (f : Z) (c : FCore) : Prop :=
  wf_core c /\ above f (co_media c) /\ (honest (co_media c) -> f <= next_of c).

Definition cleaner (m m' : FileMedia) : Prop := honest m' -> honest m.

Lemma issue_floor f c c' r : issuer_issue c = (c', r) -> floor f c ->
  floor f c' /\ cleaner (co_media c) (co_media c') /\
  (forall seg, r = Some (Ok seg) -> floor (next_of c + 1) c').
Proof.
  intros E (Hw & Ha & Hf). change (issue c = (c', r)) in E.
  destruct (issue_above _ _ _ _ Hw Ha Hf E) as [(Ha' & Hw' & Hn & Hm) Hok].
  cbn [pointer_state core_state fst] in *. split; [|split].
  - split_and!; auto. intros Hh. specialize (Hf (Hm Hh)). cbn in *. lia.
  - exact Hm.
  - intros seg Hs. destruct (Hok seg Hs) as [Hn1 Ha1]. split_and!; auto.
    intros _. cbn in *. lia.
Qed.

Lemma issuing_floor f c c' : issuing c c' -> floor f c ->
  floor f c' /\ cleaner (co_media c) (co_media c').
Proof.
  intros [n Hn]. induction Hn as [|c c1 r n c2 E _ IH]; intros Hf; [split; [exact Hf | intros Hh; exact Hh]|].
  destruct (issue_floor _ _ _ _ E Hf) as (Hf1 & Hc1 & _). destruct (IH Hf1) as [Hf2 Hc2].
  split; [exact Hf2 | intros Hh; auto].
Qed.

(** A session's segment is at the floor, and below what is left. *)
Lemma took_floor f c c' s info : took c (c', Ok (s, info)) -> floor f c ->
  honest (co_media c') -> f <= si_segment info /\ floor (si_segment info + 1) c'.
Proof.
  intros [_ Ht] Hf Hh. destruct (Ht s info eq_refl) as (d & seg & Hd & E & -> & _). cbn in E.
  destruct (issuing_floor _ _ _ Hd Hf) as [Hfd _].
  destruct (issue_floor _ _ _ _ E Hfd) as (_ & Hc & Hok).
  split; [apply Hfd, Hc, Hh | exact (Hok seg eq_refl)].
Qed.

(** The turns of the threads keep a floor. *)
Lemma turns_floor f g : forall v, Forall (fun p => issuing_turn (snd p)) (all_turns v g) ->
  floor f v -> floor f (mutex_value v g) /\ cleaner (co_media v) (co_media (mutex_value v g)).
Proof.
  induction g as [|[k e] g IH]; intros v Ht Hf; [split; [exact Hf | intros Hh; exact Hh]|].
  cbn in *. destruct (turn_of e) as [a|b|]; auto. apply Forall_cons_iff in Ht as [Hb Ht].
  destruct (issuing_floor _ _ _ Hb Hf) as [Hfb Hc]. destruct (IH b Ht Hfb) as [Hfg Hcg].
  split; [exact Hfg | intros Hh; auto].
Qed.

(** What came before and after one turn. *)
Lemma turn_split k a b g : forall v f,
  Forall (fun p => issuing_turn (snd p)) (all_turns v g) -> floor f v ->
  In (k, (a, b)) (all_turns v g) -> floor f a /\ exists g',
    Forall (fun p => issuing_turn (snd p)) (all_turns b g') /\ mutex_value v g = mutex_value b g'.
Proof.
  induction g as [|[j e] g IH]; intros v f Ht Hf Hin; cbn in *; [contradiction|].
  destruct (turn_of e) as [a'|b'|]; eauto. apply Forall_cons_iff in Ht as [Hb Ht].
  destruct Hin as [[= -> -> ->]|Hin]; [eauto|].
  destruct (issuing_floor _ _ _ Hb Hf) as [Hfb _]. eauto.
Qed.

(** ** A process *)

(** From [c] to [c'] floors are kept, and the segments claimed on the way are at every floor
    of [c], and below floors of [c']. *)
Definition climbs (P : Z -> Prop) (Q : Z -> Prop) (claims : Claims) : Prop :=
  forall f, P f -> Q f /\
    forall k s info, claims k s info -> f <= si_segment info /\ Q (si_segment info + 1).

Lemma no_claims_climb P Q : (forall f, P f -> Q f) -> climbs P Q no_claims.
Proof. intros HPQ f Hf. split; [auto | intros k s info []]. Qed.

Definition apart (claims : Claims) : Prop := forall j k s s' info info',
  claims j s info -> claims k s' info' -> j <> k -> si_segment info <> si_segment info'.

Lemma process_climbs c c' claims f0 : process c c' claims -> floor f0 c ->
  honest (co_media c') ->
  honest (co_media c) /\ climbs (fun f => floor f c) (fun f => floor f c') claims /\ apart claims.
Proof.
  intros Hp Hf0 Hh.
  destruct Hp as [fuel opts audit ep deadline book g c' Hg Hfol Hc'|ep deadline t c' r Hr|c' Hc'].
  - pose proof (server_turns audit ep deadline book fuel opts c g Hg Hfol) as Ht.
    destruct (turns_floor f0 g c Ht Hf0) as [Hfv Hcv].
    destruct (issuing_floor f0 _ _ Hc' Hfv) as [_ Hcc]. split; [auto|]. split.
    + intros f Hf. destruct (turns_floor f g c Ht Hf) as [Hfg _].
      split; [exact (proj1 (issuing_floor _ _ _ Hc' Hfg))|]. intros k s info Ho.
      apply (opened_in_turns ep deadline c g k s info Hg) in Ho as (a & b & Hin & Hk).
      destruct (turn_split k a b g c f Ht Hf Hin) as [Hfa (g' & Ht' & Hg')].
      rewrite Hg' in Hc', Hcc, Hcv, Hfv.
      assert (Hb : cleaner (co_media b) (co_media c')).
      { destruct (issuing_floor f _ b (proj1 Hk) Hfa) as [Hfb _]. cbn in Hfb.
        destruct (turns_floor f g' b Ht' Hfb) as [_ Hb]. intros Hx. auto. }
      destruct (took_floor f a b s info Hk Hfa (Hb Hh)) as [Hle Hfl]. split; [exact Hle|].
      destruct (turns_floor _ g' b Ht' Hfl) as [Hfl' _].
      exact (proj1 (issuing_floor _ _ _ Hc' Hfl')).
    + intros j k s s' info info' Hj Hk Hjk.
      exact (connections_never_share fuel opts audit ep deadline book c g j k s info s' info' Hg Hfol Hjk Hj Hk).
  - pose proof (ends_runs _ _ _ _ (client_handshake_took c ep deadline) Hr) as Hk.
    split; [exact (proj2 (issuing_floor f0 _ _ (proj1 Hk) Hf0) Hh)|]. split.
    + intros f Hf. split; [exact (proj1 (issuing_floor _ _ _ (proj1 Hk) Hf))|].
      intros k s info [_ ->]. exact (took_floor f c c' s info Hk Hf Hh).
    + intros j k s s' info info' [-> _] [-> _] Hjk. contradiction.
  - destruct (issuing_floor f0 _ _ Hc' Hf0) as [_ Hc]. split; [exact (Hc Hh)|]. split.
    + apply no_claims_climb. intros f Hf. exact (proj1 (issuing_floor _ _ _ Hc' Hf)).
    + intros j k s s' info info' [].
Qed.

(** ** A life *)

Lemma above_zero (m : FileMedia) : above 0 m.
Proof.
  intros _ copy x r _ Hv. apply decode_ok_inv in Hv as [(_ & Hn & _) _]. unfold is_u64 in Hn. lia.
Qed.

Lemma recovery_above f pa pb (m m1 : FileMedia) r : recovery pa pb m = (m1, r) -> above f m ->
  above f m1 /\ cleaner m m1.
Proof.
  unfold recovery. intros E Ha. destruct (startup_recover _ _ _ _ _ _) as [[da db] r1] eqn:Er.
  injection E as <- <-.
  apply startup_files in Er as [Ra Rb]; [|unfold loop_fuel; lia..].
  split; [|intros Hh; exact Hh]. intros Hh.
  assert (Hrep : forall copy other d, repaired_from (media_file m copy) (media_file m other) d ->
    forall x r, x ∈ contents d -> decode_and_verify x = Ok r -> f <= ar_next r).
  { intros copy other d Hd x r Hx Hv. destruct (Hd x Hx) as [Hold|[[e He]|(r' & Hr' & ->)]].
    - exact (Ha Hh copy x r Hold Hv).
    - congruence.
    - apply decode_ok_inv in Hr' as Hi. destruct Hi as (Hw & Hcan & _).
      rewrite decode_encode_record in Hv by assumption. injection Hv as <-.
      apply (Ha Hh other (dv_data (media_file m other))); [left | exact Hr']. }
  intros [] x r' Hx Hv; [exact (Hrep CopyA CopyB da Ra x r' Hx Hv) | exact (Hrep CopyB CopyA db Rb x r' Hx Hv)].
Qed.

Lemma ended_above f (m m' : FileMedia) : ended m m' -> above f m -> above f m' /\ cleaner m m'.
Proof.
  intros [-> | ->] Ha; [split; [exact Ha | intros Hh; exact Hh]|].
  split; [apply above_crash, Ha | exact (proj1 (crash_law m))].
Qed.

Lemma life_climbs pa pb (m m' : FileMedia) claims : life pa pb m m' claims -> fm_clean m' = true ->
  fm_clean m = true /\ climbs (fun f => above f m) (fun f => above f m') claims /\ apart claims.
Proof.
  intros Hl Hh.
  assert (Hnone : (forall f, above f m -> above f m' /\ cleaner m m') ->
    fm_clean m = true /\ climbs (fun f => above f m) (fun f => above f m') no_claims /\ apart no_claims).
  { intros Hk. split; [exact (proj2 (Hk 0 (above_zero m)) Hh)|]. split.
    - apply no_claims_climb. intros f Hf. exact (proj1 (Hk f Hf)).
    - intros j k s s' info info' []. }
  destruct Hl as [m1 r Hr He|m1 rep reader book m2 reader' e Hr Ho He
                 |m1 rep reader book m2 reader' c c' claims Hr Ho Hp He].
  - apply Hnone. intros f Hf. destruct (recovery_above f _ _ _ _ _ Hr Hf) as [A1 C1].
    destruct (ended_above f _ _ He A1) as [A2 C2]. split; [exact A2 | intros X; auto].
  - apply Hnone. intros f Hf. destruct (recovery_above f _ _ _ _ _ Hr Hf) as [A1 C1].
    destruct (core_open_above f _ _ _ _ _ _ A1 Ho) as (A2 & C2 & _).
    destruct (ended_above f _ _ He A2) as [A3 C3]. split; [exact A3 | intros X; auto].
  - assert (Hopen : forall f, above f m -> floor f c /\ cleaner m (co_media c)).
    { intros f Hf. destruct (recovery_above f _ _ _ _ _ Hr Hf) as [A1 C1].
      destruct (core_open_above f _ _ _ _ _ _ A1 Ho) as (A2 & C2 & Hc).
      destruct (Hc c eq_refl) as (<- & Hw & Hn). split; [|intros X; auto].
      split_and!; auto. }
    destruct (Hopen 0 (above_zero m)) as [Hfc Hcm].
    destruct (process_climbs c c' claims 0 Hp Hfc) as (Hh1 & Hclimb & Hap).
    { exact (proj2 (ended_above 0 _ _ He (above_zero _)) Hh). }
    split; [exact (Hcm Hh1)|]. split; [|exact Hap]. intros f Hf.
    destruct (Hopen f Hf) as [Hff _]. destruct (Hclimb f Hff) as [Hff' Hcl].
    assert (Hend : forall x, floor x c' -> above x m')
      by (intros x Hx; exact (proj1 (ended_above x _ _ He (proj1 (proj2 Hx))))).
    split; [exact (Hend f Hff')|]. intros k s info Hk. destruct (Hcl k s info Hk). auto.
Qed.

(** ** All lives *)

Lemma lives_climb pa pb m ls m' : lives pa pb m ls m' -> fm_clean m' = true ->
  fm_clean m = true /\ forall f i claims k s info, above f m -> ls !! i = Some claims ->
    claims k s info -> f <= si_segment info.
Proof.
  induction 1 as [m|m m1 m2 claims rest Hl _ IH]; intros Hh; [split; [exact Hh | discriminate]|].
  destruct (IH Hh) as [Hh1 Hrest].
  destruct (life_climbs _ _ _ _ _ Hl Hh1) as (Hhm & Hcl & _). split; [exact Hhm|].
  intros f [|i] cl k s info Hf Hi Hk.
  - injection Hi as <-. exact (proj1 (proj2 (Hcl f Hf) k s info Hk)).
  - exact (Hrest f i cl k s info (proj1 (Hcl f Hf)) Hi Hk).
Qed.

(** Segments of later lives are above those of earlier ones. *)
Lemma lives_ordered pa pb m ls m' : lives pa pb m ls m' -> fm_clean m' = true ->
  forall i j A B k l s s' info info', ls !! i = Some A -> ls !! j = Some B -> (i < j)%nat ->
    A k s info -> B l s' info' -> si_segment info < si_segment info'.
Proof.
  induction 1 as [m|m m1 m2 claims rest Hl Hr IH]; intros Hh i j A B k l s s' info info' Hi Hj Hij HA HB;
    [discriminate|].
  destruct (lives_climb _ _ _ _ _ Hr Hh) as [Hh1 Hrest].
  destruct j as [|j]; [lia|]. destruct i as [|i].
  - injection Hi as <-. destruct (life_climbs _ _ _ _ _ Hl Hh1) as (_ & Hcl & _).
    destruct (proj2 (Hcl 0 (above_zero m)) k s info HA) as [_ Hab].
    pose proof (Hrest _ j B l s' info' Hab Hj HB). lia.
  - apply (IH Hh i j A B k l s s'); auto. lia.
Qed.

Lemma lives_apart pa pb m ls m' : lives pa pb m ls m' -> fm_clean m' = true ->
  forall i A, ls !! i = Some A -> apart A.
Proof.
  induction 1 as [m|m m1 m2 claims rest Hl Hr IH]; intros Hh [|i] A Hi; try discriminate.
  - injection Hi as <-. destruct (lives_climb _ _ _ _ _ Hr Hh) as [Hh1 _].
    exact (proj2 (proj2 (life_climbs _ _ _ _ _ Hl Hh1))).
  - exact (IH Hh i A Hi).
Qed.

(** ** What keys a session *)

(** The session names segment [i], and its keys, while it has them, are the halves of what
    the book gave for [i]. *)
Definition keyed_at (i : Z) (s : Session) : Prop :=
  sx_segment (ss_ctx s) = i /\ forall keys, ss_keys s = Some keys ->
    exists (r r' : R) body, segment_read r i = (r', Ok body) /\ keys = split_segment body.

Lemma issue_reads (c c' : FCore) seg : issue c = (c', Some (Ok seg)) ->
  exists (r r' : R), segment_read r (next_of c) = (r', Ok (cs_inner seg)).
Proof.
  unfold issue, issue_reserved. intros E.
  repeat (case_match_in E; try discriminate). injection E as _ <-.
  eexists _, _. eassumption.
Qed.

Lemma took_keyed (c c' : FCore) s info : took c (c', Ok (s, info)) -> keyed_at (si_segment info) s.
Proof.
  intros [_ Ht]. destruct (Ht s info eq_refl) as (d & seg & _ & E & -> & Hi & Hk).
  split; [exact Hi|]. intros keys Hs. destruct Hk as [Hk|Hk]; [|congruence].
  destruct (issue_reads _ _ _ E) as (r & r' & Hr). exists r, r', (cs_inner seg).
  split; [exact Hr|]. rewrite Hs in Hk. injection Hk as ->. reflexivity.
Qed.

Lemma process_keyed (c c' : FCore) claims k s info : process c c' claims -> claims k s info ->
  keyed_at (si_segment info) s.
Proof.
  intros Hp. destruct Hp as [fuel opts audit ep deadline book g c' Hg _ _|ep deadline t c' r Hr|c' _];
    [| |intros []].
  - intros Ho. apply (opened_in_turns ep deadline c g k s info Hg) in Ho as (a & b & _ & Hk).
    exact (took_keyed a b s info Hk).
  - intros [_ ->]. eapply took_keyed.
    exact (ends_runs _ _ _ _ (client_handshake_took c ep deadline) Hr).
Qed.

Lemma lives_keyed pa pb m ls m' : lives pa pb m ls m' -> forall i A k s info,
  ls !! i = Some A -> A k s info -> keyed_at (si_segment info) s.
Proof.
  induction 1 as [m|m m1 m2 claims rest Hl _ IH]; intros [|i] A k s info Hi Hk; try discriminate.
  - injection Hi as <-. destruct Hl; [destruct Hk..|eapply process_keyed; eassumption].
  - exact (IH i A k s info Hi Hk).
Qed.

(** C1: no two sessions of an end share a segment, over its whole life.  Take any sequence
    of server and client processes over the two anchor files, whatever the calls of the
    files, the network and the other parts answer: each recovers the files, opens the
    allocator and establishes sessions, a server in any interleaving of any connections;
    each may fail at any step, stop or be cut off at any point, also by a crash of the
    machine that brings back earlier contents of the files.  Two sessions of two different
    processes, or of two connections of one, name different segments of the book, and each
    is keyed by the halves of what the book gave at the segment it names, unless a torn
    record has passed the digest. *)
Theorem sessions_never_share pa pb m ls m' i j A B k l s s' info info' :
  lives pa pb m ls m' -> fm_clean m' = true ->
  ls !! i = Some A -> ls !! j = Some B -> (i, k) <> (j, l) ->
  A k s info -> B l s' info' ->
  si_segment info <> si_segment info' /\
  keyed_at (si_segment info) s /\ keyed_at (si_segment info') s'.
Proof.
  intros Hl Hh Hi Hj Hne HA HB.
  split; [|split; [exact (lives_keyed _ _ _ _ _ Hl i A k s info Hi HA)
                  |exact (lives_keyed _ _ _ _ _ Hl j B l s' info' Hj HB)]].
  destruct (Nat.lt_trichotomy i j) as [Hij|[->|Hij]].
  - pose proof (lives_ordered _ _ _ _ _ Hl Hh i j A B k l s s' info info' Hi Hj Hij HA HB). lia.
  - replace B with A in HB by congruence.
    apply (lives_apart _ _ _ _ _ Hl Hh j A Hi k l s s' info info' HA HB). congruence.
  - pose proof (lives_ordered _ _ _ _ _ Hl Hh j i B A l k s' s info' info Hj Hi Hij HB HA). lia.
Qed.

End Lives.

(** ** Witness: a client, a crash of its machine, and a server on the same files *)

Module LivesWitness.
#[local] Existing Instance checksum_aead.
#[local] Existing Instance low_digest.
Import ServerWitness.

Notation DemoCore := (Core FileMedia SimBook).

Definition demo_id : BookId := zeros 16.
Definition demo_path : Path := components (ascii_bytes "/mnt/anchor").

(** The second file is one record behind: it is repaired with a short write and an
    interruption on the way. *)
Definition anchors : FileMedia :=
  MkFileMedia (MkDevice (encode_record (anchor_init demo_id) []) [] 0 [])
    (MkDevice (encode_record (anchor_init demo_id) []) [] 0 [])
    true.

Definition zero_book : SimBook := MkBook 9 Byte.x00 None.
Definition zero_segment : CommittedSegment := MkSegment (zeros 64).

(** The start of a process; what it would have without one is never used. *)
Definition no_core : DemoCore := MkCore anchors zero_book demo_id (anchor_init demo_id) true.

Definition start (m : FileMedia) : DemoCore :=
  match snd (core_open (fst (recovery demo_path demo_path m)) zero_book demo_id) with
  | Ok c => c
  | Err _ => no_core
  end.

Definition starts (m : FileMedia) : bool :=
  is_ok (snd (recovery demo_path demo_path m)) &&
  is_ok (snd (core_open (fst (recovery demo_path demo_path m)) zero_book demo_id)).

Lemma start_life m c' claims m' : starts m = true -> process (start m) c' claims ->
  ended (co_media c') m' -> life (R := SimBook) demo_path demo_path m m' claims.
Proof.
  unfold starts, start. intros Hs Hp He. apply andb_prop in Hs as [Hr Ho].
  destruct (recovery demo_path demo_path m) as [m1 [rep|e]] eqn:Er; [|discriminate Hr].
  cbn [fst snd] in *. destruct (core_open m1 zero_book demo_id) as [[m2 rd] [c|e]] eqn:Ec; [|discriminate Ho].
  exact (life_open _ _ _ _ m1 rep zero_book demo_id m2 rd c c' claims Er Ec Hp He).
Qed.

(** What a server of the same book answers the client. *)
Definition sent_frames (t : list (event proto_answer)) : list (list byte) :=
  concat (map (fun e => match projT1 e with PcSend w => [w] | _ => [] end) t).

Definition peer (frames : list (list byte)) {I} (alloc : I) : World I :=
  MkWorld demo_view BookWitness.on_disk frames alloc.

Definition server_answers : list (list byte) :=
  let stock := repeat zero_segment 6 in
  sent_frames (snd (fst (exec (proto_run (I := Stock))
    (peer (client_wires 0 zero_segment) stock)
    (server_handshake (H0 := list_issuer) (H1 := list_pointer) stock demo_endpoint 30)))).

(** The client, at the start of the book. *)
Definition client_calls (w : World DemoCore) (c : ProtoCall) : World DemoCore * proto_answer c :=
  match c return World DemoCore * proto_answer c with
  | PcRandom => (w, Some demo_rc)
  | c => proto_run w c
  end.

Definition client_run : World DemoCore * list (event proto_answer) *
  outcome (DemoCore * result (Session * SessionInfo) SessionFailure) := exec client_calls (peer server_answers (start anchors))
  (client_handshake (start anchors) demo_endpoint 30).

Definition result_of (o : outcome (DemoCore * result (Session * SessionInfo) SessionFailure)) :
  DemoCore * result (Session * SessionInfo) SessionFailure :=
  match o with Done r => r | _ => (no_core, Err bad_order) end.

Definition after_client : DemoCore := fst (result_of (snd client_run)).

(** The machine crashes; then a server with one connection. *)
Definition crashed : FileMedia := media_crash (co_media after_client).

Definition server_run := exec cli_run (peer (client_wires 1 zero_segment) (start crashed))
  (serve_one 20 options (Some 7) demo_endpoint 30 demo_id).

Definition threads : list (nat * cli_event DemoCore) := map (pair 0%nat) (snd (fst server_run)).

Definition final : FileMedia := co_media (mutex_value (start crashed) threads).

Lemma client_is_run : runs (client_handshake (start anchors) demo_endpoint 30)
  (snd (fst client_run)) (snd client_run).
Proof. unfold client_run. apply exec_is_run. Qed.

Lemma server_is_run : runs (serve_one 20 options (Some 7) demo_endpoint 30 demo_id)
  (snd (fst server_run)) (snd server_run).
Proof. unfold server_run. apply exec_is_run. Qed.

Lemma client_done : exists s info,
  snd client_run = Done (after_client, Ok (s, info)).
Proof.
  assert (Hd : is_ok (snd (result_of (snd client_run))) = true) by (vm_compute; reflexivity).
  unfold after_client. destruct (snd client_run) as [[c [[s info]|f]]| |]; try discriminate Hd. eauto.
Qed.

Lemma client_established : exists s info,
  life (R := SimBook) demo_path demo_path anchors crashed
    (fun k s' info' => k = 0%nat /\ Ok (E := SessionFailure) (s, info) = Ok (s', info')).
Proof.
  assert (Hs : starts anchors = true) by (vm_compute; reflexivity).
  destruct client_done as (s & info & E). pose proof client_is_run as Hr. rewrite E in Hr.
  exists s, info. apply (start_life anchors after_client); [exact Hs | | right; reflexivity].
  exact (process_client _ _ _ _ _ _ Hr).
Qed.

Lemma server_opened : exists s info,
  life (R := SimBook) demo_path demo_path crashed final (fun k => opened demo_endpoint 30 (events_of k threads)) /\
  opened demo_endpoint 30 (events_of 0 threads) s info.
Proof.
  assert (Hs : starts crashed = true) by (vm_compute; reflexivity).
  assert (Ht : existsb is_term (snd (fst server_run)) = true) by (vm_compute; reflexivity).
  assert (Hg : shared (start crashed) None threads) by (vm_compute; repeat split).
  pose proof server_is_run as Hr.
  assert (He : forall k, events_of k threads = if (0 =? k)%nat then snd (fst server_run) else [])
    by (intros k; apply events_pair).
  destruct (terminal_opened _ _ _ _ _ _ _ _ Hr Ht) as (s & info & Ho).
  exists s, info. rewrite He. split; [|exact Ho].
  apply (start_life crashed (mutex_value (start crashed) threads)); [exact Hs | | left; reflexivity].
  eapply process_server; [exact Hg | | apply issuing_refl].
  intros k. rewrite He. destruct k; [exact (runs_follows _ _ _ Hr) | exact Logic.I].
Qed.

Lemma final_clean : fm_clean final = true.
Proof. vm_compute. reflexivity. Qed.

End LivesWitness.

#[local] Existing Instance checksum_aead.
#[local] Existing Instance low_digest.
Import LivesWitness.

Lemma sessions_never_share_witness :
  exists A B s info s' info',
    lives (R := SimBook) demo_path demo_path anchors [A; B] final /\ A 0%nat s info /\ B 0%nat s' info' /\
    (si_segment info <> si_segment info' /\
     keyed_at (R := SimBook) (si_segment info) s /\ keyed_at (R := SimBook) (si_segment info') s').
Proof.
  destruct client_established as (s & info & L1).
  destruct server_opened as (s' & info' & L2 & E2).
  eexists _, _, s, info, s', info'.
  assert (L : lives (R := SimBook) demo_path demo_path anchors [_; _] final)
    by (eapply lives_next; [exact L1|]; eapply lives_next; [exact L2 | apply lives_none]).
  split; [exact L|]. split; [split; reflexivity|]. split; [exact E2|].
  refine (sessions_never_share (R := SimBook) demo_path demo_path anchors _ final 0 1 _ _ 0 0 s s' info info'
    L final_clean eq_refl eq_refl _ (conj eq_refl eq_refl) E2).
  discriminate.
Defined.
