(* ===== verification/CliSpec.v ===== *)
(** * CliSpec: the order in which the commands start up

    What [serve] and [connect] have done before each of their calls, and how they
    end. *)

From stdpp Require Import strings.
From S2P Require Export ConnSpec.

#[local] Open Scope list_scope.
#[local] Open Scope Z_scope.

Section Startup.
Context `{Aead} `{Sha256} {I : Type} `{SegmentIssuer I} `{PointerState I}.
Context (fuel : nat) (book anchor_a anchor_b : Path) (allow : bool)
  (audit_log : option Path) (deadline : Z).

Definition hardened (t : list (cli_event I)) : Prop :=
  ran ClSys (fun _ x => x) harden_process (Ok tt) t.

(** Hardened, the book open, the environment without a block, the log open. *)
Definition checked (t : list (cli_event I)) (header : BookHeader) (audit : AuditLog) : Prop :=
  hardened t /\
  ran (ClBook book) (fun _ x => x) (book_open fuel) (Ok header) t /\
  (exists report, refuse_startup report = false /\
     ran ClSys (fun _ x => x)
       (cli_doctor (Some (MkDoctorPaths book anchor_a anchor_b)) allow) report t) /\
  match audit_log with
  | Some p => ran ClSys (fun _ x => x) (audit_open p) (Ok audit) t
  | None => audit = None
  end.

Definition recovered (t : list (cli_event I)) : Prop :=
  exists report, In (ev (A := cli_answer) (ClRecover anchor_a anchor_b) (Ok report)) t.

Definition config_of (header : BookHeader) : AllocatorConfig :=
  MkAllocConfig book anchor_a anchor_b (bh_book_id header).

Definition endpoint_of (header : BookHeader) : Endpoint :=
  MkEndpoint (bh_book_id header) (bh_segment_count header).

(** All of it, and the allocator open. *)
Definition started (t : list (cli_event I)) (header : BookHeader) (audit : AuditLog)
  (alloc : I) : Prop :=
  checked t header audit /\ recovered t /\
  In (ev (A := cli_answer) (ClAllocator (config_of header)) (Ok alloc)) t.

(** A client's session: established by its allocator, its segment logged. *)
Definition secured (t : list (cli_event I)) : Prop :=
  exists header audit alloc alloc' session info,
    started t header audit alloc /\
    ran ClProto (fun _ x => x) (client_handshake alloc (endpoint_of header) deadline)
      (alloc', Ok (session, info)) t /\
    logged audit (issued_entry (bh_book_id header) info) t.

(** What the two commands may do, given what they did. *)
Definition start_allowed (t : list (cli_event I)) (c : CliCall I) : cli_answer c -> Prop :=
  match c with
  | ClSys _ | ClStatus _ => fun _ => True
  | ClBook p _ => fun _ => p = book /\ hardened t
  | ClRecover a b => fun _ => a = anchor_a /\ b = anchor_b /\ exists h l, checked t h l
  | ClAllocator cfg => fun _ =>
      exists h l, cfg = config_of h /\ checked t h l /\ recovered t
  | ClShare alloc => fun _ => exists h l, started t h l alloc
  | ClSpawn l ep d id => fun _ =>
      exists h alloc, started t h l alloc /\ ep = endpoint_of h /\ d = deadline /\
        id = bh_book_id h
  | ClRegistry _ _ | ClBind _ | ClLocalAddr | ClAccept | ClJoin | ClLock | ClUnlock _
  | ClConnect _ | ClProto _ => fun _ => exists h l alloc, started t h l alloc
  | ClClient _ | ClRawMode | ClRestoreMode | ClWindow => fun _ => secured t
  | _ => fun _ => False
  end.

Notation upholds := (act_upholds start_allowed).

Lemma checked_app t h l x : checked t h l -> checked (t ++ x) h l.
Proof.
  intros (Hh & Hb & (r & Hr & Hd) & Ha). split_and!; try (apply ran_app; assumption).
  - exists r. split; [exact Hr | apply ran_app, Hd].
  - destruct audit_log; [apply ran_app, Ha | exact Ha].
Qed.

Lemma recovered_app t x : recovered t -> recovered (t ++ x).
Proof. intros [r Hr]. exists r. apply in_or_app. auto. Qed.

Lemma started_app t h l alloc x : started t h l alloc -> started (t ++ x) h l alloc.
Proof.
  intros (Hc & Hr & Ha). split_and!;
    [apply checked_app, Hc | apply recovered_app, Hr | apply in_or_app; auto].
Qed.

(** Whether the command has the tty in raw mode. *)
Definition raw_call (raw : bool) (c : CliCall I) : cli_answer c -> bool :=
  match c with
  | ClRawMode => fun a => a
  | ClRestoreMode => fun _ => false
  | _ => fun _ => raw
  end.

Definition raw_mode (t : list (cli_event I)) : bool :=
  List.fold_left (fun raw e => raw_call raw (projT1 e) (projT2 e)) t false.

Lemma raw_snoc t c a : raw_mode (t ++ [ev (A := cli_answer) c a]) = raw_call (raw_mode t) c a.
Proof. unfold raw_mode. rewrite fold_left_app. reflexivity. Qed.

(** More events, the tty as it was. *)
Definition grew (t t' : list (cli_event I)) : Prop :=
  (exists x, t' = t ++ x) /\ raw_mode t' = raw_mode t.

Lemma grew_refl t : grew t t.
Proof. split; [exists []; rewrite app_nil_r|]; reflexivity. Qed.

Lemma grew_trans t1 t2 t3 : grew t1 t2 -> grew t2 t3 -> grew t1 t3.
Proof.
  intros [[x ->] R1] [[y ->] R2]. split; [rewrite <- app_assoc; eauto | congruence].
Qed.

Lemma grew_snoc t c a : (forall raw, raw_call raw c a = raw) ->
  grew t (t ++ [ev (A := cli_answer) c a]).
Proof. intros Hc. split; [eauto | rewrite raw_snoc; apply Hc]. Qed.

(** A part of the command, its calls in order while [J] holds; what it returns, it ran to. *)
Lemma part_upholds {C A} (f : C -> CliCall I) g (J : list (cli_event I) -> Prop) {R}
  (p : prog C A (outcome R)) t :
  (forall m c a, J m -> start_allowed m (f c) a /\ J (m ++ [ev (A := cli_answer) (f c) a])) ->
  (forall c a raw, raw_call raw (f c) a = raw) ->
  J t -> upholds (lift f g p) t (fun r t' => J t' /\ grew t t' /\ ran f g p r t').
Proof.
  intros HJ Hraw Ht. eapply act_upholds_mono.
  { apply (act_upholds_part start_allowed f g (fun m => J m /\ raw_mode m = raw_mode t)); [|auto].
    intros m c a [Hm Hr]. destruct (HJ m c a Hm). rewrite raw_snoc, Hraw. auto. }
  cbn beta. intros r t' ([Hj Hm] & Hx & Hr). unfold grew. auto.
Qed.

Lemma sys_upholds {R} (p : sys_act R) t :
  upholds (sys p) t (fun r t' => grew t t' /\ ran ClSys (fun _ x => x) p r t').
Proof.
  eapply act_upholds_mono; [apply (part_upholds _ _ (fun _ => True)); cbn; auto|].
  cbn beta. tauto.
Qed.

Lemma ask_upholds c t (Q : cli_answer c -> list (cli_event I) -> Prop) :
  (forall a, start_allowed t c a) -> (forall a, Q a (t ++ [ev (A := cli_answer) c a])) ->
  upholds (cli_ask c) t Q.
Proof. intros Ha HQ a. split; [apply Ha | apply HQ]. Qed.

Lemma says line t : upholds (status line) t (fun _ t' => grew t t').
Proof. apply ask_upholds; [cbn; auto|]. intros u. apply grew_snoc. reflexivity. Qed.

Lemma says_each ws : forall t, upholds (status_each ws) t (fun _ t' => grew t t').
Proof.
  induction ws as [|w ws IH]; intros t; cbn [status_each]; [apply grew_refl|].
  apply act_upholds_bind. eapply act_upholds_mono; [apply says|]. cbn beta. intros u t1 G1.
  eapply act_upholds_mono; [apply IH|]. cbn beta. intros u' t2 G2. exact (grew_trans _ _ _ G1 G2).
Qed.

(** The codes of a command that gives up. *)
Definition gave_up {T} (r : result T CliError) : Prop :=
  exists code, r = Err (CliExit code) /\ (code = 1 \/ code = EXIT_POLICY_REFUSED).

Lemma gives_up {T} code : code = 1 \/ code = EXIT_POLICY_REFUSED ->
  gave_up (Err (T := T) (CliExit code)).
Proof. unfold gave_up. eauto. Qed.

Lemma prepare_upholds :
  upholds (prepare fuel book anchor_a anchor_b allow audit_log) [] (fun r t =>
    raw_mode t = false /\
    match r with Ok (header, audit) => checked t header audit | Err _ => gave_up r end).
Proof.
  apply act_upholds_bind. eapply act_upholds_mono; [apply sys_upholds|].
  cbn beta. intros [[]|e] t1 [[_ R1] Hhard]; [|split; [exact R1 | apply gives_up; auto]].
  apply act_upholds_bind. eapply act_upholds_mono.
  { apply (part_upholds (ClBook book) _ hardened); [|reflexivity|exact Hhard].
    intros m c a Hm. split; [split; auto | apply ran_app, Hm]. }
  cbn beta. intros [header|e] t2 (Hh & [_ R2] & Hbook); rewrite R1 in R2;
    [|split; [exact R2 | apply gives_up; auto]].
  apply act_upholds_bind. eapply act_upholds_mono; [apply sys_upholds|].
  cbn beta. intros report t3 [[[x ->] R3] Hdoc].
  apply act_upholds_bind. eapply act_upholds_mono; [apply says|]. cbn beta.
  intros u t4 [[y ->] R4].
  assert (R : raw_mode ((t2 ++ x) ++ y) = false) by (rewrite R4, R3; exact R2).
  destruct (refuse_startup report) eqn:Er; [split; [exact R | apply gives_up; auto]|].
  assert (G : forall z l,
    match audit_log with
    | Some p => ran ClSys (fun _ x => x) (audit_open p) (Ok l) ((t2 ++ x) ++ z)
    | None => l = None
    end -> checked ((t2 ++ x) ++ z) header l).
  { intros z l Hl. split; [do 2 apply ran_app; exact Hh|].
    split; [do 2 apply ran_app; exact Hbook|]. split; [|exact Hl].
    exists report. split; [exact Er | apply ran_app, Hdoc]. }
  unfold open_audit. destruct audit_log as [p|]; [|split; [exact R | apply G; reflexivity]].
  apply act_upholds_bind, act_upholds_bind.
  eapply act_upholds_mono; [apply sys_upholds|]. cbn beta.
    intros [l|e] t5 [[[z ->] R5] Haud]; (split; [rewrite R5; exact R|]); [|apply gives_up; auto].
  rewrite <- app_assoc in *. apply G, Haud.
Qed.

(** *** serve *)

Lemma accept_upholds h l alloc sessions n : forall served workers t,
  started t h l alloc ->
  upholds (accept_loop l (endpoint_of h) deadline (bh_book_id h) sessions n served workers) t
    (fun _ t' => started t' h l alloc).
Proof.
  induction n as [|n IH]; intros served workers t Ht; cbn [accept_loop];
    (destruct (sessions <=? served); [exact Ht|]); [exact Logic.I|].
  apply act_upholds_bind, ask_upholds; [intros a; cbn; eauto|].
  intros [u|e].
  2:{ apply act_upholds_bind. eapply act_upholds_mono; [apply says|]. cbn beta.
      intros u t' [[x ->] _]. do 2 apply started_app. exact Ht. }
  pose proof (started_app _ _ _ _ [ev (A := cli_answer) ClAccept (Ok u)] Ht) as Ht1.
  apply act_upholds_bind, ask_upholds.
  { intros a. cbn. exists h, alloc. auto. }
  intros [|]; [|exact Logic.I]. apply IH, started_app, Ht1.
Qed.

Lemma join_upholds h l alloc n : forall t, started t h l alloc ->
  upholds (join_all n) t (fun _ t' => started t' h l alloc).
Proof.
  induction n as [|n IH]; intros t Ht; cbn [join_all]; [exact Ht|].
  apply act_upholds_bind, ask_upholds; [intros a; cbn; eauto|].
  intros u. apply IH, started_app, Ht.
Qed.

(** A call that needs the command started, and its failing. *)
Lemma started_call {R} h l alloc c t (k : cli_answer c -> cli_act I R) Q :
  started t h l alloc ->
  (forall a, start_allowed t c a) ->
  (forall a t', started t' h l alloc -> upholds (k a) t' Q) ->
  upholds (act_bind (cli_ask c) k) t Q.
Proof.
  intros Ht Hc Hk. apply act_upholds_bind, ask_upholds; [exact Hc|].
  intros a. apply Hk, started_app, Ht.
Qed.

Definition serve_ends (r : result unit CliError) (t : list (cli_event I)) : Prop :=
  match r with
  | Ok _ => exists h l alloc, started t h l alloc
  | Err _ => gave_up r
  end.

Lemma connections_upholds args h l alloc t :
  sa_deadline args = deadline -> started t h l alloc ->
  upholds (serve_connections fuel args l (endpoint_of h) alloc) t serve_ends.
Proof.
  intros Hd Ht. unfold serve_connections. rewrite Hd. cbn [ep_book_id endpoint_of].
  eapply started_call; [exact Ht | cbn; eauto|]. clear t Ht. intros _ t Ht.
  eapply started_call; [exact Ht | cbn; eauto|]. clear t Ht. intros _ t Ht.
  eapply started_call; [exact Ht | cbn; eauto|]. clear t Ht. intros [u|e] t Ht;
    [|apply gives_up; auto].
  eapply started_call; [exact Ht | cbn; eauto|]. clear t Ht. intros [addr|e] t Ht;
    [|apply gives_up; auto].
  eapply started_call; [exact Ht | cbn; auto|]. clear t Ht. intros _ t Ht.
  eapply started_call; [exact Ht | cbn; auto|]. clear t Ht. intros _ t Ht.
  apply act_upholds_bind. eapply act_upholds_mono; [apply accept_upholds, Ht|].
  cbn beta. clear t Ht. intros [served workers] t Ht.
  apply act_upholds_bind. eapply act_upholds_mono; [apply join_upholds, Ht|].
  cbn beta. clear t Ht. intros _ t Ht. apply act_upholds_bind.
  apply act_upholds_bind. eapply started_call; [exact Ht | cbn; eauto|].
  clear t Ht. intros [a|] t Ht; [|exact Logic.I].
  eapply started_call; [exact Ht | cbn; eauto|]. clear t Ht. intros _ t Ht.
  apply act_upholds_done. destruct (pointer_state a) as [next generation].
  eapply started_call; [exact Ht | cbn; auto|]. clear t Ht. intros _ t Ht.
  cbn. eauto.
Qed.

Lemma run_serve_upholds listen sessions shell lease :
  upholds (run_serve fuel (MkServeArgs book anchor_a anchor_b listen audit_log sessions
    deadline shell lease allow)) [] serve_ends.
Proof.
  apply act_upholds_bind. eapply act_upholds_mono; [apply prepare_upholds|].
  cbn beta. intros [[h l]|e] t1 [_ H1']; [|destruct H1' as (c & [= ->] & Hc); apply gives_up, Hc].
  apply act_upholds_bind, ask_upholds; [cbn; eauto|].
  intros [report|e].
  2:{ apply act_upholds_bind. eapply act_upholds_mono; [apply sys_upholds|].
      cbn beta. intros r t2 _. apply gives_up. auto. }
  set (t2 := t1 ++ _). assert (Hc : checked t2 h l) by apply checked_app, H1'.
  assert (Hr : recovered t2) by (exists report; apply in_or_app; right; left; reflexivity).
  apply act_upholds_bind. eapply act_upholds_mono; [apply sys_upholds|].
  cbn beta. intros _ t3 [[[x ->] _] _].
  apply act_upholds_bind. eapply act_upholds_mono; [apply says_each|].
  cbn beta. intros _ t4 [[y ->] _].
  apply act_upholds_bind.
  eapply act_upholds_mono with (Q := fun _ t' => grew ((t2 ++ x) ++ y) t').
  { destruct (rr_repaired report); [apply says | apply grew_refl]. }
  cbn beta. intros _ t5 [[z ->] _]. apply act_upholds_bind, ask_upholds.
  { intros a. exists h, l. split; [reflexivity|]. rewrite <- !app_assoc.
    split; [apply checked_app, Hc | apply recovered_app, Hr]. }
  intros [alloc|e]; [|apply gives_up; auto].
  assert (Hs : started ((((t2 ++ x) ++ y) ++ z) ++
    [ev (A := cli_answer) (ClAllocator (config_of h)) (Ok alloc)]) h l alloc).
  { split; [do 4 apply checked_app; exact Hc|]. split; [do 4 apply recovered_app; exact Hr|].
    apply in_or_app. right. left. reflexivity. }
  destruct (pointer_state alloc) as [n0 g0].
  eapply started_call; [exact Hs | cbn; auto|]. intros _ t6 H6.
  apply connections_upholds; [reflexivity | exact H6].
Qed.

(** *** connect *)

Lemma secured_snoc t c a : (forall fd l, log_call fd l c a = l) ->
  secured t -> secured (t ++ [ev (A := cli_answer) c a]).
Proof.
  intros Hf (h & l & alloc & alloc' & s & i & Hs & Hr & Hl). exists h, l, alloc, alloc', s, i.
  split_and!; [apply started_app, Hs | apply ran_app, Hr|].
  intros fd Hfd. rewrite log_snoc, Hf. auto.
Qed.

Lemma client_upholds {R} (p : client_act R) b t : secured t -> raw_mode t = b ->
  upholds (client p) t (fun _ t' => secured t' /\ raw_mode t' = b).
Proof.
  intros Hs Hb. eapply act_upholds_mono.
  { apply (part_upholds ClClient _ (fun t => secured t /\ raw_mode t = b)); [| |auto].
    - intros m c a [Hm Hr]. split; [exact Hm|]. split; [apply secured_snoc; auto|].
      rewrite raw_snoc. exact Hr.
    - reflexivity. }
  cbn beta. tauto.
Qed.

Lemma status_secured line b t : secured t -> raw_mode t = b ->
  upholds (status line) t (fun _ t' => secured t' /\ raw_mode t' = b).
Proof.
  intros Hs Hb. apply ask_upholds; [cbn; auto|]. intros u.
  split; [apply secured_snoc; auto | rewrite raw_snoc; exact Hb].
Qed.

Lemma terminal_upholds args session info t : secured t -> raw_mode t = false ->
  upholds (connect_terminal fuel args session info) t
    (fun r t' => secured t' /\ raw_mode t' = false).
Proof.
  intros Hs Hb. apply act_upholds_bind, ask_upholds; [intros a; exact Hs|]. intros raw.
  set (t1 := t ++ _). assert (Hs1 : secured t1) by (apply secured_snoc; auto).
  assert (Hb1 : raw_mode t1 = raw) by (unfold t1; rewrite raw_snoc; reflexivity).
  apply act_upholds_bind, ask_upholds; [intros a; exact Hs1|]. intros w.
  set (t2 := t1 ++ _). assert (Hs2 : secured t2) by (apply secured_snoc; auto).
  assert (Hb2 : raw_mode t2 = raw) by (unfold t2; rewrite raw_snoc; exact Hb1).
  apply act_upholds_bind. eapply act_upholds_mono; [apply client_upholds; [exact Hs2 | exact Hb2]|].
  cbn beta. intros [s att] t3 [Hs3 Hb3]. apply act_upholds_bind.
  eapply act_upholds_mono with (Q := fun _ t' => secured t' /\ raw_mode t' = raw).
  - destruct att as [ts|e]; [|split; assumption]. apply act_upholds_bind.
    eapply act_upholds_mono; [apply status_secured; [exact Hs3 | exact Hb3]|].
    cbn beta. intros _ t4 [Hs4 Hb4]. apply act_upholds_bind.
    eapply act_upholds_mono; [apply client_upholds; [exact Hs4 | exact Hb4]|].
    cbn beta. intros [s' code] t5 H5. exact H5.
  - cbn beta. intros r t4 [Hs4 Hb4]. apply act_upholds_bind. destruct raw; [|split; assumption].
    apply ask_upholds; [intros a; exact Hs4|]. intros u.
    split; [apply secured_snoc; auto | rewrite raw_snoc; reflexivity].
Qed.

(** What the closure of [connect] leaves. *)
Lemma session_upholds args h l alloc t :
  ca_deadline args = deadline -> started t h l alloc -> raw_mode t = false ->
  upholds (connect_session fuel args l (endpoint_of h) alloc) t (fun o t' =>
    raw_mode t' = false /\ forall i c, snd o = Ok (i, c) -> secured t').
Proof.
  intros Hd Hs Hb. unfold connect_session. rewrite Hd. apply act_upholds_bind.
  eapply act_upholds_mono.
  { apply (part_upholds ClProto _ (fun t => started t h l alloc)); [|reflexivity|exact Hs].
    intros m c a Hm. split; [cbn; eauto | apply started_app, Hm]. }
  cbn beta. intros [alloc' r] t1 (Hs1 & [_ R1] & Hran). rewrite Hb in R1.
  destruct r as [[session info]|f]; [|split; [exact R1 | discriminate]].
  apply act_upholds_bind. eapply act_upholds_mono.
  { apply act_upholds_both; [apply sys_upholds|].
    apply (emit_log start_allowed (holding t1) (fun _ _ _ _ => Logic.I)). reflexivity. }
  cbn beta. intros issued t2 [[[[x ->] R2] _] (_ & _ & Hlog)]. rewrite R1 in R2.
  destruct issued as [[]|e]; [|split; [exact R2 | discriminate]].
  apply act_upholds_bind. eapply act_upholds_mono; [apply terminal_upholds; [|exact R2]|].
  - exists h, l, alloc, alloc', session, info.
    split_and!; [apply started_app, Hs1 | apply ran_app, Hran | apply Hlog; reflexivity].
  - cbn beta. intros r t3 [Hsec R3]. split; [exact R3 | intros i c _; exact Hsec].
Qed.

(** The codes of [connect]: those of a command that gives up, or the remote shell's. *)
Definition connect_ends (r : result unit CliError) (t : list (cli_event I)) : Prop :=
  raw_mode t = false /\
  (gave_up r \/ exists info code next,
     r = Err (CliExit code) /\
     In (ev (A := cli_answer) (ClStatus (StDone info code next)) tt) t /\
     exists t1 t2, t = t1 ++ t2 /\ secured t1).

Lemma run_connect_upholds target recover :
  upholds (run_connect fuel (MkConnectArgs book anchor_a anchor_b target audit_log recover
    deadline allow)) [] connect_ends.
Proof.
  apply act_upholds_bind. eapply act_upholds_mono; [apply prepare_upholds|].
  cbn beta. intros [[h l]|e] t1 [R1 Hc];
    [|destruct Hc as (c & [= ->] & Hc); split; [exact R1 | left; apply gives_up, Hc]].
  assert (Hstop : forall t c a, raw_mode t = false -> (forall raw, raw_call raw c a = raw) ->
    forall code, code = 1 \/ code = EXIT_POLICY_REFUSED ->
    connect_ends (Err (CliExit code)) (t ++ [ev (A := cli_answer) c a])).
  { intros t c a Ht Hq code Hcode. split; [rewrite raw_snoc, Hq; exact Ht|].
    left. apply gives_up, Hcode. }
  apply act_upholds_bind, ask_upholds; [cbn; eauto|].
  intros [report|e]; [|apply Hstop; auto].
  set (t2 := t1 ++ _). assert (Hc2 : checked t2 h l) by apply checked_app, Hc.
  assert (Hr2 : recovered t2) by (exists report; apply in_or_app; right; left; reflexivity).
  assert (R2 : raw_mode t2 = false) by (unfold t2; rewrite raw_snoc; exact R1).
  apply act_upholds_bind. eapply act_upholds_mono; [apply sys_upholds|].
  cbn beta. intros _ t3 [[[x ->] R3] _].
  apply act_upholds_bind. eapply act_upholds_mono; [apply says_each|].
  cbn beta. intros _ t4 [[y ->] R4]. apply act_upholds_bind, ask_upholds.
  { intros a. exists h, l. split; [reflexivity|]. rewrite <- !app_assoc.
    split; [apply checked_app, Hc2 | apply recovered_app, Hr2]. }
  rewrite R3, R2 in R4. intros [alloc|e]; [|apply Hstop; auto].
  set (t5 := _ ++ [_]). assert (Hs : started t5 h l alloc).
  { split; [do 3 apply checked_app; exact Hc2|]. split; [do 3 apply recovered_app; exact Hr2|].
    apply in_or_app. right. left. reflexivity. }
  assert (R5 : raw_mode t5 = false).
  { unfold t5. rewrite raw_snoc. exact R4. }
  apply act_upholds_bind, ask_upholds; [intros a; cbn; eauto|].
  intros [u|e]; [|apply Hstop; auto].
  apply act_upholds_bind. eapply act_upholds_mono.
  { apply (session_upholds _ h l alloc); [reflexivity | apply started_app, Hs|].
    rewrite raw_snoc. exact R5. }
  cbn beta. intros [alloc' [[info code]|f]] t6 [R6 Hsec].
  - apply act_upholds_bind, ask_upholds; [cbn; auto|]. intros [].
    split; [rewrite raw_snoc; exact R6|]. right. exists info, code, (next_of alloc').
    split; [reflexivity|]. split; [apply in_or_app; right; left; reflexivity|].
    exists t6, [ev (A := cli_answer) (ClStatus (StDone info code (next_of alloc'))) tt].
    split; [reflexivity | apply (Hsec info code eq_refl)].
  - destruct (pointer_state alloc') as [n g]. apply act_upholds_bind.
    eapply act_upholds_mono; [apply sys_upholds|]. cbn beta. intros r t7 [[_ R7] _].
    split; [rewrite R7; exact R6|]. left. apply gives_up. auto.
Qed.

End Startup.

(** ** The property *)


(** ** Witness: a server that starts *)

#[local] Existing Instance checksum_aead.
#[local] Existing Instance low_digest.
#[local] Existing Instance list_issuer.
#[local] Existing Instance list_pointer.

Module StartWitness.
Import ServerWitness.

Definition started_server :=
  exec cli_run world0 (run_serve 200 (MkServeArgs (dp_book demo_paths)
    (dp_anchor_a demo_paths) (dp_anchor_b demo_paths) "127.0.0.1:7" None 9 30 "/bin/sh"
    15000 true)).

Lemma server_run : runs
  (run_serve 200 (MkServeArgs (dp_book demo_paths) (dp_anchor_a demo_paths)
    (dp_anchor_b demo_paths) "127.0.0.1:7" None 9 30 "/bin/sh" 15000 true))
  (snd (fst started_server)) (snd started_server).
Proof. unfold started_server. apply exec_is_run. Qed.

Lemma server_starts : snd started_server = Done (Ok tt).
Proof. vm_compute. reflexivity. Qed.

End StartWitness.

Import ServerWitness StartWitness.

