(* ===== verification/Texts.v ===== *)
(** * Texts: what the program writes about its values

    The [Debug] and [Display] texts of protocol values, errors and ends, and the reports
    of the inspection commands, as UTF-8 bytes; with the theorem that the texts of
    values with secret parts do not depend on them. *)

From Stdlib Require Import SpecFloat.
From stdpp Require Import strings.
From S2P Require Export Cli Loopback OtpPump.

#[local] Open Scope list_scope.
#[local] Open Scope Z_scope.

Notation text := (list byte) (only parsing).
#[local] Notation lit s := (ascii_bytes s) (only parsing).

(** ** Numbers, bytes and lists *)

Definition comma : text := Eval cbv in ascii_bytes ", ".

(** [join]. *)
Fixpoint join (sep : text) (l : list text) : text :=
  match l with
  | [] => []
  | [x] => x
  | x :: l => x ++ sep ++ join sep l
  end.

(** [{:?}] of a number of a tuple struct with the name [n]. *)
Definition newtype (n : string) (v : text) : text :=
  lit n ++ [Byte.x28] ++ v ++ [Byte.x29].

Definition bool_text (b : bool) : text := lit (if b then "true" else "false").

(** [0x{:04X}]. *)
Definition upper (b : byte) : byte :=
  if (97 <=? b2z b) && (b2z b <=? 102) then z2b (b2z b - 32) else b.
Definition hex4_upper (n : Z) : text := lit "0x" ++ List.map upper (hex4 n).

(** [{:02x}] and [{:02x?}]. *)
Definition hex2 (b : byte) : text := hex_encode [b].
Definition hex_list (l : list byte) : text :=
  [Byte.x5b] ++ join comma (List.map hex2 l) ++ [Byte.x5d].

(** [{:.d}] of a finite number that is not negative: the nearest with that many places,
    ties to the even one. *)
Definition round_half_even (num den : Z) : Z :=
  let q := num / den in
  let r := 2 * (num mod den) in
  if (den <? r) || ((r =? den) && Z.odd q) then q + 1 else q.

Definition scaled (d : Z) (f : spec_float) : Z :=
  match f with
  | S754_finite _ m e =>
      let num := Zpos m * 10 ^ d in
      if 0 <=? e then num * 2 ^ e else round_half_even num (2 ^ (- e))
  | _ => 0
  end.

Definition decimals (d : Z) (f : spec_float) : text :=
  let n := scaled d f in
  if d =? 0 then dec n
  else dec (n / 10 ^ d) ++ [Byte.x2e] ++ pad_zeros (Z.to_nat d) (dec (n mod 10 ^ d)).

(** ** Values of the protocol ([Debug]) *)

Definition hex_debug (n : string) (bytes : list byte) : text := newtype n (hex_encode bytes).
Definition book_id_debug (b : BookId) : text := hex_debug "BookId" b.
Definition nonce_debug (n : Nonce) : text := hex_debug "Nonce" n.
Definition auth_tag_debug (t : list byte) : text := hex_debug "AuthTag" t.
Definition nonce_domain_debug (d : list byte) : text := hex_debug "SessionNonceDomain" d.
Definition index_debug (i : Z) : text := newtype "SegmentIndex" (dec i).
Definition epoch_debug (e : Z) : text := newtype "Epoch" (dec e).
Definition seq_debug (s : Z) : text := newtype "Sequence" (dec s).

Definition direction_debug (d : Direction) : text :=
  lit (match d with ClientToServer => "ClientToServer" | ServerToClient => "ServerToClient" end).

Definition arbitrate_debug (r : ArbitrateResult) : text :=
  lit (match r with
       | ArOk => "Ok" | ArServerAhead => "ServerAhead" | ArExhausted => "Exhausted"
       | ArBookMismatch => "BookMismatch" | ArClientAhead => "ClientAhead"
       end).

(** The members of both confirmations; the sealed body is left out. *)
Definition confirm_debug (n : string) (c : ConfirmFields) : text :=
  lit n ++ lit "{segment_index: " ++ index_debug (cf_segment_index c) ++
  lit ", session_nonce: " ++ nonce_debug (cf_session_nonce c) ++
  lit ", epoch: " ++ epoch_debug (cf_epoch c) ++ lit ", seq: " ++ seq_debug (cf_seq c) ++
  lit ", sealed: [103B redacted]}".

Definition message_debug (m : Message) : text :=
  match m with
  | Hello id nonce pointer features =>
      lit "Hello{book_id: " ++ book_id_debug id ++ lit ", client_nonce: " ++ nonce_debug nonce ++
      lit ", client_pointer: " ++ index_debug pointer ++ lit ", features: " ++
      newtype "FeatureFlags" (dec features) ++ lit "}"
  | Arbitrate nonce pointer res =>
      lit "Arbitrate{server_nonce: " ++ nonce_debug nonce ++ lit ", server_pointer: " ++
      index_debug pointer ++ lit ", result: " ++ arbitrate_debug res ++ lit "}"
  | IssueRequest pointer c s =>
      lit "IssueRequest{chosen_pointer: " ++ index_debug pointer ++ lit ", client_nonce: " ++
      nonce_debug c ++ lit ", server_nonce: " ++ nonce_debug s ++ lit "}"
  | ConfirmC2s c => confirm_debug "ConfirmC2s" c
  | ConfirmS2c c => confirm_debug "ConfirmS2c" c
  | Data epoch seq data =>
      lit "Data{epoch: " ++ epoch_debug epoch ++ lit ", seq: " ++ seq_debug seq ++
      lit ", data: [" ++ dec (Z.of_nat (length data)) ++ lit "B redacted]}"
  end.

Definition confirm_body_debug (b : ConfirmBody) : text :=
  lit "ConfirmBody{direction: " ++ direction_debug (cb_direction b) ++
  lit ", segment_index: " ++ index_debug (cb_segment_index b) ++
  lit ", epoch: " ++ epoch_debug (cb_epoch b) ++ lit ", seq: " ++ seq_debug (cb_seq b) ++
  lit ", msg_type: " ++ hex4_upper (cb_msg_type b) ++ lit ", ..redacted}".

Definition record_debug (r : SealedRecord) : text :=
  lit "Record{sequence: " ++ dec (rc_sequence r) ++ lit ", len: " ++
  dec (Z.of_nat (length (rc_sealed r))) ++ lit "}".

Definition otp_payload_debug (p : list byte) : text :=
  lit "OtpPayload(" ++ dec (Z.of_nat (length p)) ++ lit "B redacted)".

Definition otp_record_debug (r : OtpDataRecord) : text :=
  lit "OtpDataRecord{dir: " ++ direction_debug (od_direction r) ++
  lit ", bundle_id: " ++ dec (od_bundle_id r) ++ lit ", base_segment: " ++ dec (od_base_segment r) ++
  lit ", record_seq: " ++ dec (od_record_seq r) ++ lit ", pad_offset: " ++ dec (od_pad_offset r) ++
  lit ", ciphertext: [" ++ dec (Z.of_nat (length (od_ciphertext r))) ++ lit "B], tag: [16B]}".

Definition pad_stream_debug (p : PadStream) : text :=
  lit "PadStream{bundle_id: " ++ dec (ps_bundle_id p) ++ lit ", base_segment: " ++
  dec (ps_base_segment p) ++ lit ", cursor: " ++ dec (ps_cursor p) ++ lit "/4096}".

Definition send_outcome_debug (o : SendOutcome) : text :=
  match o with
  | SoRecord record consumed need_pad =>
      lit "Record{record: " ++ otp_record_debug record ++ lit ", consumed_plaintext: " ++
      dec consumed ++ lit ", need_pad: " ++ bool_text need_pad ++ lit "}"
  | SoBackpressure => lit "Backpressure"
  end.

Definition wire_tap_debug (tap : list byte) : text :=
  lit "WireTap(len=" ++ dec (Z.of_nat (length tap)) ++ lit ")".

(** ** Errors and ends ([Display]) *)

Definition error_code_text (c : ErrorCode) : text :=
  lit (name c) ++ lit "(" ++ hex4_upper c ++ lit ")".

(** [SessionFailure::line]. *)
Definition failure_line_text (f : SessionFailure) : text :=
  lit "code=" ++ error_code_text (sf_code f) ++ lit " category=" ++ lit (category_str (sf_category f)).

Definition transport_error_text (e : TransportError) : text :=
  match e with
  | TrFrameTooLarge len => lit "FrameTooLarge(len=" ++ dec len ++ lit ")"
  | TrIo => lit "Io" | TrTimeout => lit "Timeout" | TrClosedByPeer => lit "ClosedByPeer"
  | TrFrameMalformed => lit "FrameMalformed"
  end.

Definition terminal_error_text {TE} (e : TerminalError TE) : text :=
  match e with
  | TeLeaseHeldByOther holder => lit "lease-held-by-other(" ++ dec holder ++ lit ")"
  | TeStaleWriter => lit "stale-writer" | TeTerminalGone => lit "terminal-gone"
  | TeHandshake _ => lit "handshake" | TeSession _ => lit "session"
  | TeTransport _ => lit "transport" | TeIo => lit "io" | TeClosed => lit "closed"
  | TeProtocol => lit "protocol" | TeTimeout => lit "timeout"
  end.

(** [{code}] of an [i32]. *)
Definition int_text (n : Z) : text := if n <? 0 then [Byte.x2d] ++ dec (- n) else dec n.

Definition serve_end_text (e : ServeEnd) : text :=
  match e with
  | SeShellExited code => lit "shell-exited(" ++ int_text code ++ lit ")"
  | SePeerClosed => lit "peer-closed" | SeFenced => lit "fenced"
  | SeLeaseExpired => lit "lease-expired" | SeDeniedBusy => lit "denied-busy"
  | SeDeniedGone => lit "denied-gone" | SeProtocol => lit "protocol"
  | SeFailed e => lit "failed(" ++ terminal_error_text e ++ lit ")"
  end.

Definition book_error_text (e : BookError) : text :=
  match e with
  | BeNotFound => lit "密码本文件不存在或不可读"
  | BeInvalidHeader reason => lit "密码本文件头非法（" ++ lit reason ++ lit "），拒绝加载"
  | BeSegmentOutOfRange index count =>
      lit "段索引越界：index=" ++ dec index ++ lit "，segment_count=" ++ dec count ++
      lit "（绝不越界读/不回卷）"
  | BeIo => lit "密码本 I/O 错误（fail-closed）"
  end.

(** The text of an I/O error comes from the system. *)
Definition generate_error_text (os : OsError -> text) (e : GenerateError) : text :=
  match e with
  | GePathExists => lit "输出路径已存在，拒绝覆盖（防误毁密码本）"
  | GeBadSegmentCount n =>
      lit "段数非法：" ++ dec n ++ lit "（须 1..=" ++ dec MAX_SEGMENT_COUNT ++ lit "）"
  | GeCsprng => lit "OS CSPRNG 失败，生成终止（不降级弱源）"
  | GeIo e => lit "生成 I/O 错误：" ++ os e
  end.

Definition line_error_text (e : LineError) : text :=
  match e with
  | LeSshPrefix =>
      lit "W2 违规：行首 4 字节为 " ++ [QUOTE] ++ lit "SSH-" ++ [QUOTE] ++
      lit "（RFC 4253 §4.2 MUST NOT begin with " ++ [QUOTE] ++ lit "SSH-" ++ [QUOTE] ++ lit "）"
  | LeControlChar byte pos =>
      lit "W3 违规：第 " ++ dec pos ++ lit " 字节为控制符 0x" ++ hex2 byte ++
      lit "（行内不得含 CR/LF/NUL 及 C0 控制符）"
  | LeTooLong len =>
      lit "W4 违规：含 CRLF 总长 " ++ dec len ++ lit " 字节 > " ++ dec MAX_LINE_LEN ++
      lit "（Go x/crypto/ssh 读入预算 255B）"
  end.

(** [CliError] with its reason, as it is printed. *)
Definition cli_error_text (e : CliError) (what : text) : text :=
  match e with CliExit code => what ++ lit "（exit=" ++ int_text code ++ lit "）" end.

(** A path as it was given. *)
Definition anchor_init_error_text (display : Path -> text) (e : AnchorInitError) : text :=
  match e with
  | AiAnchorExists path (Some id) true =>
      lit "锚 " ++ display path ++ lit " 已存在且 book_id=" ++ hex_encode id ++
      lit " 与目标密码本不匹配——O_EXCL 拒绝覆盖（防误毁/防回滚，请人工核对介质）"
  | AiAnchorExists path (Some id) false =>
      lit "锚 " ++ display path ++ lit " 已存在（book_id=" ++ hex_encode id ++
      lit "，疑似重复 init）——O_EXCL 拒绝覆盖"
  | AiAnchorExists path None _ =>
      lit "锚 " ++ display path ++ lit " 已存在且不可读/损坏——O_EXCL 拒绝覆盖（请人工检查现场）"
  | AiSamePath p =>
      lit "两个锚路径相同：" ++ display p ++ lit "（双锚须位于独立介质，wp02 §2.7）"
  | AiUnsupportedFilesystem p =>
      lit "锚路径 " ++ display p ++
      lit " 所在文件系统不在白名单（仅 ext2/3/4、XFS、btrfs；NFS/FUSE/overlay/tmpfs 拒绝初始化）"
  | AiIo p => lit "锚 " ++ display p ++ lit " 创建/写入/fsync 失败（I/O 错误）"
  | AiVerifyFailed p =>
      lit "锚 " ++ display p ++ lit " 写后读回校验失败（与所写 Init 记录不符，fail closed）"
  | AiCleanupFailed p =>
      lit "失败清理未成功，半成品残留于 " ++ display p ++
      lit "（O_EXCL 会拒绝下次 init，需人工处理）"
  end.

(** ** The reports of [book inspect] ([otp-book], inspect.rs) *)

Definition LINE_END : text := [Byte.x0a].
Definition line (l : text) : text := l ++ LINE_END.

(** The text of a warning. *)
Definition warning_text (w : InspectWarning) : text :=
  match w with
  | WDuplicateSegments => lit "duplicate-segments（内容重复段：健康检查失败项）"
  | WAllZeroSegments => lit "all-zero-segments（全零段：健康检查失败项）"
  | WOnesRatio =>
      lit "ones-ratio-out-of-band（bit=1 比例偏离 0.5±0.02：仅统计告警，不构成随机性证明）"
  end.

Definition file_size_sans_header (r : InspectReport) : Z :=
  saturating_sub (ir_file_size r) (Z.of_nat Book.HEADER_LEN).

(** The first bucket with the least count, and the first with the greatest; an empty one
    is never the greatest. *)
Fixpoint least (i : Z) (best : Z * Z) (l : list Z) : Z * Z :=
  match l with
  | [] => best
  | c :: l => least (i + 1) (if c <? best.2 then (i, c) else best) l
  end.
Fixpoint greatest (i : Z) (best : Z * Z) (l : list Z) : Z * Z :=
  match l with
  | [] => best
  | c :: l => greatest (i + 1) (if best.2 <? c then (i, c) else best) l
  end.

(** [as f64]. *)
Definition f64 (z : Z) : spec_float := binary_normalize 53 1024 z 0 false.

Definition freq_line (n : string) (b : Z * Z) (expect : spec_float) : text :=
  line (lit n ++ lit "0x" ++ hex2 (z2b b.1) ++ lit " × " ++ dec b.2 ++ lit "（期望≈" ++
        decimals 0 expect ++ lit "）").

Definition inspect_summary (r : InspectReport) : text :=
  let a := ir_stats r in
  line (lit "book_id        : " ++ hex_list (bh_book_id (ir_header r))) ++
  line (lit "version        : " ++ dec (bh_version (ir_header r))) ++
  line (lit "segment_len    : " ++ dec (bh_segment_len (ir_header r))) ++
  line (lit "segment_count  : " ++ dec (bh_segment_count (ir_header r))) ++
  line (lit "file_size      : " ++ dec (ir_file_size r)) ++
  line (lit "ones_ratio     : " ++ decimals 6 (ir_ones_ratio r)) ++
  (if 0 <? file_size_sans_header r then
     let expect := f64_div (f64 (file_size_sans_header r)) (f64 256) in
     freq_line "byte_freq min  : " (least 0 (0, U64_MAX) (st_byte_freq a)) expect ++
     freq_line "byte_freq max  : " (greatest 0 (0, 0) (st_byte_freq a)) expect
   else []) ++
  line (lit "duplicate_count: " ++ dec (st_duplicate_count a)) ++
  concat (List.map (fun d => line (lit "  重复段: " ++ dec (dp_first d) ++ lit " == " ++ dec (dp_other d)))
            (st_duplicates a)) ++
  line (lit "zero_segments  : " ++ dec (st_zero_count a)) ++
  concat (List.map (fun z => line (lit "  全零段: " ++ dec z)) (st_zero_segments a)) ++
  concat (List.map (fun w => line (lit "WARN: " ++ warning_text w)) (ir_warnings r)) ++
  line (lit "ok             : " ++ bool_text (ir_ok r)).

Definition quoted (t : text) : text := [QUOTE] ++ t ++ [QUOTE].
Definition bracketed (t : text) : text := [Byte.x5b] ++ t ++ [Byte.x5d].

(** A line of the JSON text: the member [n] with the value [v], then [last]. *)
Definition json_line (n : string) (v last : text) : text :=
  line (lit "  " ++ quoted (lit n) ++ lit ": " ++ v ++ last).

Definition inspect_json (r : InspectReport) : text :=
  let a := ir_stats r in
  line (lit "{") ++
  json_line "book_id" (quoted (hex_encode (bh_book_id (ir_header r)))) [] ++
  json_line "version" (dec (bh_version (ir_header r))) (lit ",") ++
  json_line "segment_len" (dec (bh_segment_len (ir_header r))) (lit ",") ++
  json_line "segment_count" (dec (bh_segment_count (ir_header r))) (lit ",") ++
  json_line "file_size" (dec (ir_file_size r)) (lit ",") ++
  json_line "ones_ratio" (decimals 6 (ir_ones_ratio r)) (lit ",") ++
  json_line "duplicate_count" (dec (st_duplicate_count a)) (lit ",") ++
  json_line "duplicates"
    (bracketed (join comma (List.map (fun d =>
       lit "{" ++ quoted (lit "first") ++ lit ": " ++ dec (dp_first d) ++ comma ++
       quoted (lit "other") ++ lit ": " ++ dec (dp_other d) ++ lit "}") (st_duplicates a)))) (lit ",") ++
  json_line "zero_segment_count" (dec (st_zero_count a)) (lit ",") ++
  json_line "zero_segments" (bracketed (join comma (List.map dec (st_zero_segments a)))) (lit ",") ++
  json_line "byte_freq" (bracketed (join (lit ",") (List.map dec (st_byte_freq a)))) (lit ",") ++
  json_line "warnings"
    (bracketed (join comma (List.map (fun w => quoted (warning_text w)) (ir_warnings r)))) (lit ",") ++
  json_line "ok" (bool_text (ir_ok r)) [] ++
  lit "}".

(** ** The reports of [anchor inspect] ([otp-cli], anchorio.rs) *)

Definition payload_name (rec : AnchorRecord) : text :=
  match ar_payload rec with
  | PInit => lit "init"
  | PIntent reserved => lit "intent(reserved=" ++ dec reserved ++ lit ")"
  | PCommit hash => lit "commit(prev_hash=" ++ hex_encode hash ++ lit ")"
  end.

Definition record_line (label : text) (rec : AnchorRecord) : text :=
  label ++ lit ": book_id=" ++ hex_encode (ar_book_id rec) ++ lit " next=" ++ dec (ar_next rec) ++
  lit " generation=" ++ dec (ar_generation rec) ++ lit " payload=" ++ payload_name rec.

Definition failure_of (st : AnchorStatus) : text := lit (default "unknown"%string (as_failure st)).

Definition status_line (path : text) (st : AnchorStatus) : text :=
  line match as_record st with
       | Some rec => record_line path rec
       | None => path ++ lit ": FAILED(" ++ failure_of st ++ lit ")"
       end.

(** [path_a] and [path_b] as displayed. *)
Definition anchor_summary `{Sha256} (path_a : text) (path_b : option text) (r : AnchorInspectReport) : text :=
  status_line path_a (ai_a r) ++
  match path_b with
  | None => []
  | Some pb =>
      status_line pb (ai_b r) ++
      line match AnchorInit.relation (ai_a r) (ai_b r) with
           | Some rel => lit "relation: " ++ lit rel
           | None => lit "relation: unreadable/corrupt copy present"
           end
  end.

Definition json_member (n : string) (v : text) : text := quoted (lit n) ++ lit ":" ++ v.

Definition anchor_json (key : string) (path : text) (st : AnchorStatus) : text :=
  json_member key (lit "{" ++ json_member "path" (quoted path) ++ lit "," ++
    match as_record st with
    | Some rec =>
        json_member "book_id" (quoted (hex_encode (ar_book_id rec))) ++ lit "," ++
        json_member "next" (dec (ar_next rec)) ++ lit "," ++
        json_member "generation" (dec (ar_generation rec)) ++ lit "," ++
        json_member "payload" (quoted (payload_name rec))
    | None => json_member "error" (quoted (failure_of st))
    end ++ lit "}").

Definition anchor_report_json `{Sha256} (path_a : text) (path_b : option text)
  (r : AnchorInspectReport) : text :=
  lit "{" ++ anchor_json "a" path_a (ai_a r) ++
  match path_b with
  | None => []
  | Some pb =>
      lit "," ++ anchor_json "b" pb (ai_b r) ++ lit "," ++
      json_member "relation"
        (quoted (lit (default "unreadable-or-corrupt"%string (AnchorInit.relation (ai_a r) (ai_b r)))))
  end ++ lit "}".

(** ** Nothing secret is written

    A value without its secret bytes: as many zero bytes in their place, and for the
    fields that are not written at all, none. *)
Definition blank (l : list byte) : list byte := replicate (length l) Byte.x00.

Definition blank_confirm (c : ConfirmFields) : ConfirmFields :=
  MkConfirm (cf_segment_index c) (cf_session_nonce c) (cf_epoch c) (cf_seq c) [].

Definition blank_message (m : Message) : Message :=
  match m with
  | ConfirmC2s c => ConfirmC2s (blank_confirm c)
  | ConfirmS2c c => ConfirmS2c (blank_confirm c)
  | Data epoch seq data => Data epoch seq (blank data)
  | m => m
  end.

Definition blank_body (b : ConfirmBody) : ConfirmBody :=
  MkBody [] (cb_segment_index b) [] [] (cb_direction b) (cb_epoch b) (cb_seq b) (cb_msg_type b) [].

Definition blank_otp (r : OtpDataRecord) : OtpDataRecord :=
  MkOtpRecord (od_direction r) (od_bundle_id r) (od_base_segment r) (od_record_seq r)
    (od_pad_offset r) (blank (od_ciphertext r)) [].

Definition blank_outcome (o : SendOutcome) : SendOutcome :=
  match o with
  | SoRecord r n b => SoRecord (blank_otp r) n b
  | o => o
  end.

Definition blank_pad (p : PadStream) : PadStream :=
  MkPad (ps_bundle_id p) (ps_base_segment p) [] (ps_cursor p).

Lemma blank_length l : length (blank l) = length l.
Proof. apply length_replicate. Qed.

(** The text of a value is the text of the value without its secret bytes: of sealed
    bodies, application data, plaintexts, ciphertexts and tags at most the length is
    written, of pads and of the nonces and labels of a confirmation body nothing. *)
Theorem texts_hide_secrets :
  (forall m, message_debug (blank_message m) = message_debug m) /\
  (forall b, confirm_body_debug (blank_body b) = confirm_body_debug b) /\
  (forall r, record_debug (MkRecord (rc_sequence r) (blank (rc_sealed r))) = record_debug r) /\
  (forall p, otp_payload_debug (blank p) = otp_payload_debug p) /\
  (forall r, otp_record_debug (blank_otp r) = otp_record_debug r) /\
  (forall o, send_outcome_debug (blank_outcome o) = send_outcome_debug o) /\
  (forall p, pad_stream_debug (blank_pad p) = pad_stream_debug p) /\
  (forall tap, wire_tap_debug (blank tap) = wire_tap_debug tap).
Proof.
  unfold record_debug, otp_payload_debug, wire_tap_debug. cbn.
  assert (Ho : forall r, otp_record_debug (blank_otp r) = otp_record_debug r).
  { intros r. unfold otp_record_debug. cbn. rewrite blank_length. reflexivity. }
  split_and!; try exact Ho; try (intros; rewrite ?blank_length; reflexivity).
  - intros []; try reflexivity. cbn. rewrite blank_length. reflexivity.
  - intros [r n b|]; [|reflexivity]. unfold send_outcome_debug, blank_outcome. rewrite Ho. reflexivity.
Qed.

(** ** The report of [book inspect] is not JSON

    The member [book_id] is followed by the end of its line and the next member, with
    no comma between them. *)
Lemma inspect_json_no_comma r : exists rest,
  inspect_json r = lit "{" ++ LINE_END ++ lit "  " ++ quoted (lit "book_id") ++ lit ": " ++
    quoted (hex_encode (bh_book_id (ir_header r))) ++ LINE_END ++
    lit "  " ++ quoted (lit "version") ++ rest.
Proof.
  unfold inspect_json. set (rest := json_line "segment_len" _ _ ++ _).
  exists (lit ": " ++ dec (bh_version (ir_header r)) ++ lit "," ++ LINE_END ++ rest).
  unfold json_line at 1 2, line. rewrite !app_assoc_reverse. cbn [app]. reflexivity.
Qed.

(** A path with a quotation mark ends its own string: the report of an anchor is then
    not JSON either. *)
Example anchor_json_quote :
  anchor_json "a" (lit "/mnt/a" ++ [QUOTE]) (MkStatus None (Some "unreadable"%string)) =
  quoted (lit "a") ++ lit ":{" ++ quoted (lit "path") ++ lit ":" ++ [QUOTE] ++ lit "/mnt/a" ++
  [QUOTE; QUOTE] ++ lit "," ++ quoted (lit "error") ++ lit ":" ++ quoted (lit "unreadable") ++ lit "}".
Proof. reflexivity. Qed.
